(* ===== verification/_CoqProject ===== *)
-Q . S2P
Prelude.v
Threads.v
Errors.v
KVEngine.v
LruSpec.v
Shard.v
Dll.v
ShardRefine.v
Engine.v
EngineSpec.v
EngineRefine.v
EngineKV.v
EngineThms.v
EngineConc.v
EngineConcSpec.v
EngineConcWp.v
EngineConcInv.v
EngineConcThms.v
EngineConcMap.v
EngineConcCalls.v
EngineConcAlone.v
Decimal.v
RespParser.v
RespParserThms.v
RespClient.v
RespThms.v
Observation.v
F64.v
Metrics.v
RespClientThms.v
Server.v
ServerSpec.v
ServerThms.v
EndToEnd.v
ServerConc.v
ServerConcSpec.v
ServerConcWp.v
ServerConcReq.v
ServerConcInv.v
ServerConcCount.v
ServerConcAlone.v
Serve.v
Process.v
ProcessSpec.v
ProcessInv.v
ProcessThms.v
Pool.v
Client.v
PoolThms.v
ClientThms.v
Loopback.v
Types.v
Abi.v
RustStr.v
GuiModels.v
RedisBenchmark.v
RedisRun.v
RunRepository.v
BenchmarkManager.v
BenchmarkThms.v
ServerManager.v
InfoPoller.v
ServerManagerThms.v
InfoThms.v
AppState.v
AppStateThms.v
Relay.v
BenchEngine.v
