(* ===== verification/Prelude.v ===== *)
(** * HybridKV: the verification library

    HybridKV is a key/value cache in Rust: an in-memory engine with byte-bounded
    LRU eviction and TTLs, a TCP server that speaks RESP2 and reports to a
    metrics and an observation module, a blocking client with a connection pool,
    a desktop application that starts servers and benchmarks and shows what they
    report, and the types and ioctl messages of a planned kernel cache. This
    library translates that code into executable definitions and proves it
    correct.

    ** The program and the files that model it

<<
    state.rs --- commands.rs, main.rs            (hkv-gui)
       |   \---- benchmark_manager.rs --- runners/, run_repository.rs
       |   \---- server_manager.rs
    info_poller.rs
       |
    client.rs --- pool.rs --- resp.rs            (hkv-client)
                     |
                 [Network]                       sockets: a class
                     |
    server.rs --- protocol.rs                    (hkv-server)
       |   \---- metrics.rs, observation.rs
    [KVEngine]                                   engine.rs: a class with laws
       |
    memory.rs                                    (hkv-engine)

    types.rs, error.rs, ioctl.rs, protocol.rs    (hkv-common)
>>

    Engine (hkv-engine/src/engine.rs, memory.rs).
    - KVEngine.v: the trait as the class [KVEngine]; the map from keys to values
      and deadlines, [m_live], [m_touch], [m_ttl], [m_expire]; the laws
      [KVEngineLaws]; runs of operations on an engine ([kv_run]) and on the map
      ([m_run]).
    - Shard.v: [ShardInner]. The arena [Vec<Option<Node>>] is a list of optional
      [Node]s whose links are slot indices; the free list, the key map (a [gmap])
      and the TTL heap (a list sorted as the [BinaryHeap] pops) are its other
      fields. One definition per method: [lru_remove], [lru_push_back], [touch],
      [insert_new], [schedule_expiration], [pop_due_expiration], [remove_idx],
      [pop_lru].
    - Dll.v: the segment predicate of the doubly-linked list in the arena.
    - LruSpec.v: the specification of a shard, a list of entries with the least
      recently used first. ShardRefine.v: [shard_rep] ties a shard to its list,
      every method preserves it and does what the list does.
    - Engine.v: [MemoryEngine] with its shards, counters and cursor; the
      [KVEngine] methods, [evict_if_needed], the sweeper [purge_expired] and its
      thread [expirer]. EngineSpec.v: the specification, a sharded LRU cache.
      EngineRefine.v: every method of the engine implements it ([engine_rep]).
      EngineKV.v: the engine is an instance of [KVEngineLaws]. EngineThms.v: the
      properties of whole executions.
    - EngineConc.v: the same methods as programs of atomic actions ([EngineAct]:
      a lock, work on a locked shard, one update of a counter), which threads
      interleave. EngineConcSpec.v: the atomic specification, where a call takes
      effect at one point. EngineConcWp.v: the rules that prove one program under
      interference; EngineConcInv.v: the invariant the threads share, and an
      example; EngineConcThms.v, EngineConcMap.v: the theorems, for the LRU cache
      and for the map; EngineConcCalls.v: the same for threads that do other
      things between their calls; EngineConcAlone.v: one thread alone is Engine.v.

    Server (hkv-server/src).
    - Decimal.v: decimal numerals, shared by parsers and printers.
    - RespParser.v: protocol.rs, [RespParser] with its state machine [ParseState]
      over a buffer of class [BytesMut]. RespParserThms.v: [read_line] against a
      reference, progress of every turn, independence of the chunks.
    - Observation.v: observation.rs and observation/exact.rs. F64.v: [f64] as
      53-bit binary floats, its casts, its printing and parsing. Metrics.v:
      metrics.rs.
    - Server.v: the replies, the handlers, [dispatch_command] with the observers,
      [handle_request], [finish_tracked_request] and the connection loop
      [handle_connection_with_observation] of server.rs. The state is a [World]:
      engine, metrics, observation log, and what the task has read from its
      clocks and written to its socket.
      ServerSpec.v: [decode] (arguments to a [Command]) and [serves] (the reply
      and the new map of a command). ServerThms.v: the server follows it.
    - ServerConc.v: metrics, handlers and connections as programs of atomic
      actions ([SAct]) of any number of tasks. ServerConcSpec.v: what one
      connection has done, given what its calls returned ([served]), or was
      dropped at ([cut_off]).
      ServerConcWp.v, ServerConcReq.v: the rules for one task, and its requests
      proved with them; ServerConcInv.v: what the tasks share; ServerConcCount.v:
      the metrics finished tasks leave; ServerConcAlone.v: one task alone is
      Server.v.
    - Process.v: main.rs, all threads of the running server. A task performs its
      engine calls with the programs of EngineConc.v ([linked]); the background
      thread of [start_expirer] sweeps ([p_expirer]); [main] runs the accept loop
      of Serve.v, whose events spawn and join the tasks ([p_serve],
      [event_occurs]), then stops the sweeper and joins it ([p_main]). After the
      drain's time-out, or when the accept loop is over, the tasks left are dropped
      where they wait for their socket ([aborted], [dropped_at]). ProcessSpec.v:
      the history of the map ([history]) and the calls of each thread. ProcessInv.v: the
      invariant, in which a ghost system of engine threads runs the calls;
      ProcessThms.v: the theorems and examples.
    - Serve.v: the accept loop, the drain and the abort of
      [serve_with_shutdown_with_observation], a step function on [ServeState].

    Client (hkv-client/src).
    - RespClient.v: resp.rs, the encoder and the recursive reply reader.
      RespClientThms.v: the reader inverts the encoding of every reply, and
      returns on every stream. RespThms.v: the encoder against the server's
      parser.
    - Pool.v: pool.rs, its atomic operations on [PoolState] and the sequence of
      them a thread runs, over a [Network]. PoolThms.v: a step relation for any
      number of threads, and the bounds on one call.
    - Client.v: client.rs, the retry loop and every method. ClientThms.v: each
      method against the map. EndToEnd.v: the encoder, the connection and the
      reader together. Loopback.v: the whole client over the whole server.

    GUI back end (hkv-gui/src-tauri/src).
    - RustStr.v: the methods of [str] it uses. GuiModels.v: models.rs, the
      records, the validation of a request, equality with its NaN.
    - RedisBenchmark.v: runners/mod.rs and the command line and output parser of
      runners/redis_benchmark.rs. RedisRun.v: [RedisBenchmarkRunner::start], the
      observer, the readers and [stop], a step function on what they share.
    - RunRepository.v: run_repository.rs, each operation a program of
      file-system calls ([Fs]), so that two of them can be interleaved.
    - BenchmarkManager.v: benchmark_manager.rs, the operations on the mutex and
      the workers cut where they release it ([sys_step]). BenchmarkThms.v: the
      invariant of its runs and what a worker publishes.
    - ServerManager.v: server_manager.rs, [start], [stop], [status] and the
      parser of INFO. InfoPoller.v: info_poller.rs over the client library.
      ServerManagerThms.v, InfoThms.v: their theorems, those of InfoThms.v from
      the GUI to the server's handler of INFO.
    - AppState.v: state.rs, commands.rs and the relay of main.rs over all of the
      above; AppStateThms.v: the merged listing and the errors shown. Relay.v: the
      relay beside the manager, over a broadcast channel that forgets
      ([desk_step]).

    Benchmark (hkv-engine/src/bin/bench_engine.rs). BenchEngine.v: the arguments,
    the generator and the workload, over any engine.

    Shared types (hkv-common/src). Errors.v: error.rs. Types.v: types.rs. Abi.v:
    ioctl.rs and protocol.rs with their C layout computed from the field types.

    Threads.v holds what the concurrent models share: programs of actions
    ([Prog]), threads with the calls they have still to make ([Thread]), a system
    of them and its step ([thread_step]), and schedules ([threads_run]).

    ** How code is translated

    Stateful, fallible code is the monad [M S E A]: from a state to an
    [outcome] ([Val], the [Err] of [Result], [Panic], [Diverge]) and the state
    at that point, so what an error or a panic leaves behind is part of every
    theorem. An [Instant] or [Duration] is a number of nanoseconds; an [Instant]
    past [instant_limit] is the overflow that panics. A [usize] or [u64] is a [Z],
    its wrap-around, saturation or check written where the code has it; the class
    [Profile] says whether a plain [+] that overflows panics (the [dev] profile)
    or wraps ([release]), and theorems hold for both unless they name one.

    A loop is structural recursion, on a list where the code walks one, and
    otherwise on fuel. It is proved that none of these runs out of it, which is
    [Diverge] except in [find_line], a search that matches its reference:
    - [parse_loop]: the bytes in the buffer plus one; every turn takes two;
    - [find_line]: the bytes in the buffer, the scan starting at the second one;
    - [serve_buffer]: the bytes in the buffer plus one; a command takes two;
    - [read_value]: the bytes left plus two; a value takes two at least, so both
      the nesting and the items of an array are within it;
    - [evict_loop]: the slots of all arenas plus one; a turn removes an entry;
    - [purge_shard]: the heap entries plus one; a turn pops one;
    - [acquire_loop]: the idle connections plus one; a turn drops one.
    - [p_evict_loop], run by a thread among others: an argument; more than the
      entries at the start and the writes of all threads is enough;
    - [p_purge_shard]: the entries of the heap it finds plus one;
    - [p_update_max_loop]: an argument; more than the requests of all connections
      is enough, as a compare-exchange fails only when another one succeeded;
    - [p_expirer]: the turns of the sweeper in a schedule, an argument. The thread
      sweeps until it is stopped, so this bound can be used up, and
      [connections_end] says where that shows; so can the events of [p_serve].
    [retry_loop] is structural on the number of retries left. A thread of the GUI
    and the accept loop are step functions; a run is a list of steps.

    ** Parameters

    Code outside the repository is an argument of the definitions that use it:
    the hasher of the shards ([hash], any function); the clocks ([clock], [wall]:
    the value of the n-th reading); the byte buffer ([BytesMut], with its
    documented behaviour as [BytesMutLaws]; [list_bytes_mut] is an instance); the
    sockets ([Network], and [SocketOptions] for the keep-alive builder); the
    [write_all] calls that fail ([write_fault]); the size of a [RespValue] in
    memory. For the GUI: the JSON form of runs ([RunJson], with the round trip of
    serde_json as [RunJsonLaws]); the file-system calls that fail ([io_fault]);
    child processes and the environment ([ChildProcess], [Ambient],
    [ProcessLauncher] with [LauncherLaws]); what starting a runner and its
    [stop] answer. Hypotheses on them are stated in each theorem.

    ** What the theorems show

    - The engine: its answers are the map's ([EngineThms.engine_implements_map])
      or, with a capacity, the LRU cache's ([engine_refines_lru_cache]); its
      arenas, lists, heaps and counters stay well formed ([reachable_engine_wf]);
      a write evicts from the cold end only and ends within the bound
      ([write_evicts_only_lru]); the sweeper removes what expired and nothing
      else; what round-robin eviction and overflowing deadlines do.
    - The engine called by many threads: its calls take effect one at a time, on
      the LRU cache ([engine_linearizable]) and on the map
      ([engine_map_linearizable]); they return and never block each other for
      ever ([concurrent_calls_return]); what is left when they are done is well
      formed and within the capacity ([concurrent_engine_settles]). Two writers
      can evict too much ([concurrent_writers_over_evict]).
    - The wire: commands and replies survive encoding and parsing, in any chunks,
      and both readers return on every input (RespThms.v, RespClientThms.v).
    - The server: every command means what ServerSpec.v says, a connection is
      the stream of its commands, every request is counted once, also when its
      reply cannot be written (EndToEnd.v); the accept loop accounts for its
      tasks (Serve.v); percentiles and hot keys are exact (Metrics.v,
      Observation.v).
    - The running process: under every interleaving of accept loop, connections
      and sweeper, down to the locks and the atomics, aborts at the end of the
      drain included, the clients, whose deadlines fit the clock, share one map
      ([connections_share_one_map]), no count is lost
      ([concurrent_requests_are_counted]), all end, nobody blocks the others for
      ever and only a parser that panicked makes a task or [main] panic
      ([connections_end]), and when [main] has returned nothing is left half done
      ([main_returns_last]), while INFO may mix the figures of different moments
      ([info_can_report_more_errors_than_requests]).
    - The client: the pool's limits hold under all interleavings and a call is
      sent a bounded number of times (PoolThms.v); its methods are the map's
      ([ClientThms.client_refines_map]), over the real server too
      ([Loopback.client_over_server_implements_map]).
    - The shared types: buffers, flags, deadlines, codes, commands and layouts.
    - The GUI: the command line of redis-benchmark carries the request and a run
      reports once, after its output, and can always end (RedisBenchmark.v,
      RedisRun.v); the repository is a list of runs by id, across corrupt files
      ([RunRepository.repository_refines_list]); runs stay well formed under all
      interleavings and a worker follows its runner (BenchmarkThms.v); no server
      process runs untracked while no process call fails
      ([server_process_is_tracked]); a poll returns the server's own counters
      ([InfoThms.poll_reads_server_metrics]); the listing is complete and newest
      first, and a finished run is found after a restart (AppStateThms.v); the
      front end is shown lifecycle events in order, and misses none unless it
      falls behind the channel ([Relay.front_end_sees_lifecycle]).
    - What goes wrong in the GUI: [same_millisecond_starts_collide],
      [stop_misses_watched_process], [listing_can_erase_runs],
      [failed_stop_forgets_server], [poll_error_covers_status].
    - The benchmark ends and reads what it loaded
      ([BenchEngine.bench_reads_what_it_loaded]).
    - Inputs that panic: [huge_bulk_length_panics], [one_request_stops_server],
      [overflowing_deadline_panics], [huge_array_header_panics].

    ** What is not modelled

    The threads of the concurrent models see one memory: the weaker outcomes that
    [Ordering::Relaxed] allows between different counters are not modelled. In
    Process.v the connections that will be accepted and what they will send are
    given from the start, and no client asks for a deadline beyond the range of the
    clock, as in EngineConcInv.v ([workload]): the panic of such a call is in
    EngineThms.v ([overflowing_deadline_panics]), what a task that panicked does to the
    accept loop in Serve.v. The drain may time out at any moment: time is not
    counted. Of the asynchronous runtime only what [select!] and [JoinSet] deliver appears, as
    events. In BenchmarkManager.v a broadcast channel keeps all that was sent; the
    capacity of the one for runs, which nobody reads outside the tests, is not
    modelled. Left out are [Debug] output, the
    address the server binds and the signals that end [serve] (main.rs),
    the registration of the GUI's commands with Tauri, serde's derived forms,
    what the benchmark measures and prints, the TypeScript front end, and the
    crates hkv-kernel and hkv-bench (templates). *)

From Stdlib Require Export ZArith Lia.
From Stdlib Require Import Strings.Byte Strings.String.
From Stdlib Require Export (notations) Strings.String.
From stdpp Require Export base numbers option gmap fin_maps tactics list.


(** ** Bytes and byte strings *)

Abbreviation byte := Byte.byte.
Abbreviation bytes := (list Byte.byte).

(** A Rust byte-string literal [b"..."]. *)
Definition lit (s : string) : bytes := list_byte_of_string s.

#[global] Instance byte_eq_decision : EqDecision byte := Byte.byte_eq_dec.

#[global] Program Instance byte_countable : Countable byte :=
  inj_countable Byte.to_N Byte.of_N _.
Next Obligation. exact Byte.of_to_N. Qed.

(** The numeric value of a byte, as [u8 as u64]. *)
Definition byte_val (b : byte) : Z := Z.of_N (Byte.to_N b).

(** [n as u8], for an [n] the code keeps below 256. *)
Definition byte_of (n : Z) : byte :=
  match Byte.of_N (Z.to_N (n mod 256)) with Some b => b | None => Byte.x00 end.

(** [u8::is_ascii_digit]. *)
Definition is_ascii_digit (b : byte) : bool :=
  (48 <=? byte_val b)%Z && (byte_val b <=? 57)%Z.

(** [u8::to_ascii_lowercase] and [u8::eq_ignore_ascii_case]. *)
Definition to_ascii_lowercase (b : byte) : byte :=
  if (65 <=? byte_val b)%Z && (byte_val b <=? 90)%Z
  then byte_of (byte_val b + 32) else b.

Definition byte_eq_ignore_case (x y : byte) : bool :=
  bool_decide (to_ascii_lowercase x = to_ascii_lowercase y).

Abbreviation CR := Byte.x0d.
Abbreviation LF := Byte.x0a.
Definition crlf : bytes := [CR; LF].

(** ** Machine integers

    A [u64]/[usize] (64-bit targets) is a [Z] in [0, 2^64); the wrap-around and
    the saturation the code asks for are written out. *)

Definition u64_modulus : Z := 2 ^ 64.
Definition u64_max : Z := u64_modulus - 1.
Definition i64_max : Z := 2 ^ 63 - 1.
Definition usize_max : Z := u64_max.

Definition wrap64 (z : Z) : Z := z mod u64_modulus.

Definition saturating_add (a b : Z) : Z := Z.min (a + b) u64_max.
Definition saturating_mul (a b : Z) : Z := Z.min (a * b) u64_max.
Definition saturating_sub (a b : Z) : Z := Z.max (a - b) 0.

Lemma byte_val_range b : (0 <= byte_val b < 256)%Z.
Proof. unfold byte_val. pose proof (Byte.to_N_bounded b). lia. Qed.

Lemma byte_val_of n : (0 <= n < 256)%Z -> byte_val (byte_of n) = n.
Proof.
  intros Hn. unfold byte_of. rewrite Z.mod_small by lia.
  destruct (Byte.of_N (Z.to_N n)) as [b|] eqn:E.
  - unfold byte_val. rewrite (Byte.to_of_N _ E). lia.
  - apply Byte.of_N_None_iff in E. lia.
Qed.

Lemma byte_val_inj b c : byte_val b = byte_val c -> b = c.
Proof.
  unfold byte_val. intros E%N2Z.inj.
  apply (f_equal Byte.of_N) in E. rewrite !Byte.of_to_N in E. by injection E.
Qed.

Lemma wrap64_range z : (0 <= wrap64 z < u64_modulus)%Z.
Proof. apply Z.mod_pos_bound. reflexivity. Qed.

Lemma wrap64_small z : (0 <= z < u64_modulus)%Z -> wrap64 z = z.
Proof. apply Z.mod_small. Qed.

Lemma wrap64_add_l a b : wrap64 (wrap64 a + b) = wrap64 (a + b).
Proof. apply Zplus_mod_idemp_l. Qed.

Lemma wrap64_sub_l a b : wrap64 (wrap64 a - b) = wrap64 (a - b).
Proof. apply Zminus_mod_idemp_l. Qed.

Create Rewrite HintDb wrap.
#[export] Hint Rewrite wrap64_add_l wrap64_sub_l : wrap.

(** ** Results and the state-and-panic monad

    A Rust [Result<A, E>] value is the core library's [result A E], with its
    constructors [Ok] and [Error].

    [M S E A] is a computation that reads and writes a state [S] and ends in
    one of four ways: it returns, it leaves early with an error ([?] or
    [return Err(..)]), it panics (the state written so far stays, since the
    objects are shared), or its loop bound runs out. The last never happens in
    the code; the theorems prove that the bounds given are enough. *)

Inductive outcome (E A : Type) : Type :=
| Val (a : A)
| Err (e : E)
| Panic
| Diverge.
Arguments Val {E A} a.
Arguments Err {E A} e.
Arguments Panic {E A}.
Arguments Diverge {E A}.

Definition M (S E A : Type) : Type := S -> outcome E A * S.

#[global] Instance M_ret {S E} : MRet (M S E) := fun A a s => (Val a, s).
#[global] Instance M_bind {S E} : MBind (M S E) := fun A B k m s =>
  match m s with
  | (Val a, s') => k a s'
  | (Err e, s') => (Err e, s')
  | (Panic, s') => (Panic, s')
  | (Diverge, s') => (Diverge, s')
  end.

Definition gets {S E A} (f : S -> A) : M S E A := fun s => (Val (f s), s).
Definition modify {S E} (f : S -> S) : M S E unit := fun s => (Val tt, f s).
Definition throw {S E A} (e : E) : M S E A := fun s => (Err e, s).
Definition panic {S E A} : M S E A := fun s => (Panic, s).
Definition diverge {S E A} : M S E A := fun s => (Diverge, s).

(** [expect]/[unwrap] of an option. *)
Definition expect {S E A} (o : option A) : M S E A :=
  match o with Some a => mret a | None => panic end.

(** [match m { Ok(a) => .., Err(e) => .. }]: the result as a value. *)
Definition catch {S E E' A} (m : M S E A) : M S E' (result A E) := fun s =>
  match m s with
  | (Val a, s') => (Val (Ok a), s')
  | (Err e, s') => (Val (Error e), s')
  | (Panic, s') => (Panic, s')
  | (Diverge, s') => (Diverge, s')
  end.

Lemma bind_val {S E A B} (m : M S E A) (k : A -> M S E B) s a s' :
  m s = (Val a, s') -> (m ≫= k) s = k a s'.
Proof. unfold mbind, M_bind. by intros ->. Qed.

Lemma bind_err {S E A B} (m : M S E A) (k : A -> M S E B) s e s' :
  m s = (Err e, s') -> (m ≫= k) s = (Err e, s').
Proof. unfold mbind, M_bind. by intros ->. Qed.

Lemma bind_panic {S E A B} (m : M S E A) (k : A -> M S E B) s s' :
  m s = (Panic, s') -> (m ≫= k) s = (Panic, s').
Proof. unfold mbind, M_bind. by intros ->. Qed.

Lemma bind_gets {S E A B} (f : S -> A) (k : A -> M S E B) s :
  (gets f ≫= k) s = k (f s) s.
Proof. done. Qed.

Lemma bind_modify {S E B} (f : S -> S) (k : unit -> M S E B) s :
  (modify f ≫= k) s = k tt (f s).
Proof. done. Qed.

Lemma bind_ret {S E A B} (a : A) (k : A -> M S E B) s :
  (mret a ≫= k) s = k a s.
Proof. done. Qed.

Lemma bind_bind {S E A B C} (m : M S E A) (k : A -> M S E B) (k' : B -> M S E C) s :
  ((m ≫= k) ≫= k') s = (m ≫= (fun a => k a ≫= k')) s.
Proof. unfold mbind, M_bind. by destruct (m s) as [[] ?]. Qed.

Lemma bind_ext {S E A B} (m : M S E A) (k k' : A -> M S E B) s :
  (forall a s', k a s' = k' a s') -> (m ≫= k) s = (m ≫= k') s.
Proof. intros Heq. unfold mbind, M_bind. by destruct (m s) as [[] ?]. Qed.

Lemma catch_val {S E E' A} (m : M S E A) s a s' :
  m s = (Val a, s') -> catch (E':=E') m s = (Val (Ok a), s').
Proof. unfold catch. by intros ->. Qed.

Lemma catch_err {S E E' A} (m : M S E A) s e s' :
  m s = (Err e, s') -> catch (E':=E') m s = (Val (Error e), s').
Proof. unfold catch. by intros ->. Qed.

Lemma bind_catch {S E E' A B} (m : M S E A) (k : result A E -> M S E' B) s :
  (catch m ≫= k) s = match m s with
                     | (Val a, s') => k (Ok a) s'
                     | (Err e, s') => k (Error e) s'
                     | (Panic, s') => (Panic, s')
                     | (Diverge, s') => (Diverge, s')
                     end.
Proof. unfold mbind, M_bind, catch. by destruct (m s) as [[] ?]. Qed.

Create Rewrite HintDb mrun.
#[export] Hint Rewrite @bind_gets @bind_modify @bind_ret : mrun.

(** [mstep]: run the first action of the computation in the goal, with an
    equation about it in the context if it is not primitive. *)
Ltac mstep :=
  first
    [ progress autorewrite with mrun
    | erewrite bind_val by eassumption
    | erewrite bind_err by eassumption
    | erewrite bind_panic by eassumption ].
Ltac msteps := repeat mstep; cbn beta iota.

(** ** The clock

    [Instant] and [Duration] in nanoseconds. On Linux the seconds of an
    [Instant] are an [i64]: a sum at the limit panics. *)

Abbreviation Instant := Z (only parsing).
Abbreviation Duration := Z (only parsing).

(** [SystemTime]: nanoseconds on the wall clock since the Unix epoch. *)
Abbreviation SystemTime := Z (only parsing).
Definition instant_limit : Z := 2 ^ 63 * 1000000000.

(** ** Lists *)

Fixpoint zsum {A} (f : A -> Z) (l : list A) : Z := match l with [] => 0 | x :: l' => f x + zsum f l' end.

Lemma zsum_app {A} (f : A -> Z) (l1 l2 : list A) : zsum f (l1 ++ l2) = (zsum f l1 + zsum f l2)%Z.
Proof. induction l1 as [|x l1 IH]; simpl; lia. Qed.

Lemma zsum_insert {A} (f : A -> Z) (l : list A) i x y :
  l !! i = Some x -> zsum f (<[i := y]> l) = (zsum f l - f x + f y)%Z.
Proof.
  revert i. induction l as [|z l IH]; intros [|i] Hi; simplify_eq/=; [lia|]. rewrite (IH i Hi). lia.
Qed.

Lemma zsum_le {A} (f g : A -> Z) (l : list A) : (forall x, x ∈ l -> (f x <= g x)%Z) -> (zsum f l <= zsum g l)%Z.
Proof.
  induction l as [|x l IH]; intros Hle; simpl; [lia|]. specialize (Hle x (list_elem_of_here _ _)) as Hx.
  assert (zsum f l <= zsum g l)%Z; [apply IH; intros; apply Hle; by apply list_elem_of_further|lia].
Qed.

Lemma zsum_ge {A} (f : A -> Z) (l : list A) i x :
  (forall x, x ∈ l -> (0 <= f x)%Z) -> l !! i = Some x -> (f x <= zsum f l)%Z.
Proof.
  revert i. induction l as [|z l IH]; intros [|i] Hf Hi; simplify_eq/=.
  - assert (0 <= zsum f l)%Z; [|lia]. clear -Hf. induction l as [|y l IH]; simpl; [lia|].
    pose proof (Hf y ltac:(set_solver)). assert (0 <= zsum f l)%Z; [apply IH; set_solver|lia].
  - pose proof (Hf z ltac:(set_solver)). specialize (IH i ltac:(set_solver) Hi). lia.
Qed.

Lemma filter_none {A} (P : A -> Prop) `{forall x, Decision (P x)} (l : list A) :
  (forall x, x ∈ l -> ~ P x) -> filter P l = [].
Proof.
  induction l as [|x l IH]; intros Hl; [done|]. rewrite filter_cons_False by set_solver. set_solver.
Qed.

Lemma filter_all {A} (P : A -> Prop) `{forall x, Decision (P x)} (l : list A) :
  (forall x, x ∈ l -> P x) -> filter P l = l.
Proof.
  induction l as [|x l IH]; intros Hl; [done|]. rewrite filter_cons_True by set_solver. f_equal. set_solver.
Qed.

Lemma NoDup_middle {A} (l1 l2 : list A) x :
  NoDup (l1 ++ x :: l2) <-> (x ∉ l1 ++ l2) /\ NoDup (l1 ++ l2).
Proof. by rewrite <- Permutation_middle, NoDup_cons. Qed.

(** ** The build profile

    [+] on machine integers panics on overflow in the [dev] profile and wraps
    in the [release] one (Cargo.toml sets neither [overflow-checks] nor
    [panic]). The definitions that use a checked [+] take the profile. *)

Class Profile := { overflow_checks : bool }.

Definition dev_profile : Profile := {| overflow_checks := true |}.
Definition release_profile : Profile := {| overflow_checks := false |}.

Definition usize_add `{Profile} {S E} (a b : Z) : M S E Z :=
  if (a + b <=? usize_max)%Z then mret (a + b)%Z
  else if overflow_checks then panic else mret (wrap64 (a + b)).

Lemma usize_add_small `{Profile} {S E} a b (s : S) :
  (a + b <= usize_max)%Z -> usize_add (E:=E) a b s = (Val (a + b)%Z, s).
Proof. intros Hle. unfold usize_add. by rewrite (proj2 (Z.leb_le _ _) Hle). Qed.
