(* ===== verification/Threads.v ===== *)
(** * Programs of atomic actions, and the threads that run them

    A program that threads run together performs one action after the other, of a
    type [F] that says what each answers; between two actions of a thread the
    others run. The engine (EngineConc.v) and the server (ServerConc.v) give the
    actions and what they do to the memory the threads share. *)

From S2P Require Import Prelude.

(** ** Programs *)

Inductive Prog (F : Type -> Type) (E A : Type) : Type :=
| Ret (o : outcome E A)
| Act {X : Type} (a : F X) (k : X -> Prog F E A).
Arguments Ret {F E A} o.
Arguments Act {F E A X} a k.

Section programs.
Context {F : Type -> Type} {E : Type}.

(** What [?] and unwinding do with an outcome that is not a value. *)
Definition carry {A B} (o : outcome E A) (k : A -> Prog F E B) : Prog F E B :=
  match o with Val a => k a | Err e => Ret (Err e) | Panic => Ret Panic | Diverge => Ret Diverge end.

Fixpoint prog_bind {A B} (p : Prog F E A) (k : A -> Prog F E B) : Prog F E B :=
  match p with Ret o => carry o k | Act a c => Act a (fun x => prog_bind (c x) k) end.

#[global] Instance prog_ret : MRet (Prog F E) := fun A a => Ret (Val a).
#[global] Instance prog_mbind : MBind (Prog F E) := fun A B k p => prog_bind p k.

Definition act {X} (a : F X) : Prog F E X := Act a (fun x => Ret (Val x)).

(** Drop a guard on every way out of a scope. *)
Fixpoint finally {A} (u : F unit) (p : Prog F E A) : Prog F E A :=
  match p with
  | Ret o => Act u (fun _ => Ret o)
  | Act a k => Act a (fun x => finally u (k x))
  end.

(** A program that nobody interrupts, if no action has to wait. *)
Fixpoint prog_run {S A} (h : forall X, F X -> S -> X * S) (p : Prog F E A) : M S E A := fun s =>
  match p with
  | Ret o => (o, s)
  | Act a k => let '(x, s') := h _ a s in prog_run h (k x) s'
  end.

Lemma prog_run_bind {S A B} (h : forall X, F X -> S -> X * S) (p : Prog F E A) (k : A -> Prog F E B) : forall s,
  prog_run h (p ≫= k) s = (prog_run h p ≫= fun a => prog_run h (k a)) s.
Proof.
  induction p as [o|X a c IH]; intros s.
  - by destruct o.
  - cbn [mbind prog_mbind prog_bind prog_run]. unfold mbind, M_bind. cbn [prog_run]. destruct (h X a s) as [x s']. apply IH.
Qed.

Lemma prog_run_finally {S A} (h : forall X, F X -> S -> X * S) u (p : Prog F E A) : (forall s, h _ u s = (tt, s)) -> forall s,
  prog_run h (finally u p) s = prog_run h p s.
Proof.
  intros Hu. induction p as [o|X a k IH]; intros s; cbn [finally prog_run]; [by rewrite Hu|].
  destruct (h X a s). apply IH.
Qed.

End programs.

(** ** Threads

    The thread's calls to come, and what is left of the running one. *)

Record Thread (F : Type -> Type) (E C A : Type) := mkThread {
  th_todo : list C;
  th_run : option (Prog F E A)
}.
Arguments mkThread {F E C A}.
Arguments th_todo {F E C A}. Arguments th_run {F E C A}.

Record System (F : Type -> Type) (E C A S : Type) := mkSystem {
  sy_shared : S;
  sy_threads : list (Thread F E C A)
}.
Arguments mkSystem {F E C A S}.
Arguments sy_shared {F E C A S}. Arguments sy_threads {F E C A S}.

Inductive Label (E C A : Type) : Type :=
| Invoked (t : nat) (c : C)
| Returned (t : nat) (o : outcome E A).
Arguments Invoked {E C A} t c. Arguments Returned {E C A} t o.

(** The threads with their calls, before the first step. *)
Definition all_idle {F E C A S} (s : S) (calls : list (list C)) : System F E C A S :=
  mkSystem s ((fun cs => mkThread cs None) <$> calls).

Section threads.
Context {F : Type -> Type} {E C A S : Type}.

(** [act_run t a s] is nothing while the thread [t] has to wait. *)
Context (act_run : forall X, nat -> F X -> S -> option (X * S)) (call_prog : C -> Prog F E A).

Abbreviation Thread := (Thread F E C A).
Abbreviation System := (System F E C A S).
Abbreviation Label := (Label E C A).

(** A thread that panicked does nothing more. *)
Definition after_return (o : outcome E A) (todo : list C) : list C :=
  match o with Panic => [] | _ => todo end.

(** One step of the thread [t]: it starts its next call, performs an action, or
    returns from its call. *)
Definition thread_step (t : nat) (s : System) : option (option Label * System) :=
  (sy_threads s !! t : option Thread) ≫= fun th : Thread =>
  let put w (th : Thread) := mkSystem w (<[t := th]> (sy_threads s)) in
  match th_run th with
  | None =>
      match th_todo th with
      | [] => None
      | c :: todo => Some (Some (Invoked t c), put (sy_shared s) (mkThread todo (Some (call_prog c))))
      end
  | Some (Ret o) => Some (Some (Returned t o), put (sy_shared s) (mkThread (after_return o (th_todo th)) None))
  | Some (Act a k) =>
      r ← act_run _ t a (sy_shared s);
      Some (None, put (snd r) (mkThread (th_todo th) (Some (k (fst r)))))
  end.

(** What a schedule does, if each of its steps is possible. *)
Fixpoint threads_run (ts : list nat) (s : System) : option (list Label * System) :=
  match ts with
  | [] => Some ([], s)
  | t :: ts' =>
      r ← thread_step t s;
      r' ← threads_run ts' (snd r);
      Some (option_list (fst r) ++ fst r', snd r')
  end.


(** An invariant of steps, with what it says of the labels, is one of schedules. *)
Lemma threads_run_inv {X} (inv : System -> X -> Prop) (moves : X -> list Label -> X -> Prop) ts : forall s x tr s',
  (forall x, moves x [] x) ->
  (forall t s x lab s', inv s x -> thread_step t s = Some (lab, s') ->
    exists x', inv s' x' /\ forall tr x'', moves x' tr x'' -> moves x (option_list lab ++ tr) x'') ->
  inv s x -> threads_run ts s = Some (tr, s') -> exists x', moves x tr x' /\ inv s' x'.
Proof.
  induction ts as [|t ts IH]; intros s x tr s' Hnil Hstep Hi Hrun; cbn [threads_run] in Hrun; [simplify_eq; eauto|].
  destruct (thread_step t s) as [[lab s1]|] eqn:E1; [|done]. cbn [mbind option_bind fst snd] in Hrun.
  destruct (threads_run ts s1) as [[tr' s2]|] eqn:E2; [|done]. cbn in Hrun. simplify_eq.
  destruct (Hstep _ _ _ _ _ Hi E1) as (x1 & Hi1 & Hm). destruct (IH _ _ _ _ Hnil Hstep Hi1 E2) as (x2 & Hm2 & Hi2).
  exists x2. split; [by apply Hm|done].
Qed.

(** *** Every schedule ends *)

Definition list_after {X} (R : X -> X -> Prop) (l' l : list X) : Prop :=
  exists i x x', l !! i = Some x /\ R x' x /\ l' = <[i := x']> l.

Lemma list_after_acc {X} (R : X -> X -> Prop) (l : list X) : (forall x, x ∈ l -> Acc R x) -> Acc (list_after R) l.
Proof.
  induction l as [|x l IH]; intros Hacc.
  { constructor. intros l' (i & y & y' & Hi & _). done. }
  assert (Acc (list_after R) l) as Hl by (apply IH; intros y Hy; apply Hacc; by apply list_elem_of_further).
  specialize (Hacc x (list_elem_of_here _ _)). clear IH. revert l Hl.
  induction Hacc as [x _ IHx]. intros l Hl. induction Hl as [l Hl' IHl]. constructor.
  intros l' ([|i] & y & y' & Hi & HR & ->); simplify_eq/=.
  - apply (IHx y' HR). by constructor.
  - apply IHl. by exists i, y, y'.
Qed.

(** What a step leaves of the thread that made it. *)
Definition thread_after (th' th : Thread) : Prop :=
  match th_run th with
  | None => exists c p, th_todo th = c :: th_todo th' /\ th_run th' = Some p
  | Some (Ret o) => th_run th' = None /\ (th_todo th' = th_todo th \/ th_todo th' = [])
  | Some (Act a k) => exists x, th_run th' = Some (k x) /\ th_todo th' = th_todo th
  end.

Lemma thread_after_acc th : Acc thread_after th.
Proof.
  assert (Acc thread_after (mkThread [] None)) as H0 by (constructor; intros th' (c & p & [=] & _)).
  assert (forall p cs, Acc thread_after (mkThread cs None) -> Acc thread_after (mkThread cs (Some p))) as Hrun.
  { induction p as [o|X a k IH]; intros cs Hcs; constructor; intros [cs' r]; cbn.
    - intros (-> & [->| ->]); done.
    - intros (x & -> & ->). by apply IH. }
  assert (forall cs, Acc thread_after (mkThread cs None)) as Hnone.
  { induction cs as [|c cs IH]; [done|]. constructor. intros [cs' r] (c' & p & E0 & Er). cbn in E0, Er. simplify_eq. by apply Hrun. }
  destruct th as [cs [p|]]; [by apply Hrun|done].
Qed.

Lemma step_after t s lab s' :
  thread_step t s = Some (lab, s') -> list_after thread_after (sy_threads s') (sy_threads s).
Proof.
  unfold thread_step. destruct (sy_threads s !! t) as [th|] eqn:Hth; [|done]. cbn. intros Hs. exists t, th.
  unfold thread_after. destruct (th_run th) as [[o|X a k]|] eqn:Hrun.
  - simplify_eq. eexists. split; [exact Hth|]. split; [|done]. cbn. split; [done|]. destruct o; auto.
  - destruct (act_run _ _ _ _) as [[x w']|]; [|done]. cbn in Hs. simplify_eq. eexists. split; [exact Hth|]. split; [|done]. by exists x.
  - destruct (th_todo th) as [|c cs] eqn:Htd; [done|]. simplify_eq. eexists. split; [exact Hth|]. split; [|done]. by eexists _, _.
Qed.

Lemma schedules_end s : Acc (fun s' s => exists t lab, thread_step t s = Some (lab, s')) s.
Proof.
  remember (sy_threads s) as ths eqn:E0. assert (Acc (list_after thread_after) ths) as Hacc
    by (apply list_after_acc; intros; apply thread_after_acc).
  revert s E0. induction Hacc as [ths _ IH]. intros s ->. constructor.
  intros s' (t & lab & Hs). by eapply IH; [eapply step_after|].
Qed.

End threads.
