(* ===== verification/Errors.v ===== *)
(** * Error codes (hkv-common/src/error.rs) *)

From Stdlib Require Import Strings.String.
From S2P Require Import Prelude.

Inductive HkvErrorCategory : Type := Client | Server | Transient | Protocol.

Definition category_is_retryable (c : HkvErrorCategory) : bool :=
  match c with Transient => true | _ => false end.

Inductive HkvError : Type :=
| InvalidInput | NotFound | KeyTooLong | ValueTooLong
| OutOfMemory | CapacityExceeded | InternalError
| Busy | Timeout | Interrupted
| VersionMismatch | ProtocolViolation | UnsupportedCommand.

#[global] Instance HkvError_eq_dec : EqDecision HkvError.
Proof. solve_decision. Defined.
#[global] Instance HkvErrorCategory_eq_dec : EqDecision HkvErrorCategory.
Proof. solve_decision. Defined.

(** The [repr(u16)] discriminants. *)
Definition code (e : HkvError) : Z :=
  match e with
  | InvalidInput => 1 | NotFound => 2 | KeyTooLong => 3 | ValueTooLong => 4
  | OutOfMemory => 10 | CapacityExceeded => 11 | InternalError => 12
  | Busy => 20 | Timeout => 21 | Interrupted => 22
  | VersionMismatch => 30 | ProtocolViolation => 31 | UnsupportedCommand => 32
  end.

Definition category (e : HkvError) : HkvErrorCategory :=
  match e with
  | InvalidInput | NotFound | KeyTooLong | ValueTooLong => Client
  | OutOfMemory | CapacityExceeded | InternalError => Server
  | Busy | Timeout | Interrupted => Transient
  | VersionMismatch | ProtocolViolation | UnsupportedCommand => Protocol
  end.

Definition is_retryable (e : HkvError) : bool := category_is_retryable (category e).

Definition from_code (c : Z) : option HkvError :=
  match c with
  | 1 => Some InvalidInput
  | 2 => Some NotFound
  | 3 => Some KeyTooLong
  | 4 => Some ValueTooLong
  | 10 => Some OutOfMemory
  | 11 => Some CapacityExceeded
  | 12 => Some InternalError
  | 20 => Some Busy
  | 21 => Some Timeout
  | 22 => Some Interrupted
  | 30 => Some VersionMismatch
  | 31 => Some ProtocolViolation
  | 32 => Some UnsupportedCommand
  | _ => None
  end%Z.

(** [Display]. *)
Definition display (e : HkvError) : bytes :=
  lit (match e with
       | InvalidInput => "invalid input"
       | NotFound => "not found"
       | KeyTooLong => "key too long"
       | ValueTooLong => "value too long"
       | OutOfMemory => "out of memory"
       | CapacityExceeded => "capacity exceeded"
       | InternalError => "internal error"
       | Busy => "busy"
       | Timeout => "timeout"
       | Interrupted => "interrupted"
       | VersionMismatch => "version mismatch"
       | ProtocolViolation => "protocol violation"
       | UnsupportedCommand => "unsupported command"
       end)%string.

(** The numeric range the design assigns to each category. *)
Definition category_range (c : HkvErrorCategory) : Z * Z :=
  match c with
  | Client => (1, 9) | Server => (10, 19) | Transient => (20, 29) | Protocol => (30, 39)
  end%Z.

Lemma from_code_code e : from_code (code e) = Some e.
Proof. by destruct e. Qed.

Lemma from_code_Some c e : from_code c = Some e -> c = code e.
Proof.
  unfold from_code. intros H.
  repeat match type of H with
  | context [match ?x with _ => _ end] => destruct x; simplify_eq
  end; done.
Qed.

(** Error codes round-trip: [from_code] inverts [code] and accepts no
    other number, every code lies in the range of its category, and exactly
    the codes 20..22 are retryable. *)
Theorem error_codes_roundtrip :
  (forall e, from_code (code e) = Some e) /\
  (forall c e, from_code c = Some e -> c = code e) /\
  (forall e, (fst (category_range (category e)) <= code e <= snd (category_range (category e)))%Z) /\
  (forall e, is_retryable e = true <-> (20 <= code e <= 22)%Z).
Proof.
  split; [apply from_code_code|]. split; [apply from_code_Some|].
  split; intros []; simpl; split; (done || lia).
Qed.
