(* ===== verification/KVEngine.v ===== *)
(** * The storage engine interface (hkv-engine/src/engine.rs)

    The [KVEngine] trait as a class of operations, the map of keys to values
    and deadlines that its documentation describes, and the laws that tie an
    implementation to it. The server is verified against this interface. *)

From S2P Require Import Prelude Errors.

(** ** The trait *)

Inductive TtlStatus : Type :=
| Missing
| NoExpiry
| ExpiresIn (remaining : Duration).

(** Each method takes the [Instant] its implementation reads. *)
Class KVEngine (S : Type) := {
  kv_get : Instant -> bytes -> M S HkvError (option bytes);
  kv_set : Instant -> bytes -> bytes -> M S HkvError unit;
  kv_set_with_ttl : Instant -> bytes -> bytes -> Duration -> M S HkvError unit;
  kv_delete : Instant -> bytes -> M S HkvError bool;
  kv_expire : Instant -> bytes -> Duration -> M S HkvError unit;
  kv_ttl : Instant -> bytes -> M S HkvError TtlStatus
}.

(** ** The map a client sees *)

Abbreviation store := (gmap bytes (bytes * option Instant)).

Definition passed (now : Instant) (d : option Instant) : bool :=
  match d with Some t => (t <=? now)%Z | None => false end.

(** The entry under a key, if its deadline has not passed. *)
Definition m_live (now : Instant) (k : bytes) (m : store) : option (bytes * option Instant) :=
  match m !! k with
  | Some (v, d) => if passed now d then None else Some (v, d)
  | None => None
  end.

(** Touching a key removes an entry whose deadline has passed. *)
Definition m_touch (now : Instant) (k : bytes) (m : store) : store :=
  match m_live now k m with Some _ => m | None => delete k m end.

Definition m_ttl (now : Instant) (k : bytes) (m : store) : TtlStatus :=
  match m_live now k m with
  | None => Missing
  | Some (_, None) => NoExpiry
  | Some (_, Some t) => ExpiresIn (t - now)
  end.

Definition m_expire (now : Instant) (k : bytes) (d : Duration) (m : store)
    : result unit HkvError * store :=
  match m_live now k m with
  | None => (Error NotFound, delete k m)
  | Some (v, _) => (Ok tt, <[k := (v, Some (now + d)%Z)]> m)
  end.

(** A write may push other entries out when the engine has a capacity. *)
Definition shrinks (bounded : bool) (m m' : store) : Prop :=
  if bounded then m' ⊆ m else m' = m.

Class KVEngineLaws (S : Type) `{KVEngine S} := {
  kv_rep : bool -> S -> store -> Prop;
  kv_get_ok b s m now k : kv_rep b s m ->
    exists s', kv_get now k s = (Val (fst <$> m_live now k m), s') /\ kv_rep b s' (m_touch now k m);
  kv_set_ok b s m now k v : kv_rep b s m ->
    exists s' m', kv_set now k v s = (Val tt, s') /\ kv_rep b s' m'
      /\ shrinks b (<[k := (v, None)]> m) m';
  kv_set_with_ttl_ok b s m now k v d : kv_rep b s m -> (now + d < instant_limit)%Z ->
    exists s' m', kv_set_with_ttl now k v d s = (Val tt, s') /\ kv_rep b s' m'
      /\ shrinks b (<[k := (v, Some (now + d)%Z)]> m) m';
  kv_delete_ok b s m now k : kv_rep b s m ->
    exists s', kv_delete now k s = (Val (bool_decide (is_Some (m_live now k m))), s')
      /\ kv_rep b s' (delete k m);
  kv_expire_ok b s m now k d : kv_rep b s m -> (now + d < instant_limit)%Z ->
    exists s', kv_expire now k d s
        = (match fst (m_expire now k d m) with Ok u => Val u | Error x => Err x end, s')
      /\ kv_rep b s' (snd (m_expire now k d m));
  kv_ttl_ok b s m now k : kv_rep b s m ->
    exists s', kv_ttl now k s = (Val (m_ttl now k m), s') /\ kv_rep b s' (m_touch now k m)
}.

(** ** Sequences of operations *)

Inductive Op : Type :=
| OpGet (k : bytes)
| OpSet (k v : bytes)
| OpSetTtl (k v : bytes) (d : Duration)
| OpDelete (k : bytes)
| OpExpire (k : bytes) (d : Duration)
| OpTtl (k : bytes).

Inductive Reply : Type :=
| RValue (v : option bytes)
| RDone (r : result unit HkvError)
| RDeleted (b : bool)
| RTtl (t : TtlStatus).

(** The deadline an operation computes is one the clock can represent. *)
Definition op_fits (now : Instant) (o : Op) : Prop :=
  match o with
  | OpSetTtl _ _ d | OpExpire _ d => (now + d < instant_limit)%Z
  | _ => True
  end.

Section run.
Context {S : Type} `{KVEngine S}.

Definition kv_exec (now : Instant) (o : Op) : M S HkvError Reply :=
  match o with
  | OpGet k => v ← kv_get now k; mret (RValue v)
  | OpSet k v => r ← catch (kv_set now k v); mret (RDone r)
  | OpSetTtl k v d => r ← catch (kv_set_with_ttl now k v d); mret (RDone r)
  | OpDelete k => b ← kv_delete now k; mret (RDeleted b)
  | OpExpire k d => r ← catch (kv_expire now k d); mret (RDone r)
  | OpTtl k => t ← kv_ttl now k; mret (RTtl t)
  end.

Fixpoint kv_run (os : list (Instant * Op)) : M S HkvError (list Reply) :=
  match os with
  | [] => mret []
  | (now, o) :: os' => r ← kv_exec now o; rs ← kv_run os'; mret (r :: rs)
  end.

End run.

Definition m_exec (now : Instant) (o : Op) (m : store) : Reply * store :=
  match o with
  | OpGet k => (RValue (fst <$> m_live now k m), m_touch now k m)
  | OpSet k v => (RDone (Ok tt), <[k := (v, None)]> m)
  | OpSetTtl k v d => (RDone (Ok tt), <[k := (v, Some (now + d)%Z)]> m)
  | OpDelete k => (RDeleted (bool_decide (is_Some (m_live now k m))), delete k m)
  | OpExpire k d => (RDone (fst (m_expire now k d m)), snd (m_expire now k d m))
  | OpTtl k => (RTtl (m_ttl now k m), m_touch now k m)
  end.

Fixpoint m_run (os : list (Instant * Op)) (m : store) : list Reply * store :=
  match os with
  | [] => ([], m)
  | (now, o) :: os' =>
      let '(r, m1) := m_exec now o m in
      let '(rs, m2) := m_run os' m1 in (r :: rs, m2)
  end.

Section laws.
Context {S : Type} `{KVEngineLaws S}.

Lemma kv_exec_ok s m now o :
  kv_rep false s m -> op_fits now o ->
  exists s', kv_exec now o s = (Val (fst (m_exec now o m)), s') /\ kv_rep false s' (snd (m_exec now o m)).
Proof.
  intros Hr Hfit. destruct o as [k|k v|k v d|k|k d|k]; simpl in *.
  - destruct (kv_get_ok _ s m now k Hr) as (s' & E & Hr'). exists s'. by rewrite (bind_val _ _ _ _ _ E).
  - destruct (kv_set_ok _ s m now k v Hr) as (s' & m' & E & Hr' & ->).
    exists s'. by rewrite (bind_val _ _ _ _ _ (catch_val _ _ _ _ E)).
  - destruct (kv_set_with_ttl_ok _ s m now k v d Hr Hfit) as (s' & m' & E & Hr' & ->).
    exists s'. by rewrite (bind_val _ _ _ _ _ (catch_val _ _ _ _ E)).
  - destruct (kv_delete_ok _ s m now k Hr) as (s' & E & Hr'). exists s'. by rewrite (bind_val _ _ _ _ _ E).
  - destruct (kv_expire_ok _ s m now k d Hr Hfit) as (s' & E & Hr'). exists s'.
    destruct (fst (m_expire now k d m)) as [[]|x] eqn:Hm.
    + by rewrite (bind_val _ _ _ _ _ (catch_val _ _ _ _ E)).
    + by rewrite (bind_val _ _ _ _ _ (catch_err _ _ _ _ E)).
  - destruct (kv_ttl_ok _ s m now k Hr) as (s' & E & Hr'). exists s'. by rewrite (bind_val _ _ _ _ _ E).
Qed.

Lemma kv_run_ok os : forall s m,
  kv_rep false s m -> Forall (fun '(now, o) => op_fits now o) os ->
  exists s', kv_run os s = (Val (fst (m_run os m)), s') /\ kv_rep false s' (snd (m_run os m)).
Proof.
  induction os as [|[now o] os IH]; intros s m Hr Hfit; [by exists s|].
  apply Forall_cons in Hfit as [Hf Hfit].
  destruct (kv_exec_ok s m now o Hr Hf) as (s1 & E1 & Hr1).
  destruct (IH s1 _ Hr1 Hfit) as (s2 & E2 & Hr2).
  cbn [kv_run m_run]. rewrite (bind_val _ _ _ _ _ E1), (bind_val _ _ _ _ _ E2).
  destruct (m_exec now o m) as [r m1]. simpl in *.
  destruct (m_run os m1) as [rs m2]. by exists s2.
Qed.

End laws.
