(* ===== verification/LruSpec.v ===== *)
(** * Abstract specification of one shard: a TTL-aware LRU list

    A shard promises to behave like a list of entries, least recently used
    first, with at most one entry per key. This file has that list, its
    operations and their algebra; ShardRefine.v proves that the arena, the links,
    the free list, the key map and the TTL heap of Shard.v implement it. *)

From S2P Require Import Prelude.

Record Entry := mkE {
  e_key : bytes;
  e_value : bytes;
  e_deadline : option Z
}.

Abbreviation lru := (list Entry).

#[global] Instance Entry_eq_dec : EqDecision Entry.
Proof. solve_decision. Defined.

(** Accounted bytes of an entry: key plus value. *)
Definition e_size (e : Entry) : Z :=
  wrap64 (Z.of_nat (length (e_key e)) + Z.of_nat (length (e_value e))).

Definition e_expired (now : Z) (e : Entry) : bool :=
  match e_deadline e with Some d => (d <=? now)%Z | None => false end.

Definition keys (l : lru) : list bytes := e_key <$> l.

Fixpoint find_key (k : bytes) (l : lru) : option Entry :=
  match l with
  | [] => None
  | e :: l' => if decide (e_key e = k) then Some e else find_key k l'
  end.

Definition drop_key (k : bytes) (l : lru) : lru :=
  filter (fun e => e_key e ≠ k) l.

(** Insert or replace, as the most recently used entry. *)
Definition put (e : Entry) (l : lru) : lru := drop_key (e_key e) l ++ [e].

(** Change the deadline in place: the recency order does not move. *)
Definition with_deadline (d : option Z) (e : Entry) : Entry :=
  mkE (e_key e) (e_value e) d.
Definition set_deadline (k : bytes) (d : option Z) (l : lru) : lru :=
  (fun e => if decide (e_key e = k) then with_deadline d e else e) <$> l.

(** Bytes accounted for a whole list, as the wrapping counter sees them. *)
Fixpoint total_size (l : lru) : Z :=
  match l with [] => 0 | e :: l' => e_size e + total_size l' end.

(** ** Algebra *)

Lemma find_key_Some k l e : find_key k l = Some e -> e ∈ l /\ e_key e = k.
Proof.
  induction l as [|e' l IH]; simpl; [done|].
  case_decide; [intros; simplify_eq|intros []%IH]; split; auto; by constructor.
Qed.

Lemma find_key_None k l : find_key k l = None <-> k ∉ keys l.
Proof.
  unfold keys. induction l as [|e l IH]; simpl; [split; [|done]; intros _ []%elem_of_nil|].
  rewrite not_elem_of_cons. case_decide; naive_solver.
Qed.

Lemma find_key_middle k l1 e l2 :
  k ∉ keys l1 -> e_key e = k -> find_key k (l1 ++ e :: l2) = Some e.
Proof.
  unfold keys. induction l1 as [|e' l1 IH]; simpl; intros Hni Hk.
  - by rewrite decide_True.
  - apply not_elem_of_cons in Hni as [? ?]. rewrite decide_False by done. auto.
Qed.

Lemma drop_key_app k l1 l2 : drop_key k (l1 ++ l2) = drop_key k l1 ++ drop_key k l2.
Proof. apply filter_app. Qed.

Lemma drop_key_notin k l : k ∉ keys l -> drop_key k l = l.
Proof.
  unfold drop_key, keys. induction l as [|e l IH]; [done|].
  simpl. rewrite not_elem_of_cons, filter_cons. intros [? ?].
  rewrite decide_True by done. by rewrite IH.
Qed.

Lemma drop_key_middle k l1 e l2 :
  k ∉ keys (l1 ++ l2) -> e_key e = k -> drop_key k (l1 ++ e :: l2) = l1 ++ l2.
Proof.
  unfold keys. rewrite fmap_app, not_elem_of_app. intros [H1 H2] Hk.
  rewrite drop_key_app, (drop_key_notin _ l1) by done. f_equal.
  unfold drop_key. rewrite filter_cons, decide_False by naive_solver.
  by apply drop_key_notin.
Qed.

Lemma drop_key_head k e l : k ∉ keys l -> e_key e = k -> drop_key k (e :: l) = l.
Proof. apply (drop_key_middle k []). Qed.

Lemma drop_key_not_in k l : k ∉ keys (drop_key k l).
Proof.
  unfold keys, drop_key. intros (e & -> & [Hne _]%list_elem_of_filter)%list_elem_of_fmap. done.
Qed.

Lemma find_key_drop_ne k k' l : k' ≠ k -> find_key k (drop_key k' l) = find_key k l.
Proof.
  intros Hne. unfold drop_key. induction l as [|e l IH]; [done|].
  rewrite filter_cons. simpl. case_decide; simpl; [by rewrite IH|].
  rewrite decide_False by naive_solver. done.
Qed.

Lemma find_key_app k l1 l2 :
  find_key k (l1 ++ l2) = match find_key k l1 with Some e => Some e | None => find_key k l2 end.
Proof. induction l1 as [|e l1 IH]; simpl; [done|]. by case_decide. Qed.

Lemma find_key_drop_eq k l : find_key k (drop_key k l) = None.
Proof. apply find_key_None, drop_key_not_in. Qed.

Lemma find_key_put k e l :
  find_key k (put e l) = if decide (e_key e = k) then Some e else find_key k l.
Proof.
  unfold put. rewrite find_key_app. simpl. case_decide as Hk.
  - subst. by rewrite find_key_drop_eq.
  - rewrite find_key_drop_ne by done. by destruct (find_key k l).
Qed.

Lemma drop_key_elem k e l : e ∈ drop_key k l <-> e_key e ≠ k /\ e ∈ l.
Proof. unfold drop_key. by rewrite list_elem_of_filter. Qed.

Lemma keys_drop_NoDup k l : NoDup (keys l) -> NoDup (keys (drop_key k l)).
Proof.
  unfold keys, drop_key. induction l as [|e l IH]; [done|].
  rewrite fmap_cons, filter_cons. intros [Hni Hnd]%NoDup_cons.
  case_decide; [|by apply IH]. rewrite fmap_cons. apply NoDup_cons. split; [|by apply IH].
  intros (e' & Hk & [_ He']%list_elem_of_filter)%list_elem_of_fmap.
  apply Hni, list_elem_of_fmap. eauto.
Qed.

Lemma keys_put_NoDup e l : NoDup (keys l) -> NoDup (keys (put e l)).
Proof.
  intros Hnd. unfold put, keys. rewrite fmap_app. apply NoDup_app. split; [|split].
  - by apply keys_drop_NoDup.
  - intros k Hk Hk'. apply list_elem_of_singleton in Hk' as ->.
    by apply (drop_key_not_in (e_key e) l).
  - apply NoDup_singleton.
Qed.

Lemma set_deadline_cons k d e l :
  set_deadline k d (e :: l)
  = (if decide (e_key e = k) then with_deadline d e else e) :: set_deadline k d l.
Proof. done. Qed.

Lemma find_key_set_deadline k k' d l :
  find_key k (set_deadline k' d l)
  = if decide (k' = k) then with_deadline d <$> find_key k l else find_key k l.
Proof.
  induction l as [|e l IH]; [by case_decide|].
  rewrite set_deadline_cons. cbn [find_key]. rewrite IH.
  by repeat (case_decide; simpl in *; simplify_eq).
Qed.

Lemma set_deadline_notin k d l : k ∉ keys l -> set_deadline k d l = l.
Proof.
  unfold keys. induction l as [|e l IH]; [done|].
  rewrite fmap_cons, not_elem_of_cons, set_deadline_cons. intros [? ?].
  rewrite decide_False by done. by rewrite IH.
Qed.

Lemma set_deadline_middle k d l1 e l2 :
  k ∉ keys (l1 ++ l2) -> e_key e = k ->
  set_deadline k d (l1 ++ e :: l2) = l1 ++ with_deadline d e :: l2.
Proof.
  unfold keys. rewrite fmap_app, not_elem_of_app. intros [H1 H2] Hk.
  unfold set_deadline. rewrite fmap_app. fold (set_deadline k d l1).
  fold (set_deadline k d (e :: l2)). rewrite set_deadline_cons, !set_deadline_notin by done.
  by rewrite decide_True.
Qed.

Lemma keys_set_deadline k d l : keys (set_deadline k d l) = keys l.
Proof.
  unfold keys. induction l as [|e l IH]; [done|].
  rewrite set_deadline_cons, !fmap_cons, IH. by case_decide.
Qed.

Lemma total_size_app l1 l2 : total_size (l1 ++ l2) = (total_size l1 + total_size l2)%Z.
Proof. induction l1 as [|e l1 IH]; simpl; [done|]. rewrite IH. lia. Qed.

Lemma e_size_nonneg e : (0 <= e_size e)%Z.
Proof. unfold e_size. match goal with |- context [wrap64 ?z] => pose proof (wrap64_range z) end. lia. Qed.

Lemma total_size_nonneg l : (0 <= total_size l)%Z.
Proof. induction l as [|e l IH]; simpl; [done|]. pose proof (e_size_nonneg e). lia. Qed.

Lemma total_size_drop k l e :
  NoDup (keys l) -> find_key k l = Some e -> total_size (drop_key k l) = (total_size l - e_size e)%Z.
Proof.
  intros Hnd (Hin & Hk)%find_key_Some. apply list_elem_of_split in Hin as (l1 & l2 & ->).
  unfold keys in Hnd. rewrite fmap_app, fmap_cons, Hk in Hnd.
  apply NoDup_middle in Hnd as [Hni _]. rewrite <- fmap_app in Hni.
  rewrite drop_key_middle by done. rewrite !total_size_app. simpl. lia.
Qed.

Lemma total_size_put_old e e' l :
  NoDup (keys l) -> find_key (e_key e) l = Some e' ->
  total_size (put e l) = (total_size l - e_size e' + e_size e)%Z.
Proof.
  intros Hnd Hf. unfold put. rewrite total_size_app, (total_size_drop _ _ _ Hnd Hf). simpl. lia.
Qed.

Lemma total_size_put_new e l :
  find_key (e_key e) l = None -> total_size (put e l) = (total_size l + e_size e)%Z.
Proof.
  intros Hf%find_key_None. unfold put. rewrite total_size_app, drop_key_notin by done. simpl. lia.
Qed.

Lemma put_new e l : find_key (e_key e) l = None -> put e l = l ++ [e].
Proof. intros Hf%find_key_None. unfold put. by rewrite drop_key_notin. Qed.

Lemma put_drop e l : put e (drop_key (e_key e) l) = put e l.
Proof. unfold put. rewrite (drop_key_notin _ (drop_key _ _)); [done|]. apply drop_key_not_in. Qed.

Lemma put_middle e l1 e0 l2 :
  e_key e0 = e_key e -> e_key e ∉ keys (l1 ++ l2) -> put e (l1 ++ e0 :: l2) = l1 ++ l2 ++ [e].
Proof. intros Hk Hni. unfold put. rewrite drop_key_middle by done. by rewrite app_assoc. Qed.

Lemma put_middle_put e l1 e0 l2 e1 :
  e_key e0 = e_key e -> e_key e1 = e_key e -> e_key e ∉ keys (l1 ++ l2) ->
  put e (l1 ++ e0 :: l2) = put e (l1 ++ e1 :: l2).
Proof. intros H0 H1 Hni. by rewrite !put_middle. Qed.

Lemma find_key_inv k l e :
  NoDup (keys l) -> find_key k l = Some e ->
  e_key e = k /\ exists l1 l2, l = l1 ++ e :: l2 /\ k ∉ keys (l1 ++ l2).
Proof.
  intros Hnd (Hin & Hk)%find_key_Some. split; [done|].
  apply list_elem_of_split in Hin as (l1 & l2 & ->). exists l1, l2. split; [done|].
  unfold keys in *. rewrite fmap_app, fmap_cons, Hk in Hnd.
  apply NoDup_middle in Hnd as [Hni _]. by rewrite fmap_app.
Qed.
