(* ===== verification/Shard.v ===== *)
(** * One shard of the in-memory engine (hkv-engine/src/memory.rs, [ShardInner]) *)

From S2P Require Import Prelude.

(** ** Data *)

Record Node := mkNode {
  n_key : bytes;
  n_value : bytes;
  n_expires_at : option Instant;
  n_ttl_token : Z;
  n_size : Z;
  n_prev : option nat;
  n_next : option nat
}.

Definition is_expired (n : Node) (now : Instant) : bool :=
  match n_expires_at n with
  | Some deadline => (deadline <=? now)%Z
  | None => false
  end.

Record ExpirationEntry := mkEntry {
  ee_expires_at : Instant;
  ee_idx : nat;
  ee_token : Z
}.

#[global] Instance ExpirationEntry_eq_dec : EqDecision ExpirationEntry.
Proof. solve_decision. Defined.

(** [Ord for ExpirationEntry]: lexicographic on deadline, slot, token. *)
Definition entry_cmp (a b : ExpirationEntry) : comparison :=
  match Z.compare (ee_expires_at a) (ee_expires_at b) with
  | Eq =>
      match Nat.compare (ee_idx a) (ee_idx b) with
      | Eq => Z.compare (ee_token a) (ee_token b)
      | c => c
      end
  | c => c
  end.

Definition entry_leb (a b : ExpirationEntry) : bool :=
  match entry_cmp a b with Gt => false | _ => true end.

(** [BinaryHeap<Reverse<ExpirationEntry>>], the standard library's priority
    queue, as the list of its elements in the order it would pop them. *)
Abbreviation ttl_queue := (list ExpirationEntry).

Fixpoint heap_push (e : ExpirationEntry) (h : ttl_queue) : ttl_queue :=
  match h with
  | [] => [e]
  | x :: h' => if entry_leb e x then e :: h else x :: heap_push e h'
  end.

Record ShardInner := mkShard {
  s_map : gmap bytes nat;
  s_nodes : list (option Node);
  s_free : list nat;
  s_ttl_heap : ttl_queue;
  s_head : option nat;
  s_tail : option nat
}.

Definition shard_new : ShardInner := mkShard ∅ [] [] [] None None.

(** Field updates. *)
Definition set_prev (p : option nat) (n : Node) : Node :=
  mkNode (n_key n) (n_value n) (n_expires_at n) (n_ttl_token n) (n_size n) p (n_next n).
Definition set_next (x : option nat) (n : Node) : Node :=
  mkNode (n_key n) (n_value n) (n_expires_at n) (n_ttl_token n) (n_size n) (n_prev n) x.
Definition with_map (m : gmap bytes nat) (s : ShardInner) : ShardInner :=
  mkShard m (s_nodes s) (s_free s) (s_ttl_heap s) (s_head s) (s_tail s).
Definition with_nodes (ns : list (option Node)) (s : ShardInner) : ShardInner :=
  mkShard (s_map s) ns (s_free s) (s_ttl_heap s) (s_head s) (s_tail s).
Definition with_free (f : list nat) (s : ShardInner) : ShardInner :=
  mkShard (s_map s) (s_nodes s) f (s_ttl_heap s) (s_head s) (s_tail s).
Definition with_heap (h : ttl_queue) (s : ShardInner) : ShardInner :=
  mkShard (s_map s) (s_nodes s) (s_free s) h (s_head s) (s_tail s).
Definition with_head (i : option nat) (s : ShardInner) : ShardInner :=
  mkShard (s_map s) (s_nodes s) (s_free s) (s_ttl_heap s) i (s_tail s).
Definition with_tail (i : option nat) (s : ShardInner) : ShardInner :=
  mkShard (s_map s) (s_nodes s) (s_free s) (s_ttl_heap s) (s_head s) i.

(** ** Operations *)

Section ops.
Context {E : Type}.
Abbreviation SM := (M ShardInner E).

(** [self.nodes[idx]]: an index out of range panics. *)
Definition node_at (idx : nat) : SM (option Node) :=
  ns ← gets s_nodes; expect (ns !! idx).

(** [if let Some(n) = self.nodes[idx].as_mut() { f(n) }]. *)
Definition modify_node_at (idx : nat) (f : Node -> Node) : SM unit :=
  o ← node_at idx;
  match o with
  | Some n => modify (fun s => with_nodes (<[idx := Some (f n)]> (s_nodes s)) s)
  | None => mret tt
  end.

(** [self.nodes[idx] = o]. *)
Definition set_node_at (idx : nat) (o : option Node) : SM unit :=
  _ ← node_at idx;
  modify (fun s => with_nodes (<[idx := o]> (s_nodes s)) s).

Definition lru_remove (idx : nat) : SM unit :=
  o ← node_at idx;
  node ← expect o;
  let prev := n_prev node in
  let next := n_next node in
  match prev with
  | Some prev_idx => modify_node_at prev_idx (set_next next)
  | None => modify (with_head next)
  end;;
  match next with
  | Some next_idx => modify_node_at next_idx (set_prev prev)
  | None => modify (with_tail prev)
  end;;
  modify_node_at idx (fun n => set_next None (set_prev None n)).

Definition lru_push_back (idx : nat) : SM unit :=
  tail ← gets s_tail;
  modify_node_at idx (fun n => set_next None (set_prev tail n));;
  match tail with
  | Some tail_idx => modify_node_at tail_idx (set_next (Some idx))
  | None => modify (with_head (Some idx))
  end;;
  modify (with_tail (Some idx)).

Definition touch (idx : nat) : SM unit :=
  tail ← gets s_tail;
  if bool_decide (tail = Some idx) then mret tt
  else lru_remove idx;; lru_push_back idx.

Definition insert_new (key value : bytes) (size : Z) : SM nat :=
  free ← gets s_free;
  idx ← match last free with
        | Some i => modify (with_free (removelast free));; mret i
        | None =>
            modify (fun s => with_nodes (s_nodes s ++ [None]) s);;
            ns ← gets s_nodes; mret (length ns - 1)
        end;
  set_node_at idx (Some (mkNode key value None 0 size None None));;
  lru_push_back idx;;
  modify (fun s => with_map (<[key := idx]> (s_map s)) s);;
  mret idx.

Definition schedule_expiration (idx : nat) (expires_at : Instant) (token : Z) : SM unit :=
  modify (fun s => with_heap (heap_push (mkEntry expires_at idx token) (s_ttl_heap s)) s).

(** The loop of [pop_due_expiration]: each turn pops one heap entry. *)
Fixpoint pop_due (ns : list (option Node)) (now : Instant) (h : ttl_queue)
    : option ExpirationEntry * ttl_queue :=
  match h with
  | [] => (None, h)
  | entry :: h' =>
      if (now <? ee_expires_at entry)%Z then (None, h)
      else
        match mjoin (ns !! ee_idx entry) with
        | None => pop_due ns now h'
        | Some node =>
            if negb (n_ttl_token node =? ee_token entry)%Z
               || bool_decide (n_expires_at node ≠ Some (ee_expires_at entry))
            then pop_due ns now h'
            else (Some entry, h')
        end
  end.

Definition pop_due_expiration (now : Instant) : SM (option ExpirationEntry) := fun s =>
  let '(r, h) := pop_due (s_nodes s) now (s_ttl_heap s) in (Val r, with_heap h s).

Definition remove_idx (idx : nat) : SM (option Z) :=
  o ← node_at idx;
  match o with
  | None => mret None
  | Some node =>
      lru_remove idx;;
      set_node_at idx None;;
      modify (fun s => with_map (delete (n_key node) (s_map s)) s);;
      modify (fun s => with_free (s_free s ++ [idx]) s);;
      mret (Some (n_size node))
  end.

Definition pop_lru : SM (option Z) :=
  head ← gets s_head;
  match head with
  | None => mret None
  | Some idx => remove_idx idx
  end.

End ops.
