(* ===== verification/Dll.v ===== *)
(** * Links of the LRU list inside the node arena

    The arena [Vec<Option<Node>>] of a shard holds a doubly-linked list whose
    pointers are slot indices. This file has the segment predicate, its algebra,
    and the proofs that [lru_remove], [lru_push_back] and [touch] relink it the
    way list surgery says, touching nothing but links. *)

From S2P Require Import Prelude Shard.

(** ** Segments *)

Definition hd_or (q : option nat) (l : list nat) : option nat :=
  match l with [] => q | j :: _ => Some j end.

Definition last_or (p : option nat) (l : list nat) : option nat :=
  match last l with Some j => Some j | None => p end.

(** [seg ns p l q]: the slots [l] are linked in this order, the first one
    pointing back to [p] and the last one on to [q]. *)
Fixpoint seg (ns : list (option Node)) (p : option nat) (l : list nat) (q : option nat) : Prop :=
  match l with
  | [] => True
  | i :: l' =>
      (exists n, ns !! i = Some (Some n) /\ n_prev n = p /\ n_next n = hd_or q l')
      /\ seg ns (Some i) l' q
  end.

Lemma last_or_cons p i l : last_or p (i :: l) = last_or (Some i) l.
Proof. unfold last_or. rewrite last_cons. by destruct (last l). Qed.

Lemma last_or_snoc p l i : last_or p (l ++ [i]) = Some i.
Proof. unfold last_or. by rewrite last_snoc. Qed.

Lemma hd_or_app q l1 l2 : hd_or q (l1 ++ l2) = hd_or (hd_or q l2) l1.
Proof. by destruct l1. Qed.

Lemma last_or_app p l1 l2 : last_or p (l1 ++ l2) = last_or (last_or p l1) l2.
Proof.
  revert p. induction l1 as [|i l1 IH]; intros p; [done|].
  simpl. by rewrite !last_or_cons, IH.
Qed.

Lemma seg_app ns p l1 l2 q :
  seg ns p (l1 ++ l2) q <-> seg ns p l1 (hd_or q l2) /\ seg ns (last_or p l1) l2 q.
Proof.
  revert p. induction l1 as [|i l1 IH]; intros p; simpl.
  - unfold last_or. simpl. tauto.
  - rewrite IH, last_or_cons, hd_or_app. tauto.
Qed.

Lemma seg_frame ns p l q i o : i ∉ l -> seg ns p l q -> seg (<[i := o]> ns) p l q.
Proof.
  revert p. induction l as [|j l IH]; intros p Hni; simpl; [done|].
  apply not_elem_of_cons in Hni as [Hne Hni].
  intros [(n & Hn & Hl) Hs]. split; [|by apply IH].
  exists n. by rewrite list_lookup_insert_ne.
Qed.

Lemma seg_live ns p l q i : seg ns p l q -> i ∈ l -> exists n, ns !! i = Some (Some n).
Proof.
  revert p. induction l as [|j l IH]; intros p; simpl; [by intros _ ?%elem_of_nil|].
  intros [(n & Hn & _) Hs] [->|Hi]%elem_of_cons; eauto.
Qed.

Lemma seg_grow ns ns' p l q : seg ns p l q -> seg (ns ++ ns') p l q.
Proof.
  revert p. induction l as [|j l IH]; intros p; simpl; [done|].
  intros [(n & Hn & Hl) Hs]. split; [|by apply IH].
  exists n. split; [by apply lookup_app_l_Some|done].
Qed.

(** Redirecting the pointer that leaves a segment on either side. *)
Lemma seg_relink_next ns p l a q q' n :
  a ∉ l -> ns !! a = Some (Some n) ->
  seg ns p (l ++ [a]) q -> seg (<[a := Some (set_next q' n)]> ns) p (l ++ [a]) q'.
Proof.
  intros Ha Hn [Hl Hs]%seg_app. apply seg_app. split; [by apply seg_frame|].
  destruct Hs as [(n' & Hn' & Hp & _) _]. simplify_eq. split; [|done].
  exists (set_next q' n). split; [|done].
  apply list_lookup_insert_eq. by eapply lookup_lt_Some.
Qed.

Lemma seg_relink_prev ns p p' b l q n :
  b ∉ l -> ns !! b = Some (Some n) ->
  seg ns p (b :: l) q -> seg (<[b := Some (set_prev p' n)]> ns) p' (b :: l) q.
Proof.
  intros Hb Hn [(n' & Hn' & _ & Hx) Hs]. simplify_eq. split; [|by apply seg_frame].
  exists (set_prev p' n). split; [|done].
  apply list_lookup_insert_eq. by eapply lookup_lt_Some.
Qed.

(** ** What the link operations leave alone *)

(** The part of a node that is not a link. *)
Record Payload := mkPayload {
  p_key : bytes; p_value : bytes; p_expires_at : option Instant;
  p_token : Z; p_size : Z
}.

Definition payload (n : Node) : Payload :=
  mkPayload (n_key n) (n_value n) (n_expires_at n) (n_ttl_token n) (n_size n).

Definition payloads (ns : list (option Node)) : list (option Payload) :=
  fmap (M:=option) payload <$> ns.

Lemma payloads_lookup ns i : payloads ns !! i = fmap (M:=option) payload <$> ns !! i.
Proof. apply list_lookup_fmap. Qed.

Lemma payloads_live ns i p :
  payloads ns !! i = Some (Some p) <-> exists n, ns !! i = Some (Some n) /\ payload n = p.
Proof.
  rewrite payloads_lookup. destruct (ns !! i) as [[n|]|]; simpl; naive_solver.
Qed.

Lemma payloads_insert ns i o : payloads (<[i := o]> ns) = <[i := payload <$> o]> (payloads ns).
Proof. apply list_fmap_insert. Qed.

Lemma payloads_length ns : length (payloads ns) = length ns.
Proof. apply length_fmap. Qed.

Lemma payloads_link ns i n n' :
  ns !! i = Some (Some n) -> payload n' = payload n ->
  payloads (<[i := Some n']> ns) = payloads ns.
Proof.
  intros Hn Hp. rewrite payloads_insert. apply list_insert_id.
  rewrite payloads_lookup, Hn. simpl. by rewrite Hp.
Qed.

(** Equal up to links, head and tail. *)
Definition same_store (s s' : ShardInner) : Prop :=
  payloads (s_nodes s') = payloads (s_nodes s) /\
  s_map s' = s_map s /\ s_free s' = s_free s /\ s_ttl_heap s' = s_ttl_heap s.

#[export] Instance same_store_refl : Reflexive same_store.
Proof. done. Qed.
#[export] Instance same_store_trans : Transitive same_store.
Proof. intros ??? (?&?&?&?) (?&?&?&?). repeat split; congruence. Qed.

Lemma same_store_live s s' i n :
  same_store s s' -> s_nodes s !! i = Some (Some n) ->
  exists n', s_nodes s' !! i = Some (Some n') /\ payload n' = payload n.
Proof.
  intros [Hp _] Hn. apply payloads_live. rewrite Hp. apply payloads_live. eauto.
Qed.

(** The LRU list of a shard: [l] from the oldest to the most recent slot. *)
Definition links (s : ShardInner) (l : list nat) : Prop :=
  seg (s_nodes s) None l None /\ s_head s = hd_or None l /\ s_tail s = last_or None l.

(** ** Running the primitive slot accesses *)

Section run.
Context {E : Type}.
Abbreviation SM := (M ShardInner E).

Lemma node_at_run s i o : s_nodes s !! i = Some o -> node_at (E:=E) i s = (Val o, s).
Proof. intros H. unfold node_at. msteps. by rewrite H. Qed.

Lemma modify_node_at_run s i n f :
  s_nodes s !! i = Some (Some n) ->
  modify_node_at (E:=E) i f s = (Val tt, with_nodes (<[i := Some (f n)]> (s_nodes s)) s).
Proof. intros H. unfold modify_node_at. by rewrite (bind_val _ _ _ _ _ (node_at_run _ _ _ H)). Qed.

Lemma set_node_at_run s i o o' :
  s_nodes s !! i = Some o ->
  set_node_at (E:=E) i o' s = (Val tt, with_nodes (<[i := o']> (s_nodes s)) s).
Proof. intros H. unfold set_node_at. by rewrite (bind_val _ _ _ _ _ (node_at_run _ _ _ H)). Qed.

(** [upd s s' l]: [s'] differs from [s] only in links of the slots [l], the
    head and the tail. *)
Definition upd (s s' : ShardInner) (l : list nat) : Prop :=
  same_store s s' /\ forall j, j ∉ l -> s_nodes s' !! j = s_nodes s !! j.

Lemma upd_modify s i n f l :
  s_nodes s !! i = Some (Some n) -> payload (f n) = payload n -> i ∈ l ->
  upd s (with_nodes (<[i := Some (f n)]> (s_nodes s)) s) l.
Proof.
  intros Hn Hp Hi. repeat split; simpl.
  - by eapply payloads_link.
  - intros j Hj. apply list_lookup_insert_ne. set_solver.
Qed.

Lemma seg_upd s s' l p k q :
  upd s s' l -> k ## l -> seg (s_nodes s) p k q -> seg (s_nodes s') p k q.
Proof.
  intros [_ Hf]. revert p. induction k as [|i k IH]; intros p Hd; simpl; [done|].
  intros [(n & Hn & Hl) Hs]. split; [|apply IH; [set_solver|done]].
  exists n. rewrite Hf by set_solver. done.
Qed.

(** The left and right parts of the list, around a gap. *)
Definition lpart (s : ShardInner) (l : list nat) (x : option nat) : Prop :=
  seg (s_nodes s) None l x /\ s_head s = hd_or x l.
Definition rpart (s : ShardInner) (y : option nat) (l : list nat) : Prop :=
  seg (s_nodes s) y l None /\ s_tail s = last_or y l.

Lemma links_split s l1 l2 :
  links s (l1 ++ l2) <-> lpart s l1 (hd_or None l2) /\ rpart s (last_or None l1) l2.
Proof. unfold links, lpart, rpart. rewrite seg_app, hd_or_app, last_or_app. tauto. Qed.

(** [match last of l with Some(a) => nodes[a].next = x | None => head = x]. *)
Definition link_left (l : option nat) (x : option nat) : SM unit :=
  match l with Some a => modify_node_at a (set_next x) | None => modify (with_head x) end.
Definition link_right (y : option nat) (r : option nat) : SM unit :=
  match r with Some b => modify_node_at b (set_prev y) | None => modify (with_tail y) end.

Lemma link_left_run s l1 x x' y l2 :
  lpart s l1 x -> rpart s y l2 -> NoDup l1 -> l1 ## l2 ->
  exists s', link_left (last_or None l1) x' s = (Val tt, s')
    /\ lpart s' l1 x' /\ rpart s' y l2 /\ upd s s' l1 /\ s_tail s' = s_tail s.
Proof.
  intros [Hl Hh] [Hr Ht] Hnd Hd. destruct l1 as [|a l1 _] using rev_ind.
  - eexists. split; [done|]. repeat split; auto.
  - rewrite last_or_snoc. apply NoDup_app in Hnd as (Hnd & Hna & _).
    destruct (seg_live _ _ _ _ a Hl) as [n Hn]; [set_solver|].
    eexists. split; [by apply modify_node_at_run|].
    repeat split; simpl; auto.
    + apply (seg_relink_next _ _ _ _ x); [set_solver|done..].
    + rewrite Hh. by destruct l1.
    + apply seg_frame; [set_solver|done].
    + by eapply payloads_link.
    + intros j Hj. apply list_lookup_insert_ne. set_solver.
Qed.

Lemma link_right_run s l1 x y y' l2 :
  lpart s l1 x -> rpart s y l2 -> NoDup l2 -> l1 ## l2 ->
  exists s', link_right y' (hd_or None l2) s = (Val tt, s')
    /\ lpart s' l1 x /\ rpart s' y' l2 /\ upd s s' l2.
Proof.
  intros [Hl Hh] [Hr Ht] Hnd Hd. destruct l2 as [|b l2].
  - eexists. split; [done|]. repeat split; auto.
  - simpl. apply NoDup_cons in Hnd as [Hnb Hnd].
    destruct (seg_live _ _ _ _ b Hr) as [n Hn]; [set_solver|].
    eexists. split; [by apply modify_node_at_run|].
    repeat split; simpl; auto.
    + apply seg_frame; [set_solver|done].
    + eexists (set_prev y' n). destruct Hr as [(n' & Hn' & _ & Hx) _]. simplify_eq.
      split; [|done]. apply list_lookup_insert_eq. by eapply lookup_lt_Some.
    + destruct Hr as [_ Hr]. by apply seg_frame.
    + by rewrite Ht, !last_or_cons.
    + by eapply payloads_link.
    + intros j Hj. apply list_lookup_insert_ne. set_solver.
Qed.

Lemma lpart_frame s s' l x k :
  upd s s' k -> l ## k -> s_head s' = s_head s -> lpart s l x -> lpart s' l x.
Proof. intros Hu Hd Hh [Hs He]. split; [by eapply seg_upd|congruence]. Qed.

Lemma rpart_frame s s' y l k :
  upd s s' k -> l ## k -> s_tail s' = s_tail s -> rpart s y l -> rpart s' y l.
Proof. intros Hu Hd Hh [Hs He]. split; [by eapply seg_upd|congruence]. Qed.


Lemma lru_remove_run s l1 i l2 :
  links s (l1 ++ i :: l2) -> NoDup (l1 ++ i :: l2) ->
  exists s', lru_remove (E:=E) i s = (Val tt, s')
    /\ links s' (l1 ++ l2) /\ same_store s s'.
Proof.
  intros Hl Hnd.
  apply NoDup_middle in Hnd as [Hni Hnd]. apply NoDup_app in Hnd as (Hn1 & Hd & Hn2).
  apply not_elem_of_app in Hni as [Hi1 Hi2].
  apply links_split in Hl as [Hl [Hr Ht]].
  destruct Hr as [(n & Hn & Hp & Hx) Hr]. rewrite last_or_cons in Ht.
  destruct (link_left_run s l1 (Some i) (n_next n) (Some i) l2)
    as (s1 & E1 & Hl1 & Hr1 & Hu1 & _); [done..|].
  destruct (link_right_run s1 l1 (n_next n) (Some i) (n_prev n) l2)
    as (s2 & E2 & Hl2 & Hr2 & Hu2); [done..|].
  assert (s_nodes s2 !! i = Some (Some n)) as Hn2'.
  { rewrite (proj2 Hu2), (proj2 Hu1); done. }
  unfold lru_remove.
  rewrite (bind_val _ _ _ _ _ (node_at_run _ _ _ Hn)). unfold expect. msteps.
  rewrite (bind_val (A:=unit) _ _ _ tt s1) by (rewrite Hp; exact E1).
  rewrite (bind_val (A:=unit) _ _ _ tt s2) by (rewrite Hx; exact E2).
  eexists. split; [by apply modify_node_at_run|].
  set (s3 := with_nodes _ s2).
  assert (upd s2 s3 [i]) as Hu3.
  { apply (upd_modify _ _ n (fun n => set_next None (set_prev None n))); [done..|set_solver]. }
  split.
  - apply links_split. rewrite <- Hp, <- Hx.
    split; [eapply lpart_frame|eapply rpart_frame]; try done; set_solver.
  - etrans; [apply Hu1|]. etrans; [apply Hu2|apply Hu3].
Qed.

Lemma lru_push_back_run s l i n :
  links s l -> NoDup l -> i ∉ l -> s_nodes s !! i = Some (Some n) ->
  exists s', lru_push_back (E:=E) i s = (Val tt, s')
    /\ links s' (l ++ [i]) /\ same_store s s'.
Proof.
  intros [Hs [Hh Ht]] Hnd Hi Hn. unfold lru_push_back. msteps.
  rewrite (bind_val _ _ _ _ _ (modify_node_at_run _ _ _ _ Hn)).
  set (s1 := with_nodes _ s).
  assert (upd s s1 [i]) as Hu1.
  { apply (upd_modify _ _ n (fun n => set_next None (set_prev (s_tail s) n))); [done..|set_solver]. }
  assert (lpart s1 l None) as Hl1.
  { eapply lpart_frame; [done|set_solver|done|]. by split. }
  destruct (link_left_run s1 l None (Some i) (s_tail s) [])
    as (s2 & E2 & Hl2 & _ & Hu2 & _); [done|by split|done|set_solver|].
  rewrite (bind_val (A:=unit) _ _ _ tt s2) by (rewrite Ht; exact E2).
  eexists. split; [done|].
  split; [|etrans; [apply Hu1|]; etrans; [apply Hu2|done]].
  destruct Hl2 as [Hs2 Hh2]. split; simpl.
  - apply seg_app. split; [exact Hs2|]. split; [|done].
    exists (set_next None (set_prev (s_tail s) n)). rewrite <- Ht.
    split; [|done]. rewrite (proj2 Hu2) by done.
    apply list_lookup_insert_eq. by eapply lookup_lt_Some.
  - split; [by rewrite hd_or_app|by rewrite last_or_snoc].
Qed.

(** [touch] moves a slot to the recent end, and is the identity there. *)
Lemma touch_run s l1 i l2 :
  links s (l1 ++ i :: l2) -> NoDup (l1 ++ i :: l2) ->
  exists s', touch (E:=E) i s = (Val tt, s')
    /\ links s' (l1 ++ l2 ++ [i]) /\ same_store s s'.
Proof.
  intros Hl Hnd. unfold touch. msteps. case_bool_decide as Ht.
  - exists s. split; [done|]. split; [|done].
    pose proof Hl as (_ & _ & Htl).
    destruct l2 as [|j l2 _] using rev_ind; [done|exfalso].
    rewrite Ht, (app_comm_cons l2), app_assoc, last_or_snoc in Htl. simplify_eq.
    apply NoDup_middle in Hnd as [Hni _]. apply Hni. set_solver.
  - destruct (lru_remove_run s l1 i l2) as (s1 & E1 & Hl1 & Hs1); [done..|].
    rewrite (bind_val (A:=unit) _ _ _ _ _ E1).
    destruct (seg_live _ _ _ _ i (proj1 Hl)) as [n Hn]; [set_solver|].
    destruct (same_store_live _ _ _ _ Hs1 Hn) as (n1 & Hn1 & _).
    rewrite (app_assoc l1). apply NoDup_middle in Hnd as [Hni Hnd].
    destruct (lru_push_back_run s1 (l1 ++ l2) i n1) as (s2 & E2 & Hl2 & Hs2);
      [done..|].
    exists s2. split; [done|]. split; [done|]. by etrans.
Qed.

End run.
