(* ===== verification/ShardRefine.v ===== *)
(** * A shard implements the LRU list (hkv-engine/src/memory.rs, [ShardInner])

    [shard_rep s l]: the arena, the links, the free list, the key map and the
    TTL heap of [s] are well formed and hold the abstract list [l]. Each
    operation of Shard.v then runs without panicking and does to [l] what
    LruSpec.v says. *)

From S2P Require Import Prelude LruSpec Shard Dll.
From Stdlib Require Import Sorting.Sorted.

(** ** Representation *)

Definition entry_of (p : Payload) : Entry := mkE (p_key p) (p_value p) (p_expires_at p).

Definition contents (ps : list (option Payload)) (il : list nat) : lru :=
  omap (fun i => entry_of <$> mjoin (ps !! i)) il.

Record store_inv (ps : list (option Payload)) (m : gmap bytes nat) (fr il : list nat) : Prop := {
  si_live : forall i, i ∈ il <-> exists p, ps !! i = Some (Some p);
  si_free : forall i, i ∈ fr <-> ps !! i = Some None;
  si_free_nodup : NoDup fr;
  si_map : forall k i, m !! k = Some i <-> exists p, ps !! i = Some (Some p) /\ p_key p = k;
  si_size : forall i p, ps !! i = Some (Some p) -> p_size p = e_size (entry_of p)
}.

Definition due_le (a b : ExpirationEntry) : Prop := (ee_expires_at a <= ee_expires_at b)%Z.

(** Every live deadline is in the heap, except perhaps that of slot [x], which
    is about to be scheduled. *)
Record heap_inv (x : option nat) (ps : list (option Payload)) (h : ttl_queue) : Prop := {
  hi_sorted : StronglySorted due_le h;
  hi_covers : forall i p d, x <> Some i -> ps !! i = Some (Some p) -> p_expires_at p = Some d ->
    mkEntry d i (p_token p) ∈ h
}.

Definition shard_rep_ex (x : option nat) (s : ShardInner) (l : lru) : Prop :=
  exists il, links s il /\ NoDup il
    /\ store_inv (payloads (s_nodes s)) (s_map s) (s_free s) il
    /\ heap_inv x (payloads (s_nodes s)) (s_ttl_heap s)
    /\ l = contents (payloads (s_nodes s)) il.

Definition shard_rep : ShardInner -> lru -> Prop := shard_rep_ex None.

(** ** The heap *)

Lemma entry_leb_due a b : entry_leb a b = true -> due_le a b.
Proof. unfold entry_leb, entry_cmp, due_le. destruct (Z.compare_spec (ee_expires_at a) (ee_expires_at b)); try done; lia. Qed.

Lemma entry_leb_due_false a b : entry_leb a b = false -> due_le b a.
Proof. unfold entry_leb, entry_cmp, due_le. destruct (Z.compare_spec (ee_expires_at a) (ee_expires_at b)); try done; lia. Qed.

Lemma heap_push_elem e h x : x ∈ heap_push e h <-> x = e \/ x ∈ h.
Proof. induction h as [|y h IH]; simpl; [set_solver|]. case_match; set_solver. Qed.

Lemma heap_push_sorted e h : StronglySorted due_le h -> StronglySorted due_le (heap_push e h).
Proof.
  induction 1 as [|y h Hs IH Hy]; simpl; [repeat constructor|].
  rewrite Forall_forall in Hy.
  destruct (entry_leb e y) eqn:E.
  - apply entry_leb_due in E. apply SSorted_cons; [by apply SSorted_cons, Forall_forall|].
    apply Forall_cons. split; [done|]. apply Forall_forall.
    intros z Hz%Hy. unfold due_le in *. lia.
  - apply SSorted_cons; [done|]. apply Forall_forall.
    intros z [->|Hz]%heap_push_elem; [by apply entry_leb_due_false|auto].
Qed.

Lemma heap_inv_weaken i ps h : heap_inv None ps h -> heap_inv (Some i) ps h.
Proof. intros [Hs Hc]. split; [done|]. intros j p d _. by apply Hc. Qed.

Lemma heap_inv_clear x ps h i : 
  heap_inv x ps h -> (x = None \/ x = Some i) -> heap_inv None (<[i := None]> ps) h.
Proof.
  intros [Hs Hc] Hx. split; [done|]. intros j p d _ Hp Hd.
  apply list_lookup_insert_Some in Hp as [(_ & ? & _)|[Hne Hp]]; [done|].
  apply Hc; [naive_solver|done..].
Qed.

(** ** The contents *)

Lemma contents_app ps l1 l2 : contents ps (l1 ++ l2) = contents ps l1 ++ contents ps l2.
Proof. apply omap_app. Qed.

Lemma contents_one ps i p : ps !! i = Some (Some p) -> contents ps [i] = [entry_of p].
Proof. intros Hp. unfold contents. simpl. by rewrite Hp. Qed.

Lemma contents_cons ps i p il :
  ps !! i = Some (Some p) -> contents ps (i :: il) = entry_of p :: contents ps il.
Proof. intros Hp. change (i :: il) with ([i] ++ il). by rewrite contents_app, (contents_one _ _ _ Hp). Qed.

Lemma contents_ext ps ps' il :
  (forall j, j ∈ il -> ps' !! j = ps !! j) -> contents ps' il = contents ps il.
Proof.
  intros Heq. unfold contents. induction il as [|j il IH]; [done|].
  cbn [omap list_omap]. rewrite Heq by set_solver. rewrite IH by set_solver. done.
Qed.

Lemma contents_frame ps i o il : i ∉ il -> contents (<[i := o]> ps) il = contents ps il.
Proof. intros Hni. apply contents_ext. intros j Hj. apply list_lookup_insert_ne. set_solver. Qed.

Lemma contents_elem ps il e :
  e ∈ contents ps il <-> exists i p, i ∈ il /\ ps !! i = Some (Some p) /\ e = entry_of p.
Proof.
  unfold contents. rewrite list_elem_of_omap. split.
  - intros (i & Hi & He). destruct (ps !! i) as [[p|]|] eqn:Hp; simplify_eq/=. eauto.
  - intros (i & p & Hi & Hp & ->). exists i. by rewrite Hp.
Qed.

Lemma contents_keys ps il k :
  k ∈ keys (contents ps il) <-> exists i p, i ∈ il /\ ps !! i = Some (Some p) /\ p_key p = k.
Proof.
  unfold keys. rewrite list_elem_of_fmap. split.
  - intros (e & -> & (i & p & Hi & Hp & ->)%contents_elem). eauto.
  - intros (i & p & Hi & Hp & <-). exists (entry_of p). split; [done|]. apply contents_elem. eauto.
Qed.

Section store.
Context {ps : list (option Payload)} {m : gmap bytes nat} {fr il : list nat}.
Hypothesis Hst : store_inv ps m fr il.

Lemma store_key_inj i j p q :
  ps !! i = Some (Some p) -> ps !! j = Some (Some q) -> p_key p = p_key q -> i = j.
Proof.
  intros Hi Hj Hk.
  assert (m !! p_key p = Some i) as E1 by (apply Hst; eauto).
  assert (m !! p_key p = Some j) as E2 by (apply Hst; eauto). congruence.
Qed.

Lemma contents_notin i p l :
  i ∉ l -> ps !! i = Some (Some p) -> p_key p ∉ keys (contents ps l).
Proof.
  intros Hni Hp (j & q & Hj & Hq & Hk)%contents_keys.
  by rewrite (store_key_inj _ _ _ _ Hp Hq) in Hni.
Qed.

Lemma contents_NoDup l : NoDup l -> NoDup (keys (contents ps l)).
Proof.
  induction 1 as [|i l Hni Hnd IH]; [constructor|].
  destruct (ps !! i) as [[p|]|] eqn:Hp.
  - rewrite (contents_cons _ _ _ _ Hp). unfold keys. rewrite fmap_cons. constructor; [|done].
    by apply (contents_notin i p).
  - unfold contents. simpl. by rewrite Hp.
  - unfold contents. simpl. by rewrite Hp.
Qed.

(** Splitting a shard at a live slot. *)
Lemma store_split i p :
  NoDup il -> ps !! i = Some (Some p) ->
  exists l1 l2, il = l1 ++ i :: l2 /\ (i ∉ l1 ++ l2)
    /\ contents ps il = contents ps l1 ++ entry_of p :: contents ps l2
    /\ p_key p ∉ keys (contents ps l1 ++ contents ps l2).
Proof.
  intros Hnd Hp. destruct (list_elem_of_split il i) as (l1 & l2 & Heq); [apply Hst; eauto|].
  rewrite Heq in Hnd. apply NoDup_middle in Hnd as [Hni _]. exists l1, l2. split_and!; try done.
  - by rewrite Heq, contents_app, (contents_cons _ _ _ _ Hp).
  - rewrite <- contents_app. by apply (contents_notin i p).
Qed.

End store.

(** ** Lookup *)

Lemma rep_NoDup x s l : shard_rep_ex x s l -> NoDup (keys l).
Proof. intros (il & _ & Hnd & Hst & _ & ->). by apply (contents_NoDup Hst). Qed.

Lemma rep_new : shard_rep shard_new [].
Proof.
  exists []. split; [done|]. split; [constructor|]. split; [|split; [|done]].
  - split; simpl.
    + intros i. split; [by intros ?%elem_of_nil|by intros (? & ?)].
    + intros i. split; [by intros ?%elem_of_nil|done].
    + constructor.
    + intros k i. rewrite lookup_empty. split; [done|by intros (? & ? & _)].
    + done.
  - split; [constructor|done].
Qed.

Lemma rep_weaken s l i : shard_rep s l -> shard_rep_ex (Some i) s l.
Proof.
  intros (il & Hl & Hnd & Hst & Hh & ->). exists il. split_and!; try done. by apply heap_inv_weaken.
Qed.

Lemma find_key_split k l1 e l2 (l : lru) :
  l = l1 ++ e :: l2 -> k ∉ keys (l1 ++ l2) -> e_key e = k -> find_key k l = Some e.
Proof.
  intros -> Hni Hk. apply find_key_middle; [|done].
  unfold keys in *. rewrite fmap_app in Hni. set_solver.
Qed.

(** A key is in the map iff it is in the list, and its slot holds its entry. *)
Lemma rep_lookup_None x s l k : shard_rep_ex x s l -> s_map s !! k = None -> find_key k l = None.
Proof.
  intros (il & _ & _ & Hst & _ & ->) Hk. apply find_key_None.
  intros (i & p & _ & Hp & Hpk)%contents_keys.
  assert (s_map s !! k = Some i) by (apply Hst; eauto). congruence.
Qed.

Lemma rep_live x s l i n :
  shard_rep_ex x s l -> s_nodes s !! i = Some (Some n) ->
  find_key (n_key n) l = Some (entry_of (payload n))
  /\ n_size n = e_size (entry_of (payload n)).
Proof.
  intros (il & _ & Hnd & Hst & _ & ->) Hn.
  assert (payloads (s_nodes s) !! i = Some (Some (payload n))) as Hp by (apply payloads_live; eauto).
  split; [|by apply (si_size _ _ _ _ Hst _ _ Hp)].
  destruct (store_split Hst _ _ Hnd Hp) as (l1 & l2 & _ & _ & Hc & Hni).
  eapply find_key_split; [done|exact Hni|done].
Qed.

Lemma rep_lookup_Some x s l k i :
  shard_rep_ex x s l -> s_map s !! k = Some i ->
  exists n, s_nodes s !! i = Some (Some n) /\ n_key n = k
    /\ find_key k l = Some (entry_of (payload n)) /\ n_size n = e_size (entry_of (payload n)).
Proof.
  intros Hr Hk. pose proof Hr as (il & _ & _ & Hst & _ & _).
  apply Hst in Hk as (p & (n & Hn & <-)%payloads_live & Hk).
  exists n. split; [done|]. split; [done|]. simpl in Hk. rewrite <- Hk. by apply (rep_live x s l i).
Qed.

(** ** Changes to the store *)

Lemma store_inv_perm ps m fr il il' : il ≡ₚ il' -> store_inv ps m fr il -> store_inv ps m fr il'.
Proof. intros Hp [Hl ? ? ? ?]. split; [|done..]. intros i. by rewrite <- Hl, Hp. Qed.

Lemma store_inv_remove ps m fr l1 i l2 p :
  store_inv ps m fr (l1 ++ i :: l2) -> (i ∉ l1 ++ l2) -> ps !! i = Some (Some p) ->
  store_inv (<[i := None]> ps) (delete (p_key p) m) (fr ++ [i]) (l1 ++ l2).
Proof.
  intros Hst Hni Hp. assert (i < length ps) as Hlt by (by eapply lookup_lt_Some).
  destruct (Hst) as [Hl Hf Hnd Hm Hs].
  assert (forall j q, <[i := None]> ps !! j = Some (Some q) <-> j <> i /\ ps !! j = Some (Some q)) as Hlk.
  { intros j q. rewrite list_lookup_insert_Some. naive_solver. }
  split.
  - intros j. setoid_rewrite Hlk. specialize (Hl j). split.
    + intros Hj. destruct (decide (j = i)) as [->|]; [done|].
      destruct (proj1 Hl) as [q Hq]; [set_solver|]. eauto.
    + intros (q & Hne & Hq). assert (j ∈ l1 ++ i :: l2) by (apply Hl; eauto). set_solver.
  - intros j. rewrite elem_of_app, list_elem_of_singleton, Hf, list_lookup_insert_Some. naive_solver.
  - apply NoDup_app. split; [done|]. split; [|apply NoDup_singleton].
    intros j Hj ->%list_elem_of_singleton. apply Hf in Hj. congruence.
  - intros k j. rewrite lookup_delete_Some, Hm. setoid_rewrite Hlk. split.
    + intros (Hk & q & Hq & <-). exists q. split_and!; try done. intros ->. congruence.
    + intros (q & [Hne Hq] & <-). split; [|eauto]. intros Hk.
      by apply Hne, (store_key_inj Hst _ _ _ _ Hq Hp).
  - intros j q [_ Hq]%Hlk. eauto.
Qed.

Lemma store_inv_update ps m fr il i p p' :
  store_inv ps m fr il -> ps !! i = Some (Some p) -> p_key p' = p_key p ->
  p_size p' = e_size (entry_of p') -> store_inv (<[i := Some p']> ps) m fr il.
Proof.
  intros [Hl Hf Hnd Hm Hs] Hp Hk Hz. assert (i < length ps) as Hlt by (by eapply lookup_lt_Some).
  split; [| |done| |].
  - intros j. rewrite Hl. setoid_rewrite list_lookup_insert_Some.
    destruct (decide (i = j)) as [<-|]; naive_solver.
  - intros j. rewrite Hf, list_lookup_insert_Some. naive_solver.
  - intros k j. rewrite Hm. setoid_rewrite list_lookup_insert_Some.
    destruct (decide (i = j)) as [<-|]; naive_solver congruence.
  - intros j q [(-> & [= <-] & _)|[_ Hq]]%list_lookup_insert_Some; eauto.
Qed.

(** Reusing a free slot, or a fresh one at the end of the arena, for a new key. *)
Lemma store_inv_add ps m fr il i p :
  store_inv ps m (fr ++ [i]) il -> m !! p_key p = None -> p_size p = e_size (entry_of p) ->
  store_inv (<[i := Some p]> ps) (<[p_key p := i]> m) fr (il ++ [i]).
Proof.
  intros [Hl Hf Hnd Hm Hs] Hk Hz.
  assert (ps !! i = Some None) as Hi by (apply Hf; set_solver).
  assert (i < length ps) as Hlt by (by eapply lookup_lt_Some).
  apply NoDup_app in Hnd as (Hnd & Hni & _).
  assert (forall j q, <[i := Some p]> ps !! j = Some (Some q) <->
    j = i /\ q = p \/ j <> i /\ ps !! j = Some (Some q)) as Hlk.
  { intros j q. rewrite list_lookup_insert_Some. naive_solver. }
  split.
  - intros j. setoid_rewrite Hlk. rewrite elem_of_app, Hl, list_elem_of_singleton.
    destruct (decide (j = i)) as [->|]; naive_solver.
  - intros j. rewrite list_lookup_insert_Some. specialize (Hf j). specialize (Hni j). set_solver.
  - done.
  - intros k j. rewrite lookup_insert_Some, Hm. setoid_rewrite Hlk. split.
    + intros [[<- <-]|(Hne & q & Hq & <-)]; [eauto|].
      exists q. split; [|done]. right. split; [|done]. intros ->. congruence.
    + intros (q & [[-> ->]|[Hne Hq]] & <-); [by left|]. right.
      split; [|eauto]. intros He. rewrite He in Hk. 
      assert (m !! p_key q = Some j) by (apply Hm; eauto). congruence.
  - intros j q [[-> ->]|[_ Hq]]%Hlk; eauto.
Qed.

Lemma store_inv_grow ps m il :
  store_inv ps m [] il -> store_inv (ps ++ [None]) m [length ps] il.
Proof.
  intros [Hl Hf Hnd Hm Hs].
  assert (forall j q, (ps ++ [None]) !! j = Some (Some q) <-> ps !! j = Some (Some q)) as Hlk.
  { intros j q. rewrite lookup_app_Some, list_lookup_singleton_Some.
    split; [naive_solver|]. intros Hq. by left. }
  split.
  - intros j. setoid_rewrite Hlk. done.
  - intros j. rewrite lookup_app_Some, list_lookup_singleton_Some, list_elem_of_singleton.
    split.
    + intros ->. right. split; [done|]. split; [lia|done].
    + intros [Hj%Hf|(? & ? & _)]; [by apply elem_of_nil in Hj|lia].
  - apply NoDup_singleton.
  - intros k j. setoid_rewrite Hlk. done.
  - intros j q Hq%Hlk. eauto.
Qed.

(** ** The operations *)

Section ops.
Context {E : Type}.

Lemma rep_payload s i n :
  s_nodes s !! i = Some (Some n) -> payloads (s_nodes s) !! i = Some (Some (payload n)).
Proof. intros Hn. apply payloads_live. eauto. Qed.

Lemma remove_idx_rep_heap s l i n :
  shard_rep_ex (Some i) s l -> s_nodes s !! i = Some (Some n) ->
  exists s', remove_idx (E:=E) i s = (Val (Some (n_size n)), s')
    /\ shard_rep s' (drop_key (n_key n) l) /\ s_ttl_heap s' = s_ttl_heap s.
Proof.
  intros (il & Hlk & Hnd & Hst & Hh & ->) Hn. pose proof (rep_payload _ _ _ Hn) as Hp.
  destruct (store_split Hst _ _ Hnd Hp) as (l1 & l2 & -> & Hni & Hc & Hk).
  destruct (lru_remove_run (E:=E) s l1 i l2) as (s1 & E1 & Hl1 & Hs1); [done..|].
  destruct (same_store_live _ _ _ _ Hs1 Hn) as (n1 & Hn1 & _).
  unfold remove_idx. rewrite (bind_val _ _ _ _ _ (node_at_run _ _ _ Hn)).
  rewrite (bind_val (A:=unit) _ _ _ _ _ E1).
  rewrite (bind_val (A:=unit) _ _ _ _ _ (set_node_at_run _ _ _ None Hn1)). msteps.
  eexists. split; [done|].
  destruct Hs1 as (Hpay & Hm & Hf & Hhp). split; [|exact Hhp]. exists (l1 ++ l2). simpl.
  rewrite payloads_insert, Hpay, Hm, Hf, Hhp. split_and!.
  - destruct Hl1 as (Hs & Hhd & Htl). split_and!; [by apply seg_frame|done..].
  - by apply NoDup_middle in Hnd as [_ Hnd].
  - by apply (store_inv_remove _ _ _ _ _ _ (payload n)).
  - eapply heap_inv_clear; [done|by right].
  - rewrite Hc, drop_key_middle by done. by rewrite contents_frame, contents_app.
Qed.

Lemma remove_idx_rep s l i n :
  shard_rep_ex (Some i) s l -> s_nodes s !! i = Some (Some n) ->
  exists s', remove_idx (E:=E) i s = (Val (Some (n_size n)), s')
    /\ shard_rep s' (drop_key (n_key n) l).
Proof. intros Hr Hn. destruct (remove_idx_rep_heap s l i n Hr Hn) as (s' & ? & ? & _). eauto. Qed.

Lemma pop_lru_rep s l :
  shard_rep s l ->
  exists s', pop_lru (E:=E) s = (Val (e_size <$> head l), s') /\ shard_rep s' (tail l).
Proof.
  intros Hr. pose proof Hr as (il & Hlk & Hnd & Hst & Hh & Heq).
  unfold pop_lru. msteps. rewrite (proj1 (proj2 Hlk)). destruct il as [|i il]; simpl.
  - subst l. exists s. done.
  - destruct (proj1 (si_live _ _ _ _ Hst i)) as [p Hp]; [set_solver|].
    pose proof (contents_cons _ _ _ il Hp) as Hc. rewrite <- Heq in Hc.
    apply payloads_live in Hp as (n & Hn & <-).
    destruct (rep_live _ _ _ _ _ Hr Hn) as [_ Hz].
    destruct (remove_idx_rep s l i n) as (s' & E1 & Hr'); [by apply rep_weaken|done|].
    exists s'. rewrite Hc in Hr' |- *. simpl. rewrite Hz in E1. split; [done|].
    pose proof (rep_NoDup _ _ _ Hr) as Hnk. rewrite Hc in Hnk.
    unfold keys in Hnk. rewrite fmap_cons in Hnk. apply NoDup_cons in Hnk as [Hnk _].
    by rewrite drop_key_head in Hr'.
Qed.

(** [touch] makes an entry the most recent one. *)
Lemma touch_rep x s l i n :
  shard_rep_ex x s l -> s_nodes s !! i = Some (Some n) ->
  exists s' n', touch (E:=E) i s = (Val tt, s')
    /\ shard_rep_ex x s' (put (entry_of (payload n)) l)
    /\ s_nodes s' !! i = Some (Some n') /\ payload n' = payload n.
Proof.
  intros (il & Hlk & Hnd & Hst & Hh & ->) Hn. pose proof (rep_payload _ _ _ Hn) as Hp.
  destruct (store_split Hst _ _ Hnd Hp) as (l1 & l2 & -> & Hni & Hc & Hk).
  destruct (touch_run (E:=E) s l1 i l2) as (s1 & E1 & Hl1 & Hs1); [done..|].
  destruct (same_store_live _ _ _ _ Hs1 Hn) as (n1 & Hn1 & Hpn).
  exists s1, n1. split_and!; try done.
  destruct Hs1 as (Hpay & Hm & Hf & Hhp). exists (l1 ++ l2 ++ [i]).
  rewrite Hpay, Hm, Hf, Hhp.
  assert (l1 ++ i :: l2 ≡ₚ l1 ++ l2 ++ [i]) as Hperm by (by rewrite <- Permutation_cons_append).
  split_and!; try done; [by rewrite <- Hperm|by eapply store_inv_perm|].
  unfold put. rewrite Hc, drop_key_middle by done.
  by rewrite !contents_app, (contents_one _ _ _ Hp), app_assoc.
Qed.

(** Changing the value, deadline, token or size of a slot in place. *)
Lemma update_rep s l i n f :
  shard_rep s l -> s_nodes s !! i = Some (Some n) ->
  n_key (f n) = n_key n -> n_prev (f n) = n_prev n -> n_next (f n) = n_next n ->
  n_size (f n) = e_size (entry_of (payload (f n))) ->
  exists l1 l2, let s' := with_nodes (<[i := Some (f n)]> (s_nodes s)) s in
    modify_node_at (E:=E) i f s = (Val tt, s')
    /\ l = l1 ++ entry_of (payload n) :: l2 /\ (n_key n ∉ keys (l1 ++ l2))
    /\ shard_rep_ex (Some i) s' (l1 ++ entry_of (payload (f n)) :: l2)
    /\ s_nodes s' !! i = Some (Some (f n)).
Proof.
  intros (il & Hlk & Hnd & Hst & Hh & ->) Hn Hkey Hprev Hnext Hsize.
  pose proof (rep_payload _ _ _ Hn) as Hp.
  destruct (store_split Hst _ _ Hnd Hp) as (i1 & i2 & -> & Hni & Hc & Hk).
  assert (i < length (s_nodes s)) as Hlt by (by eapply lookup_lt_Some).
  exists (contents (payloads (s_nodes s)) i1), (contents (payloads (s_nodes s)) i2).
  split_and!; try done.
  - by apply modify_node_at_run.
  - exists (i1 ++ i :: i2). simpl. rewrite payloads_insert. split_and!.
    + destruct Hlk as (Hs & Hhd & Htl). split_and!; [|done..]. simpl.
      apply seg_app in Hs as [Hs1 [(n0 & Hn0 & Hpv & Hnx) Hs2]]. simplify_eq.
      apply not_elem_of_app in Hni as [Hi1 Hi2].
      apply seg_app. split; [by apply seg_frame|]. split; [|by apply seg_frame].
      exists (f n0). rewrite list_lookup_insert_eq by done. split_and!; congruence.
    + done.
    + by apply (store_inv_update _ _ _ _ _ (payload n)).
    + destruct Hh as [Hsd Hcv]. split; [done|]. intros j p d Hne Hj Hd.
      rewrite list_lookup_insert_ne in Hj by congruence. by apply (Hcv j p d).
    + rewrite contents_app, (contents_cons _ _ (payload (f n)))
        by (simpl; rewrite list_lookup_insert_eq; [done|by rewrite payloads_length]).
      apply not_elem_of_app in Hni as [Hi1 Hi2]. by rewrite !contents_frame.
  - by apply list_lookup_insert_eq.
Qed.

(** The slot [insert_new] takes: the last freed one, or a new one. *)
Definition alloc : M ShardInner E nat :=
  free ← gets s_free;
  match last free with
  | Some i => modify (with_free (removelast free));; mret i
  | None =>
      modify (fun s => with_nodes (s_nodes s ++ [None]) s);;
      ns ← gets s_nodes; mret (length ns - 1)
  end.

Lemma heap_inv_grow x ps h : heap_inv x ps h -> heap_inv x (ps ++ [None]) h.
Proof.
  intros [Hs Hc]. split; [done|]. intros i p d Hx [Hp|(_ & Hp)]%lookup_app_Some Hd; [eauto|].
  by apply list_lookup_singleton_Some in Hp as [_ ?].
Qed.

Lemma contents_grow ps m fr il :
  store_inv ps m fr il -> contents (ps ++ [None]) il = contents ps il.
Proof.
  intros Hst. apply contents_ext. intros j Hj.
  apply Hst in Hj as [p Hp]. rewrite Hp. by apply lookup_app_l_Some.
Qed.

Lemma alloc_rep s l :
  shard_rep s l ->
  exists s0 i il, alloc s = (Val i, s0) /\ links s0 il /\ NoDup il
    /\ store_inv (payloads (s_nodes s0)) (s_map s0) (s_free s0 ++ [i]) il
    /\ heap_inv None (payloads (s_nodes s0)) (s_ttl_heap s0)
    /\ l = contents (payloads (s_nodes s0)) il /\ s_map s0 = s_map s.
Proof.
  intros (il & Hlk & Hnd & Hst & Hh & ->). unfold alloc. msteps.
  destruct (s_free s) as [|i fr _] eqn:Hfr using rev_ind.
  - simpl. msteps. do 3 eexists. split; [done|]. unfold payloads in *. simpl.
    rewrite fmap_app, length_app. simpl. split_and!; [|done|..].
    + destruct Hlk as [Hs Hhd]. split; [by apply seg_grow|done].
    + rewrite Nat.add_sub. rewrite <- (length_fmap (fmap (M:=option) payload)).
      rewrite Hfr. by apply store_inv_grow.
    + by apply heap_inv_grow.
    + symmetry. by eapply contents_grow.
    + done.
  - rewrite last_snoc, removelast_last. msteps. by do 3 eexists.
Qed.

Lemma insert_new_rep s l k v sz :
  shard_rep s l -> s_map s !! k = None -> sz = e_size (mkE k v None) ->
  exists s' i n, insert_new (E:=E) k v sz s = (Val i, s')
    /\ shard_rep s' (l ++ [mkE k v None])
    /\ s_nodes s' !! i = Some (Some n) /\ payload n = mkPayload k v None 0 sz.
Proof.
  intros Hr Hk ->. destruct (alloc_rep s l Hr) as (s0 & i & il & E0 & Hlk & Hnd & Hst & Hh & Hc & Hm).
  set (n := mkNode k v None 0 (e_size (mkE k v None)) None None).
  set (s1 := with_nodes (<[i := Some n]> (s_nodes s0)) s0).
  assert (exists o, s_nodes s0 !! i = Some o) as [o Ho].
  { assert (payloads (s_nodes s0) !! i = Some None) as Hi by (apply Hst; set_solver).
    rewrite payloads_lookup in Hi. destruct (s_nodes s0 !! i) as [o|]; [eauto|done]. }
  assert (i ∉ il) as Hni.
  { intros [p Hp]%Hst. assert (payloads (s_nodes s0) !! i = Some None) by (apply Hst; set_solver).
    congruence. }
  assert (s_nodes s1 !! i = Some (Some n)) as Hn
    by (apply list_lookup_insert_eq; by eapply lookup_lt_Some).
  assert (links s1 il) as Hlk1.
  { destruct Hlk as [Hs Hhd]. split; [by apply seg_frame|done]. }
  destruct (lru_push_back_run (E:=E) s1 il i n) as (s2 & E2 & Hlk2 & Hs2); [done..|].
  destruct (same_store_live _ _ _ _ Hs2 Hn) as (n2 & Hn2 & Hp2).
  exists (with_map (<[k := i]> (s_map s2)) s2), i, n2. split.
  { change (insert_new k v (e_size (mkE k v None)) s) with
      ((alloc ≫= fun idx => set_node_at idx (Some n);; lru_push_back idx;;
        modify (fun s => with_map (<[k := idx]> (s_map s)) s);; mret idx) s).
    rewrite (bind_val _ _ _ _ _ E0).
    rewrite (bind_val (A:=unit) _ _ _ _ _ (set_node_at_run _ _ _ (Some n) Ho)). fold s1.
    rewrite (bind_val (A:=unit) _ _ _ _ _ E2). by msteps. }
  split; [|done].
  destruct Hs2 as (Hpay & Hm2 & Hf2 & Hh2). exists (il ++ [i]). simpl.
  rewrite Hpay, Hm2, Hf2, Hh2. simpl. rewrite payloads_insert. split_and!.
  - done.
  - apply NoDup_app. split; [done|]. split; [set_solver|apply NoDup_singleton].
  - apply (store_inv_add _ _ _ _ _ (payload n)); [done| |done]. simpl. by rewrite Hm.
  - destruct Hh as [Hsd Hcv]. split; [done|].
    intros j p d _ [(-> & [= <-] & _)|[_ Hp]]%list_lookup_insert_Some Hd; [done|eauto].
  - rewrite contents_app, contents_frame, <- Hc by done. f_equal.
    symmetry. apply (contents_one _ _ (payload n)).
    apply list_lookup_insert_eq. rewrite payloads_length. by eapply lookup_lt_Some.
Qed.

(** Scheduling the deadline of the exempt slot completes the heap. *)
Lemma schedule_rep s l i n d :
  shard_rep_ex (Some i) s l -> s_nodes s !! i = Some (Some n) -> n_expires_at n = Some d ->
  exists s', schedule_expiration (E:=E) i d (n_ttl_token n) s = (Val tt, s') /\ shard_rep s' l.
Proof.
  intros (il & Hlk & Hnd & Hst & [Hsd Hcv] & ->) Hn Hd.
  eexists. split; [done|]. exists il. simpl. split_and!; try done.
  split; [by apply heap_push_sorted|]. intros j p d' _ Hp Hd'. apply heap_push_elem.
  destruct (decide (i = j)) as [<-|Hne]; [left|right; apply (Hcv j p d'); congruence].
  rewrite (rep_payload _ _ _ Hn) in Hp. by simplify_eq/=.
Qed.

Lemma no_deadline_rep s l i n :
  shard_rep_ex (Some i) s l -> s_nodes s !! i = Some (Some n) -> n_expires_at n = None ->
  shard_rep s l.
Proof.
  intros (il & Hlk & Hnd & Hst & [Hsd Hcv] & ->) Hn Hd. exists il. split_and!; try done.
  split; [done|]. intros j p d' _ Hp Hd'.
  destruct (decide (i = j)) as [<-|Hne]; [|apply (Hcv j p d'); congruence].
  rewrite (rep_payload _ _ _ Hn) in Hp. by simplify_eq/=.
Qed.

(** Popping due deadlines: stale heap entries are skipped, and only they. *)
Definition matches (ns : list (option Node)) (e : ExpirationEntry) (n : Node) : Prop :=
  ns !! ee_idx e = Some (Some n) /\ n_ttl_token n = ee_token e
  /\ n_expires_at n = Some (ee_expires_at e).

Lemma pop_due_spec ns now h r h' :
  StronglySorted due_le h -> pop_due ns now h = (r, h') ->
  StronglySorted due_le h' /\ length h' <= length h
  /\ (forall e n, e ∈ h -> matches ns e n -> e ∈ h' \/ r = Some e)
  /\ match r with
     | None => forall e, e ∈ h' -> (now < ee_expires_at e)%Z
     | Some e => (ee_expires_at e <= now)%Z /\ (exists n, matches ns e n) /\ length h' < length h
     end.
Proof.
  induction 1 as [|e h Hs IH Hle]; simpl.
  - intros [= <- <-]. split_and!; [constructor|done|by auto|by intros e ?%elem_of_nil].
  - rewrite Forall_forall in Hle. destruct (Z.ltb_spec now (ee_expires_at e)) as [Hlt|Hge].
    { intros [= <- <-]. split_and!; [by apply SSorted_cons, Forall_forall|done|by auto|].
      intros e' [->|He']%elem_of_cons; [done|]. specialize (Hle _ He'). unfold due_le in Hle. lia. }
    assert (forall n, matches ns e n -> mjoin (ns !! ee_idx e) = Some n) as Hmt.
    { intros n (-> & _). done. }
    destruct (mjoin (ns !! ee_idx e)) as [n|] eqn:Hn.
    + destruct (_ || _) eqn:Hstale.
      * intros (Hs' & Hlen & Hm & Hr)%IH.
        split_and!; [done|simpl; lia| |destruct r; [destruct Hr as (?&?&?); split_and!; try done; simpl; lia|done]].
        intros e' n' [->|He']%elem_of_cons Hmt'; [|eauto].
        exfalso. pose proof (Hmt _ Hmt') as [= <-]. destruct Hmt' as (_ & Ht & Hx).
        rewrite Ht, Hx, Z.eqb_refl, bool_decide_false in Hstale; [done|]. by intros [].
      * intros [= <- <-]. split_and!; [done|simpl; lia| |lia| |simpl; lia].
        { intros e' n' [->|He']%elem_of_cons; auto. }
        apply orb_false_iff in Hstale as [Ht%negb_false_iff%Z.eqb_eq Hx%bool_decide_eq_false].
        exists n. split_and!; [by destruct (ns !! ee_idx e) as [[]|]; simplify_eq/=|done|].
        destruct (decide (n_expires_at n = Some (ee_expires_at e))); [done|by exfalso; apply Hx].
    + intros (Hs' & Hlen & Hm & Hr)%IH.
      split_and!; [done|simpl; lia| |destruct r; [destruct Hr as (?&?&?); split_and!; try done; simpl; lia|done]].
      intros e' n' [->|He']%elem_of_cons Hmt'; [|eauto]. by pose proof (Hmt _ Hmt').
Qed.

Lemma pop_due_rep s l now :
  shard_rep s l ->
  exists r s', pop_due_expiration (E:=E) now s = (Val r, s') /\ s_nodes s' = s_nodes s
    /\ match r with
       | None => shard_rep s' l /\ forall e, e ∈ l -> e_expired now e = false
       | Some x => shard_rep_ex (Some (ee_idx x)) s' l
           /\ length (s_ttl_heap s') < length (s_ttl_heap s)
           /\ exists n, s_nodes s !! ee_idx x = Some (Some n)
              /\ e_expired now (entry_of (payload n)) = true
       end.
Proof.
  intros (il & Hlk & Hnd & Hst & [Hsd Hcv] & ->). unfold pop_due_expiration.
  destruct (pop_due (s_nodes s) now (s_ttl_heap s)) as [r h] eqn:E0.
  destruct (pop_due_spec _ _ _ _ _ Hsd E0) as (Hs' & _ & Hm & Hr).
  assert (forall i p d, payloads (s_nodes s) !! i = Some (Some p) -> p_expires_at p = Some d ->
    mkEntry d i (p_token p) ∈ h \/ r = Some (mkEntry d i (p_token p))) as Hkeep.
  { intros i p d Hp Hd. pose proof (Hcv i p d ltac:(done) Hp Hd) as Hin.
    apply payloads_live in Hp as (n & Hn & <-). by apply (Hm _ n). }
  exists r, (with_heap h s). split; [done|]. split; [done|]. destruct r as [x|].
  - destruct Hr as (Hle & (n & Hn & Ht & Hx) & Hlen). split; [|split; [exact Hlen|]].
    + exists il. split_and!; try done. split; [done|]. intros i p d Hne Hp Hd. simpl.
      destruct (Hkeep i p d Hp Hd) as [?|[= Heq]]; [done|]. by rewrite Heq in Hne.
    + exists n. split; [done|]. unfold e_expired. simpl. rewrite Hx. by apply Z.leb_le.
  - split.
    + exists il. split_and!; try done. split; [done|]. intros i p d _ Hp Hd.
      destruct (Hkeep i p d Hp Hd) as [?|?]; done.
    + intros e (i & p & _ & Hp & ->)%contents_elem. unfold e_expired. simpl.
      destruct (p_expires_at p) as [d|] eqn:Hd; [|done].
      destruct (Hkeep i p d Hp Hd) as [Hin|]; [|done]. apply Hr in Hin. simpl in Hin.
      by apply Z.leb_gt.
Qed.

End ops.

(** A shard has at most as many entries as slots. *)
Lemma rep_length x s l : shard_rep_ex x s l -> length l <= length (s_nodes s).
Proof.
  intros (il & _ & Hnd & Hst & _ & ->).
  assert (length (contents (payloads (s_nodes s)) il) <= length il) as Hle.
  { unfold contents. clear. induction il as [|i il IH]; [done|].
    cbn [omap list_omap length]. destruct (entry_of <$> _); cbn [length]; [apply le_n_S|apply le_S]; exact IH. }
  assert (length il <= length (seq 0 (length (s_nodes s)))) as Hle2.
  { apply submseteq_length, NoDup_submseteq; [done|]. intros i [p Hp]%Hst.
    apply elem_of_seq. apply lookup_lt_Some in Hp. rewrite payloads_length in Hp. lia. }
  rewrite length_seq in Hle2. lia.
Qed.

(** ** Well-formedness and accounting, on the arena itself *)

Definition node_bytes (o : option Node) : Z := match o with Some n => n_size n | None => 0 end.
Definition arena_bytes (ns : list (option Node)) : Z := foldr (fun o z => node_bytes o + z)%Z 0%Z ns.

Record shard_wf (s : ShardInner) : Prop := {
  wf_list : exists il, links s il /\ NoDup il
    /\ forall i, i ∈ il <-> exists n, s_nodes s !! i = Some (Some n);
  wf_free : NoDup (s_free s) /\ forall i, i ∈ s_free s <-> s_nodes s !! i = Some None;
  wf_map : forall k i, s_map s !! k = Some i <-> exists n, s_nodes s !! i = Some (Some n) /\ n_key n = k;
  wf_heap : StronglySorted due_le (s_ttl_heap s) /\
    forall i n d, s_nodes s !! i = Some (Some n) -> n_expires_at n = Some d ->
      mkEntry d i (n_ttl_token n) ∈ s_ttl_heap s
}.

Lemma rep_wf s l : shard_rep s l -> shard_wf s.
Proof.
  intros (il & Hlk & Hnd & [Hl Hf Hfn Hm Hs] & [Hsd Hcv] & _). split.
  - exists il. split_and!; try done. intros i. rewrite Hl. setoid_rewrite payloads_live. naive_solver.
  - split; [done|]. intros i. rewrite Hf, payloads_lookup.
    destruct (s_nodes s !! i) as [[n|]|]; simpl; naive_solver.
  - intros k i. rewrite Hm. setoid_rewrite payloads_live. naive_solver.
  - split; [done|]. intros i n d Hn Hd. apply (Hcv i (payload n) d); [done|by apply rep_payload|done].
Qed.

Lemma arena_bytes_insert ns i n :
  ns !! i = Some (Some n) -> arena_bytes (<[i := None]> ns) = (arena_bytes ns - n_size n)%Z.
Proof.
  revert i. induction ns as [|o ns IH]; intros [|i] Hi; simplify_eq/=; [lia|]. rewrite (IH _ Hi). lia.
Qed.

Lemma arena_bytes_none ns : (forall i n, ns !! i <> Some (Some n)) -> arena_bytes ns = 0%Z.
Proof.
  induction ns as [|o ns IH]; intros Hn; simpl; [done|].
  rewrite IH; [|intros i n; apply (Hn (S i))].
  destruct o as [n|]; [by destruct (Hn 0 n)|done].
Qed.

Lemma arena_bytes_contents il : forall ns,
  NoDup il -> (forall i, i ∈ il <-> exists n, ns !! i = Some (Some n)) ->
  (forall i n, ns !! i = Some (Some n) -> n_size n = e_size (entry_of (payload n))) ->
  arena_bytes ns = total_size (contents (payloads ns) il).
Proof.
  induction il as [|i il IH]; intros ns Hnd Hl Hs.
  - apply arena_bytes_none. intros i n Hn. assert (i ∈ @nil nat) as Hi by (apply Hl; eauto).
    by apply elem_of_nil in Hi.
  - apply NoDup_cons in Hnd as [Hni Hnd].
    destruct (proj1 (Hl i)) as [n Hn]; [set_solver|].
    assert (payloads ns !! i = Some (Some (payload n))) as Hp by (apply payloads_live; eauto).
    rewrite (contents_cons _ _ _ _ Hp). simpl. rewrite <- (Hs _ _ Hn).
    pose proof (arena_bytes_insert _ _ _ Hn) as Hb.
    rewrite (IH (<[i := None]> ns)) in Hb; [|done| |].
    + rewrite payloads_insert, contents_frame in Hb by done. lia.
    + intros j. setoid_rewrite list_lookup_insert_Some. specialize (Hl j). rewrite elem_of_cons in Hl.
      destruct (decide (j = i)) as [->|]; naive_solver.
    + intros j m [(_ & ? & _)|[_ Hm]]%list_lookup_insert_Some; [done|eauto].
Qed.

Lemma rep_bytes s l : shard_rep s l -> arena_bytes (s_nodes s) = total_size l.
Proof.
  intros (il & Hlk & Hnd & [Hl Hf Hfn Hm Hs] & _ & ->). apply arena_bytes_contents; [done| |].
  - intros i. rewrite Hl. setoid_rewrite payloads_live. naive_solver.
  - intros i n Hn. by apply (Hs i (payload n)), rep_payload.
Qed.
