(* ===== verification/Engine.v ===== *)
(** * The sharded in-memory engine (hkv-engine/src/memory.rs, [MemoryEngine])

    The keyed hash of the source (ahash) is a parameter, [hash].
    A method that reads the clock takes the [Instant] it reads. The locks make
    every method's work on one shard atomic; a method here is that work. *)

From S2P Require Import Prelude Errors KVEngine Shard.

Record MemoryEngine := mkEngine {
  shards : list ShardInner;
  shard_mask : Z;
  max_bytes : Z;
  used_bytes : Z;
  eviction_cursor : Z;
  ttl_token : Z
}.

Definition with_shards (ss : list ShardInner) (e : MemoryEngine) : MemoryEngine :=
  mkEngine ss (shard_mask e) (max_bytes e) (used_bytes e) (eviction_cursor e) (ttl_token e).
Definition with_used (u : Z) (e : MemoryEngine) : MemoryEngine :=
  mkEngine (shards e) (shard_mask e) (max_bytes e) u (eviction_cursor e) (ttl_token e).
Definition with_cursor (c : Z) (e : MemoryEngine) : MemoryEngine :=
  mkEngine (shards e) (shard_mask e) (max_bytes e) (used_bytes e) c (ttl_token e).
Definition with_token (t : Z) (e : MemoryEngine) : MemoryEngine :=
  mkEngine (shards e) (shard_mask e) (max_bytes e) (used_bytes e) (eviction_cursor e) t.

Abbreviation EM := (M MemoryEngine HkvError).

(** ** Construction *)

Definition DEFAULT_SHARD_MULTIPLIER : Z := 4.

(** [usize::next_power_of_two]: overflow panics or gives 0 with the profile. *)
Definition next_power_of_two `{Profile} {S E} (n : Z) : M S E Z :=
  let p := (2 ^ Z.log2_up n)%Z in
  if (p <=? usize_max)%Z then mret p else if overflow_checks then panic else mret 0%Z.

Definition normalize_shard_count `{Profile} {S E} (count : Z) : M S E Z :=
  next_power_of_two (Z.max count 1).

Definition with_shard_count_and_capacity `{Profile} {S E} (n max : Z) : M S E MemoryEngine :=
  count ← normalize_shard_count n;
  if bool_decide (count = 0%Z)
  then if overflow_checks then panic else mret (mkEngine [] usize_max max 0 0 1)
  else mret (mkEngine (replicate (Z.to_nat count) shard_new) (count - 1) max 0 0 1).

Definition with_shard_count `{Profile} {S E} (n : Z) : M S E MemoryEngine :=
  with_shard_count_and_capacity n usize_max.

(** [threads]: what [available_parallelism] reports, if anything. *)
Definition new `{Profile} {S E} (threads : option Z) : M S E MemoryEngine :=
  with_shard_count (saturating_mul (default 1%Z threads) DEFAULT_SHARD_MULTIPLIER).

(** ** Shared counters and the shard lock *)

(** Run an operation of one shard under its lock. *)
Definition on_shard {A} (i : nat) (m : M ShardInner HkvError A) : EM A := fun e =>
  match shards e !! i with
  | None => (Panic, e)
  | Some s => let '(o, s') := m s in (o, with_shards (<[i := s']> (shards e)) e)
  end.

(** Atomic read-modify-write on [usize]/[u64] wraps. *)
Definition used_add (n : Z) : EM unit :=
  modify (fun e => with_used (wrap64 (used_bytes e + n)) e).
Definition used_sub (n : Z) : EM unit :=
  modify (fun e => with_used (wrap64 (used_bytes e - n)) e).

Definition next_ttl_token : EM Z :=
  t ← gets ttl_token;
  modify (fun e => with_token (wrap64 (ttl_token e + 1)) e);;
  mret t.

(** [now + ttl] on [Instant]. *)
Definition instant_add (now : Instant) (ttl : Duration) : EM Instant :=
  if (now + ttl <? instant_limit)%Z then mret (now + ttl)%Z else panic.

Definition map_get (i : nat) (key : bytes) : EM (option nat) :=
  on_shard i (gets (fun s => s_map s !! key)).

(** [if let Some(size) = inner.remove_idx(idx) { used_bytes.fetch_sub(size) }] *)
Definition reclaim (i idx : nat) : EM unit :=
  r ← on_shard i (remove_idx idx);
  match r with Some size => used_sub size | None => mret tt end.

Definition entry_size (key_len value_len : nat) : Z :=
  wrap64 (Z.of_nat key_len + Z.of_nat value_len).

(** ** Eviction *)

Definition evict_one_from_shard (i : nat) : EM (option Z) := on_shard i pop_lru.

Section profile.
Context `{Profile}.

(** [for offset in 0..n]: [true] when a shard gave up an entry. *)
Fixpoint evict_scan (start : Z) (offset n : nat) : EM bool :=
  match n with
  | O => mret false
  | S n' =>
      i ← usize_add start (Z.of_nat offset);
      mask ← gets shard_mask;
      r ← evict_one_from_shard (Z.to_nat (Z.land i mask));
      match r with
      | Some size => used_sub size;; mret true
      | None => evict_scan start (S offset) n'
      end
  end.

Fixpoint evict_loop (fuel : nat) : EM unit :=
  match fuel with
  | O => diverge
  | S fuel' =>
      used ← gets used_bytes;
      max ← gets max_bytes;
      if (used <=? max)%Z then mret tt
      else
        start ← gets eviction_cursor;
        modify (fun e => with_cursor (wrap64 (eviction_cursor e + 1)) e);;
        n ← gets (fun e => length (shards e));
        evicted ← evict_scan start 0 n;
        if (evicted : bool) then evict_loop fuel' else mret tt
  end.

(** A bound on the entries an engine holds: the slots of its arenas. *)
Definition slots (e : MemoryEngine) : nat := sum_list ((fun s => length (s_nodes s)) <$> shards e).

Definition evict_if_needed : EM unit :=
  max ← gets max_bytes;
  if bool_decide (max = usize_max) then mret tt
  else fuel ← gets slots; evict_loop (S fuel).

End profile.

Section hash.
Context `{Profile} (hash : bytes -> Z).

Definition shard_index (e : MemoryEngine) (key : bytes) : nat :=
  Z.to_nat (Z.land (hash key) (shard_mask e)).

(** ** Writes *)

(** A stale entry under the key is dropped first. *)
Definition drop_stale (now : Instant) (i : nat) (key : bytes) : EM unit :=
  found ← map_get i key;
  match found with
  | Some idx =>
      node ← on_shard i (node_at idx);
      if default false ((fun n => is_expired n now) <$> node) then reclaim i idx else mret tt
  | None => mret tt
  end.

(** Overwrite in place or insert; the answer is what to schedule. *)
Definition store_value (i : nat) (key value : bytes) (new_size : Z) (expires_at : option Instant)
    : EM (option (nat * Instant * Z)) :=
  found ← map_get i key;
  match found with
  | Some idx =>
      token ← next_ttl_token;
      node ← on_shard i (node_at idx);
      match node with
      | Some node =>
          on_shard i (modify_node_at idx (fun n =>
            mkNode (n_key n) value expires_at token new_size (n_prev n) (n_next n)));;
          on_shard i (touch idx);;
          let old_size := n_size node in
          if (old_size <? new_size)%Z then used_add (new_size - old_size)
          else if (new_size <? old_size)%Z then used_sub (old_size - new_size)
          else mret tt
      | None => mret tt
      end;;
      mret ((fun d => (idx, d, token)) <$> expires_at)
  | None =>
      idx ← on_shard i (insert_new key value new_size);
      used_add new_size;;
      match expires_at with
      | Some d =>
          token ← next_ttl_token;
          on_shard i (modify_node_at idx (fun n =>
            mkNode (n_key n) (n_value n) (Some d) token (n_size n) (n_prev n) (n_next n)));;
          mret (Some (idx, d, token))
      | None => mret None
      end
  end.

Definition write_value (now : Instant) (key value : bytes) (ttl : option Duration) : EM unit :=
  i ← gets (fun e => shard_index e key);
  let new_size := entry_size (length key) (length value) in
  expires_at ← match ttl with
               | Some d => t ← instant_add now d; mret (Some t)
               | None => mret None
               end;
  drop_stale now i key;;
  scheduled ← store_value i key value new_size expires_at;
  match scheduled with
  | Some (idx, d, token) => on_shard i (schedule_expiration idx d token)
  | None => mret tt
  end;;
  evict_if_needed.

(** ** The [KVEngine] methods *)

Definition get (now : Instant) (key : bytes) : EM (option bytes) :=
  i ← gets (fun e => shard_index e key);
  found ← map_get i key;
  match found with
  | None => mret None
  | Some idx =>
      node ← on_shard i (node_at idx);
      match node with
      | None => mret None
      | Some n =>
          if is_expired n now then reclaim i idx;; mret None
          else
            node ← on_shard i (node_at idx);
            on_shard i (touch idx);;
            mret (n_value <$> node)
      end
  end.

Definition set (now : Instant) (key value : bytes) : EM unit := write_value now key value None.

Definition set_with_ttl (now : Instant) (key value : bytes) (ttl : Duration) : EM unit :=
  write_value now key value (Some ttl).

Definition delete (now : Instant) (key : bytes) : EM bool :=
  i ← gets (fun e => shard_index e key);
  found ← map_get i key;
  match found with
  | None => mret false
  | Some idx =>
      node ← on_shard i (node_at idx);
      let expired := default false ((fun n => is_expired n now) <$> node) in
      reclaim i idx;;
      mret (negb expired)
  end.

Definition expire (now : Instant) (key : bytes) (ttl : Duration) : EM unit :=
  i ← gets (fun e => shard_index e key);
  found ← map_get i key;
  match found with
  | None => throw NotFound
  | Some idx =>
      node ← on_shard i (node_at idx);
      let expired := default false ((fun n => is_expired n now) <$> node) in
      if expired then reclaim i idx;; throw NotFound
      else
        token ← next_ttl_token;
        expires_at ← instant_add now ttl;
        on_shard i (modify_node_at idx (fun n =>
          mkNode (n_key n) (n_value n) (Some expires_at) token (n_size n) (n_prev n) (n_next n)));;
        on_shard i (schedule_expiration idx expires_at token)
  end.

Definition ttl (now : Instant) (key : bytes) : EM TtlStatus :=
  i ← gets (fun e => shard_index e key);
  found ← map_get i key;
  match found with
  | None => mret Missing
  | Some idx =>
      node ← on_shard i (node_at idx);
      let expired := default false ((fun n => is_expired n now) <$> node) in
      if expired then reclaim i idx;; mret Missing
      else
        node ← on_shard i (node_at idx);
        match node ≫= n_expires_at with
        | None => mret NoExpiry
        | Some deadline =>
            if (deadline <=? now)%Z then reclaim i idx;; mret Missing
            else mret (ExpiresIn (deadline - now))
        end
  end.

End hash.

(** ** The sweeper *)

(** [while let Some(entry) = inner.pop_due_expiration(now) { .. }] on one shard. *)
Fixpoint purge_shard (fuel : nat) (now : Instant) (i : nat) (removed : Z) : EM Z :=
  match fuel with
  | O => diverge
  | S fuel' =>
      due ← on_shard i (pop_due_expiration now);
      match due with
      | None => mret removed
      | Some entry =>
          r ← on_shard i (remove_idx (ee_idx entry));
          match r with
          | Some size => used_sub size;; purge_shard fuel' now i (removed + 1)
          | None => purge_shard fuel' now i removed
          end
      end
  end.

(** Each turn pops a heap entry: the heap's length bounds the turns. *)
Definition heap_len (i : nat) (e : MemoryEngine) : nat :=
  match shards e !! i with Some s => length (s_ttl_heap s) | None => 0 end.

Fixpoint purge_shards (now : Instant) (is_ : list nat) (removed : Z) : EM Z :=
  match is_ with
  | [] => mret removed
  | i :: is' =>
      fuel ← gets (heap_len i);
      removed ← purge_shard (S fuel) now i removed;
      purge_shards now is' removed
  end.

Definition purge_expired (now : Instant) : EM Z :=
  n ← gets (fun e => length (shards e));
  purge_shards now (seq 0 n) 0.

(** The background thread: before each turn it reads the stop flag, and a turn
    sleeps and purges at the clock it then reads. *)
Definition expirer_interval (interval : Duration) : Duration :=
  if bool_decide (interval = 0%Z) then 1000000%Z else interval.

Fixpoint expirer (turns : list (bool * Instant)) : EM unit :=
  match turns with
  | [] => mret tt
  | (stop, now) :: turns' =>
      if (stop : bool) then mret tt else purge_expired now;; expirer turns'
  end.
