(* ===== verification/EngineSpec.v ===== *)
(** * What the engine promises: a sharded LRU cache with deadlines

    The specification of hkv-engine/src/memory.rs: per shard a list of entries,
    least recently used first (LruSpec.v), with the eviction cursor. Its view
    as a finite map from keys to values and deadlines is what clients of the
    [KVEngine] trait see; EngineRefine.v proves that the engine implements it. *)

From S2P Require Import Prelude Errors KVEngine LruSpec Shard Engine.

Record Cache := mkCache {
  c_shards : list lru;
  c_max : Z;
  c_cursor : Z
}.

Definition with_c_shards (ls : list lru) (c : Cache) : Cache := mkCache ls (c_max c) (c_cursor c).

(** Accounted bytes of all shards. *)
Definition total (ls : list lru) : Z := foldr (fun l n => total_size l + n)%Z 0%Z ls.

(** Entries of all shards. *)
Definition entries (ls : list lru) : nat := sum_list (length <$> ls).

(** ** Eviction *)

(** The first shard with an entry, scanning [n] shards from [start + offset]. *)
Fixpoint victim (ls : list lru) (start : Z) (offset n : nat) : option nat :=
  match n with
  | O => None
  | S n' =>
      let i := Z.to_nat ((start + Z.of_nat offset) mod Z.of_nat (length ls)) in
      match ls !! i with
      | Some (_ :: _) => Some i
      | _ => victim ls start (S offset) n'
      end
  end.

(** Drop the least recently used entry of each victim until the bytes fit. *)
Fixpoint evict (fuel : nat) (c : Cache) : Cache :=
  match fuel with
  | O => c
  | S fuel' =>
      if (wrap64 (total (c_shards c)) <=? c_max c)%Z then c
      else
        let cursor := wrap64 (c_cursor c + 1) in
        match victim (c_shards c) (c_cursor c) 0 (length (c_shards c)) with
        | Some i => evict fuel' (mkCache (alter tail i (c_shards c)) (c_max c) cursor)
        | None => mkCache (c_shards c) (c_max c) cursor
        end
  end.

Definition evict_all (c : Cache) : Cache :=
  if bool_decide (c_max c = usize_max) then c else evict (S (entries (c_shards c))) c.

(** ** Operations *)

Section hash.
Context (hash : bytes -> Z).

Definition c_index (c : Cache) (k : bytes) : nat :=
  Z.to_nat (hash k mod Z.of_nat (length (c_shards c))).

Definition c_lookup (c : Cache) (k : bytes) : option Entry :=
  c_shards c !! c_index c k ≫= find_key k.

Definition c_update (k : bytes) (f : lru -> lru) (c : Cache) : Cache :=
  with_c_shards (alter f (c_index c k) (c_shards c)) c.

Definition c_get (now : Instant) (k : bytes) (c : Cache) : option bytes * Cache :=
  match c_lookup c k with
  | None => (None, c)
  | Some e =>
      if e_expired now e then (None, c_update k (drop_key k) c)
      else (Some (e_value e), c_update k (put e) c)
  end.

Definition c_write (k v : bytes) (d : option Instant) (c : Cache) : Cache :=
  evict_all (c_update k (put (mkE k v d)) c).

Definition c_delete (now : Instant) (k : bytes) (c : Cache) : bool * Cache :=
  match c_lookup c k with
  | None => (false, c)
  | Some e => (negb (e_expired now e), c_update k (drop_key k) c)
  end.

Definition c_expire (now : Instant) (k : bytes) (d : Instant) (c : Cache) : result unit HkvError * Cache :=
  match c_lookup c k with
  | None => (Error NotFound, c)
  | Some e =>
      if e_expired now e then (Error NotFound, c_update k (drop_key k) c)
      else (Ok tt, c_update k (set_deadline k (Some d)) c)
  end.

Definition c_ttl (now : Instant) (k : bytes) (c : Cache) : TtlStatus * Cache :=
  match c_lookup c k with
  | None => (Missing, c)
  | Some e =>
      if e_expired now e then (Missing, c_update k (drop_key k) c)
      else (match e_deadline e with None => NoExpiry | Some d => ExpiresIn (d - now) end, c)
  end.

Definition live (now : Instant) (l : lru) : lru := filter (fun e => e_expired now e = false) l.

Definition c_purge (now : Instant) (c : Cache) : Z * Cache :=
  let ls := live now <$> c_shards c in
  (Z.of_nat (entries (c_shards c)) - Z.of_nat (entries ls), with_c_shards ls c)%Z.

End hash.

(** ** Lists of shards *)

Lemma total_insert (ls : list lru) (i : nat) l l' :
  ls !! i = Some l -> total (<[i := l']> ls) = (total ls - total_size l + total_size l')%Z.
Proof.
  revert i. induction ls as [|l0 ls IH]; intros [|i] Hi; simplify_eq/=; [lia|].
  rewrite (IH _ Hi). lia.
Qed.

Lemma entries_insert (ls : list lru) (i : nat) l l' :
  ls !! i = Some l -> (entries (<[i := l']> ls) + length l = entries ls + length l')%nat.
Proof.
  unfold entries. revert i. induction ls as [|l0 ls IH]; intros [|i] Hi; simplify_eq/=; [lia|].
  specialize (IH _ Hi). lia.
Qed.

Lemma alter_lookup_insert (f : lru -> lru) (ls : list lru) (i : nat) l :
  ls !! i = Some l -> alter f i ls = <[i := f l]> ls.
Proof. revert i. induction ls as [|l0 ls IH]; intros [|i] Hi; simplify_eq/=; [done|]. f_equal. auto. Qed.

(** ** Eviction stops, and only drops least recently used entries *)

Lemma victim_Some ls start offset n i :
  victim ls start offset n = Some i -> exists e l, ls !! i = Some (e :: l).
Proof.
  revert offset. induction n as [|n IH]; intros offset; simpl; [done|].
  repeat case_match; intros; simplify_eq; eauto.
Qed.

Lemma victim_entries ls start offset n i :
  victim ls start offset n = Some i -> entries ls = S (entries (alter tail i ls)).
Proof.
  intros (e & l & Hi)%victim_Some. rewrite (alter_lookup_insert _ _ _ _ Hi).
  pose proof (entries_insert _ _ _ l Hi). simpl in *. lia.
Qed.

Lemma evict_fuel f1 f2 c :
  entries (c_shards c) < f1 -> entries (c_shards c) < f2 -> evict f1 c = evict f2 c.
Proof.
  revert f2 c. induction f1 as [|f1 IH]; intros [|f2] c H1 H2; try lia.
  simpl. destruct (_ <=? _)%Z; [done|]. destruct (victim _ _ _ _) as [i|] eqn:Hv; [|done].
  apply victim_entries in Hv. apply IH; simpl; lia.
Qed.

(** Every shard of a nonempty cache is scanned, so a cache with an entry has a
    victim. *)
Lemma victim_scan ls start n offset :
  victim ls start offset n = None ->
  forall o, offset <= o < offset + n ->
    match ls !! Z.to_nat ((start + Z.of_nat o) mod Z.of_nat (length ls)) with
    | Some (_ :: _) => False | _ => True end.
Proof.
  revert offset. induction n as [|n IH]; intros offset; simpl; [lia|].
  intros Hv o Ho. destruct (decide (o = offset)) as [->|].
  - by repeat case_match.
  - apply (IH (S offset)); [by repeat case_match|lia].
Qed.

Lemma victim_None ls start :
  victim ls start 0 (length ls) = None -> forall l, l ∈ ls -> l = [].
Proof.
  intros Hv l [j Hj]%list_elem_of_lookup_1.
  pose proof (lookup_lt_Some _ _ _ Hj) as Hlt.
  set (m := Z.of_nat (length ls)).
  assert (0 < m)%Z as Hm by (unfold m; lia).
  pose proof (Z.mod_pos_bound (Z.of_nat j - start) m Hm) as Hb.
  pose proof (victim_scan _ _ _ _ Hv (Z.to_nat ((Z.of_nat j - start) mod m))) as Hs.
  rewrite Z2Nat.id in Hs by lia. fold m in Hs.
  rewrite Zplus_mod_idemp_r in Hs. replace (start + (Z.of_nat j - start))%Z with (Z.of_nat j) in Hs by lia.
  rewrite (Z.mod_small (Z.of_nat j)), Nat2Z.id, Hj in Hs by (unfold m; lia).
  destruct l; [done|]. exfalso. apply Hs. unfold m in *. lia.
Qed.

Lemma total_empty ls : (forall l, l ∈ ls -> l = []) -> total ls = 0%Z.
Proof.
  induction ls as [|l ls IH]; intros He; simpl; [done|].
  rewrite (He l), IH; [done| |]; set_solver.
Qed.

Lemma evict_fits f c :
  (0 <= c_max c)%Z -> entries (c_shards c) < f ->
  (wrap64 (total (c_shards (evict f c))) <= c_max c)%Z.
Proof.
  intros Hmax. revert c Hmax. induction f as [|f IH]; intros c Hmax Hf; simpl; [lia|].
  destruct (Z.leb_spec (wrap64 (total (c_shards c))) (c_max c)); [done|].
  destruct (victim _ _ _ _) as [i|] eqn:Hv.
  - apply (IH (mkCache _ _ _)); [done|]. apply victim_entries in Hv. simpl. lia.
  - simpl. rewrite total_empty by (by eapply victim_None). done.
Qed.

(** What is left of each shard is its most recently used part. *)
Lemma evict_suffix f c : Forall2 suffix (c_shards (evict f c)) (c_shards c).
Proof.
  revert c. induction f as [|f IH]; intros c; simpl; [reflexivity|].
  destruct (_ <=? _)%Z; [reflexivity|]. destruct (victim _ _ _ _) as [i|] eqn:Hv; [|reflexivity].
  apply victim_Some in Hv as (e & l & Hi).
  etrans; [apply IH|]. simpl. rewrite (alter_lookup_insert _ _ _ _ Hi). simpl.
  rewrite <- (list_insert_id (c_shards c) i (e :: l)) at 2 by done.
  apply Forall2_insert; [reflexivity|]. by exists [e].
Qed.

(** ** Live entries *)

Lemma live_all now l : (forall e, e ∈ l -> e_expired now e = false) -> live now l = l.
Proof.
  unfold live. induction l as [|e l IH]; intros Hl; [done|].
  rewrite filter_cons, decide_True by (apply Hl; set_solver). rewrite IH; [done|set_solver].
Qed.

Lemma live_app now l1 l2 : live now (l1 ++ l2) = live now l1 ++ live now l2.
Proof. apply filter_app. Qed.

Lemma live_drop now k l e :
  NoDup (keys l) -> find_key k l = Some e -> e_expired now e = true ->
  live now (drop_key k l) = live now l /\ length l = S (length (drop_key k l)).
Proof.
  intros Hnd Hf Hx. destruct (find_key_inv _ _ _ Hnd Hf) as (Hk & l1 & l2 & -> & Hni).
  rewrite drop_key_middle, !live_app, !length_app by done. split; [|simpl; lia].
  f_equal. unfold live. rewrite filter_cons, decide_False by (by rewrite Hx). done.
Qed.

Lemma foldl_alter_seq (f : lru -> lru) ls :
  foldl (fun ls i => alter f i ls) ls (seq 0 (length ls)) = f <$> ls.
Proof.
  assert (forall l1 l2, foldl (fun ls i => alter f i ls) (l1 ++ l2) (seq (length l1) (length l2))
    = l1 ++ (f <$> l2)) as H; [|apply (H [])].
  intros l1 l2. revert l1. induction l2 as [|x l2 IH]; intros l1; simpl; [done|].
  rewrite (alter_lookup_insert _ _ _ x) by (by apply list_lookup_middle).
  rewrite insert_app_r_alt, Nat.sub_diag by done. simpl.
  replace (l1 ++ f x :: l2) with ((l1 ++ [f x]) ++ l2) by (by rewrite <- app_assoc).
  replace (S (length l1)) with (length (l1 ++ [f x])) by (rewrite length_app; simpl; lia).
  rewrite IH. by rewrite <- app_assoc.
Qed.
