(* ===== verification/EngineRefine.v ===== *)
(** * The engine implements the sharded LRU cache

    [engine_rep e c]: every shard of [e] represents its list in [c], and the
    counters agree. Each method runs without panicking, answers what the
    specification answers, and keeps the representation. *)

From S2P Require Import Prelude Errors KVEngine LruSpec Shard Dll ShardRefine Engine EngineSpec.

(** ** Representation *)

(** 2^k shards, with [k <= 63] as any arena that fits in memory has. *)
Record engine_rep (e : MemoryEngine) (c : Cache) : Prop := {
  er_shards : Forall2 shard_rep (shards e) (c_shards c);
  er_pow : exists k, (0 <= k < 64)%Z /\ Z.of_nat (length (shards e)) = (2 ^ k)%Z
                     /\ shard_mask e = (2 ^ k - 1)%Z;
  er_max : max_bytes e = c_max c;
  er_used : used_bytes e = wrap64 (total (c_shards c));
  er_cursor : eviction_cursor e = c_cursor c
}.

(** The engine with the shard [i], the byte counter and the token replaced. *)
Definition at_ (e : MemoryEngine) (i : nat) (sh : ShardInner) (u t : Z) : MemoryEngine :=
  mkEngine (<[i := sh]> (shards e)) (shard_mask e) (max_bytes e) u (eviction_cursor e) t.

Lemma at_id e i sh : shards e !! i = Some sh -> e = at_ e i sh (used_bytes e) (ttl_token e).
Proof. intros Hi. destruct e; unfold at_; simpl in *. by rewrite list_insert_id. Qed.

Lemma on_shard_at {A} e i sh u t (m : M ShardInner HkvError A) o sh' :
  i < length (shards e) -> m sh = (o, sh') ->
  on_shard i m (at_ e i sh u t) = (o, at_ e i sh' u t).
Proof.
  intros Hi Hm. unfold on_shard, at_. simpl.
  rewrite list_lookup_insert_eq, Hm by done. unfold with_shards. simpl.
  by rewrite list_insert_insert_eq.
Qed.

Lemma map_get_at e i sh u t k :
  i < length (shards e) -> map_get i k (at_ e i sh u t) = (Val (s_map sh !! k), at_ e i sh u t).
Proof. intros Hi. by apply on_shard_at. Qed.

Lemma node_at_at e i sh u t idx o :
  i < length (shards e) -> s_nodes sh !! idx = Some o ->
  on_shard i (node_at idx) (at_ e i sh u t) = (Val o, at_ e i sh u t).
Proof. intros Hi Hn. apply on_shard_at; [done|]. by apply node_at_run. Qed.

(** Putting the focused shard back. *)
Lemma rep_at e c i l f sh u t :
  engine_rep e c -> c_shards c !! i = Some l -> shard_rep sh (f l) ->
  u = wrap64 (total (c_shards c) - total_size l + total_size (f l)) ->
  engine_rep (at_ e i sh u t) (with_c_shards (alter f i (c_shards c)) c).
Proof.
  intros [Hs (k & Hk & Hlen & Hm) Hmax Hu Hc] Hl Hsh ->.
  rewrite (alter_lookup_insert _ _ _ _ Hl). split; simpl; try done.
  - by apply Forall2_insert.
  - exists k. by rewrite length_insert.
  - by rewrite (total_insert _ _ _ _ Hl).
Qed.

Lemma rep_shard e c i sh :
  engine_rep e c -> shards e !! i = Some sh -> exists l, c_shards c !! i = Some l /\ shard_rep sh l.
Proof. intros Hr Hi. by apply (Forall2_lookup_l _ _ _ _ _ (er_shards _ _ Hr) Hi). Qed.

(** ** Single-shard phases *)

Section focus.
Context (e : MemoryEngine) (i : nat) (Hi : i < length (shards e)).

Lemma reclaim_at sh u t l idx n U :
  shard_rep_ex (Some idx) sh l -> s_nodes sh !! idx = Some (Some n) ->
  u = wrap64 (U + total_size l) ->
  exists sh', reclaim i idx (at_ e i sh u t)
      = (Val tt, at_ e i sh' (wrap64 (U + total_size (drop_key (n_key n) l))) t)
    /\ shard_rep sh' (drop_key (n_key n) l).
Proof.
  intros Hr Hn ->. destruct (remove_idx_rep (E:=HkvError) sh l idx n Hr Hn) as (sh' & E1 & Hr').
  exists sh'. split; [|done]. unfold reclaim.
  rewrite (bind_val _ _ _ _ _ (on_shard_at _ _ _ _ _ _ _ _ Hi E1)).
  destruct (rep_live _ _ _ _ _ Hr Hn) as [Hf Hz].
  rewrite (total_size_drop _ _ _ (rep_NoDup _ _ _ Hr) Hf), Hz.
  unfold used_sub, modify, at_, with_used. simpl. rewrite wrap64_sub_l. do 3 f_equal. lia.
Qed.

(** The first two steps of every method: look the key up, read its node. *)
Lemma lookup_at sh u t l k :
  shard_rep sh l ->
  match s_map sh !! k with
  | None => find_key k l = None
  | Some idx => exists n, s_nodes sh !! idx = Some (Some n) /\ n_key n = k
      /\ on_shard i (node_at idx) (at_ e i sh u t) = (Val (Some n), at_ e i sh u t)
      /\ find_key k l = Some (entry_of (payload n))
      /\ is_expired n = fun now => e_expired now (entry_of (payload n))
  end.
Proof.
  intros Hr. destruct (s_map sh !! k) as [idx|] eqn:Hk.
  - destruct (rep_lookup_Some _ _ _ _ _ Hr Hk) as (n & Hn & Hkey & Hf & _).
    exists n. split_and!; try done. by apply node_at_at.
  - by apply (rep_lookup_None None sh).
Qed.

End focus.

(** ** The methods *)

Section methods.
Context `{Profile} (hash : bytes -> Z).

Lemma focus_key e c k :
  engine_rep e c ->
  exists sh l, let i := shard_index hash e k in
    shards e !! i = Some sh /\ i < length (shards e) /\ shard_rep sh l
    /\ c_index hash c k = i /\ c_shards c !! i = Some l
    /\ used_bytes e = wrap64 (total (c_shards c) - total_size l + total_size l)
    /\ e = at_ e i sh (used_bytes e) (ttl_token e)
    /\ map_get i k e = (Val (s_map sh !! k), at_ e i sh (used_bytes e) (ttl_token e)).
Proof.
  intros Hr. pose proof Hr as [Hs (j & Hj & Hlen & Hm) _ Hu _].
  assert (c_index hash c k = shard_index hash e k) as Hidx.
  { unfold c_index, shard_index. rewrite <- (Forall2_length _ _ _ Hs), Hlen, Hm.
    replace (2 ^ j - 1)%Z with (Z.ones j) by (rewrite Z.ones_equiv; lia).
    by rewrite Z.land_ones by lia. }
  assert (shard_index hash e k < length (shards e)) as Hi.
  { rewrite <- Hidx. unfold c_index. rewrite <- (Forall2_length _ _ _ Hs), Hlen.
    pose proof (Z.mod_pos_bound (hash k) (2 ^ j) ltac:(lia)). lia. }
  destruct (lookup_lt_is_Some_2 _ _ Hi) as [sh Hsh].
  destruct (rep_shard _ _ _ _ Hr Hsh) as (l & Hl & Hrep).
  pose proof (at_id _ _ _ Hsh) as He.
  exists sh, l. split_and!; try done; [rewrite Hu; f_equal; lia|].
  etrans; [exact (f_equal (map_get _ k) He)|]. by apply map_get_at.
Qed.

Lemma lookup_focus c k l : c_shards c !! c_index hash c k = Some l -> c_lookup hash c k = find_key k l.
Proof. intros Hl. unfold c_lookup. by rewrite Hl. Qed.

(** Start a method: focus on the key's shard and look the key up. *)
Ltac focus k i sh l :=
  match goal with Hr : engine_rep ?e ?c |- _ =>
    let Hsh := fresh "Hsh" in let Hi := fresh "Hi" in let Hrep := fresh "Hrep" in
    let Hidx := fresh "Hidx" in let Hl := fresh "Hl" in let Hu := fresh "Hu" in
    let He := fresh "He" in let Hget := fresh "Hget" in
    destruct (focus_key e c k Hr) as (sh & l & Hsh & Hi & Hrep & Hidx & Hl & Hu & He & Hget);
    set (i := shard_index hash e k) in *
  end.

(** Run the next action by an equation in the context. *)
Ltac run :=
  repeat first
    [ progress autorewrite with mrun
    | rewrite bind_bind
    | match goal with
      | E : ?m ?s = (Val ?a, ?s') |- context [(?m ≫= _) ?s] => rewrite (bind_val m _ s a s' E)
      | Hi : ?i < length (shards ?e) |- context [(map_get ?i ?k ≫= _) (at_ ?e ?i ?sh ?u ?t)] =>
          rewrite (bind_val _ _ _ _ _ (map_get_at e i sh u t k Hi))
      end ]; cbn beta iota.

Lemma get_rep e c now k :
  engine_rep e c ->
  exists e', get hash now k e = (Val (fst (c_get hash now k c)), e')
    /\ engine_rep e' (snd (c_get hash now k c)).
Proof.
  intros Hr. focus k i sh l.
  unfold get, c_get, c_update. rewrite (lookup_focus c k l) by (by rewrite Hidx). rewrite Hidx.
  run. fold i. run.
  pose proof (lookup_at e i Hi sh (used_bytes e) (ttl_token e) l k Hrep) as Hlk.
  destruct (s_map sh !! k) as [idx|] eqn:Hk; [|rewrite Hlk; simpl; rewrite <- He; eauto].
  destruct Hlk as (n & Hn & <- & Hnode & Hf & Hexp). rewrite Hf. run.
  rewrite Hexp. destruct (e_expired now (entry_of (payload n))) eqn:Hx.
  - destruct (reclaim_at e i Hi sh _ (ttl_token e) l idx n _ (rep_weaken _ _ _ Hrep) Hn Hu)
      as (sh' & E1 & Hrep').
    run. eexists. split; [done|]. by apply (rep_at e c i l (drop_key (n_key n))).
  - run. destruct (touch_rep (E:=HkvError) None sh l idx n Hrep Hn) as (sh' & n' & E1 & Hrep' & _).
    pose proof (on_shard_at e i sh (used_bytes e) (ttl_token e) _ _ _ Hi E1) as E1'.
    run. eexists. split; [done|].
    apply (rep_at e c i l (put (entry_of (payload n)))); try done.
    rewrite Hu, (total_size_put_old (entry_of (payload n)) _ l (rep_NoDup _ _ _ Hrep) Hf). f_equal. lia.
Qed.

Lemma delete_rep e c now k :
  engine_rep e c ->
  exists e', delete hash now k e = (Val (fst (c_delete hash now k c)), e')
    /\ engine_rep e' (snd (c_delete hash now k c)).
Proof.
  intros Hr. focus k i sh l.
  unfold delete, c_delete, c_update. rewrite (lookup_focus c k l) by (by rewrite Hidx). rewrite Hidx.
  run. fold i. run.
  pose proof (lookup_at e i Hi sh (used_bytes e) (ttl_token e) l k Hrep) as Hlk.
  destruct (s_map sh !! k) as [idx|] eqn:Hk; [|rewrite Hlk; simpl; rewrite <- He; eauto].
  destruct Hlk as (n & Hn & <- & Hnode & Hf & Hexp). rewrite Hf. run.
  destruct (reclaim_at e i Hi sh _ (ttl_token e) l idx n _ (rep_weaken _ _ _ Hrep) Hn Hu)
    as (sh' & E1 & Hrep').
  run. simpl. rewrite Hexp. eexists. split; [done|]. by apply (rep_at e c i l (drop_key (n_key n))).
Qed.

Lemma ttl_rep e c now k :
  engine_rep e c ->
  exists e', ttl hash now k e = (Val (fst (c_ttl hash now k c)), e')
    /\ engine_rep e' (snd (c_ttl hash now k c)).
Proof.
  intros Hr. focus k i sh l.
  unfold ttl, c_ttl, c_update. rewrite (lookup_focus c k l) by (by rewrite Hidx). rewrite Hidx.
  run. fold i. run.
  pose proof (lookup_at e i Hi sh (used_bytes e) (ttl_token e) l k Hrep) as Hlk.
  destruct (s_map sh !! k) as [idx|] eqn:Hk; [|rewrite Hlk; simpl; rewrite <- He; eauto].
  destruct Hlk as (n & Hn & <- & Hnode & Hf & Hexp). rewrite Hf. run. simpl.
  rewrite Hexp. destruct (e_expired now (entry_of (payload n))) eqn:Hx.
  - destruct (reclaim_at e i Hi sh _ (ttl_token e) l idx n _ (rep_weaken _ _ _ Hrep) Hn Hu)
      as (sh' & E1 & Hrep').
    run. eexists. split; [done|]. by apply (rep_at e c i l (drop_key (n_key n))).
  - run. simpl. unfold e_expired in Hx. simpl in Hx.
    exists e. destruct (n_expires_at n) as [d|]; [rewrite Hx|]; by rewrite <- He.
Qed.

Lemma next_token_at e i sh u t :
  next_ttl_token (at_ e i sh u t) = (Val t, at_ e i sh u (wrap64 (t + 1))).
Proof. done. Qed.

Lemma instant_add_ok now d s :
  (now + d < instant_limit)%Z -> instant_add now d s = (Val (now + d)%Z, s).
Proof. intros Hlt. unfold instant_add. by rewrite (proj2 (Z.ltb_lt _ _) Hlt). Qed.

Lemma instant_add_panic now d s :
  (instant_limit <= now + d)%Z -> instant_add now d s = (Panic, s).
Proof. intros Hle. unfold instant_add. by rewrite (proj2 (Z.ltb_ge _ _) Hle). Qed.

(** [expire]: the answer, when the deadline does not overflow the clock. *)
Lemma expire_rep e c now k d :
  engine_rep e c -> (now + d < instant_limit)%Z ->
  exists e' o, expire hash now k d e = (o, e')
    /\ engine_rep e' (snd (c_expire hash now k (now + d) c))
    /\ o = match fst (c_expire hash now k (now + d) c) with Ok u => Val u | Error x => Err x end.
Proof.
  intros Hr Hd. focus k i sh l.
  unfold expire, c_expire, c_update. rewrite (lookup_focus c k l) by (by rewrite Hidx). rewrite Hidx.
  run. fold i. run.
  pose proof (lookup_at e i Hi sh (used_bytes e) (ttl_token e) l k Hrep) as Hlk.
  destruct (s_map sh !! k) as [idx|] eqn:Hk; [|rewrite Hlk; simpl; rewrite <- He; eauto].
  destruct Hlk as (n & Hn & <- & Hnode & Hf & Hexp). rewrite Hf. run. simpl.
  rewrite Hexp. destruct (e_expired now (entry_of (payload n))) eqn:Hx.
  - destruct (reclaim_at e i Hi sh _ (ttl_token e) l idx n _ (rep_weaken _ _ _ Hrep) Hn Hu)
      as (sh' & E1 & Hrep').
    run. do 2 eexists. split; [done|]. split; [|done].
    by apply (rep_at e c i l (drop_key (n_key n))).
  - rewrite (bind_val _ _ _ _ _ (next_token_at _ _ _ _ _)).
    rewrite (bind_val _ _ _ _ _ (instant_add_ok _ _ _ Hd)).
    set (f := fun n0 => mkNode (n_key n0) (n_value n0) (Some (now + d)%Z) (ttl_token e)
                          (n_size n0) (n_prev n0) (n_next n0)).
    destruct (update_rep (E:=HkvError) sh l idx n f) as (l1 & l2 & E1 & Hsplit & Hni & Hr1 & Hn1);
      [done..|by destruct (rep_live _ _ _ _ _ Hrep Hn)|].
    destruct (schedule_rep (E:=HkvError) _ _ _ _ (now + d) Hr1 Hn1) as (sh2 & E2 & Hr2); [done|].
    pose proof (on_shard_at e i sh (used_bytes e) (wrap64 (ttl_token e + 1)) _ _ _ Hi E1) as E1'.
    pose proof (on_shard_at e i _ (used_bytes e) (wrap64 (ttl_token e + 1)) _ _ _ Hi E2) as E2'.
    rewrite (bind_val (A:=unit) _ _ _ _ _ E1').
    do 2 eexists. split; [exact E2'|]. split; [|done]. simpl.
    assert (set_deadline (n_key n) (Some (now + d)%Z) l = l1 ++ entry_of (payload (f n)) :: l2) as Hset.
    { rewrite Hsplit. by rewrite set_deadline_middle. }
    apply (rep_at e c i l (set_deadline (n_key n) (Some (now + d)%Z))); [done..|by rewrite Hset|].
    rewrite Hu, Hset. f_equal. rewrite Hsplit, !total_size_app. simpl. unfold e_size. simpl. lia.
Qed.

(** ** Writes, phase by phase *)

Section write.
Context (e : MemoryEngine) (i : nat) (Hi : i < length (shards e)) (U : Z).

Lemma drop_stale_at now k sh u t l :
  shard_rep sh l -> u = wrap64 (U + total_size l) ->
  exists sh' l', drop_stale now i k (at_ e i sh u t)
      = (Val tt, at_ e i sh' (wrap64 (U + total_size l')) t)
    /\ shard_rep sh' l' /\ (l' = l \/ l' = drop_key k l).
Proof.
  intros Hrep Hu. unfold drop_stale. run.
  pose proof (lookup_at e i Hi sh u t l k Hrep) as Hlk.
  destruct (s_map sh !! k) as [idx|]; [|exists sh, l; rewrite <- Hu; auto].
  destruct Hlk as (n & Hn & <- & Hnode & Hf & Hexp). run. simpl. destruct (is_expired n now).
  - destruct (reclaim_at e i Hi sh _ t l idx n _ (rep_weaken _ _ _ Hrep) Hn Hu) as (sh' & E1 & Hrep').
    eauto 10.
  - exists sh, l. rewrite <- Hu. auto.
Qed.

Definition schedule (o : option (nat * Instant * Z)) : EM unit :=
  match o with Some (idx, d, token) => on_shard i (schedule_expiration idx d token) | None => mret tt end.

(** The accounting of an overwrite. *)
Lemma adjust_at sh u t old new V :
  u = wrap64 (V + old) ->
  (if (old <? new)%Z then used_add (new - old)
   else if (new <? old)%Z then used_sub (old - new) else mret tt) (at_ e i sh u t)
  = (Val tt, at_ e i sh (wrap64 (V + new)) t).
Proof.
  intros ->. unfold used_add, used_sub, modify, with_used, at_. simpl.
  destruct (Z.ltb_spec old new); [|destruct (Z.ltb_spec new old)];
    simpl; rewrite ?wrap64_add_l, ?wrap64_sub_l.
  - by replace (V + old + (new - old))%Z with (V + new)%Z by lia.
  - by replace (V + old - (old - new))%Z with (V + new)%Z by lia.
  - by replace old with new by lia.
Qed.

Lemma overwrite_at k v d sh u t l idx n :
  let ent := mkE k v d in
  shard_rep sh l -> u = wrap64 (U + total_size l) ->
  s_nodes sh !! idx = Some (Some n) -> n_key n = k -> s_map sh !! k = Some idx ->
  exists sh' t', (store_value i k v (e_size ent) d ≫= schedule) (at_ e i sh u t)
      = (Val tt, at_ e i sh' (wrap64 (U + total_size (put ent l))) t')
    /\ shard_rep sh' (put ent l).
Proof.
  intros ent Hrep Hu Hn <- Hk.
  set (f := fun n0 => mkNode (n_key n0) v d t (e_size ent) (n_prev n0) (n_next n0)).
  destruct (update_rep (E:=HkvError) sh l idx n f) as (l1 & l2 & E1 & Hsplit & Hni & Hr1 & Hn1);
    [done..|].
  destruct (touch_rep (E:=HkvError) _ _ _ _ _ Hr1 Hn1) as (sh2 & n2 & E2 & Hr2 & Hn2 & Hp2).
  assert (put (entry_of (payload (f n))) (l1 ++ entry_of (payload (f n)) :: l2) = put ent l) as Hput.
  { rewrite Hsplit. by apply put_middle_put. }
  rewrite Hput in Hr2.
  assert (exists sh', schedule ((fun d0 => (idx, d0, t)) <$> d)
      (at_ e i sh2 (wrap64 (U + total_size (put ent l))) (wrap64 (t + 1)))
      = (Val tt, at_ e i sh' (wrap64 (U + total_size (put ent l))) (wrap64 (t + 1)))
    /\ shard_rep sh' (put ent l)) as (sh' & E3 & Hr3).
  { pose proof (f_equal p_expires_at Hp2) as Hd2. pose proof (f_equal p_token Hp2) as Ht2.
    simpl in Hd2, Ht2. destruct d as [d|]; simpl.
    - destruct (schedule_rep (E:=HkvError) _ _ _ _ d Hr2 Hn2 Hd2) as (sh3 & E3 & Hr3).
      rewrite Ht2 in E3. exists sh3. split; [|done]. by apply on_shard_at.
    - exists sh2. split; [done|]. by apply (no_deadline_rep _ _ _ _ Hr2 Hn2). }
  exists sh', (wrap64 (t + 1)). split; [|done].
  unfold store_value. run. rewrite Hk.
  pose proof (next_token_at e i sh u t) as E0.
  pose proof (node_at_at e i sh u (wrap64 (t + 1)) idx _ Hi Hn) as En.
  pose proof (on_shard_at e i sh u (wrap64 (t + 1)) _ _ _ Hi E1) as E1'.
  pose proof (on_shard_at e i _ u (wrap64 (t + 1)) _ _ _ Hi E2) as E2'.
  pose proof (adjust_at sh2 u (wrap64 (t + 1)) (n_size n) (e_size ent) (U + total_size l - n_size n)) as E4.
  run.
  rewrite (bind_val (A:=unit) _ _ _ _ _ (E4 ltac:(rewrite Hu; f_equal; lia))). run.
  destruct (rep_live _ _ _ _ _ Hrep Hn) as [Hf Hz].
  rewrite <- E3. do 2 f_equal. f_equal.
  rewrite (total_size_put_old ent _ l (rep_NoDup _ _ _ Hrep) Hf), Hz. lia.
Qed.

Lemma insert_at k v d sh u t l :
  let ent := mkE k v d in
  shard_rep sh l -> u = wrap64 (U + total_size l) -> s_map sh !! k = None ->
  exists sh' t', (store_value i k v (e_size ent) d ≫= schedule) (at_ e i sh u t)
      = (Val tt, at_ e i sh' (wrap64 (U + total_size (put ent l))) t')
    /\ shard_rep sh' (put ent l).
Proof.
  intros ent Hrep Hu Hk.
  assert (find_key k l = None) as Hf by by apply (rep_lookup_None None sh).
  rewrite (total_size_put_new ent l Hf), (put_new ent l Hf).
  destruct (insert_new_rep (E:=HkvError) sh l k v (e_size ent) Hrep Hk) as (sh1 & idx & n & E1 & Hr1 & Hn1 & Hp1);
    [done|].
  pose proof (on_shard_at e i sh u t _ _ _ Hi E1) as E1'.
  assert (used_add (e_size ent) (at_ e i sh1 u t)
    = (Val tt, at_ e i sh1 (wrap64 (U + (total_size l + e_size ent))) t)) as E2.
  { unfold used_add, modify, with_used, at_. simpl. rewrite Hu, wrap64_add_l.
    by rewrite Z.add_assoc. }
  unfold store_value. destruct d as [d|].
  - set (f := fun n0 => mkNode (n_key n0) (n_value n0) (Some d) t (n_size n0) (n_prev n0) (n_next n0)).
    injection Hp1 as Hkn Hvn Hdn Htn Hzn.
    destruct (update_rep (E:=HkvError) sh1 _ idx n f Hr1 Hn1) as (l1 & l2 & E3 & Hsplit & Hni & Hr2 & Hn2);
      [done..|simpl; rewrite Hzn; unfold e_size; simpl; by rewrite Hkn, Hvn|].
    destruct (schedule_rep (E:=HkvError) _ _ _ _ d Hr2 Hn2) as (sh3 & E4 & Hr3); [done|].
    pose proof (on_shard_at e i _ (wrap64 (U + (total_size l + e_size ent))) (wrap64 (t + 1)) _ _ _ Hi E3) as E3'.
    pose proof (on_shard_at e i _ (wrap64 (U + (total_size l + e_size ent))) (wrap64 (t + 1)) _ _ _ Hi E4) as E4'.
    pose proof (next_token_at e i sh1 (wrap64 (U + (total_size l + e_size ent))) t) as E5.
    exists sh3, (wrap64 (t + 1)). split.
    + run. rewrite Hk. run. exact E4'.
    + replace (l ++ [ent]) with (l1 ++ entry_of (payload (f n)) :: l2); [done|].
      apply (f_equal (set_deadline k (Some d))) in Hsplit.
      rewrite set_deadline_middle in Hsplit; [|rewrite app_nil_r; by apply find_key_None|done].
      rewrite set_deadline_middle in Hsplit; [|by rewrite <- Hkn|done]. done.
  - exists sh1, t. split; [|done]. run. rewrite Hk. run. done.
Qed.

Lemma store_at k v d sh u t l :
  let ent := mkE k v d in
  shard_rep sh l -> u = wrap64 (U + total_size l) ->
  exists sh' t', (store_value i k v (e_size ent) d ≫= schedule) (at_ e i sh u t)
      = (Val tt, at_ e i sh' (wrap64 (U + total_size (put ent l))) t')
    /\ shard_rep sh' (put ent l).
Proof.
  intros ent Hrep Hu. destruct (s_map sh !! k) as [idx|] eqn:Hk.
  - destruct (rep_lookup_Some _ _ _ _ _ Hrep Hk) as (n & Hn & Hkey & _).
    by apply (overwrite_at k v d sh u t l idx n).
  - by apply insert_at.
Qed.

End write.

(** What a write does before evicting. *)
Definition write_shard (now : Instant) (i : nat) (k v : bytes) (d : option Instant) : EM unit :=
  drop_stale now i k;; store_value i k v (entry_size (length k) (length v)) d ≫= schedule i.

Lemma write_shard_rep e c now k v d :
  engine_rep e c ->
  exists e', write_shard now (shard_index hash e k) k v d e = (Val tt, e')
    /\ engine_rep e' (c_update hash k (put (mkE k v d)) c).
Proof.
  intros Hr. focus k i sh l. unfold write_shard, c_update. rewrite Hidx.
  destruct (drop_stale_at e i Hi _ now k sh _ (ttl_token e) l Hrep Hu) as (sh1 & l1 & E1 & Hr1 & Hl1).
  destruct (store_at e i Hi (total (c_shards c) - total_size l) k v d sh1
    (wrap64 (total (c_shards c) - total_size l + total_size l1)) (ttl_token e) l1 Hr1 eq_refl) as (sh2 & t2 & E2 & Hr2).
  assert (put (mkE k v d) l1 = put (mkE k v d) l) as Hput.
  { destruct Hl1 as [->| ->]; [done|]. apply (put_drop (mkE k v d)). }
  rewrite Hput in E2, Hr2.
  assert (drop_stale now i k e = drop_stale now i k (at_ e i sh (used_bytes e) (ttl_token e))) as E0
    by exact (f_equal (drop_stale now i k) He).
  eexists. split.
  - etrans; [eapply bind_val; etrans; [exact E0|exact E1]|]. exact E2.
  - by apply (rep_at e c i l (put (mkE k v d))).
Qed.

End methods.

(** ** Eviction

    [start + offset] is a checked addition: it panics in the [dev] profile when
    the cursor is within the shard count of [usize::MAX], after some 2^64
    evictions. The profile that wraps is the one of released binaries. *)

Section evict.
Context `{Profile} (Hwrap : overflow_checks = false).

Lemma usize_add_wraps {S E} a b (s : S) :
  exists x, usize_add (E:=E) a b s = (Val x, s) /\ wrap64 x = wrap64 (a + b).
Proof.
  unfold usize_add. rewrite Hwrap. case_match; eexists; (split; [done|]); [done|].
  unfold wrap64. by rewrite Zmod_mod.
Qed.

Lemma wrap64_mod_pow x y k : (0 <= k < 64)%Z -> wrap64 x = wrap64 y -> (x mod 2 ^ k = y mod 2 ^ k)%Z.
Proof.
  intros Hk Heq. assert (u64_modulus = 2 ^ k * 2 ^ (64 - k))%Z as Hu.
  { rewrite <- Z.pow_add_r by lia. by replace (k + (64 - k))%Z with 64%Z by lia. }
  assert (forall z, (wrap64 z) mod 2 ^ k = z mod 2 ^ k)%Z as Hm.
  { intros z. unfold wrap64. rewrite Hu, Z.rem_mul_r by lia.
    rewrite Z.mul_comm, Z_mod_plus_full, Zmod_mod. done. }
  by rewrite <- (Hm x), <- (Hm y), Heq.
Qed.

Lemma rep_pop e c i :
  engine_rep e c -> i < length (shards e) ->
  exists l e', c_shards c !! i = Some l
    /\ evict_one_from_shard i e = (Val (e_size <$> head l), e')
    /\ (forall r, r = default 0%Z (e_size <$> head l) ->
         engine_rep (with_used (wrap64 (used_bytes e' - r)) e') (with_c_shards (alter tail i (c_shards c)) c))
    /\ used_bytes e' = used_bytes e.
Proof.
  intros Hr Hi. destruct (lookup_lt_is_Some_2 _ _ Hi) as [sh Hsh].
  destruct (rep_shard _ _ _ _ Hr Hsh) as (l & Hl & Hrep). exists l.
  destruct (pop_lru_rep (E:=HkvError) _ _ Hrep) as (sh' & E1 & Hrep').
  pose proof (at_id _ _ _ Hsh) as He.
  eexists. split; [done|]. split.
  { etrans; [exact (f_equal (evict_one_from_shard i) He)|]. by apply (on_shard_at _ _ _ _ _ _ _ sh'). }
  split; [|done]. intros r ->.
  apply (rep_at e c i l tail sh' (wrap64 (used_bytes e - default 0%Z (e_size <$> head l)))
           (ttl_token e)); [done..|].
  rewrite (er_used _ _ Hr), wrap64_sub_l. f_equal. destruct l; simpl; lia.
Qed.

Lemma rep_index e c z :
  engine_rep e c ->
  Z.to_nat (Z.land z (shard_mask e)) = Z.to_nat (z mod Z.of_nat (length (c_shards c)))
  /\ Z.to_nat (Z.land z (shard_mask e)) < length (shards e).
Proof.
  intros [Hs (k & Hk & Hlen & ->) _ _ _]. rewrite <- (Forall2_length _ _ _ Hs), Hlen.
  replace (2 ^ k - 1)%Z with (Z.ones k) by (rewrite Z.ones_equiv; lia).
  rewrite Z.land_ones by lia. split; [done|].
  pose proof (Z.mod_pos_bound z (2 ^ k) ltac:(lia)). lia.
Qed.

Lemma evict_scan_rep c start n : forall e offset,
  engine_rep e c ->
  exists e', evict_scan start offset n e
      = (Val (bool_decide (is_Some (victim (c_shards c) start offset n))), e')
    /\ match victim (c_shards c) start offset n with
       | Some i => engine_rep e' (with_c_shards (alter tail i (c_shards c)) c)
       | None => engine_rep e' c
       end.
Proof.
  induction n as [|n IH]; intros e offset Hr.
  { by exists e. }
  cbn [evict_scan victim].
  destruct (usize_add_wraps (E:=HkvError) start (Z.of_nat offset) e) as (x & E0 & Hx).
  rewrite (bind_val _ _ _ _ _ E0), bind_gets.
  destruct (rep_index e c x Hr) as [Hidx Hi].
  destruct (rep_pop e c _ Hr Hi) as (l & e1 & Hl & E1 & Hpop & Hu).
  rewrite (bind_val _ _ _ _ _ E1).
  assert (Z.to_nat (x mod Z.of_nat (length (c_shards c)))
    = Z.to_nat ((start + Z.of_nat offset) mod Z.of_nat (length (c_shards c)))) as Hmod.
  { destruct Hr as [Hs (k & Hk & Hlen & _) _ _ _]. rewrite <- (Forall2_length _ _ _ Hs), Hlen.
    by rewrite (wrap64_mod_pow _ _ _ Hk Hx). }
  rewrite <- Hmod, <- Hidx, Hl. destruct l as [|ent l]; simpl.
  - apply IH. specialize (Hpop 0%Z eq_refl).
    rewrite Z.sub_0_r, Hu, (er_used _ _ Hr) in Hpop.
    rewrite (alter_lookup_insert _ _ _ _ Hl), list_insert_id in Hpop by done.
    replace e1 with (with_used (wrap64 (wrap64 (total (c_shards c)))) e1); [by destruct c|].
    destruct e1; unfold with_used; simpl in *. f_equal. rewrite Hu, (er_used _ _ Hr).
    apply wrap64_small, wrap64_range.
  - eexists. split; [done|]. by apply Hpop.
Qed.

Lemma evict_loop_rep fuel : forall e c,
  engine_rep e c -> entries (c_shards c) < fuel ->
  exists e', evict_loop fuel e = (Val tt, e') /\ engine_rep e' (evict fuel c).
Proof.
  induction fuel as [|fuel IH]; intros e c Hr Hf; [lia|]. cbn [evict_loop evict].
  rewrite !bind_gets, (er_used _ _ Hr), (er_max _ _ Hr).
  destruct (_ <=? _)%Z; [by eauto|]. rewrite bind_gets, bind_modify, bind_gets.
  set (e1 := with_cursor (wrap64 (eviction_cursor e + 1)) e).
  assert (engine_rep e1 (mkCache (c_shards c) (c_max c) (wrap64 (c_cursor c + 1)))) as Hr1.
  { destruct Hr as [? ? ? ? Hc]. unfold e1, with_cursor. rewrite Hc. by split. }
  destruct (evict_scan_rep _ (c_cursor c) (length (c_shards c)) e1 0 Hr1) as (e2 & E2 & Hr2).
  rewrite (Forall2_length _ _ _ (er_shards _ _ Hr1)), (er_cursor _ _ Hr).
  rewrite (bind_val _ _ _ _ _ E2). simpl in Hr2 |- *.
  destruct (victim _ _ _ _) as [i|] eqn:Hv.
  - apply (IH e2 _ Hr2).
    apply victim_entries in Hv. unfold with_c_shards. cbn [c_shards] in *. lia.
  - by eauto.
Qed.

Lemma entries_slots e c : engine_rep e c -> entries (c_shards c) <= slots e.
Proof.
  intros [Hs _ _ _ _]. unfold entries, slots.
  induction Hs as [|sh l ss ls Hsh Hs IH]; simpl; [lia|].
  pose proof (rep_length _ _ _ Hsh). by apply Nat.add_le_mono.
Qed.

Lemma evict_if_needed_rep e c :
  engine_rep e c -> exists e', evict_if_needed e = (Val tt, e') /\ engine_rep e' (evict_all c).
Proof.
  intros Hr. unfold evict_if_needed, evict_all. rewrite bind_gets, (er_max _ _ Hr).
  case_bool_decide; [by eauto|]. rewrite bind_gets.
  pose proof (entries_slots _ _ Hr).
  rewrite (evict_fuel _ (S (slots e)) c) by lia. apply evict_loop_rep; [done|lia].
Qed.

End evict.

(** Without a capacity there is nothing to evict, in any profile. *)
Lemma evict_unbounded_rep `{Profile} e c :
  engine_rep e c -> c_max c = usize_max -> evict_if_needed e = (Val tt, e) /\ evict_all c = c.
Proof.
  intros Hr Hmax. unfold evict_if_needed, evict_all. rewrite bind_gets, (er_max _ _ Hr), Hmax.
  by rewrite !bool_decide_true by done.
Qed.

(** ** The sweeper *)

Lemma purge_shard_at e i now (Hi : i < length (shards e)) t U fuel : forall sh l removed,
  shard_rep sh l -> length (s_ttl_heap sh) < fuel ->
  exists sh', purge_shard fuel now i removed (at_ e i sh (wrap64 (U + total_size l)) t)
      = (Val (removed + Z.of_nat (length l) - Z.of_nat (length (live now l)))%Z,
         at_ e i sh' (wrap64 (U + total_size (live now l))) t)
    /\ shard_rep sh' (live now l).
Proof.
  induction fuel as [|fuel IH]; intros sh l removed Hrep Hf; [lia|].
  destruct (pop_due_rep (E:=HkvError) sh l now Hrep) as (r & sh1 & E1 & Hns & Hr).
  pose proof (on_shard_at e i sh (wrap64 (U + total_size l)) t _ _ _ Hi E1) as E1'.
  cbn [purge_shard]. rewrite (bind_val _ _ _ _ _ E1'). destruct r as [x|].
  - destruct Hr as (Hr1 & Hlen & n & Hn & Hx). rewrite <- Hns in Hn.
    destruct (remove_idx_rep_heap (E:=HkvError) sh1 l _ n Hr1 Hn) as (sh2 & E2 & Hr2 & Hh2).
    pose proof (on_shard_at e i sh1 (wrap64 (U + total_size l)) t _ _ _ Hi E2) as E2'.
    rewrite (bind_val _ _ _ _ _ E2').
    destruct (rep_live _ _ _ _ _ Hr1 Hn) as [Hfk Hz].
    pose proof (rep_NoDup _ _ _ Hr1) as Hnd.
    destruct (live_drop now _ _ _ Hnd Hfk Hx) as [Hl Hlen'].
    assert (used_sub (n_size n) (at_ e i sh2 (wrap64 (U + total_size l)) t)
      = (Val tt, at_ e i sh2 (wrap64 (U + total_size (drop_key (n_key n) l))) t)) as E3.
    { unfold used_sub, modify, with_used, at_. simpl.
      rewrite wrap64_sub_l, (total_size_drop _ _ _ Hnd Hfk), Hz. do 3 f_equal. lia. }
    rewrite (bind_val _ _ _ _ _ E3).
    destruct (IH sh2 (drop_key (n_key n) l) (removed + 1)%Z Hr2) as (sh3 & E4 & Hr3); [rewrite Hh2; lia|].
    rewrite Hl in E4, Hr3. exists sh3. split; [|done]. rewrite E4. do 2 f_equal. lia.
  - destruct Hr as [Hr1 Hall]. rewrite (live_all _ _ Hall). exists sh1. split; [|done].
    unfold mret, M_ret. do 2 f_equal. lia.
Qed.

Lemma purge_shards_rep now is_ : forall e c removed,
  engine_rep e c -> Forall (fun i => i < length (shards e)) is_ ->
  let ls := foldl (fun ls i => alter (live now) i ls) (c_shards c) is_ in
  exists e', purge_shards now is_ removed e
      = (Val (removed + Z.of_nat (entries (c_shards c)) - Z.of_nat (entries ls))%Z, e')
    /\ engine_rep e' (with_c_shards ls c).
Proof.
  induction is_ as [|i is_ IH]; intros e c removed Hr Hall ls.
  { exists e. split; [|by destruct c]. unfold ls. cbn [foldl]. by rewrite Z.add_simpl_r. }
  apply Forall_cons in Hall as [Hi Hall].
  destruct (lookup_lt_is_Some_2 _ _ Hi) as [sh Hsh].
  destruct (rep_shard _ _ _ _ Hr Hsh) as (l & Hl & Hrep).
  cbn [purge_shards]. rewrite bind_gets.
  assert (heap_len i e = length (s_ttl_heap sh)) as Hh by (unfold heap_len; by rewrite Hsh).
  destruct (purge_shard_at e i now Hi (ttl_token e) (total (c_shards c) - total_size l)
    (S (heap_len i e)) sh l removed Hrep) as (sh' & E1 & Hr1); [lia|].
  replace (at_ e i sh (wrap64 (total (c_shards c) - total_size l + total_size l)) (ttl_token e)) with e in E1.
  2: { rewrite Z.sub_add, <- (er_used _ _ Hr). by apply at_id. }
  rewrite (bind_val _ _ _ _ _ E1).
  pose proof (rep_at e c i l (live now) sh' _ (ttl_token e) Hr Hl Hr1 eq_refl) as Hr2.
  destruct (IH _ _ (removed + Z.of_nat (length l) - Z.of_nat (length (live now l)))%Z Hr2) as (e2 & E2 & Hr3).
  { eapply Forall_impl; [exact Hall|]. intros j. simpl. by rewrite length_insert. }
  exists e2. split; [|exact Hr3]. rewrite E2. unfold ls. cbn [c_shards with_c_shards foldl].
  pose proof (entries_insert _ _ _ (live now l) Hl) as He. 
  rewrite (alter_lookup_insert _ _ _ _ Hl). do 2 f_equal. lia.
Qed.

Lemma purge_expired_rep e c now :
  engine_rep e c ->
  exists e', purge_expired now e = (Val (fst (c_purge now c)), e') /\ engine_rep e' (snd (c_purge now c)).
Proof.
  intros Hr. unfold purge_expired. rewrite bind_gets.
  destruct (purge_shards_rep now (seq 0 (length (shards e))) e c 0 Hr) as (e' & E1 & Hr').
  { apply Forall_seq. lia. }
  rewrite (Forall2_length _ _ _ (er_shards _ _ Hr)) in E1, Hr' |- *.
  rewrite foldl_alter_seq in E1, Hr'. exists e'. split; [exact E1|exact Hr'].
Qed.
