(* ===== verification/EngineKV.v ===== *)
(** * The in-memory engine as a key/value store

    [MemoryEngine] is an instance of the [KVEngine] trait and satisfies its
    laws; the theorems about whole executions of the engine follow. *)

From S2P Require Import Prelude Errors KVEngine LruSpec Shard Dll ShardRefine Engine EngineSpec EngineRefine.

#[global] Instance memory_engine `{Profile} (hash : bytes -> Z) : KVEngine MemoryEngine := {
  kv_get := get hash;
  kv_set := set hash;
  kv_set_with_ttl := set_with_ttl hash;
  kv_delete := delete hash;
  kv_expire := expire hash;
  kv_ttl := ttl hash
}.

(** ** A cache as a map *)

Section map.
Context (hash : bytes -> Z).

Definition e_bind (e : Entry) : bytes * option Instant := (e_value e, e_deadline e).

Definition map_rep (c : Cache) (m : store) : Prop := forall k, m !! k = e_bind <$> c_lookup hash c k.

(** There is a shard for every key. *)
Definition has_shard (c : Cache) : Prop := forall k, is_Some (c_shards c !! c_index hash c k).

Lemma c_index_update k k' f c : c_index hash (c_update hash k' f c) k = c_index hash c k.
Proof. unfold c_index, c_update. simpl. by rewrite length_alter. Qed.

Lemma has_shard_update k f c : has_shard c -> has_shard (c_update hash k f c).
Proof.
  intros Hs k'. rewrite c_index_update. unfold c_update. simpl.
  destruct (Hs k') as [l Hl]. destruct (decide (c_index hash c k = c_index hash c k')) as [->|].
  - rewrite list_lookup_alter_eq, Hl. eauto.
  - rewrite list_lookup_alter_ne by done. eauto.
Qed.

Lemma c_lookup_update k k' (f : lru -> lru) c :
  c_lookup hash (c_update hash k f c) k'
  = (if decide (c_index hash c k = c_index hash c k')
     then f <$> c_shards c !! c_index hash c k' else c_shards c !! c_index hash c k') ≫= find_key k'.
Proof.
  unfold c_lookup. rewrite c_index_update. unfold c_update. simpl. case_decide as Hd.
  - by rewrite Hd, list_lookup_alter_eq.
  - by rewrite list_lookup_alter_ne.
Qed.

Lemma lookup_put e c k :
  has_shard c ->
  c_lookup hash (c_update hash (e_key e) (put e) c) k
  = if decide (e_key e = k) then Some e else c_lookup hash c k.
Proof.
  intros Hs. rewrite c_lookup_update. unfold c_lookup. destruct (Hs k) as [l Hl].
  rewrite Hl. destruct (decide (e_key e = k)) as [<-|Hne].
  - rewrite decide_True by done. simpl. by rewrite find_key_put, decide_True.
  - case_decide; [|done]. simpl. by rewrite find_key_put, decide_False.
Qed.

Lemma lookup_drop k c k' :
  c_lookup hash (c_update hash k (drop_key k) c) k'
  = if decide (k = k') then None else c_lookup hash c k'.
Proof.
  rewrite c_lookup_update. unfold c_lookup. destruct (decide (k = k')) as [<-|Hne].
  - rewrite decide_True by done. destruct (_ !! _); simpl; [apply find_key_drop_eq|done].
  - case_decide; [|done]. destruct (_ !! _); simpl; [by apply find_key_drop_ne|done].
Qed.

Lemma lookup_set_deadline k d c k' :
  c_lookup hash (c_update hash k (set_deadline k d) c) k'
  = if decide (k = k') then with_deadline d <$> c_lookup hash c k' else c_lookup hash c k'.
Proof.
  rewrite c_lookup_update. unfold c_lookup. destruct (decide (k = k')) as [<-|Hne].
  - rewrite decide_True by done. destruct (_ !! _); simpl; [|done].
    by rewrite find_key_set_deadline, decide_True.
  - case_decide; [|done]. destruct (_ !! _); simpl; [|done].
    by rewrite find_key_set_deadline, decide_False.
Qed.

(** The operations of the map, on a cache. *)
Lemma map_put e c m :
  has_shard c -> map_rep c m -> map_rep (c_update hash (e_key e) (put e) c) (<[e_key e := e_bind e]> m).
Proof.
  intros Hs Hm k. rewrite lookup_put by done. case_decide as Hk.
  - by rewrite Hk, lookup_insert_eq.
  - rewrite lookup_insert_ne by done. apply Hm.
Qed.

Lemma map_drop k c m : map_rep c m -> map_rep (c_update hash k (drop_key k) c) (base.delete k m).
Proof.
  intros Hm k'. rewrite lookup_drop. case_decide as Hk.
  - by rewrite Hk, lookup_delete_eq.
  - rewrite lookup_delete_ne by done. apply Hm.
Qed.

Lemma map_deadline k d c m e :
  c_lookup hash c k = Some e -> map_rep c m ->
  map_rep (c_update hash k (set_deadline k d) c) (<[k := (e_value e, d)]> m).
Proof.
  intros He Hm k'. rewrite lookup_set_deadline. case_decide as Hk.
  - subst k'. by rewrite lookup_insert_eq, He.
  - rewrite lookup_insert_ne by done. apply Hm.
Qed.

Lemma m_live_cache c m now k :
  map_rep c m ->
  m_live now k m = match c_lookup hash c k with
                   | Some e => if e_expired now e then None else Some (e_bind e)
                   | None => None
                   end.
Proof. intros Hm. unfold m_live. rewrite Hm. by destruct (c_lookup hash c k). Qed.

Lemma delete_missing c m k : map_rep c m -> c_lookup hash c k = None -> map_rep c (base.delete k m).
Proof.
  intros Hm Hk. rewrite delete_id; [done|]. by rewrite Hm, Hk.
Qed.

(** What an operation on one key does to the map. *)
Lemma c_get_map c m now k :
  has_shard c -> map_rep c m ->
  fst (c_get hash now k c) = fst <$> m_live now k m /\ map_rep (snd (c_get hash now k c)) (m_touch now k m).
Proof.
  intros Hs Hm. unfold c_get, m_touch. rewrite (m_live_cache c m) by done.
  destruct (c_lookup hash c k) as [e|] eqn:He; [|by split; [|apply delete_missing]].
  destruct (e_expired now e); (split; [done|]); [by apply map_drop|].
  assert (e_key e = k) as <-.
  { unfold c_lookup in He. destruct (_ !! _); [|done]. by apply find_key_Some in He as [_ ?]. }
  rewrite <- (insert_id m (e_key e) (e_bind e)) by (by rewrite Hm, He). by apply map_put.
Qed.

Lemma c_delete_map c m now k :
  map_rep c m ->
  fst (c_delete hash now k c) = bool_decide (is_Some (m_live now k m))
  /\ map_rep (snd (c_delete hash now k c)) (base.delete k m).
Proof.
  intros Hm. unfold c_delete. rewrite (m_live_cache c m) by done.
  destruct (c_lookup hash c k) as [e|] eqn:He; [|by split; [|apply delete_missing]].
  split; [by destruct (e_expired now e)|by apply map_drop].
Qed.

Lemma c_ttl_map c m now k :
  map_rep c m ->
  fst (c_ttl hash now k c) = m_ttl now k m /\ map_rep (snd (c_ttl hash now k c)) (m_touch now k m).
Proof.
  intros Hm. unfold c_ttl, m_ttl, m_touch. rewrite (m_live_cache c m) by done.
  destruct (c_lookup hash c k) as [e|] eqn:He; [|by split; [|apply delete_missing]].
  destruct (e_expired now e); (split; [|by try apply map_drop]); [done|].
  simpl. by destruct (e_deadline e).
Qed.

Lemma c_expire_map c m now k d :
  map_rep c m ->
  fst (c_expire hash now k (now + d) c) = fst (m_expire now k d m)
  /\ map_rep (snd (c_expire hash now k (now + d) c)) (snd (m_expire now k d m)).
Proof.
  intros Hm. unfold c_expire, m_expire. rewrite (m_live_cache c m) by done.
  destruct (c_lookup hash c k) as [e|] eqn:He; [|by split; [|apply delete_missing]].
  destruct (e_expired now e); (split; [done|]); [by apply map_drop|]. by apply map_deadline.
Qed.

(** Eviction only forgets keys. *)
Lemma find_key_suffix k l l' e :
  suffix l' l -> NoDup (keys l) -> find_key k l' = Some e -> find_key k l = Some e.
Proof.
  intros [d ->] Hnd Hf. rewrite find_key_app. destruct (find_key k d) as [e'|] eqn:Hd; [|done].
  exfalso. unfold keys in Hnd. rewrite fmap_app in Hnd. apply NoDup_app in Hnd as (_ & Hdis & _).
  apply find_key_Some in Hd as [Hd Hkd]. apply find_key_Some in Hf as [Hf Hkf].
  apply (Hdis k); apply list_elem_of_fmap; [by exists e'|by exists e].
Qed.

Lemma evict_lookup c c' k e :
  Forall2 suffix (c_shards c') (c_shards c) ->
  (forall l, l ∈ c_shards c -> NoDup (keys l)) ->
  c_lookup hash c' k = Some e -> c_lookup hash c k = Some e.
Proof.
  intros Hs Hnd. unfold c_lookup, c_index. rewrite (Forall2_length _ _ _ Hs).
  destruct (c_shards c' !! _) as [l'|] eqn:Hl'; [|done].
  destruct (Forall2_lookup_l _ _ _ _ _ Hs Hl') as (l & Hl & Hsuf). rewrite Hl. simpl.
  apply find_key_suffix; [done|]. by eapply Hnd, list_elem_of_lookup_2.
Qed.

Definition view (c : Cache) (m : store) : store :=
  filter (fun '(k, _) => is_Some (c_lookup hash c k)) m.

Lemma view_evicted c c' m :
  map_rep c m -> (forall k e, c_lookup hash c' k = Some e -> c_lookup hash c k = Some e) ->
  map_rep c' (view c' m) /\ view c' m ⊆ m.
Proof.
  intros Hm Hsub. split; [|apply map_filter_subseteq].
  intros k. apply option_eq. intros x. unfold view.
  rewrite map_lookup_filter_Some, Hm, !fmap_Some. split.
  - intros [(e & He & ->) [e' He']]. exists e'. split; [done|].
    pose proof (Hsub _ _ He'). by simplify_eq.
  - intros (e & He & ->). split; [by eauto|]. by rewrite He.
Qed.

End map.

(** ** The laws *)

Section laws.
Context `{Profile} (hash : bytes -> Z).

(** A bounded engine evicts, which needs the wrapping cursor of a release
    build; an unbounded one never does. *)
Definition engine_kv (bounded : bool) (e : MemoryEngine) (m : store) : Prop :=
  exists c, engine_rep e c /\ map_rep hash c m
    /\ if bounded then overflow_checks = false else c_max c = usize_max.

Lemma rep_has_shard e c : engine_rep e c -> has_shard hash c.
Proof.
  intros Hr k. destruct (focus_key hash e c k Hr) as (sh & l & _ & _ & _ & -> & Hl & _). eauto.
Qed.

Lemma rep_keys e c l : engine_rep e c -> l ∈ c_shards c -> NoDup (keys l).
Proof.
  intros Hr [i Hl]%list_elem_of_lookup_1.
  destruct (Forall2_lookup_r _ _ _ _ _ (er_shards _ _ Hr) Hl) as (sh & _ & Hsh).
  by apply (rep_NoDup None sh).
Qed.

Lemma evict_suffix_all c : Forall2 suffix (c_shards (evict_all c)) (c_shards c).
Proof. unfold evict_all. case_bool_decide; [reflexivity|apply evict_suffix]. Qed.

Lemma evict_max f c : c_max (evict f c) = c_max c.
Proof. revert c. induction f as [|f IH]; intros c; simpl; [done|]. repeat case_match; try done. exact (IH (mkCache _ _ _)). Qed.

(** The deadline a write sets. *)
Definition deadline_of (now : Instant) (ttl : option Duration) : option Instant :=
  (fun d => (now + d)%Z) <$> ttl.

Definition ttl_fits (now : Instant) (ttl : option Duration) : Prop :=
  match ttl with Some d => (now + d < instant_limit)%Z | None => True end.

Lemma write_value_unfold e now k v ttl :
  ttl_fits now ttl ->
  write_value hash now k v ttl e
  = (write_shard now (shard_index hash e k) k v (deadline_of now ttl) ≫= fun _ => evict_if_needed) e.
Proof.
  intros Hfit. unfold write_value. rewrite bind_gets.
  assert ((match ttl with Some d => t ← instant_add now d; mret (Some t) | None => mret None end) e
    = (Val (deadline_of now ttl), e)) as E0.
  { destruct ttl as [d|]; [|done]. by rewrite (bind_val _ _ _ _ _ (instant_add_ok _ _ _ Hfit)). }
  rewrite (bind_val _ _ _ _ _ E0). unfold write_shard. rewrite bind_bind.
  apply bind_ext. intros [] e1. by rewrite bind_bind.
Qed.

Lemma write_value_rep e c now k v ttl :
  overflow_checks = false \/ c_max c = usize_max ->
  engine_rep e c -> ttl_fits now ttl ->
  exists e', write_value hash now k v ttl e = (Val tt, e')
    /\ engine_rep e' (c_write hash k v (deadline_of now ttl) c).
Proof.
  intros Hb Hr Hfit. rewrite write_value_unfold by done.
  destruct (write_shard_rep hash e c now k v (deadline_of now ttl) Hr) as (e1 & E1 & Hr1).
  rewrite (bind_val (A:=unit) _ _ _ _ _ E1). unfold c_write. destruct Hb as [Hb|Hb].
  - by apply evict_if_needed_rep.
  - destruct (evict_unbounded_rep e1 _ Hr1 Hb) as [E2 ->]. by exists e1.
Qed.

Lemma write_value_map b e m now k v ttl :
  engine_kv b e m -> ttl_fits now ttl ->
  exists e' m', write_value hash now k v ttl e = (Val tt, e') /\ engine_kv b e' m'
    /\ shrinks b (<[k := (v, deadline_of now ttl)]> m) m'.
Proof.
  intros (c & Hr & Hm & Hb) Hfit.
  destruct (write_value_rep e c now k v ttl) as (e' & E' & Hr'); [destruct b; auto|done..|].
  set (d := deadline_of now ttl) in *.
  destruct (write_shard_rep hash e c now k v d Hr) as (e1 & _ & Hr1).
  pose proof (map_put hash (mkE k v d) c m (rep_has_shard _ _ Hr) Hm) as Hm1. simpl in Hm1.
  exists e'. destruct b.
  - destruct (view_evicted hash _ (c_write hash k v d c) _ Hm1) as [Hm2 Hsub].
    { intros k' x. apply evict_lookup; [apply evict_suffix_all|]. intros l Hl. by eapply rep_keys. }
    eexists. split; [done|]. split; [|exact Hsub]. by eexists.
  - eexists. split; [done|]. split; [|reflexivity]. exists (c_write hash k v d c).
    unfold c_write in *. destruct (evict_unbounded_rep e1 _ Hr1 Hb) as [_ Heq].
    split; [done|]. by rewrite Heq.
Qed.

End laws.

#[global] Program Instance memory_engine_laws `{Profile} (hash : bytes -> Z) :
    KVEngineLaws MemoryEngine (H := memory_engine hash) := {
  kv_rep := engine_kv hash
}.
Next Obligation.
  intros ? hash b e m now k (c & Hr & Hm & Hb).
  destruct (get_rep hash e c now k Hr) as (e' & E' & Hr').
  destruct (c_get_map hash c m now k (rep_has_shard _ _ _ Hr) Hm) as [Hv Hm'].
  exists e'. simpl. rewrite E', Hv. split; [done|]. exists (snd (c_get hash now k c)). split_and!; try done.
  unfold c_get. by repeat case_match.
Qed.
Next Obligation.
  intros ? hash b e m now k v Hr. by apply (write_value_map hash b e m now k v None).
Qed.
Next Obligation.
  intros ? hash b e m now k v d Hr Hfit. by apply (write_value_map hash b e m now k v (Some d)).
Qed.
Next Obligation.
  intros ? hash b e m now k (c & Hr & Hm & Hb).
  destruct (delete_rep hash e c now k Hr) as (e' & E' & Hr').
  destruct (c_delete_map hash c m now k Hm) as [Hv Hm'].
  exists e'. simpl. rewrite E', Hv. split; [done|]. exists (snd (c_delete hash now k c)). split_and!; try done.
  unfold c_delete. by repeat case_match.
Qed.
Next Obligation.
  intros ? hash b e m now k d (c & Hr & Hm & Hb) Hfit.
  destruct (expire_rep hash e c now k d Hr Hfit) as (e' & o & E' & Hr' & ->).
  destruct (c_expire_map hash c m now k d Hm) as [Hv Hm'].
  exists e'. simpl. rewrite E', Hv. split; [done|].
  exists (snd (c_expire hash now k (now + d) c)). split_and!; try done.
  unfold c_expire. by repeat case_match.
Qed.
Next Obligation.
  intros ? hash b e m now k (c & Hr & Hm & Hb).
  destruct (ttl_rep hash e c now k Hr) as (e' & E' & Hr').
  destruct (c_ttl_map hash c m now k Hm) as [Hv Hm'].
  exists e'. simpl. rewrite E', Hv. split; [done|]. exists (snd (c_ttl hash now k c)). split_and!; try done.
  unfold c_ttl. by repeat case_match.
Qed.
