(* ===== verification/EngineThms.v ===== *)
(** * Properties of the in-memory engine (hkv-engine/src/memory.rs)

    Executions of a fresh engine: functional correctness against the map and
    against the LRU cache, the arena and byte-accounting invariant, eviction,
    the sweeper, and what an overflowing deadline does. *)

From S2P Require Import Prelude Errors KVEngine LruSpec Shard Dll ShardRefine Engine EngineSpec EngineRefine EngineKV.

(** ** A fresh engine *)

Lemma next_pow2_spec n :
  (1 <= n <= 2 ^ 63)%Z -> let p := (2 ^ Z.log2_up n)%Z in
  (0 <= Z.log2_up n < 64)%Z /\ (n <= p <= usize_max)%Z.
Proof.
  intros Hn p. pose proof (Z.log2_up_le_mono n (2 ^ 63) ltac:(lia)) as Hle.
  rewrite Z.log2_up_pow2 in Hle by lia. pose proof (Z.log2_up_nonneg n).
  split; [lia|]. split.
  - destruct (decide (n = 1)%Z) as [->|]; [done|]. apply Z.log2_up_spec. lia.
  - unfold p. pose proof (Z.pow_le_mono_r 2 (Z.log2_up n) 63 ltac:(lia) ltac:(lia)).
    unfold usize_max, u64_max, u64_modulus. lia.
Qed.

Definition fresh (count max : Z) : MemoryEngine :=
  mkEngine (replicate (Z.to_nat count) shard_new) (count - 1) max 0 0 1.
Definition empty_cache (count max : Z) : Cache :=
  mkCache (replicate (Z.to_nat count) []) max 0.

Lemma new_fresh `{Profile} {S E} n max (s : S) :
  (0 <= n <= 2 ^ 63)%Z ->
  with_shard_count_and_capacity (E:=E) n max s = (Val (fresh (2 ^ Z.log2_up (Z.max n 1)) max), s).
Proof.
  intros Hn. destruct (next_pow2_spec (Z.max n 1) ltac:(lia)) as [_ Hp].
  unfold with_shard_count_and_capacity, normalize_shard_count, next_power_of_two.
  rewrite (proj2 (Z.leb_le _ _) (proj2 Hp)), bind_ret, bool_decide_false by lia. done.
Qed.

Lemma fresh_rep k max :
  (0 <= k < 64)%Z -> engine_rep (fresh (2 ^ k) max) (empty_cache (2 ^ k) max).
Proof.
  intros Hk. split; simpl; try done.
  - apply Forall2_replicate, rep_new.
  - exists k. rewrite length_replicate. split_and!; lia.
  - rewrite total_empty; [done|]. by intros l [-> _]%elem_of_replicate.
Qed.

(** ** Executions *)

Inductive Event : Type :=
| EOp (now : Instant) (o : Op)
| EPurge (now : Instant).

Inductive Answer : Type :=
| AReply (r : Reply)
| APurged (n : Z).

Definition event_fits (ev : Event) : Prop :=
  match ev with EOp now o => op_fits now o | EPurge _ => True end.

Section exec.
Context `{Profile} (hash : bytes -> Z).
#[local] Existing Instance memory_engine.

Definition engine_exec (ev : Event) : EM Answer :=
  match ev with
  | EOp now o => r ← kv_exec (H := memory_engine hash) now o; mret (AReply r)
  | EPurge now => n ← purge_expired now; mret (APurged n)
  end.

Fixpoint engine_run (evs : list Event) : EM (list Answer) :=
  match evs with
  | [] => mret []
  | ev :: evs' => a ← engine_exec ev; r ← engine_run evs'; mret (a :: r)
  end.

(** The same on the specification. *)
Definition c_op (now : Instant) (o : Op) (c : Cache) : Reply * Cache :=
  match o with
  | OpGet k => let '(v, c') := c_get hash now k c in (RValue v, c')
  | OpSet k v => (RDone (Ok tt), c_write hash k v None c)
  | OpSetTtl k v d => (RDone (Ok tt), c_write hash k v (Some (now + d)%Z) c)
  | OpDelete k => let '(b, c') := c_delete hash now k c in (RDeleted b, c')
  | OpExpire k d => let '(r, c') := c_expire hash now k (now + d) c in (RDone r, c')
  | OpTtl k => let '(t, c') := c_ttl hash now k c in (RTtl t, c')
  end.

Definition c_exec (ev : Event) (c : Cache) : Answer * Cache :=
  match ev with
  | EOp now o => let '(r, c') := c_op now o c in (AReply r, c')
  | EPurge now => let '(n, c') := c_purge now c in (APurged n, c')
  end.

Fixpoint c_run (evs : list Event) (c : Cache) : list Answer * Cache :=
  match evs with
  | [] => ([], c)
  | ev :: evs' =>
      let '(a, c1) := c_exec ev c in
      let '(r, c2) := c_run evs' c1 in (a :: r, c2)
  end.

Lemma engine_op_rep e c now o :
  overflow_checks = false \/ c_max c = usize_max ->
  engine_rep e c -> op_fits now o ->
  exists e', kv_exec (H := memory_engine hash) now o e = (Val (fst (c_op now o c)), e')
    /\ engine_rep e' (snd (c_op now o c)).
Proof.
  intros Hb Hr Hfit. destruct o as [k|k v|k v d|k|k d|k]; simpl in *.
  - destruct (get_rep hash e c now k Hr) as (e' & E & Hr'). exists e'.
    rewrite (bind_val _ _ _ _ _ E). by destruct (c_get hash now k c).
  - destruct (write_value_rep hash e c now k v None Hb Hr I) as (e' & E & Hr'). exists e'.
    by rewrite (bind_val _ _ _ _ _ (catch_val _ _ _ _ E)).
  - destruct (write_value_rep hash e c now k v (Some d) Hb Hr Hfit) as (e' & E & Hr'). exists e'.
    by rewrite (bind_val _ _ _ _ _ (catch_val _ _ _ _ E)).
  - destruct (delete_rep hash e c now k Hr) as (e' & E & Hr'). exists e'.
    rewrite (bind_val _ _ _ _ _ E). by destruct (c_delete hash now k c).
  - destruct (expire_rep hash e c now k d Hr Hfit) as (e' & o & E & Hr' & ->). exists e'.
    destruct (c_expire hash now k (now + d) c) as [[[]|x] c']; simpl in *.
    + by rewrite (bind_val _ _ _ _ _ (catch_val _ _ _ _ E)).
    + by rewrite (bind_val _ _ _ _ _ (catch_err _ _ _ _ E)).
  - destruct (ttl_rep hash e c now k Hr) as (e' & E & Hr'). exists e'.
    rewrite (bind_val _ _ _ _ _ E). by destruct (c_ttl hash now k c).
Qed.

Lemma engine_exec_rep e c ev :
  overflow_checks = false \/ c_max c = usize_max ->
  engine_rep e c -> event_fits ev ->
  exists e', engine_exec ev e = (Val (fst (c_exec ev c)), e') /\ engine_rep e' (snd (c_exec ev c)).
Proof.
  intros Hb Hr Hfit. destruct ev as [now o|now].
  - destruct (engine_op_rep e c now o Hb Hr Hfit) as (e' & E & Hr'). exists e'. simpl.
    rewrite (bind_val _ _ _ _ _ E). by destruct (c_op now o c).
  - destruct (purge_expired_rep e c now Hr) as (e' & E & Hr'). exists e'. simpl.
    by rewrite (bind_val _ _ _ _ _ E).
Qed.

Lemma c_exec_max ev c : c_max (snd (c_exec ev c)) = c_max c.
Proof.
  assert (forall k v d, c_max (c_write hash k v d c) = c_max c) as Hw.
  { intros k v d. unfold c_write, evict_all. case_bool_decide; [done|by rewrite evict_max]. }
  destruct ev as [now [k|k v|k v d|k|k d|k]|now]; simpl; try apply Hw;
    unfold c_get, c_delete, c_expire, c_ttl; by repeat case_match; simplify_eq/=.
Qed.

Lemma engine_run_rep evs : forall e c,
  overflow_checks = false \/ c_max c = usize_max ->
  engine_rep e c -> Forall event_fits evs ->
  exists e', engine_run evs e = (Val (fst (c_run evs c)), e') /\ engine_rep e' (snd (c_run evs c)).
Proof.
  induction evs as [|ev evs IH]; intros e c Hb Hr Hfit; [by exists e|].
  apply Forall_cons in Hfit as [Hf Hfit].
  destruct (engine_exec_rep e c ev Hb Hr Hf) as (e1 & E1 & Hr1).
  destruct (IH e1 _ ltac:(rewrite c_exec_max; exact Hb) Hr1 Hfit) as (e2 & E2 & Hr2).
  cbn [engine_run c_run]. rewrite (bind_val _ _ _ _ _ E1), (bind_val _ _ _ _ _ E2).
  destruct (c_exec ev c) as [a c1]. simpl in *. destruct (c_run evs c1) as [r c2]. by exists e2.
Qed.

(** Every event leaves a well-formed engine, also one whose deadline overflows
    the clock: the panic comes before any change but that of the token. *)
Lemma write_panic_run e now k v d :
  (instant_limit <= now + d)%Z -> write_value hash now k v (Some d) e = (Panic, e).
Proof.
  intros Hle. unfold write_value. rewrite bind_gets, !bind_bind.
  by rewrite (bind_panic _ _ _ _ (instant_add_panic _ _ _ Hle)).
Qed.

Lemma expire_panic_rep e c now k d x :
  engine_rep e c -> (instant_limit <= now + d)%Z ->
  c_lookup hash c k = Some x -> e_expired now x = false ->
  exists e', expire hash now k d e = (Panic, e') /\ engine_rep e' c.
Proof.
  intros Hr Hd Hx Hlive.
  destruct (focus_key hash e c k Hr) as (sh & l & Hsh & Hi & Hrep & Hidx & Hl & Hu & He & Hget).
  set (i := shard_index hash e k) in *.
  rewrite (lookup_focus hash c k l) in Hx by (by rewrite Hidx).
  pose proof (lookup_at e i Hi sh (used_bytes e) (ttl_token e) l k Hrep) as Hlk.
  unfold expire. rewrite bind_gets, (bind_val _ _ _ _ _ Hget).
  destruct (s_map sh !! k) as [idx|] eqn:Hk; [|congruence].
  destruct Hlk as (n & Hn & _ & Hnode & Hf & Hexp). simplify_eq.
  rewrite (bind_val _ _ _ _ _ Hnode). simpl. rewrite Hexp, Hlive.
  rewrite (bind_val _ _ _ _ _ (next_token_at _ _ _ _ _)).
  rewrite (bind_panic _ _ _ _ (instant_add_panic _ _ _ Hd)).
  eexists. split; [done|]. rewrite He in Hr. destruct Hr as [Hs Hp Hm Hub Hc]. by split.
Qed.

Lemma expire_missing_rep e c now k d :
  engine_rep e c ->
  (forall x, c_lookup hash c k = Some x -> e_expired now x = true) ->
  exists e' c', expire hash now k d e = (Err NotFound, e') /\ engine_rep e' c' /\ c_max c' = c_max c.
Proof.
  intros Hr Hx.
  destruct (focus_key hash e c k Hr) as (sh & l & Hsh & Hi & Hrep & Hidx & Hl & Hu & He & Hget).
  set (i := shard_index hash e k) in *.
  rewrite (lookup_focus hash c k l) in Hx by (by rewrite Hidx).
  pose proof (lookup_at e i Hi sh (used_bytes e) (ttl_token e) l k Hrep) as Hlk.
  unfold expire. rewrite bind_gets, (bind_val _ _ _ _ _ Hget).
  destruct (s_map sh !! k) as [idx|] eqn:Hk; [|do 2 eexists; rewrite <- He; eauto].
  destruct Hlk as (n & Hn & <- & Hnode & Hf & Hexp).
  rewrite (bind_val _ _ _ _ _ Hnode). simpl. rewrite Hexp, (Hx _ Hf).
  destruct (reclaim_at e i Hi sh _ (ttl_token e) l idx n _ (rep_weaken _ _ _ Hrep) Hn Hu)
    as (sh' & E1 & Hrep').
  rewrite (bind_val _ _ _ _ _ E1). do 2 eexists. split; [done|].
  split; [by apply (rep_at e c i l (drop_key (n_key n)))|done].
Qed.

End exec.

(** ** Reachable engines *)

Section reach.
Context `{Profile} (hash : bytes -> Z).

Inductive reachable (n max : Z) : MemoryEngine -> Prop :=
| reach_new e : with_shard_count_and_capacity (E:=HkvError) n max tt = (Val e, tt) -> reachable n max e
| reach_step e ev o e' : reachable n max e -> engine_exec hash ev e = (o, e') -> reachable n max e'.

(** An event answers or panics; either way the engine represents some cache. *)
Lemma engine_exec_any e c ev :
  overflow_checks = false \/ c_max c = usize_max -> engine_rep e c ->
  exists o e' c', engine_exec hash ev e = (o, e') /\ engine_rep e' c' /\ c_max c' = c_max c.
Proof.
  intros Hb Hr.
  assert (event_fits ev \/ ~ event_fits ev) as [Hfit|Hfit].
  { destruct ev as [now [| | k v d| |k d|]|]; simpl; try (by left); lia. }
  { destruct (engine_exec_rep hash e c ev Hb Hr Hfit) as (e' & E & Hr').
    do 3 eexists. split; [done|]. split; [done|apply c_exec_max]. }
  destruct ev as [now [k|k v|k v d|k|k d|k]|now]; simpl in Hfit; try tauto.
  - exists Panic, e, c. split; [|done]. simpl. rewrite !bind_bind.
    apply bind_panic. unfold catch, set_with_ttl. by rewrite write_panic_run by lia.
  - destruct (c_lookup hash c k) as [x|] eqn:Hx; [destruct (e_expired now x) eqn:Hlive|].
    2: { destruct (expire_panic_rep hash e c now k d x Hr ltac:(lia) Hx Hlive) as (e' & E & Hr').
         exists Panic, e', c. split; [|done]. simpl. rewrite !bind_bind.
         apply bind_panic. unfold catch. by rewrite E. }
    all: destruct (expire_missing_rep hash e c now k d Hr) as (e' & c' & E & Hr' & Hmax);
      [intros ? ?; by simplify_eq|].
    all: exists (Val (AReply (RDone (Error NotFound)))), e', c'; split; [|done];
      simpl; rewrite !bind_bind; by rewrite (bind_val _ _ _ _ _ (catch_err _ _ _ _ E)).
Qed.

Lemma reachable_rep n max e :
  (0 <= n <= 2 ^ 63)%Z -> overflow_checks = false \/ max = usize_max ->
  reachable n max e -> exists c, engine_rep e c /\ c_max c = max.
Proof.
  intros Hn Hb. induction 1 as [e Hnew|e ev o e' _ (c & Hr & Hmax) Hstep].
  - rewrite (new_fresh n max tt Hn) in Hnew. injection Hnew as <-.
    eexists. split; [by apply fresh_rep, next_pow2_spec; lia|done].
  - rewrite <- Hmax in Hb. destruct (engine_exec_any e c ev Hb Hr) as (o' & e1 & c' & E & Hr' & Hm).
    rewrite E in Hstep. injection Hstep as <- <-. exists c'. split; [done|congruence].
Qed.

End reach.

(** Bytes held by the nodes of all arenas. *)
Definition stored_bytes (e : MemoryEngine) : Z :=
  foldr (fun s z => arena_bytes (s_nodes s) + z)%Z 0%Z (shards e).

Lemma rep_stored e c : engine_rep e c -> stored_bytes e = total (c_shards c).
Proof.
  intros [Hs _ _ _ _]. unfold stored_bytes. induction Hs as [|s l ss ls Hsl _ IH]; simpl; [done|].
  by rewrite (rep_bytes _ _ Hsl), IH.
Qed.

(** ** The properties *)

(** An empty engine represents the empty map. *)
Lemma fresh_kv `{Profile} (hash : bytes -> Z) k (b : bool) max :
  (0 <= k < 64)%Z -> (if b then overflow_checks = false else max = usize_max) ->
  kv_rep (KVEngineLaws := memory_engine_laws hash) b (fresh (2 ^ k) max) ∅.
Proof.
  intros Hk Hb. eexists. split; [by apply fresh_rep|]. split; [|by destruct b].
  intros x. unfold c_lookup. simpl. rewrite lookup_empty.
  destruct (replicate _ _ !! _) as [l|] eqn:Hl; [|done]. by apply lookup_replicate in Hl as [-> _].
Qed.

(** C3: a fresh unbounded engine, with any shard count and hasher and in either
    build profile, answers every sequence of GET/SET/DEL/EXPIRE/TTL operations
    at any clock readings exactly as a map from keys to values and deadlines
    does, and never panics as long as the deadlines fit the clock. *)
Theorem engine_implements_map `{Profile} (hash : bytes -> Z) n os :
  (0 <= n <= 2 ^ 63)%Z -> Forall (fun '(now, o) => op_fits now o) os ->
  exists e e', with_shard_count (E:=HkvError) n tt = (Val e, tt)
    /\ kv_run (H := memory_engine hash) os e = (Val (fst (m_run os ∅)), e').
Proof.
  intros Hn Hfit. eexists. unfold with_shard_count. rewrite new_fresh by done.
  destruct (kv_run_ok (H0 := memory_engine_laws hash) os
    (fresh (2 ^ Z.log2_up (Z.max n 1)) usize_max) ∅) as (e' & E & _); [|done|by eauto].
  apply fresh_kv; [apply next_pow2_spec; lia|done].
Qed.

Lemma engine_implements_map_witness : exists e e',
  with_shard_count (H := dev_profile) (E:=HkvError) 3 tt = (Val e, tt)
  /\ kv_run (H := memory_engine (H := dev_profile) (fun k => Z.of_nat (length k)))
       [(5, OpSetTtl (lit "a") (lit "1") 10); (9, OpGet (lit "a")); (15, OpTtl (lit "a"))]%Z e
     = (Val [RDone (Ok tt); RValue (Some (lit "1")); RTtl Missing], e').
Proof.
  apply (@engine_implements_map dev_profile (fun k => Z.of_nat (length k)) 3
    [(5, OpSetTtl (lit "a") (lit "1") 10); (9, OpGet (lit "a")); (15, OpTtl (lit "a"))]%Z).
  - lia.
  - repeat constructor.
Defined.

(** C2: a fresh engine with a byte capacity refines the sharded LRU cache, in the
    release profile: for every sequence of operations and sweeps whose deadlines
    the clock can represent (one that it cannot panics, see
    [overflowing_deadline_panics]) the answers are those of the specification,
    with the same evictions in the same order. *)
Theorem engine_refines_lru_cache `{Profile} (hash : bytes -> Z) n max evs :
  overflow_checks = false -> (0 <= n <= 2 ^ 63)%Z -> Forall event_fits evs ->
  exists e e', with_shard_count_and_capacity (E:=HkvError) n max tt = (Val e, tt)
    /\ engine_run hash evs e
       = (Val (fst (c_run hash evs (empty_cache (2 ^ Z.log2_up (Z.max n 1)) max))), e')
    /\ engine_rep e' (snd (c_run hash evs (empty_cache (2 ^ Z.log2_up (Z.max n 1)) max))).
Proof.
  intros Hw Hn Hfit. eexists. rewrite new_fresh by done.
  destruct (engine_run_rep hash evs (fresh (2 ^ Z.log2_up (Z.max n 1)) max)
    (empty_cache (2 ^ Z.log2_up (Z.max n 1)) max)) as (e' & E & Hr'); [by left| |done|].
  - by apply fresh_rep, next_pow2_spec; lia.
  - exists e'. done.
Qed.

Lemma engine_refines_lru_cache_witness : exists e e',
  with_shard_count_and_capacity (H := release_profile) (E:=HkvError) 1 3 tt = (Val e, tt)
  /\ engine_run (H := release_profile) (fun _ => 0%Z)
       [EOp 1 (OpSet (lit "a") (lit "1")); EOp 2 (OpSet (lit "b") (lit "2"));
        EOp 3 (OpGet (lit "a")); EOp 4 (OpGet (lit "b"))]%Z e
     = (Val [AReply (RDone (Ok tt)); AReply (RDone (Ok tt));
             AReply (RValue None); AReply (RValue (Some (lit "2")))], e')
  /\ engine_rep e' (snd (c_run (fun _ => 0%Z)
       [EOp 1 (OpSet (lit "a") (lit "1")); EOp 2 (OpSet (lit "b") (lit "2"));
        EOp 3 (OpGet (lit "a")); EOp 4 (OpGet (lit "b"))]%Z (empty_cache 1 3))).
Proof.
  apply (@engine_refines_lru_cache release_profile (fun _ => 0%Z) 1 3
       [EOp 1 (OpSet (lit "a") (lit "1")); EOp 2 (OpSet (lit "b") (lit "2"));
        EOp 3 (OpGet (lit "a")); EOp 4 (OpGet (lit "b"))]%Z).
  - reflexivity.
  - lia.
  - repeat constructor.
Defined.

(** C4: in every reachable engine, also after a panic, whatever the deadlines
    asked for (with a capacity, in the release profile), each shard's arena is
    well formed (the links form one list through exactly the live slots, the
    free list holds exactly the vacant ones, the map points at the slot of each
    key, every live deadline is in the sorted heap) and [used_bytes] is the sum
    of the sizes of the stored nodes. *)
Theorem reachable_engine_wf `{Profile} (hash : bytes -> Z) n max e :
  (0 <= n <= 2 ^ 63)%Z -> overflow_checks = false \/ max = usize_max ->
  reachable hash n max e ->
  Forall shard_wf (shards e) /\ used_bytes e = wrap64 (stored_bytes e).
Proof.
  intros Hn Hb Hreach. destruct (reachable_rep hash n max e Hn Hb Hreach) as (c & Hr & _). split.
  - apply Forall_lookup. intros i s Hs. destruct (rep_shard _ _ _ _ Hr Hs) as (l & _ & Hsl).
    by apply (rep_wf s l).
  - by rewrite (rep_stored e c Hr), (er_used _ _ Hr).
Qed.

Lemma reachable_engine_wf_witness :
  Forall shard_wf (shards (snd (engine_exec (H := dev_profile) (fun _ => 0%Z)
    (EOp 0 (OpSetTtl (lit "a") (lit "1") 5)) (fresh 1 usize_max))))
  /\ used_bytes (snd (engine_exec (H := dev_profile) (fun _ => 0%Z)
    (EOp 0 (OpSetTtl (lit "a") (lit "1") 5)) (fresh 1 usize_max))) = wrap64 2.
Proof.
  apply (@reachable_engine_wf dev_profile (fun _ => 0%Z) 1 usize_max).
  - lia.
  - right. reflexivity.
  - eapply reach_step; [apply reach_new|apply surjective_pairing].
    rewrite (new_fresh 1 usize_max tt) by lia. reflexivity.
Defined.

Lemma evict_all_fits c :
  (0 <= c_max c)%Z -> (wrap64 (total (c_shards (evict_all c))) <= c_max (evict_all c))%Z.
Proof.
  intros Hmax. unfold evict_all. case_bool_decide as Hm.
  - rewrite Hm. pose proof (wrap64_range (total (c_shards c))).
    unfold usize_max, u64_max. lia.
  - rewrite evict_max. apply evict_fits; [done|lia].
Qed.

Lemma evict_all_id c :
  (wrap64 (total (c_shards c)) <= c_max c)%Z -> evict_all c = c.
Proof.
  intros Hle. unfold evict_all. case_bool_decide; [done|]. simpl.
  by rewrite (proj2 (Z.leb_le _ _) Hle).
Qed.

(** C26: after a write whose deadline the clock can represent, in the release
    profile, the accounted bytes are within the capacity; what is left
    of every shard is its most recently used part (only least recently used
    entries go), and nothing is evicted when the bytes already fit. *)
Theorem write_evicts_only_lru `{Profile} (hash : bytes -> Z) e c now k v ttl :
  overflow_checks = false -> engine_rep e c -> (0 <= c_max c)%Z -> ttl_fits now ttl ->
  let written := c_update hash k (put (mkE k v (deadline_of now ttl))) c in
  exists e' c', write_value hash now k v ttl e = (Val tt, e') /\ engine_rep e' c'
    /\ (used_bytes e' <= max_bytes e')%Z
    /\ Forall2 suffix (c_shards c') (c_shards written)
    /\ ((wrap64 (total (c_shards written)) <= c_max c)%Z -> c' = written).
Proof.
  intros Hw Hr Hmax Hfit written.
  destruct (write_value_rep hash e c now k v ttl (or_introl Hw) Hr Hfit) as (e' & E & Hr').
  exists e', (c_write hash k v (deadline_of now ttl) c). split_and!; try done.
  - rewrite (er_used _ _ Hr'), (er_max _ _ Hr'). unfold c_write. by apply evict_all_fits.
  - apply evict_suffix_all.
  - intros Hle. unfold c_write. by apply evict_all_id.
Qed.

Lemma write_evicts_only_lru_witness : exists e' c',
  let written := c_update (fun _ => 0%Z) (lit "ab") (put (mkE (lit "ab") (lit "c") None)) (empty_cache 1 2) in
  write_value (H := release_profile) (fun _ => 0%Z) 7 (lit "ab") (lit "c") None (fresh 1 2) = (Val tt, e')
  /\ engine_rep e' c' /\ (used_bytes e' <= max_bytes e')%Z
  /\ Forall2 suffix (c_shards c') (c_shards written)
  /\ ((wrap64 (total (c_shards written)) <= 2)%Z -> c' = written).
Proof.
  apply (@write_evicts_only_lru release_profile (fun _ => 0%Z) (fresh 1 2) (empty_cache 1 2)
           7 (lit "ab") (lit "c") None).
  - reflexivity.
  - apply (fresh_rep 0). lia.
  - simpl. lia.
  - exact I.
Defined.

(** [purge_expired] terminates, reports the number of entries it removes,
    removes exactly the entries whose deadline has passed in every shard
    without reordering the others, and leaves no expired node in any arena. *)
Theorem purge_removes_exactly_expired e c now :
  engine_rep e c ->
  exists e', purge_expired now e
      = (Val (Z.of_nat (entries (c_shards c)) - Z.of_nat (entries (live now <$> c_shards c)))%Z, e')
    /\ engine_rep e' (with_c_shards (live now <$> c_shards c) c)
    /\ forall s i n, s ∈ shards e' -> s_nodes s !! i = Some (Some n) -> is_expired n now = false.
Proof.
  intros Hr. destruct (purge_expired_rep e c now Hr) as (e' & E & Hr'). exists e'.
  split; [exact E|]. split; [exact Hr'|].
  intros s i n [j Hs]%list_elem_of_lookup_1 Hn.
  destruct (rep_shard _ _ _ _ Hr' Hs) as (l & Hl & Hsl). simpl in Hl.
  apply list_lookup_fmap_Some in Hl as (l0 & -> & _).
  destruct (rep_live _ _ _ _ _ Hsl Hn) as [[Hin _]%find_key_Some _].
  unfold live in Hin. apply list_elem_of_filter in Hin as [Hx _]. exact Hx.
Qed.

Lemma purge_removes_exactly_expired_witness :
  let c := mkCache [[mkE (lit "a") (lit "1") (Some 5%Z)]] usize_max 0 in
  exists e e', engine_run (H := dev_profile) (fun _ => 0%Z) [EOp 0 (OpSetTtl (lit "a") (lit "1") 5)] (fresh 1 usize_max)
      = (Val [AReply (RDone (Ok tt))], e)
    /\ purge_expired 6 e = (Val 1%Z, e')
    /\ engine_rep e' (mkCache [[]] usize_max 0)
    /\ forall s i n, s ∈ shards e' -> s_nodes s !! i = Some (Some n) -> is_expired n 6 = false.
Proof.
  intros c.
  destruct (engine_run_rep (H := dev_profile) (fun _ => 0%Z) [EOp 0 (OpSetTtl (lit "a") (lit "1") 5)]
    (fresh 1 usize_max) (empty_cache 1 usize_max)) as (e & E & Hr).
  - right. reflexivity.
  - apply (fresh_rep 0). lia.
  - repeat constructor.
  - exists e. destruct (purge_removes_exactly_expired e c 6 Hr) as (e' & E1 & Hr' & Hall).
    exists e'. split; [exact E|]. split; [exact E1|]. split; [exact Hr'|exact Hall].
Defined.

(** A deadline past the end of the clock makes the engine panic: SET with
    such a TTL before changing anything, EXPIRE on a live key after taking a
    token but leaving every entry as it was. *)
Theorem overflowing_deadline_panics `{Profile} (hash : bytes -> Z) e c now k v d :
  engine_rep e c -> (instant_limit <= now + d)%Z ->
  set_with_ttl hash now k v d e = (Panic, e) /\
  (forall x, c_lookup hash c k = Some x -> e_expired now x = false ->
    exists e', expire hash now k d e = (Panic, e') /\ engine_rep e' c).
Proof.
  intros Hr Hd. split; [by apply write_panic_run|].
  intros x Hx Hlive. by apply (expire_panic_rep hash e c now k d x).
Qed.

Lemma overflowing_deadline_panics_witness :
  set_with_ttl (H := release_profile) (fun _ => 0%Z) 0 (lit "k") (lit "v")
    (u64_max * 1000000000) (fresh 1 usize_max) = (Panic, fresh 1 usize_max).
Proof.
  apply (@overflowing_deadline_panics release_profile (fun _ => 0%Z) _ (empty_cache 1 usize_max)).
  - apply (fresh_rep 0). lia.
  - vm_compute. discriminate.
Defined.

(** The shard count is the least power of two that is at least the
    requested count (and 1), and every key has a shard. *)
Theorem shard_count_normalized `{Profile} (hash : bytes -> Z) n max :
  (0 <= n <= 2 ^ 63)%Z ->
  exists e j, with_shard_count_and_capacity (E:=HkvError) n max tt = (Val e, tt)
    /\ (0 <= j)%Z /\ Z.of_nat (length (shards e)) = (2 ^ j)%Z
    /\ (Z.max n 1 <= 2 ^ j < 2 * Z.max n 1)%Z
    /\ forall k, shard_index hash e k < length (shards e).
Proof.
  intros Hn. rewrite new_fresh by done. do 2 eexists. split; [done|].
  destruct (next_pow2_spec (Z.max n 1) ltac:(lia)) as [Hk Hp].
  assert (Z.of_nat (length (shards (fresh (2 ^ Z.log2_up (Z.max n 1)) max)))
    = (2 ^ Z.log2_up (Z.max n 1))%Z) as Hlen by (simpl; rewrite length_replicate; lia).
  split; [apply Hk|]. split; [exact Hlen|]. split.
  - split; [lia|]. destruct (decide (Z.max n 1 = 1)%Z) as [->|Hne]; [done|].
    pose proof (Z.log2_up_spec (Z.max n 1) ltac:(lia)) as [Hlt _].
    rewrite <- (Z.succ_pred (Z.log2_up (Z.max n 1))), Z.pow_succ_r; [lia|].
    pose proof (Z.log2_up_pos (Z.max n 1) ltac:(lia)). lia.
  - intros k. destruct (focus_key hash _ _ k (fresh_rep _ max Hk)) as (_ & _ & _ & Hi & _). exact Hi.
Qed.

Lemma shard_count_normalized_witness : exists e j,
  with_shard_count_and_capacity (H := dev_profile) (E:=HkvError) 5 100 tt = (Val e, tt)
  /\ (0 <= j)%Z /\ Z.of_nat (length (shards e)) = (2 ^ j)%Z /\ (5 <= 2 ^ j < 10)%Z
  /\ forall k, shard_index (fun k => Z.of_nat (length k)) e k < length (shards e).
Proof. apply (@shard_count_normalized dev_profile (fun k => Z.of_nat (length k)) 5 100). lia. Defined.

(** Eviction in one shard never reaches an entry that fits on its own. *)
Lemma evict_one_shard f : forall c l x,
  c_shards c = [l ++ [x]] -> (e_size x <= c_max c)%Z -> length l < f ->
  exists l', c_shards (evict f c) = [l' ++ [x]].
Proof.
  induction f as [|f IH]; intros c l x Hc Hx Hf; [lia|]. simpl.
  destruct (Z.leb_spec (wrap64 (total (c_shards c))) (c_max c)) as [|Hgt]; [by eauto|].
  rewrite Hc in *. simpl. rewrite Z.mod_1_r. simpl. destruct l as [|y l]; simpl.
  - exfalso. simpl in Hgt. rewrite !Z.add_0_r in Hgt.
    rewrite wrap64_small in Hgt; [lia|apply wrap64_range].
  - apply (IH (mkCache _ _ _) l x); simpl in *; [done..|lia].
Qed.

(** With one shard, a key that fits the capacity on its own can be read
    back right after it is written, whatever else was stored. *)
Theorem single_shard_reads_own_write `{Profile} (hash : bytes -> Z) e c now k v :
  overflow_checks = false -> engine_rep e c -> length (shards e) = 1 ->
  (e_size (mkE k v None) <= c_max c)%Z ->
  exists e1 e2, set hash now k v e = (Val tt, e1) /\ get hash now k e1 = (Val (Some v), e2).
Proof.
  intros Hw Hr Hlen Hfit.
  destruct (write_value_rep hash e c now k v None (or_introl Hw) Hr I) as (e1 & E1 & Hr1).
  destruct (get_rep hash e1 _ now k Hr1) as (e2 & E2 & _). exists e1, e2. split; [exact E1|].
  rewrite E2. do 2 f_equal. rewrite (Forall2_length _ _ _ (er_shards _ _ Hr)) in Hlen.
  destruct (c_shards c) as [|l [|]] eqn:Hc; try done.
  assert (forall c', length (c_shards c') = 1 -> c_index hash c' k = 0) as Hidx.
  { intros c' Hl. unfold c_index. by rewrite Hl, Z.mod_1_r. }
  assert (exists l', c_shards (c_write hash k v None c) = [l' ++ [mkE k v None]]) as [l' Hl'].
  { unfold c_write, c_update, deadline_of. rewrite Hidx by (by rewrite Hc). rewrite Hc. simpl.
    unfold evict_all, put. cbn [c_max c_shards with_c_shards]. case_bool_decide; [by eauto|].
    eapply evict_one_shard; [done|exact Hfit|]. unfold entries. simpl. rewrite length_app. simpl. lia. }
  assert (c_lookup hash (c_write hash k v None c) k = Some (mkE k v None)) as Hlk.
  { pose proof (rep_keys _ _ (l' ++ [mkE k v None]) Hr1) as Hnd.
    unfold c_lookup. rewrite Hidx by (by rewrite Hl'). rewrite Hl'. simpl.
    apply (find_key_middle k l' (mkE k v None) []); [|done].
    change (deadline_of now None) with (@None Instant) in Hnd.
    rewrite Hl' in Hnd. specialize (Hnd ltac:(set_solver)). unfold keys in *.
    rewrite fmap_app in Hnd. apply NoDup_app in Hnd as (_ & Hd & _). intros Hin.
    apply (Hd k Hin). simpl. set_solver. }
  unfold c_get. change (deadline_of now None) with (@None Instant). by rewrite Hlk.
Qed.

Lemma single_shard_reads_own_write_witness : exists e1 e2,
  set (H := release_profile) (fun _ => 0%Z) 7 (lit "k") (lit "v") (fresh 1 2) = (Val tt, e1)
  /\ get (fun _ => 0%Z) 7 (lit "k") e1 = (Val (Some (lit "v")), e2).
Proof.
  apply (@single_shard_reads_own_write release_profile (fun _ => 0%Z) (fresh 1 2) (empty_cache 1 2)).
  - reflexivity.
  - apply (fresh_rep 0). lia.
  - reflexivity.
  - vm_compute. discriminate.
Defined.

(** With several shards this fails: the round-robin cursor can pick the
    shard that holds only the entry just written. Two shards, a capacity of 3
    bytes: after SET "a", the second SET "bb" is gone before it is read, while
    the older "a" survives. *)
Example multi_shard_evicts_new_key :
  let hash k := Z.of_nat (length k) in
  fst (engine_run (H := release_profile) hash
    [EOp 1 (OpSet (lit "a") (lit "1")); EOp 2 (OpSet (lit "bb") (lit ""));
     EOp 3 (OpGet (lit "bb")); EOp 4 (OpGet (lit "a"))]%Z (fresh 2 3))
  = Val [AReply (RDone (Ok tt)); AReply (RDone (Ok tt));
         AReply (RValue None); AReply (RValue (Some (lit "1")))].
Proof. vm_compute. reflexivity. Qed.
