(* ===== verification/EngineConc.v ===== *)
(** * The engine under concurrent calls (hkv-engine/src/memory.rs, hkv-engine/src/engine.rs)

    Every method of [MemoryEngine] as a program of atomic actions: taking and
    releasing the lock of a shard, work on a locked shard, and the operations on
    the atomic counters, which other threads see at once. Programs of any number
    of threads are interleaved action by action. *)

From S2P Require Import Prelude Threads Errors KVEngine Shard Engine EngineKV EngineThms.

(** ** Programs *)

Inductive EngineAct : Type -> Type :=
| ReadClock : EngineAct Instant
| LockShard (i : nat) : EngineAct (outcome HkvError unit)
| UnlockShard (i : nat) : EngineAct unit
| WithShard {A : Type} (i : nat) (m : M ShardInner HkvError A) : EngineAct (outcome HkvError A)
| FetchAddUsed (n : Z) : EngineAct unit
| FetchSubUsed (n : Z) : EngineAct unit
| LoadUsed : EngineAct Z
| FetchAddCursor : EngineAct Z
| FetchAddToken : EngineAct Z.

Abbreviation EProg := (Prog EngineAct HkvError).

Definition shard {A} (i : nat) (m : M ShardInner HkvError A) : EProg A := Act (WithShard i m) Ret.

(** The [Result] of a call that has no value. *)
Fixpoint p_catch (p : EProg unit) : EProg Reply :=
  match p with
  | Ret (Val u) => Ret (Val (RDone (Ok u)))
  | Ret (Err e) => Ret (Val (RDone (Error e)))
  | Ret Panic => Ret Panic
  | Ret Diverge => Ret Diverge
  | Act a k => Act a (fun x => p_catch (k x))
  end.

(** [let mut inner = self.shards[i].inner.write(); ..], to the end of the scope. *)
Definition guarded {A} (i : nat) (p : EProg A) : EProg A :=
  Act (LockShard i) (fun o => carry o (fun _ => finally (UnlockShard i) p)).

(** A computation that touches no shared state. *)
Definition local {A} (m : M unit HkvError A) : EProg A := Ret (fst (m tt)).

(** ** The methods

    [n] shards with the mask [mask] and the capacity [max]: what [&self] never
    changes. *)

Section programs.
Context `{Profile} (hash : bytes -> Z) (n : nat) (mask max : Z).

Definition key_shard (key : bytes) : nat := Z.to_nat (Z.land (hash key) mask).

Definition p_lookup (i : nat) (key : bytes) : EProg (option nat) := shard i (gets (fun s => s_map s !! key)).

Definition p_reclaim (i idx : nat) : EProg unit :=
  r ← shard i (remove_idx idx);
  match r with Some size => act (FetchSubUsed size) | None => mret tt end.

(** *** Eviction *)

Fixpoint p_evict_scan (start : Z) (offset left : nat) : EProg bool :=
  match left with
  | O => mret false
  | S left' =>
      x ← local (usize_add start (Z.of_nat offset));
      let i := Z.to_nat (Z.land x mask) in
      r ← guarded i (shard i pop_lru);
      match r with
      | Some size => act (FetchSubUsed size);; mret true
      | None => p_evict_scan start (S offset) left'
      end
  end.

Fixpoint p_evict_loop (fuel : nat) : EProg unit :=
  match fuel with
  | O => Ret Diverge
  | S fuel' =>
      used ← act LoadUsed;
      if (used <=? max)%Z then mret tt
      else
        start ← act FetchAddCursor;
        evicted ← p_evict_scan start 0 n;
        if (evicted : bool) then p_evict_loop fuel' else mret tt
  end.

Definition p_evict_if_needed (fuel : nat) : EProg unit :=
  if bool_decide (max = usize_max) then mret tt else p_evict_loop fuel.

(** *** Writes *)

Definition p_drop_stale (now : Instant) (i : nat) (key : bytes) : EProg unit :=
  found ← p_lookup i key;
  match found with
  | Some idx =>
      node ← shard i (node_at idx);
      if default false ((fun n => is_expired n now) <$> node) then p_reclaim i idx else mret tt
  | None => mret tt
  end.

Definition p_store_value (i : nat) (key value : bytes) (new_size : Z) (expires_at : option Instant)
    : EProg (option (nat * Instant * Z)) :=
  found ← p_lookup i key;
  match found with
  | Some idx =>
      token ← act FetchAddToken;
      node ← shard i (node_at idx);
      match node with
      | Some node =>
          shard i (modify_node_at idx (fun n =>
            mkNode (n_key n) value expires_at token new_size (n_prev n) (n_next n)));;
          shard i (touch idx);;
          let old_size := n_size node in
          if (old_size <? new_size)%Z then act (FetchAddUsed (new_size - old_size))
          else if (new_size <? old_size)%Z then act (FetchSubUsed (old_size - new_size))
          else mret tt
      | None => mret tt
      end;;
      mret ((fun d => (idx, d, token)) <$> expires_at)
  | None =>
      idx ← shard i (insert_new key value new_size);
      act (FetchAddUsed new_size);;
      match expires_at with
      | Some d =>
          token ← act FetchAddToken;
          shard i (modify_node_at idx (fun n =>
            mkNode (n_key n) (n_value n) (Some d) token (n_size n) (n_prev n) (n_next n)));;
          mret (Some (idx, d, token))
      | None => mret None
      end
  end.

(** The deadline is computed, and overflows, under the lock. *)
Definition p_instant_add (now : Instant) (ttl : Duration) : EProg Instant :=
  if (now + ttl <? instant_limit)%Z then mret (now + ttl)%Z else Ret Panic.

Definition p_write_value (fuel : nat) (key value : bytes) (ttl : option Duration) : EProg unit :=
  let i := key_shard key in
  now ← act ReadClock;
  guarded i (
    let new_size := entry_size (length key) (length value) in
    expires_at ← match ttl with
                 | Some d => t ← p_instant_add now d; mret (Some t)
                 | None => mret None
                 end;
    p_drop_stale now i key;;
    scheduled ← p_store_value i key value new_size expires_at;
    match scheduled with
    | Some (idx, d, token) => shard i (schedule_expiration idx d token)
    | None => mret tt
    end);;
  p_evict_if_needed fuel.

(** *** The other methods *)

Definition p_get (key : bytes) : EProg (option bytes) :=
  let i := key_shard key in
  now ← act ReadClock;
  guarded i (
    found ← p_lookup i key;
    match found with
    | None => mret None
    | Some idx =>
        node ← shard i (node_at idx);
        match node with
        | None => mret None
        | Some n =>
            if is_expired n now then p_reclaim i idx;; mret None
            else
              node ← shard i (node_at idx);
              shard i (touch idx);;
              mret (n_value <$> node)
        end
    end).

Definition p_delete (key : bytes) : EProg bool :=
  let i := key_shard key in
  now ← act ReadClock;
  guarded i (
    found ← p_lookup i key;
    match found with
    | None => mret false
    | Some idx =>
        node ← shard i (node_at idx);
        let expired := default false ((fun n => is_expired n now) <$> node) in
        p_reclaim i idx;;
        mret (negb expired)
    end).

Definition p_expire (key : bytes) (ttl : Duration) : EProg unit :=
  let i := key_shard key in
  now ← act ReadClock;
  guarded i (
    found ← p_lookup i key;
    match found with
    | None => Ret (Err NotFound)
    | Some idx =>
        node ← shard i (node_at idx);
        let expired := default false ((fun n => is_expired n now) <$> node) in
        if expired then p_reclaim i idx;; Ret (Err NotFound)
        else
          token ← act FetchAddToken;
          expires_at ← p_instant_add now ttl;
          shard i (modify_node_at idx (fun n =>
            mkNode (n_key n) (n_value n) (Some expires_at) token (n_size n) (n_prev n) (n_next n)));;
          shard i (schedule_expiration idx expires_at token)
    end).

Definition p_ttl (key : bytes) : EProg TtlStatus :=
  let i := key_shard key in
  now ← act ReadClock;
  guarded i (
    found ← p_lookup i key;
    match found with
    | None => mret Missing
    | Some idx =>
        node ← shard i (node_at idx);
        let expired := default false ((fun n => is_expired n now) <$> node) in
        if expired then p_reclaim i idx;; mret Missing
        else
          node ← shard i (node_at idx);
          match node ≫= n_expires_at with
          | None => mret NoExpiry
          | Some deadline =>
              if (deadline <=? now)%Z then p_reclaim i idx;; mret Missing
              else mret (ExpiresIn (deadline - now))
          end
    end).

(** *** The sweeper *)

Fixpoint p_purge_shard (fuel : nat) (now : Instant) (i : nat) (removed : Z) : EProg Z :=
  match fuel with
  | O => Ret Diverge
  | S fuel' =>
      due ← shard i (pop_due_expiration now);
      match due with
      | None => mret removed
      | Some entry =>
          r ← shard i (remove_idx (ee_idx entry));
          match r with
          | Some size => act (FetchSubUsed size);; p_purge_shard fuel' now i (removed + 1)
          | None => p_purge_shard fuel' now i removed
          end
      end
  end.

(** The fuel is the length of the locked shard's heap, of which a turn pops an entry. *)
Fixpoint p_purge_shards (now : Instant) (is_ : list nat) (removed : Z) : EProg Z :=
  match is_ with
  | [] => mret removed
  | i :: is' =>
      removed ← guarded i (
        fuel ← shard i (gets (fun s => length (s_ttl_heap s)));
        p_purge_shard (S fuel) now i removed);
      p_purge_shards now is' removed
  end.

(** One turn of the background thread: [engine.purge_expired(Instant::now())]. *)
Definition p_purge_expired : EProg Z :=
  now ← act ReadClock;
  p_purge_shards now (seq 0 n) 0.

(** ** Calls *)

Inductive Call : Type :=
| CallOp (o : Op)
| CallPurge.

(** [fuel] bounds the turns of the eviction loop. *)
Definition op_prog (fuel : nat) (o : Op) : EProg Reply :=
  match o with
  | OpGet k => v ← p_get k; mret (RValue v)
  | OpSet k v => p_catch (p_write_value fuel k v None)
  | OpSetTtl k v d => p_catch (p_write_value fuel k v (Some d))
  | OpDelete k => b ← p_delete k; mret (RDeleted b)
  | OpExpire k d => p_catch (p_expire k d)
  | OpTtl k => t ← p_ttl k; mret (RTtl t)
  end.

Definition call_prog (fuel : nat) (c : Call) : EProg Answer :=
  match c with
  | CallOp o => r ← op_prog fuel o; mret (AReply r)
  | CallPurge => r ← p_purge_expired; mret (APurged r)
  end.

End programs.

(** ** Threads

    The memory all threads share: the engine, who holds the lock of a shard, and
    how often the clock was read. *)

Record Shared := mkShared {
  sh_engine : MemoryEngine;
  sh_locks : gmap nat nat;
  sh_ticks : nat
}.

Definition on_engine {X} (m : EM X) (w : Shared) : outcome HkvError X * Shared :=
  let '(o, e) := m (sh_engine w) in (o, mkShared e (sh_locks w) (sh_ticks w)).
Definition set_locks (f : gmap nat nat -> gmap nat nat) (w : Shared) : Shared :=
  mkShared (sh_engine w) (f (sh_locks w)) (sh_ticks w).

Abbreviation EThread := (Thread EngineAct HkvError Call Answer).
Abbreviation ESystem := (System EngineAct HkvError Call Answer Shared).
Abbreviation ELabel := (Label HkvError Call Answer).

Section steps.
Context `{Profile} (hash : bytes -> Z) (clock : nat -> Instant) (n : nat) (mask max : Z) (fuel : nat).

(** One action of the thread [t]; none while another one holds the lock. *)
Definition act_run {X} (t : nat) (a : EngineAct X) (w : Shared) : option (X * Shared) :=
  match a in EngineAct X return option (X * Shared) with
  | ReadClock => Some (clock (sh_ticks w), mkShared (sh_engine w) (sh_locks w) (S (sh_ticks w)))
  | LockShard i =>
      match shards (sh_engine w) !! i, sh_locks w !! i with
      | None, _ => Some (Panic, w)
      | Some _, Some _ => None
      | Some _, None => Some (Val tt, set_locks (insert i t) w)
      end
  | UnlockShard i => Some (tt, set_locks (base.delete i) w)
  | WithShard i m => Some (on_engine (on_shard i m) w)
  | FetchAddUsed n => Some (tt, snd (on_engine (used_add n) w))
  | FetchSubUsed n => Some (tt, snd (on_engine (used_sub n) w))
  | LoadUsed => Some (used_bytes (sh_engine w), w)
  | FetchAddCursor =>
      let e := sh_engine w in
      Some (eviction_cursor e, mkShared (with_cursor (wrap64 (eviction_cursor e + 1)) e) (sh_locks w) (sh_ticks w))
  | FetchAddToken =>
      let e := sh_engine w in
      Some (ttl_token e, mkShared (with_token (wrap64 (ttl_token e + 1)) e) (sh_locks w) (sh_ticks w))
  end.

Definition step : nat -> ESystem -> option (option ELabel * ESystem) :=
  thread_step (F := EngineAct) (@act_run) (call_prog hash n mask max fuel).
Definition schedule_run : list nat -> ESystem -> option (list ELabel * ESystem) :=
  threads_run (F := EngineAct) (@act_run) (call_prog hash n mask max fuel).

End steps.

(** The threads with their calls, on an engine that nobody uses. *)
Definition start (e : MemoryEngine) : list (list Call) -> ESystem := all_idle (mkShared e ∅ 0).

(** ** One thread alone *)

(** The same program when nobody else runs: the locks are free. *)
Definition act_alone {X} (now : Instant) (a : EngineAct X) (e : MemoryEngine) : X * MemoryEngine :=
  match a in EngineAct X return X * MemoryEngine with
  | ReadClock => (now, e)
  | LockShard i => (match shards e !! i with Some _ => Val tt | None => Panic end, e)
  | UnlockShard i => (tt, e)
  | WithShard i m => on_shard i m e
  | FetchAddUsed n => (tt, snd (used_add n e))
  | FetchSubUsed n => (tt, snd (used_sub n e))
  | LoadUsed => (used_bytes e, e)
  | FetchAddCursor => (eviction_cursor e, with_cursor (wrap64 (eviction_cursor e + 1)) e)
  | FetchAddToken => (ttl_token e, with_token (wrap64 (ttl_token e + 1)) e)
  end.

Definition alone {A} (now : Instant) (p : EProg A) : EM A := prog_run (F := EngineAct) (fun X => @act_alone X now) p.
