(* ===== verification/EngineConcSpec.v ===== *)
(** * What concurrent callers of the engine are promised (hkv-engine/src/engine.rs)

    The engine as an atomic object: a call takes effect at one point between its
    invocation and its return, on a sharded LRU cache. A writer on an engine with
    a capacity may drop least recently used entries before it returns, and the
    sweeper removes what expired shard by shard. EngineConcThms.v proves that the
    programs of EngineConc.v implement this. *)

From S2P Require Import Prelude Threads Errors KVEngine LruSpec Shard Engine EngineSpec EngineKV EngineThms EngineConc.

(** ** Operations on one shard *)

Definition op_key (o : Op) : bytes :=
  match o with OpGet k | OpSet k _ | OpSetTtl k _ _ | OpDelete k | OpExpire k _ | OpTtl k => k end.

Definition is_write (o : Op) : bool := match o with OpSet _ _ | OpSetTtl _ _ _ => true | _ => false end.

(** Drop an expired entry, or go on with the live one. *)
Definition on_live {R} (now : Instant) (k : bytes) (l : lru) (missing : R) (f : Entry -> R * lru) : R * lru :=
  match find_key k l with
  | None => (missing, l)
  | Some e => if e_expired now e then (missing, drop_key k l) else f e
  end.

Definition lru_op (now : Instant) (o : Op) (l : lru) : Reply * lru :=
  match o with
  | OpGet k => on_live now k l (RValue None) (fun e => (RValue (Some (e_value e)), put e l))
  | OpSet k v => (RDone (Ok tt), put (mkE k v None) l)
  | OpSetTtl k v d => (RDone (Ok tt), put (mkE k v (Some (now + d)%Z)) l)
  | OpDelete k => on_live now k l (RDeleted false) (fun _ => (RDeleted true, drop_key k l))
  | OpExpire k d =>
      on_live now k l (RDone (Error NotFound)) (fun _ => (RDone (Ok tt), set_deadline k (Some (now + d)%Z) l))
  | OpTtl k =>
      on_live now k l (RTtl Missing) (fun e =>
        (RTtl (match e_deadline e with None => NoExpiry | Some t => ExpiresIn (t - now) end), l))
  end.

(** ** The atomic object *)

(** A thread is idle, was called, has read the clock, is sweeping the [i]-th
    shard, or has taken effect. *)
Inductive APhase : Type :=
| AIdle
| ACalled (c : Call)
| ATimed (o : Op) (now : Instant)
| APurging (now : Instant) (i : nat) (removed : Z)
| ADone (o : Op) (r : Reply).

Definition timed (c : Call) (now : Instant) : APhase :=
  match c with CallOp o => ATimed o now | CallPurge => APurging now 0 0 end.

Record AState := mkAState {
  a_shards : list lru;
  a_threads : list (list Call * APhase);
  a_ticks : nat
}.

Section automaton.
Context (hash : bytes -> Z) (clock : nat -> Instant) (bounded : bool).

Definition op_shard (n : nat) (o : Op) : nat := Z.to_nat (hash (op_key o) mod Z.of_nat n).

Inductive astep : AState -> option ELabel -> AState -> Prop :=
| a_invoke ls ths ticks t c cs :
    ths !! t = Some (c :: cs, AIdle) ->
    astep (mkAState ls ths ticks) (Some (Invoked t c)) (mkAState ls (<[t := (cs, ACalled c)]> ths) ticks)
| a_clock ls ths ticks t c cs :
    ths !! t = Some (cs, ACalled c) ->
    astep (mkAState ls ths ticks) None (mkAState ls (<[t := (cs, timed c (clock ticks))]> ths) (S ticks))
| a_effect ls ths ticks t o now cs l :
    let i := op_shard (length ls) o in
    ths !! t = Some (cs, ATimed o now) -> ls !! i = Some l ->
    astep (mkAState ls ths ticks) None
      (mkAState (<[i := snd (lru_op now o l)]> ls) (<[t := (cs, ADone o (fst (lru_op now o l)))]> ths) ticks)
| a_sweep ls ths ticks t now i removed cs l :
    ths !! t = Some (cs, APurging now i removed) -> ls !! i = Some l ->
    let removed' := (removed + Z.of_nat (length l) - Z.of_nat (length (live now l)))%Z in
    astep (mkAState ls ths ticks) None
      (mkAState (<[i := live now l]> ls) (<[t := (cs, APurging now (S i) removed')]> ths) ticks)
| a_evict ls ths ticks t o r cs i e l :
    bounded = true -> is_write o = true -> ths !! t = Some (cs, ADone o r) -> ls !! i = Some (e :: l) ->
    astep (mkAState ls ths ticks) None (mkAState (<[i := l]> ls) ths ticks)
| a_return ls ths ticks t o r cs :
    ths !! t = Some (cs, ADone o r) ->
    astep (mkAState ls ths ticks) (Some (Returned t (Val (AReply r)))) (mkAState ls (<[t := (cs, AIdle)]> ths) ticks)
| a_swept ls ths ticks t now removed cs :
    ths !! t = Some (cs, APurging now (length ls) removed) ->
    astep (mkAState ls ths ticks) (Some (Returned t (Val (APurged removed)))) (mkAState ls (<[t := (cs, AIdle)]> ths) ticks).

Inductive aexec : AState -> list ELabel -> AState -> Prop :=
| aexec_refl a : aexec a [] a
| aexec_step a lab a' tr a'' : astep a lab a' -> aexec a' tr a'' -> aexec a (option_list lab ++ tr) a''.

End automaton.

Definition astart (ls : list lru) (calls : list (list Call)) : AState :=
  mkAState ls ((fun cs => (cs, AIdle)) <$> calls) 0.
