(* ===== verification/EngineConcWp.v ===== *)
(** * A program logic for the engine's programs (hkv-engine/src/memory.rs)

    What a program of EngineConc.v may rely on and must keep, one action at a
    time, as a predicate on programs: a lock gives a well-formed shard and wants
    one back, together with an effect of the atomic object of EngineConcSpec.v;
    bytes are counted when they come and go. Every method satisfies it;
    EngineConcThms.v derives the behaviour of all threads together. *)

From S2P Require Import Prelude Threads Errors KVEngine LruSpec Shard Dll ShardRefine Engine EngineSpec EngineRefine.
From S2P Require Import EngineKV EngineThms EngineConc EngineConcSpec.

(** ** Views

    What a thread has to do about the capacity: nothing, its write, the test of
    [used_bytes], a scan whose visited shards were empty, or the subtraction for
    the entry it dropped. *)
Inductive Duty : Type :=
| Free
| InWrite
| AtTest
| Scanning (visited : list nat)
| Popped.

#[global] Instance Duty_eq_dec : EqDecision Duty.
Proof. solve_decision. Defined.

Record View := mkView {
  v_phase : APhase;
  (** the shard it has locked: its index, what it holds now, its list when it was locked *)
  v_held : option (nat * ShardInner * lru);
  (** bytes of its effects that [used_bytes] does not yet have, or has too much *)
  v_owed : Z;
  v_duty : Duty;
  (** bytes it may still add *)
  v_credit : Z;
  (** a bound on the entries there will be *)
  v_room : nat
}.

Definition held_size (v : View) : Z := match v_held v with Some (_, _, l) => total_size l | None => 0 end.

Definition op_duty (o : Op) : Duty := if is_write o then InWrite else Free.
Definition op_bytes (o : Op) : Z :=
  match o with OpSet k v | OpSetTtl k v _ => e_size (mkE k v None) | _ => 0 end.
Definition call_duty (c : Call) : Duty := match c with CallOp o => op_duty o | CallPurge => Free end.
Definition call_bytes (c : Call) : Z := match c with CallOp o => op_bytes o | CallPurge => 0 end.

Definition idle_view (room : nat) : View := mkView AIdle None 0 Free 0 room.
Definition called_view (c : Call) (room : nat) : View := mkView (ACalled c) None 0 (call_duty c) (call_bytes c) room.

Definition after_sub (d : Duty) : Duty := match d with Popped => AtTest | _ => d end.

Section wp.
Context (hash : bytes -> Z) (clock : nat -> Instant) (n : nat) (max : Z).

(** What the end of a critical section on shard [i] does to the object. *)
Inductive effect (i : nat) : APhase * Duty * nat -> lru -> APhase * Duty * nat -> lru -> Prop :=
| ef_op o now m l :
    op_shard hash n o = i ->
    effect i (ATimed o now, op_duty o, m) l
      (ADone o (fst (lru_op now o l)), if is_write o then AtTest else Free, m) (snd (lru_op now o l))
| ef_sweep now removed m l :
    effect i (APurging now i removed, Free, m) l
      (APurging now (S i) (removed + Z.of_nat (length l) - Z.of_nat (length (live now l)))%Z, Free, m) (live now l)
| ef_evict o r visited m e l :
    is_write o = true -> bool_decide (max = usize_max) = false ->
    effect i (ADone o r, Scanning visited, S m) (e :: l) (ADone o r, Popped, m) l
| ef_empty o r visited m :
    effect i (ADone o r, Scanning visited, m) [] (ADone o r, Scanning (i :: visited), m) [].

Definition unlocked (i : nat) (v v' : View) : Prop :=
  exists s l ph d m l', v_held v = Some (i, s, l) /\ shard_rep s l'
    /\ effect i (v_phase v, v_duty v, v_room v) l (ph, d, m) l'
    /\ (v_owed v + total_size l' - total_size l <= 0)%Z /\ (d <> Popped -> (v_owed v + total_size l' - total_size l)%Z = 0%Z)
    /\ v' = mkView ph None (v_owed v + total_size l' - total_size l) d (v_credit v) m.

Definition set_held (h : option (nat * ShardInner * lru)) (v : View) : View :=
  mkView (v_phase v) h (v_owed v) (v_duty v) (v_credit v) (v_room v).
Definition set_phase (ph : APhase) (v : View) : View :=
  mkView ph (v_held v) (v_owed v) (v_duty v) (v_credit v) (v_room v).
Definition set_duty (d : Duty) (v : View) : View :=
  mkView (v_phase v) (v_held v) (v_owed v) d (v_credit v) (v_room v).

Definition wp_act {X} (a : EngineAct X) (v : View) : (X -> View -> Prop) -> Prop :=
  match a in EngineAct X return (X -> View -> Prop) -> Prop with
  | ReadClock => fun R =>
      v_held v = None /\ exists c, v_phase v = ACalled c /\ forall j, R (clock j) (set_phase (timed c (clock j)) v)
  | LockShard i => fun R =>
      v_held v = None /\ i < n
      /\ forall s l, shard_rep s l -> length l <= v_room v -> R (Val tt) (set_held (Some (i, s, l)) v)
  | UnlockShard i => fun R => exists v', unlocked i v v' /\ R tt v'
  | WithShard i m => fun R =>
      exists s l, v_held v = Some (i, s, l) /\ R (fst (m s)) (set_held (Some (i, snd (m s), l)) v)
  | FetchAddUsed b => fun R =>
      v_duty v = InWrite /\ (0 <= b <= v_credit v)%Z
      /\ R tt (mkView (v_phase v) (v_held v) (v_owed v - b) InWrite (v_credit v - b) (v_room v))
  | FetchSubUsed b => fun R =>
      (0 <= b)%Z /\ (v_owed v + b <= held_size v)%Z /\ (v_duty v = Popped -> (v_owed v + b)%Z = 0%Z)
      /\ R tt (mkView (v_phase v) (v_held v) (v_owed v + b) (after_sub (v_duty v)) (v_credit v) (v_room v))
  | LoadUsed => fun R =>
      v_duty v = AtTest /\ forall u, R u (set_duty (if (u <=? max)%Z then Free else Scanning []) v)
  | FetchAddCursor => fun R => forall c, R c v
  | FetchAddToken => fun R => forall t, R t v
  end.

Fixpoint wp {A} (p : EProg A) (v : View) (Q : outcome HkvError A -> View -> Prop) : Prop :=
  match p with
  | Ret o => Q o v
  | Act a k => wp_act a v (fun x v' => wp (k x) v' Q)
  end.

(** ** Rules *)

Lemma wp_act_mono {X} (a : EngineAct X) v (R R' : X -> View -> Prop) :
  (forall x v', R x v' -> R' x v') -> wp_act a v R -> wp_act a v R'.
Proof. intros HR. destruct a; simpl; naive_solver. Qed.

Lemma wp_mono {A} (p : EProg A) : forall v (Q Q' : outcome HkvError A -> View -> Prop),
  (forall o v', Q o v' -> Q' o v') -> wp p v Q -> wp p v Q'.
Proof.
  induction p as [o|X a k IH]; intros v Q Q' HQ; simpl; [apply HQ|].
  apply wp_act_mono. intros x v'. by apply IH.
Qed.

Lemma wp_bind {A B} (p : EProg A) (k : A -> EProg B) : forall v Q,
  wp p v (fun o v' => wp (carry o k) v' Q) -> wp (p ≫= k) v Q.
Proof.
  induction p as [o|X a c IH]; intros v Q; simpl; [done|].
  apply wp_act_mono. intros x v'. apply IH.
Qed.

Lemma wp_catch (p : EProg unit) : forall v Q,
  wp p v (fun o v' => wp (p_catch (Ret o)) v' Q) -> wp (p_catch p) v Q.
Proof.
  induction p as [o|X a c IH]; intros v Q; simpl; [done|].
  apply wp_act_mono. intros x v'. apply IH.
Qed.

Lemma wp_finally {A} u (p : EProg A) : forall v Q,
  wp p v (fun o v' => wp_act u v' (fun _ v'' => Q o v'')) -> wp (finally u p) v Q.
Proof.
  induction p as [o|X a c IH]; intros v Q; simpl; [done|].
  apply wp_act_mono. intros x v'. apply IH.
Qed.

Lemma wp_guarded {A} i (p : EProg A) v Q :
  v_held v = None -> i < n ->
  (forall s l, shard_rep s l -> length l <= v_room v ->
    wp p (set_held (Some (i, s, l)) v) (fun o v' => exists v'', unlocked i v' v'' /\ Q o v'')) ->
  wp (guarded i p) v Q.
Proof.
  intros Hh Hi Hp. cbn [guarded wp wp_act]. split_and!; try done. intros s l Hs Hl. cbn [carry].
  apply wp_finally. by apply Hp.
Qed.

Lemma wp_shard {A} i (m : M ShardInner HkvError A) v s l o s' (Q : outcome HkvError A -> View -> Prop) :
  v_held v = Some (i, s, l) -> m s = (o, s') -> Q o (set_held (Some (i, s', l)) v) -> wp (shard i m) v Q.
Proof. intros Hh E HQ. cbn. exists s, l. rewrite E. by split. Qed.

End wp.

(** ** Critical sections *)

Lemma lookup_shard s l k :
  shard_rep s l ->
  match s_map s !! k with
  | None => find_key k l = None
  | Some idx => exists nd, s_nodes s !! idx = Some (Some nd) /\ n_key nd = k
      /\ find_key k l = Some (entry_of (payload nd))
      /\ is_expired nd = fun now => e_expired now (entry_of (payload nd))
  end.
Proof.
  intros Hr. destruct (s_map s !! k) as [idx|] eqn:Hk.
  - destruct (rep_lookup_Some _ _ _ _ _ Hr Hk) as (nd & Hn & Hkey & Hf & _). by exists nd.
  - by apply (rep_lookup_None None s).
Qed.

Lemma total_size_drop_le k l : NoDup (keys l) -> (total_size (drop_key k l) <= total_size l)%Z.
Proof.
  intros Hnd. destruct (find_key k l) as [e|] eqn:Hf.
  - rewrite (total_size_drop _ _ _ Hnd Hf). pose proof (e_size_nonneg e). lia.
  - by rewrite drop_key_notin by (by apply find_key_None).
Qed.

Section sections.
Context `{Profile} (hash : bytes -> Z) (clock : nat -> Instant) (n : nat) (mask max : Z).
Context (i : nat) (l0 : lru) (ph : APhase) (m : nat).

Abbreviation wp := (wp hash clock n max).

(** Inside the section, with the list [l] so far. *)
Definition inside (s : ShardInner) (l : lru) (d : Duty) (c : Z) : View :=
  mkView ph (Some (i, s, l0)) (total_size l0 - total_size l) d c m.

Lemma wp_lookup s l d c k (Q : outcome HkvError (option nat) -> View -> Prop) :
  Q (Val (s_map s !! k)) (inside s l d c) -> wp (p_lookup i k) (inside s l d c) Q.
Proof. intros HQ. unfold p_lookup. by eapply wp_shard. Qed.

Lemma wp_node_at s l d c idx o (Q : outcome HkvError (option Node) -> View -> Prop) :
  s_nodes s !! idx = Some o -> Q (Val o) (inside s l d c) -> wp (shard i (node_at idx)) (inside s l d c) Q.
Proof. intros Hn HQ. eapply wp_shard; [done|by apply node_at_run|done]. Qed.

Lemma wp_reclaim s l d c idx nd (Q : outcome HkvError unit -> View -> Prop) :
  shard_rep_ex (Some idx) s l -> s_nodes s !! idx = Some (Some nd) -> d <> Popped ->
  (total_size l <= total_size l0)%Z ->
  (forall s', shard_rep s' (drop_key (n_key nd) l) -> Q (Val tt) (inside s' (drop_key (n_key nd) l) d c)) ->
  wp (p_reclaim i idx) (inside s l d c) Q.
Proof.
  intros Hr Hn Hd Hle HQ. destruct (remove_idx_rep (E:=HkvError) s l idx nd Hr Hn) as (s' & E1 & Hr').
  destruct (rep_live _ _ _ _ _ Hr Hn) as [Hf Hz].
  pose proof (total_size_drop _ _ _ (rep_NoDup _ _ _ Hr) Hf) as Ht.
  pose proof (e_size_nonneg (entry_of (payload nd))). pose proof (total_size_nonneg (drop_key (n_key nd) l)).
  unfold p_reclaim. apply wp_bind. eapply wp_shard; [done|exact E1|]. cbn -[total_size].
  split_and!; [lia|unfold held_size; cbn -[total_size]; lia|done|].
  specialize (HQ s' Hr'). unfold inside in HQ. rewrite Ht in HQ.
  replace (after_sub d) with d by (by destruct d). by rewrite Hz, <- Z.sub_sub_distr.
Qed.

(** How the section of [o] ends: with its answer, and the shard as the specification has it. *)
Definition section_post {A} (o : Op) (now : Instant) (answers : Reply -> outcome HkvError A -> Prop)
    (out : outcome HkvError A) (v : View) : Prop :=
  exists s c, answers (fst (lru_op now o l0)) out /\ (0 <= c)%Z
    /\ v = inside s (snd (lru_op now o l0)) (op_duty o) c /\ shard_rep s (snd (lru_op now o l0)).

End sections.

Ltac wstep := first [apply wp_bind | progress cbn [carry]].
Ltac wshard E := apply wp_bind; eapply wp_shard; [reflexivity|exact E|]; cbn [carry].

Section methods.
Context `{Profile} (hash : bytes -> Z) (clock : nat -> Instant) (n : nat) (mask max : Z).

Abbreviation wp := (wp hash clock n max).

(** The critical section of each method that does not write. *)
Lemma get_section i ph m s l now k c :
  shard_rep s l -> (0 <= c)%Z ->
  wp (found ← p_lookup i k;
    match found with
    | None => mret None
    | Some idx =>
        node ← shard i (node_at idx);
        match node with
        | None => mret None
        | Some nd =>
            if is_expired nd now then p_reclaim i idx;; mret None
            else
              node ← shard i (node_at idx);
              shard i (touch idx);;
              mret (n_value <$> node)
        end
    end) (inside i l ph m s l Free c)
    (section_post i l ph m (OpGet k) now (fun r out => exists v, r = RValue v /\ out = Val v)).
Proof.
  intros Hr Hc. apply wp_bind, wp_lookup. cbn [carry]. unfold section_post. simpl lru_op. unfold on_live.
  pose proof (lookup_shard s l k Hr) as Hlk. destruct (s_map s !! k) as [idx|].
  2: { rewrite Hlk. exists s, c. by split_and!; [exists None|..]. }
  destruct Hlk as (nd & Hn & <- & Hf & Hx). rewrite Hf. apply wp_bind. eapply wp_node_at; [done|]. cbn [carry].
  rewrite Hx. destruct (e_expired now _) eqn:He.
  - apply wp_bind. apply (wp_reclaim _ _ _ _ _ _ _ _ s l Free c idx nd); [by apply rep_weaken|done..|].
    intros s' Hr'. exists s', c. by split_and!; [exists None|..].
  - apply wp_bind. eapply wp_node_at; [done|]. cbn [carry].
    destruct (touch_rep (E:=HkvError) None s l idx nd Hr Hn) as (s' & n' & E1 & Hr' & _).
    wshard E1. exists s', c. split_and!; [by eexists|done| |done].
    cbn [snd]. unfold inside, set_held. cbn [v_phase v_owed v_duty v_credit v_room]. f_equal.
    rewrite (total_size_put_old (entry_of (payload nd)) _ l (rep_NoDup _ _ _ Hr) Hf). lia.
Qed.

Lemma delete_section i ph m s l now k c :
  shard_rep s l -> (0 <= c)%Z ->
  wp (found ← p_lookup i k;
    match found with
    | None => mret false
    | Some idx =>
        node ← shard i (node_at idx);
        let expired := default false ((fun nd => is_expired nd now) <$> node) in
        p_reclaim i idx;;
        mret (negb expired)
    end) (inside i l ph m s l Free c)
    (section_post i l ph m (OpDelete k) now (fun r out => exists b, r = RDeleted b /\ out = Val b)).
Proof.
  intros Hr Hc. apply wp_bind, wp_lookup. cbn [carry]. unfold section_post. simpl lru_op. unfold on_live.
  pose proof (lookup_shard s l k Hr) as Hlk. destruct (s_map s !! k) as [idx|].
  2: { rewrite Hlk. exists s, c. by split_and!; [exists false|..]. }
  destruct Hlk as (nd & Hn & <- & Hf & Hx). rewrite Hf. apply wp_bind. eapply wp_node_at; [done|]. cbn [carry].
  apply wp_bind. apply (wp_reclaim _ _ _ _ _ _ _ _ s l Free c idx nd); [by apply rep_weaken|done..|].
  intros s' Hr'. exists s', c. cbn. rewrite Hx. destruct (e_expired now _); by split_and!; [eexists|..].
Qed.

Lemma ttl_section i ph m s l now k c :
  shard_rep s l -> (0 <= c)%Z ->
  wp (found ← p_lookup i k;
    match found with
    | None => mret Missing
    | Some idx =>
        node ← shard i (node_at idx);
        let expired := default false ((fun nd => is_expired nd now) <$> node) in
        if expired then p_reclaim i idx;; mret Missing
        else
          node ← shard i (node_at idx);
          match node ≫= n_expires_at with
          | None => mret NoExpiry
          | Some deadline =>
              if (deadline <=? now)%Z then p_reclaim i idx;; mret Missing
              else mret (ExpiresIn (deadline - now))
          end
    end) (inside i l ph m s l Free c)
    (section_post i l ph m (OpTtl k) now (fun r out => exists t, r = RTtl t /\ out = Val t)).
Proof.
  intros Hr Hc. apply wp_bind, wp_lookup. cbn [carry]. unfold section_post. simpl lru_op. unfold on_live.
  pose proof (lookup_shard s l k Hr) as Hlk. destruct (s_map s !! k) as [idx|].
  2: { rewrite Hlk. exists s, c. by split_and!; [exists Missing|..]. }
  destruct Hlk as (nd & Hn & <- & Hf & Hx). rewrite Hf. apply wp_bind. eapply wp_node_at; [done|]. cbn [carry].
  change (default false _) with (is_expired nd now). rewrite Hx. destruct (e_expired now _) eqn:He.
  - apply wp_bind. apply (wp_reclaim _ _ _ _ _ _ _ _ s l Free c idx nd); [by apply rep_weaken|done..|].
    intros s' Hr'. exists s', c. by split_and!; [exists Missing|..].
  - apply wp_bind. eapply wp_node_at; [done|]. cbn. unfold e_expired in He. cbn in He.
    destruct (n_expires_at nd) as [d|]; [rewrite He|]; exists s, c; by split_and!; [eexists|..].
Qed.

Lemma expire_section i ph m s l now k d c :
  shard_rep s l -> (0 <= c)%Z -> (now + d < instant_limit)%Z ->
  wp (found ← p_lookup i k;
    match found with
    | None => Ret (Err NotFound)
    | Some idx =>
        node ← shard i (node_at idx);
        let expired := default false ((fun nd => is_expired nd now) <$> node) in
        if expired then p_reclaim i idx;; Ret (Err NotFound)
        else
          token ← act FetchAddToken;
          expires_at ← p_instant_add now d;
          shard i (modify_node_at idx (fun nd =>
            mkNode (n_key nd) (n_value nd) (Some expires_at) token (n_size nd) (n_prev nd) (n_next nd)));;
          shard i (schedule_expiration idx expires_at token)
    end) (inside i l ph m s l Free c)
    (section_post i l ph m (OpExpire k d) now (fun r out =>
       exists u, r = RDone u /\ out = match u with Ok u => Val u | Error e => Err e end)).
Proof.
  intros Hr Hc Hd. apply wp_bind, wp_lookup. cbn [carry]. unfold section_post. simpl lru_op. unfold on_live.
  pose proof (lookup_shard s l k Hr) as Hlk. destruct (s_map s !! k) as [idx|].
  2: { rewrite Hlk. exists s, c. by split_and!; [eexists|..]. }
  destruct Hlk as (nd & Hn & <- & Hf & Hx). rewrite Hf. apply wp_bind. eapply wp_node_at; [done|]. cbn [carry].
  change (default false _) with (is_expired nd now). rewrite Hx. destruct (e_expired now _) eqn:He.
  - apply wp_bind. apply (wp_reclaim _ _ _ _ _ _ _ _ s l Free c idx nd); [by apply rep_weaken|done..|].
    intros s' Hr'. exists s', c. by split_and!; [eexists|..].
  - apply wp_bind. cbn [act wp_act EngineConcWp.wp]. intros t. cbn [carry]. apply wp_bind. unfold p_instant_add.
    rewrite (proj2 (Z.ltb_lt _ _) Hd). cbn [mret prog_ret EngineConcWp.wp carry].
    set (f := fun nd => mkNode _ _ _ _ _ _ _).
    destruct (update_rep (E:=HkvError) s l idx nd f) as (l1 & l2 & E1 & Hsplit & Hni & Hr1 & Hn1);
      [done..|by destruct (rep_live _ _ _ _ _ Hr Hn)|].
    destruct (schedule_rep (E:=HkvError) _ _ _ _ (now + d) Hr1 Hn1) as (s2 & E2 & Hr2); [done|].
    wshard E1. eapply wp_shard; [reflexivity|exact E2|].
    assert (set_deadline (n_key nd) (Some (now + d)%Z) l = l1 ++ entry_of (payload (f nd)) :: l2) as Hset.
    { rewrite Hsplit. by rewrite set_deadline_middle. }
    exists s2, c. cbn [snd fst]. rewrite Hset. split_and!; [by eexists|done| |done].
    unfold inside, set_held. cbn [v_phase v_owed v_duty v_credit v_room]. f_equal.
    rewrite Hsplit, !total_size_app. cbn [total_size]. unfold e_size. simpl. lia.
Qed.

(** *** Writes *)

Section write.
Context (i : nat) (l0 : lru) (ph : APhase) (m : nat).

Abbreviation inside := (inside i l0 ph m).

Lemma drop_stale_section s l now k c (Q : outcome HkvError unit -> View -> Prop) :
  shard_rep s l -> (total_size l <= total_size l0)%Z ->
  (forall s' l', shard_rep s' l' -> l' = l \/ l' = drop_key k l -> Q (Val tt) (inside s' l' InWrite c)) ->
  wp (p_drop_stale now i k) (inside s l InWrite c) Q.
Proof.
  intros Hr Hle HQ. apply wp_bind, wp_lookup. cbn [carry].
  pose proof (lookup_shard s l k Hr) as Hlk. destruct (s_map s !! k) as [idx|]; [|apply HQ; auto].
  destruct Hlk as (nd & Hn & <- & Hf & Hx). apply wp_bind. eapply wp_node_at; [done|]. cbn [carry].
  change (default false _) with (is_expired nd now). destruct (is_expired nd now); [|apply HQ; auto].
  apply (wp_reclaim _ _ _ _ _ _ _ _ s l InWrite c idx nd); [by apply rep_weaken|done..|]. intros s' Hr'.
  apply HQ; auto.
Qed.

(** The accounting of an overwrite. *)
Lemma adjust_section s l old new c (Q : outcome HkvError unit -> View -> Prop) :
  (0 <= old)%Z -> (0 <= new <= c)%Z -> (old <= total_size l)%Z ->
  (forall c', (0 <= c')%Z ->
    Q (Val tt) (mkView ph (Some (i, s, l0)) (total_size l0 - (total_size l - old + new)) InWrite c' m)) ->
  wp (if (old <? new)%Z then act (FetchAddUsed (new - old))
      else if (new <? old)%Z then act (FetchSubUsed (old - new)) else mret tt) (inside s l InWrite c) Q.
Proof.
  intros Ho Hn Hle HQ. destruct (Z.ltb_spec old new); [|destruct (Z.ltb_spec new old)]; cbn -[total_size].
  - split_and!; [done|lia..|]. specialize (HQ (c - (new - old))%Z ltac:(lia)).
    by replace (total_size l0 - total_size l - (new - old))%Z with (total_size l0 - (total_size l - old + new))%Z by lia.
  - unfold held_size. cbn -[total_size]. split_and!; [lia|lia|done|]. specialize (HQ c ltac:(lia)).
    by replace (total_size l0 - total_size l + (old - new))%Z with (total_size l0 - (total_size l - old + new))%Z by lia.
  - specialize (HQ c ltac:(lia)). unfold inside, EngineConcWp.inside.
    by replace (total_size l0 - (total_size l - old + new))%Z with (total_size l0 - total_size l)%Z in HQ by lia.
Qed.

Definition p_schedule (o : option (nat * Instant * Z)) : EProg unit :=
  match o with Some (idx, d, token) => shard i (schedule_expiration idx d token) | None => mret tt end.

Lemma overwrite_section k v d s l idx nd c :
  let ent := mkE k v d in
  shard_rep s l -> (e_size ent <= c)%Z -> s_map s !! k = Some idx ->
  s_nodes s !! idx = Some (Some nd) -> n_key nd = k ->
  wp (p_store_value i k v (e_size ent) d ≫= p_schedule) (inside s l InWrite c)
    (fun out v' => out = Val tt /\ exists s' c', (0 <= c')%Z /\ v' = inside s' (put ent l) InWrite c'
       /\ shard_rep s' (put ent l)).
Proof.
  intros ent Hr Hc Hk Hn <-. apply wp_bind. unfold p_store_value. apply wp_bind, wp_lookup. cbn [carry]. rewrite Hk.
  apply wp_bind. cbn [act wp_act EngineConcWp.wp]. intros t. cbn [carry]. apply wp_bind. eapply wp_node_at; [done|].
  cbn [carry].
  set (f := fun nd => mkNode _ _ _ _ _ _ _).
  destruct (update_rep (E:=HkvError) s l idx nd f) as (l1 & l2 & E1 & Hsplit & Hni & Hr1 & Hn1); [done..|].
  destruct (touch_rep (E:=HkvError) _ _ _ _ _ Hr1 Hn1) as (s2 & n2 & E2 & Hr2 & Hn2 & Hp2).
  assert (put (entry_of (payload (f nd))) (l1 ++ entry_of (payload (f nd)) :: l2) = put ent l) as Hput.
  { rewrite Hsplit. by apply put_middle_put. }
  rewrite Hput in Hr2. destruct (rep_live _ _ _ _ _ Hr Hn) as [Hf Hz].
  pose proof (total_size_put_old ent _ l (rep_NoDup _ _ _ Hr) Hf) as Ht. rewrite <- Hz in Ht.
  pose proof (total_size_drop _ _ _ (rep_NoDup _ _ _ Hr) Hf) as Hd. rewrite <- Hz in Hd.
  pose proof (total_size_nonneg (drop_key (n_key nd) l)). pose proof (e_size_nonneg ent).
  pose proof (e_size_nonneg (entry_of (payload nd))).
  apply wp_bind. wshard E1. wshard E2.
  change (set_held _ (set_held _ _)) with (inside s2 l InWrite c). apply adjust_section; [lia..|]. intros c' Hc'. cbn [carry].
  rewrite <- Ht. unfold mret, prog_ret. cbn [EngineConcWp.wp carry].
  pose proof (f_equal p_expires_at Hp2) as Hd2. pose proof (f_equal p_token Hp2) as Ht2. simpl in Hd2, Ht2.
  destruct d as [d|]; cbn [p_schedule fmap option_fmap option_map].
  - destruct (schedule_rep (E:=HkvError) _ _ _ _ d Hr2 Hn2 Hd2) as (s3 & E3 & Hr3). rewrite Ht2 in E3.
    eapply wp_shard; [reflexivity|exact E3|]. split; [done|]. by exists s3, c'.
  - split; [done|]. exists s2, c'. split_and!; try done. by apply (no_deadline_rep _ _ _ _ Hr2 Hn2).
Qed.

Lemma insert_section k v d s l c :
  let ent := mkE k v d in
  shard_rep s l -> (e_size ent <= c)%Z -> s_map s !! k = None ->
  wp (p_store_value i k v (e_size ent) d ≫= p_schedule) (inside s l InWrite c)
    (fun out v' => out = Val tt /\ exists s' c', (0 <= c')%Z /\ v' = inside s' (put ent l) InWrite c'
       /\ shard_rep s' (put ent l)).
Proof.
  intros ent Hr Hc Hk. assert (find_key k l = None) as Hf by by apply (rep_lookup_None None s).
  apply wp_bind. unfold p_store_value. apply wp_bind, wp_lookup. cbn [carry]. rewrite Hk.
  destruct (insert_new_rep (E:=HkvError) s l k v (e_size ent) Hr Hk) as (s1 & idx & nd & E1 & Hr1 & Hn1 & Hp1); [done|].
  wshard E1. apply wp_bind. cbn [act wp_act EngineConcWp.wp v_duty v_credit]. pose proof (e_size_nonneg ent).
  split_and!; [done|done|done|]. cbn [carry].
  rewrite (put_new ent l Hf). 
  assert (forall h, mkView ph h (total_size l0 - total_size l - e_size ent) InWrite (c - e_size ent) m
    = mkView ph h (total_size l0 - total_size (l ++ [ent])) InWrite (c - e_size ent) m) as Hv.
  { intros h. f_equal. rewrite total_size_app. cbn [total_size]. lia. }
  cbn [v_phase v_held v_owed v_duty v_credit v_room set_held EngineConcWp.inside]. rewrite Hv.
  destruct d as [d|].
  - apply wp_bind. cbn [act wp_act EngineConcWp.wp]. intros t. cbn [carry].
    set (f := fun nd => mkNode _ _ _ _ _ _ _). injection Hp1 as Hkn Hvn Hdn Htn Hzn.
    destruct (update_rep (E:=HkvError) s1 _ idx nd f Hr1 Hn1) as (l1 & l2 & E3 & Hsplit & Hni & Hr2 & Hn2);
      [done..|simpl; rewrite Hzn; unfold e_size; simpl; by rewrite Hkn, Hvn|].
    destruct (schedule_rep (E:=HkvError) _ _ _ _ d Hr2 Hn2) as (s3 & E4 & Hr3); [done|].
    wshard E3. unfold mret, prog_ret. cbn [EngineConcWp.wp carry p_schedule].
    eapply wp_shard; [reflexivity|exact E4|]. split; [done|]. exists s3, (c - e_size ent)%Z. split_and!; [lia|done|].
    replace (l ++ [ent]) with (l1 ++ entry_of (payload (f nd)) :: l2); [done|].
    apply (f_equal (set_deadline k (Some d))) in Hsplit.
    rewrite set_deadline_middle in Hsplit; [|rewrite app_nil_r; by apply find_key_None|done].
    rewrite set_deadline_middle in Hsplit; [|by rewrite <- Hkn|done]. done.
  - split; [done|]. exists s1, (c - e_size ent)%Z. split_and!; [lia|done|done].
Qed.

Lemma store_section k v d s l c :
  let ent := mkE k v d in
  shard_rep s l -> (e_size ent <= c)%Z ->
  wp (p_store_value i k v (e_size ent) d ≫= p_schedule) (inside s l InWrite c)
    (fun out v' => out = Val tt /\ exists s' c', (0 <= c')%Z /\ v' = inside s' (put ent l) InWrite c'
       /\ shard_rep s' (put ent l)).
Proof.
  intros ent Hr Hc. destruct (s_map s !! k) as [idx|] eqn:Hk; [|by apply insert_section].
  destruct (rep_lookup_Some _ _ _ _ _ Hr Hk) as (nd & Hn & Hkey & _). by apply (overwrite_section k v d s l idx nd).
Qed.

End write.

Definition write_body (i : nat) (k v : bytes) (ttl : option Duration) (now : Instant) : EProg unit :=
  expires_at ← match ttl with Some d => t ← p_instant_add now d; mret (Some t) | None => mret None end;
  p_drop_stale now i k;;
  scheduled ← p_store_value i k v (entry_size (length k) (length v)) expires_at;
  match scheduled with
  | Some (idx, d, token) => shard i (schedule_expiration idx d token)
  | None => mret tt
  end.

Lemma write_section i ph m s l now k v ttl c :
  let ent := mkE k v (deadline_of now ttl) in
  shard_rep s l -> (e_size ent <= c)%Z -> ttl_fits now ttl ->
  wp (write_body i k v ttl now) (inside i l ph m s l InWrite c)
    (fun out v' => out = Val tt /\ exists s' c', (0 <= c')%Z /\ v' = inside i l ph m s' (put ent l) InWrite c'
       /\ shard_rep s' (put ent l)).
Proof.
  intros ent Hr Hc Hfit. apply wp_bind.
  assert (forall Q : outcome HkvError (option Instant) -> View -> Prop, Q (Val (deadline_of now ttl)) (inside i l ph m s l InWrite c) ->
    wp (match ttl with Some d => t ← p_instant_add now d; mret (Some t) | None => mret None end) (inside i l ph m s l InWrite c) Q) as Hd.
  { intros Q HQ. destruct ttl as [d|]; [|exact HQ]. apply wp_bind. unfold p_instant_add.
    by rewrite (proj2 (Z.ltb_lt _ _) Hfit). }
  apply Hd. cbn [carry]. apply wp_bind. apply drop_stale_section; [done|lia|]. intros s1 l1 Hr1 Hl1. cbn [carry].
  assert (put ent l1 = put ent l) as <- by (destruct Hl1 as [->| ->]; [done|apply (put_drop ent)]).
  by apply store_section.
Qed.

(** *** Eviction *)

(** A writer that is done with the capacity. *)
Definition duty_done (d : Duty) : Prop :=
  d = Free \/ (max = usize_max /\ d = AtTest) \/ exists visited, d = Scanning visited /\ forall i, i < n -> i ∈ visited.

Section evict.
Context (Hwrap : overflow_checks = false) (Hmax : max <> usize_max) (k : Z) (Hk : (0 <= k < 64)%Z)
  (Hn : Z.of_nat n = (2 ^ k)%Z) (Hmask : mask = (2 ^ k - 1)%Z).
Context (o : Op) (r : Reply) (Ho : is_write o = true).

Abbreviation evicting := (mkView (ADone o r) None 0).

(** The shard a scan from [start] visits with [offset]. *)
Definition visit (start : Z) (offset : nat) : nat := Z.to_nat ((start + Z.of_nat offset) mod 2 ^ k).

Lemma visit_lt start offset : visit start offset < n.
Proof. unfold visit. pose proof (Z.mod_pos_bound (start + Z.of_nat offset) (2 ^ k) ltac:(lia)). lia. Qed.

Lemma visit_all start i : i < n -> exists offset, offset < n /\ visit start offset = i.
Proof.
  intros Hi. pose proof (Z.mod_pos_bound (Z.of_nat i - start) (2 ^ k) ltac:(lia)) as Hb.
  exists (Z.to_nat ((Z.of_nat i - start) mod 2 ^ k)). split; [lia|]. unfold visit.
  rewrite Z2Nat.id, Zplus_mod_idemp_r by lia. replace (start + (Z.of_nat i - start))%Z with (Z.of_nat i) by lia.
  rewrite Z.mod_small by lia. lia.
Qed.

Lemma wp_evict_scan start left_ : forall offset visited c room (Q : outcome HkvError bool -> View -> Prop),
  (forall j, j < offset -> visit start j ∈ visited) -> offset + left_ = n ->
  (forall room', room' < room -> Q (Val true) (evicting AtTest c room')) ->
  (forall visited', (forall i, i < n -> i ∈ visited') -> Q (Val false) (evicting (Scanning visited') c room)) ->
  wp (p_evict_scan mask start offset left_) (evicting (Scanning visited) c room) Q.
Proof.
  induction left_ as [|left_ IH]; intros offset visited c room Q Hvis Hleft Htrue Hfalse; cbn [p_evict_scan].
  { apply Hfalse. intros i Hi. destruct (visit_all start i Hi) as (j & Hj & <-). apply Hvis. lia. }
  destruct (usize_add_wraps Hwrap (E:=HkvError) start (Z.of_nat offset) tt) as (x & E0 & Hx).
  apply wp_bind. unfold local. rewrite E0. cbn [fst EngineConcWp.wp carry]. apply wp_bind.
  assert (Z.to_nat (Z.land x mask) = visit start offset) as ->.
  { unfold visit. rewrite Hmask. replace (2 ^ k - 1)%Z with (Z.ones k) by (rewrite Z.ones_equiv; lia).
    rewrite Z.land_ones by lia. by rewrite (wrap64_mod_pow _ _ _ Hk Hx). }
  apply wp_guarded; [done|apply visit_lt|]. intros s l Hs Hl. cbn [v_room] in Hl.
  destruct (pop_lru_rep (E:=HkvError) s l Hs) as (s' & E1 & Hs').
  eapply wp_shard; [reflexivity|exact E1|]. destruct l as [|e l]; cbn [head tail fmap option_fmap option_map carry] in *.
  - eexists. split.
    { exists s', [], (ADone o r), (Scanning (visit start offset :: visited)), room, []. split_and!; [done..|apply ef_empty|done|done|done]. }
    cbn [carry total_size Z.add Z.sub v_owed v_credit set_held]. apply IH; [|lia|done|done].
    intros j Hj. destruct (decide (j = offset)) as [->|]; [by apply list_elem_of_here|].
    apply list_elem_of_further, Hvis. lia.
  - destruct room as [|room]; [cbn in Hl; lia|]. eexists. split.
    { exists s', (e :: l), (ADone o r), Popped, room, l. pose proof (e_size_nonneg e).
      split_and!; [done|done| |cbn -[e_size]; lia|done|done]. apply ef_evict; [done|by rewrite bool_decide_false]. }
    cbn -[total_size]. pose proof (e_size_nonneg e). unfold held_size. cbn -[total_size].
    split_and!; [done|cbn; lia|cbn; lia|]. specialize (Htrue room ltac:(lia)). cbn [total_size].
    by replace (0 + total_size l - (e_size e + total_size l) + e_size e)%Z with 0%Z by lia.
Qed.

Lemma wp_evict_loop fuel : forall c room (Q : outcome HkvError unit -> View -> Prop),
  room < fuel ->
  (forall d room', duty_done d -> Q (Val tt) (evicting d c room')) ->
  wp (p_evict_loop n mask max fuel) (evicting AtTest c room) Q.
Proof.
  induction fuel as [|fuel IH]; intros c room Q Hf HQ; [lia|]. cbn [p_evict_loop].
  apply wp_bind. cbn [act wp_act EngineConcWp.wp]. split; [done|]. intros u. cbn [carry].
  destruct (u <=? max)%Z; [apply HQ; by left|].
  apply wp_bind. cbn [act wp_act EngineConcWp.wp]. intros start. cbn [carry]. apply wp_bind.
  apply wp_evict_scan; [lia|lia| |].
  - intros room' Hr. cbn [v_room] in Hr. apply IH; [lia|done].
  - intros visited Hall. apply HQ. right; right. eauto.
Qed.

End evict.

(** *** Calls *)

(** How a call ends. *)
Definition call_post (c : Call) (out : outcome HkvError Answer) (v : View) : Prop :=
  v_held v = None /\ v_owed v = 0%Z /\ duty_done (v_duty v) /\ (0 <= v_credit v)%Z
  /\ match c with
     | CallOp o => exists r, out = Val (AReply r) /\ v_phase v = ADone o r
     | CallPurge => exists now removed, out = Val (APurged removed) /\ v_phase v = APurging now n removed
     end.

Lemma purge_section i l0 ph m now fuel : forall s l removed,
  shard_rep s l -> length (s_ttl_heap s) < fuel -> (total_size l <= total_size l0)%Z ->
  wp (p_purge_shard fuel now i removed) (inside i l0 ph m s l Free 0)
    (fun out v' => out = Val (removed + Z.of_nat (length l) - Z.of_nat (length (live now l)))%Z
       /\ exists s', v' = inside i l0 ph m s' (live now l) Free 0 /\ shard_rep s' (live now l)).
Proof.
  induction fuel as [|fuel IH]; intros s l removed Hr Hf Hle; [lia|]. cbn [p_purge_shard].
  destruct (pop_due_rep (E:=HkvError) s l now Hr) as (r & s1 & E1 & Hns & Hdue). wshard E1. destruct r as [x|].
  - destruct Hdue as (Hr1 & Hlen & nd & Hn & Hx). rewrite <- Hns in Hn.
    destruct (remove_idx_rep_heap (E:=HkvError) s1 l _ nd Hr1 Hn) as (s2 & E2 & Hr2 & Hh2). wshard E2.
    destruct (rep_live _ _ _ _ _ Hr1 Hn) as [Hfk Hz]. pose proof (rep_NoDup _ _ _ Hr1) as Hnd.
    destruct (live_drop now _ _ _ Hnd Hfk Hx) as [Hl Hlen']. pose proof (total_size_drop _ _ _ Hnd Hfk) as Ht.
    pose proof (e_size_nonneg (entry_of (payload nd))). pose proof (total_size_nonneg (drop_key (n_key nd) l)).
    apply wp_bind. unfold held_size. cbn -[total_size p_purge_shard]. split_and!; [lia|lia|done|].
    rewrite Hz, <- Z.sub_sub_distr, <- Ht. change (mkView _ _ _ _ _ _) with (inside i l0 ph m s2 (drop_key (n_key nd) l) Free 0).
    eapply wp_mono; [|apply (IH s2 (drop_key (n_key nd) l)); [done|rewrite Hh2; lia|lia]].
    intros out v' (-> & s' & -> & Hs'). rewrite Hl in *. split; [f_equal; lia|]. by exists s'.
  - destruct Hdue as [Hr1 Hall]. rewrite (live_all _ _ Hall). split; [f_equal; lia|]. by exists s1.
Qed.

Lemma wp_purge_shards now room (Q : outcome HkvError Z -> View -> Prop) left_ : forall i removed,
  i + left_ = n ->
  (forall removed, Q (Val removed) (mkView (APurging now n removed) None 0 Free 0 room)) ->
  wp (p_purge_shards now (seq i left_) removed) (mkView (APurging now i removed) None 0 Free 0 room) Q.
Proof.
  induction left_ as [|left_ IH]; intros i removed Hi HQ; cbn [seq p_purge_shards].
  { replace n with i by lia. replace n with i in HQ by lia. apply HQ. }
  apply wp_bind, wp_guarded; [done|lia|]. intros s l Hs _.
  apply wp_bind. eapply wp_shard; [reflexivity|reflexivity|]. cbn [carry].
  pose proof (purge_section i l (APurging now i removed) room now (S (length (s_ttl_heap s))) s l removed Hs ltac:(lia) ltac:(lia)) as Hp.
  unfold inside in Hp. rewrite Z.sub_diag in Hp. eapply wp_mono; [|exact Hp]. intros out v' (-> & s' & -> & Hs').
  eexists. split.
  { exists s', l, (APurging now (S i) (removed + Z.of_nat (length l) - Z.of_nat (length (live now l)))%Z), Free, room, (live now l).
    cbn [inside v_owed]. split_and!; [done|done|apply ef_sweep|lia|lia|done]. }
  cbn [carry inside v_owed v_credit]. replace (total_size l - total_size (live now l) + total_size (live now l) - total_size l)%Z with 0%Z by lia.
  apply IH; [lia|done].
Qed.

Section calls.
Context (Hwrap : overflow_checks = false \/ max = usize_max) (lg : Z) (Hlg : (0 <= lg < 64)%Z)
  (Hn : Z.of_nat n = (2 ^ lg)%Z) (Hmask : mask = (2 ^ lg - 1)%Z).

Lemma key_shard_op o : key_shard hash mask (op_key o) = op_shard hash n o.
Proof.
  unfold key_shard, op_shard. rewrite Hmask, Hn. replace (2 ^ lg - 1)%Z with (Z.ones lg) by (rewrite Z.ones_equiv; lia).
  by rewrite Z.land_ones by lia.
Qed.

Lemma op_shard_lt o : op_shard hash n o < n.
Proof. unfold op_shard. pose proof (Z.mod_pos_bound (hash (op_key o)) (2 ^ lg) ltac:(lia)). rewrite Hn. lia. Qed.

(** A method is its critical section between the reading of the clock and the end of the lock. *)
Lemma wp_section {A} o (body : Instant -> EProg A) room answers (Q : outcome HkvError A -> View -> Prop) :
  (forall j s l, shard_rep s l -> length l <= room ->
    wp (body (clock j)) (inside (op_shard hash n o) l (ATimed o (clock j)) room s l (op_duty o) (op_bytes o))
       (section_post (op_shard hash n o) l (ATimed o (clock j)) room o (clock j) answers)) ->
  (forall r out c, answers r out -> (0 <= c)%Z ->
    Q out (mkView (ADone o r) None 0 (if is_write o then AtTest else Free) c room)) ->
  wp (now ← act ReadClock; guarded (key_shard hash mask (op_key o)) (body now)) (called_view (CallOp o) room) Q.
Proof.
  intros Hbody HQ. apply wp_bind. cbn [act wp_act EngineConcWp.wp]. split; [done|].
  exists (CallOp o). split; [done|]. intros j. cbn [carry]. rewrite key_shard_op.
  apply wp_guarded; [done|apply op_shard_lt|]. intros s l Hs Hl. cbn [v_room set_phase called_view] in Hl.
  specialize (Hbody j s l Hs Hl). unfold inside in Hbody. rewrite Z.sub_diag in Hbody.
  eapply wp_mono; [|exact Hbody]. intros out v' (s' & c & Ha & Hc & -> & Hs').
  eexists. split; [|by apply (HQ _ _ c Ha)].
  exists s', l, (ADone o (fst (lru_op (clock j) o l))), (if is_write o then AtTest else Free), room, (snd (lru_op (clock j) o l)).
  cbn [inside v_owed]. split_and!; [done|done|by apply ef_op|lia|lia|]. cbn -[total_size lru_op]. f_equal. lia.
Qed.

Lemma wp_write fuel o k v ttl room (Q : outcome HkvError unit -> View -> Prop) :
  op_key o = k -> is_write o = true -> op_bytes o = e_size (mkE k v None) ->
  (forall now l, lru_op now o l = (RDone (Ok tt), put (mkE k v (deadline_of now ttl)) l)) ->
  (forall j, ttl_fits (clock j) ttl) -> room < fuel ->
  (forall d c room', duty_done d -> (0 <= c)%Z -> Q (Val tt) (mkView (ADone o (RDone (Ok tt))) None 0 d c room')) ->
  wp (p_write_value hash n mask max fuel k v ttl) (called_view (CallOp o) room) Q.
Proof.
  intros <- Ho Hb Hop Hfit Hf HQ. unfold p_write_value.
  change (wp ((now ← act ReadClock; guarded (key_shard hash mask (op_key o)) (write_body (key_shard hash mask (op_key o)) (op_key o) v ttl now))
    ≫= fun _ => p_evict_if_needed n mask max fuel) (called_view (CallOp o) room) Q).
  apply wp_bind.
  apply (wp_section o _ room (fun r out => r = RDone (Ok tt) /\ out = Val tt)).
  - intros j s l Hs _. rewrite key_shard_op.
    assert (op_duty o = InWrite) as Hd by (unfold op_duty; by rewrite Ho). rewrite Hd. eapply wp_mono; [|apply (write_section _ _ _ s l)].
    + intros out v' (-> & s' & c' & Hc' & -> & Hs'). exists s', c'. rewrite Hop, Hd. by split_and!.
    + done.
    + rewrite Hb. unfold e_size. cbn. lia.
    + apply Hfit.
  - intros r out c [-> ->] Hc. rewrite Ho. cbn [carry]. unfold p_evict_if_needed. case_bool_decide as Hm.
    + apply HQ; [by right; left|done].
    + destruct Hwrap as [Hw|]; [|done].
      apply (wp_evict_loop Hw Hm lg Hlg Hn Hmask o _ Ho); [done|]. intros d room' Hd. by apply HQ.
Qed.

Lemma wp_call fuel c room :
  (forall o j, c = CallOp o -> op_fits (clock j) o) -> room < fuel ->
  wp (call_prog hash n mask max fuel c) (called_view c room) (call_post c).
Proof.
  intros Hfit Hf. destruct c as [o|]; cbn [call_prog].
  - assert (forall j, op_fits (clock j) o) as Hfit' by eauto. clear Hfit. apply wp_bind.
    assert (forall (Q : outcome HkvError Reply -> View -> Prop),
      (forall r d c room', duty_done d -> (0 <= c)%Z -> Q (Val r) (mkView (ADone o r) None 0 d c room')) ->
      wp (op_prog hash n mask max fuel o) (called_view (CallOp o) room) Q) as Hop.
    2: { apply Hop. intros r d c room' Hd Hc. cbn. split_and!; try done. by exists r. }
    intros Q HQ. pose proof (or_introl eq_refl : duty_done Free) as Hfree.
    destruct o as [key|key v|key v d|key|key d|key]; cbn [op_prog].
    + apply wp_bind. eapply (wp_section (OpGet key)); [intros j s l Hs _; rewrite <- key_shard_op; by apply get_section|].
      intros r out c (v & -> & ->) Hc. by apply HQ.
    + apply wp_catch. apply (wp_write fuel (OpSet key v) key v None); try done. intros d c room' Hd Hc. by apply HQ.
    + apply wp_catch. apply (wp_write fuel (OpSetTtl key v d) key v (Some d)); try done.
      intros d' c room' Hd Hc. by apply HQ.
    + apply wp_bind. eapply (wp_section (OpDelete key)); [intros j s l Hs _; rewrite <- key_shard_op; by apply delete_section|].
      intros r out c (v & -> & ->) Hc. by apply HQ.
    + apply wp_catch. eapply (wp_section (OpExpire key d)); [intros j s l Hs _; rewrite <- key_shard_op; apply expire_section; [done|done|apply Hfit']|].
      intros r out c ([u|e] & -> & ->) Hc; [|]; [destruct u|]; by apply HQ.
    + apply wp_bind. eapply (wp_section (OpTtl key)); [intros j s l Hs _; rewrite <- key_shard_op; by apply ttl_section|].
      intros r out c (v & -> & ->) Hc. by apply HQ.
  - apply wp_bind. unfold p_purge_expired. apply wp_bind. cbn [act wp_act EngineConcWp.wp]. split; [done|].
    exists CallPurge. split; [done|]. intros j. cbn [carry timed]. apply wp_purge_shards; [lia|]. intros removed.
    cbn. split_and!; try done; [by left|]. by exists (clock j), removed.
Qed.

End calls.

End methods.
