(* ===== verification/EngineConcInv.v ===== *)
(** * The invariant of all threads (hkv-engine/src/memory.rs)

    What holds of the locks, the shards, the byte counter and the threads'
    programs in every state any interleaving reaches, and that each step keeps
    it while the object of EngineConcSpec.v follows. *)

From S2P Require Import Prelude Threads Errors KVEngine LruSpec Shard Dll ShardRefine Engine EngineSpec EngineRefine.
From S2P Require Import EngineKV EngineThms EngineConc EngineConcSpec EngineConcWp.

(** ** Sums over threads and shards *)

Lemma zsum_fmap {A B} (f : B -> Z) (g : A -> B) l : zsum f (g <$> l) = zsum (fun x => f (g x)) l.
Proof. induction l as [|x l IH]; cbn; [done|]. by rewrite IH. Qed.

Lemma zsum_replicate {A} (f : A -> Z) x k : f x = 0%Z -> zsum f (replicate k x) = 0%Z.
Proof. intros Hx. induction k as [|k IH]; cbn; [done|]. by rewrite Hx, IH. Qed.

Lemma total_nonneg ls : (0 <= total ls)%Z.
Proof. induction ls as [|l ls IH]; simpl; [lia|]. pose proof (total_size_nonneg l). lia. Qed.

(** ** What an operation does to the length of a shard *)

Lemma length_drop_key k l : length (drop_key k l) <= length l /\ (is_Some (find_key k l) -> length (drop_key k l) < length l).
Proof.
  unfold drop_key. induction l as [|e l [IH1 IH2]]; cbn [find_key]; [split; [done|intros [? [=]]]|].
  rewrite filter_cons. case_decide as Hd; case_decide as Hk; cbn [length]; try done.
  - split; [lia|]. intros Hs%IH2. lia.
  - split; lia.
Qed.

Lemma lru_op_length now o l :
  length (snd (lru_op now o l)) <= length l + (if is_write o then 1 else 0)
  /\ (is_write o = false -> l = [] -> snd (lru_op now o l) = []).
Proof.
  assert (forall e, length (put e l) = length (drop_key (e_key e) l) + 1) as Hput.
  { intros e. unfold put. by rewrite length_app. }
  split; [|intros Hw ->; by destruct o].
  destruct o as [k|k v|k v d|k|k d|k]; cbn [lru_op snd is_write]; unfold on_live;
    rewrite ?Hput; cbn [e_key]; pose proof (length_drop_key k l) as [Hd Hf];
    try (destruct (find_key k l) as [e|] eqn:E; [destruct (e_expired now e)|]); cbn [snd]; try lia.
  - rewrite Hput. apply find_key_Some in E as [_ ->]. specialize (Hf ltac:(by eexists)). lia.
  - unfold set_deadline. rewrite length_fmap. lia.
Qed.

Section invariant.
Context `{Profile} (hash : bytes -> Z) (clock : nat -> Instant) (n : nat) (mask max : Z) (fuel : nat).
Context (limit : Z) (Hlimit : (limit <= u64_max)%Z).

Abbreviation wp := (wp hash clock n max).
Abbreviation call_post := (call_post n max).

(** ** Locks, shards and views *)

Record shape (shs : list ShardInner) (locks : gmap nat nat) (ls : list lru) (vs : list View) : Prop := {
  sh_length : length shs = n;
  sh_length_lists : length ls = n;
  sh_free i sh l : shs !! i = Some sh -> ls !! i = Some l -> locks !! i = None -> shard_rep sh l;
  sh_locked i t : locks !! i = Some t -> exists v sh l, vs !! t = Some v /\ v_held v = Some (i, sh, l);
  sh_held t v i sh l : vs !! t = Some v -> v_held v = Some (i, sh, l) ->
    locks !! i = Some t /\ shs !! i = Some sh /\ ls !! i = Some l
}.

(** A thread's view changes, but not the shard it holds. *)
Lemma shape_view shs locks ls vs t v v' :
  shape shs locks ls vs -> vs !! t = Some v -> v_held v' = v_held v -> shape shs locks ls (<[t := v']> vs).
Proof.
  intros [H1 H2 H3 H4 H5] Ht Hv. split; try done.
  - intros i u Hi. destruct (H4 i u Hi) as (w & sh & l & Hw & Hl).
    destruct (decide (u = t)) as [->|].
    + simplify_eq. exists v', sh, l. rewrite list_lookup_insert_eq by (by eapply lookup_lt_Some). by rewrite Hv.
    + exists w, sh, l. by rewrite list_lookup_insert_ne.
  - intros u w i sh l [(<- & <- & _)|[_ Hw]]%list_lookup_insert_Some Hl; [|by eapply H5].
    rewrite Hv in Hl. by eapply H5.
Qed.

Lemma shape_lock shs locks ls vs t v i sh l :
  shape shs locks ls vs -> vs !! t = Some v -> v_held v = None -> locks !! i = None ->
  shs !! i = Some sh -> ls !! i = Some l ->
  shape shs (<[i := t]> locks) ls (<[t := set_held (Some (i, sh, l)) v]> vs).
Proof.
  intros [H1 H2 H3 H4 H5] Ht Hv Hi Hsh Hl. assert (t < length vs) as Hlt by (by eapply lookup_lt_Some). split; try done.
  - intros j sh' l' Hsh' Hl' [Hne Hj]%lookup_insert_None. by eapply H3.
  - intros j u [[<- <-]|[Hne Hj]]%lookup_insert_Some.
    + exists (set_held (Some (i, sh, l)) v), sh, l. by rewrite list_lookup_insert_eq.
    + destruct (H4 j u Hj) as (w & sh' & l' & Hw & Hh). exists w, sh', l'.
      destruct (decide (u = t)) as [->|]; [simplify_eq|]. by rewrite list_lookup_insert_ne.
  - intros u w j sh' l' [(<- & <- & _)|[Hne Hw]]%list_lookup_insert_Some Hh.
    + cbn in Hh. simplify_eq. by rewrite lookup_insert_eq.
    + destruct (H5 u w j sh' l' Hw Hh) as (Hj & ? & ?). rewrite lookup_insert_ne; [done|]. by intros ->; simplify_eq.
Qed.

Lemma shape_with shs locks ls vs t v i sh l sh' :
  shape shs locks ls vs -> vs !! t = Some v -> v_held v = Some (i, sh, l) ->
  shape (<[i := sh']> shs) locks ls (<[t := set_held (Some (i, sh', l)) v]> vs).
Proof.
  intros [H1 H2 H3 H4 H5] Ht Hv. assert (t < length vs) as Hlt by (by eapply lookup_lt_Some).
  destruct (H5 _ _ _ _ _ Ht Hv) as (Hi & Hsh & Hl). split; [by rewrite length_insert|done|..].
  - intros j x l' [(<- & _ & _)|[_ Hx]]%list_lookup_insert_Some Hl' Hj; [by simplify_eq|by eapply H3].
  - intros j u Hj. destruct (H4 j u Hj) as (w & x & l' & Hw & Hh). destruct (decide (u = t)) as [->|].
    + simplify_eq. eexists _, sh', l. by rewrite list_lookup_insert_eq.
    + exists w, x, l'. by rewrite list_lookup_insert_ne.
  - intros u w j x l' [(<- & <- & _)|[Hne Hw]]%list_lookup_insert_Some Hh.
    + cbn in Hh. simplify_eq. rewrite list_lookup_insert_eq; [done|]. by eapply lookup_lt_Some.
    + destruct (H5 u w j x l' Hw Hh) as (Hj & Hx & ?). rewrite list_lookup_insert_ne; [done|].
      intros ->. by simplify_eq.
Qed.

Lemma shape_unlock shs locks ls vs t v i sh l v' l' :
  shape shs locks ls vs -> vs !! t = Some v -> v_held v = Some (i, sh, l) -> v_held v' = None -> shard_rep sh l' ->
  shape shs (base.delete i locks) (<[i := l']> ls) (<[t := v']> vs).
Proof.
  intros [H1 H2 H3 H4 H5] Ht Hv Hv' Hr. assert (t < length vs) as Hlt by (by eapply lookup_lt_Some).
  destruct (H5 _ _ _ _ _ Ht Hv) as (Hi & Hsh & Hl). split; [done|by rewrite length_insert|..].
  - intros j x l'' Hx [(<- & <- & _)|[Hne Hl'']]%list_lookup_insert_Some Hj; [by simplify_eq|].
    rewrite lookup_delete_ne in Hj by done. by eapply H3.
  - intros j u [Hne Hj]%lookup_delete_Some. destruct (H4 j u Hj) as (w & x & l'' & Hw & Hh).
    exists w, x, l''. rewrite list_lookup_insert_ne; [done|]. intros ->. by simplify_eq.
  - intros u w j x l'' [(<- & <- & _)|[Hne Hw]]%list_lookup_insert_Some Hh; [congruence|].
    destruct (H5 u w j x l'' Hw Hh) as (Hj & Hx & Hl'').
    assert (i <> j) by (intros ->; by simplify_eq). by rewrite lookup_delete_ne, list_lookup_insert_ne.
Qed.

(** The bytes of the locked shards are among all. *)
Lemma held_total vs : forall ls,
  (forall t v i sh l, vs !! t = Some v -> v_held v = Some (i, sh, l) -> ls !! i = Some l) ->
  (forall t u v w i x y, vs !! t = Some v -> vs !! u = Some w -> v_held v = Some (i, x, y) ->
     fst <$> (fst <$> v_held w) = Some i -> t = u) ->
  (zsum held_size vs <= total ls)%Z.
Proof.
  induction vs as [|v vs IH]; intros ls Hl Hinj; [apply total_nonneg|]. cbn [zsum].
  assert (forall t u v w i x y, vs !! t = Some v -> vs !! u = Some w -> v_held v = Some (i, x, y) ->
     fst <$> (fst <$> v_held w) = Some i -> t = u) as Hinj'.
  { intros t u v1 w i x y H1 H2 H3 H4. by injection (Hinj (S t) (S u) v1 w i x y H1 H2 H3 H4). }
  unfold held_size at 1. destruct (v_held v) as [[[i sh] l]|] eqn:Hv.
  - pose proof (Hl 0 v i sh l eq_refl Hv) as Hi. pose proof (total_insert ls i l [] Hi) as Ht. cbn in Ht.
    specialize (IH (<[i := []]> ls)). rewrite Ht in IH. cut (zsum held_size vs <= total ls - total_size l + 0)%Z; [lia|].
    apply IH; [|done]. intros t w j x l' Hw Hh. rewrite list_lookup_insert_ne; [by apply (Hl (S t) w j x l')|].
    intros <-. specialize (Hinj 0 (S t) v w i sh l eq_refl Hw Hv). rewrite Hh in Hinj. by specialize (Hinj eq_refl).
  - apply IH; [|done]. intros t w. by apply (Hl (S t) w).
Qed.

Lemma shape_total shs locks ls vs : shape shs locks ls vs -> (zsum held_size vs <= total ls)%Z.
Proof.
  intros [H1 H2 H3 H4 H5]. apply held_total.
  - intros t v i sh l Ht Hh. by destruct (H5 _ _ _ _ _ Ht Hh) as (_ & _ & ?).
  - intros t u v w i x y Ht Hu Hv Hw. destruct (v_held w) as [[[j sh] l]|] eqn:E; [|done]. cbn in Hw. simplify_eq.
    destruct (H5 _ _ _ _ _ Ht Hv) as (Hi & _). destruct (H5 _ _ _ _ _ Hu E) as (Hj & _). congruence.
Qed.

(** ** Bytes *)

(** [todo]: what the calls to come may add. The counter is exact up to what the threads owe. *)
Record bytes_ok (used : Z) (ls : list lru) (vs : list View) (todo : Z) : Prop := {
  by_used : used = wrap64 (total ls - zsum v_owed vs);
  by_view v : v ∈ vs -> (v_owed v <= held_size v)%Z /\ (0 <= v_credit v)%Z
    /\ ((v_owed v < 0)%Z -> v_duty v = InWrite \/ v_duty v = Popped);
  by_bound : (total ls - zsum v_owed vs + zsum v_credit vs + todo <= limit)%Z;
  by_todo : (0 <= todo)%Z
}.

Lemma bytes_exact shs locks used ls vs todo :
  shape shs locks ls vs -> bytes_ok used ls vs todo -> used = (total ls - zsum v_owed vs)%Z /\ (0 <= used <= limit)%Z.
Proof.
  intros Hs [Hu Hv Hb Ht].
  assert (zsum v_owed vs <= zsum held_size vs)%Z by (apply zsum_le; intros v Hin; apply Hv, Hin).
  assert (0 <= zsum v_credit vs)%Z as Hc.
  { transitivity (zsum (fun _ : View => 0%Z) vs); [|apply zsum_le; intros v Hin; by apply Hv].
    clear. induction vs as [|v vs IH]; simpl; lia. }
  pose proof (shape_total _ _ _ _ Hs). unfold u64_max in Hlimit. rewrite wrap64_small in Hu by lia. lia.
Qed.

Lemma bytes_update used used' ls ls' vs todo todo' t v v' delta :
  bytes_ok used ls vs todo -> vs !! t = Some v ->
  used' = wrap64 (used + delta) -> (total ls' - v_owed v' = total ls - v_owed v + delta)%Z ->
  (v_owed v' <= held_size v')%Z -> (0 <= v_credit v')%Z ->
  ((v_owed v' < 0)%Z -> v_duty v' = InWrite \/ v_duty v' = Popped) ->
  (0 <= todo')%Z -> (delta + v_credit v' + todo' <= v_credit v + todo)%Z ->
  bytes_ok used' ls' (<[t := v']> vs) todo'.
Proof.
  intros [Hu Hv Hb Ht] Hvt -> Hd Ho Hc Hdu Ht' Hcr. split.
  - rewrite Hu, wrap64_add_l, (zsum_insert _ _ _ _ _ Hvt). f_equal. lia.
  - intros w [u [(<- & <- & _)|[_ Hw]]%list_lookup_insert_Some]%list_elem_of_lookup_1; [done|].
    by eapply Hv, list_elem_of_lookup_2.
  - rewrite !(zsum_insert _ _ _ _ _ Hvt). lia.
  - done.
Qed.

(** ** Room for entries *)

Definition pending (v : View) : Z := match v_duty v with InWrite => 1 | _ => 0 end.

(** The entries there are and those that writes may still insert: never more than
    each thread knows. *)
Definition room_ok (ls : list lru) (vs : list View) (todo : Z) : Prop :=
  let all := (Z.of_nat (entries ls) + zsum pending vs + todo)%Z in
  (all < Z.of_nat fuel)%Z /\ forall v, v ∈ vs -> (all <= Z.of_nat (v_room v))%Z.

Lemma room_update ls ls' vs todo todo' t v v' :
  room_ok ls vs todo -> vs !! t = Some v ->
  let all' := (Z.of_nat (entries ls') + (zsum pending vs - pending v + pending v') + todo')%Z in
  (all' <= Z.of_nat (entries ls) + zsum pending vs + todo)%Z -> (all' <= Z.of_nat (v_room v'))%Z ->
  room_ok ls' (<[t := v']> vs) todo'.
Proof.
  intros [Hf Hr] Ht all' Hall Hv'. unfold room_ok. rewrite (zsum_insert _ _ _ _ _ Ht). split; [lia|].
  intros w [u [(<- & <- & _)|[_ Hw]]%list_lookup_insert_Some]%list_elem_of_lookup_1; [done|].
  specialize (Hr w (list_elem_of_lookup_2 _ _ _ Hw)). lia.
Qed.

Lemma pending_nonneg vs : (0 <= zsum pending vs)%Z.
Proof. induction vs as [|v vs IH]; simpl; [lia|]. unfold pending at 1. destruct (v_duty v); lia. Qed.

Lemma entries_le (ls : list lru) i l : ls !! i = Some l -> length l <= entries ls.
Proof.
  unfold entries. revert i. induction ls as [|x ls IH]; intros [|i] Hi; simplify_eq/=; [lia|]. specialize (IH i Hi). lia.
Qed.

(** A thread that locks a shard has room for its entries. *)
Lemma room_shard ls vs todo t v i l :
  room_ok ls vs todo -> (0 <= todo)%Z -> vs !! t = Some v -> ls !! i = Some l -> length l <= v_room v.
Proof.
  intros [_ Hr] Ht Hv Hl. specialize (Hr v (list_elem_of_lookup_2 _ _ _ Hv)). pose proof (pending_nonneg vs).
  pose proof (entries_le _ _ _ Hl). lia.
Qed.

(** ** The capacity *)

(** Threads that will test [used_bytes] again, or have seen no shard that is not empty now. *)
Definition responsible (ls : list lru) (v : View) : Prop :=
  match v_duty v with
  | Free => False
  | InWrite | AtTest | Popped => True
  | Scanning visited => forall i, i ∈ visited -> ls !! i = Some []
  end.

Definition capacity_ok (used : Z) (ls : list lru) (vs : list View) : Prop :=
  max <> usize_max -> (used <= max)%Z \/ exists t v, vs !! t = Some v /\ responsible ls v.

Lemma capacity_update used used' ls ls' vs t v v' :
  capacity_ok used ls vs -> vs !! t = Some v ->
  (max <> usize_max -> responsible ls' v'
    \/ (used' <= used)%Z /\ (forall i, ls !! i = Some [] -> ls' !! i = Some [])
       /\ (responsible ls v -> responsible ls' v' \/ (used' <= max)%Z
           \/ exists u w, u <> t /\ vs !! u = Some w /\ responsible ls w)) ->
  capacity_ok used' ls' (<[t := v']> vs).
Proof.
  intros Hcap Ht Hstep Hm. assert (t < length vs) as Hlt by (by eapply lookup_lt_Some).
  assert (responsible ls' v' -> exists u w, <[t := v']> vs !! u = Some w /\ responsible ls' w) as Hmine.
  { intros Hr. exists t, v'. by rewrite list_lookup_insert_eq. }
  destruct (Hstep Hm) as [Hr|(Hu & Hemp & Hresp)]; [by right; apply Hmine|].
  assert (forall u w, u <> t -> vs !! u = Some w -> responsible ls w ->
    exists u' w', <[t := v']> vs !! u' = Some w' /\ responsible ls' w') as Hother.
  { intros u w Hne Hw Hr. exists u, w. rewrite list_lookup_insert_ne by done. split; [done|].
    unfold responsible in *. destruct (v_duty w); try done. intros i Hi. by apply Hemp, Hr. }
  destruct (Hcap Hm) as [Hle|(u & w & Hw & Hr)]; [left; lia|]. destruct (decide (u = t)) as [->|Hne]; [|right; eauto].
  simplify_eq. destruct (Hresp Hr) as [?|[?|(u & w' & Hne & Hw' & Hr')]]; eauto.
Qed.

(** A scan that found every shard empty: the counter fits, or another thread is responsible. *)
Lemma scanned_all shs locks used ls vs todo t v visited :
  shape shs locks ls vs -> bytes_ok used ls vs todo -> (0 <= max)%Z -> vs !! t = Some v ->
  v_duty v = Scanning visited -> (forall i, i < n -> i ∈ visited) -> responsible ls v ->
  (used <= max)%Z \/ exists u w, u <> t /\ vs !! u = Some w /\ responsible ls w.
Proof.
  intros Hs Hb Hm Ht Hd Hall Hr. unfold responsible in Hr. rewrite Hd in Hr.
  assert (total ls = 0%Z) as H0.
  { apply total_empty. intros l [i Hi]%list_elem_of_lookup_1.
    assert (i < n) as Hlt by (rewrite <- (sh_length_lists _ _ _ _ Hs); by eapply lookup_lt_Some).
    specialize (Hr i (Hall i Hlt)). by simplify_eq. }
  destruct (bytes_exact _ _ _ _ _ _ Hs Hb) as [Hu Hpos].
  destruct (decide (Exists (fun w => (v_owed w < 0)%Z) vs)) as [Hex|Hno].
  - apply Exists_exists in Hex as (w & [u Hw]%list_elem_of_lookup_1 & Hneg). right. exists u, w.
    destruct (by_view _ _ _ _ Hb w (list_elem_of_lookup_2 _ _ _ Hw)) as (_ & _ & Hduty).
    split_and!; [|done|unfold responsible; by destruct (Hduty Hneg) as [->| ->]].
    intros ->. simplify_eq. rewrite Hd in Hduty. by destruct (Hduty Hneg).
  - left. assert (zsum (fun _ : View => 0%Z) vs <= zsum v_owed vs)%Z as Hz.
    { apply zsum_le. intros w Hw. rewrite <- Forall_Exists_neg in Hno.
      pose proof (proj1 (Forall_forall _ _) Hno w Hw) as Hx. cbn in Hx. lia. }
    replace (zsum (fun _ : View => 0%Z) vs) with 0%Z in Hz by (clear; induction vs; simpl; lia). lia.
Qed.

(** ** The invariant *)

Definition call_fits (c : Call) : Prop := forall o j, c = CallOp o -> op_fits (clock j) o.
Definition call_writes (c : Call) : Z := match c with CallOp o => if is_write o then 1 else 0 | CallPurge => 0 end.
Definition todo_bytes (th : EThread) : Z := zsum call_bytes (th_todo th).
Definition todo_writes (th : EThread) : Z := zsum call_writes (th_todo th).

Definition thread_ok (th : EThread) (v : View) : Prop :=
  Forall call_fits (th_todo th)
  /\ match th_run th with None => exists room, v = idle_view room | Some p => exists c, wp p v (call_post c) end.

Definition abs_thread (th : EThread) (v : View) : list Call * APhase := (th_todo th, v_phase v).

Record conc_inv (s : ESystem) (a : AState) (vs : list View) : Prop := {
  ci_shape : shape (shards (sh_engine (sy_shared s))) (sh_locks (sy_shared s)) (a_shards a) vs;
  ci_abs : a_threads a = zip_with abs_thread (sy_threads s) vs;
  ci_threads : Forall2 thread_ok (sy_threads s) vs;
  ci_ticks : a_ticks a = sh_ticks (sy_shared s);
  ci_consts : max_bytes (sh_engine (sy_shared s)) = max /\ shard_mask (sh_engine (sy_shared s)) = mask;
  ci_bytes : bytes_ok (used_bytes (sh_engine (sy_shared s))) (a_shards a) vs (zsum todo_bytes (sy_threads s));
  ci_room : room_ok (a_shards a) vs (zsum todo_writes (sy_threads s));
  ci_capacity : capacity_ok (used_bytes (sh_engine (sy_shared s))) (a_shards a) vs
}.

Lemma zsum_todo_nonneg ths : (0 <= zsum todo_bytes ths)%Z /\ (0 <= zsum todo_writes ths)%Z.
Proof.
  assert (forall c, (0 <= call_bytes c)%Z /\ (0 <= call_writes c)%Z) as Hc.
  { intros [o|]; [|cbn; lia]. unfold call_bytes, call_writes, op_bytes. destruct o; cbn -[e_size]; try lia.
    all: split; [apply e_size_nonneg|lia]. }
  assert (forall cs, (0 <= zsum call_bytes cs)%Z /\ (0 <= zsum call_writes cs)%Z) as Hcs.
  { induction cs as [|c cs IH]; cbn [zsum]; [lia|]. destruct (Hc c). lia. }
  induction ths as [|th ths IH]; cbn [zsum]; [lia|]. destruct (Hcs (th_todo th)). unfold todo_bytes at 1, todo_writes at 1. lia.
Qed.

(** The thread [t] goes on: the parts of the invariant put together again. *)
Lemma conc_update s a vs t th th' v v' w' ls' :
  conc_inv s a vs -> sy_threads s !! t = Some th -> vs !! t = Some v -> thread_ok th' v' ->
  let e' := sh_engine w' in
  max_bytes e' = max /\ shard_mask e' = mask ->
  shape (shards e') (sh_locks w') ls' (<[t := v']> vs) ->
  bytes_ok (used_bytes e') ls' (<[t := v']> vs) (zsum todo_bytes (sy_threads s) - todo_bytes th + todo_bytes th') ->
  room_ok ls' (<[t := v']> vs) (zsum todo_writes (sy_threads s) - todo_writes th + todo_writes th') ->
  capacity_ok (used_bytes e') ls' (<[t := v']> vs) ->
  conc_inv (mkSystem w' (<[t := th']> (sy_threads s)))
    (mkAState ls' (<[t := abs_thread th' v']> (a_threads a)) (sh_ticks w')) (<[t := v']> vs).
Proof.
  intros Hi Ht Hv Hth e' Hc Hs Hb Hr Hcap. split; cbn; try done.
  - by rewrite (ci_abs _ _ _ Hi), insert_zip_with.
  - apply Forall2_insert; [apply Hi|done].
  - by rewrite (zsum_insert _ _ _ _ _ Ht).
  - by rewrite (zsum_insert _ _ _ _ _ Ht).
Qed.

(** The object does not notice. *)
Lemma abs_same s a vs t th th' v v' w' :
  conc_inv s a vs -> sy_threads s !! t = Some th -> vs !! t = Some v ->
  th_todo th' = th_todo th -> v_phase v' = v_phase v -> sh_ticks w' = sh_ticks (sy_shared s) ->
  mkAState (a_shards a) (<[t := abs_thread th' v']> (a_threads a)) (sh_ticks w') = a.
Proof.
  intros Hi Ht Hv Htd Hp Htk. destruct a as [ls ths ticks]. cbn. f_equal.
  - rewrite list_insert_id; [done|]. pose proof (ci_abs _ _ _ Hi) as Ha. cbn in Ha. subst ths.
    rewrite lookup_zip_with, Ht. cbn. rewrite Hv. cbn. unfold abs_thread. by rewrite Htd, Hp.
  - rewrite Htk. symmetry. apply (ci_ticks _ _ _ Hi).
Qed.

Lemma abs_lookup s a vs t th v :
  conc_inv s a vs -> sy_threads s !! t = Some th -> vs !! t = Some v -> a_threads a !! t = Some (th_todo th, v_phase v).
Proof. intros Hi Ht Hv. rewrite (ci_abs _ _ _ Hi), lookup_zip_with, Ht. cbn. by rewrite Hv. Qed.

Lemma view_lookup s a vs t th :
  conc_inv s a vs -> sy_threads s !! t = Some th -> exists v, vs !! t = Some v /\ thread_ok th v.
Proof. intros Hi Ht. exact (Forall2_lookup_l _ _ _ _ _ (ci_threads _ _ _ Hi) Ht). Qed.

(** ** Actions *)

(** After an action of [t] the invariant holds with the view [v'] and the shards
    [ls'], and the object has moved along. *)
Record act_ok (s : ESystem) (a : AState) (vs : list View) (t : nat) (th : EThread) (v : View)
    (w' : Shared) (v' : View) (ls' : list lru) : Prop := {
  ao_consts : max_bytes (sh_engine w') = max /\ shard_mask (sh_engine w') = mask;
  ao_shape : shape (shards (sh_engine w')) (sh_locks w') ls' (<[t := v']> vs);
  ao_bytes : bytes_ok (used_bytes (sh_engine w')) ls' (<[t := v']> vs) (zsum todo_bytes (sy_threads s));
  ao_room : room_ok ls' (<[t := v']> vs) (zsum todo_writes (sy_threads s));
  ao_capacity : capacity_ok (used_bytes (sh_engine w')) ls' (<[t := v']> vs);
  ao_object :
    (ls' = a_shards a /\ v_phase v' = v_phase v /\ sh_ticks w' = sh_ticks (sy_shared s))
    \/ astep hash clock (negb (bool_decide (max = usize_max))) a None
         (mkAState ls' (<[t := (th_todo th, v_phase v')]> (a_threads a)) (sh_ticks w'))
}.

Section actions.
Context (s : ESystem) (a : AState) (vs : list View) (t : nat) (th : EThread) (v : View).
Context (Hi : conc_inv s a vs) (Hth : sy_threads s !! t = Some th) (Hv : vs !! t = Some v).
Context (Hmax : (0 <= max)%Z).

Abbreviation w := (sy_shared s).
Abbreviation e := (sh_engine w).
Abbreviation ls := (a_shards a).

(** The view changes in its phase and in what it knows of the locked shard. *)
Lemma bytes_same v' :
  v_owed v' = v_owed v -> v_credit v' = v_credit v -> v_duty v' = v_duty v -> (held_size v <= held_size v')%Z ->
  bytes_ok (used_bytes e) ls (<[t := v']> vs) (zsum todo_bytes (sy_threads s)).
Proof.
  intros Ho Hc Hd Hh. pose proof (ci_bytes _ _ _ Hi) as Hb.
  destruct (by_view _ _ _ _ Hb v (list_elem_of_lookup_2 _ _ _ Hv)) as (H1 & H2 & H3).
  apply (bytes_update (used_bytes e) _ ls ls vs (zsum todo_bytes (sy_threads s)) _ t v v' 0); try done; try lia.
  - rewrite Z.add_0_r, (by_used _ _ _ _ Hb). by rewrite (wrap64_small _ (wrap64_range _)).
  - rewrite Hd. intros Hneg. apply H3. lia.
  - apply zsum_todo_nonneg.
Qed.

Lemma room_same v' :
  v_duty v' = v_duty v -> v_room v' = v_room v -> room_ok ls (<[t := v']> vs) (zsum todo_writes (sy_threads s)).
Proof.
  intros Hd Hr. pose proof (ci_room _ _ _ Hi) as Hro.
  assert (pending v' = pending v) as Hp by (unfold pending; by rewrite Hd).
  eapply room_update; [done|done|lia|]. rewrite Hr, Hp.
  pose proof (proj2 Hro v (list_elem_of_lookup_2 _ _ _ Hv)). lia.
Qed.

Lemma capacity_same v' :
  v_duty v' = v_duty v -> capacity_ok (used_bytes e) ls (<[t := v']> vs).
Proof.
  intros Hd. eapply capacity_update; [apply (ci_capacity _ _ _ Hi)|done|]. intros _. right. split_and!; [lia|done|].
  intros Hr. left. unfold responsible in *. by rewrite Hd.
Qed.

(** The clock and the tables of the locks. *)
Lemma act_clock c :
  v_held v = None -> v_phase v = ACalled c ->
  let j := sh_ticks w in
  act_ok s a vs t th v (mkShared e (sh_locks w) (S j)) (set_phase (timed c (clock j)) v) ls.
Proof.
  intros Hh Hp j. split; cbn; [apply Hi|..].
  - eapply shape_view; [apply Hi|done|done].
  - by apply bytes_same.
  - by apply room_same.
  - by apply capacity_same.
  - right. pose proof (abs_lookup _ _ _ _ _ _ Hi Hth Hv) as Ha. rewrite Hp in Ha. unfold j.
    rewrite <- (ci_ticks _ _ _ Hi). destruct a as [ls0 ths ticks]. cbn in *. by apply a_clock.
Qed.

Lemma act_lock i sh l :
  v_held v = None -> sh_locks w !! i = None -> shards e !! i = Some sh -> ls !! i = Some l ->
  act_ok s a vs t th v (set_locks (insert i t) w) (set_held (Some (i, sh, l)) v) ls.
Proof.
  intros Hh Hl Hsh Hls. split; cbn; [apply Hi|..].
  - eapply shape_lock; [apply Hi|done..].
  - apply bytes_same; try done. unfold held_size. rewrite Hh. cbn. apply total_size_nonneg.
  - by apply room_same.
  - by apply capacity_same.
  - by left.
Qed.

Lemma act_with {A} i (m : M ShardInner HkvError A) sh l :
  v_held v = Some (i, sh, l) ->
  on_engine (on_shard i m) w = (fst (m sh), mkShared (with_shards (<[i := snd (m sh)]> (shards e)) e) (sh_locks w) (sh_ticks w))
  /\ act_ok s a vs t th v (mkShared (with_shards (<[i := snd (m sh)]> (shards e)) e) (sh_locks w) (sh_ticks w))
       (set_held (Some (i, snd (m sh), l)) v) ls.
Proof.
  intros Hh. destruct (sh_held _ _ _ _ (ci_shape _ _ _ Hi) _ _ _ _ _ Hv Hh) as (_ & Hsh & _). split.
  - unfold on_engine, on_shard. rewrite Hsh. by destruct (m sh).
  - split; cbn; [apply Hi|..].
    + eapply shape_with; [apply Hi|done..].
    + apply bytes_same; try done. unfold held_size. by rewrite Hh.
    + by apply room_same.
    + by apply capacity_same.
    + by left.
Qed.

(** Counters other than [used_bytes]. *)
Lemma act_counter e' :
  shards e' = shards e -> used_bytes e' = used_bytes e -> max_bytes e' = max_bytes e -> shard_mask e' = shard_mask e ->
  act_ok s a vs t th v (mkShared e' (sh_locks w) (sh_ticks w)) v ls.
Proof.
  intros H1 H2 H3 H4. split; cbn; rewrite ?H1, ?H2, ?H3, ?H4; [apply Hi|..].
  - eapply shape_view; [apply Hi|done|done].
  - by apply bytes_same.
  - by apply room_same.
  - by apply capacity_same.
  - by left.
Qed.

Lemma act_add b :
  v_duty v = InWrite -> (0 <= b <= v_credit v)%Z ->
  act_ok s a vs t th v (mkShared (with_used (wrap64 (used_bytes e + b)) e) (sh_locks w) (sh_ticks w))
    (mkView (v_phase v) (v_held v) (v_owed v - b) InWrite (v_credit v - b) (v_room v)) ls.
Proof.
  intros Hd Hb. pose proof (ci_bytes _ _ _ Hi) as Hby.
  destruct (by_view _ _ _ _ Hby v (list_elem_of_lookup_2 _ _ _ Hv)) as (H1 & H2 & H3).
  split; cbn; [apply Hi|..].
  - eapply shape_view; [apply Hi|done|done].
  - eapply (bytes_update _ _ ls ls vs _ _ t v _ b); [exact Hby|exact Hv|done|cbn; lia| |cbn; lia|by left|apply zsum_todo_nonneg|cbn; lia].
    unfold held_size in *. cbn. lia.
  - by apply room_same.
  - eapply capacity_update; [apply (ci_capacity _ _ _ Hi)|done|]. intros _. by left.
  - by left.
Qed.

Lemma act_sub b :
  (0 <= b)%Z -> (v_owed v + b <= held_size v)%Z -> (v_duty v = Popped -> (v_owed v + b)%Z = 0%Z) ->
  act_ok s a vs t th v (mkShared (with_used (wrap64 (used_bytes e - b)) e) (sh_locks w) (sh_ticks w))
    (mkView (v_phase v) (v_held v) (v_owed v + b) (after_sub (v_duty v)) (v_credit v) (v_room v)) ls.
Proof.
  intros Hb Ho Hpop. pose proof (ci_bytes _ _ _ Hi) as Hby.
  destruct (by_view _ _ _ _ Hby v (list_elem_of_lookup_2 _ _ _ Hv)) as (H1 & H2 & H3).
  set (v' := mkView _ _ _ _ _ _).
  assert (shape (shards e) (sh_locks w) ls (<[t := v']> vs)) as Hs by (eapply shape_view; [apply Hi|done|done]).
  assert (bytes_ok (wrap64 (used_bytes e - b)) ls (<[t := v']> vs) (zsum todo_bytes (sy_threads s))) as Hby'.
  { eapply (bytes_update _ _ ls ls vs _ _ t v v' (- b)); [exact Hby|exact Hv|done|unfold v'; cbn [v_owed]; lia|done|done| |apply zsum_todo_nonneg|unfold v'; cbn [v_credit]; lia].
    unfold v'. cbn. intros Hneg. destruct H3 as [H3|H3]; [lia|rewrite H3; by left|specialize (Hpop H3); lia]. }
  split; cbn; [apply Hi|done|done|..].
  - assert (pending v' = pending v) as Hp by (unfold v', pending; cbn; by destruct (v_duty v)).
    eapply room_update; [apply (ci_room _ _ _ Hi)|done|lia|].
    pose proof (proj2 (ci_room _ _ _ Hi) v (list_elem_of_lookup_2 _ _ _ Hv)). cbn. lia.
  - destruct (bytes_exact _ _ _ _ _ _ (ci_shape _ _ _ Hi) Hby) as [Hu _].
    destruct (bytes_exact _ _ _ _ _ _ Hs Hby') as [Hu' _]. rewrite (zsum_insert _ _ _ _ _ Hv) in Hu'. cbn in Hu'.
    eapply capacity_update; [apply (ci_capacity _ _ _ Hi)|done|]. intros _. right. split_and!; [lia|done|].
    intros Hr. left. unfold v', responsible in *. cbn. by destruct (v_duty v).
  - by left.
Qed.

Lemma act_load :
  v_duty v = AtTest ->
  act_ok s a vs t th v w (set_duty (if (used_bytes e <=? max)%Z then Free else Scanning []) v) ls.
Proof.
  intros Hd. pose proof (ci_bytes _ _ _ Hi) as Hby.
  destruct (by_view _ _ _ _ Hby v (list_elem_of_lookup_2 _ _ _ Hv)) as (H1 & H2 & H3).
  set (v' := set_duty _ v). assert (pending v' = 0%Z /\ pending v = 0%Z) as [Hp' Hp].
  { unfold v', pending. rewrite Hd. cbn. by destruct (_ <=? _)%Z. }
  split; cbn; [apply Hi|..].
  - eapply shape_view; [apply Hi|done|done].
  - eapply (bytes_update _ _ ls ls vs _ _ t v _ 0); [exact Hby|exact Hv| |cbn; lia|done|done| |apply zsum_todo_nonneg|cbn; lia].
    + rewrite Z.add_0_r, (by_used _ _ _ _ Hby). by rewrite (wrap64_small _ (wrap64_range _)).
    + cbn. rewrite Hd in H3. intros [?|?]%H3; done.
  - pose proof (ci_room _ _ _ Hi) as Hro. eapply room_update; [done|done|lia|].
    pose proof (proj2 Hro v (list_elem_of_lookup_2 _ _ _ Hv)). cbn. lia.
  - eapply capacity_update; [apply (ci_capacity _ _ _ Hi)|done|]. intros _. right. split_and!; [lia|done|].
    intros _. unfold v', responsible. cbn. destruct (Z.leb_spec (used_bytes e) max); [by right; left|].
    left. by intros i []%not_elem_of_nil.
  - by left.
Qed.

Lemma act_unlock i v' :
  unlocked hash n max i v v' -> exists ls', act_ok s a vs t th v (set_locks (base.delete i) w) v' ls'.
Proof.
  intros (sh & l & ph & d & m & l' & Hh & Hr & He & Hle & Hz & Hv'). exists (<[i := l']> ls).
  pose proof (sh_held _ _ _ _ (ci_shape _ _ _ Hi) _ _ _ _ _ Hv Hh) as (Hlk & Hsh & Hl).
  pose proof (abs_lookup _ _ _ _ _ _ Hi Hth Hv) as Hab.
  pose proof (sh_length_lists _ _ _ _ (ci_shape _ _ _ Hi)) as Hlen.
  pose proof (ci_bytes _ _ _ Hi) as Hby. pose proof (ci_room _ _ _ Hi) as Hro.
  destruct (by_view _ _ _ _ Hby v (list_elem_of_lookup_2 _ _ _ Hv)) as (H1 & H2 & H3).
  pose proof (proj2 Hro v (list_elem_of_lookup_2 _ _ _ Hv)) as Hroom.
  pose proof (entries_insert ls i l l' Hl) as Hent.
  split; cbn; [apply Hi|..].
  - eapply shape_unlock; [apply Hi|done..|by rewrite Hv'|done].
  - eapply (bytes_update _ _ ls _ vs _ _ t v _ 0); [exact Hby|exact Hv|..].
    + rewrite Z.add_0_r, (by_used _ _ _ _ Hby). by rewrite (wrap64_small _ (wrap64_range _)).
    + rewrite (total_insert _ _ _ _ Hl), Hv'. cbn. lia.
    + rewrite Hv'. cbn. lia.
    + by rewrite Hv'.
    + rewrite Hv'. cbn. intros Hneg. right. destruct (decide (d = Popped)) as [|Hd]; [done|]. specialize (Hz Hd). lia.
    + apply zsum_todo_nonneg.
    + rewrite Hv'. cbn. lia.
  - assert (Z.of_nat (length l') - Z.of_nat (length l) + pending (mkView ph None 0 d 0 m) <= pending v
      /\ Z.of_nat (length l') - Z.of_nat (length l) + pending (mkView ph None 0 d 0 m) - Z.of_nat m <= pending v - Z.of_nat (v_room v))%Z
      as [Hp1 Hp2].
    { unfold pending. cbn [v_duty]. inversion He; subst.
      - pose proof (lru_op_length now o l) as [Hlen' _]. unfold op_duty. destruct (is_write o); lia.
      - pose proof (length_filter (fun e => e_expired now e = false) l). unfold live. lia.
      - cbn [length]. lia.
      - lia. }
    eapply room_update; [exact Hro|done|..]; rewrite Hv';
      change (pending (mkView ph None _ d _ m)) with (pending (mkView ph None 0 d 0 m)); cbn [v_room]; lia.
  - eapply capacity_update; [apply (ci_capacity _ _ _ Hi)|done|]. intros Hm. rewrite Hv'.
    unfold responsible at 1 3 4. cbn [v_duty]. inversion He; subst.
    + pose proof (lru_op_length now o l) as [_ Hnil]. unfold op_duty. destruct (is_write o) eqn:Ho; [by left|].
      right. split_and!; [lia| |].
      2: { unfold responsible at 1. replace (v_duty v) with Free; [done|]. unfold op_duty in *. rewrite Ho in *. congruence. }
      intros j Hj. destruct (decide (j = op_shard hash n o)) as [->|Hne].
      * simplify_eq. rewrite list_lookup_insert_eq by (by eapply lookup_lt_Some). by rewrite Hnil.
      * by rewrite list_lookup_insert_ne.
    + right. split_and!; [lia| |].
      2: { unfold responsible at 1. by replace (v_duty v) with Free by congruence. }
      intros j Hj. destruct (decide (j = i)) as [->|Hne].
      * simplify_eq. by rewrite list_lookup_insert_eq by (by eapply lookup_lt_Some).
      * by rewrite list_lookup_insert_ne.
    + by left.
    + right. rewrite list_insert_id by done. split_and!; [lia|done|].
      unfold responsible at 1. replace (v_duty v) with (Scanning visited) by congruence. intros Hvis. left.
      intros j [->|Hj]%elem_of_cons; [done|by apply Hvis].
  - rewrite Hv'. cbn [v_phase]. rewrite <- (ci_ticks _ _ _ Hi). clear -Hab Hl Hlen He.
    destruct a as [ls0 ths ticks]. cbn in *.
    remember (v_phase v) as ph0 eqn:Eph. remember (v_duty v) as d0. remember (v_room v) as m0.
    inversion He; subst ph0 ph l' d d0 m m0; try subst.
    + right. pose proof (a_effect hash clock (negb (bool_decide (max = usize_max))) ls0 ths ticks t o now (th_todo th) l) as T.
      apply T; [congruence|exact Hl].
    + right. eapply a_sweep; [congruence|done].
    + right. rewrite (list_insert_id ths) by congruence. eapply a_evict; [|done|by rewrite Hab; do 2 f_equal|exact Hl].
      match goal with E : bool_decide _ = false |- _ => by rewrite E end.
    + left. rewrite list_insert_id by done. by split_and!.
Qed.


End actions.

(** ** Steps *)

Lemma act_progress s a vs t th v {X} (act : EngineAct X) x w' (R : X -> View -> Prop) :
  conc_inv s a vs -> sy_threads s !! t = Some th -> vs !! t = Some v -> (0 <= max)%Z ->
  wp_act hash clock n max act v R -> act_run clock t act (sy_shared s) = Some (x, w') ->
  exists v' ls', act_ok s a vs t th v w' v' ls' /\ R x v'.
Proof.
  intros Hi Hth Hv Hm Hwp Hrun. destruct act; cbn in Hwp, Hrun.
  - destruct Hwp as (Hh & c & Hp & HR). simplify_eq. do 2 eexists. split; [by apply act_clock|apply HR].
  - destruct Hwp as (Hh & Hlt & HR). destruct (shards _ !! i) as [sh|] eqn:Hsh.
    2: { apply lookup_ge_None in Hsh. rewrite (sh_length _ _ _ _ (ci_shape _ _ _ Hi)) in Hsh. lia. }
    destruct (sh_locks _ !! i) eqn:Hlk; [done|]. simplify_eq.
    destruct (lookup_lt_is_Some_2 (a_shards a) i) as [l Hl]; [by rewrite (sh_length_lists _ _ _ _ (ci_shape _ _ _ Hi))|].
    do 2 eexists. split; [by apply act_lock|]. apply HR.
    + by eapply (sh_free _ _ _ _ (ci_shape _ _ _ Hi)).
    + eapply room_shard; [apply (ci_room _ _ _ Hi)|apply zsum_todo_nonneg|done..].
  - destruct Hwp as (v' & Hu & HR). simplify_eq. destruct (act_unlock s a vs t th v Hi Hth Hv i v' Hu) as [ls' Ha].
    by exists v', ls'.
  - destruct Hwp as (sh & l & Hh & HR). destruct (act_with s a vs t th v Hi Hv i m sh l Hh) as [E Ha].
    rewrite E in Hrun. simplify_eq. by do 2 eexists.
  - destruct Hwp as (Hd & Hb & HR). simplify_eq. do 2 eexists. split; [by apply act_add|done].
  - destruct Hwp as (Hb & Ho & Hp & HR). simplify_eq. do 2 eexists. split; [by apply act_sub|done].
  - destruct Hwp as (Hd & HR). simplify_eq. do 2 eexists. split; [by apply act_load|apply HR].
  - simplify_eq. do 2 eexists. split; [by apply act_counter|apply Hwp].
  - simplify_eq. do 2 eexists. split; [by apply act_counter|apply Hwp].
Qed.

Section system.
Context (Hwrap : overflow_checks = false \/ max = usize_max) (lg : Z) (Hlg : (0 <= lg < 64)%Z)
  (Hn : Z.of_nat n = (2 ^ lg)%Z) (Hmask : mask = (2 ^ lg - 1)%Z) (Hmax : (0 <= max)%Z).

Abbreviation moved a lab a' := ((lab = None /\ a' = a) \/ astep hash clock (negb (bool_decide (max = usize_max))) a lab a').

(** The thread [t] alone has moved. *)
Definition others_same (t : nat) (a a' : AState) : Prop :=
  forall u, u <> t -> a_threads a' !! u = a_threads a !! u.

Lemma others_insert t a ls x ticks : others_same t a (mkAState ls (<[t := x]> (a_threads a)) ticks).
Proof. intros u Hu. cbn. by rewrite list_lookup_insert_ne. Qed.

Lemma step_act s a vs t th {X} (act : EngineAct X) k lab s' :
  conc_inv s a vs -> sy_threads s !! t = Some th -> th_run th = Some (Act act k) ->
  step hash clock n mask max fuel t s = Some (lab, s') ->
  exists a' vs', moved a lab a' /\ others_same t a a' /\ conc_inv s' a' vs'.
Proof.
  intros Hi Hth Hrun Hstep. destruct (view_lookup _ _ _ _ _ Hi Hth) as (v & Hv & Hfits & Hok). rewrite Hrun in Hok.
  destruct Hok as [c Hwp]. unfold step, thread_step in Hstep. rewrite Hth in Hstep. cbn in Hstep. rewrite Hrun in Hstep.
  destruct (act_run clock t act (sy_shared s)) as [[x w']|] eqn:Ea; [|done]. cbn in Hstep. simplify_eq.
  destruct (act_progress _ _ _ _ _ _ _ _ _ _ Hi Hth Hv Hmax Hwp Ea) as (v' & ls' & Ha & HR).
  set (th' := mkThread (th_todo th) (Some (k x))).
  eexists _, (<[t := v']> vs). split; [|split; [apply others_insert|]; eapply (conc_update s a vs t th th' v v' w' ls'); [done..| |apply Ha|apply Ha| | |apply Ha]].
  - destruct (ao_object _ _ _ _ _ _ _ _ _ Ha) as [(-> & Hp & Htk)|Hstep]; [left|by right]. split; [done|].
    by eapply (abs_same s a vs t th th' v v').
  - split; [done|]. by exists c.
  - change (todo_bytes th') with (todo_bytes th). rewrite Z.sub_add. apply Ha.
  - change (todo_writes th') with (todo_writes th). rewrite Z.sub_add. apply Ha.
Qed.

Lemma step_invoke s a vs t th c cs :
  conc_inv s a vs -> sy_threads s !! t = Some th -> th_run th = None -> th_todo th = c :: cs ->
  let s' := mkSystem (sy_shared s) (<[t := mkThread cs (Some (call_prog hash n mask max fuel c))]> (sy_threads s)) in
  exists a' vs', moved a (Some (Invoked t c : ELabel)) a' /\ others_same t a a' /\ conc_inv s' a' vs'.
Proof.
  intros Hi Hth Hrun Htodo s'. destruct (view_lookup _ _ _ _ _ Hi Hth) as (v & Hv & Hfits & Hok). rewrite Hrun in Hok.
  destruct Hok as [room ->]. rewrite Htodo in Hfits. apply Forall_cons in Hfits as [Hfit Hfits].
  set (th' := mkThread cs (Some (call_prog hash n mask max fuel c))). set (v' := called_view c (fuel - 1)).
  pose proof (ci_bytes _ _ _ Hi) as Hby. pose proof (ci_room _ _ _ Hi) as Hro.
  pose proof (proj1 Hro) as Hall. pose proof (pending_nonneg vs). pose proof (zsum_todo_nonneg (sy_threads s)) as [_ Hw0].
  assert (todo_bytes th = (call_bytes c + todo_bytes th')%Z /\ todo_writes th = (call_writes c + todo_writes th')%Z) as [Hb Hw].
  { unfold todo_bytes, todo_writes. by rewrite Htodo. }
  assert (pending v' = call_writes c) as Hp by (by destruct c as [[]|]).
  eexists _, (<[t := v']> vs). split; [right|split; [apply others_insert|]; eapply (conc_update s a vs t th th' _ v' (sy_shared s) (a_shards a)); [done..| |apply Hi| | | |]].
  - pose proof (abs_lookup _ _ _ _ _ _ Hi Hth Hv) as Ha. rewrite Htodo in Ha. rewrite <- (ci_ticks _ _ _ Hi).
    destruct a as [ls ths ticks]. by apply a_invoke.
  - split; [done|]. exists c. apply (wp_call hash clock n mask max Hwrap lg Hlg Hn Hmask); [done|]. lia.
  - eapply shape_view; [apply Hi|done|done].
  - eapply (bytes_update _ _ _ _ vs _ _ t _ _ 0); [exact Hby|exact Hv|..].
    + rewrite Z.add_0_r, (by_used _ _ _ _ Hby). by rewrite (wrap64_small _ (wrap64_range _)).
    + change (v_owed v') with 0%Z. cbn [v_owed idle_view]. lia.
    + done.
    + unfold v'. cbn. destruct c as [[]|]; cbn -[e_size]; try lia; apply e_size_nonneg.
    + by change (v_owed v') with 0%Z.
    + pose proof (proj1 (zsum_todo_nonneg (<[t := th']> (sy_threads s)))) as Hz. rewrite (zsum_insert _ _ _ _ _ Hth) in Hz. done.
    + change (v_credit v') with (call_bytes c). cbn [v_credit idle_view]. lia.
  - eapply room_update; [exact Hro|done|..]; rewrite Hp; change (v_room v') with (fuel - 1); change (pending (idle_view room)) with 0%Z; lia.
  - eapply capacity_update; [apply (ci_capacity _ _ _ Hi)|done|]. intros _. right. split_and!; [lia|done|done].
Qed.

Lemma step_return s a vs t th o :
  conc_inv s a vs -> sy_threads s !! t = Some th -> th_run th = Some (Ret o) ->
  let s' := mkSystem (sy_shared s) (<[t := mkThread (after_return o (th_todo th)) None]> (sy_threads s)) in
  exists a' vs', moved a (Some (Returned t o : ELabel)) a' /\ others_same t a a' /\ conc_inv s' a' vs'.
Proof.
  intros Hi Hth Hrun s'. destruct (view_lookup _ _ _ _ _ Hi Hth) as (v & Hv & Hfits & Hok). rewrite Hrun in Hok.
  destruct Hok as [c (Hh & Ho & Hd & Hc & Hans)]. set (v' := idle_view (fuel - 1)).
  pose proof (ci_bytes _ _ _ Hi) as Hby. pose proof (ci_room _ _ _ Hi) as Hro. pose proof (proj1 Hro) as Hall.
  pose proof (pending_nonneg vs). pose proof (zsum_todo_nonneg (sy_threads s)) as [_ Hw0].
  assert (after_return o (th_todo th) = th_todo th) as Htd by (destruct c; naive_solver).
  set (th' := @mkThread EngineAct HkvError Call Answer (after_return o (th_todo th)) None).
  assert (pending v = 0%Z /\ pending v' = 0%Z) as [Hp Hp'].
  { split; [|done]. unfold pending. by destruct Hd as [-> |[[_ ->]|(visited & -> & _)]]. }
  eexists _, (<[t := v']> vs). split; [right|split; [apply others_insert|]; eapply (conc_update s a vs t th th' v v' (sy_shared s) (a_shards a)); [done..| |apply Hi| | | |]].
  - pose proof (abs_lookup _ _ _ _ _ _ Hi Hth Hv) as Ha. rewrite <- (ci_ticks _ _ _ Hi).
    pose proof (sh_length_lists _ _ _ _ (ci_shape _ _ _ Hi)) as Hlen.
    unfold abs_thread, th'. rewrite Htd. destruct a as [ls ths ticks]. cbn in *. destruct c as [op|].
    + destruct Hans as (r & -> & Hph). rewrite Hph in Ha. by eapply a_return.
    + destruct Hans as (now & removed & -> & Hph). rewrite Hph, <- Hlen in Ha. by eapply a_swept.
  - split; [unfold th'; by rewrite Htd|]. by eexists.
  - eapply shape_view; [apply Hi|done|by rewrite Hh].
  - unfold th'. rewrite Htd. change (todo_bytes (mkThread _ None : EThread)) with (todo_bytes th). rewrite Z.sub_add.
    eapply (bytes_update _ _ _ _ vs _ _ t _ _ 0); [exact Hby|exact Hv|..].
    + rewrite Z.add_0_r, (by_used _ _ _ _ Hby). by rewrite (wrap64_small _ (wrap64_range _)).
    + change (v_owed v') with 0%Z. lia.
    + done.
    + done.
    + by change (v_owed v') with 0%Z.
    + apply zsum_todo_nonneg.
    + change (v_credit v') with 0%Z. lia.
  - unfold th'. rewrite Htd. change (todo_writes (mkThread _ None : EThread)) with (todo_writes th). rewrite Z.sub_add.
    eapply room_update; [exact Hro|done|..]; rewrite Hp, Hp'; change (v_room v') with (fuel - 1); lia.
  - eapply capacity_update; [apply (ci_capacity _ _ _ Hi)|done|]. intros Hm. right. split_and!; [lia|done|].
    intros Hr. right. destruct Hd as [Hd|[[? _]|(visited & Hd & Hvis)]]; [|done|].
    + unfold responsible in Hr. by rewrite Hd in Hr.
    + by eapply scanned_all; [apply Hi|exact Hby|done|exact Hv|exact Hd|exact Hvis|].
Qed.

Lemma conc_step s a vs t lab s' :
  conc_inv s a vs -> step hash clock n mask max fuel t s = Some (lab, s') ->
  exists a' vs', moved a lab a' /\ others_same t a a' /\ conc_inv s' a' vs'.
Proof.
  intros Hi Hstep. destruct (sy_threads s !! t) as [th|] eqn:Hth.
  2: { unfold step, thread_step in Hstep. by rewrite Hth in Hstep. }
  destruct (th_run th) as [[o|X act k]|] eqn:Hrun.
  - unfold step, thread_step in Hstep. rewrite Hth in Hstep. cbn in Hstep. rewrite Hrun in Hstep. simplify_eq. by eapply step_return.
  - by eapply step_act.
  - unfold step, thread_step in Hstep. rewrite Hth in Hstep. cbn in Hstep. rewrite Hrun in Hstep.
    destruct (th_todo th) as [|c cs] eqn:Htd; [done|]. simplify_eq. by eapply step_invoke.
Qed.

Lemma conc_run ts s a vs tr s' :
  conc_inv s a vs -> schedule_run hash clock n mask max fuel ts s = Some (tr, s') ->
  exists a' vs', aexec hash clock (negb (bool_decide (max = usize_max))) a tr a' /\ conc_inv s' a' vs'.
Proof.
  intros Hi Hrun.
  destruct (threads_run_inv (@act_run clock) (call_prog hash n mask max fuel) (fun s '(a, vs) => conc_inv s a vs)
    (fun '(a, _) tr '(a', _) => aexec hash clock (negb (bool_decide (max = usize_max))) a tr a') ts s (a, vs) tr s')
    as ([a' vs'] & Ha & Hi'); [|clear s a vs s' tr Hi Hrun; intros t s [a vs] lab s' Hi Hs|exact Hi|exact Hrun|by exists a', vs'].
  - intros [? ?]. constructor.
  - destruct (conc_step _ _ _ _ _ _ Hi Hs) as (a1 & vs1 & Hm & _ & Hi1). exists (a1, vs1). split; [done|].
    intros tr [a'' vs''] Ha. destruct Hm as [[-> ->]|Hm]; [done|by econstructor].
Qed.

(** A thread in a call can go on, or the one whose lock it waits for can. *)
Lemma conc_call_progress s a vs t th :
  conc_inv s a vs -> sy_threads s !! t = Some th -> th_run th <> None ->
  exists u thu lab s', sy_threads s !! u = Some thu /\ th_run thu <> None
    /\ step hash clock n mask max fuel u s = Some (lab, s').
Proof.
  intros Hi Hth Hbusy.
  assert (forall u thu, sy_threads s !! u = Some thu -> th_run thu <> None ->
    (exists lab s', step hash clock n mask max fuel u s = Some (lab, s'))
    \/ exists i v, vs !! u = Some v /\ v_held v = None /\ is_Some (sh_locks (sy_shared s) !! i)) as Hcan.
  { intros u thu Hu Hb. unfold step, thread_step. rewrite Hu. cbn. destruct (th_run thu) as [[o|X act k]|] eqn:Hrun; [left; eauto| |done].
    destruct (view_lookup _ _ _ _ _ Hi Hu) as (v & Hv & _ & Hok). rewrite Hrun in Hok. destruct Hok as [c Hwp].
    cbn in Hwp. destruct act; try (left; cbn; by do 2 eexists).
    destruct Hwp as (Hh & _). cbn. destruct (shards _ !! i); [|left; cbn; by do 2 eexists].
    destruct (sh_locks _ !! i) as [u'|] eqn:Hl; [|left; cbn; by do 2 eexists]. right. exists i, v. eauto. }
  destruct (Hcan t th Hth Hbusy) as [(lab & s' & E)|(i & v & _ & _ & [u Hl])]; [by exists t, th, lab, s'|].
  destruct (sh_locked _ _ _ _ (ci_shape _ _ _ Hi) i u Hl) as (vu & sh & l & Hvu & Hheld).
  assert (is_Some (sy_threads s !! u)) as [thu Hu].
  { apply lookup_lt_is_Some. rewrite (Forall2_length _ _ _ (ci_threads _ _ _ Hi)). by eapply lookup_lt_Some. }
  assert (th_run thu <> None) as Hbu.
  { intros E. destruct (view_lookup _ _ _ _ _ Hi Hu) as (v' & Hv' & _ & Hok). rewrite E in Hok. destruct Hok as [room ->].
    rewrite Hv' in Hvu. by simplify_eq. }
  destruct (Hcan u thu Hu Hbu) as [(lab & s' & E)|(j & v' & Hv' & Hh' & _)]; [by exists u, thu, lab, s'|congruence].
Qed.

(** Some thread can go on, unless all are done. *)
Lemma conc_progress s a vs t th :
  conc_inv s a vs -> sy_threads s !! t = Some th -> (th_run th <> None \/ th_todo th <> []) ->
  exists u lab s', step hash clock n mask max fuel u s = Some (lab, s').
Proof.
  intros Hi Hth Hbusy. destruct (th_run th) as [p|] eqn:Hrun.
  - destruct (conc_call_progress s a vs t th Hi Hth) as (u & thu & lab & s' & _ & _ & E); [by rewrite Hrun|eauto].
  - exists t. unfold step, thread_step. rewrite Hth. cbn. rewrite Hrun.
    destruct (th_todo th); [by destruct Hbusy|by do 2 eexists].
Qed.

(** When all threads are done the engine is a cache again. *)
Lemma conc_settled s a vs :
  conc_inv s a vs -> (forall th, th ∈ sy_threads s -> th_run th = None) ->
  let e := sh_engine (sy_shared s) in
  engine_rep e (mkCache (a_shards a) max (eviction_cursor e)) /\ used_bytes e = total (a_shards a)
  /\ sh_locks (sy_shared s) = ∅ /\ (max <> usize_max -> (used_bytes e <= max)%Z).
Proof.
  intros Hi Hdone e.
  assert (forall t v, vs !! t = Some v -> exists room, v = idle_view room) as Hidle.
  { intros t v Hv. destruct (Forall2_lookup_r _ _ _ _ _ (ci_threads _ _ _ Hi) Hv) as (th & Hth & _ & Hok).
    by rewrite (Hdone th (list_elem_of_lookup_2 _ _ _ Hth)) in Hok. }
  pose proof (ci_shape _ _ _ Hi) as Hs. destruct (bytes_exact _ _ _ _ _ _ Hs (ci_bytes _ _ _ Hi)) as [Hu _].
  assert (zsum v_owed vs = 0%Z) as H0.
  { clear -Hidle. induction vs as [|v vs' IH]; [done|]. cbn. destruct (Hidle 0 v eq_refl) as [room ->]. cbn.
    apply IH. intros t v'. by apply (Hidle (S t)). }
  assert (sh_locks (sy_shared s) = ∅) as Hl.
  { apply map_empty. intros i. destruct (sh_locks _ !! i) as [t|] eqn:Hi'; [|done].
    destruct (sh_locked _ _ _ _ Hs i t Hi') as (v & sh & l & Hv & Hh). destruct (Hidle t v Hv) as [room ->]. done. }
  destruct (ci_consts _ _ _ Hi) as [Hmb Hmk]. subst e. split_and!; [|lia|done|].
  - split; cbn; try done.
    + apply Forall2_same_length_lookup. split; [by rewrite (sh_length _ _ _ _ Hs), (sh_length_lists _ _ _ _ Hs)|].
      intros i sh l Hsh Hls. eapply (sh_free _ _ _ _ Hs); [done..|by rewrite Hl].
    + exists lg. by rewrite (sh_length _ _ _ _ Hs), Hmk.
    + rewrite (by_used _ _ _ _ (ci_bytes _ _ _ Hi)). by rewrite H0, Z.sub_0_r.
  - intros Hm. destruct (ci_capacity _ _ _ Hi Hm) as [Hle|(t & v & Hv & Hr)]; [done|].
    destruct (Hidle t v Hv) as [room ->]. done.
Qed.

End system.

End invariant.

(** ** From a quiet engine *)

(** Threads with their calls on an engine nobody uses: deadlines the clock can
    represent, fewer than 2^64 bytes in all, and fuel for the eviction loops. *)
Record workload `{Profile} (clock : nat -> Instant) (e : MemoryEngine) (c : Cache) (calls : list (list Call)) (fuel : nat)
    : Prop := {
  wl_rep : engine_rep e c;
  wl_profile : overflow_checks = false \/ max_bytes e = usize_max;
  wl_capacity : (used_bytes e <= max_bytes e)%Z;
  wl_fits : Forall (Forall (call_fits clock)) calls;
  wl_bytes : (total (c_shards c) + zsum (zsum call_bytes) calls <= u64_max)%Z;
  wl_fuel : (Z.of_nat (entries (c_shards c)) + zsum (zsum call_writes) calls < Z.of_nat fuel)%Z
}.

(** The program's steps, for the constants of the engine [e]. *)
Definition engine_step `{Profile} (hash : bytes -> Z) (clock : nat -> Instant) (e : MemoryEngine) (fuel t : nat) (s : ESystem) :
    option (option ELabel * ESystem) :=
  step hash clock (length (shards e)) (shard_mask e) (max_bytes e) fuel t s.
Definition engine_schedule `{Profile} (hash : bytes -> Z) (clock : nat -> Instant) (e : MemoryEngine) (fuel : nat) (ts : list nat)
    (s : ESystem) : option (list ELabel * ESystem) :=
  schedule_run hash clock (length (shards e)) (shard_mask e) (max_bytes e) fuel ts s.

Section workload.
Context `{Profile} (hash : bytes -> Z) (clock : nat -> Instant) (e : MemoryEngine) (c : Cache)
  (calls : list (list Call)) (fuel : nat).
Context (Hw : workload clock e c calls fuel).

Abbreviation limit := (total (c_shards c) + zsum (zsum call_bytes) calls)%Z.
Abbreviation inv := (conc_inv hash clock (length (shards e)) (shard_mask e) (max_bytes e) fuel limit).

Lemma conc_start : inv (start e calls) (astart (c_shards c) calls) (replicate (length calls) (idle_view (fuel - 1))).
Proof.
  destruct Hw as [Hr Hp Hcap Hf Hb Hfu]. pose proof (er_shards _ _ Hr) as Hs.
  assert (forall f : View -> Z, f (idle_view (fuel - 1)) = 0%Z -> zsum f (replicate (length calls) (idle_view (fuel - 1))) = 0%Z) as Hz
    by (intros f; apply zsum_replicate).
  assert (forall f : list Call -> Z, zsum (fun th => f (th_todo th)) ((fun cs => mkThread cs None : EThread) <$> calls) = zsum f calls) as Ht
    by (intros f; apply (zsum_fmap (fun th => f (th_todo th)) (fun cs => mkThread cs None : EThread))).
  assert (forall (v : View), v ∈ replicate (length calls) (idle_view (fuel - 1)) -> v = idle_view (fuel - 1)) as Hv
    by (by intros v [-> _]%elem_of_replicate).
  split; cbn.
  - split; [done|by rewrite (Forall2_length _ _ _ Hs)|..].
    + intros i sh l Hsh Hl _. by apply (Forall2_lookup_lr _ _ _ i _ _ Hs Hsh Hl).
    + intros i t. by rewrite lookup_empty.
    + intros t v i sh l Hv' Hh. apply list_elem_of_lookup_2, Hv in Hv'. by subst.
  - clear. generalize (fuel - 1). intros r. induction calls as [|cs calls' IH]; cbn; [done|]. f_equal. apply IH.
  - clear -Hf. induction Hf as [|cs calls' Hc Hf IH]; cbn; constructor; [|done]. split; [done|]. by eexists.
  - done.
  - done.
  - split.
    + rewrite Hz by done. by rewrite Z.sub_0_r, (er_used _ _ Hr).
    + intros v ->%Hv. cbn. split_and!; try lia.
    + rewrite !Hz by done. rewrite (Ht (zsum call_bytes) : zsum todo_bytes _ = _). lia.
    + apply zsum_todo_nonneg.
  - unfold room_ok. rewrite !Hz by done. rewrite (Ht (zsum call_writes) : zsum todo_writes _ = _). split; [lia|]. intros v ->%Hv. cbn [v_room idle_view]. lia.
  - intros _. by left.
Qed.

Lemma schedule_inv ts tr s :
  engine_schedule hash clock e fuel ts (start e calls) = Some (tr, s) ->
  exists a vs, aexec hash clock (negb (bool_decide (max_bytes e = usize_max))) (astart (c_shards c) calls) tr a /\ inv s a vs.
Proof.
  destruct Hw as [Hr Hp Hcap Hf Hb Hfu]. pose proof (er_pow _ _ Hr) as (lg & Hlg & Hn & Hmask).
  intros Hrun. apply (conc_run hash clock _ _ _ fuel limit Hb Hp lg Hlg Hn Hmask) with (vs := replicate (length calls) (idle_view (fuel - 1))) (s := start e calls) (ts := ts).
  - transitivity (used_bytes e); [|done]. rewrite (er_used _ _ Hr). apply wrap64_range.
  - apply conc_start.
  - exact Hrun.
Qed.

(** The object only ever returns values. *)
Lemma aexec_values bounded a tr a' t o :
  aexec hash clock bounded a tr a' -> Returned t o ∈ tr -> exists x, o = Val x.
Proof.
  induction 1 as [|a lab a1 tr a2 Hstep _ IH]; [by intros []%not_elem_of_nil|].
  intros [Hin|Hin]%elem_of_app; [|by apply IH]. destruct lab as [lab|]; [|by apply not_elem_of_nil in Hin].
  apply list_elem_of_singleton in Hin as <-. inversion Hstep; subst; eauto.
Qed.

End workload.


(** ** An example

    Two threads on a fresh engine of one shard with a capacity of four bytes: one
    writes a key that soon expires, the other reads it and sweeps. In these turns
    the sweeper waits for the writer's lock. *)

Definition example_calls : list (list Call) :=
  [[CallOp (OpSetTtl (lit "a") (lit "1") 1)]; [CallOp (OpGet (lit "a")); CallPurge]].
Definition example_clock (j : nat) : Instant := Z.of_nat (Nat.min j 9).
Definition example_turns : list nat := [1; 0; 1; 0; 1; 1; 1; 0; 1; 0; 1; 0; 1] ++ repeat 0 6 ++ [1; 0; 1; 0] ++ repeat 1 6.
Definition example_run : option (list ELabel * ESystem) :=
  engine_schedule (H := release_profile) (fun _ => 0%Z) example_clock (fresh 1 4) 10 example_turns
    (start (fresh 1 4) example_calls).
Definition example_trace : list ELabel :=
  [Invoked 1 (CallOp (OpGet (lit "a"))); Invoked 0 (CallOp (OpSetTtl (lit "a") (lit "1") 1));
   Returned 1 (Val (AReply (RValue None))); Invoked 1 CallPurge;
   Returned 0 (Val (AReply (RDone (Ok tt)))); Returned 1 (Val (APurged 1))].

Lemma example_workload :
  workload (H := release_profile) example_clock (fresh 1 4) (empty_cache 1 4) example_calls 10.
Proof.
  split.
  - by apply (fresh_rep 0).
  - by left.
  - done.
  - repeat constructor; intros o j [= <-]; cbn; unfold example_clock, instant_limit; lia.
  - vm_compute. done.
  - vm_compute. done.
Qed.
