(* ===== verification/EngineConcThms.v ===== *)
(** * The engine under any interleaving (hkv-engine/src/memory.rs)

    What follows from the invariant of EngineConcInv.v: calls are linearizable on a
    sharded LRU cache; they return; they leave the counters exact and the capacity
    kept. Two writers together can evict more than either had to. *)

From S2P Require Import Prelude Threads Errors KVEngine LruSpec Shard Dll ShardRefine Engine EngineSpec EngineRefine.
From S2P Require Import EngineKV EngineThms EngineConc EngineConcSpec EngineConcWp EngineConcInv.

(** ** The theorems *)

(** C6: However the calls of any number of threads, of a [workload], are interleaved, action by action, what
    they return is what the atomic object of EngineConcSpec.v can return: every call takes effect at one point between its
    invocation and its return, on a sharded LRU cache, a writer may drop least recently used entries before it
    returns if the engine has a capacity, and the sweeper removes what expired shard by shard. *)
Theorem engine_linearizable `{Profile} hash clock e c calls fuel ts tr s :
  workload clock e c calls fuel -> engine_schedule hash clock e fuel ts (start e calls) = Some (tr, s) ->
  exists a, aexec hash clock (negb (bool_decide (max_bytes e = usize_max))) (astart (c_shards c) calls) tr a.
Proof. intros Hw Hrun. destruct (schedule_inv _ _ _ _ _ _ Hw _ _ _ Hrun) as (a & vs & Ha & _). by exists a. Qed.

Lemma engine_linearizable_witness :
  match example_run with
  | Some (tr, s) =>
      tr = example_trace /\ exists a, aexec (fun _ => 0%Z) example_clock true (astart (replicate 1 []) example_calls) tr a
  | None => False
  end.
Proof.
  pose proof (@engine_linearizable release_profile (fun _ => 0%Z) example_clock (fresh 1 4) (empty_cache 1 4)
    example_calls 10 example_turns) as Hlin.
  assert (fst <$> example_run = Some example_trace) as E by (vm_compute; reflexivity).
  unfold example_run in *. destruct (engine_schedule _ _ _ _ _ _) as [[tr s]|]; [|discriminate E].
  injection E as ->. split; [reflexivity|]. exact (Hlin _ s example_workload eq_refl).
Defined.


(** C7: For calls whose deadlines the clock can represent, which write fewer than 2^64 bytes in all (with a
    capacity, in the release profile): no schedule goes on for ever, no call panics or runs out of the fuel of its
    loop, and no thread waits for a lock for ever: when no thread can make a step, all of them have returned from
    all their calls. A call whose deadline the clock cannot represent panics ([overflowing_deadline_panics]). *)
Theorem concurrent_calls_return `{Profile} hash clock e c calls fuel :
  workload clock e c calls fuel ->
  Acc (fun s' s => exists t lab, engine_step hash clock e fuel t s = Some (lab, s')) (start e calls)
  /\ forall ts tr s, engine_schedule hash clock e fuel ts (start e calls) = Some (tr, s) ->
       (forall t o, Returned t o ∈ tr -> exists answer, o = Val answer)
       /\ ((forall t, engine_step hash clock e fuel t s = None) -> forall th, th ∈ sy_threads s -> th = mkThread [] None).
Proof.
  intros Hw. split.
  - apply schedules_end.
  - intros ts tr s Hrun. destruct (schedule_inv _ _ _ _ _ _ Hw _ _ _ Hrun) as (a & vs & Ha & Hi).
    split; [intros t o; by eapply aexec_values|]. intros Hstuck th [t Hth]%list_elem_of_lookup_1.
    destruct (decide (th_run th = None /\ th_todo th = [])) as [[H1 H2]|Hbusy]; [by destruct th; cbn in *; subst|].
    exfalso. destruct (conc_progress _ _ _ _ _ _ _ _ _ _ t th Hi Hth) as (u & lab & s' & E).
    + destruct (th_run th); [by left|]. destruct (th_todo th); [|by right]. by destruct Hbusy.
    + unfold engine_step in Hstuck. by rewrite Hstuck in E.
Qed.

Lemma concurrent_calls_return_witness :
  match example_run with
  | Some (tr, s) =>
      (forall t, engine_step (H := release_profile) (fun _ => 0%Z) example_clock (fresh 1 4) 10 t s = None)
      /\ forall th, th ∈ sy_threads s -> th = mkThread [] None
  | None => False
  end.
Proof.
  destruct (@concurrent_calls_return release_profile (fun _ => 0%Z) example_clock (fresh 1 4) (empty_cache 1 4)
    example_calls 10 example_workload) as [_ Hret].
  specialize (Hret example_turns). unfold example_run.
  assert (match example_run with Some (tr, s) => sy_threads s = [mkThread [] None; mkThread [] None] | None => False end) as E
    by (vm_compute; reflexivity).
  unfold example_run in E. destruct (engine_schedule _ _ _ _ _ _) as [[tr s]|]; [|destruct E].
  destruct (Hret tr s eq_refl) as [_ Hstuck].
  assert (forall t, engine_step (H := release_profile) (fun _ => 0%Z) example_clock (fresh 1 4) 10 t s = None) as Hno.
  { intros [|[|t]]; unfold engine_step, step, thread_step; rewrite E; reflexivity. }
  split; [exact Hno|exact (Hstuck Hno)].
Defined.


(** C8: Under the calls of a [workload], [used_bytes] never falls below zero: it is never more than what was
    there and all the calls write. When all threads are between calls the engine is a well-formed sharded cache again, nobody holds a lock,
    [used_bytes] is exactly the bytes of its entries, and they are within the capacity. *)
Theorem concurrent_engine_settles `{Profile} hash clock e c calls fuel ts tr s :
  workload clock e c calls fuel -> engine_schedule hash clock e fuel ts (start e calls) = Some (tr, s) ->
  let e' := sh_engine (sy_shared s) in
  (0 <= used_bytes e' <= total (c_shards c) + zsum (zsum call_bytes) calls)%Z
  /\ ((forall th, th ∈ sy_threads s -> th_run th = None) ->
       sh_locks (sy_shared s) = ∅ /\ exists c', engine_rep e' c' /\ used_bytes e' = total (c_shards c')
         /\ (used_bytes e' <= max_bytes e)%Z).
Proof.
  intros Hw Hrun e'. destruct (schedule_inv _ _ _ _ _ _ Hw _ _ _ Hrun) as (a & vs & Ha & Hi).
  pose proof (wl_bytes _ _ _ _ _ Hw) as Hb. pose proof (er_pow _ _ (wl_rep _ _ _ _ _ Hw)) as (lg & Hlg & Hn & Hmask).
  destruct (bytes_exact _ _ Hb _ _ _ _ _ _ (ci_shape _ _ _ _ _ _ _ _ _ _ Hi) (ci_bytes _ _ _ _ _ _ _ _ _ _ Hi)) as [_ Hle].
  split; [exact Hle|]. intros Hdone.
  destruct (conc_settled _ _ _ _ _ _ _ Hb lg Hlg Hn Hmask _ _ _ Hi Hdone) as (Hr & Hu & Hl & Hcap).
  split; [done|]. eexists. split; [exact Hr|]. split; [exact Hu|].
  destruct (decide (max_bytes e = usize_max)) as [->|Hm]; [|by apply Hcap]. unfold e', usize_max. lia.
Qed.

Lemma concurrent_engine_settles_witness :
  match example_run with
  | Some (tr, s) =>
      let e' := sh_engine (sy_shared s) in
      (0 <= used_bytes e' <= 2)%Z /\ sh_locks (sy_shared s) = ∅
      /\ exists c', engine_rep e' c' /\ used_bytes e' = total (c_shards c') /\ (used_bytes e' <= 4)%Z
  | None => False
  end.
Proof.
  pose proof (@concurrent_engine_settles release_profile (fun _ => 0%Z) example_clock (fresh 1 4) (empty_cache 1 4)
    example_calls 10 example_turns) as Hset.
  assert (match example_run with Some (tr, s) => sy_threads s = [mkThread [] None; mkThread [] None] | None => False end) as E
    by (vm_compute; reflexivity).
  unfold example_run in *. destruct (engine_schedule _ _ _ _ _ _) as [[tr s]|]; [|destruct E].
  destruct (Hset tr s example_workload eq_refl) as [Hb Hq].
  split; [exact Hb|]. apply Hq. intros th Hth. rewrite E in Hth.
  repeat (apply elem_of_cons in Hth as [-> |Hth]; [reflexivity|]). by apply not_elem_of_nil in Hth.
Defined.


(** ** Two writers at once *)

(** One shard of capacity 4 that holds two entries of two bytes, and two threads
    that write a third and a fourth. *)
Definition full_engine : MemoryEngine :=
  snd (engine_run (H := release_profile) (fun _ => 0%Z)
    [EOp 0 (OpSet (lit "a") (lit "1")); EOp 0 (OpSet (lit "b") (lit "2"))] (fresh 1 4)).

Definition set_c : Op := OpSet (lit "c") (lit "3").
Definition set_d : Op := OpSet (lit "d") (lit "4").

(** C29: Concurrent writers can evict more than the capacity asks for, a key that was just written included:
    [evict_if_needed] takes the size of what it evicted off [used_bytes] after it released the shard, so that
    a second writer still counts the bytes the first one has freed. In this schedule the first writer is
    interrupted there: the cache ends with 2 of its 4 bytes in use and without "c", whereas one after the other, in
    either order, the two writes leave both keys in a full cache. *)
Theorem concurrent_writers_over_evict :
  let engine := memory_engine (H := release_profile) (fun _ => 0%Z) in
  match engine_schedule (H := release_profile) (fun _ => 0%Z) Z.of_nat full_engine 10
          (repeat 0 13 ++ repeat 1 22 ++ repeat 0 3) (start full_engine [[CallOp set_c]; [CallOp set_d]]) with
  | None => False
  | Some (tr, s) =>
      let e' := sh_engine (sy_shared s) in
      tr = [Invoked 0 (CallOp set_c); Invoked 1 (CallOp set_d);
            Returned 1 (Val (AReply (RDone (Ok tt)))); Returned 0 (Val (AReply (RDone (Ok tt))))]
      /\ used_bytes e' = 2%Z
      /\ fst (kv_get (KVEngine := engine) 9 (lit "c") e') = Val None
  end
  /\ forall o1 o2, (o1, o2) = (set_c, set_d) \/ (o1, o2) = (set_d, set_c) ->
       let e' := snd (kv_run (H := engine) [(0, o1); (0, o2)]%Z full_engine) in
       used_bytes e' = 4%Z
       /\ fst (kv_get (KVEngine := engine) 9 (lit "c") e') = Val (Some (lit "3"))
       /\ fst (kv_get (KVEngine := engine) 9 (lit "d") e') = Val (Some (lit "4")).
Proof.
  split; [vm_compute; done|]. intros o1 o2 [[= -> ->]|[= -> ->]]; vm_compute; done.
Qed.
