(* ===== verification/EngineConcMap.v ===== *)
(** * Concurrent callers see one map (hkv-engine/src/engine.rs)

    The atomic object of EngineConcSpec.v without its shards and its recency
    order: the map of keys to values and deadlines that a client of the [KVEngine]
    trait sees. The object implements it, and so do the programs of EngineConc.v. *)

From S2P Require Import Prelude Threads Errors KVEngine LruSpec Shard ShardRefine Engine EngineSpec EngineRefine.
From S2P Require Import EngineKV EngineThms EngineConc EngineConcSpec EngineConcWp EngineConcInv.

(** ** The map as an atomic object *)

Inductive MPhase : Type :=
| MIdle
| MCalled (c : Call)
| MTimed (o : Op) (now : Instant)
| MSweeping (now : Instant)
| MDone (o : Op) (r : Reply).

Definition m_timed (c : Call) (now : Instant) : MPhase :=
  match c with CallOp o => MTimed o now | CallPurge => MSweeping now end.

Record MState := mkMState {
  m_store : store;
  m_threads : list (list Call * MPhase);
  m_ticks : nat
}.

(** A sweep removes some of the keys that expired and changes no other. *)
Definition swept (now : Instant) (m m' : store) : Prop :=
  forall k, m' !! k = m !! k \/ (m_live now k m = None /\ m' !! k = None).

Section automaton.
Context (clock : nat -> Instant) (bounded : bool).

Inductive mstep : MState -> option ELabel -> MState -> Prop :=
| m_invoke m ths ticks t c cs :
    ths !! t = Some (c :: cs, MIdle) ->
    mstep (mkMState m ths ticks) (Some (Invoked t c)) (mkMState m (<[t := (cs, MCalled c)]> ths) ticks)
| m_clock m ths ticks t c cs :
    ths !! t = Some (cs, MCalled c) ->
    mstep (mkMState m ths ticks) None (mkMState m (<[t := (cs, m_timed c (clock ticks))]> ths) (S ticks))
| m_effect m ths ticks t o now cs :
    ths !! t = Some (cs, MTimed o now) ->
    mstep (mkMState m ths ticks) None
      (mkMState (snd (m_exec now o m)) (<[t := (cs, MDone o (fst (m_exec now o m)))]> ths) ticks)
| m_sweep m m' ths ticks t now cs :
    ths !! t = Some (cs, MSweeping now) -> swept now m m' ->
    mstep (mkMState m ths ticks) None (mkMState m' ths ticks)
| m_evict m m' ths ticks t o r cs :
    bounded = true -> is_write o = true -> ths !! t = Some (cs, MDone o r) -> m' ⊆ m ->
    mstep (mkMState m ths ticks) None (mkMState m' ths ticks)
| m_return m ths ticks t o r cs :
    ths !! t = Some (cs, MDone o r) ->
    mstep (mkMState m ths ticks) (Some (Returned t (Val (AReply r)))) (mkMState m (<[t := (cs, MIdle)]> ths) ticks)
| m_swept m ths ticks t now removed cs :
    ths !! t = Some (cs, MSweeping now) ->
    mstep (mkMState m ths ticks) (Some (Returned t (Val (APurged removed)))) (mkMState m (<[t := (cs, MIdle)]> ths) ticks).

Inductive mexec : MState -> list ELabel -> MState -> Prop :=
| mexec_refl a : mexec a [] a
| mexec_step a lab a' tr a'' : mstep a lab a' -> mexec a' tr a'' -> mexec a (option_list lab ++ tr) a''.

End automaton.

Definition mstart (m : store) (calls : list (list Call)) : MState :=
  mkMState m ((fun cs => (cs, MIdle)) <$> calls) 0.

(** ** The sharded cache implements it *)

Definition map_phase (p : APhase) : MPhase :=
  match p with
  | AIdle => MIdle
  | ACalled c => MCalled c
  | ATimed o now => MTimed o now
  | APurging now _ _ => MSweeping now
  | ADone o r => MDone o r
  end.

Section sim.
Context (hash : bytes -> Z).

Abbreviation cache ls := (mkCache ls 0 0).

(** Every shard has each key once. *)
Definition shards_ok (ls : list lru) : Prop := 0 < length ls /\ Forall (fun l => NoDup (keys l)) ls.

Lemma shards_ok_insert ls (i : nat) l : NoDup (keys l) -> shards_ok ls -> shards_ok (<[i := l]> ls).
Proof. intros Hl [Hlen Hls]. split; [by rewrite length_insert|]. by apply Forall_insert. Qed.

Lemma shards_ok_has ls : shards_ok ls -> has_shard hash (cache ls).
Proof.
  intros [Hlen _] k. apply lookup_lt_is_Some_2. unfold c_index. cbn [c_shards].
  pose proof (Z.mod_pos_bound (hash k) (Z.of_nat (length ls)) ltac:(lia)). lia.
Qed.

Lemma shard_of_key ls l o :
  ls !! op_shard hash (length ls) o = Some l -> c_lookup hash (cache ls) (op_key o) = find_key (op_key o) l.
Proof. intros Hl. unfold c_lookup, c_index. cbn [c_shards]. unfold op_shard in Hl. by rewrite Hl. Qed.

Lemma update_shard ls l o f :
  ls !! op_shard hash (length ls) o = Some l ->
  cache (<[op_shard hash (length ls) o := f l]> ls) = c_update hash (op_key o) f (cache ls).
Proof.
  intros Hl. unfold c_update, with_c_shards, c_index. cbn [c_shards c_max c_cursor]. unfold op_shard in *.
  by rewrite (alter_lookup_insert _ _ _ _ Hl).
Qed.

Lemma keys_deadline k d l : keys (set_deadline k d l) = keys l.
Proof.
  induction l as [|x l IH]; [done|]. rewrite set_deadline_cons. unfold keys in *. rewrite !fmap_cons, IH.
  by case_decide.
Qed.

Lemma NoDup_live now l : NoDup (keys l) -> NoDup (keys (live now l)).
Proof. intros Hl. eapply sublist_NoDup; [exact Hl|]. apply fmap_sublist, sublist_filter. Qed.

Lemma NoDup_op now o l : NoDup (keys l) -> NoDup (keys (snd (lru_op now o l))).
Proof.
  intros Hl. destruct o; cbn [lru_op snd]; unfold on_live; repeat case_match; cbn [snd];
    by first [done|apply keys_put_NoDup|apply keys_drop_NoDup|rewrite keys_deadline].
Qed.

(** *** Operations *)

(** The cases of an operation on one key, whose answer [Hv] and new map [Hm'] are known. *)
Ltac by_entry Hk Hv Hm' Hup Hid :=
  rewrite Hk in Hv, Hm'; rewrite <- Hv;
  destruct (find_key _ _) as [x|]; [destruct (e_expired _ x)|]; cbn [fst snd] in *;
  first [by rewrite Hup|by rewrite Hid].

Lemma map_op ls l m now o :
  shards_ok ls -> map_rep hash (cache ls) m -> ls !! op_shard hash (length ls) o = Some l ->
  fst (lru_op now o l) = fst (m_exec now o m)
  /\ map_rep hash (cache (<[op_shard hash (length ls) o := snd (lru_op now o l)]> ls)) (snd (m_exec now o m)).
Proof.
  intros Hok Hm Hl. pose proof (shards_ok_has ls Hok) as Hs. pose proof (shard_of_key ls l o Hl) as Hk.
  assert (cache (<[op_shard hash (length ls) o := l]> ls) = cache ls) as Hid by (by rewrite list_insert_id).
  pose proof (fun f => update_shard ls l o f Hl) as Hup.
  destruct o as [k|k v|k v d|k|k d|k]; cbn [lru_op op_key m_exec fst snd] in *; unfold on_live.
  - destruct (c_get_map hash _ m now k Hs Hm) as [Hv Hm']. unfold c_get in *. by_entry Hk Hv Hm' Hup Hid.
  - split; [done|]. rewrite Hup. exact (map_put hash (mkE k v None) _ m Hs Hm).
  - split; [done|]. rewrite Hup. exact (map_put hash (mkE k v (Some (now + d)%Z)) _ m Hs Hm).
  - destruct (c_delete_map hash _ m now k Hm) as [Hv Hm']. unfold c_delete in *. by_entry Hk Hv Hm' Hup Hid.
  - destruct (c_expire_map hash _ m now k d Hm) as [Hv Hm']. unfold c_expire in *. by_entry Hk Hv Hm' Hup Hid.
  - destruct (c_ttl_map hash _ m now k Hm) as [Hv Hm']. unfold c_ttl in *. by_entry Hk Hv Hm' Hup Hid.
Qed.

(** *** Entries that go away *)

Lemma find_key_sub l l' k x :
  NoDup (keys l) -> (forall y, y ∈ l' -> y ∈ l) -> find_key k l' = Some x -> find_key k l = Some x.
Proof.
  intros Hnd Hsub [Hx <-]%find_key_Some. apply Hsub in Hx. clear Hsub.
  induction Hx as [x l|x y l Hx IH]; unfold keys in *; rewrite fmap_cons in Hnd; apply NoDup_cons in Hnd as [Hni Hnd]; cbn [find_key].
  - by rewrite decide_True.
  - rewrite decide_False; [by apply IH|]. intros E. apply Hni. rewrite E. by apply list_elem_of_fmap_2.
Qed.

Lemma lookup_sub ls (i : nat) l l' k x :
  shards_ok ls -> ls !! i = Some l -> (forall y, y ∈ l' -> y ∈ l) ->
  c_lookup hash (cache (<[i := l']> ls)) k = Some x -> c_lookup hash (cache ls) k = Some x.
Proof.
  intros [_ Hnd] Hl Hsub. unfold c_lookup, c_index. cbn [c_shards]. rewrite length_insert.
  set (j := Z.to_nat _). destruct (decide (i = j)) as [->|Hij].
  - rewrite list_lookup_insert_eq, Hl by (by eapply lookup_lt_Some). cbn. apply find_key_sub; [|done].
    by apply (Forall_lookup_1 _ _ _ _ Hnd Hl).
  - by rewrite list_lookup_insert_ne.
Qed.

Lemma map_sweep ls (i : nat) l m now :
  shards_ok ls -> map_rep hash (cache ls) m -> ls !! i = Some l ->
  exists m', swept now m m' /\ map_rep hash (cache (<[i := live now l]> ls)) m'.
Proof.
  intros Hok Hm Hl. set (c' := cache (<[i := live now l]> ls)). exists (view hash c' m). split.
  - intros k. unfold view. destruct (c_lookup hash c' k) as [x|] eqn:Hk.
    + left. destruct (m !! k) as [y|] eqn:Hmk; [by apply map_lookup_filter_Some|]. apply map_lookup_filter_None. by left.
    + rewrite (m_live_cache hash _ m now k Hm), Hm. assert (filter (fun '(k, _) => is_Some (c_lookup hash c' k)) m !! k = None) as ->.
      { apply map_lookup_filter_None. right. intros y _. rewrite Hk. by intros [? ?]. }
      destruct (c_lookup hash (cache ls) k) as [x|] eqn:Hx; [|by left]. right. split; [|done].
      destruct (e_expired now x) eqn:Hexp; [done|]. exfalso. revert Hx Hk. unfold c', c_lookup, c_index. cbn [c_shards].
      rewrite length_insert. set (j := Z.to_nat _). destruct (decide (i = j)) as [<-|Hij].
      * rewrite list_lookup_insert_eq, Hl by (by eapply lookup_lt_Some). cbn.
        intros [Hin <-]%find_key_Some Hno%find_key_None. apply Hno, list_elem_of_fmap_2. by apply list_elem_of_filter.
      * rewrite list_lookup_insert_ne by done. intros ->. done.
  - apply view_evicted with (c := cache ls); [done|]. intros k x. apply (lookup_sub _ _ l); [done|done|].
    intros y Hy. by apply list_elem_of_filter in Hy as [_ ?].
Qed.

Lemma map_evict ls (i : nat) x l m :
  shards_ok ls -> map_rep hash (cache ls) m -> ls !! i = Some (x :: l) ->
  exists m', m' ⊆ m /\ map_rep hash (cache (<[i := l]> ls)) m'.
Proof.
  intros Hok Hm Hl. destruct (view_evicted hash _ (cache (<[i := l]> ls)) m Hm) as [Hm' Hsub]; [|by eexists].
  intros k y. apply (lookup_sub _ _ (x :: l)); [done|done|]. intros z Hz. by right.
Qed.

(** *** Simulation *)

Definition map_threads (ths : list (list Call * APhase)) : list (list Call * MPhase) := prod_map id map_phase <$> ths.

Lemma threads_insert ths t cs p :
  map_threads (<[t := (cs, p)]> ths) = <[t := (cs, map_phase p)]> (map_threads ths).
Proof. unfold map_threads. by rewrite list_fmap_insert. Qed.

Lemma threads_lookup ths t cs p : ths !! t = Some (cs, p) -> map_threads ths !! t = Some (cs, map_phase p).
Proof. intros Ht. unfold map_threads. by rewrite list_lookup_fmap, Ht. Qed.

Definition map_sim (a : AState) (b : MState) : Prop :=
  shards_ok (a_shards a) /\ map_rep hash (cache (a_shards a)) (m_store b)
  /\ m_threads b = map_threads (a_threads a) /\ m_ticks b = a_ticks a.

Lemma map_step clock bounded a lab a' b :
  astep hash clock bounded a lab a' -> map_sim a b ->
  exists b', mstep clock bounded b lab b' /\ map_sim a' b'.
Proof.
  intros Hstep (Hok & Hm & Hth & Htk). destruct b as [m mths mticks]. cbn in Hm, Hth, Htk. subst mths mticks.
  destruct Hstep as [ls ths ticks t c cs Ht|ls ths ticks t c cs Ht|ls ths ticks t o now cs l i Ht Hl
    |ls ths ticks t now i removed cs l Ht Hl removed'|ls ths ticks t o r cs i x l Hb Ho Ht Hl
    |ls ths ticks t o r cs Ht|ls ths ticks t now removed cs Ht];
    cbn [a_shards a_threads a_ticks] in *; pose proof (threads_lookup _ _ _ _ Ht) as Hmt.
  - eexists. split; [by apply m_invoke|]. split_and!; try done. cbn. by rewrite threads_insert.
  - eexists. split; [by apply m_clock|]. split_and!; try done. cbn. rewrite threads_insert. by destruct c.
  - destruct (map_op ls l m now o Hok Hm Hl) as [Hr Hm']. eexists. split; [by apply m_effect|]. split_and!; try done; cbn.
    + apply shards_ok_insert; [|done]. apply NoDup_op, (Forall_lookup_1 _ _ _ _ (proj2 Hok) Hl).
    + by rewrite threads_insert, Hr.
  - destruct (map_sweep ls i l m now Hok Hm Hl) as (m' & Hsw & Hm'). eexists. split; [by eapply m_sweep|].
    split_and!; try done; cbn.
    + apply shards_ok_insert; [|done]. apply NoDup_live, (Forall_lookup_1 _ _ _ _ (proj2 Hok) Hl).
    + rewrite threads_insert. symmetry. by apply list_insert_id.
  - destruct (map_evict ls i x l m Hok Hm Hl) as (m' & Hsub & Hm'). eexists. split; [by eapply m_evict|].
    split_and!; try done. cbn. apply shards_ok_insert; [|done].
    pose proof (Forall_lookup_1 _ _ _ _ (proj2 Hok) Hl) as Hnd. unfold keys in *. rewrite fmap_cons in Hnd. by apply NoDup_cons in Hnd as [_ ?].
  - eexists. split; [by eapply m_return|]. split_and!; try done. cbn. by rewrite threads_insert.
  - eexists. split; [by eapply m_swept|]. split_and!; try done. cbn. by rewrite threads_insert.
Qed.

Lemma map_exec clock bounded a tr a' b :
  aexec hash clock bounded a tr a' -> map_sim a b -> exists b', mexec clock bounded b tr b' /\ map_sim a' b'.
Proof.
  intros Hex. revert b. induction Hex as [a|a lab a1 tr a2 Hstep _ IH]; intros b Hs.
  - eexists. split; [apply mexec_refl|done].
  - destruct (map_step _ _ _ _ _ _ Hstep Hs) as (b1 & Hb1 & Hs1). destruct (IH _ Hs1) as (b2 & Hb2 & Hs2).
    exists b2. split; [by eapply mexec_step|done].
Qed.

End sim.

Lemma rep_shards_ok e c : engine_rep e c -> shards_ok (c_shards c).
Proof.
  intros Hr. split.
  - destruct (rep_has_shard (fun _ => 0%Z) e c Hr []) as [l Hl%lookup_lt_Some]. lia.
  - apply Forall_forall. intros l Hl. by eapply rep_keys.
Qed.

(** ** The theorem *)

(** C5: Concurrent callers see one map: whatever the interleaving of their actions, the calls of a [workload]
    (deadlines the clock can represent, fewer than 2^64 bytes in all) return what they would if each took effect on the map of keys to values and deadlines at one point between its invocation
    and its return, at the clock reading it made before. Nothing else changes the map, but the sweeper, which
    only removes keys that expired, and, if the engine has a capacity, writers, which may drop keys before they
    return. The map does not depend on the hash function or on the number of shards. *)
Theorem engine_map_linearizable `{Profile} hash clock e c m calls fuel ts tr s :
  workload clock e c calls fuel -> map_rep hash c m ->
  engine_schedule hash clock e fuel ts (start e calls) = Some (tr, s) ->
  exists b, mexec clock (negb (bool_decide (max_bytes e = usize_max))) (mstart m calls) tr b.
Proof.
  intros Hw Hm Hrun. destruct (schedule_inv _ _ _ _ _ _ Hw _ _ _ Hrun) as (a & vs & Ha & _).
  destruct (map_exec _ _ _ _ _ _ (mstart m calls) Ha) as (b & Hb & _); [|by exists b].
  split_and!; [by eapply rep_shards_ok, wl_rep|done| |done]. cbn. unfold map_threads. rewrite <- list_fmap_compose. done.
Qed.

Lemma engine_map_linearizable_witness :
  match example_run with
  | Some (tr, s) => tr = example_trace /\ exists b, mexec example_clock true (mstart ∅ example_calls) tr b
  | None => False
  end.
Proof.
  pose proof (@engine_map_linearizable release_profile (fun _ => 0%Z) example_clock (fresh 1 4) (empty_cache 1 4) ∅
    example_calls 10 example_turns) as Hlin.
  assert (fst <$> example_run = Some example_trace) as E by (vm_compute; reflexivity).
  unfold example_run in *. destruct (engine_schedule _ _ _ _ _ _) as [[tr s]|]; [|discriminate E].
  injection E as ->. split; [reflexivity|]. refine (Hlin _ s example_workload _ eq_refl).
  intros k. reflexivity.
Defined.

