(* ===== verification/EngineConcCalls.v ===== *)
(** * The engine's calls within longer programs (hkv-engine/src/memory.rs)

    A thread that does other things between its calls of the engine: what the
    invariant of EngineConcInv.v says when it enters a call, at each action of it,
    and when it returns, for the thread itself and for the map. *)

From S2P Require Import Prelude Threads Errors KVEngine LruSpec Shard ShardRefine Engine EngineSpec EngineRefine.
From S2P Require Import EngineKV EngineThms EngineConc EngineConcSpec EngineConcWp EngineConcInv EngineConcMap.

(** ** What one action of a call does to the map *)

Section steps.
Context (hash : bytes -> Z) (clock : nat -> Instant) (bounded : bool).

(** The object holds the map. *)
Definition holds (a : AState) (m : store) : Prop :=
  shards_ok (a_shards a) /\ map_rep hash (mkCache (a_shards a) 0 0) m.

(** Some writer has taken effect and has not returned. *)
Definition writer_at (a : AState) : Prop :=
  exists u cs o r, a_threads a !! u = Some (cs, ADone o r) /\ is_write o = true.

(** [call_step a m ph m' ph']: an action of a thread at [ph] that leads to [ph']. *)
Inductive call_step (a : AState) (m : store) : APhase -> store -> APhase -> Prop :=
| cs_none ph : call_step a m ph m ph
| cs_clock c j : call_step a m (ACalled c) m (timed c (clock j))
| cs_effect o now : call_step a m (ATimed o now) (snd (m_exec now o m)) (ADone o (fst (m_exec now o m)))
| cs_sweep now i removed removed' m' :
    swept now m m' -> call_step a m (APurging now i removed) m' (APurging now (S i) removed')
| cs_evict ph m' : bounded = true -> writer_at a -> m' ⊆ m -> call_step a m ph m' ph.

Lemma holds_shards a a' m : holds a m -> a_shards a' = a_shards a -> holds a' m.
Proof. unfold holds. by intros ? ->. Qed.

(** The other threads stayed where they were, so it was [t] that moved. *)
Lemma object_step a a' m t cs ph cs' ph' :
  astep hash clock bounded a None a' -> others_same t a a' -> holds a m ->
  a_threads a !! t = Some (cs, ph) -> a_threads a' !! t = Some (cs', ph') ->
  exists m', holds a' m' /\ call_step a m ph m' ph'.
Proof.
  intros Hstep Hother [Hok Hm] Ha Ha'.
  assert (forall ths u x x', a_threads a = ths -> ths !! u = Some x -> a_threads a' = <[u := x']> ths -> x <> x' -> u = t) as Hmine.
  { intros ths u x x' E Hu E' Hne. destruct (decide (u = t)) as [|Hut]; [done|]. specialize (Hother u Hut).
    rewrite E', E, Hu, list_lookup_insert_eq in Hother by (by eapply lookup_lt_Some). congruence. }
  inversion Hstep as [|ls ths ticks u c cs0 Hu E1 E2 E3|ls ths ticks u o now cs0 l i Hu Hl E1 E2 E3
    |ls ths ticks u now i removed cs0 l Hu Hl removed' E1 E2 E3|ls ths ticks u o r cs0 i x l Hb Ho Hu Hl E1 E2 E3| |];
    subst a a'; cbn [a_shards a_threads] in *.
  - assert (u = t) as -> by (eapply Hmine; [done|exact Hu|done|by destruct c]).
    rewrite list_lookup_insert_eq in Ha' by (by eapply lookup_lt_Some). rewrite Hu in Ha. simplify_eq.
    exists m. split; [by split|apply cs_clock].
  - assert (u = t) as -> by (eapply Hmine; [done|exact Hu|done|done]).
    rewrite list_lookup_insert_eq in Ha' by (by eapply lookup_lt_Some). rewrite Hu in Ha. simplify_eq.
    destruct (map_op hash ls l m now o Hok Hm Hl) as [Hr Hm']. exists (snd (m_exec now o m)). split.
    + split; [|done]. apply shards_ok_insert; [|done]. apply NoDup_op, (Forall_lookup_1 _ _ _ _ (proj2 Hok) Hl).
    + rewrite Hr. apply cs_effect.
  - assert (u = t) as -> by (eapply Hmine; [done|exact Hu|done|intros [= E]; lia]).
    rewrite list_lookup_insert_eq in Ha' by (by eapply lookup_lt_Some). rewrite Hu in Ha. simplify_eq.
    destruct (map_sweep hash ls i l m now Hok Hm Hl) as (m' & Hsw & Hm'). exists m'. split; [|by apply cs_sweep].
    split; [|done]. apply shards_ok_insert; [|done]. apply NoDup_live, (Forall_lookup_1 _ _ _ _ (proj2 Hok) Hl).
  - rewrite Ha in Ha'. simplify_eq. destruct (map_evict hash ls i x l m Hok Hm Hl) as (m' & Hsub & Hm').
    exists m'. split; [|apply cs_evict; [done| |done]].
    + split; [|done]. apply shards_ok_insert; [|done]. pose proof (Forall_lookup_1 _ _ _ _ (proj2 Hok) Hl) as Hnd.
      unfold keys in *. rewrite fmap_cons in Hnd. by apply NoDup_cons in Hnd as [_ ?].
    + by exists u, cs0, o, r.
Qed.

End steps.

(** ** The calls of a thread *)

Section calls.
Context `{Profile} (hash : bytes -> Z) (clock : nat -> Instant) (e : MemoryEngine) (c : Cache)
  (calls : list (list Call)) (fuel : nat).
Context (Hw : workload clock e c calls fuel).

Abbreviation n := (length (shards e)).
Abbreviation bounded := (negb (bool_decide (max_bytes e = usize_max))).
Abbreviation inv := (conc_inv hash clock n (shard_mask e) (max_bytes e) fuel (total (c_shards c) + zsum (zsum call_bytes) calls)%Z).

Lemma capacity_nonneg : (0 <= max_bytes e)%Z.
Proof. transitivity (used_bytes e); [|apply Hw]. rewrite (er_used _ _ (wl_rep _ _ _ _ _ Hw)). apply wrap64_range. Qed.

Lemma phase_of (s : ESystem) a vs t (th : EThread) :
  inv s a vs -> sy_threads s !! t = Some th -> exists ph, a_threads a !! t = Some (th_todo th, ph).
Proof.
  intros Hi Hth. destruct (view_lookup _ _ _ _ _ _ _ _ _ _ _ _ Hi Hth) as (v & Hv & _).
  exists (v_phase v). exact (abs_lookup _ _ _ _ _ _ _ _ _ _ _ _ _ Hi Hth Hv).
Qed.

(** The phase of the thread that was given the state [th]. *)
Lemma phase_put (s : ESystem) a vs t (th th' : EThread) w :
  sy_threads s !! t = Some th -> inv (mkSystem w (<[t := th']> (sy_threads s))) a vs ->
  exists ph, a_threads a !! t = Some (th_todo th', ph).
Proof. intros Hth Hi. eapply phase_of; [exact Hi|]. cbn. apply list_lookup_insert_eq. by eapply lookup_lt_Some. Qed.

Lemma call_starts (s : ESystem) a vs t (th : EThread) k cs :
  inv s a vs -> sy_threads s !! t = Some th -> th_run th = None -> th_todo th = k :: cs ->
  exists a' vs', inv (mkSystem (sy_shared s) (<[t := mkThread cs (Some (call_prog hash n (shard_mask e) (max_bytes e) fuel k))]> (sy_threads s))) a' vs'
    /\ others_same t a a' /\ a_shards a' = a_shards a /\ a_threads a' !! t = Some (cs, ACalled k).
Proof.
  intros Hi Hth Hrun Htd. pose proof (er_pow _ _ (wl_rep _ _ _ _ _ Hw)) as (lg & Hlg & Hn & Hmask).
  destruct (step_invoke hash clock _ _ _ fuel _ (wl_profile _ _ _ _ _ Hw) lg Hlg Hn Hmask s a vs t th k cs Hi Hth Hrun Htd)
    as (a' & vs' & Hm & Ho & Hi'). exists a', vs'. destruct (phase_put _ _ _ _ _ _ _ Hth Hi') as [ph Hph].
  destruct Hm as [[[=] _]|Hm]. inversion Hm; subst. cbn in *.
  rewrite list_lookup_insert_eq in Hph by (by eapply lookup_lt_Some). simplify_eq.
  split_and!; try done. rewrite list_lookup_insert_eq by (by eapply lookup_lt_Some). done.
Qed.

Lemma call_acts (s : ESystem) a vs t (th : EThread) {X} (act : EngineAct X) k x w' m ph :
  inv s a vs -> sy_threads s !! t = Some th -> th_run th = Some (Act act k) ->
  act_run clock t act (sy_shared s) = Some (x, w') -> holds hash a m -> a_threads a !! t = Some (th_todo th, ph) ->
  exists a' vs' m' ph', inv (mkSystem w' (<[t := mkThread (th_todo th) (Some (k x))]> (sy_threads s))) a' vs'
    /\ others_same t a a' /\ a_threads a' !! t = Some (th_todo th, ph') /\ holds hash a' m'
    /\ call_step clock bounded a m ph m' ph'.
Proof.
  intros Hi Hth Hrun Ha Hm Hph.
  assert (step hash clock n (shard_mask e) (max_bytes e) fuel t s
    = Some (None, mkSystem w' (<[t := mkThread (th_todo th) (Some (k x))]> (sy_threads s)))) as Hs.
  { unfold step, thread_step. rewrite Hth. cbn. by rewrite Hrun, Ha. }
  destruct (step_act hash clock n (shard_mask e) (max_bytes e) fuel _ (wl_bytes _ _ _ _ _ Hw) capacity_nonneg s a vs t th act k None _ Hi Hth Hrun Hs)
    as (a' & vs' & Hmv & Ho & Hi').
  destruct (phase_put _ _ _ _ _ _ _ Hth Hi') as [ph' Hph']. cbn in Hph'.
  destruct Hmv as [[_ ->]|Hmv].
  - exists a, vs', m, ph. rewrite Hph in Hph'. split_and!; try done. apply cs_none.
  - destruct (object_step hash clock bounded a a' m t _ _ _ _ Hmv Ho Hm Hph Hph') as (m' & Hm' & Hcs).
    by exists a', vs', m', ph'.
Qed.

Lemma call_returns (s : ESystem) a vs t (th : EThread) out ph :
  inv s a vs -> sy_threads s !! t = Some th -> th_run th = Some (Ret out) -> a_threads a !! t = Some (th_todo th, ph) ->
  exists a' vs' ans, out = Val ans
    /\ inv (mkSystem (sy_shared s) (<[t := mkThread (th_todo th) None]> (sy_threads s))) a' vs'
    /\ others_same t a a' /\ a_shards a' = a_shards a /\ a_threads a' !! t = Some (th_todo th, AIdle)
    /\ match ans with AReply r => exists o, ph = ADone o r | APurged removed => exists now i, ph = APurging now i removed end.
Proof.
  intros Hi Hth Hrun Hph. pose proof (er_pow _ _ (wl_rep _ _ _ _ _ Hw)) as (lg & Hlg & Hn & Hmask).
  destruct (step_return hash clock _ _ _ fuel _ (wl_bytes _ _ _ _ _ Hw) lg Hlg capacity_nonneg s a vs t th out Hi Hth Hrun)
    as (a' & vs' & Hm & Ho & Hi').
  destruct Hm as [[[=] _]|Hm].
  inversion Hm; subst; cbn in *; match goal with Hx : ?l !! t = Some (?cs, _), Hy : ?l !! t = Some _ |- _ => rewrite Hx in Hy; simplify_eq end;
    eexists _, vs', _; (split; [done|]); split_and!; try done; try (cbn; apply list_lookup_insert_eq; by eapply lookup_lt_Some); eauto.
Qed.

(** A call that is under way can go on, or another one can. *)
Lemma call_progress (s : ESystem) a vs t (th : EThread) :
  inv s a vs -> sy_threads s !! t = Some th -> th_run th <> None ->
  exists u thu lab s', sy_threads s !! u = Some thu /\ th_run thu <> None
    /\ step hash clock n (shard_mask e) (max_bytes e) fuel u s = Some (lab, s').
Proof. apply conc_call_progress. Qed.

End calls.
