(* ===== verification/EngineConcAlone.v ===== *)
(** * One thread alone (hkv-engine/src/memory.rs)

    The programs of EngineConc.v, run by one thread that nobody interrupts, are
    the methods of Engine.v: the same answer and the same engine. *)

From S2P Require Import Prelude Threads Errors KVEngine LruSpec Shard Dll ShardRefine Engine EngineSpec EngineRefine.
From S2P Require Import EngineKV EngineThms EngineConc EngineConcSpec EngineConcWp EngineConcInv.

(** ** One thread alone *)

Section alone.
Context `{Profile} (hash : bytes -> Z) (now : Instant) (n : nat) (mask max : Z).

Definition same_consts (e : MemoryEngine) : Prop := length (shards e) = n /\ shard_mask e = mask /\ max_bytes e = max.

(** The program does what the computation does, on engines with these constants. *)
Definition agree {A} (p : EProg A) (m : EM A) : Prop :=
  forall e, same_consts e -> alone now p e = m e /\ same_consts (snd (m e)).

Lemma alone_bind {A B} (p : EProg A) (k : A -> EProg B) e :
  alone now (p ≫= k) e = (alone now p ≫= fun a => alone now (k a)) e.
Proof. apply prog_run_bind. Qed.

Lemma agree_bind {A B} (p : EProg A) (k : A -> EProg B) m m' :
  agree p m -> (forall a, agree (k a) (m' a)) -> agree (p ≫= k) (m ≫= m').
Proof.
  intros Hp Hk e He. destruct (Hp e He) as [E1 He1]. rewrite alone_bind.
  unfold mbind, M_bind. rewrite E1. destruct (m e) as [[a| | |] e1]; try done. by apply Hk.
Qed.

Lemma agree_ret {A} (a : A) : agree (mret a) (mret a).
Proof. by intros e He. Qed.

Lemma agree_out {A} (o : outcome HkvError A) : agree (Ret o) (fun e => (o, e)).
Proof. by intros e He. Qed.

Lemma agree_shard {A} i (m : M ShardInner HkvError A) : agree (shard i m) (on_shard i m).
Proof.
  intros e He. unfold shard. cbn. unfold on_shard. destruct (shards e !! i) as [s|] eqn:Hs; [|done].
  destruct (m s) as [o s']. split; [done|]. destruct He as (H1 & H2 & H3). unfold same_consts. cbn. by rewrite length_insert.
Qed.

Lemma agree_add b : agree (act (FetchAddUsed b)) (used_add b).
Proof. by intros e He. Qed.
Lemma agree_sub b : agree (act (FetchSubUsed b)) (used_sub b).
Proof. by intros e He. Qed.
Lemma agree_token : agree (act FetchAddToken) next_ttl_token.
Proof. by intros e He. Qed.

Lemma agree_gets {A B} (f : MemoryEngine -> A) (x : A) (p : EProg B) (m : A -> EM B) :
  (forall e, same_consts e -> f e = x) -> agree p (m x) -> agree p (gets f ≫= m).
Proof. intros Hf Hp e He. rewrite bind_gets, (Hf e He). by apply Hp. Qed.

Lemma agree_guarded {A} i (p : EProg A) m : i < n -> agree p m -> agree (guarded i p) m.
Proof.
  intros Hi Hp e He. destruct (Hp e He) as [E He']. split; [|done]. rewrite <- E. cbn.
  destruct (lookup_lt_is_Some_2 (shards e) i) as [s Hs]; [by rewrite (proj1 He)|]. rewrite Hs. cbn. by apply prog_run_finally.
Qed.

Lemma agree_now {A} (k : Instant -> EProg A) m : agree (k now) m -> agree (now ← act ReadClock; k now) m.
Proof. intros Hk e He. by apply Hk. Qed.

Lemma agree_local {A} (m : forall S, M S HkvError A) :
  (forall S (s : S), m S s = (fst (m unit tt), s)) -> agree (local (m unit)) (m MemoryEngine).
Proof. intros Hm e He. rewrite Hm. by split. Qed.

Lemma agree_cursor {A} (k : Z -> EProg A) (m : Z -> EM A) :
  (forall c, agree (k c) (m c)) ->
  agree (c ← act FetchAddCursor; k c)
    (c ← gets eviction_cursor; modify (fun e => with_cursor (wrap64 (eviction_cursor e + 1)) e);; m c).
Proof. intros Hk e He. exact (Hk (eviction_cursor e) (with_cursor (wrap64 (eviction_cursor e + 1)) e) He). Qed.

Ltac agr :=
  repeat first
    [ apply agree_ret | apply agree_shard | apply agree_add | apply agree_sub | apply agree_token
    | apply agree_bind; [|intros ?] | apply agree_out
    | match goal with |- agree match ?x with _ => _ end _ => destruct x end ].

Lemma agree_reclaim i idx : agree (p_reclaim i idx) (reclaim i idx).
Proof. unfold p_reclaim, reclaim. agr. Qed.

Lemma agree_instant_add d : agree (p_instant_add now d) (instant_add now d).
Proof. unfold p_instant_add, instant_add. agr. Qed.

Lemma agree_drop_stale i key : agree (p_drop_stale now i key) (drop_stale now i key).
Proof. unfold p_drop_stale, drop_stale, p_lookup, map_get. agr; apply agree_reclaim. Qed.

Lemma agree_store_value i key value sz d : agree (p_store_value i key value sz d) (store_value i key value sz d).
Proof. unfold p_store_value, store_value, p_lookup, map_get. agr. Qed.

Section key.
Context (lg : Z) (Hlg : (0 <= lg < 64)%Z) (Hn : Z.of_nat n = (2 ^ lg)%Z) (Hmask : mask = (2 ^ lg - 1)%Z).

Lemma land_mask_lt z : Z.to_nat (Z.land z mask) < n.
Proof.
  rewrite Hmask. replace (2 ^ lg - 1)%Z with (Z.ones lg) by (rewrite Z.ones_equiv; lia).
  rewrite Z.land_ones by lia. pose proof (Z.mod_pos_bound z (2 ^ lg) ltac:(lia)). lia.
Qed.

(** The start of every method. *)
Lemma agree_method {A} key (p : EProg A) (m : nat -> EM A) :
  agree p (m (key_shard hash mask key)) ->
  agree (guarded (key_shard hash mask key) p) (gets (fun e => shard_index hash e key) ≫= m).
Proof.
  intros Hp. apply (agree_gets _ (key_shard hash mask key)).
  - intros e (_ & H2 & _). unfold shard_index, key_shard. by rewrite H2.
  - apply agree_guarded; [apply land_mask_lt|done].
Qed.

Lemma agree_get key : agree (p_get hash mask key) (get hash now key).
Proof. apply agree_now, agree_method. unfold p_lookup, map_get. agr. all: apply agree_reclaim. Qed.

Lemma agree_delete key : agree (p_delete hash mask key) (delete hash now key).
Proof. apply agree_now, agree_method. unfold p_lookup, map_get. agr. all: apply agree_reclaim. Qed.

Lemma agree_ttl key : agree (p_ttl hash mask key) (ttl hash now key).
Proof. apply agree_now, agree_method. unfold p_lookup, map_get. agr. all: try apply agree_reclaim. Qed.

Lemma agree_expire key d : agree (p_expire hash mask key d) (expire hash now key d).
Proof.
  apply agree_now, agree_method. unfold p_lookup, map_get. agr. all: try apply agree_reclaim. all: try apply agree_instant_add.
Qed.

Lemma agree_evict_scan start left_ : forall offset,
  agree (p_evict_scan mask start offset left_) (evict_scan start offset left_).
Proof.
  induction left_ as [|left_ IH]; intros offset; cbn [p_evict_scan evict_scan]; [apply agree_ret|].
  apply agree_bind.
  { apply (agree_local (fun S => usize_add start (Z.of_nat offset))). intros S s. unfold usize_add. by repeat case_match. }
  intros x. apply (agree_gets _ mask); [by intros e (_ & H2 & _)|].
  apply agree_bind; [apply agree_guarded; [apply land_mask_lt|apply agree_shard]|].
  intros [size|]; [agr|apply IH].
Qed.

Lemma agree_evict_loop fuel : agree (p_evict_loop n mask max fuel) (evict_loop fuel).
Proof.
  induction fuel as [|fuel IH]; cbn [p_evict_loop evict_loop]; [apply agree_out|].
  apply agree_bind; [by intros e He|]. intros used. apply (agree_gets _ max); [by intros e (_ & _ & H3)|].
  destruct (used <=? max)%Z; [apply agree_ret|].
  apply agree_cursor. intros start. apply (agree_gets _ n); [by intros e (H1 & _)|].
  apply agree_bind; [apply agree_evict_scan|]. intros [|]; [exact IH|apply agree_ret].
Qed.

Lemma agree_write_body i k v ttl :
  agree (write_body i k v ttl now)
    (expires_at ← match ttl with Some d => t ← instant_add now d; mret (Some t) | None => mret None end;
     drop_stale now i k;;
     scheduled ← store_value i k v (entry_size (length k) (length v)) expires_at;
     match scheduled with Some (idx, d, token) => on_shard i (schedule_expiration idx d token) | None => mret tt end).
Proof.
  apply agree_bind.
  { destruct ttl; [|apply agree_ret]. apply agree_bind; [apply agree_instant_add|intros; apply agree_ret]. }
  intros d. apply agree_bind; [apply agree_drop_stale|intros _]. apply agree_bind; [apply agree_store_value|].
  intros [[[idx t] token]|]; [apply agree_shard|apply agree_ret].
Qed.

Lemma agree_purge_shard i fuel : forall removed, agree (p_purge_shard fuel now i removed) (purge_shard fuel now i removed).
Proof.
  induction fuel as [|fuel IH]; intros removed; cbn [p_purge_shard purge_shard]; [apply agree_out|].
  agr; apply IH.
Qed.

Lemma heap_len_locked {B} i e s (k : nat -> EM B) :
  shards e !! i = Some s ->
  (on_shard i (gets (fun s => length (s_ttl_heap s))) ≫= k) e = (gets (heap_len i) ≫= k) e.
Proof.
  intros Hs. rewrite bind_gets. unfold heap_len, mbind, M_bind, on_shard. rewrite Hs. cbn. unfold with_shards.
  rewrite list_insert_id by done. by destruct e.
Qed.

Lemma agree_purge_shards is_ : forall removed, Forall (fun i => i < n) is_ ->
  agree (p_purge_shards now is_ removed) (purge_shards now is_ removed).
Proof.
  induction is_ as [|i is_ IH]; intros removed Hall; cbn [p_purge_shards purge_shards]; [apply agree_ret|].
  apply Forall_cons in Hall as [Hi Hall]. intros e He.
  destruct (lookup_lt_is_Some_2 (shards e) i) as [s Hs]; [by rewrite (proj1 He)|].
  pose proof (agree_bind _ _ _ _ (agree_guarded i _ _ Hi (agree_bind (shard i (gets (fun s => length (s_ttl_heap s)))) _ _
    (fun fuel => purge_shard (S fuel) now i removed) (agree_shard i _) (fun fuel => agree_purge_shard i (S fuel) removed)))
    (fun removed => IH removed Hall) e He) as [E He'].
  rewrite bind_bind, (heap_len_locked i e s) in E, He' by done. split; [exact E|exact He'].
Qed.

Lemma agree_purge : agree (p_purge_expired n) (purge_expired now).
Proof.
  apply agree_now. unfold purge_expired. apply (agree_gets _ n); [by intros e (H1 & _)|].
  apply agree_purge_shards, Forall_seq. lia.
Qed.

Lemma alone_catch p : forall e,
  alone now (p_catch p) e
  = match alone now p e with
    | (Val u, e') => (Val (RDone (Ok u)), e')
    | (Err x, e') => (Val (RDone (Error x)), e')
    | (Panic, e') => (Panic, e')
    | (Diverge, e') => (Diverge, e')
    end.
Proof.
  induction p as [o|X a k IH]; intros e; [by destruct o as [[]| | |]|].
  cbn [p_catch]. unfold alone in *. cbn [prog_run]. destruct (act_alone now a e) as [x e']. apply IH.
Qed.

End key.

Lemma evict_loop_more f f' : forall e e', f <= f' -> evict_loop f e = (Val tt, e') -> evict_loop f' e = (Val tt, e').
Proof.
  revert f'. induction f as [|f IH]; intros [|f'] e e' Hle E; try lia; [done|done|]. cbn [evict_loop] in *.
  rewrite !bind_gets in *. destruct (_ <=? _)%Z; [done|]. rewrite !bind_gets, !bind_modify, !bind_gets in *.
  unfold mbind, M_bind in *. destruct (evict_scan _ _ _ _) as [[[]| | |] e1]; try done. apply IH; [lia|done].
Qed.

End alone.

(** What a write does under the lock. *)
Definition write_part `{Profile} (hash : bytes -> Z) (now : Instant) (k v : bytes) (ttl : option Duration) : EM unit :=
  i ← gets (fun e => shard_index hash e k);
  expires_at ← match ttl with Some d => t ← instant_add now d; mret (Some t) | None => mret None end;
  drop_stale now i k;;
  scheduled ← store_value i k v (entry_size (length k) (length v)) expires_at;
  match scheduled with Some (idx, d, token) => on_shard i (schedule_expiration idx d token) | None => mret tt end.

Lemma write_value_parts `{Profile} hash now k v ttl e :
  write_value hash now k v ttl e = (write_part hash now k v ttl ≫= fun _ => evict_if_needed) e.
Proof.
  unfold write_value, write_part. rewrite bind_bind, !bind_gets, bind_bind. apply bind_ext. intros d e1.
  rewrite bind_bind. apply bind_ext. intros _ e2. by rewrite bind_bind.
Qed.

Lemma write_part_rep `{Profile} hash now k v ttl e c :
  engine_rep e c -> ttl_fits now ttl ->
  exists e', write_part hash now k v ttl e = (Val tt, e')
    /\ engine_rep e' (c_update hash k (put (mkE k v (deadline_of now ttl))) c).
Proof.
  intros Hr Hfit. destruct (write_shard_rep hash e c now k v (deadline_of now ttl) Hr) as (e' & E & Hr').
  exists e'. split; [|done]. rewrite <- E. unfold write_part. rewrite bind_gets.
  assert ((match ttl with Some d => t ← instant_add now d; mret (Some t) | None => mret None end) e
    = (Val (deadline_of now ttl), e)) as E0.
  { destruct ttl as [d|]; [|done]. by rewrite (bind_val _ _ _ _ _ (instant_add_ok _ _ _ Hfit)). }
  rewrite (bind_val _ _ _ _ _ E0). done.
Qed.

Lemma alone_write `{Profile} hash now e c k v ttl fuel :
  engine_rep e c -> overflow_checks = false \/ max_bytes e = usize_max -> ttl_fits now ttl ->
  entries (c_shards c) + 1 < fuel ->
  alone now (p_write_value hash (length (shards e)) (shard_mask e) (max_bytes e) fuel k v ttl) e = write_value hash now k v ttl e.
Proof.
  intros Hr Hp Hfit Hf. pose proof (er_pow _ _ Hr) as (lg & Hlg & Hn & Hmask). set (n := length (shards e)) in *.
  set (mask := shard_mask e) in *. set (max := max_bytes e) in *. assert (same_consts n mask max e) as He by done.
  rewrite write_value_parts.
  pose proof (agree_now now n mask max (fun now => guarded (key_shard hash mask k) (write_body (key_shard hash mask k) k v ttl now))
    (write_part hash now k v ttl) (agree_method hash now n mask max lg Hlg Hn Hmask k _ _ (agree_write_body now n mask max _ k v ttl)) e He)
    as [E He1].
  change (alone now ((now ← act ReadClock; guarded (key_shard hash mask k) (write_body (key_shard hash mask k) k v ttl now))
    ≫= fun _ => p_evict_if_needed n mask max fuel) e = (write_part hash now k v ttl ≫= fun _ => evict_if_needed) e).
  rewrite alone_bind. destruct (write_part_rep hash now k v ttl e c Hr Hfit) as (e1 & E1 & Hr1).
  rewrite E1 in E, He1. rewrite (bind_val _ _ _ _ _ E), (bind_val _ _ _ _ _ E1).
  unfold p_evict_if_needed, evict_if_needed. rewrite bind_gets. destruct He1 as (H1 & H2 & H3). cbn in H1, H2, H3. rewrite H3.
  case_bool_decide as Hm; [done|]. destruct Hp as [Hp|]; [|done]. rewrite bind_gets.
  rewrite (proj1 (agree_evict_loop now n mask max lg Hlg Hn Hmask fuel e1 ltac:(done))).
  set (c1 := c_update hash k (put (mkE k v (deadline_of now ttl))) c) in *.
  assert (entries (c_shards c1) <= entries (c_shards c) + 1) as Hen.
  { unfold c1, c_update. cbn [c_shards with_c_shards]. destruct (focus_key hash e c k Hr) as (sh & l & _ & _ & _ & Hidx & Hl & _).
    rewrite <- Hidx in Hl. rewrite (alter_lookup_insert _ _ _ _ Hl).
    pose proof (entries_insert _ _ _ (put (mkE k v (deadline_of now ttl)) l) Hl).
    pose proof (proj1 (length_drop_key k l)). unfold put in *. rewrite length_app in *. cbn [length e_key] in *. lia. }
  pose proof (entries_slots _ _ Hr1).
  destruct (evict_loop_rep Hp (S (entries (c_shards c1))) e1 _ Hr1) as (e2 & E2 & _); [lia|].
  assert (evict_loop fuel e1 = (Val tt, e2)) as -> by (eapply evict_loop_more; [|exact E2]; lia).
  symmetry. eapply evict_loop_more; [|exact E2]. lia.
Qed.

(** C27: A thread that nobody interrupts does exactly what the methods of Engine.v do: each program, run alone,
    gives the answer and leaves the engine of the method it stands for, and so does the sweeper's. *)
Theorem programs_are_methods `{Profile} hash now e c o fuel :
  engine_rep e c -> overflow_checks = false \/ max_bytes e = usize_max -> op_fits now o ->
  entries (c_shards c) + 1 < fuel ->
  alone now (op_prog hash (length (shards e)) (shard_mask e) (max_bytes e) fuel o) e
    = kv_exec (H := memory_engine hash) now o e
  /\ alone now (p_purge_expired (length (shards e))) e = purge_expired now e.
Proof.
  intros Hr Hp Hfit Hf. pose proof (er_pow _ _ Hr) as (lg & Hlg & Hn & Hmask).
  assert (same_consts (length (shards e)) (shard_mask e) (max_bytes e) e) as He by done.
  split; [|by apply (agree_purge now _ (shard_mask e) (max_bytes e))].
  assert (forall (p : EProg unit) (m : EM unit), alone now p e = m e -> alone now (p_catch p) e = (r ← catch m; mret (RDone r)) e) as Hcatch.
  { intros p m E. by rewrite alone_catch, bind_catch, E. }
  destruct o as [k|k v|k v d|k|k d|k]; cbn [op_prog kv_exec].
  - by apply (agree_bind now (length (shards e)) (shard_mask e) (max_bytes e) _ _ _ (fun v => mret (RValue v))
      (agree_get hash now _ _ _ lg Hlg Hn Hmask k) (fun v => agree_ret now _ _ _ (RValue v))).
  - apply Hcatch. by apply (alone_write hash now e c k v None).
  - apply Hcatch. by apply (alone_write hash now e c k v (Some d)).
  - by apply (agree_bind now (length (shards e)) (shard_mask e) (max_bytes e) _ _ _ (fun v => mret (RDeleted v))
      (agree_delete hash now _ _ _ lg Hlg Hn Hmask k) (fun v => agree_ret now _ _ _ (RDeleted v))).
  - apply Hcatch. by apply (agree_expire hash now (length (shards e)) (shard_mask e) (max_bytes e) lg Hlg Hn Hmask k d).
  - by apply (agree_bind now (length (shards e)) (shard_mask e) (max_bytes e) _ _ _ (fun v => mret (RTtl v))
      (agree_ttl hash now _ _ _ lg Hlg Hn Hmask k) (fun v => agree_ret now _ _ _ (RTtl v))).
Qed.

Lemma programs_are_methods_witness :
  alone 0 (op_prog (H := release_profile) (fun _ => 0%Z) 1 0 4 2 (OpSetTtl (lit "a") (lit "1") 1)) (fresh 1 4)
    = kv_exec (H := memory_engine (H := release_profile) (fun _ => 0%Z)) 0 (OpSetTtl (lit "a") (lit "1") 1) (fresh 1 4)
  /\ alone 0 (p_purge_expired 1) (fresh 1 4) = purge_expired 0 (fresh 1 4).
Proof.
  apply (@programs_are_methods release_profile (fun _ => 0%Z) 0 (fresh 1 4) (empty_cache 1 4)
    (OpSetTtl (lit "a") (lit "1") 1) 2).
  - by apply (fresh_rep 0).
  - by left.
  - reflexivity.
  - vm_compute. lia.
Defined.

