(* ===== verification/Decimal.v ===== *)
(** * Decimal numerals in byte strings

    What the parsers and printers of the two RESP modules (hkv-server/src/protocol.rs,
    hkv-server/src/server.rs and hkv-client/src/resp.rs) share: the value of a
    digit string, its saturating evaluation, and the digits of a number. *)

From S2P Require Import Prelude.

#[local] Open Scope Z_scope.

Definition digit_val (b : byte) : Z := byte_val b - 48.

(** The value of a digit string, from an accumulator. *)
Definition dec_from (acc : Z) (l : bytes) : Z := foldl (fun v b => v * 10 + digit_val b) acc l.
Definition dec_value (l : bytes) : Z := dec_from 0 l.

Definition all_digits (l : bytes) : bool := forallb is_ascii_digit l.

(** [value.saturating_mul(10).saturating_add(d)], at an upper bound [m]. *)
Definition sat_from (m acc : Z) (l : bytes) : Z :=
  foldl (fun v b => Z.min (Z.min (v * 10) m + digit_val b) m) acc l.

Lemma is_ascii_digit_val b : is_ascii_digit b = true -> 0 <= digit_val b <= 9.
Proof. unfold is_ascii_digit, digit_val. rewrite andb_true_iff, !Z.leb_le. lia. Qed.

Lemma dec_from_ge acc l : 0 <= acc -> all_digits l = true -> acc <= dec_from acc l.
Proof.
  revert acc. induction l as [|b l IH]; intros acc Ha; simpl; [lia|].
  intros [Hb Hl]%andb_true_iff. apply is_ascii_digit_val in Hb.
  specialize (IH (acc * 10 + digit_val b) ltac:(lia) Hl). unfold dec_from in *. simpl. lia.
Qed.

(** Saturating evaluation is the value cut at the bound. *)
Lemma sat_from_min m acc l :
  0 <= m -> 0 <= acc -> all_digits l = true ->
  sat_from m (Z.min acc m) l = Z.min (dec_from acc l) m.
Proof.
  intros Hm. revert acc. induction l as [|b l IH]; intros acc Ha; [done|].
  simpl. intros [Hb Hl]%andb_true_iff. apply is_ascii_digit_val in Hb.
  rewrite <- IH by (try done; lia). unfold sat_from. simpl. f_equal. lia.
Qed.

Lemma dec_from_app acc l1 l2 : dec_from acc (l1 ++ l2) = dec_from (dec_from acc l1) l2.
Proof. apply foldl_app. Qed.

(** ** Printing *)

Definition digit_byte (d : Z) : byte := byte_of (48 + d).

Lemma digit_byte_val d : 0 <= d <= 9 -> digit_val (digit_byte d) = d.
Proof. intros Hd. unfold digit_val, digit_byte. rewrite byte_val_of by lia. lia. Qed.

Lemma digit_byte_is_digit d : 0 <= d <= 9 -> is_ascii_digit (digit_byte d) = true.
Proof.
  intros Hd. unfold is_ascii_digit, digit_byte. rewrite byte_val_of by lia.
  apply andb_true_iff. rewrite !Z.leb_le. lia.
Qed.

(** The digits of [n > 0], least significant first, in a buffer of [size]
    bytes; [None] when they do not fit. *)
Fixpoint digits_rev (size : nat) (n : Z) : option bytes :=
  if n <=? 0 then Some []
  else match size with
       | O => None
       | S size' => (fun l => digit_byte (n mod 10) :: l) <$> digits_rev size' (n / 10)
       end.

Lemma digits_rev_spec size n l :
  0 <= n -> digits_rev size n = Some l ->
  all_digits (rev l) = true /\ dec_value (rev l) = n /\ (0 < n -> rev l <> []).
Proof.
  revert n l. induction size as [|size IH]; intros n l Hn; simpl.
  { destruct (Z.leb_spec n 0); [|done]. intros [= <-]. split_and!; [done|unfold dec_value; simpl; lia|lia]. }
  destruct (Z.leb_spec n 0).
  { intros [= <-]. split_and!; [done|unfold dec_value; simpl; lia|lia]. }
  destruct (digits_rev size (n / 10)) as [l'|] eqn:E; [|done]. intros [= <-].
  pose proof (Z.mod_pos_bound n 10 ltac:(lia)) as Hb.
  destruct (IH (n / 10) l' ltac:(apply Z.div_pos; lia) E) as (Hd & Hv & _). simpl. split_and!.
  - unfold all_digits in *. rewrite forallb_app, Hd. simpl. by rewrite digit_byte_is_digit by lia.
  - unfold dec_value in *. rewrite dec_from_app, Hv. unfold dec_from. simpl.
    rewrite digit_byte_val by lia. pose proof (Z.div_mod n 10). lia.
  - intros _. by destruct (rev l').
Qed.

Lemma digits_rev_fits size n : 0 <= n < 10 ^ Z.of_nat size -> is_Some (digits_rev size n).
Proof.
  revert n. induction size as [|size IH]; intros n Hn; simpl.
  { destruct (Z.leb_spec n 0); [eauto|]. simpl in Hn. lia. }
  destruct (Z.leb_spec n 0); [eauto|].
  rewrite Nat2Z.inj_succ, Z.pow_succ_r in Hn by lia.
  destruct (IH (n / 10)) as [l ->]; [|eauto].
  split; [apply Z.div_pos; lia|]. apply Z.div_lt_upper_bound; lia.
Qed.

(** [to_string] of an integer of at most 64 bits. *)
Definition dec_nonneg (n : Z) : bytes :=
  if n <=? 0 then [digit_byte 0] else rev (default [] (digits_rev 20 n)).
Definition dec_string (n : Z) : bytes :=
  if n <? 0 then Byte.x2d :: dec_nonneg (- n) else dec_nonneg n.

Lemma dec_nonneg_spec n :
  0 <= n < 10 ^ 20 -> all_digits (dec_nonneg n) = true /\ dec_value (dec_nonneg n) = n /\ dec_nonneg n <> [].
Proof.
  intros Hn. unfold dec_nonneg. destruct (Z.leb_spec n 0).
  { replace n with 0 by lia. split_and!; try done. }
  destruct (digits_rev_fits 20 n) as [l E]; [simpl; lia|]. rewrite E. simpl.
  destruct (digits_rev_spec 20 n l) as (? & ? & ?); [lia|done|]. auto.
Qed.

Lemma u64_digits n : 0 <= n <= u64_max -> 0 <= n < 10 ^ 20.
Proof. unfold u64_max, u64_modulus. lia. Qed.

(** A digit string has neither a sign nor a line end in it. *)
Lemma all_digits_notin c l : is_ascii_digit c = false -> all_digits l = true -> c ∉ l.
Proof.
  intros Hc. unfold all_digits. rewrite forallb_forall. intros Hl Hin.
  apply list_elem_of_In, Hl in Hin. congruence.
Qed.

(** The digits of a number of any size: it has no more of them than bits. *)
Definition dec_any (n : Z) : bytes :=
  if n <=? 0 then [digit_byte 0] else rev (default [] (digits_rev (S (Z.to_nat (Z.log2 n))) n)).

Lemma dec_any_spec n : 0 <= n -> all_digits (dec_any n) = true /\ dec_value (dec_any n) = n /\ dec_any n <> [].
Proof.
  intros Hn. unfold dec_any. destruct (Z.leb_spec n 0).
  { replace n with 0 by lia. split_and!; try done. }
  destruct (digits_rev_fits (S (Z.to_nat (Z.log2 n))) n) as [l E].
  { split; [lia|]. pose proof (Z.log2_spec n ltac:(lia)) as [_ Hl]. pose proof (Z.log2_nonneg n).
    rewrite Nat2Z.inj_succ, Z2Nat.id by lia. eapply Z.lt_le_trans; [exact Hl|]. apply Z.pow_le_mono_l. lia. }
  rewrite E. cbn [default]. destruct (digits_rev_spec _ n l ltac:(lia) E) as (? & ? & ?). auto.
Qed.
