(* ===== verification/RespParser.v ===== *)
(** * The server's RESP2 parser (hkv-server/src/protocol.rs)

    The buffer is [bytes::BytesMut] of the bytes crate: a parameter, the class
    [BytesMut] of the operations the parser calls, with their documented
    behaviour as its laws. *)

From S2P Require Import Prelude Decimal.

(** ** The buffer *)

(** [None] is the documented panic. *)
Class BytesMut (B : Type) := {
  bm_bytes : B -> bytes;
  bm_split_to : nat -> B -> option (B * B);
  bm_advance : nat -> B -> option B;
  bm_get_u8 : B -> option (byte * B);
  bm_put : B -> bytes -> B
}.

Class BytesMutLaws (B : Type) `{BytesMut B} := {
  bm_split_to_ok n b : n <= length (bm_bytes b) ->
    exists f r, bm_split_to n b = Some (f, r) /\ bm_bytes f = take n (bm_bytes b)
      /\ bm_bytes r = drop n (bm_bytes b);
  bm_split_to_panic n b : length (bm_bytes b) < n -> bm_split_to n b = None;
  bm_advance_ok n b : n <= length (bm_bytes b) ->
    exists r, bm_advance n b = Some r /\ bm_bytes r = drop n (bm_bytes b);
  bm_get_u8_ok b x l : bm_bytes b = x :: l ->
    exists r, bm_get_u8 b = Some (x, r) /\ bm_bytes r = l;
  bm_get_u8_panic b : bm_bytes b = [] -> bm_get_u8 b = None;
  bm_put_ok b l : bm_bytes (bm_put b l) = bm_bytes b ++ l
}.

(** A plain list of bytes is such a buffer. *)
#[global] Instance list_bytes_mut : BytesMut bytes := {
  bm_bytes b := b;
  bm_split_to n b := if n <=? length b then Some (take n b, drop n b) else None;
  bm_advance n b := if n <=? length b then Some (drop n b) else None;
  bm_get_u8 b := match b with x :: l => Some (x, l) | [] => None end;
  bm_put b l := b ++ l
}.

#[global] Instance list_bytes_mut_laws : BytesMutLaws bytes.
Proof.
  split; simpl.
  - intros n b Hn. rewrite (proj2 (Nat.leb_le _ _) Hn). eauto.
  - intros n b Hn. by rewrite (proj2 (Nat.leb_gt _ _) Hn).
  - intros n b Hn. rewrite (proj2 (Nat.leb_le _ _) Hn). eauto.
  - intros b x l ->. eauto.
  - by intros b ->.
  - done.
Qed.

(** ** The parser *)

Inductive RespError : Type := ProtocolError.

Inductive ParseState : Type := ArrayLen | BulkLen | BulkData.

#[global] Instance ParseState_eq_dec : EqDecision ParseState.
Proof. solve_decision. Defined.

Record RespParser := mkParser {
  p_state : ParseState;
  p_args : list bytes;
  p_remaining : Z;
  p_bulk_len : Z
}.

Definition parser_new : RespParser := mkParser ArrayLen [] 0 0.

Fixpoint parse_usize_loop (value : Z) (data : bytes) : result Z RespError :=
  match data with
  | [] => Ok value
  | b :: data' =>
      if negb (is_ascii_digit b) then Error ProtocolError
      else parse_usize_loop (saturating_add (saturating_mul value 10) (byte_val b - 48)) data'
  end.

Definition parse_usize (data : bytes) : result Z RespError :=
  if bool_decide (data = []) then Error ProtocolError else parse_usize_loop 0 data.

(** [split] on a byte: the segments between its occurrences. *)
Fixpoint split_on (c : byte) (l : bytes) : list bytes :=
  match l with
  | [] => [[]]
  | b :: l' =>
      if bool_decide (b = c) then [] :: split_on c l'
      else match split_on c l' with
           | s :: ss => (b :: s) :: ss
           | [] => [[b]]
           end
  end.

Definition parse_inline_command (data : bytes) : result (list bytes) RespError :=
  let args := filter (fun segment => segment <> []) (split_on Byte.x20 data) in
  if bool_decide (args = []) then Error ProtocolError else Ok args.

Section parser.
Context `{Profile} {B : Type} `{BytesMut B}.

Abbreviation PM := (M (RespParser * B) RespError).

Definition modify_parser (f : RespParser -> RespParser) : PM unit :=
  modify (fun '(p, b) => (f p, b)).

Definition set_state (st : ParseState) : PM unit :=
  modify_parser (fun p => mkParser st (p_args p) (p_remaining p) (p_bulk_len p)).

(** [result?]: an error returns at once. *)
Definition lift {A} (r : result A RespError) : PM A :=
  match r with Ok a => mret a | Error e => throw e end.

(** Buffer calls that can panic. *)
Definition split_to (n : nat) : PM B := fun '(p, b) =>
  match bm_split_to n b with Some (f, r) => (Val f, (p, r)) | None => (Panic, (p, b)) end.
Definition advance (n : nat) : PM unit := fun '(p, b) =>
  match bm_advance n b with Some r => (Val tt, (p, r)) | None => (Panic, (p, b)) end.
Definition get_u8 : PM byte := fun '(p, b) =>
  match bm_get_u8 b with Some (x, r) => (Val x, (p, r)) | None => (Panic, (p, b)) end.

(** The scan of [read_line]: the index of the line feed, from [idx]. *)
Fixpoint find_line (fuel idx : nat) (buf : bytes) : option nat :=
  match fuel with
  | O => None
  | S fuel' =>
      if idx <? length buf then
        if bool_decide (buf !! idx = Some LF /\ buf !! (idx - 1) = Some CR) then Some idx
        else find_line fuel' (S idx) buf
      else None
  end.

Definition read_line : PM (option B) :=
  buf ← gets (fun s => bm_bytes (snd s));
  match find_line (length buf) 1 buf with
  | Some idx =>
      line ← split_to (idx - 1);
      advance 2;;
      mret (Some line)
  | None => mret None
  end.

(** [self.remaining -= 1]. *)
Definition usize_sub1 (n : Z) : PM Z :=
  if (1 <=? n)%Z then mret (n - 1)%Z
  else if overflow_checks then panic else mret (wrap64 (n - 1)).

(** What one turn of the loop of [parse] does: return, or go round again. *)
Inductive turn : Type := Return (cmd : option (list bytes)) | Again.

Definition parse_array_len : PM turn :=
  line ← read_line;
  match line with
  | None => mret (Return None)
  | Some line =>
      let line := bm_bytes line in
      if bool_decide (head line <> Some Byte.x2a)
      then args ← lift (parse_inline_command line); mret (Return (Some args))
      else
        count ← lift (parse_usize (tail line));
        modify_parser (fun p => mkParser (p_state p) [] count (p_bulk_len p));;
        if bool_decide (count = 0%Z)
        then set_state ArrayLen;; mret (Return (Some []))
        else set_state BulkLen;; mret Again
  end.

Definition parse_bulk_len : PM turn :=
  line ← read_line;
  match line with
  | None => mret (Return None)
  | Some line =>
      let line := bm_bytes line in
      if bool_decide (head line <> Some Byte.x24) then throw ProtocolError
      else
        len ← lift (parse_usize (tail line));
        modify_parser (fun p => mkParser BulkData (p_args p) (p_remaining p) len);;
        mret Again
  end.

(** The argument is complete: push it and count it; the last one ends the
    command. *)
Definition finish_arg (data : bytes) : PM turn :=
  modify_parser (fun p => mkParser (p_state p) (p_args p ++ [data]) (p_remaining p) (p_bulk_len p));;
  r ← gets (fun s => p_remaining (fst s));
  r ← usize_sub1 r;
  modify_parser (fun p => mkParser (p_state p) (p_args p) r (p_bulk_len p));;
  if bool_decide (r = 0%Z)
  then
    set_state ArrayLen;;
    args ← gets (fun s => p_args (fst s));
    modify_parser (fun p => mkParser (p_state p) [] (p_remaining p) (p_bulk_len p));;
    mret (Return (Some args))
  else set_state BulkLen;; mret Again.

Definition parse_bulk_data : PM turn :=
  bulk_len ← gets (fun s => p_bulk_len (fst s));
  need ← usize_add bulk_len 2;
  have ← gets (fun s => Z.of_nat (length (bm_bytes (snd s))));
  if (have <? need)%Z then mret (Return None)
  else
    data ← (if (have <? bulk_len)%Z then panic else split_to (Z.to_nat bulk_len));
    c ← get_u8;
    if bool_decide (c <> CR) then throw ProtocolError
    else
      c ← get_u8;
      if bool_decide (c <> LF) then throw ProtocolError
      else
        finish_arg (bm_bytes data).

Definition parse_turn : PM turn :=
  st ← gets (fun s => p_state (fst s));
  match st with
  | ArrayLen => parse_array_len
  | BulkLen => parse_bulk_len
  | BulkData => parse_bulk_data
  end.

Fixpoint parse_loop (fuel : nat) : PM (option (list bytes)) :=
  match fuel with
  | O => diverge
  | S fuel' =>
      t ← parse_turn;
      match t with Return cmd => mret cmd | Again => parse_loop fuel' end
  end.

(** Each turn that goes round again takes at least two bytes. *)
Definition parse : PM (option (list bytes)) :=
  fuel ← gets (fun s => length (bm_bytes (snd s)));
  parse_loop (S fuel).

End parser.
