(* ===== verification/RespParserThms.v ===== *)
(** * Properties of the server's RESP2 parser (hkv-server/src/protocol.rs)

    The scan of [read_line] against its reference definition; a parser over any
    [BytesMut] behaves like the parser over a list of bytes; termination and
    progress; independence of how the stream is cut into chunks. *)

From S2P Require Import Prelude Decimal RespParser.

(** ** Lines *)

(** Reference: the prefix up to the first CR LF, and what follows it. *)
Fixpoint split_crlf (buf : bytes) : option (bytes * bytes) :=
  match buf with
  | b :: rest =>
      match rest with
      | c :: rest' =>
          if bool_decide (b = CR /\ c = LF) then Some ([], rest')
          else (fun '(l, r) => (b :: l, r)) <$> split_crlf rest
      | [] => None
      end
  | [] => None
  end.

Lemma split_crlf_cons b c rest :
  split_crlf (b :: c :: rest)
  = if bool_decide (b = CR /\ c = LF) then Some ([], rest)
    else (fun '(l, r) => (b :: l, r)) <$> split_crlf (c :: rest).
Proof. done. Qed.

Lemma split_crlf_Some buf l r : split_crlf buf = Some (l, r) -> buf = l ++ crlf ++ r.
Proof.
  revert l. induction buf as [|b [|c rest] IH]; intros l; try done.
  rewrite split_crlf_cons. case_bool_decide as Hbc.
  - intros [= <- <-]. by destruct Hbc as [-> ->].
  - destruct (split_crlf (c :: rest)) as [[l' r']|]; [|done].
    intros [= <- <-]. by rewrite (IH l' eq_refl).
Qed.

Lemma split_crlf_more buf l r m :
  split_crlf buf = Some (l, r) -> split_crlf (buf ++ m) = Some (l, r ++ m).
Proof.
  revert l. induction buf as [|b [|c rest] IH]; intros l; try done.
  rewrite <- !app_comm_cons, !split_crlf_cons. case_bool_decide.
  - by intros [= <- <-].
  - destruct (split_crlf (c :: rest)) as [[l' r']|]; [|done].
    intros [= <- <-]. rewrite app_comm_cons, (IH l' eq_refl). done.
Qed.

Lemma split_crlf_app l r : CR ∉ l -> split_crlf (l ++ crlf ++ r) = Some (l, r).
Proof.
  induction l as [|b l IH]; intros Hni; [done|].
  apply not_elem_of_cons in Hni as [Hb Hni].
  destruct (l ++ crlf ++ r) as [|c rest] eqn:E; [by destruct l|].
  rewrite <- app_comm_cons, E, split_crlf_cons, bool_decide_false by (by intros [? _]).
  by rewrite IH.
Qed.

Lemma split_crlf_length buf l r : split_crlf buf = Some (l, r) -> length buf = length l + 2 + length r.
Proof. intros ->%split_crlf_Some. rewrite !length_app. simpl. lia. Qed.

(** The index loop finds that split. *)
Lemma find_line_split buf fuel : forall pre,
  length buf <= fuel ->
  find_line fuel (S (length pre)) (pre ++ buf)
  = (fun '(l, r) => length pre + length l + 1) <$> split_crlf buf.
Proof.
  revert buf. induction fuel as [|fuel IH]; intros buf pre Hf.
  { by destruct buf; simpl in Hf; [|lia]. }
  cbn [find_line]. destruct buf as [|b [|c rest]].
  - rewrite app_nil_r. by rewrite (proj2 (Nat.ltb_ge _ _)) by lia.
  - rewrite (proj2 (Nat.ltb_ge _ _)); [done|]. rewrite length_app. simpl. lia.
  - rewrite (proj2 (Nat.ltb_lt _ _)) by (rewrite length_app; simpl; lia).
    rewrite Nat.sub_succ, Nat.sub_0_r, (list_lookup_middle pre (c :: rest) b (length pre)) by done.
    replace (pre ++ b :: c :: rest) with ((pre ++ [b]) ++ c :: rest) by (by rewrite <- app_assoc).
    rewrite (list_lookup_middle (pre ++ [b])) by (rewrite length_app; simpl; lia).
    rewrite split_crlf_cons. case_bool_decide as H1; case_bool_decide as H2.
    + simpl. f_equal. lia.
    + exfalso. apply H2. by destruct H1; simplify_eq.
    + exfalso. apply H1. by destruct H2; simplify_eq.
    + replace (S (S (length pre))) with (S (length (pre ++ [b]))) by (rewrite length_app; simpl; lia).
      rewrite IH by (simpl in *; lia). rewrite length_app.
      destruct (split_crlf (c :: rest)) as [[l r]|]; simpl; [|done]. f_equal. lia.
Qed.

Section generic.
Context `{Profile} {B : Type} `{BytesMutLaws B}.

Lemma read_line_run p (b : B) :
  match split_crlf (bm_bytes b) with
  | None => read_line (p, b) = (Val None, (p, b))
  | Some (l, r) => exists line b', read_line (p, b) = (Val (Some line), (p, b'))
      /\ bm_bytes line = l /\ bm_bytes b' = r
  end.
Proof.
  unfold read_line. rewrite bind_gets.
  pose proof (find_line_split (bm_bytes b) (length (bm_bytes b)) [] (le_n _)) as Hf. simpl in *.
  rewrite Hf. destruct (split_crlf (bm_bytes b)) as [[l r]|] eqn:Hs; simpl; [|done].
  rewrite Nat.add_sub.
  pose proof (split_crlf_length _ _ _ Hs) as Hlen. apply split_crlf_Some in Hs.
  destruct (bm_split_to_ok (length l) b ltac:(lia)) as (line & b1 & E1 & Hl & Hr).
  destruct (bm_advance_ok 2 b1) as (b2 & E2 & Hr2).
  { rewrite Hr, length_drop. lia. }
  assert (split_to (length l) (p, b) = (Val line, (p, b1))) as E1' by (unfold split_to; by rewrite E1).
  assert (advance 2 (p, b1) = (Val tt, (p, b2))) as E2' by (unfold advance; by rewrite E2).
  rewrite (bind_val _ _ _ _ _ E1'), (bind_val (A:=unit) _ _ _ _ _ E2').
  exists line, b2. split; [done|]. rewrite Hr2, Hl, Hr, Hs.
  split; [by rewrite take_app_length|by rewrite drop_app_length].
Qed.

End generic.

(** ** Any buffer behaves like its bytes *)

Section transfer.
Context `{Profile} {B : Type} `{BytesMutLaws B}.

(** [m] and [m'] give the same outcome and parser, and the same bytes left. *)
Definition agrees {A} (r : outcome RespError A * (RespParser * B))
    (r' : outcome RespError A * (RespParser * bytes)) : Prop :=
  fst r = fst r' /\ fst (snd r) = fst (snd r') /\ bm_bytes (snd (snd r)) = snd (snd r').

Lemma agrees_bind {A C} (m : M (RespParser * B) RespError A) k m' (k' : A -> M _ RespError C) s s' :
  agrees (m s) (m' s') ->
  (forall a p b, agrees (k a (p, b)) (k' a (p, bm_bytes b))) ->
  agrees ((m ≫= k) s) ((m' ≫= k') s').
Proof.
  unfold mbind, M_bind. destruct (m s) as [o [p b]], (m' s') as [o' [p' l']].
  intros (Ho & Hp & Hb) Hk. simpl in *. subst. by destruct o'.
Qed.

Lemma agrees_same {A} (o : outcome RespError A) p b : agrees (o, (p, b)) (o, (p, bm_bytes b)).
Proof. done. Qed.

Lemma agrees_usize_add {C} a c p b (k : Z -> M (RespParser * B) RespError C) k' :
  (forall n, agrees (k n (p, b)) (k' n (p, bm_bytes b))) ->
  agrees ((usize_add a c ≫= k) (p, b)) ((usize_add a c ≫= k') (p, bm_bytes b)).
Proof. intros Hk. unfold usize_add. repeat case_match; rewrite ?bind_ret; try done. Qed.

Lemma agrees_get_u8 {C} p b (k : byte -> M (RespParser * B) RespError C) k' :
  (forall x b', agrees (k x (p, b')) (k' x (p, bm_bytes b'))) ->
  agrees ((get_u8 ≫= k) (p, b)) ((get_u8 ≫= k') (p, bm_bytes b)).
Proof.
  intros Hk. unfold get_u8, mbind, M_bind. simpl.
  destruct (bm_bytes b) as [|x l] eqn:Hb.
  - rewrite (bm_get_u8_panic b Hb). by split_and!.
  - destruct (bm_get_u8_ok b x l Hb) as (r & E & <-). rewrite E. apply Hk.
Qed.

Lemma agrees_split_to {C} n p b (k : B -> M (RespParser * B) RespError C) k' :
  (forall f b', agrees (k f (p, b')) (k' (bm_bytes f) (p, bm_bytes b'))) ->
  agrees ((split_to n ≫= k) (p, b)) ((split_to n ≫= k') (p, bm_bytes b)).
Proof.
  intros Hk. unfold split_to. unfold mbind, M_bind. simpl.
  destruct (Nat.leb_spec n (length (bm_bytes b))) as [Hn|Hn].
  - destruct (bm_split_to_ok n b Hn) as (f & r & -> & <- & <-). apply Hk.
  - by rewrite (bm_split_to_panic n b Hn).
Qed.

Lemma read_line_list p (buf : bytes) :
  read_line (p, buf) = match split_crlf buf with
                       | None => (Val None, (p, buf))
                       | Some (l, r) => (Val (Some l), (p, r))
                       end.
Proof.
  pose proof (read_line_run p buf) as Hr. simpl in Hr.
  destruct (split_crlf buf) as [[l r]|]; [|done]. by destruct Hr as (? & ? & -> & -> & ->).
Qed.

Lemma lift_run {B'} {A C} (r : result A RespError) (k : A -> M (RespParser * B') RespError C) s :
  (lift r ≫= k) s = match r with Ok a => k a s | Error e => (Err e, s) end.
Proof. by destruct r. Qed.

(** The part of a turn after its line was read depends on the line's bytes. *)
Lemma line_transfer {C} p b (k : option B -> M (RespParser * B) RespError C) k' :
  agrees (k None (p, b)) (k' None (p, bm_bytes b)) ->
  (forall line b', agrees (k (Some line) (p, b')) (k' (Some (bm_bytes line)) (p, bm_bytes b'))) ->
  agrees ((read_line ≫= k) (p, b)) ((read_line ≫= k') (p, bm_bytes b)).
Proof.
  intros Hn Hs. pose proof (read_line_run p b) as Hg. pose proof (read_line_list p (bm_bytes b)) as Hl.
  destruct (split_crlf (bm_bytes b)) as [[l r]|].
  - destruct Hg as (line & b' & E & <- & <-).
    rewrite (bind_val _ _ _ _ _ E), (bind_val _ _ _ _ _ Hl). apply Hs.
  - by rewrite (bind_val _ _ _ _ _ Hg), (bind_val _ _ _ _ _ Hl).
Qed.

Lemma turn_transfer p (b : B) : agrees (parse_turn (p, b)) (parse_turn (p, bm_bytes b)).
Proof.
  unfold parse_turn. rewrite !bind_gets. cbn [fst]. destruct (p_state p).
  - apply line_transfer; [done|]. intros line b'. simpl.
    case_bool_decide; rewrite !lift_run.
    + by destruct (parse_inline_command (bm_bytes line)).
    + destruct (parse_usize _); [|done]. by case_bool_decide.
  - apply line_transfer; [done|]. intros line b'. simpl.
    case_bool_decide; [done|]. rewrite !lift_run. by destruct (parse_usize _).
  - unfold parse_bulk_data. rewrite !bind_gets. apply agrees_usize_add. intros need.
    rewrite !bind_gets. simpl.
    destruct (Z.ltb_spec (Z.of_nat (length (bm_bytes b))) need) as [|Hneed]; [done|].
    destruct (_ <? p_bulk_len p)%Z; [done|].
    apply agrees_split_to. intros data b1. apply agrees_get_u8. intros c b2.
    case_bool_decide; [done|]. apply agrees_get_u8. intros c' b3.
    case_bool_decide; [done|]. unfold finish_arg, modify_parser. rewrite !bind_modify, !bind_gets.
    cbn [fst p_remaining]. unfold usize_sub1.
    repeat case_match; rewrite ?bind_ret; try done; by case_bool_decide.
Qed.

Lemma loop_transfer fuel : forall p (b : B),
  agrees (parse_loop fuel (p, b)) (parse_loop fuel (p, bm_bytes b)).
Proof.
  induction fuel as [|fuel IH]; intros p b; [done|]. cbn [parse_loop].
  apply agrees_bind; [apply turn_transfer|]. intros [cmd|] p' b'; [done|apply IH].
Qed.

Lemma parse_transfer p (b : B) : agrees (parse (p, b)) (parse (p, bm_bytes b)).
Proof. unfold parse. rewrite !bind_gets. apply loop_transfer. Qed.

End transfer.

(** ** Progress, termination and more input, on the bytes *)

Section bytes_parser.
Context `{Profile}.

(** Every buffer that fits in memory. *)
Definition in_memory (buf : bytes) : Prop := (Z.of_nat (length buf) < 2 ^ 63)%Z.

Definition blocked {A} (o : outcome RespError A) : Prop := forall a, o <> Val a.

(** A turn either waits, with nothing changed, or does the same whatever
    follows in the stream; a turn that succeeds takes two bytes or more. *)
Definition turn_ok (p : RespParser) (buf : bytes) (r : outcome RespError turn * (RespParser * bytes))
    (r' : bytes -> outcome RespError turn * (RespParser * bytes)) : Prop :=
  let '(o, (p', buf')) := r in
  (o = Val (Return None) /\ p' = p /\ buf' = buf)
  \/ (o <> Val (Return None) /\ o <> Diverge
      /\ (forall t, o = Val t -> length buf' + 2 <= length buf)
      /\ length buf' <= length buf
      /\ forall m, in_memory (buf ++ m) -> r' m = (o, (p', buf' ++ m))).

Lemma usize_add_run {S E} a b (s : S) :
  (exists n, (n = (a + b)%Z \/ (usize_max < a + b)%Z) /\ usize_add (E:=E) a b s = (Val n, s)
     /\ forall S' (s' : S'), usize_add (E:=E) a b s' = (Val n, s'))
  \/ (usize_add (E:=E) a b s = (Panic, s) /\ forall S' (s' : S'), usize_add (E:=E) a b s' = (Panic, s')).
Proof. unfold usize_add. destruct (Z.leb_spec (a + b) usize_max); [|case_match]; eauto 10. Qed.

Lemma line_turn_ok p buf (k : option bytes -> M (RespParser * bytes) RespError turn) :
  k None (p, buf) = (Val (Return None), (p, buf)) ->
  (forall l r, exists o p', (o <> Val (Return None)) /\ o <> Diverge /\ k (Some l) (p, r) = (o, (p', r))
     /\ forall r', k (Some l) (p, r') = (o, (p', r'))) ->
  turn_ok p buf ((read_line ≫= k) (p, buf)) (fun m => (read_line ≫= k) (p, buf ++ m)).
Proof.
  intros Hn Hs. destruct (split_crlf buf) as [[l r]|] eqn:Hspl.
  - pose proof (read_line_list p buf) as E. rewrite Hspl in E.
    rewrite (bind_val _ _ _ _ _ E). destruct (Hs l r) as (o & p' & Ho & Hd & Ek & Hk). rewrite Ek.
    pose proof (split_crlf_length _ _ _ Hspl). right. split_and!; try done; [intros; lia|lia|].
    intros m _. pose proof (read_line_list p (buf ++ m)) as E2.
    rewrite (split_crlf_more _ _ _ m Hspl) in E2. by rewrite (bind_val _ _ _ _ _ E2).
  - pose proof (read_line_list p buf) as E. rewrite Hspl in E.
    rewrite (bind_val _ _ _ _ _ E), Hn. by left.
Qed.

Lemma split_to_list n p (buf : bytes) :
  n <= length buf -> split_to n (p, buf) = (Val (take n buf), (p, drop n buf)).
Proof. intros Hn. unfold split_to. simpl. by rewrite (proj2 (Nat.leb_le _ _) Hn). Qed.

(** The tail of [parse_bulk_data] does not look at the buffer. *)
Lemma finish_arg_run p data : exists o p', (o <> Val (Return None)) /\ o <> Diverge /\
  forall r : bytes, finish_arg data (p, r) = (o, (p', r)).
Proof.
  unfold finish_arg, set_state, modify_parser, usize_sub1, mbind, M_bind, modify, gets, mret, M_ret. cbn.
  destruct (1 <=? p_remaining p)%Z; [|destruct overflow_checks];
    cbn; try (destruct (bool_decide _); cbn);
    (refine (ex_intro _ _ (ex_intro _ _ (conj _ (conj _ _)))); [..|intros r; reflexivity]; done).
Qed.

(** The check of the CR LF after an argument's bytes: the bytes it consumes,
    and those it has left when it fails, are the first two of the buffer. *)
Definition after_data (data : bytes) : M (RespParser * bytes) RespError turn :=
  c ← get_u8;
  if bool_decide (c <> CR) then throw ProtocolError
  else
    c ← get_u8;
    if bool_decide (c <> LF) then throw ProtocolError else finish_arg data.

Lemma after_data_run p data c1 c2 : exists o p' left,
  (o <> Val (Return None)) /\ o <> Diverge /\ length left <= 2 /\ (forall t, o = Val t -> left = [])
  /\ forall r, after_data data (p, c1 :: c2 :: r) = (o, (p', left ++ r)).
Proof.
  assert (forall c l, get_u8 (p, c :: l) = (Val c, (p, l))) as Hget by done.
  destruct (finish_arg_run p data) as (o & p' & Ho & Hd & Hfin).
  unfold after_data. setoid_rewrite (fun r => bind_val _ _ _ _ _ (Hget c1 (c2 :: r))).
  destruct (decide (c1 = CR)) as [->|Hc1].
  2: { exists (Err ProtocolError), p, [c2]. rewrite bool_decide_true by done. split_and!; try done; simpl; lia. }
  rewrite bool_decide_false by auto. setoid_rewrite (fun r => bind_val _ _ _ _ _ (Hget c2 r)).
  destruct (decide (c2 = LF)) as [->|Hc2].
  - exists o, p', []. rewrite bool_decide_false by auto. split_and!; try done; simpl; lia.
  - exists (Err ProtocolError), p, []. rewrite bool_decide_true by done. split_and!; try done; simpl; lia.
Qed.

(** With the whole argument in the buffer, the turn splits it off. *)
Lemma bulk_ready p buf n :
  n + 2 <= length buf -> in_memory buf -> p_bulk_len p = Z.of_nat n ->
  exists c1 c2 rest, drop n buf = c1 :: c2 :: rest /\ length buf = n + 2 + length rest
    /\ forall m, parse_bulk_data (p, buf ++ m) = after_data (take n buf) (p, c1 :: c2 :: rest ++ m).
Proof.
  intros Hlen Hmem Hn. unfold in_memory, usize_max, u64_max, u64_modulus in Hmem.
  assert (exists c1 c2 rest, drop n buf = c1 :: c2 :: rest) as (c1 & c2 & rest & Hd).
  { destruct (drop n buf) as [|c1 [|c2 rest]] eqn:Hd; apply (f_equal length) in Hd;
      rewrite length_drop in Hd; simpl in Hd; [lia..|eauto]. }
  exists c1, c2, rest. split_and!; [done| |].
  { apply (f_equal length) in Hd. rewrite length_drop in Hd. simpl in Hd. lia. }
  intros m. unfold parse_bulk_data. rewrite bind_gets. cbn [fst]. rewrite Hn.
  assert (usize_add (E:=RespError) (Z.of_nat n) 2 (p, buf ++ m) = (Val (Z.of_nat n + 2)%Z, (p, buf ++ m))) as Ha.
  { unfold usize_add. by rewrite (proj2 (Z.leb_le _ _)) by (unfold usize_max, u64_max, u64_modulus; lia). }
  rewrite (bind_val _ _ _ _ _ Ha), bind_gets. cbn [snd bm_bytes list_bytes_mut].
  rewrite !(proj2 (Z.ltb_ge _ _)) by (rewrite length_app; lia). rewrite Nat2Z.id.
  assert (split_to n (p, buf ++ m) = (Val (take n buf), (p, c1 :: c2 :: rest ++ m))) as Hs.
  { rewrite split_to_list by (rewrite length_app; lia). by rewrite take_app_le, drop_app_le, Hd by lia. }
  by rewrite (bind_val _ _ _ _ _ Hs).
Qed.

Lemma data_turn_ok p buf :
  (0 <= p_bulk_len p)%Z -> in_memory buf ->
  turn_ok p buf (parse_bulk_data (p, buf)) (fun m => parse_bulk_data (p, buf ++ m)).
Proof.
  intros Hp Hmem.
  destruct (decide (p_bulk_len p + 2 <= Z.of_nat (length buf))%Z) as [Hin|Hout].
  - destruct (bulk_ready p buf (Z.to_nat (p_bulk_len p))) as (c1 & c2 & rest & Hd & Hl & Hrun); [lia|done|lia|].
    destruct (after_data_run p (take (Z.to_nat (p_bulk_len p)) buf) c1 c2) as (o & p' & lft & Ho & Hdv & Hlft & Hv & Hr).
    pose proof (Hrun []) as H0. rewrite !app_nil_r in H0. rewrite H0, Hr. right.
    rewrite length_app. split_and!; try done; [intros t Ht; rewrite (Hv t Ht); simpl; lia|lia|].
    intros m _. by rewrite Hrun, Hr, app_assoc.
  - unfold parse_bulk_data at 1. rewrite bind_gets. cbn [fst].
    destruct (usize_add_run (E:=RespError) (p_bulk_len p) 2 (p, buf)) as [(need & Hn & E & Hall)|[E Hall]].
    2: { rewrite (bind_panic _ _ _ _ E). right. split_and!; try done. intros m _.
         unfold parse_bulk_data. rewrite bind_gets. cbn [fst]. by rewrite (bind_panic _ _ _ _ (Hall _ _)). }
    rewrite (bind_val _ _ _ _ _ E), bind_gets. cbn [snd bm_bytes list_bytes_mut].
    destruct (Z.ltb_spec (Z.of_nat (length buf)) need) as [|Hneed]; [unfold mret, M_ret; by left|].
    destruct Hn as [->|Hov]; [lia|]. unfold in_memory, usize_max, u64_max, u64_modulus in *.
    rewrite (proj2 (Z.ltb_lt _ _)) by lia. right. split_and!; try done. intros m Hmm.
    unfold in_memory, usize_max, u64_max, u64_modulus in Hmm. unfold parse_bulk_data. rewrite bind_gets. cbn [fst].
    rewrite (bind_val _ _ _ _ _ (Hall _ _)), bind_gets. cbn [snd bm_bytes list_bytes_mut].
    rewrite (proj2 (Z.ltb_ge _ need)) by (rewrite length_app; lia). by rewrite (proj2 (Z.ltb_lt _ (p_bulk_len p))) by lia.
Qed.

Definition parser_wf (p : RespParser) : Prop :=
  (0 <= p_bulk_len p)%Z /\ (p_state p <> ArrayLen -> (1 <= p_remaining p)%Z).

Ltac turn_leaf :=
  refine (ex_intro _ _ (ex_intro _ _ (conj _ (conj _ (conj _ _)))));
  [..|reflexivity|intros; reflexivity]; done.

Lemma turn_run_ok p buf :
  parser_wf p -> in_memory buf ->
  turn_ok p buf (parse_turn (p, buf)) (fun m => parse_turn (p, buf ++ m)).
Proof.
  intros Hwf Hmem.
  assert (turn_ok p buf
    (match p_state p with ArrayLen => parse_array_len | BulkLen => parse_bulk_len | BulkData => parse_bulk_data end (p, buf))
    (fun m => match p_state p with ArrayLen => parse_array_len | BulkLen => parse_bulk_len
              | BulkData => parse_bulk_data end (p, buf ++ m))) as Hok; [|exact Hok].
  destruct (p_state p); [| |by apply data_turn_ok; [apply Hwf|]].
  - apply line_turn_ok; [done|]. intros l r. cbn beta iota zeta. cbn [bm_bytes list_bytes_mut].
    case_bool_decide; setoid_rewrite lift_run.
    + destruct (parse_inline_command l); by turn_leaf.
    + destruct (parse_usize (tail l)); [|by turn_leaf].
      unfold modify_parser, set_state, modify_parser, mbind, M_bind, modify. cbn.
      case_bool_decide; by turn_leaf.
  - apply line_turn_ok; [done|]. intros l r. cbn beta iota zeta. cbn [bm_bytes list_bytes_mut].
    case_bool_decide; [by turn_leaf|].
    setoid_rewrite lift_run. destruct (parse_usize (tail l)); by turn_leaf.
Qed.

Lemma parse_usize_loop_spec data v :
  (0 <= v)%Z ->
  parse_usize_loop (Z.min v usize_max) data
  = if all_digits data then Ok (Z.min (dec_from v data) usize_max) else Error ProtocolError.
Proof.
  revert v. induction data as [|b data IH]; intros v Hv; simpl; [done|].
  destruct (is_ascii_digit b) eqn:Hb; simpl; [|done]. apply is_ascii_digit_val in Hb.
  replace (saturating_add (saturating_mul (Z.min v usize_max) 10) (byte_val b - 48))
    with (Z.min (v * 10 + digit_val b) usize_max).
  2: { unfold saturating_add, saturating_mul, digit_val, usize_max, u64_max, u64_modulus in *. lia. }
  rewrite IH by lia. done.
Qed.

(** Decimal, saturating, digits only. *)
Lemma parse_usize_spec data :
  parse_usize data
  = if bool_decide (data = []) then Error ProtocolError
    else if all_digits data then Ok (Z.min (dec_value data) usize_max) else Error ProtocolError.
Proof.
  unfold parse_usize. case_bool_decide; [done|]. exact (parse_usize_loop_spec data 0 ltac:(lia)).
Qed.

Lemma parse_usize_range data n : parse_usize data = Ok n -> (0 <= n <= usize_max)%Z.
Proof.
  rewrite parse_usize_spec. case_bool_decide; [done|]. destruct (all_digits data) eqn:Hd; [|done].
  intros [= <-]. pose proof (dec_from_ge 0 data ltac:(lia) Hd). unfold dec_value, usize_max, u64_max, u64_modulus in *. lia.
Qed.

Lemma line_turn_wf (Q : RespParser -> Prop) p buf (k : option bytes -> M (RespParser * bytes) RespError turn) o p' buf' :
  (read_line ≫= k) (p, buf) = (o, (p', buf')) ->
  (forall ol r, Q (fst (snd (k ol (p, r))))) -> Q p'.
Proof.
  intros E HQ. pose proof (read_line_list p buf) as El.
  destruct (split_crlf buf) as [[l r]|]; rewrite (bind_val _ _ _ _ _ El) in E;
    [specialize (HQ (Some l) r)|specialize (HQ None buf)]; by rewrite E in HQ.
Qed.

Lemma finish_arg_wf p data (r : bytes) :
  parser_wf p -> (1 <= p_remaining p)%Z -> parser_wf (fst (snd (finish_arg data (p, r)))).
Proof.
  intros [Hb _] Hr. unfold finish_arg, set_state, modify_parser, usize_sub1, mbind, M_bind, modify, gets, mret, M_ret.
  cbn. rewrite (proj2 (Z.leb_le _ _)) by lia. cbn.
  case_bool_decide; (split; cbn; [done|]); [done|]. intros _. lia.
Qed.

Lemma turn_wf p buf o p' buf' :
  parser_wf p -> parse_turn (p, buf) = (o, (p', buf')) -> parser_wf p'.
Proof.
  intros Hwf E. pose proof Hwf as [Hb Hr].
  unfold parse_turn in E. rewrite bind_gets in E. cbn [fst] in E. destruct (p_state p) eqn:Hst.
  - apply (line_turn_wf _ _ _ _ _ _ _ E). intros [l|] r; cbn beta iota zeta; [|done].
    cbn [bm_bytes list_bytes_mut]. case_bool_decide; rewrite lift_run.
    + by destruct (parse_inline_command l).
    + destruct (parse_usize (tail l)) as [n|] eqn:Hn; [|done]. apply parse_usize_range in Hn.
      unfold modify_parser, set_state, modify_parser, mbind, M_bind, modify. cbn.
      case_bool_decide; (split; cbn; [done|]); [done|]. intros _. lia.
  - apply (line_turn_wf _ _ _ _ _ _ _ E). intros [l|] r; cbn beta iota zeta; [|done].
    cbn [bm_bytes list_bytes_mut]. case_bool_decide; [done|]. rewrite lift_run.
    destruct (parse_usize (tail l)) as [n|] eqn:Hn; [|done]. apply parse_usize_range in Hn.
    unfold modify_parser, mbind, M_bind, modify. split; cbn; [lia|]. intros _. by apply Hr.
  - unfold parse_bulk_data in E. rewrite bind_gets in E.
    destruct (usize_add_run (E:=RespError) (p_bulk_len p) 2 (p, buf)) as [(need & _ & E1 & _)|[E1 _]];
      [rewrite (bind_val _ _ _ _ _ E1), bind_gets in E|rewrite (bind_panic _ _ _ _ E1) in E; by simplify_eq].
    cbn [fst snd bm_bytes list_bytes_mut] in E.
    destruct (_ <? need)%Z; [unfold mret, M_ret in E; by simplify_eq|].
    destruct (_ <? p_bulk_len p)%Z; [unfold mbind, M_bind, panic in E; by simplify_eq|].
    unfold split_to, mbind at 1, M_bind at 1 in E. cbn [bm_split_to list_bytes_mut] in E.
    destruct (_ <=? _); [|by simplify_eq]. revert E. generalize (drop (Z.to_nat (p_bulk_len p)) buf).
    intros [|c1 [|c2 rest]]; unfold get_u8, mbind at 1, M_bind at 1; cbn [bm_get_u8 list_bytes_mut];
      [by intros; simplify_eq|..]; (case_bool_decide; [by unfold throw; intros; simplify_eq|]);
      unfold mbind at 1, M_bind at 1; [by intros; simplify_eq|].
    case_bool_decide; [by unfold throw; intros; simplify_eq|].
    pose proof (finish_arg_wf p (take (Z.to_nat (p_bulk_len p)) buf) rest Hwf) as Hfin.
    intros E. rewrite E in Hfin. by apply Hfin, Hr.
Qed.

(** ** [parse] *)

Lemma in_memory_le buf buf' : length buf' <= length buf -> in_memory buf -> in_memory buf'.
Proof. unfold in_memory. lia. Qed.

Lemma loop_fuel f1 : forall f2 p buf,
  parser_wf p -> in_memory buf -> length buf < f1 -> length buf < f2 ->
  parse_loop f1 (p, buf) = parse_loop f2 (p, buf).
Proof.
  induction f1 as [|f1 IH]; intros [|f2] p buf Hwf Hm H1 H2; try lia. cbn [parse_loop].
  pose proof (turn_run_ok p buf Hwf Hm) as Hok.
  destruct (parse_turn (p, buf)) as [o [p' buf']] eqn:E.
  pose proof (turn_wf _ _ _ _ _ Hwf E) as Hwf'.
  unfold mbind, M_bind. rewrite E. destruct o as [[c|]| | |]; try done.
  destruct Hok as [(? & _)|(_ & _ & Hlen & _)]; [done|]. specialize (Hlen Again eq_refl).
  apply IH; [done|by eapply in_memory_le; [|exact Hm]; lia|lia|lia].
Qed.

Lemma parse_unfold p buf :
  parser_wf p -> in_memory buf ->
  parse (p, buf) = match parse_turn (p, buf) with
                   | (Val (Return c), s) => (Val c, s)
                   | (Val Again, s) => parse s
                   | (Err e, s) => (Err e, s)
                   | (Panic, s) => (Panic, s)
                   | (Diverge, s) => (Diverge, s)
                   end.
Proof.
  intros Hwf Hm. unfold parse at 1. rewrite bind_gets. cbn [snd bm_bytes list_bytes_mut parse_loop].
  pose proof (turn_run_ok p buf Hwf Hm) as Hok.
  destruct (parse_turn (p, buf)) as [o [p' buf']] eqn:E.
  pose proof (turn_wf _ _ _ _ _ Hwf E) as Hwf'.
  unfold mbind, M_bind. rewrite E. destruct o as [[c|]| | |]; try done.
  destruct Hok as [(? & _)|(_ & _ & Hlen & _)]; [done|]. specialize (Hlen Again eq_refl).
  unfold parse. rewrite bind_gets. apply loop_fuel; [done|by eapply in_memory_le; [|exact Hm]; lia|lia|].
  cbn. lia.
Qed.

(** What a call of [parse] does, and that it does not depend on what the stream
    holds after the bytes it needs. *)
Record parse_ok (p : RespParser) (buf : bytes) (o : outcome RespError (option (list bytes)))
    (p' : RespParser) (buf' : bytes) : Prop := {
  po_wf : parser_wf p';
  po_total : o <> Diverge;
  po_length : length buf' <= length buf;
  po_progress : forall c, o = Val (Some c) -> length buf' + 2 <= length buf;
  po_waits : o = Val None -> forall m, in_memory (buf ++ m) -> parse (p, buf ++ m) = parse (p', buf' ++ m);
  po_stable : o <> Val None -> forall m, in_memory (buf ++ m) -> parse (p, buf ++ m) = (o, (p', buf' ++ m))
}.

Lemma in_memory_app_l buf m : in_memory (buf ++ m) -> in_memory buf.
Proof. apply in_memory_le. rewrite length_app. lia. Qed.

Lemma parse_run_ok n : forall p buf o p' buf',
  length buf < n -> parser_wf p -> in_memory buf ->
  parse (p, buf) = (o, (p', buf')) -> parse_ok p buf o p' buf'.
Proof.
  induction n as [|n IH]; intros p buf o p' buf' Hn Hwf Hm E; [lia|].
  rewrite (parse_unfold _ _ Hwf Hm) in E. pose proof (turn_run_ok p buf Hwf Hm) as Hok.
  destruct (parse_turn (p, buf)) as [ot [p1 buf1]] eqn:Et.
  pose proof (turn_wf _ _ _ _ _ Hwf Et) as Hwf1.
  destruct Hok as [(-> & -> & ->)|(Hret & Hdiv & Hprog & Hlen & Hmore)].
  { injection E as <- <- <-. split; try done. }
  assert (forall m, in_memory (buf ++ m) -> parse (p, buf ++ m) =
    match ot with
    | Val (Return c) => (Val c, (p1, buf1 ++ m))
    | Val Again => parse (p1, buf1 ++ m)
    | Err e => (Err e, (p1, buf1 ++ m))
    | Panic => (Panic, (p1, buf1 ++ m))
    | Diverge => (Diverge, (p1, buf1 ++ m))
    end) as Hp.
  { intros m Hmm. rewrite (parse_unfold _ _ Hwf Hmm), (Hmore m Hmm). done. }
  destruct ot as [[c|]|e| |]; try done.
  - injection E as <- <- <-. specialize (Hprog _ eq_refl).
    split; try done; try (intros; lia); try (by intros [= ->]).
  - specialize (Hprog _ eq_refl).
    destruct (IH p1 buf1 o p' buf') as [H1 H2 H3 H4 H5 H6];
      [lia|done|by eapply in_memory_le; [|exact Hm]; lia|done|].
    constructor; [exact H1|exact H2|lia|intros c Hc; specialize (H4 c Hc); lia| |].
    + intros Ho m Hmm. rewrite Hp by done. apply H5; [done|]. revert Hmm. apply in_memory_le.
      rewrite !length_app. lia.
    + intros Ho m Hmm. rewrite Hp by done. apply H6; [done|]. revert Hmm. apply in_memory_le.
      rewrite !length_app. lia.
  - injection E as <- <- <-. constructor; try done; try (intros _ m Hmm; by rewrite Hp).
  - injection E as <- <- <-. constructor; try done; try (intros _ m Hmm; by rewrite Hp).
Qed.

Lemma parse_spec p buf :
  parser_wf p -> in_memory buf ->
  exists o p' buf', parse (p, buf) = (o, (p', buf')) /\ parse_ok p buf o p' buf'.
Proof.
  intros Hwf Hm. destruct (parse (p, buf)) as [o [p' buf']] eqn:E. do 3 eexists. split; [done|].
  apply (parse_run_ok (S (length buf))); [lia|done..].
Qed.

End bytes_parser.

(** ** Streams

    The reading loop of a connection: after each chunk the parser is called
    until it wants more. The answer is the commands read, how the loop stopped
    ([Val tt]: it waits for more) and the state it stopped in. *)

Section stream.
Context `{Profile} {B : Type} `{BytesMut B}.

Abbreviation stream_end := (outcome RespError unit).

Fixpoint drain (fuel : nat) (s : RespParser * B)
    : list (list bytes) * stream_end * (RespParser * B) :=
  match fuel with
  | O => ([], Diverge, s)
  | S fuel' =>
      match parse s with
      | (Val (Some cmd), s') => let '(cs, e, s'') := drain fuel' s' in (cmd :: cs, e, s'')
      | (Val None, s') => ([], Val tt, s')
      | (Err x, s') => ([], Err x, s')
      | (Panic, s') => ([], Panic, s')
      | (Diverge, s') => ([], Diverge, s')
      end
  end.

Definition drain_all (s : RespParser * B) := drain (S (length (bm_bytes (snd s)))) s.

Fixpoint feed (chunks : list bytes) (s : RespParser * B)
    : list (list bytes) * stream_end * (RespParser * B) :=
  match chunks with
  | [] => ([], Val tt, s)
  | c :: chunks' =>
      match drain_all (fst s, bm_put (snd s) c) with
      | (cs, Val _, s') => let '(cs', e, s'') := feed chunks' s' in (cs ++ cs', e, s'')
      | r => r
      end
  end.

End stream.

Section stream_thms.
Context `{Profile}.

Lemma drain_fuel f1 : forall f2 p (buf : bytes),
  parser_wf p -> in_memory buf -> length buf < f1 -> length buf < f2 ->
  drain f1 (p, buf) = drain f2 (p, buf).
Proof.
  induction f1 as [|f1 IH]; intros [|f2] p buf Hwf Hm H1 H2; try lia. cbn [drain].
  destruct (parse_spec p buf Hwf Hm) as (o & p' & buf' & -> & Hok).
  destruct o as [[c|]|e| |]; try done. pose proof (po_progress _ _ _ _ _ Hok c eq_refl).
  rewrite (IH f2 p' buf'); [done|apply Hok|by eapply in_memory_le; [|exact Hm]; lia|lia|lia].
Qed.

Lemma drain_unfold p (buf : bytes) :
  parser_wf p -> in_memory buf ->
  drain_all (p, buf) = match parse (p, buf) with
    | (Val (Some cmd), s') => let '(cs, e, s'') := drain_all s' in (cmd :: cs, e, s'')
    | (Val None, s') => ([], Val tt, s')
    | (Err x, s') => ([], Err x, s')
    | (Panic, s') => ([], Panic, s')
    | (Diverge, s') => ([], Diverge, s')
    end.
Proof.
  intros Hwf Hm. unfold drain_all at 1. cbn [drain snd bm_bytes list_bytes_mut].
  destruct (parse_spec p buf Hwf Hm) as (o & p' & buf' & -> & Hok).
  destruct o as [[c|]|e| |]; try done. pose proof (po_progress _ _ _ _ _ Hok c eq_refl).
  unfold drain_all. cbn [snd bm_bytes list_bytes_mut].
  rewrite (drain_fuel _ (S (length buf')) p' buf'); [done|apply Hok| |lia|lia].
  eapply in_memory_le; [|exact Hm]. lia.
Qed.

(** More input after a drain: what was read stays read. *)
Lemma drain_more n : forall p buf cs e p' buf',
  length buf < n -> parser_wf p -> in_memory buf ->
  drain_all (p, buf) = (cs, e, (p', buf')) ->
  parser_wf p' /\ length buf' <= length buf /\ e <> Diverge /\
  forall m, in_memory (buf ++ m) ->
    drain_all (p, buf ++ m)
    = match e with
      | Val _ => let '(cs', e', s') := drain_all (p', buf' ++ m) in (cs ++ cs', e', s')
      | _ => (cs, e, (p', buf' ++ m))
      end.
Proof.
  induction n as [|n IH]; intros p buf cs e p' buf' Hn Hwf Hm E; [lia|].
  rewrite (drain_unfold _ _ Hwf Hm) in E.
  destruct (parse_spec p buf Hwf Hm) as (o & p1 & buf1 & Ep & [Hw1 Ht Hl Hpr Hwait Hstab]).
  rewrite Ep in E. destruct o as [[c|]|x| |]; try done.
  - specialize (Hpr c eq_refl). destruct (drain_all (p1, buf1)) as [[cs1 e1] [p2 buf2]] eqn:E1.
    injection E as <- <- <- <-.
    destruct (IH p1 buf1 cs1 e1 p2 buf2) as (Hw2 & Hl2 & Hd2 & Hmore);
      [lia|done|by eapply in_memory_le; [|exact Hm]; lia|done|].
    split_and!; [done|lia|done|]. intros m Hmm.
    assert (in_memory (buf1 ++ m)) as Hmm1.
    { revert Hmm. apply in_memory_le. rewrite !length_app. lia. }
    rewrite (drain_unfold _ _ Hwf Hmm), (Hstab ltac:(done) m Hmm), (Hmore m Hmm1).
    destruct e1; [|done..]. by destruct (drain_all (p2, buf2 ++ m)) as [[cs' e'] s'].
  - injection E as <- <- <- <-. split_and!; try done. intros m Hmm.
    rewrite (drain_unfold _ _ Hwf Hmm), (Hwait eq_refl m Hmm).
    assert (in_memory (buf1 ++ m)) as Hmm1.
    { revert Hmm. apply in_memory_le. rewrite !length_app. lia. }
    rewrite (drain_unfold _ _ Hw1 Hmm1). simpl.
    by destruct (parse (p1, buf1 ++ m)) as [[[c|]|x| |] s'];
      try destruct (drain_all s') as [[cs' e'] s''].
  - injection E as <- <- <- <-. split_and!; try done. intros m Hmm.
    by rewrite (drain_unfold _ _ Hwf Hmm), (Hstab ltac:(done) m Hmm).
  - injection E as <- <- <- <-. split_and!; try done. intros m Hmm.
    by rewrite (drain_unfold _ _ Hwf Hmm), (Hstab ltac:(done) m Hmm).
Qed.

(** Commands and ending, without the state. *)
Definition seen {A} (r : list (list bytes) * outcome RespError unit * A)
  : list (list bytes) * outcome RespError unit := fst r.

Lemma feed_concat chunks : forall p (buf : bytes),
  parser_wf p -> in_memory (buf ++ concat chunks) ->
  drain_all (p, buf) = ([], Val tt, (p, buf)) ->
  seen (feed chunks (p, buf)) = seen (drain_all (p, buf ++ concat chunks)).
Proof.
  induction chunks as [|c chunks IH]; intros p buf Hwf Hm Hidle.
  { simpl. by rewrite app_nil_r, Hidle. }
  cbn [feed fst snd bm_put list_bytes_mut concat]. rewrite app_assoc. 
  assert (in_memory ((buf ++ c) ++ concat chunks)) as Hm1 by (by rewrite <- app_assoc).
  destruct (drain_all (p, buf ++ c)) as [[cs e] [p1 buf1]] eqn:E.
  destruct (drain_more (S (length (buf ++ c))) p (buf ++ c) cs e p1 buf1) as (Hw1 & Hl1 & Hd1 & Hmore);
    [lia|done|by eapply in_memory_app_l|done|].
  rewrite (Hmore _ Hm1). destruct e as [[]|x| |]; try done.
  assert (in_memory (buf1 ++ concat chunks)) as Hm2.
  { revert Hm1. apply in_memory_le. rewrite !length_app in *. lia. }
  assert (drain_all (p1, buf1) = ([], Val tt, (p1, buf1))) as Hidle1.
  { pose proof (Hmore []) as H0. rewrite !app_nil_r in H0.
    specialize (H0 (in_memory_app_l _ _ Hm1)). rewrite E in H0.
    destruct (drain_all (p1, buf1)) as [[cs' e'] s']. injection H0 as Hc <- <-.
    apply (f_equal length) in Hc. rewrite length_app in Hc. by destruct cs'; simpl in Hc; [|lia]. }
  specialize (IH p1 buf1 Hw1 Hm2 Hidle1). unfold seen in *.
  destruct (feed chunks (p1, buf1)) as [[cs1 e1] s1].
  destruct (drain_all (p1, buf1 ++ concat chunks)) as [[cs2 e2] s2]. simpl in *. by simplify_eq.
Qed.

End stream_thms.
