(* ===== verification/RespClient.v ===== *)
(** * The client's RESP2 encoder and reader (hkv-client/src/resp.rs)

    The reader is a [BufRead]: the bytes the peer will have sent, and how the
    stream ends after them (end of file, or an I/O error). *)

From S2P Require Import Prelude Decimal.

(** ** Errors (hkv-client/src/client.rs) *)

(** [std::io::ErrorKind]: the kinds the client distinguishes. *)
Inductive ErrorKind : Type :=
| ConnectionRefused | ConnectionReset | ConnectionAborted | NotConnected
| TimedOut | InterruptedIo | BrokenPipe | UnexpectedEof | WouldBlock | OtherIo.

#[global] Instance ErrorKind_eq_dec : EqDecision ErrorKind.
Proof. solve_decision. Defined.

Inductive ClientError : Type :=
| Io (kind : ErrorKind)
| ClientProtocol
| ServerReply (message : bytes)
| UnexpectedResponse
| PoolExhausted
| InvalidAddress.

(** ** Values *)

#[warnings="-register-all"]
Inductive RespValue : Type :=
| Simple (text : bytes)
| ErrorReply (text : bytes)
| Integer (n : Z)
| Bulk (data : option bytes)
| Array (items : list RespValue).

(** ** Encoding *)

(** [push_usize]: the digits go through a 20-byte stack buffer; an index past
    it would panic ([None]). *)
Definition push_usize (out : bytes) (value : Z) : option bytes :=
  if bool_decide (value = 0%Z) then Some (out ++ [digit_byte 0])
  else l ← digits_rev 20 value; Some (out ++ rev l).

Fixpoint push_args (args : list bytes) (out : bytes) : option bytes :=
  match args with
  | [] => Some out
  | arg :: args' =>
      out ← push_usize (out ++ lit "$") (Z.of_nat (length arg));
      push_args args' (out ++ crlf ++ arg ++ crlf)
  end.

Definition encode_command (args : list bytes) (out : bytes) : option bytes :=
  out ← push_usize (out ++ lit "*") (Z.of_nat (length args));
  push_args args (out ++ crlf).

(** ** Reading *)

Record Reader := mkReader {
  r_data : bytes;
  r_end : option ErrorKind
}.

(** State of a read: the reader and the caller's line buffer. *)
Abbreviation RM := (M (Reader * bytes) ClientError).

(** [read_until(b'\n', buf)]: up to and including the first line feed, or all
    there is; an I/O error keeps what was read in the buffer. *)
Fixpoint take_until (c : byte) (l : bytes) : option (bytes * bytes) :=
  match l with
  | [] => None
  | b :: l' =>
      if bool_decide (b = c) then Some ([b], l')
      else (fun '(x, r) => (b :: x, r)) <$> take_until c l'
  end.

Definition read_until (c : byte) : RM nat := fun '(r, buf) =>
  match take_until c (r_data r) with
  | Some (l, rest) => (Val (length l), (mkReader rest (r_end r), buf ++ l))
  | None =>
      match r_end r with
      | None => (Val (length (r_data r)), (mkReader [] None, buf ++ r_data r))
      | Some k => (Err (Io k), (mkReader [] (Some k), buf ++ r_data r))
      end
  end.

(** [read_exact]: an end of file before [n] bytes is [UnexpectedEof]. *)
Definition read_exact (n : Z) : RM bytes := fun '(r, buf) =>
  if (n <=? Z.of_nat (length (r_data r)))%Z
  then (Val (take (Z.to_nat n) (r_data r)),
        (mkReader (drop (Z.to_nat n) (r_data r)) (r_end r), buf))
  else (Err (Io (default UnexpectedEof (r_end r))), (mkReader [] (r_end r), buf)).

Definition line_buf : RM bytes := gets snd.
Definition set_line_buf (f : bytes -> bytes) : RM unit := modify (fun '(r, buf) => (r, f buf)).

Definition read_line : RM unit :=
  set_line_buf (fun _ => []);;
  n ← read_until LF;
  if bool_decide (n = 0) then throw ClientProtocol
  else
    buf ← line_buf;
    if (length buf <? 2) || bool_decide (buf !! (length buf - 2) <> Some CR)
    then throw ClientProtocol
    else set_line_buf (fun buf => take (length buf - 2) buf).

(** [i64::saturating_mul] and [saturating_add]. *)
Definition i64_min : Z := - 2 ^ 63.
Definition i64_sat (z : Z) : Z := Z.max i64_min (Z.min z i64_max).

Fixpoint parse_i64_loop (value : Z) (data : bytes) : option Z :=
  match data with
  | [] => Some value
  | b :: data' =>
      if negb (is_ascii_digit b) then None
      else parse_i64_loop (i64_sat (i64_sat (value * 10) + (byte_val b - 48))) data'
  end.

Definition parse_i64 (data : bytes) : option Z :=
  match data with
  | [] => None
  | b :: data' =>
      if bool_decide (b = Byte.x2d) then Z.opp <$> parse_i64_loop 0 data'
      else parse_i64_loop 0 data
  end.

Definition parse_len : RM Z :=
  buf ← line_buf;
  match parse_i64 (tail buf) with Some n => mret n | None => throw ClientProtocol end.

Definition parse_bulk_len (len : Z) : RM RespValue :=
  if (len <? 0)%Z then mret (Bulk None)
  else
    data ← read_exact len;
    end_ ← read_exact 2;
    if bool_decide (end_ <> crlf) then throw ClientProtocol
    else set_line_buf (fun _ => []);; mret (Bulk (Some data)).

Section read.

(** The size of a [RespValue] in memory, which the language leaves open:
    [Vec::with_capacity] panics past [isize::MAX] bytes. *)
Context (value_size : Z).

(** The elements of an array, each read by [read]; [turns] bounds the loop:
    every element takes two bytes at least from the stream. *)
Fixpoint read_items (read : RM RespValue) (turns : nat) (n : Z) : RM (list RespValue) :=
  match turns with
  | O => diverge
  | S turns' =>
      if (n <=? 0)%Z then mret []
      else v ← read; vs ← read_items read turns' (n - 1); mret (v :: vs)
  end.

Definition parse_array_len (read : RM RespValue) (turns : nat) (len : Z) : RM RespValue :=
  if (len <=? 0)%Z then mret (Array [])
  else if (i64_max <? len * value_size)%Z then panic
  else items ← read_items read turns len; mret (Array items).

(** The recursion through arrays, with a bound on the nested calls: each call
    takes a line, of two bytes at least, from the stream. *)
Fixpoint read_value (fuel : nat) : RM RespValue :=
  match fuel with
  | O => diverge
  | S fuel' =>
      read_line;;
      buf ← line_buf;
      match buf with
      | [] => throw ClientProtocol
      | b :: text =>
          if bool_decide (b = Byte.x2b) then mret (Simple text)
          else if bool_decide (b = Byte.x2d) then mret (ErrorReply text)
          else if bool_decide (b = Byte.x3a) then n ← parse_len; mret (Integer n)
          else if bool_decide (b = Byte.x24) then n ← parse_len; parse_bulk_len n
          else if bool_decide (b = Byte.x2a) then len ← parse_len; parse_array_len (read_value fuel') fuel' len
          else throw ClientProtocol
      end
  end.

Definition read_response : RM RespValue :=
  fuel ← gets (fun '(r, _) => length (r_data r));
  read_value (S (S fuel)).

End read.
