(* ===== verification/RespThms.v ===== *)
(** * Properties of the RESP2 wire format

    What the client encodes the server parses (hkv-client/src/resp.rs against
    hkv-server/src/protocol.rs), however the stream is cut; the parser returns
    on every stream; the bulk length that makes it panic. *)

From S2P Require Import Prelude Decimal RespParser RespParserThms RespClient.

(** ** Encoding, as concatenation *)

Definition enc_arg (a : bytes) : bytes :=
  lit "$" ++ dec_nonneg (Z.of_nat (length a)) ++ crlf ++ a ++ crlf.
Definition enc_args (args : list bytes) : bytes := concat (enc_arg <$> args).
Definition enc_command (args : list bytes) : bytes :=
  lit "*" ++ dec_nonneg (Z.of_nat (length args)) ++ crlf ++ enc_args args.

Lemma push_usize_run out v : (0 <= v <= u64_max)%Z -> push_usize out v = Some (out ++ dec_nonneg v).
Proof.
  intros Hv. unfold push_usize, dec_nonneg. destruct (Z.leb_spec v 0).
  - by rewrite bool_decide_true by lia.
  - rewrite bool_decide_false by lia.
    destruct (digits_rev_fits 20 v (u64_digits v Hv)) as [l E]. by rewrite E.
Qed.

Definition small_args (args : list bytes) : Prop :=
  (Z.of_nat (length args) <= u64_max)%Z /\ Forall (fun a => Z.of_nat (length a) <= u64_max)%Z args.

Lemma push_args_run args : forall out,
  Forall (fun a => Z.of_nat (length a) <= u64_max)%Z args ->
  push_args args out = Some (out ++ enc_args args).
Proof.
  induction args as [|a args IH]; intros out Hs; [by rewrite app_nil_r|].
  apply Forall_cons in Hs as [Ha Hs]. cbn [push_args]. rewrite push_usize_run by lia. cbn [mbind option_bind].
  rewrite IH by done. unfold enc_args. rewrite fmap_cons. cbn [concat]. unfold enc_arg.
  by rewrite <- !app_assoc.
Qed.

Lemma encode_command_run args out :
  small_args args -> encode_command args out = Some (out ++ enc_command args).
Proof.
  intros [Hn Hs]. unfold encode_command. rewrite push_usize_run by lia. cbn [mbind option_bind].
  rewrite push_args_run by done. unfold enc_command. by rewrite <- !app_assoc.
Qed.

(** ** The server parses it *)

Lemma parse_usize_dec v : (0 <= v <= u64_max)%Z -> parse_usize (dec_nonneg v) = Ok v.
Proof.
  intros Hv. destruct (dec_nonneg_spec v (u64_digits v Hv)) as (Hd & Hval & Hne).
  rewrite parse_usize_spec, bool_decide_false, Hd, Hval by done.
  by rewrite Z.min_l by (unfold usize_max; lia).
Qed.

Lemma dec_nonneg_no_cr v : (0 <= v <= u64_max)%Z -> CR ∉ dec_nonneg v.
Proof.
  intros Hv. destruct (dec_nonneg_spec v (u64_digits v Hv)) as (Hd & _). by apply all_digits_notin.
Qed.

Section parse.
Context `{Profile}.

Lemma header_line p c v (rest : bytes) :
  (0 <= v <= u64_max)%Z -> c <> CR ->
  RespParser.read_line (p, [c] ++ dec_nonneg v ++ crlf ++ rest) = (Val (Some (c :: dec_nonneg v)), (p, rest)).
Proof.
  intros Hv Hc. rewrite read_line_list.
  change ([c] ++ dec_nonneg v ++ crlf ++ rest) with ((c :: dec_nonneg v) ++ crlf ++ rest).
  rewrite split_crlf_app; [done|]. apply not_elem_of_cons. split; [done|]. by apply dec_nonneg_no_cr.
Qed.

Lemma array_turn p n rest :
  p_state p = ArrayLen -> (0 <= n <= u64_max)%Z ->
  parse_turn (p, lit "*" ++ dec_nonneg n ++ crlf ++ rest)
  = if bool_decide (n = 0)%Z
    then (Val (Return (Some [])), (mkParser ArrayLen [] 0 (p_bulk_len p), rest))
    else (Val Again, (mkParser BulkLen [] n (p_bulk_len p), rest)).
Proof.
  intros Hst Hn. unfold parse_turn. rewrite bind_gets. cbn [fst]. rewrite Hst.
  unfold RespParser.parse_array_len.
  rewrite (bind_val _ _ _ _ _ (header_line p Byte.x2a n rest Hn ltac:(done))).
  cbn [bm_bytes list_bytes_mut head tail]. rewrite bool_decide_false by auto.
  rewrite lift_run, parse_usize_dec by done.
  unfold modify_parser, set_state, modify_parser, mbind, M_bind, modify. cbn.
  case_bool_decide as Hz; [by rewrite Hz|done].
Qed.

Lemma bulk_turn p n rest :
  p_state p = BulkLen -> (0 <= n <= u64_max)%Z ->
  parse_turn (p, lit "$" ++ dec_nonneg n ++ crlf ++ rest)
  = (Val Again, (mkParser BulkData (p_args p) (p_remaining p) n, rest)).
Proof.
  intros Hst Hn. unfold parse_turn. rewrite bind_gets. cbn [fst]. rewrite Hst.
  unfold RespParser.parse_bulk_len.
  rewrite (bind_val _ _ _ _ _ (header_line p Byte.x24 n rest Hn ltac:(done))).
  cbn [bm_bytes list_bytes_mut head tail]. rewrite bool_decide_false by auto.
  by rewrite lift_run, parse_usize_dec by done.
Qed.

Lemma data_turn p a rest :
  p_state p = BulkData -> p_bulk_len p = Z.of_nat (length a) -> (1 <= p_remaining p)%Z ->
  in_memory (a ++ crlf ++ rest) ->
  parse_turn (p, a ++ crlf ++ rest)
  = if bool_decide (p_remaining p = 1)%Z
    then (Val (Return (Some (p_args p ++ [a]))), (mkParser ArrayLen [] 0 (p_bulk_len p), rest))
    else (Val Again, (mkParser BulkLen (p_args p ++ [a]) (p_remaining p - 1) (p_bulk_len p), rest)).
Proof.
  intros Hst Hb Hr Hm. unfold parse_turn. rewrite bind_gets. cbn [fst]. rewrite Hst.
  unfold parse_bulk_data. rewrite bind_gets. cbn [fst].
  unfold in_memory in Hm. rewrite !length_app in Hm. cbn in Hm.
  assert (forall s, usize_add (S:=RespParser * bytes) (E:=RespError) (p_bulk_len p) 2 s
    = (Val (p_bulk_len p + 2)%Z, s)) as Hadd.
  { intros s. apply usize_add_small. rewrite Hb. unfold usize_max, u64_max, u64_modulus. lia. }
  rewrite (bind_val _ _ _ _ _ (Hadd _)), bind_gets. cbn [snd bm_bytes list_bytes_mut].
  rewrite Hb, !(proj2 (Z.ltb_ge _ _)) by (rewrite !length_app; cbn; lia).
  rewrite Nat2Z.id.
  assert (split_to (length a) (p, a ++ crlf ++ rest) = (Val a, (p, crlf ++ rest))) as Es.
  { rewrite split_to_list by (rewrite length_app; lia). by rewrite take_app_length, drop_app_length. }
  rewrite (bind_val _ _ _ _ _ Es).
  assert (get_u8 (p, crlf ++ rest) = (Val CR, (p, LF :: rest))) as Ec by done.
  assert (get_u8 (p, LF :: rest) = (Val LF, (p, rest))) as El by done.
  rewrite (bind_val _ _ _ _ _ Ec), bool_decide_false by auto.
  rewrite (bind_val _ _ _ _ _ El), bool_decide_false by auto.
  unfold finish_arg, set_state, modify_parser. rewrite bind_modify, bind_gets. cbn [fst p_remaining].
  unfold usize_sub1. rewrite (proj2 (Z.leb_le _ _)), bind_ret, bind_modify by lia.
  destruct (decide (p_remaining p = 1)%Z) as [E1|E1].
  - rewrite !bool_decide_true by (cbn; lia). rewrite bind_modify, bind_gets, bind_modify.
    unfold mret, M_ret. cbn [p_state p_args p_remaining p_bulk_len fst]. by rewrite E1, Hb.
  - rewrite !bool_decide_false by (cbn; lia). unfold set_state, modify_parser. rewrite bind_modify. unfold mret, M_ret. cbn [p_state p_args p_remaining p_bulk_len fst]. by rewrite Hb.
Qed.

Lemma parser_wf_mk st acc r b : (0 <= b)%Z -> (1 <= r)%Z -> parser_wf (mkParser st acc r b).
Proof. by intros Hb Hr; split; [|intros _]. Qed.

Lemma parse_args_run args : forall acc bl rest,
  args <> [] -> (0 <= bl)%Z -> in_memory (enc_args args ++ rest) ->
  exists bl', (0 <= bl')%Z /\
  parse (mkParser BulkLen acc (Z.of_nat (length args)) bl, enc_args args ++ rest)
  = (Val (Some (acc ++ args)), (mkParser ArrayLen [] 0 bl', rest)).
Proof.
  induction args as [|a args IH]; intros acc bl rest Hne Hbl Hm; [done|].
  assert (enc_args (a :: args) ++ rest
    = lit "$" ++ dec_nonneg (Z.of_nat (length a)) ++ crlf ++ a ++ crlf ++ enc_args args ++ rest) as Heq.
  { unfold enc_args. rewrite fmap_cons. cbn [concat]. unfold enc_arg. by rewrite <- !app_assoc. }
  rewrite Heq in Hm |- *.
  assert (Z.of_nat (length a) <= u64_max)%Z as Ha.
  { unfold in_memory in Hm. rewrite !length_app in Hm. unfold u64_max, u64_modulus. lia. }
  rewrite parse_unfold by (try done; apply parser_wf_mk; cbn [length]; lia).
  rewrite bulk_turn by (try done; lia). cbn [p_args p_remaining].
  set (rest' := enc_args args ++ rest) in *.
  assert (in_memory (a ++ crlf ++ rest')) as Hm1.
  { revert Hm. apply in_memory_le. rewrite !length_app. lia. }
  rewrite parse_unfold by (try done; apply parser_wf_mk; cbn [length]; lia).
  rewrite data_turn by (try done; cbn; lia). cbn [p_args p_remaining p_bulk_len].
  case_bool_decide as H1.
  - destruct args as [|b args]; [|cbn in H1; lia]. unfold rest'. cbn. exists (Z.of_nat (length a)). split; [lia|done].
  - destruct (IH (acc ++ [a]) (Z.of_nat (length a)) rest) as (bl' & Hbl' & E); [|lia| |].
    + intros ->. cbn in H1. lia.
    + revert Hm1. apply in_memory_le. rewrite !length_app. unfold rest'. rewrite length_app. lia.
    + exists bl'. split; [done|]. rewrite <- app_assoc in E.
      replace (Z.of_nat (length (a :: args)) - 1)%Z with (Z.of_nat (length args)) by (cbn; lia). exact E.
Qed.

Lemma parse_command_run p args rest :
  p_state p = ArrayLen -> (0 <= p_bulk_len p)%Z -> in_memory (enc_command args ++ rest) ->
  exists bl, (0 <= bl)%Z /\
  parse (p, enc_command args ++ rest) = (Val (Some args), (mkParser ArrayLen [] 0 bl, rest)).
Proof.
  intros Hst Hbl Hm.
  assert (Z.of_nat (length args) <= u64_max)%Z as Hn.
  { assert (length args <= length (enc_args args)) as Hle.
    { unfold enc_args. clear. induction args as [|a args IH]; [done|].
      rewrite fmap_cons. cbn [concat length]. rewrite length_app. unfold enc_arg at 1.
      rewrite length_app. cbn [length lit]. cbn. lia. }
    unfold in_memory, enc_command in Hm. rewrite !length_app in Hm. unfold u64_max, u64_modulus. lia. }
  unfold enc_command in *. rewrite <- !app_assoc in *.
  assert (parser_wf p) as Hwf by (split; [done|by rewrite Hst]).
  rewrite parse_unfold by done.
  rewrite array_turn by (try done; lia). case_bool_decide as Hz.
  - destruct args; [|cbn in Hz; lia]. exists (p_bulk_len p). done.
  - destruct (parse_args_run args [] (p_bulk_len p) rest) as (bl & Hb & E); [by intros ->|done| |by exists bl].
    revert Hm. apply in_memory_le. rewrite !length_app. lia.
Qed.

End parse.

(** ** Any buffer, any chunks *)

Section transfer.
Context `{Profile} {B : Type} `{BytesMutLaws B}.

Lemma drain_transfer fuel : forall p (b : B), exists p' b',
  drain fuel (p, b) = (fst (drain fuel (p, bm_bytes b)), (p', b'))
  /\ snd (drain fuel (p, bm_bytes b)) = (p', bm_bytes b').
Proof.
  induction fuel as [|fuel IH]; intros p b; [by exists p, b|]. cbn [drain].
  pose proof (parse_transfer p b) as (Ho & Hp & Hb).
  destruct (parse (p, b)) as [o [p1 b1]], (parse (p, bm_bytes b)) as [o' [p1' l1]].
  simpl in Ho, Hp, Hb. subst o' p1' l1. destruct o as [[c|]|e| |]; try by exists p1, b1.
  destruct (IH p1 b1) as (p' & b' & E & E'). exists p', b'. rewrite E.
  by destruct (drain fuel (p1, bm_bytes b1)) as [[cs e] s].
Qed.

Lemma feed_transfer chunks : forall p (b : B), exists p' b',
  feed chunks (p, b) = (fst (feed chunks (p, bm_bytes b)), (p', b'))
  /\ snd (feed chunks (p, bm_bytes b)) = (p', bm_bytes b').
Proof.
  induction chunks as [|c chunks IH]; intros p b; [by exists p, b|].
  cbn [feed fst snd]. unfold drain_all. cbn [snd].
  destruct (drain_transfer (S (length (bm_bytes (bm_put b c)))) p (bm_put b c)) as (p1 & b1 & E & E').
  rewrite E. rewrite (bm_put_ok b c) in E' |- *. cbn [bm_put bm_bytes list_bytes_mut].
  destruct (drain (S (length (bm_bytes b ++ c))) (p, bm_bytes b ++ c)) as [[cs e] s]. simpl in E'. subst s.
  destruct e as [[]|x| |]; try by exists p1, b1.
  destruct (IH p1 b1) as (p' & b' & E2 & E2'). exists p', b'. simpl. rewrite E2.
  by destruct (feed chunks (p1, bm_bytes b1)) as [[cs' e'] s'].
Qed.

Lemma feed_new_transfer chunks (b : B) :
  bm_bytes b = [] -> seen (feed chunks (parser_new, b)) = seen (feed chunks (parser_new, [])).
Proof.
  intros Hb. destruct (feed_transfer chunks parser_new b) as (p' & b' & E & _).
  rewrite Hb in E. unfold seen. by rewrite E.
Qed.

End transfer.

Section wire.
Context `{Profile}.

Lemma new_wf : parser_wf parser_new.
Proof. by split. Qed.

Lemma new_idle : drain_all (parser_new, []) = ([], Val tt, (parser_new, [])).
Proof. done. Qed.

Lemma feed_new chunks :
  in_memory (concat chunks) ->
  seen (feed chunks (parser_new, [])) = seen (drain_all (parser_new, concat chunks)).
Proof. intros Hm. by rewrite (feed_concat chunks parser_new [] new_wf Hm new_idle). Qed.

Lemma drain_commands cmds : forall p,
  p_state p = ArrayLen -> (0 <= p_bulk_len p)%Z -> in_memory (concat (enc_command <$> cmds)) ->
  seen (drain_all (p, concat (enc_command <$> cmds))) = (cmds, Val tt).
Proof.
  induction cmds as [|c cmds IH]; intros p Hst Hbl Hm.
  - cbn [fmap list_fmap concat]. assert (parser_wf p) as Hwf by (split; [done|by rewrite Hst]).
    rewrite drain_unfold by done. unfold parse. rewrite bind_gets. cbn [parse_loop snd bm_bytes list_bytes_mut].
    unfold parse_turn. rewrite bind_bind, bind_gets. cbn [fst]. by rewrite Hst.
  - rewrite fmap_cons in Hm |- *. cbn [concat] in *.
    assert (parser_wf p) as Hwf by (split; [done|by rewrite Hst]).
    rewrite drain_unfold by done.
    destruct (parse_command_run p c (concat (enc_command <$> cmds)) Hst Hbl Hm) as (bl & Hb & E).
    rewrite E. assert (in_memory (concat (enc_command <$> cmds))) as Hm1.
    { revert Hm. apply in_memory_le. rewrite length_app. lia. }
    specialize (IH (mkParser ArrayLen [] 0 bl) eq_refl Hb Hm1). unfold seen in *.
    destruct (drain_all (mkParser ArrayLen [] 0 bl, concat (enc_command <$> cmds))) as [[cs e] s].
    cbn [fst] in IH |- *. by injection IH as -> ->.
Qed.

Lemma encoded_wires cmds wires :
  Forall small_args cmds -> Forall2 (fun c w => encode_command c [] = Some w) cmds wires ->
  wires = enc_command <$> cmds.
Proof.
  intros Hs Hf. induction Hf as [|c w cmds wires Hc Hf IH]; [done|].
  apply Forall_cons in Hs as [Hsc Hs]. rewrite fmap_cons, <- IH by done.
  rewrite encode_command_run in Hc by done. by injection Hc as <-.
Qed.

(** A turn panics only at a bulk length whose end overflows [usize]. *)
Lemma turn_panics p buf p' buf' :
  parser_wf p -> in_memory buf -> parse_turn (p, buf) = (Panic, (p', buf')) ->
  (usize_max < p_bulk_len p' + 2)%Z.
Proof.
  intros Hwf Hm E. unfold parse_turn in E. rewrite bind_gets in E. cbn [fst] in E.
  destruct (p_state p) eqn:Hst.
  - exfalso. unfold RespParser.parse_array_len in E. pose proof (read_line_list p buf) as El.
    destruct (split_crlf buf) as [[l r]|]; rewrite (bind_val _ _ _ _ _ El) in E; [|done].
    cbn [bm_bytes list_bytes_mut] in E. case_bool_decide; rewrite lift_run in E.
    + by destruct (parse_inline_command l).
    + destruct (parse_usize (tail l)); [|done]. unfold modify_parser in E. rewrite bind_modify in E.
      by case_bool_decide.
  - exfalso. unfold RespParser.parse_bulk_len in E. pose proof (read_line_list p buf) as El.
    destruct (split_crlf buf) as [[l r]|]; rewrite (bind_val _ _ _ _ _ El) in E; [|done].
    cbn [bm_bytes list_bytes_mut] in E. case_bool_decide; [done|]. rewrite lift_run in E.
    by destruct (parse_usize (tail l)).
  - destruct (Z.ltb_spec usize_max (p_bulk_len p + 2)) as [Hbig|Hsmall].
    + assert (p' = p) as ->; [|done].
      unfold parse_bulk_data in E. rewrite bind_gets in E. cbn [fst] in E.
      destruct (usize_add_run (E:=RespError) (p_bulk_len p) 2 (p, buf)) as [(need & _ & E1 & _)|[E1 _]].
      2: { rewrite (bind_panic _ _ _ _ E1) in E. by simplify_eq. }
      rewrite (bind_val _ _ _ _ _ E1), bind_gets in E. cbn [snd bm_bytes list_bytes_mut] in E.
      destruct (_ <? need)%Z; [done|].
      rewrite (proj2 (Z.ltb_lt _ _)) in E; [|unfold in_memory, usize_max, u64_max, u64_modulus in *; lia].
      unfold mbind, M_bind, panic in E. by simplify_eq.
    + exfalso. revert E. unfold parse_bulk_data. rewrite bind_gets. cbn [fst].
      rewrite (bind_val _ _ _ _ _ (usize_add_small _ _ _ Hsmall)), bind_gets.
      cbn [snd bm_bytes list_bytes_mut].
      destruct (Z.ltb_spec (Z.of_nat (length buf)) (p_bulk_len p + 2)) as [|Hlen]; [done|].
      pose proof Hwf as [Hb Hr]. rewrite (proj2 (Z.ltb_ge _ _)) by lia.
      rewrite (bind_val _ _ _ _ _ (split_to_list (Z.to_nat (p_bulk_len p)) p buf ltac:(lia))).
      assert (2 <= length (drop (Z.to_nat (p_bulk_len p)) buf)) as Hd by (rewrite length_drop; lia).
      destruct (drop (Z.to_nat (p_bulk_len p)) buf) as [|c1 [|c2 rest]]; [simpl in Hd; lia..|].
      assert (forall c l, get_u8 (p, c :: l) = (Val c, (p, l))) as Hget by done.
      rewrite (bind_val _ _ _ _ _ (Hget _ _)). case_bool_decide; [done|].
      rewrite (bind_val _ _ _ _ _ (Hget _ _)). case_bool_decide; [done|].
      unfold finish_arg, set_state, modify_parser. rewrite bind_modify, bind_gets. cbn [fst p_remaining].
      unfold usize_sub1. rewrite (proj2 (Z.leb_le _ _)) by (apply Hr; by rewrite Hst).
      rewrite bind_ret, bind_modify. by case_bool_decide.
Qed.

Lemma parse_panics n : forall p buf p' buf',
  length buf < n -> parser_wf p -> in_memory buf ->
  parse (p, buf) = (Panic, (p', buf')) -> (usize_max < p_bulk_len p' + 2)%Z.
Proof.
  induction n as [|n IH]; intros p buf p' buf' Hn Hwf Hm E; [lia|].
  rewrite (parse_unfold _ _ Hwf Hm) in E. pose proof (turn_run_ok p buf Hwf Hm) as Hok.
  destruct (parse_turn (p, buf)) as [ot [p1 buf1]] eqn:Et.
  pose proof (turn_wf _ _ _ _ _ Hwf Et) as Hwf1.
  destruct ot as [[c|]|e| |]; try done.
  - destruct Hok as [(? & _)|(_ & _ & Hlen & _)]; [done|]. specialize (Hlen Again eq_refl).
    apply (IH p1 buf1 p' buf'); [lia|done|by eapply in_memory_le; [|exact Hm]; lia|done].
  - injection E as <- <-. by apply (turn_panics p buf p1 buf1).
Qed.

End wire.

(** ** The properties *)

(** C16: whatever the buffer type and however the stream is cut into chunks,
    the server's parser reads the pipelined commands a client encodes, in
    order and unchanged (any bytes in the arguments), and then waits for more. *)
Theorem pipelined_commands_roundtrip `{Profile} {B} `{BytesMutLaws B} cmds wires chunks (b : B) :
  Forall small_args cmds -> Forall2 (fun c w => encode_command c [] = Some w) cmds wires ->
  concat chunks = concat wires -> in_memory (concat chunks) -> bm_bytes b = [] ->
  fst (feed chunks (parser_new, b)) = (cmds, Val tt).
Proof.
  intros Hs Hw Hc Hm Hb. change (seen (feed chunks (parser_new, b)) = (cmds, Val tt)).
  rewrite feed_new_transfer, feed_new by done. rewrite Hc in *.
  rewrite (encoded_wires _ _ Hs Hw) in *. by apply drain_commands.
Qed.

Lemma pipelined_commands_roundtrip_witness :
  fst (feed (H := release_profile)
    [lit "*1"; crlf ++ lit "$4" ++ crlf ++ lit "PI"; lit "NG" ++ [CR];
     [LF] ++ lit "*2" ++ crlf ++ lit "$3" ++ crlf ++ lit "GET" ++ crlf ++ lit "$1" ++ crlf ++ lit "k" ++ crlf]
    (parser_new, @nil byte)) = ([[lit "PING"]; [lit "GET"; lit "k"]], Val tt).
Proof.
  apply (@pipelined_commands_roundtrip release_profile bytes list_bytes_mut list_bytes_mut_laws
    [[lit "PING"]; [lit "GET"; lit "k"]]
    [lit "*1" ++ crlf ++ lit "$4" ++ crlf ++ lit "PING" ++ crlf;
     lit "*2" ++ crlf ++ lit "$3" ++ crlf ++ lit "GET" ++ crlf ++ lit "$1" ++ crlf ++ lit "k" ++ crlf]).
  - repeat constructor; vm_compute; discriminate.
  - repeat constructor.
  - reflexivity.
  - reflexivity.
  - reflexivity.
Defined.

(** Two ways of cutting the same bytes into chunks, valid or not, give the
    same commands and the same ending (waiting, protocol error or panic). *)
Theorem chunking_is_irrelevant `{Profile} {B} `{BytesMutLaws B} chunks1 chunks2 (b : B) :
  concat chunks1 = concat chunks2 -> in_memory (concat chunks1) -> bm_bytes b = [] ->
  fst (feed chunks1 (parser_new, b)) = fst (feed chunks2 (parser_new, b)).
Proof.
  intros Hc Hm Hb. change (seen (feed chunks1 (parser_new, b)) = seen (feed chunks2 (parser_new, b))).
  rewrite (feed_new_transfer chunks1 b Hb), (feed_new_transfer chunks2 b Hb), (feed_new chunks1 Hm).
  rewrite feed_new by (by rewrite <- Hc). by rewrite Hc.
Qed.

Lemma chunking_is_irrelevant_witness :
  fst (feed (H := dev_profile) [lit "PI"; lit "NG" ++ crlf ++ lit "*x" ++ crlf] (parser_new, @nil byte))
  = fst (feed (H := dev_profile) [lit "PING" ++ crlf; lit "*"; lit "x" ++ crlf] (parser_new, @nil byte)).
Proof.
  apply (@chunking_is_irrelevant dev_profile bytes list_bytes_mut list_bytes_mut_laws); reflexivity.
Defined.

(** C33: [parse] terminates on every buffer, a command takes at least two bytes
    from it, the parser stays well formed, and the only panic there is comes
    from a bulk length within two of [usize::MAX]. *)
Theorem parse_terminates `{Profile} {B} `{BytesMutLaws B} p (b : B) :
  parser_wf p -> in_memory (bm_bytes b) ->
  exists o p' b', parse (p, b) = (o, (p', b')) /\ o <> Diverge /\ parser_wf p'
    /\ (forall c, o = Val (Some c) -> length (bm_bytes b') + 2 <= length (bm_bytes b))
    /\ (o = Panic -> usize_max < p_bulk_len p' + 2)%Z.
Proof.
  intros Hwf Hm. destruct (parse_spec p (bm_bytes b) Hwf Hm) as (o & p' & buf' & E & Hok).
  pose proof (parse_transfer p b) as (Ho & Hp & Hb). rewrite E in Ho, Hp, Hb.
  destruct (parse (p, b)) as [o' [p'' b']]. simpl in *. subst o' p'' buf'.
  exists o, p', b'. split; [done|]. split; [apply Hok|]. split; [apply Hok|]. split; [apply Hok|].
  intros ->. eapply (parse_panics (S (length (bm_bytes b)))); [|done|done|exact E]. lia.
Qed.

Lemma parse_terminates_witness : exists o p' b',
  parse (H := release_profile) (parser_new, lit "*1" ++ crlf) = (o, (p', b')) /\ o <> Diverge
  /\ parser_wf p' /\ (forall c, o = Val (Some c) -> length b' + 2 <= 4)
  /\ (o = Panic -> usize_max < p_bulk_len p' + 2)%Z.
Proof.
  apply (@parse_terminates release_profile bytes list_bytes_mut list_bytes_mut_laws parser_new (lit "*1" ++ crlf)).
  - exact new_wf.
  - reflexivity.
Defined.

Lemma huge_bulk_run (profile : Profile) :
  fst (parse (parser_new, lit "*1" ++ crlf ++ lit "$18446744073709551615" ++ crlf ++ lit "x")) = Panic.
Proof. destruct profile as [[]]; vm_compute; reflexivity. Qed.

(** A request of 28 bytes makes the parser panic in either build profile:
    the bulk length saturates at [usize::MAX], and the check for the whole
    argument overflows (dev) or wraps, after which [split_to] is out of range
    (release). *)
Theorem huge_bulk_length_panics (profile : Profile) :
  fst (parse (parser_new, lit "*1" ++ crlf ++ lit "$18446744073709551615" ++ crlf ++ lit "x")) = Panic.
Proof. apply huge_bulk_run. Qed.
