(* ===== verification/Observation.v ===== *)
(** * Access observation (hkv-server/src/observation.rs and observation/exact.rs)

    The event log, the exact counters and the hot-key ranking. Counters are
    [u64]; they are advanced at most once per event, so the 2^64 events that
    would overflow them are out of reach: the additions are written as wrapping
    and the theorems bound the number of events. *)

From S2P Require Import Prelude.
From stdpp Require Import sorting.
From Stdlib Require Import Sorting.Sorted.

Inductive CommandKind : Type := CmdGet | CmdSet | CmdDelete | CmdExpire | CmdTtl | CmdUnknown.
Inductive AccessClass : Type := Read | Write.

#[global] Instance AccessClass_eq_dec : EqDecision AccessClass.
Proof. solve_decision. Defined.


Record ObservationEvent := mkEvent {
  ev_command : CommandKind;
  ev_key : bytes;
  ev_access : AccessClass;
  ev_value_size : option Z;
  ev_timestamp : SystemTime
}.

Definition event_read (command : CommandKind) (key : bytes) (timestamp : SystemTime) : ObservationEvent :=
  mkEvent command key Read None timestamp.
Definition event_write (command : CommandKind) (key : bytes) (value_size : option Z)
    (timestamp : SystemTime) : ObservationEvent :=
  mkEvent command key Write value_size timestamp.

(** [ExperimentObservationSink], and the shared and the exact logs: a vector. *)
Class ExperimentObservationSink (S : Type) := { record_observation : ObservationEvent -> S -> S }.

Abbreviation SharedObservationLog := (list ObservationEvent).
#[global] Instance log_sink : ExperimentObservationSink SharedObservationLog := {
  record_observation ev log := log ++ [ev]
}.

(** ** Exact counters *)

Definition u64_inc (n : Z) : Z := wrap64 (n + 1).

Record ExactCounterSnapshot := mkSnapshot {
  total_events : Z;
  reads : Z;
  writes : Z;
  known_value_bytes : Z
}.

Definition counter_record (ev : ObservationEvent) (s : ExactCounterSnapshot) : ExactCounterSnapshot :=
  mkSnapshot (u64_inc (total_events s))
    (match ev_access ev with Read => u64_inc (reads s) | Write => reads s end)
    (match ev_access ev with Read => writes s | Write => u64_inc (writes s) end)
    (match ev_value_size ev with
     | Some n => wrap64 (known_value_bytes s + n) | None => known_value_bytes s end).

#[global] Instance counter_sink : ExperimentObservationSink ExactCounterSnapshot := {
  record_observation := counter_record
}.

(** ** Hot keys *)

Record ExactHotKeyCounts := mkCounts {
  total_accesses : Z;
  read_accesses : Z;
  write_accesses : Z
}.

Definition counts_zero : ExactHotKeyCounts := mkCounts 0 0 0.

Definition count_access (a : AccessClass) (c : ExactHotKeyCounts) : ExactHotKeyCounts :=
  mkCounts (u64_inc (total_accesses c))
    (match a with Read => u64_inc (read_accesses c) | Write => read_accesses c end)
    (match a with Read => write_accesses c | Write => u64_inc (write_accesses c) end).

Abbreviation ExactHotnessEvaluator := (gmap bytes ExactHotKeyCounts).

Definition hotness_record (ev : ObservationEvent) (per_key : ExactHotnessEvaluator)
    : ExactHotnessEvaluator :=
  <[ev_key ev := count_access (ev_access ev) (default counts_zero (per_key !! ev_key ev))]> per_key.

Definition from_events (events : list ObservationEvent) : ExactHotnessEvaluator :=
  foldl (fun m ev => hotness_record ev m) ∅ events.

Record ExactHotKey := mkHot {
  hot_key : bytes;
  hot_counts : ExactHotKeyCounts
}.

(** [Ord] of byte strings. *)
Fixpoint bytes_cmp (a b : bytes) : comparison :=
  match a, b with
  | [], [] => Eq
  | [], _ => Lt
  | _, [] => Gt
  | x :: a', y :: b' =>
      match Z.compare (byte_val x) (byte_val y) with Eq => bytes_cmp a' b' | c => c end
  end.

(** The comparator of [top_keys]: accesses descending, key ascending. *)
Definition hot_cmp (l r : bytes * ExactHotKeyCounts) : comparison :=
  match Z.compare (total_accesses (snd r)) (total_accesses (snd l)) with
  | Eq =>
      match Z.compare (read_accesses (snd r)) (read_accesses (snd l)) with
      | Eq =>
          match Z.compare (write_accesses (snd r)) (write_accesses (snd l)) with
          | Eq => bytes_cmp (fst l) (fst r)
          | c => c
          end
      | c => c
      end
  | c => c
  end.

Definition hot_le (l r : bytes * ExactHotKeyCounts) : Prop := hot_cmp l r <> Gt.
#[global] Instance hot_le_dec : RelDecision hot_le.
Proof. intros l r. unfold hot_le. destruct (hot_cmp l r); [left|left|right]; naive_solver. Defined.

(** [iter] of the hash map yields its entries in some order, [entries]. *)
Definition top_keys (entries : list (bytes * ExactHotKeyCounts)) (limit : nat) : list ExactHotKey :=
  take limit ((fun '(k, c) => mkHot k c) <$> merge_sort hot_le entries).

(** ** The comparator is a total order *)

Lemma bytes_cmp_eq a b : bytes_cmp a b = Eq -> a = b.
Proof.
  revert b. induction a as [|x a IH]; intros [|y b]; simpl; try done.
  destruct (Z.compare_spec (byte_val x) (byte_val y)) as [E|E|E]; try done.
  intros ->%IH. by rewrite (byte_val_inj _ _ E).
Qed.

Lemma bytes_cmp_antisym a b : bytes_cmp b a = CompOpp (bytes_cmp a b).
Proof.
  revert b. induction a as [|x a IH]; intros [|y b]; simpl; try done.
  rewrite (Z.compare_antisym (byte_val x) (byte_val y)).
  destruct (byte_val x ?= byte_val y)%Z; simpl; [apply IH|done..].
Qed.

Lemma bytes_cmp_trans a b c : bytes_cmp a b <> Gt -> bytes_cmp b c <> Gt -> bytes_cmp a c <> Gt.
Proof.
  revert b c. induction a as [|x a IH]; intros [|y b] [|z c]; simpl; try done.
  destruct (Z.compare_spec (byte_val x) (byte_val y)); try done;
    destruct (Z.compare_spec (byte_val y) (byte_val z)); try done;
    destruct (Z.compare_spec (byte_val x) (byte_val z)); try done; try lia.
  apply IH.
Qed.

Ltac hot_cases :=
  unfold hot_le, hot_cmp; simpl;
  repeat match goal with |- context [Z.compare ?x ?y] => destruct (Z.compare_spec x y) end;
  try done; try lia.

#[global] Instance hot_le_total : Total hot_le.
Proof.
  intros [k1 [t1 r1 w1]] [k2 [t2 r2 w2]]. hot_cases; try (by left); try (by right).
  rewrite (bytes_cmp_antisym k1 k2). destruct (bytes_cmp k1 k2); [left|left|right]; done.
Qed.

#[global] Instance hot_le_trans : Transitive hot_le.
Proof.
  intros [k1 [t1 r1 w1]] [k2 [t2 r2 w2]] [k3 [t3 r3 w3]]. hot_cases. apply bytes_cmp_trans.
Qed.

#[global] Instance hot_le_antisym : AntiSymm (=) hot_le.
Proof.
  intros [k1 [t1 r1 w1]] [k2 [t2 r2 w2]]. hot_cases. subst.
  rewrite (bytes_cmp_antisym k1 k2). destruct (bytes_cmp k1 k2) eqn:E; simpl; try done.
  intros _ _. by apply bytes_cmp_eq in E as ->.
Qed.

(** ** Counting *)

Definition accesses (k : bytes) (a : AccessClass) (evs : list ObservationEvent) : Z :=
  Z.of_nat (length (filter (fun ev => ev_key ev = k /\ ev_access ev = a) evs)).

Lemma accesses_snoc k a evs ev :
  accesses k a (evs ++ [ev])
  = (accesses k a evs + if decide (ev_key ev = k /\ ev_access ev = a) then 1 else 0)%Z.
Proof.
  unfold accesses. rewrite filter_app, length_app, filter_cons, filter_nil. case_decide; simpl; lia.
Qed.

Lemma accesses_bound k a evs : (0 <= accesses k a evs <= Z.of_nat (length evs))%Z.
Proof. unfold accesses. pose proof (length_filter (fun ev => ev_key ev = k /\ ev_access ev = a) evs). lia. Qed.

Lemma from_events_snoc evs ev : from_events (evs ++ [ev]) = hotness_record ev (from_events evs).
Proof. unfold from_events. by rewrite foldl_app. Qed.

Lemma accesses_zero k evs :
  (accesses k Read evs + accesses k Write evs = 0)%Z <-> k ∉ ev_key <$> evs.
Proof.
  unfold accesses. induction evs as [|ev evs IH]; [split; [intros _ []%elem_of_nil|done]|].
  rewrite !filter_cons, fmap_cons, not_elem_of_cons. destruct (decide (k = ev_key ev)) as [->|Hne].
  - split; [|naive_solver]. destruct (ev_access ev); repeat case_decide; try naive_solver; simpl; lia.
  - rewrite !decide_False by naive_solver. rewrite IH. naive_solver.
Qed.

Lemma accesses_sum k evs :
  (accesses k Read evs + accesses k Write evs <= Z.of_nat (length evs))%Z.
Proof.
  unfold accesses. induction evs as [|e evs IH]; [done|].
  rewrite !filter_cons. destruct (ev_access e) eqn:Ha; repeat case_decide; simpl; try lia; naive_solver.
Qed.

Definition counts_of (r w : Z) : option ExactHotKeyCounts :=
  if decide (r + w = 0)%Z then None else Some (mkCounts (r + w) r w).

Lemma count_step a r w :
  (0 <= r)%Z -> (0 <= w)%Z -> (r + w + 1 < u64_modulus)%Z ->
  Some (count_access a (default counts_zero (counts_of r w)))
  = match a with Read => counts_of (r + 1) w | Write => counts_of r (w + 1) end.
Proof.
  intros Hr Hw Hm. unfold counts_of.
  assert (default counts_zero (if decide (r + w = 0)%Z then None else Some (mkCounts (r + w) r w))
    = mkCounts (r + w) r w) as ->.
  { case_decide; [|done]. assert (r = 0 /\ w = 0)%Z as [-> ->] by lia. done. }
  unfold count_access, u64_inc. simpl.
  destruct a; rewrite decide_False, !wrap64_small by lia; do 2 f_equal; lia.
Qed.

Lemma from_events_lookup evs k :
  (Z.of_nat (length evs) < u64_modulus)%Z ->
  from_events evs !! k = counts_of (accesses k Read evs) (accesses k Write evs).
Proof.
  induction evs as [|ev evs IH] using rev_ind; intros Hlen; [done|].
  rewrite length_app in Hlen. simpl in Hlen. rewrite from_events_snoc, !accesses_snoc.
  unfold hotness_record. destruct (decide (ev_key ev = k)) as [Hk|Hne].
  - rewrite Hk, lookup_insert_eq, IH by lia.
    pose proof (accesses_bound k Read evs). pose proof (accesses_bound k Write evs).
    pose proof (accesses_sum k evs).
    rewrite count_step by lia. destruct (ev_access ev) eqn:Ha.
    + by rewrite decide_True, decide_False, Z.add_0_r by naive_solver.
    + by rewrite decide_False, decide_True, Z.add_0_r by naive_solver.
  - rewrite lookup_insert_ne, IH by (done || lia).
    rewrite !(decide_False (P := ev_key ev = k /\ _)) by naive_solver. by rewrite !Z.add_0_r.
Qed.

(** ** The ranking *)

Lemma top_keys_perm entries entries' limit :
  entries ≡ₚ entries' -> top_keys entries limit = top_keys entries' limit.
Proof.
  intros Hp. unfold top_keys. do 2 f_equal.
  apply (StronglySorted_unique hot_le); [apply (StronglySorted_merge_sort _)..|].
  by rewrite !merge_sort_Permutation.
Qed.

(** The hot-key ranking of a list of events (fewer than 2^64) is a
    function of the events alone, whatever order the hash map iterates in: it
    lists the first [limit] of all observed keys, each with its exact read,
    write and total access counts, by accesses descending, then reads, then
    writes, and last by the key. *)
Theorem top_keys_exact evs entries limit :
  (Z.of_nat (length evs) < u64_modulus)%Z -> entries ≡ₚ map_to_list (from_events evs) ->
  exists ranking,
    top_keys entries limit = take limit ((fun '(k, c) => mkHot k c) <$> ranking)
    /\ StronglySorted hot_le ranking /\ NoDup (fst <$> ranking)
    /\ (forall k, k ∈ fst <$> ranking <-> k ∈ ev_key <$> evs)
    /\ forall k c, (k, c) ∈ ranking ->
         c = mkCounts (accesses k Read evs + accesses k Write evs) (accesses k Read evs) (accesses k Write evs).
Proof.
  intros Hlen Hp. exists (merge_sort hot_le (map_to_list (from_events evs))).
  split; [by apply (top_keys_perm _ _ limit)|].
  split; [apply (StronglySorted_merge_sort _)|].
  split; [rewrite merge_sort_Permutation; apply NoDup_fst_map_to_list|]. split.
  - intros k. rewrite merge_sort_Permutation.
    pose proof (accesses_zero k evs) as Hz. rewrite list_elem_of_fmap. split.
    + intros ([k' c] & -> & Hc%elem_of_map_to_list). simpl in *.
      rewrite from_events_lookup in Hc by done. unfold counts_of in Hc.
      destruct (decide (k' ∈ ev_key <$> evs)) as [|Hn]; [done|].
      by rewrite decide_True in Hc by (by apply Hz).
    + intros Hin.
      exists (k, mkCounts (accesses k Read evs + accesses k Write evs) (accesses k Read evs) (accesses k Write evs)).
      split; [done|]. apply elem_of_map_to_list. rewrite from_events_lookup by done.
      unfold counts_of. rewrite decide_False; [done|]. naive_solver.
  - intros k c. rewrite merge_sort_Permutation, elem_of_map_to_list, from_events_lookup by done.
    unfold counts_of. case_decide; [done|]. by intros [= <-].
Qed.

Lemma top_keys_exact_witness :
  let evs := [event_read CmdGet (lit "a") 1; event_write CmdSet (lit "b") (Some 3%Z) 2; event_read CmdGet (lit "b") 3]%Z in
  exists ranking,
    top_keys [(lit "a", mkCounts 1 1 0); (lit "b", mkCounts 2 1 1)] 1
      = take 1 ((fun '(k, c) => mkHot k c) <$> ranking)
    /\ StronglySorted hot_le ranking /\ NoDup (fst <$> ranking)
    /\ (forall k, k ∈ fst <$> ranking <-> k ∈ ev_key <$> evs)
    /\ forall k c, (k, c) ∈ ranking ->
         c = mkCounts (accesses k Read evs + accesses k Write evs) (accesses k Read evs) (accesses k Write evs).
Proof.
  intros evs. apply (top_keys_exact evs).
  - reflexivity.
  - assert (map_to_list (from_events evs) = [(lit "a", mkCounts 1 1 0); (lit "b", mkCounts 2 1 1)]
      \/ map_to_list (from_events evs) = [(lit "b", mkCounts 2 1 1); (lit "a", mkCounts 1 1 0)]) as [E|E]
      by (vm_compute; auto).
    + rewrite E. reflexivity.
    + rewrite E. apply Permutation_swap.
Defined.
