(* ===== verification/F64.v ===== *)
(** * [f64]: arithmetic, casts, printing and parsing

    [f64] is the Standard Library's [spec_float] at 53 bits of precision. What
    hkv-server/src/metrics.rs and server.rs compute and print with it, and what
    the GUI back end (hkv-gui/src-tauri/src) parses and rounds. *)

From S2P Require Import Prelude Decimal.
From Stdlib Require Export Floats.SpecFloat.

#[local] Open Scope Z_scope.

(** ** Values and arithmetic *)

Abbreviation f64 := spec_float.
Definition f64_prec : Z := 53.
Definition f64_emax : Z := 1024.
Definition f64_of_Z (n : Z) : f64 := binary_normalize f64_prec f64_emax n 0 false.
Definition f64_add : f64 -> f64 -> f64 := SFadd f64_prec f64_emax.
Definition f64_mul : f64 -> f64 -> f64 := SFmul f64_prec f64_emax.
Definition f64_div : f64 -> f64 -> f64 := SFdiv f64_prec f64_emax.
Definition f64_epsilon : f64 := f64_div (f64_of_Z 1) (f64_of_Z (2 ^ 52)).

(** [x.ceil() as u64]: truncation towards zero saturates, NaN gives 0. *)
Definition f64_ceil_u64 (x : f64) : Z :=
  match x with
  | S754_finite false m e =>
      Z.min u64_max (if 0 <=? e then Z.pos m * 2 ^ e else - (- Z.pos m / 2 ^ (- e)))
  | S754_infinity false => u64_max
  | _ => 0
  end.

(** [Duration::as_secs_f64]. *)
Definition as_secs_f64 (d : Duration) : f64 :=
  f64_add (f64_of_Z (d / 1000000000)) (f64_div (f64_of_Z (d mod 1000000000)) (f64_of_Z 1000000000)).

(** [format!("{:.3}", x)]: the exact value, rounded half to even. *)
Definition round_half_even (num den : Z) : Z :=
  let q := num / den in
  let r := 2 * (num mod den) in
  if r <? den then q else if den <? r then q + 1 else if Z.even q then q else q + 1.

Definition pad3 (n : Z) : bytes :=
  digit_byte (n / 100 mod 10) :: digit_byte (n / 10 mod 10) :: [digit_byte (n mod 10)].

Definition fixed3 (neg : bool) (milli : Z) : bytes :=
  (if neg then lit "-" else []) ++ dec_any (milli / 1000) ++ lit "." ++ pad3 (milli mod 1000).

Definition format_f64_3 (x : f64) : bytes :=
  match x with
  | S754_zero s => fixed3 s 0
  | S754_infinity s => (if s then lit "-" else []) ++ lit "inf"
  | S754_nan => lit "NaN"
  | S754_finite s m e =>
      fixed3 s (if 0 <=? e then Z.pos m * 2 ^ e * 1000
                else round_half_even (Z.pos m * 1000) (2 ^ (- e)))
  end.

(** [x.floor() as u64] and [x.round() as u64] (halves away from zero). *)
Definition f64_floor_u64 (x : f64) : Z :=
  match x with
  | S754_finite false m e =>
      Z.min u64_max (if 0 <=? e then Z.pos m * 2 ^ e else Z.pos m / 2 ^ (- e))
  | S754_infinity false => u64_max
  | _ => 0
  end.

Definition f64_round_u64 (x : f64) : Z :=
  match x with
  | S754_finite false m e =>
      Z.min u64_max (if 0 <=? e then Z.pos m * 2 ^ e else (2 * Z.pos m + 2 ^ (- e)) / (2 * 2 ^ (- e)))
  | S754_infinity false => u64_max
  | _ => 0
  end.

Definition f64_is_finite (x : f64) : bool :=
  match x with S754_zero _ | S754_finite _ _ _ => true | _ => false end.

(** [==] on [f64]: NaN differs from itself. *)
Definition f64_eqb : f64 -> f64 -> bool := SFeqb.

(** ** [str::parse::<f64>] *)

(** The number [(-1)^neg * n / d], correctly rounded. *)
Definition f64_of_ratio (neg : bool) (n d : positive) : f64 :=
  let '(mz, ez, lz) := SFdiv_core_binary f64_prec f64_emax (Z.pos n) 0 (Z.pos d) 0 in
  binary_round_aux f64_prec f64_emax neg mz ez lz.

(** The number [(-1)^neg * m * 10^p]. *)
Definition f64_of_decimal (neg : bool) (m p : Z) : f64 :=
  match m with
  | Z.pos n =>
      if 0 <=? p then binary_normalize f64_prec f64_emax ((if neg then -1 else 1) * (m * 10 ^ p)) 0 neg
      else f64_of_ratio neg n (Z.to_pos (10 ^ (- p)))
  | _ => S754_zero neg
  end.

(** The digits at the front of a string, and the rest. *)
Fixpoint span_digits (s : bytes) : bytes * bytes :=
  match s with
  | b :: s' => if is_ascii_digit b then let '(d, r) := span_digits s' in (b :: d, r) else ([], s)
  | [] => ([], [])
  end.

Definition eat_sign (s : bytes) : bool * bytes :=
  match s with
  | b :: s' => if bool_decide (b = Byte.x2d) then (true, s')
               else if bool_decide (b = Byte.x2b) then (false, s') else (false, s)
  | [] => (false, s)
  end.

(** [e], an optional sign, and digits to the end; no exponent is 0. *)
Definition parse_exponent (s : bytes) : option Z :=
  match s with
  | [] => Some 0
  | b :: s' =>
      if byte_eq_ignore_case b Byte.x65 then
        let '(neg, s') := eat_sign s' in
        let '(d, r) := span_digits s' in
        if bool_decide (d <> [] /\ r = []) then Some (if neg then - dec_value d else dec_value d) else None
      else None
  end.

(** Digits with an optional point among, before or after them, then an exponent. *)
Definition parse_number (neg : bool) (s : bytes) : option f64 :=
  let '(int, r) := span_digits s in
  let '(frac, r) := match r with
                    | b :: r' => if bool_decide (b = Byte.x2e) then span_digits r' else ([], r)
                    | [] => ([], r)
                    end in
  if bool_decide (int ++ frac = []) then None
  else (fun e => f64_of_decimal neg (dec_value (int ++ frac)) (e - Z.of_nat (length frac))) <$> parse_exponent r.

Definition eq_ignore_case (a b : bytes) : bool :=
  bool_decide (map to_ascii_lowercase a = map to_ascii_lowercase b).

Definition parse_special (neg : bool) (s : bytes) : option f64 :=
  if eq_ignore_case s (lit "inf") || eq_ignore_case s (lit "infinity") then Some (S754_infinity neg)
  else if eq_ignore_case s (lit "nan") then Some S754_nan else None.

(** [ParseFloatError], as it prints. *)
Definition parse_f64 (s : bytes) : result f64 bytes :=
  if bool_decide (s = []) then Error (lit "cannot parse float from empty string")
  else
    let '(neg, r) := eat_sign s in
    match parse_number neg r with
    | Some x => Ok x
    | None => match parse_special neg r with
              | Some x => Ok x
              | None => Error (lit "invalid float literal")
              end
    end.

Example parse_tenth : (fun x => format_f64_3 (f64_mul x (f64_of_Z 10))) <$> match parse_f64 (lit "0.1") with Ok x => Some x | _ => None end = Some (lit "1.000").
Proof. vm_compute. reflexivity. Qed.
Example parse_forms : map (fun s => match parse_f64 (lit s) with Ok x => Some (format_f64_3 x) | Error _ => None end)
    ["12.800"; "+.5"; "5."; "-1e3"; "2.5E-1"; "1e"; "."; "-"; "Inf"; "-nan"; "1 "; "17.9000"]%string
  = [Some (lit "12.800"); Some (lit "0.500"); Some (lit "5.000"); Some (lit "-1000.000"); Some (lit "0.250"); None; None; None;
     Some (lit "inf"); Some (lit "NaN"); None; Some (lit "17.900")].
Proof. vm_compute. reflexivity. Qed.
