(* ===== verification/Metrics.v ===== *)
(** * Server metrics (hkv-server/src/metrics.rs)

    Atomic counters and the latency histogram. Counters are relaxed atomics: an
    operation here is its sequence of atomic updates, which commute. *)

From S2P Require Import Prelude Decimal F64.
From Stdlib Require Import Floats.SpecFloat Sorting.Sorted.

#[local] Open Scope Z_scope.

(** ** The histogram *)

Definition DEFAULT_LATENCY_BUCKETS_US : list Z := [1; 2; 5; 10; 20; 50; 100; 200; 500; 1000; 2000; 5000].

Record LatencyHistogram := mkHist {
  h_bounds_us : list Z;
  h_buckets : list Z;
  h_sum_us : Z;
  h_samples : Z;
  h_max_us : Z
}.

Definition hist_new (bounds_us : list Z) : LatencyHistogram :=
  mkHist bounds_us (replicate (S (length bounds_us)) 0) 0 0 0.

(** [update_max]: each attempt of the compare-exchange may find that another
    thread has stored a value in between; [others] is what the attempts find
    (an attempt past its end finds the cell unchanged). The answer is the cell
    when the call returns. *)
Fixpoint update_max (others : list Z) (current value : Z) : Z :=
  if current <? value then
    match others with
    | [] => value
    | observed :: others' =>
        if bool_decide (observed = current) then value else update_max others' observed value
    end
  else current.

Fixpoint bucket_index (bounds_us : list Z) (micros : Z) : nat :=
  match bounds_us with
  | [] => O
  | bound :: bounds' => if micros <=? bound then O else S (bucket_index bounds' micros)
  end.

Definition as_micros_u64 (latency : Duration) : Z := wrap64 (latency / 1000).

Definition hist_record (latency : Duration) (h : LatencyHistogram) : LatencyHistogram :=
  let micros := as_micros_u64 latency in
  mkHist (h_bounds_us h)
    (alter (fun n => wrap64 (n + 1)) (bucket_index (h_bounds_us h) micros) (h_buckets h))
    (wrap64 (h_sum_us h + micros)) (wrap64 (h_samples h + 1)) (update_max [] (h_max_us h) micros).

(** A snapshot loads every cell. *)
Abbreviation LatencySnapshot := LatencyHistogram.
Definition hist_snapshot (h : LatencyHistogram) : LatencySnapshot := h.

Definition average_us (s : LatencySnapshot) : option f64 :=
  if bool_decide (h_samples s = 0) then None
  else Some (f64_div (f64_of_Z (h_sum_us s)) (f64_of_Z (h_samples s))).

Definition in_percentile_range (p : f64) : bool :=
  match SFcompare p (f64_of_Z 0), SFcompare p (f64_of_Z 100) with
  | Some (Gt | Eq), Some (Lt | Eq) => true
  | _, _ => false
  end.

Definition percentile_rank (samples : Z) (p : f64) : Z :=
  Z.max (f64_ceil_u64 (f64_mul (f64_of_Z samples) (f64_div p (f64_of_Z 100)))) 1.

Fixpoint percentile_scan (buckets bounds : list Z) (cumulative target max_us : Z) : Z :=
  match buckets with
  | [] => max_us
  | count :: buckets' =>
      let cumulative := saturating_add cumulative count in
      if cumulative <? target then percentile_scan buckets' (tail bounds) cumulative target max_us
      else match bounds with b :: _ => b | [] => max_us end
  end.

Definition percentile_us (s : LatencySnapshot) (p : f64) : option Z :=
  if bool_decide (h_samples s = 0) || negb (in_percentile_range p)
     || bool_decide (SFcompare p (f64_of_Z 0) = Some Eq)
  then None
  else Some (percentile_scan (h_buckets s) (h_bounds_us s) 0 (percentile_rank (h_samples s) p) (h_max_us s)).

(** ** The counters *)

Record Metrics := mkMetrics {
  requests_total : Z;
  errors_total : Z;
  inflight : Z;
  latency : LatencyHistogram;
  started_at : Instant
}.

Definition with_latency_buckets (bounds_us : list Z) (now : Instant) : Metrics :=
  mkMetrics 0 0 0 (hist_new bounds_us) now.
Definition metrics_new (now : Instant) : Metrics := with_latency_buckets DEFAULT_LATENCY_BUCKETS_US now.

Definition record_request_start (m : Metrics) : Metrics :=
  mkMetrics (wrap64 (requests_total m + 1)) (errors_total m) (wrap64 (inflight m + 1)) (latency m) (started_at m).
Definition record_request_end (d : Duration) (m : Metrics) : Metrics :=
  mkMetrics (requests_total m) (errors_total m) (wrap64 (inflight m - 1)) (hist_record d (latency m)) (started_at m).
Definition record_error (m : Metrics) : Metrics :=
  mkMetrics (requests_total m) (wrap64 (errors_total m + 1)) (inflight m) (latency m) (started_at m).

Record MetricsSnapshot := mkMSnap {
  ms_requests_total : Z;
  ms_errors_total : Z;
  ms_inflight : Z;
  ms_uptime : Duration;
  ms_latency : LatencySnapshot
}.

(** [elapsed] is zero when the clock reads before the start. *)
Definition snapshot (now : Instant) (m : Metrics) : MetricsSnapshot :=
  mkMSnap (requests_total m) (errors_total m) (inflight m) (saturating_sub now (started_at m))
    (hist_snapshot (latency m)).

Definition qps (s : MetricsSnapshot) : f64 :=
  let uptime_secs := as_secs_f64 (ms_uptime s) in
  match SFcompare uptime_secs f64_epsilon with
  | Some (Lt | Eq) => f64_of_Z (ms_requests_total s)
  | _ => f64_div (f64_of_Z (ms_requests_total s)) uptime_secs
  end.

Definition error_rate (s : MetricsSnapshot) : f64 :=
  if bool_decide (ms_requests_total s = 0) then f64_of_Z 0
  else f64_div (f64_of_Z (ms_errors_total s)) (f64_of_Z (ms_requests_total s)).

Example format_third : format_f64_3 (f64_div (f64_of_Z 1) (f64_of_Z 3)) = lit "0.333".
Proof. vm_compute. reflexivity. Qed.
(** 0.999 * 1000 rounds up, so p99.9 of 1000 samples is the last sample. *)
Example rank_999 : percentile_rank 1000 (f64_div (f64_of_Z 999) (f64_of_Z 10)) = 1000.
Proof. vm_compute. reflexivity. Qed.

(** ** The histogram of a list of samples *)

Definition at_most (b : Z) (ls : list Z) : Z := Z.of_nat (length (filter (fun x => x <= b) ls)).

Fixpoint buckets_of (bounds : list Z) (ls : list Z) : list Z :=
  match bounds with
  | [] => [Z.of_nat (length ls)]
  | b :: bounds' => at_most b ls :: buckets_of bounds' (filter (fun x => ~ x <= b) ls)
  end.

Lemma buckets_of_nil bounds : buckets_of bounds [] = replicate (S (length bounds)) 0.
Proof. induction bounds as [|b bounds IH]; [done|]. simpl. rewrite filter_nil. by rewrite IH. Qed.

Lemma buckets_of_snoc bounds ls x :
  (Z.of_nat (length ls) + 1 < u64_modulus) ->
  alter (fun n => wrap64 (n + 1)) (bucket_index bounds x) (buckets_of bounds ls) = buckets_of bounds (ls ++ [x]).
Proof.
  revert ls. induction bounds as [|b bounds IH]; intros ls Hl; simpl.
  - rewrite length_app. simpl. rewrite wrap64_small by lia. f_equal. lia.
  - unfold at_most. rewrite !filter_app, !filter_cons, !filter_nil, length_app.
    pose proof (length_filter (fun x => x <= b) ls). pose proof (length_filter (fun x => ~ x <= b) ls).
    destruct (Z.leb_spec x b).
    + rewrite decide_True, decide_False by lia. simpl. rewrite wrap64_small by lia.
      rewrite app_nil_r. f_equal. lia.
    + rewrite decide_False, decide_True by lia. simpl. rewrite Nat.add_0_r. f_equal. apply IH. lia.
Qed.

Definition record_all (ds : list Duration) (h : LatencyHistogram) : LatencyHistogram :=
  foldl (fun h d => hist_record d h) h ds.

Definition max_of (ls : list Z) : Z := foldl Z.max 0 ls.

Lemma update_max_alone current value : update_max [] current value = Z.max current value.
Proof. simpl. destruct (Z.ltb_spec current value); lia. Qed.

Lemma record_all_run bounds ds :
  Z.of_nat (length ds) < u64_modulus ->
  record_all ds (hist_new bounds)
  = mkHist bounds (buckets_of bounds (as_micros_u64 <$> ds))
      (wrap64 (foldl Z.add 0 (as_micros_u64 <$> ds))) (Z.of_nat (length ds))
      (max_of (as_micros_u64 <$> ds)).
Proof.
  induction ds as [|d ds IH] using rev_ind; intros Hl.
  - simpl. by rewrite buckets_of_nil.
  - rewrite length_app in Hl. simpl in Hl. unfold record_all in *. rewrite foldl_app, IH by lia.
    cbn [foldl]. unfold hist_record. cbn [h_bounds_us h_buckets h_sum_us h_samples h_max_us].
    rewrite fmap_app. cbn [fmap list_fmap].
    rewrite buckets_of_snoc by (rewrite length_fmap; lia).
    rewrite update_max_alone, wrap64_add_l. unfold max_of. rewrite !foldl_app, length_app. cbn [foldl length].
    rewrite (wrap64_small (_ + 1)) by lia. f_equal. lia.
Qed.

Lemma at_most_app b c ls :
  b <= c -> at_most c ls = at_most b ls + at_most c (filter (fun x => ~ x <= b) ls).
Proof.
  intros Hbc. unfold at_most. induction ls as [|x ls IH]; [done|].
  rewrite !filter_cons. destruct (decide (x <= b)).
  - rewrite decide_True, (decide_False (P := ~ x <= b)) by lia. simpl. lia.
  - rewrite (decide_True (P := ~ x <= b)) by lia. rewrite filter_cons. case_decide; simpl; lia.
Qed.

Lemma percentile_scan_spec bounds : forall ls cum target mx,
  StronglySorted Z.lt bounds -> 0 <= cum -> cum + Z.of_nat (length ls) <= u64_max ->
  let u := percentile_scan (buckets_of bounds ls) bounds cum target mx in
  (u ∈ bounds /\ target <= cum + at_most u ls
    /\ forall b, b ∈ bounds -> b < u -> cum + at_most b ls < target)
  \/ (u = mx /\ forall b, b ∈ bounds -> cum + at_most b ls < target).
Proof.
  induction bounds as [|b bounds IH]; intros ls cum target mx Hs Hc Hm; simpl.
  { right. split; [by case_match|]. by intros b ?%elem_of_nil. }
  apply StronglySorted_inv in Hs as [Hs Hb]. rewrite Forall_forall in Hb.
  pose proof (length_filter (fun x => x <= b) ls). fold (at_most b ls) in *.
  assert (at_most b ls <= Z.of_nat (length ls)) as Hle by (unfold at_most; lia).
  assert (0 <= at_most b ls) as H0 by (unfold at_most; lia).
  assert (at_most b ls + Z.of_nat (length (filter (fun x => ~ x <= b) ls)) = Z.of_nat (length ls)) as Hsplit.
  { unfold at_most. clear. induction ls as [|x ls IH]; [done|].
    rewrite !filter_cons. destruct (decide (x <= b)).
    - rewrite decide_False by lia. simpl. lia.
    - rewrite decide_True by lia. simpl. lia. }
  unfold saturating_add. rewrite Z.min_l by lia.
  destruct (Z.ltb_spec (cum + at_most b ls) target) as [Hlt|Hge].
  - destruct (IH (filter (fun x => ~ x <= b) ls) (cum + at_most b ls) target mx Hs) as [(Hin & Ht & Hmin)|[Hu Hmin]];
      [lia|lia|..].
    + left. split; [by constructor|]. pose proof (Hb _ Hin) as Hbu. simpl in Hbu.
      split; [rewrite (at_most_app b) by lia; lia|].
      intros c [->|Hc2]%elem_of_cons Hlt2; [lia|]. pose proof (Hb _ Hc2). rewrite (at_most_app b c) by lia.
      specialize (Hmin c Hc2 Hlt2). lia.
    + right. split; [done|]. intros c [->|Hc2]%elem_of_cons; [lia|]. pose proof (Hb _ Hc2).
      rewrite (at_most_app b c) by lia. specialize (Hmin c Hc2). lia.
  - left. split; [by constructor|]. split; [lia|].
    intros c [->|Hc2]%elem_of_cons Hlt; [lia|]. specialize (Hb _ Hc2). lia.
Qed.


Lemma max_of_mono ls a b : a <= b -> foldl Z.max a ls <= foldl Z.max b ls.
Proof. revert a b. induction ls as [|x ls IH]; intros a b Hab; [done|]. simpl. apply IH. lia. Qed.

Lemma foldl_max_ge ls a : a <= foldl Z.max a ls.
Proof. revert a. induction ls as [|x ls IH]; intros a; [done|]. simpl. specialize (IH (Z.max a x)). lia. Qed.

Lemma foldl_max_in ls a : foldl Z.max a ls = a \/ foldl Z.max a ls ∈ ls.
Proof.
  revert a. induction ls as [|x ls IH]; intros a; [by left|]. simpl.
  destruct (IH (Z.max a x)) as [E|E]; [|right; by constructor].
  destruct (Z.max_spec a x) as [[_ Hx]|[_ Hx]]; rewrite Hx in *; rewrite E.
  - right. constructor.
  - by left.
Qed.

(** The cell holds at least the value when [update_max] returns, whatever the
    other threads store in between: it is the value or one of theirs. *)
Lemma update_max_reaches others current value :
  value <= update_max others current value
  /\ (update_max others current value ∈ value :: current :: others).
Proof.
  revert current. induction others as [|o others IH]; intros current; simpl.
  - destruct (Z.ltb_spec current value); split; try lia; set_solver.
  - destruct (Z.ltb_spec current value); [|split; [lia|set_solver]].
    case_bool_decide; [split; [lia|set_solver]|].
    destruct (IH o) as [? ?]. split; [done|set_solver].
Qed.

(** The latency percentile of a server that recorded fewer than 2^64
    requests: nothing is answered without samples or outside (0, 100];
    otherwise the answer is the least bucket bound at or below which at least
    rank-many samples lie, and when no bound is high enough the greatest
    latency seen. *)
Theorem percentile_is_least_covering_bound bounds ds p :
  StronglySorted Z.lt bounds -> Z.of_nat (length ds) < u64_modulus ->
  let ls := as_micros_u64 <$> ds in
  let target := percentile_rank (Z.of_nat (length ds)) p in
  match percentile_us (hist_snapshot (record_all ds (hist_new bounds))) p with
  | None => ds = [] \/ in_percentile_range p = false \/ SFcompare p (f64_of_Z 0) = Some Eq
  | Some u =>
      (u ∈ bounds /\ target <= at_most u ls /\ forall b, b ∈ bounds -> b < u -> at_most b ls < target)
      \/ (u = max_of ls /\ forall b, b ∈ bounds -> at_most b ls < target)
  end.
Proof.
  intros Hs Hl ls target. rewrite record_all_run by done.
  unfold percentile_us, hist_snapshot. cbn [h_samples h_buckets h_bounds_us h_max_us].
  destruct (bool_decide_reflect (Z.of_nat (length ds) = 0)) as [Hn|Hn]; [left; destruct ds; simpl in *; [done|lia]|].
  destruct (in_percentile_range p) eqn:Hp; [|by right; left].
  destruct (bool_decide_reflect (SFcompare p (f64_of_Z 0) = Some Eq)); [by right; right|]. simpl.
  assert (Hls : length ls = length ds) by apply length_fmap.
  pose proof (percentile_scan_spec bounds ls 0 target (max_of ls) Hs) as Hspec.
  apply Hspec; unfold u64_max; lia.
Qed.

Lemma percentile_is_least_covering_bound_witness :
  percentile_us (hist_snapshot (record_all [900; 7000; 1500000; 9000000] (hist_new DEFAULT_LATENCY_BUCKETS_US)))
    (f64_of_Z 75) = Some 2000
  /\ match percentile_us (hist_snapshot (record_all [900; 7000; 1500000; 9000000] (hist_new DEFAULT_LATENCY_BUCKETS_US)))
        (f64_of_Z 75) with
     | None => False
     | Some u => u ∈ DEFAULT_LATENCY_BUCKETS_US \/ u = 9000
     end.
Proof.
  split; [vm_compute; reflexivity|].
  assert (Hs : StronglySorted Z.lt DEFAULT_LATENCY_BUCKETS_US)
    by (unfold DEFAULT_LATENCY_BUCKETS_US; repeat (constructor; try lia)).
  pose proof (percentile_is_least_covering_bound DEFAULT_LATENCY_BUCKETS_US [900; 7000; 1500000; 9000000]
    (f64_of_Z 75) Hs eq_refl) as H.
  destruct (percentile_us _ _) as [u|] eqn:E.
  - destruct H as [[H _]|[H _]]; [by left|right]. rewrite H. vm_compute. reflexivity.
  - exfalso. revert E. vm_compute. discriminate.
Defined.
