(* ===== verification/RespClientThms.v ===== *)
(** * What the client's reply reader does (hkv-client/src/resp.rs)

    [read_response] returns on every stream, whatever the peer sends, and it
    inverts the RESP2 encoding of every value, leaving the bytes after it
    unread. *)

From S2P Require Import Prelude Decimal RespClient.

(** ** Reading makes progress *)

Definition r_left (s : Reader * bytes) : nat := length (r_data (fst s)).

(** [takes n m s]: run from [s], [m] does not diverge, and if it returns it
    has taken at least [n] bytes from the stream. *)
Definition takes {A} (n : nat) (m : RM A) (s : Reader * bytes) : Prop :=
  match m s with
  | (Val _, s') => r_left s' + n <= r_left s
  | (Diverge, _) => False
  | _ => True
  end.

Lemma takes_weaken {A} n n' (m : RM A) s : n' <= n -> takes n m s -> takes n' m s.
Proof. unfold takes. intros Hn. destruct (m s) as [[] s']; try done. lia. Qed.

Lemma takes_bind {A B} n n' (m : RM A) (k : A -> RM B) s :
  takes n m s -> (forall a s', r_left s' + n <= r_left s -> takes n' (k a) s') -> takes (n + n') (m ≫= k) s.
Proof.
  unfold takes, mbind, M_bind. intros Hm Hk. destruct (m s) as [[a|e| |] s']; try done.
  specialize (Hk a s' Hm). destruct (k a s') as [[] s'']; try done. lia.
Qed.

Lemma takes_bind0 {A B} n (m : RM A) (k : A -> RM B) s :
  takes 0 m s -> (forall a s', r_left s' <= r_left s -> takes n (k a) s') -> takes n (m ≫= k) s.
Proof. intros Hm Hk. apply (takes_bind 0 n); [done|]. intros a s' Hs. apply Hk. lia. Qed.

Lemma takes_ret {A} (a : A) s : takes 0 (mret a) s.
Proof. unfold takes. simpl. lia. Qed.
Lemma takes_throw {A} n (e : ClientError) s : takes (A := A) n (throw e) s.
Proof. done. Qed.
Lemma takes_panic {A} n s : takes (A := A) n panic s.
Proof. done. Qed.
Lemma takes_line_buf s : takes 0 line_buf s.
Proof. unfold takes. simpl. lia. Qed.
Lemma takes_set_line_buf f s : takes 0 (set_line_buf f) s.
Proof. destruct s as [r b]. unfold takes. simpl. unfold r_left. simpl. lia. Qed.

Create HintDb takes.
#[export] Hint Resolve takes_ret takes_throw takes_panic takes_line_buf takes_set_line_buf : takes.

Lemma take_until_split c l x r :
  take_until c l = Some (x, r) -> exists p, l = x ++ r /\ x = p ++ [c] /\ c ∉ p.
Proof.
  revert x r. induction l as [|b l IH]; intros x r; simpl; [done|].
  case_bool_decide as Hb.
  - intros [= <- <-]. exists []. subst. split_and!; try done. apply not_elem_of_nil.
  - destruct (take_until c l) as [[x' r']|] eqn:E; [|done]. intros [= <- <-].
    destruct (IH _ _ eq_refl) as (p & -> & -> & Hp). exists (b :: p).
    split_and!; try done. apply not_elem_of_cons. split; [congruence|done].
Qed.

(** [read_line] on a line: the bytes up to the line feed, less the last two. *)
Definition finish_line (x : bytes) (r : Reader) : outcome ClientError unit * (Reader * bytes) :=
  if (length x <? 2) || bool_decide (x !! (length x - 2) <> Some CR)
  then (Err ClientProtocol, (r, x)) else (Val tt, (r, take (length x - 2) x)).

Lemma read_line_taken r buf :
  read_line (r, buf)
  = match take_until LF (r_data r) with
    | Some (x, rest) => finish_line x (mkReader rest (r_end r))
    | None =>
        match r_end r with
        | Some k => (Err (Io k), (mkReader [] (Some k), r_data r))
        | None =>
            if bool_decide (length (r_data r) = 0) then (Err ClientProtocol, (mkReader [] None, r_data r))
            else finish_line (r_data r) (mkReader [] None)
        end
    end.
Proof.
  unfold read_line, set_line_buf, finish_line. rewrite bind_modify. unfold mbind, M_bind, read_until.
  destruct (take_until LF (r_data r)) as [[x rest]|] eqn:E.
  - apply take_until_split in E as (p & _ & -> & _). simpl.
    rewrite bool_decide_eq_false_2 by (rewrite length_app; simpl; lia). unfold line_buf, gets. simpl.
    by case_match.
  - destruct (r_end r); [done|]. simpl. case_bool_decide; [done|]. unfold line_buf, gets. simpl. by case_match.
Qed.

Lemma takes_read_line s : takes 2 read_line s.
Proof.
  destruct s as [r buf]. unfold takes. rewrite read_line_taken.
  destruct (take_until LF (r_data r)) as [[x rest]|] eqn:E.
  - apply take_until_split in E as (p & E & _). unfold finish_line.
    destruct (Nat.ltb_spec (length x) 2); [done|]. simpl. case_bool_decide; [done|].
    unfold r_left. simpl. rewrite E, length_app. lia.
  - destruct (r_end r); [done|]. case_bool_decide; [done|]. unfold finish_line.
    destruct (Nat.ltb_spec (length (r_data r)) 2); [done|]. simpl. case_bool_decide; [done|].
    unfold r_left. simpl. lia.
Qed.

Lemma takes_read_exact n s : takes 0 (read_exact n) s.
Proof.
  destruct s as [r buf]. unfold takes, read_exact. destruct (n <=? _)%Z; [|done].
  unfold r_left. simpl. rewrite length_drop. lia.
Qed.

Lemma takes_parse_len s : takes 0 parse_len s.
Proof.
  unfold parse_len. apply takes_bind0; [auto with takes|]. intros a s' _. case_match; auto with takes.
Qed.

#[export] Hint Resolve takes_read_line takes_read_exact takes_parse_len : takes.

Lemma takes_parse_bulk_len n s : takes 0 (parse_bulk_len n) s.
Proof.
  unfold parse_bulk_len. case_match; [auto with takes|].
  apply takes_bind0; [auto with takes|]. intros data s1 _.
  apply takes_bind0; [auto with takes|]. intros e s2 _. case_bool_decide; [auto with takes|].
  apply takes_bind0; [auto with takes|]. auto with takes.
Qed.
#[export] Hint Resolve takes_parse_bulk_len : takes.

Lemma takes_read_items read bound turns : forall n s,
  (forall s, r_left s <= bound -> takes 2 read s) -> r_left s <= bound -> r_left s < turns ->
  takes 0 (read_items read turns n) s.
Proof.
  induction turns as [|turns IH]; intros n s Hread Hb Ht; [lia|]. cbn [read_items].
  destruct (n <=? 0)%Z; [auto with takes|].
  apply (takes_weaken (2 + 0)); [lia|]. apply takes_bind; [by apply Hread|]. intros v s1 Hs1.
  apply takes_bind0; [apply IH; [done|lia..]|]. auto with takes.
Qed.

Lemma takes_read value_size fuel : forall s, r_left s + 1 <= fuel -> takes 2 (read_value value_size fuel) s.
Proof.
  induction fuel as [|fuel IH]; intros s Hf; [lia|].
  cbn [read_value]. apply (takes_bind 2 0); [auto with takes|]. intros [] s1 Hs1.
  apply takes_bind0; [auto with takes|]. intros buf s2 Hs2.
  destruct buf as [|b text]; [auto with takes|].
  repeat case_bool_decide; try (auto with takes; fail).
  - apply takes_bind0; auto with takes.
  - apply takes_bind0; auto with takes.
  - apply takes_bind0; [auto with takes|]. intros len s3 Hs3. unfold parse_array_len.
    destruct (len <=? 0)%Z; [auto with takes|]. destruct (i64_max <? _)%Z; [auto with takes|].
    apply takes_bind0; [|auto with takes]. apply (takes_read_items _ (fuel - 1)); [|lia..].
    intros s4 Hs4. apply IH. lia.
Qed.

Lemma read_response_returns value_size r buf :
  match read_response value_size (r, buf) with
  | (Val _, (r', _)) => length (r_data r') + 2 <= length (r_data r)
  | (Diverge, _) => False
  | _ => True
  end.
Proof.
  unfold read_response. rewrite bind_gets.
  pose proof (takes_read value_size (S (S (length (r_data r)))) (r, buf)) as H.
  unfold takes, r_left in H. simpl fst in H. specialize (H ltac:(lia)).
  destruct (read_value _ _ _) as [[] [r' b']]; done.
Qed.

(** The client's reply reader returns on every stream, however it ends:
    it never loops for ever, and a value it returns has taken at least two
    bytes from the stream. *)
Theorem read_response_terminates value_size r buf :
  match read_response value_size (r, buf) with
  | (Val _, (r', _)) => length (r_data r') + 2 <= length (r_data r)
  | (Diverge, _) => False
  | _ => True
  end.
Proof. apply read_response_returns. Qed.

(** ** The encoding of values *)

Fixpoint enc_value (v : RespValue) : bytes :=
  match v with
  | Simple t => lit "+" ++ t ++ crlf
  | ErrorReply t => lit "-" ++ t ++ crlf
  | Integer n => lit ":" ++ dec_string n ++ crlf
  | Bulk None => lit "$-1" ++ crlf
  | Bulk (Some d) => lit "$" ++ dec_string (Z.of_nat (length d)) ++ crlf ++ d ++ crlf
  | Array items => lit "*" ++ dec_string (Z.of_nat (length items)) ++ crlf ++ concat (map enc_value items)
  end.

(** Texts of one line, numbers and lengths of 63 bits (and an array no vector
    of which is too large to allocate). *)
Fixpoint value_wf (value_size : Z) (v : RespValue) : Prop :=
  match v with
  | Simple t | ErrorReply t => LF ∉ t
  | Integer n => (- i64_max <= n <= i64_max)%Z
  | Bulk None => True
  | Bulk (Some d) => (Z.of_nat (length d) <= i64_max)%Z
  | Array items =>
      (Z.of_nat (length items) <= i64_max)%Z /\ (Z.of_nat (length items) * value_size <= i64_max)%Z
      /\ foldr (fun v P => value_wf value_size v /\ P) True items
  end.

Section induction.
Context (P : RespValue -> Prop)
  (HS : forall t, P (Simple t)) (HE : forall t, P (ErrorReply t)) (HI : forall n, P (Integer n))
  (HB : forall d, P (Bulk d)) (HA : forall items, Forall P items -> P (Array items)).

Fixpoint RespValue_nested_ind (v : RespValue) : P v :=
  match v with
  | Simple t => HS t
  | ErrorReply t => HE t
  | Integer n => HI n
  | Bulk d => HB d
  | Array items =>
      HA items ((fix go items : Forall P items :=
        match items with
        | [] => Forall_nil_2 P
        | v :: items' => Forall_cons_2 P v items' (RespValue_nested_ind v) (go items')
        end) items)
  end.
End induction.

Lemma parse_i64_loop_digits data : forall v,
  all_digits data = true -> (0 <= v)%Z -> parse_i64_loop v data = Some (sat_from i64_max v data).
Proof.
  induction data as [|b data IH]; intros v; [done|]. simpl. intros [Hb Hd]%andb_true_iff Hv. rewrite Hb. simpl.
  apply is_ascii_digit_val in Hb. unfold digit_val in Hb. rewrite IH; [|done|].
  - unfold sat_from. simpl. f_equal. f_equal. unfold i64_sat, i64_min, i64_max, digit_val in *. lia.
  - unfold i64_sat, i64_min, i64_max. lia.
Qed.

Lemma parse_i64_dec n : (- i64_max <= n <= i64_max)%Z -> parse_i64 (dec_string n) = Some n.
Proof.
  intros Hn. unfold i64_max in Hn.
  assert (Hnn : forall k, (0 <= k <= i64_max)%Z -> parse_i64_loop 0 (dec_nonneg k) = Some k
    /\ exists b l, dec_nonneg k = b :: l /\ b <> Byte.x2d).
  { intros k Hk. unfold i64_max in Hk. destruct (dec_nonneg_spec k) as (Hd & Hv & Hne); [lia|]. split.
    - rewrite parse_i64_loop_digits by (done || lia).
      change 0%Z with (Z.min 0 i64_max). rewrite sat_from_min by (done || unfold i64_max; lia).
      fold (dec_value (dec_nonneg k)). rewrite Hv. f_equal. unfold i64_max. lia.
    - destruct (dec_nonneg k) as [|b l]; [done|]. exists b, l. split; [done|]. intros ->. done. }
  unfold dec_string. destruct (Z.ltb_spec n 0).
  - simpl. destruct (Hnn (- n)%Z) as [-> _]; [unfold i64_max; lia|]. simpl. f_equal. lia.
  - destruct (Hnn n) as (E & b & l & El & Hb); [unfold i64_max; lia|].
    rewrite El in *. simpl. by rewrite bool_decide_eq_false_2.
Qed.

Lemma take_until_app c p r : c ∉ p -> take_until c (p ++ c :: r) = Some (p ++ [c], r).
Proof.
  induction p as [|b p IH]; simpl.
  - intros _. by rewrite bool_decide_eq_true_2.
  - intros [Hb Hp]%not_elem_of_cons. rewrite bool_decide_eq_false_2 by congruence. by rewrite IH.
Qed.

Lemma read_line_crlf line rest e buf :
  LF ∉ line -> read_line (mkReader (line ++ crlf ++ rest) e, buf) = (Val tt, (mkReader rest e, line)).
Proof.
  intros Hl. rewrite read_line_taken. cbn [r_data r_end].
  replace (line ++ crlf ++ rest) with ((line ++ [CR]) ++ LF :: rest) by (by rewrite <- app_assoc).
  rewrite take_until_app by (rewrite not_elem_of_app; set_solver).
  unfold finish_line. rewrite <- app_assoc, length_app. simpl length.
  rewrite (proj2 (Nat.ltb_ge _ _)) by lia. replace (length line + 2 - 2) with (length line) by lia.
  rewrite lookup_app_r by lia. rewrite Nat.sub_diag.
  rewrite bool_decide_eq_false_2 by (intros Hc; by apply Hc). by rewrite take_app_length.
Qed.

Lemma dec_string_no_lf n : (- i64_max <= n <= i64_max)%Z -> LF ∉ dec_string n.
Proof.
  intros Hn. unfold i64_max in Hn.
  assert (H : forall k, (0 <= k <= i64_max)%Z -> LF ∉ dec_nonneg k).
  { intros k Hk. unfold i64_max in Hk. destruct (dec_nonneg_spec k) as (Hd & _); [lia|]. by apply all_digits_notin. }
  unfold dec_string, i64_max in *. destruct (Z.ltb_spec n 0); [|apply H; lia].
  apply not_elem_of_cons. split; [done|]. apply H. lia.
Qed.

Lemma parse_len_run c n r : (- i64_max <= n <= i64_max)%Z ->
  parse_len (r, c :: dec_string n) = (Val n, (r, c :: dec_string n)).
Proof. intros Hn. unfold parse_len, line_buf. rewrite bind_gets. cbn [snd tail]. by rewrite parse_i64_dec. Qed.

Lemma read_exact_app d rest e buf :
  read_exact (Z.of_nat (length d)) (mkReader (d ++ rest) e, buf) = (Val d, (mkReader rest e, buf)).
Proof.
  unfold read_exact. cbn [r_data r_end]. rewrite (proj2 (Z.leb_le _ _)) by (rewrite length_app; lia).
  rewrite Nat2Z.id. by rewrite take_app_length, drop_app_length.
Qed.

Lemma parse_bulk_len_run d rest e buf :
  parse_bulk_len (Z.of_nat (length d)) (mkReader (d ++ crlf ++ rest) e, buf)
  = (Val (Bulk (Some d)), (mkReader rest e, [])).
Proof.
  unfold parse_bulk_len. rewrite (proj2 (Z.ltb_ge _ _)) by lia.
  rewrite (bind_val _ _ _ _ _ (read_exact_app d (crlf ++ rest) e buf)).
  rewrite (bind_val _ _ _ _ _ (read_exact_app crlf rest e buf)).
  rewrite bool_decide_eq_false_2 by (intros Hc; by apply Hc). done.
Qed.

(** The header line [c<n>\\r\\n] of a reply, read up to the decoded number. *)
Lemma read_header c n rest e buf : (- i64_max <= n <= i64_max)%Z -> c <> LF ->
  read_line (mkReader (c :: dec_string n ++ crlf ++ rest) e, buf)
  = (Val tt, (mkReader rest e, c :: dec_string n)).
Proof.
  intros Hn Hc. change (c :: dec_string n ++ crlf ++ rest) with ((c :: dec_string n) ++ crlf ++ rest).
  apply read_line_crlf, not_elem_of_cons. split; [congruence|]. by apply dec_string_no_lf.
Qed.

#[local] Arguments parse_bulk_len : simpl never.
#[local] Arguments parse_len : simpl never.

Section roundtrip.
Context (value_size : Z) (Hsize : (0 <= value_size)%Z).

Definition reads_back (v : RespValue) : Prop :=
  value_wf value_size v -> forall fuel rest e buf, length (enc_value v ++ rest) + 1 <= fuel ->
  exists buf', read_value value_size fuel (mkReader (enc_value v ++ rest) e, buf) = (Val v, (mkReader rest e, buf')).

Lemma enc_value_length v : 1 <= length (enc_value v).
Proof. destruct v as [| | |[]|]; simpl; lia. Qed.

Lemma read_items_back items : Forall reads_back items ->
  foldr (fun v P => value_wf value_size v /\ P) True items ->
  forall fuel turns rest e buf, length (concat (map enc_value items) ++ rest) + 1 <= fuel -> length items < turns ->
  exists buf', read_items (read_value value_size fuel) turns (Z.of_nat (length items)) (mkReader (concat (map enc_value items) ++ rest) e, buf)
    = (Val items, (mkReader rest e, buf')).
Proof.
  induction 1 as [|v items Hv Hi IH]; intros Hwf fuel turns rest e buf Hf Ht; (destruct turns as [|turns]; [lia|]).
  - by exists buf.
  - simpl in Hwf. destruct Hwf as [Hwv Hwi].
    cbn [read_items map concat length] in *. rewrite (proj2 (Z.leb_gt _ _)) by lia.
    rewrite <- app_assoc in *. pose proof (enc_value_length v) as Hv1. rewrite length_app in Hf.
    destruct (Hv Hwv fuel (concat (map enc_value items) ++ rest) e buf) as [b1 E1]; [rewrite length_app; lia|].
    rewrite (bind_val _ _ _ _ _ E1).
    destruct (IH Hwi fuel turns rest e b1) as [b2 E2]; [lia..|].
    replace (Z.of_nat (S (length items)) - 1)%Z with (Z.of_nat (length items)) by lia.
    rewrite (bind_val _ _ _ _ _ E2). by exists b2.
Qed.

Lemma items_length (items : list RespValue) : length items <= length (concat (map enc_value items)).
Proof.
  induction items as [|v items IH]; simpl; [done|]. rewrite length_app. pose proof (enc_value_length v). lia.
Qed.

Lemma read_value_back v : reads_back v.
Proof.
  induction v as [t|t|n|d|items IH] using RespValue_nested_ind; intros Hwf fuel rest e buf Hf;
    (destruct fuel as [|fuel]; [lia|]); cbn [read_value enc_value] in *.
  - rewrite <- !app_assoc. rewrite (app_assoc (lit "+")).
    rewrite (bind_val _ _ _ _ _ (read_line_crlf (lit "+" ++ t) rest e buf ltac:(apply not_elem_of_cons; done))).
    by eexists.
  - rewrite <- !app_assoc. rewrite (app_assoc (lit "-")).
    rewrite (bind_val _ _ _ _ _ (read_line_crlf (lit "-" ++ t) rest e buf ltac:(apply not_elem_of_cons; done))).
    by eexists.
  - simpl in Hwf. rewrite <- !app_assoc. rewrite (bind_val _ _ _ _ _ (read_header Byte.x3a n rest e buf Hwf ltac:(done))).
    unfold line_buf at 1. rewrite bind_gets. simpl.
    rewrite (bind_val _ _ _ _ _ (parse_len_run _ _ _ Hwf)). by eexists.
  - destruct d as [d|]; [|by eexists]. simpl in Hwf.
    assert (Hn : (- i64_max <= Z.of_nat (length d) <= i64_max)%Z) by lia.
    rewrite <- !app_assoc. rewrite (bind_val _ _ _ _ _ (read_header Byte.x24 _ (d ++ crlf ++ rest) e buf Hn ltac:(done))).
    unfold line_buf at 1. rewrite bind_gets. simpl.
    rewrite (bind_val _ _ _ _ _ (parse_len_run _ _ _ Hn)). eexists. apply (parse_bulk_len_run d rest).
  - cbn [value_wf] in Hwf. destruct Hwf as (Hn & Hm & Hwf).
    assert (Hn' : (- i64_max <= Z.of_nat (length items) <= i64_max)%Z) by lia.
    rewrite <- !app_assoc in *.
    rewrite (bind_val _ _ _ _ _ (read_header Byte.x2a _ (concat (map enc_value items) ++ rest) e buf Hn' ltac:(done))).
    unfold line_buf at 1. rewrite bind_gets. simpl.
    rewrite (bind_val _ _ _ _ _ (parse_len_run _ _ _ Hn')).
    unfold parse_array_len. destruct (Z.leb_spec (Z.of_nat (length items)) 0).
    + destruct items; simpl in *; [by eexists|lia].
    + rewrite (proj2 (Z.ltb_ge _ _)) by lia.
      pose proof (items_length items) as Hil.
      rewrite !length_app in Hf. change (length crlf) with 2 in Hf. change (length (lit "*")) with 1 in Hf.
      destruct (read_items_back items IH Hwf fuel fuel rest e (Byte.x2a :: dec_string (Z.of_nat (length items)))) as [b E];
        [rewrite length_app; lia|lia|].
      rewrite (bind_val _ _ _ _ _ E). by eexists.
Qed.

Lemma read_response_back v rest e buf : value_wf value_size v ->
  exists buf', read_response value_size (mkReader (enc_value v ++ rest) e, buf) = (Val v, (mkReader rest e, buf')).
Proof.
  intros Hwf. unfold read_response. rewrite bind_gets. apply read_value_back; [done|].
  cbn [r_data]. lia.
Qed.

(** A pipeline of replies is read one value at a time. *)
Fixpoint read_all (n : nat) : RM (list RespValue) :=
  match n with
  | O => mret []
  | S n' => v ← read_response value_size; vs ← read_all n'; mret (v :: vs)
  end.

Lemma read_all_back vs rest e : forall buf, Forall (value_wf value_size) vs ->
  exists buf', read_all (length vs) (mkReader (concat (map enc_value vs) ++ rest) e, buf)
    = (Val vs, (mkReader rest e, buf')).
Proof.
  induction vs as [|v vs IH]; intros buf Hwf; [by exists buf|].
  apply Forall_cons in Hwf as [Hv Hvs]. cbn [read_all length map concat]. rewrite <- app_assoc.
  destruct (read_response_back v (concat (map enc_value vs) ++ rest) e buf Hv) as [b1 E1].
  rewrite (bind_val _ _ _ _ _ E1). destruct (IH b1 Hvs) as [b2 E2].
  rewrite (bind_val _ _ _ _ _ E2). by exists b2.
Qed.

End roundtrip.

(** The reader inverts the RESP2 encoding: from a stream that carries the
    encodings of values one after the other (nested arrays included), it
    returns those values in order, and leaves the bytes after them unread. *)
Theorem replies_read_back value_size vs rest e buf :
  Forall (value_wf value_size) vs ->
  exists buf', read_all value_size (length vs) (mkReader (concat (map enc_value vs) ++ rest) e, buf)
    = (Val vs, (mkReader rest e, buf')).
Proof. apply read_all_back. Qed.

Lemma replies_read_back_witness :
  let vs := [Simple (lit "OK"); Integer (-2); Array [Bulk (Some (lit "a")); Array []; Bulk None]] in
  concat (map enc_value vs) = lit "+OK" ++ crlf ++ lit ":-2" ++ crlf ++ lit "*3" ++ crlf ++ lit "$1" ++ crlf
    ++ lit "a" ++ crlf ++ lit "*0" ++ crlf ++ lit "$-1" ++ crlf
  /\ exists buf', read_all 32 3 (mkReader (concat (map enc_value vs) ++ lit "rest") None, [])
    = (Val vs, (mkReader (lit "rest") None, buf')).
Proof.
  intros vs. split; [reflexivity|]. apply (replies_read_back 32 vs (lit "rest") None []).
  unfold vs. repeat constructor; simpl; try done; unfold i64_max; try lia; set_solver.
Defined.

(** An array header that announces more elements than a vector can hold
    panics the caller's thread, whatever follows it: the reader reserves the
    announced number of elements before it has read any of them. *)
Theorem huge_array_header_panics value_size n rest e buf :
  (0 < n <= i64_max)%Z -> (i64_max < n * value_size)%Z ->
  fst (read_response value_size (mkReader (lit "*" ++ dec_string n ++ crlf ++ rest) e, buf)) = Panic.
Proof.
  intros Hn Hv. assert (Hn' : (- i64_max <= n <= i64_max)%Z) by lia.
  unfold read_response. rewrite bind_gets. cbv beta iota. set (fuel := S (length _)). cbn [read_value].
  rewrite (bind_val _ _ _ _ _ (read_header Byte.x2a n rest e buf Hn' ltac:(done))).
  unfold line_buf at 1. rewrite bind_gets. simpl.
  rewrite (bind_val _ _ _ _ _ (parse_len_run _ _ _ Hn')).
  unfold parse_array_len. rewrite (proj2 (Z.leb_gt _ _)) by lia. by rewrite (proj2 (Z.ltb_lt _ _)) by lia.
Qed.

Lemma huge_array_header_panics_witness :
  dec_string i64_max = lit "9223372036854775807"
  /\ fst (read_response 32 (mkReader (lit "*" ++ dec_string i64_max ++ crlf ++ []) None, [])) = Panic.
Proof. split; [reflexivity|]. apply (huge_array_header_panics 32 i64_max []); unfold i64_max; lia. Defined.

(** A lone sign is zero, and the least [i64] is out of reach. *)
Example parse_i64_edge_cases :
  parse_i64 (lit "-") = Some 0%Z /\ parse_i64 (lit "-9223372036854775808") = Some (- i64_max)%Z.
Proof. split; reflexivity. Qed.
