(* ===== verification/Server.v ===== *)
(** * The TCP server: replies, commands, connections (hkv-server/src/server.rs)

    Written against the [KVEngine] class and any [BytesMut] buffer. A task's
    world holds what the connections share (engine, metrics, observation log)
    and what the task has done on its socket. The clocks are functions of the
    number of readings so far; [write_fault] says which [write_all] calls fail,
    and after how many bytes. *)

From S2P Require Import Prelude Decimal Errors KVEngine RespParser Observation F64 Metrics.

(** ** Replies *)

Definition resp_simple (message : bytes) : bytes := lit "+" ++ message ++ crlf.
Definition resp_error (message : bytes) : bytes := lit "-ERR " ++ message ++ crlf.
Definition resp_integer (value : Z) : bytes := lit ":" ++ dec_string value ++ crlf.
Definition resp_bulk (data : bytes) : bytes :=
  lit "$" ++ dec_string (Z.of_nat (length data)) ++ crlf ++ data ++ crlf.
Definition resp_null : bytes := lit "$-1" ++ crlf.

Definition is_error_response (response : bytes) : bool := bool_decide (head response = Some Byte.x2d).

(** ** Arguments *)

Definition eq_ignore_ascii_case (a b : bytes) : bool :=
  (length a =? length b) && forallb (fun '(x, y) => byte_eq_ignore_case x y) (combine a b).

Fixpoint parse_u64_loop (value : Z) (arg : bytes) : result Z bytes :=
  match arg with
  | [] => Ok value
  | b :: arg' =>
      if negb (is_ascii_digit b) then Error (resp_error (lit "invalid integer"))
      else parse_u64_loop (saturating_add (saturating_mul value 10) (byte_val b - 48)) arg'
  end.

Definition parse_u64 (arg : bytes) : result Z bytes :=
  if bool_decide (arg = []) then Error (resp_error (lit "invalid integer")) else parse_u64_loop 0 arg.

(** [Duration::from_secs], [as_secs] and the cast [as i64]. *)
Definition nanos_per_sec : Z := 1000000000.
Definition from_secs (seconds : Z) : Duration := (seconds * nanos_per_sec)%Z.
Definition as_secs (d : Duration) : Z := (d / nanos_per_sec)%Z.
Definition as_i64 (z : Z) : Z := if (wrap64 z <? 2 ^ 63)%Z then wrap64 z else (wrap64 z - u64_modulus)%Z.

(** ** The world of a connection task *)

Inductive io_error : Type := ReadFailed | WriteFailed | AcceptFailed | SocketFailed.

Record World (E : Type) := mkWorld {
  w_engine : E;
  w_metrics : Metrics;
  w_log : option SharedObservationLog;
  w_ticks : nat;
  w_out : bytes;
  w_writes : nat
}.
Arguments mkWorld {E}.
Arguments w_engine {E}. Arguments w_metrics {E}. Arguments w_log {E}.
Arguments w_ticks {E}. Arguments w_out {E}. Arguments w_writes {E}.

Definition info_lines (s : MetricsSnapshot) : bytes :=
  let pct p := dec_nonneg (default 0%Z (percentile_us (ms_latency s) p)) in
  lit "role:master" ++ crlf
  ++ lit "engine:hybridkv" ++ crlf
  ++ lit "requests_total:" ++ dec_nonneg (ms_requests_total s) ++ crlf
  ++ lit "errors_total:" ++ dec_nonneg (ms_errors_total s) ++ crlf
  ++ lit "inflight:" ++ dec_nonneg (ms_inflight s) ++ crlf
  ++ lit "uptime_sec:" ++ format_f64_3 (as_secs_f64 (ms_uptime s)) ++ crlf
  ++ lit "qps_avg:" ++ format_f64_3 (qps s) ++ crlf
  ++ lit "error_rate:" ++ format_f64_3 (error_rate s) ++ crlf
  ++ lit "latency_samples:" ++ dec_nonneg (h_samples (ms_latency s)) ++ crlf
  ++ lit "latency_avg_us:" ++ format_f64_3 (default (f64_of_Z 0) (average_us (ms_latency s))) ++ crlf
  ++ lit "latency_max_us:" ++ dec_nonneg (h_max_us (ms_latency s)) ++ crlf
  ++ lit "latency_p50_us:" ++ pct (f64_of_Z 50) ++ crlf
  ++ lit "latency_p90_us:" ++ pct (f64_of_Z 90) ++ crlf
  ++ lit "latency_p99_us:" ++ pct (f64_of_Z 99) ++ crlf
  ++ lit "latency_p999_us:" ++ pct (f64_div (f64_of_Z 999) (f64_of_Z 10)) ++ crlf.

Section handlers.
Context `{KVEngine E} (clock : nat -> Instant) (wall : nat -> SystemTime).

Abbreviation HM := (M (World E) io_error).

(** [Instant::now()] and [SystemTime::now()]. *)
Definition tick : HM nat := fun w =>
  (Val (w_ticks w), mkWorld (w_engine w) (w_metrics w) (w_log w) (S (w_ticks w)) (w_out w) (w_writes w)).
Definition instant_now : HM Instant := t ← tick; mret (clock t).
Definition system_now : HM SystemTime := t ← tick; mret (wall t).

(** A call of the engine, its [Result] as a value. *)
Definition on_engine {A} (m : M E HkvError A) : HM (result A HkvError) := fun w =>
  let '(o, e) := m (w_engine w) in
  (match o with Val a => Val (Ok a) | Err x => Val (Error x) | Panic => Panic | Diverge => Diverge end,
   mkWorld e (w_metrics w) (w_log w) (w_ticks w) (w_out w) (w_writes w)).

Definition engine_call {A} (call : Instant -> M E HkvError A) : HM (result A HkvError) :=
  now ← instant_now; on_engine (call now).

Definition modify_metrics (f : Metrics -> Metrics) : HM unit :=
  modify (fun w => mkWorld (w_engine w) (f (w_metrics w)) (w_log w) (w_ticks w) (w_out w) (w_writes w)).

(** ** Commands *)

Definition handle_ping (args : list bytes) : bytes :=
  match args with
  | [_] => resp_simple (lit "PONG")
  | [_; message] => resp_bulk message
  | _ => resp_error (lit "wrong number of arguments for PING")
  end.

Definition handle_get (args : list bytes) : HM bytes :=
  match args with
  | [_; key] =>
      r ← engine_call (fun now => kv_get now key);
      mret (match r with
            | Ok (Some value) => resp_bulk value
            | Ok None => resp_null
            | Error _ => resp_error (lit "engine error")
            end)
  | _ => mret (resp_error (lit "wrong number of arguments for GET"))
  end.

Definition handle_set (args : list bytes) : HM bytes :=
  match args with
  | _ :: key :: value :: options =>
      match options with
      | [] =>
          r ← engine_call (fun now => kv_set now key value);
          mret (match r with
                | Ok _ => resp_simple (lit "OK")
                | Error _ => resp_error (lit "engine error")
                end)
      | [ex; seconds] =>
          if eq_ignore_ascii_case ex (lit "EX") then
            match parse_u64 seconds with
            | Error resp => mret resp
            | Ok seconds =>
                r ← engine_call (fun now => kv_set_with_ttl now key value (from_secs seconds));
                mret (match r with
                      | Ok _ => resp_simple (lit "OK")
                      | Error _ => resp_error (lit "engine error")
                      end)
            end
          else mret (resp_error (lit "unsupported SET options"))
      | _ => mret (resp_error (lit "unsupported SET options"))
      end
  | _ => mret (resp_error (lit "wrong number of arguments for SET"))
  end.

(** [removed += 1] stays below the number of arguments. *)
Fixpoint del_loop (keys : list bytes) (removed : Z) : HM bytes :=
  match keys with
  | [] => mret (resp_integer removed)
  | key :: keys' =>
      r ← engine_call (fun now => kv_delete now key);
      match r with
      | Ok true => del_loop keys' (removed + 1)
      | Ok false => del_loop keys' removed
      | Error _ => mret (resp_error (lit "engine error"))
      end
  end.

Definition handle_del (args : list bytes) : HM bytes :=
  if length args <? 2 then mret (resp_error (lit "wrong number of arguments for DEL"))
  else del_loop (tail args) 0.

Definition handle_expire (args : list bytes) : HM bytes :=
  match args with
  | [_; key; seconds] =>
      match parse_u64 seconds with
      | Error resp => mret resp
      | Ok seconds =>
          r ← engine_call (fun now => kv_expire now key (from_secs seconds));
          mret (match r with
                | Ok _ => resp_integer 1
                | Error NotFound => resp_integer 0
                | Error _ => resp_error (lit "engine error")
                end)
      end
  | _ => mret (resp_error (lit "wrong number of arguments for EXPIRE"))
  end.

Definition handle_ttl (args : list bytes) : HM bytes :=
  match args with
  | [_; key] =>
      r ← engine_call (fun now => kv_ttl now key);
      mret (match r with
            | Ok Missing => resp_integer (-2)
            | Ok NoExpiry => resp_integer (-1)
            | Ok (ExpiresIn remaining) => resp_integer (as_i64 (as_secs remaining))
            | Error _ => resp_error (lit "engine error")
            end)
  | _ => mret (resp_error (lit "wrong number of arguments for TTL"))
  end.

Definition handle_info : HM bytes :=
  now ← instant_now;
  m ← gets w_metrics;
  mret (resp_bulk (info_lines (snapshot now m))).

(** ** Observation *)

Fixpoint planned_deletes (keys : list bytes) : HM (list ObservationEvent) :=
  match keys with
  | [] => mret []
  | key :: keys' =>
      at_ ← system_now;
      evs ← planned_deletes keys';
      mret (event_write CmdDelete key None at_ :: evs)
  end.

Definition planned_one (f : SystemTime -> ObservationEvent) : HM (list ObservationEvent) :=
  at_ ← system_now; mret [f at_].

Definition planned_observations (args : list bytes) : HM (list ObservationEvent) :=
  match args with
  | [] => mret []
  | command :: _ =>
      if eq_ignore_ascii_case command (lit "GET") then
        match args with
        | [_; key] => planned_one (event_read CmdGet key)
        | _ => mret []
        end
      else if eq_ignore_ascii_case command (lit "SET") then
        match args with
        | [_; key; value] => planned_one (event_write CmdSet key (Some (Z.of_nat (length value))))
        | [_; key; value; ex; _] =>
            if eq_ignore_ascii_case ex (lit "EX")
            then planned_one (event_write CmdSet key (Some (Z.of_nat (length value))))
            else mret []
        | _ => mret []
        end
      else if eq_ignore_ascii_case command (lit "DEL") then
        if length args <? 2 then mret [] else planned_deletes (tail args)
      else if eq_ignore_ascii_case command (lit "EXPIRE") then
        match args with
        | [_; key; _] => planned_one (event_write CmdExpire key None)
        | _ => mret []
        end
      else if eq_ignore_ascii_case command (lit "TTL") then
        match args with
        | [_; key] => planned_one (event_read CmdTtl key)
        | _ => mret []
        end
      else mret []
  end.

Definition record_events (events : list ObservationEvent) : HM unit :=
  modify (fun w => mkWorld (w_engine w) (w_metrics w)
    ((fun log => foldl (fun log ev => record_observation ev log) log events) <$> w_log w)
    (w_ticks w) (w_out w) (w_writes w)).

Definition observe_command_result (events : list ObservationEvent) (dispatch : HM bytes) : HM bytes :=
  response ← dispatch;
  (if negb (is_error_response response) then record_events events else mret tt);;
  mret response.

Definition observed (args : list bytes) (dispatch : HM bytes) : HM bytes :=
  events ← planned_observations args; observe_command_result events dispatch.

Definition dispatch_command (args : list bytes) : HM bytes :=
  match args with
  | [] => mret (resp_error (lit "empty command"))
  | cmd :: _ =>
      if eq_ignore_ascii_case cmd (lit "PING") then mret (handle_ping args)
      else if eq_ignore_ascii_case cmd (lit "GET") then observed args (handle_get args)
      else if eq_ignore_ascii_case cmd (lit "SET") then observed args (handle_set args)
      else if eq_ignore_ascii_case cmd (lit "DEL") then observed args (handle_del args)
      else if eq_ignore_ascii_case cmd (lit "EXPIRE") then observed args (handle_expire args)
      else if eq_ignore_ascii_case cmd (lit "TTL") then observed args (handle_ttl args)
      else if eq_ignore_ascii_case cmd (lit "INFO") then handle_info
      else mret (resp_error (lit "unknown command"))
  end.

(** ** Requests *)

Context (write_fault : nat -> option nat).

(** [stream.write_all(..).await], its [Result] as a value. *)
Definition write_all (response : bytes) : HM (result unit io_error) := fun w =>
  let '(r, sent) := match write_fault (w_writes w) with
                    | None => (Ok tt, response)
                    | Some n => (Error WriteFailed, take n response)
                    end in
  (Val r, mkWorld (w_engine w) (w_metrics w) (w_log w) (w_ticks w) (w_out w ++ sent) (S (w_writes w))).

Definition finish_tracked_request (started_at : Instant) (response : bytes) (write_result : result unit io_error) : HM unit :=
  (if is_error_response response then modify_metrics record_error else mret tt);;
  now ← instant_now;
  modify_metrics (record_request_end (saturating_sub now started_at));;
  match write_result with Ok _ => mret tt | Error e => throw e end.

(** What both arms of the loop of [handle_connection_with_observation] do. *)
Definition tracked (respond : HM bytes) : HM unit :=
  modify_metrics record_request_start;;
  started_at ← instant_now;
  response ← respond;
  write_result ← write_all response;
  finish_tracked_request started_at response write_result.

Definition handle_request (args : list bytes) : HM unit := tracked (dispatch_command args).
Definition handle_protocol_error : HM unit := tracked (mret (resp_error (lit "protocol error"))).

(** ** Connections *)

Section connection.
Context `{Profile} `{BytesMut B}.

Abbreviation CM := (M (World E * (RespParser * B)) io_error).

Definition in_world {A} (m : HM A) : CM A := fun '(w, c) => let '(o, w') := m w in (o, (w', c)).

(** [parser.parse(&mut buffer)], its [Result] as a value. *)
Definition parse_next : CM (result (option (list bytes)) RespError) := fun '(w, c) =>
  let '(o, c') := parse c in
  (match o with Val a => Val (Ok a) | Err x => Val (Error x) | Panic => Panic | Diverge => Diverge end, (w, c')).

Inductive flow : Type := MoreInput | Closed.

Fixpoint serve_buffer (fuel : nat) : CM flow :=
  match fuel with
  | O => diverge
  | S fuel' =>
      r ← parse_next;
      match r with
      | Ok (Some args) => in_world (handle_request args);; serve_buffer fuel'
      | Ok None => mret MoreInput
      | Error ProtocolError => in_world handle_protocol_error;; mret Closed
      end
  end.

(** The reads of the socket: the chunks [read_buf] appends, then the end of the
    stream or an error. A read of no bytes is the end of the stream. *)
Fixpoint read_loop (reads : list bytes) (read_end : result unit io_error) : CM unit :=
  match reads with
  | [] => match read_end with Ok _ => mret tt | Error e => throw e end
  | chunk :: reads' =>
      modify (fun '(w, (p, b)) => (w, (p, bm_put b chunk)));;
      if bool_decide (length chunk = 0) then mret tt
      else
        fuel ← gets (fun s => length (bm_bytes (snd (snd s))));
        f ← serve_buffer (S fuel);
        match f with MoreInput => read_loop reads' read_end | Closed => mret tt end
  end.

(** [empty_buffer]: [BytesMut::with_capacity(8 * 1024)]. *)
Definition handle_connection_with_observation (empty_buffer : B) (reads : list bytes)
    (read_end : result unit io_error) : HM unit := fun w =>
  let '(o, (w', _)) := read_loop reads read_end (w, (parser_new, empty_buffer)) in (o, w').

End connection.
End handlers.
