(* ===== verification/ServerSpec.v ===== *)
(** * What a command means

    The commands the server understands, decoded from their arguments, and the
    reply and new map of each one, on the map of keys to values and deadlines.
    Replies are values of the protocol, which the client's reader decodes. *)

From S2P Require Import Prelude Decimal Errors KVEngine RespClient RespClientThms Observation F64 Metrics Server.

Inductive Command : Type :=
| CPing (message : option bytes)
| CGet (key : bytes)
| CSet (key value : bytes) (seconds : option Z)
| CDel (keys : list bytes)
| CExpire (key : bytes) (seconds : Z)
| CTtl (key : bytes)
| CInfo
| CBad (message : bytes).

(** A decimal number, cut at the largest [u64]. *)
Definition number (arg : bytes) : option Z :=
  if bool_decide (arg <> []) && all_digits arg then Some (Z.min (dec_value arg) u64_max) else None.

Definition wrong_arity (name : bytes) : Command := CBad (lit "wrong number of arguments for " ++ name).

Definition decode_set (rest : list bytes) : Command :=
  match rest with
  | [key; value] => CSet key value None
  | [key; value; option_; seconds] =>
      if eq_ignore_ascii_case option_ (lit "EX") then
        match number seconds with
        | Some n => CSet key value (Some n)
        | None => CBad (lit "invalid integer")
        end
      else CBad (lit "unsupported SET options")
  | _ :: _ :: _ => CBad (lit "unsupported SET options")
  | _ => wrong_arity (lit "SET")
  end.

Definition decode_expire (rest : list bytes) : Command :=
  match rest with
  | [key; seconds] =>
      match number seconds with Some n => CExpire key n | None => CBad (lit "invalid integer") end
  | _ => wrong_arity (lit "EXPIRE")
  end.

(** Command names and the [EX] option are matched without case. *)
Definition decode (args : list bytes) : Command :=
  match args with
  | [] => CBad (lit "empty command")
  | name :: rest =>
      let named s := eq_ignore_ascii_case name s in
      if named (lit "PING") then
        match rest with [] => CPing None | [m] => CPing (Some m) | _ => wrong_arity (lit "PING") end
      else if named (lit "GET") then match rest with [key] => CGet key | _ => wrong_arity (lit "GET") end
      else if named (lit "SET") then decode_set rest
      else if named (lit "DEL") then match rest with [] => wrong_arity (lit "DEL") | keys => CDel keys end
      else if named (lit "EXPIRE") then decode_expire rest
      else if named (lit "TTL") then match rest with [key] => CTtl key | _ => wrong_arity (lit "TTL") end
      else if named (lit "INFO") then CInfo
      else CBad (lit "unknown command")
  end.

(** How many times a command reads the clock for the engine or for [INFO]. *)
Definition readings (c : Command) : nat :=
  match c with CPing _ | CBad _ => 0 | CDel keys => length keys | _ => 1 end.

Fixpoint m_del (times : list Instant) (keys : list bytes) (m : store) : Z * store :=
  match times, keys with
  | t :: times', k :: keys' =>
      let '(n, m') := m_del times' keys' (delete k m) in
      ((if bool_decide (is_Some (m_live t k m)) then 1 else 0) + n, m')%Z
  | _, _ => (0%Z, m)
  end.

Definition ttl_number (t : TtlStatus) : Z :=
  match t with Missing => -2 | NoExpiry => -1 | ExpiresIn d => as_i64 (as_secs d) end%Z.

(** [serves b mt times c m v m']: at those clock readings and server metrics,
    command [c] on map [m] is answered [v] and leaves [m']. An engine with a
    capacity ([b]) may drop other entries at a [SET]. *)
Inductive serves (b : bool) (mt : Metrics) : list Instant -> Command -> store -> RespValue -> store -> Prop :=
| serves_ping m : serves b mt [] (CPing None) m (Simple (lit "PONG")) m
| serves_echo x m : serves b mt [] (CPing (Some x)) m (Bulk (Some x)) m
| serves_get t k m : serves b mt [t] (CGet k) m (Bulk (fst <$> m_live t k m)) (m_touch t k m)
| serves_set t k v m m' : shrinks b (<[k := (v, None)]> m) m' ->
    serves b mt [t] (CSet k v None) m (Simple (lit "OK")) m'
| serves_set_ex t k v n m m' : shrinks b (<[k := (v, Some (t + from_secs n)%Z)]> m) m' ->
    serves b mt [t] (CSet k v (Some n)) m (Simple (lit "OK")) m'
| serves_del ts ks m : length ts = length ks ->
    serves b mt ts (CDel ks) m (Integer (fst (m_del ts ks m))) (snd (m_del ts ks m))
| serves_expire t k n m :
    serves b mt [t] (CExpire k n) m
      (Integer (match fst (m_expire t k (from_secs n) m) with Ok _ => 1 | Error _ => 0 end))
      (snd (m_expire t k (from_secs n) m))
| serves_ttl t k m : serves b mt [t] (CTtl k) m (Integer (ttl_number (m_ttl t k m))) (m_touch t k m)
| serves_info t m : serves b mt [t] CInfo m (Bulk (Some (info_lines (snapshot t mt)))) m
| serves_bad x m : serves b mt [] (CBad x) m (ErrorReply (lit "ERR " ++ x)) m.

Definition is_error_value (v : RespValue) : bool := match v with ErrorReply _ => true | _ => false end.

(** The accesses a command reports when it succeeds. *)
Definition command_events (c : Command) : list (SystemTime -> ObservationEvent) :=
  match c with
  | CGet k => [event_read CmdGet k]
  | CSet k v _ => [event_write CmdSet k (Some (Z.of_nat (length v)))]
  | CDel ks => (fun k => event_write CmdDelete k None) <$> ks
  | CExpire k _ => [event_write CmdExpire k None]
  | CTtl k => [event_read CmdTtl k]
  | CPing _ | CInfo | CBad _ => []
  end.

Definition stamp (wall : nat -> SystemTime) (t : nat) (evs : list (SystemTime -> ObservationEvent))
    : list ObservationEvent := imap (fun i f => f (wall (t + i)%nat)) evs.

(** Every deadline the command can compute is one the clock can represent. *)
Definition command_fits (clock : nat -> Instant) (c : Command) : Prop :=
  match c with
  | CSet _ _ (Some n) | CExpire _ n => forall i, (clock i + from_secs n < instant_limit)%Z
  | _ => True
  end.

Lemma stamp_cons wall t f evs : stamp wall t (f :: evs) = f (wall t) :: stamp wall (S t) evs.
Proof.
  unfold stamp. rewrite imap_cons, Nat.add_0_r. f_equal. apply imap_ext. intros i g _.
  simpl. by rewrite Nat.add_succ_r.
Qed.

(** ** The handlers implement it *)

Lemma parse_u64_loop_spec arg v :
  (0 <= v)%Z ->
  parse_u64_loop (Z.min v u64_max) arg
  = if all_digits arg then Ok (Z.min (dec_from v arg) u64_max) else Error (resp_error (lit "invalid integer")).
Proof.
  revert v. induction arg as [|b arg IH]; intros v Hv; [done|]. cbn [parse_u64_loop all_digits forallb].
  destruct (is_ascii_digit b) eqn:Hb; cbn [negb andb]; [|done]. apply is_ascii_digit_val in Hb.
  unfold digit_val in Hb.
  replace (saturating_add (saturating_mul (Z.min v u64_max) 10) (byte_val b - 48))
    with (Z.min (v * 10 + digit_val b) u64_max).
  2: { unfold saturating_add, saturating_mul, digit_val, u64_max, u64_modulus. lia. }
  rewrite IH by (unfold digit_val; lia). done.
Qed.

Lemma parse_u64_spec arg :
  parse_u64 arg = match number arg with Some n => Ok n | None => Error (resp_error (lit "invalid integer")) end.
Proof.
  unfold parse_u64, number. destruct (decide (arg = [])) as [->|Hne]; [done|].
  rewrite bool_decide_false, bool_decide_true by done. cbn [andb].
  change 0%Z with (Z.min 0 u64_max). rewrite parse_u64_loop_spec by done. by case_match.
Qed.

Section handlers.
Context `{KVEngineLaws E} (clock : nat -> Instant) (wall : nat -> SystemTime).

Abbreviation World := (World E).
Abbreviation HM := (M World io_error).

(** What a command changes of the world: engine, log and clock. *)
Definition moved (e : E) (log : option SharedObservationLog) (t : nat) (w : World) : World :=
  mkWorld e (w_metrics w) log t (w_out w) (w_writes w).

Lemma moved_id (w : World) : moved (w_engine w) (w_log w) (w_ticks w) w = w.
Proof. by destruct w. Qed.

Lemma engine_call_run {A} (call : Instant -> M E HkvError A) (w : World) o e :
  call (clock (w_ticks w)) (w_engine w) = (o, e) ->
  engine_call clock call w
  = (match o with Val a => Val (Ok a) | Err x => Val (Error x) | Panic => Panic | Diverge => Diverge end,
     moved e (w_log w) (S (w_ticks w)) w).
Proof.
  intros Hc. unfold engine_call, instant_now, tick, on_engine, mbind, M_bind, mret, M_ret. cbn.
  by rewrite Hc.
Qed.

Definition handler_ok (b : bool) (w : World) (c : Command) (m : store) (h : HM bytes) : Prop :=
  exists v m' e, h w = (Val (enc_value v), moved e (w_log w) (w_ticks w + readings c) w)
    /\ serves b (w_metrics w) (clock <$> seq (w_ticks w) (readings c)) c m v m' /\ kv_rep b e m'.

Lemma handler_bad b (w : World) m x h :
  kv_rep b (w_engine w) m -> h w = (Val (resp_error x), w) -> handler_ok b w (CBad x) m h.
Proof.
  intros Hr Eh. exists (ErrorReply (lit "ERR " ++ x)), m, (w_engine w). rewrite Eh. simpl.
  rewrite Nat.add_0_r, moved_id. split_and!; [done|constructor|done].
Qed.

Lemma handle_get_ok b (w : World) m name rest :
  kv_rep b (w_engine w) m ->
  handler_ok b w (match rest with [key] => CGet key | _ => wrong_arity (lit "GET") end) m
    (handle_get clock (name :: rest)).
Proof.
  intros Hr. destruct rest as [|k [|]]; try by apply handler_bad.
  destruct (kv_get_ok _ _ _ (clock (w_ticks w)) k Hr) as (e & E1 & Hr1).
  do 3 eexists. cbn [handle_get]. rewrite (bind_val _ _ _ _ _ (engine_call_run _ w _ _ E1)).
  cbn [readings seq fmap list_fmap]. rewrite Nat.add_1_r. split_and!; [|constructor|exact Hr1].
  by destruct (m_live _ k m) as [[]|].
Qed.

Lemma handle_set_ok b (w : World) m name rest :
  kv_rep b (w_engine w) m -> command_fits clock (decode_set rest) ->
  handler_ok b w (decode_set rest) m (handle_set clock (name :: rest)).
Proof.
  intros Hr Hf. destruct rest as [|k [|v [|ex [|n [|]]]]]; try by apply handler_bad.
  - destruct (kv_set_ok _ _ _ (clock (w_ticks w)) k v Hr) as (e & m' & E1 & Hr1 & Hs).
    exists (Simple (lit "OK")), m', e. cbn [handle_set decode_set].
    rewrite (bind_val _ _ _ _ _ (engine_call_run _ w _ _ E1)).
    cbn [readings seq fmap list_fmap]. rewrite Nat.add_1_r. split_and!; [done|by constructor|done].
  - cbn [handle_set decode_set] in *. destruct (eq_ignore_ascii_case ex (lit "EX")); [|by apply handler_bad].
    rewrite parse_u64_spec. destruct (number n) as [s|]; [|by apply handler_bad].
    destruct (kv_set_with_ttl_ok _ _ _ (clock (w_ticks w)) k v (from_secs s) Hr (Hf _)) as (e & m' & E1 & Hr1 & Hs).
    exists (Simple (lit "OK")), m', e. rewrite (bind_val _ _ _ _ _ (engine_call_run _ w _ _ E1)).
    cbn [readings seq fmap list_fmap]. rewrite Nat.add_1_r. split_and!; [done|by constructor|done].
Qed.

Lemma handle_expire_ok b (w : World) m name rest :
  kv_rep b (w_engine w) m -> command_fits clock (decode_expire rest) ->
  handler_ok b w (decode_expire rest) m (handle_expire clock (name :: rest)).
Proof.
  intros Hr Hf. destruct rest as [|k [|n [|]]]; try by apply handler_bad.
  cbn [handle_expire decode_expire] in *. rewrite parse_u64_spec.
  destruct (number n) as [s|]; [|by apply handler_bad].
  set (t := clock (w_ticks w)).
  destruct (kv_expire_ok _ _ _ t k (from_secs s) Hr (Hf _)) as (e & E1 & Hr1).
  exists (Integer (match fst (m_expire t k (from_secs s) m) with Ok _ => 1 | Error _ => 0 end)),
    (snd (m_expire t k (from_secs s) m)), e.
  cbn [readings seq fmap list_fmap]. rewrite Nat.add_1_r. split_and!; [|constructor|exact Hr1].
  assert (Hx : forall x, fst (m_expire t k (from_secs s) m) = Error x -> x = NotFound).
  { unfold m_expire. destruct (m_live t k m) as [[]|]; simpl; congruence. }
  destruct (fst (m_expire t k (from_secs s) m)) as [[]|x];
    rewrite (bind_val _ _ _ _ _ (engine_call_run _ w _ _ E1)); [done|by rewrite (Hx x)].
Qed.

Lemma handle_ttl_ok b (w : World) m name rest :
  kv_rep b (w_engine w) m ->
  handler_ok b w (match rest with [key] => CTtl key | _ => wrong_arity (lit "TTL") end) m
    (handle_ttl clock (name :: rest)).
Proof.
  intros Hr. destruct rest as [|k [|]]; try by apply handler_bad.
  destruct (kv_ttl_ok _ _ _ (clock (w_ticks w)) k Hr) as (e & E1 & Hr1).
  do 3 eexists. cbn [handle_ttl]. rewrite (bind_val _ _ _ _ _ (engine_call_run _ w _ _ E1)).
  cbn [readings seq fmap list_fmap]. rewrite Nat.add_1_r. split_and!; [|constructor|exact Hr1].
  by destruct (m_ttl _ k m).
Qed.

Lemma del_loop_ok b keys : forall (w : World) m removed,
  kv_rep b (w_engine w) m ->
  let times := clock <$> seq (w_ticks w) (length keys) in
  exists e, del_loop clock keys removed w
      = (Val (resp_integer (removed + fst (m_del times keys m))), moved e (w_log w) (w_ticks w + length keys) w)
    /\ kv_rep b e (snd (m_del times keys m)).
Proof.
  induction keys as [|k keys IH]; intros w m removed Hr.
  - exists (w_engine w). simpl. by rewrite Nat.add_0_r, Z.add_0_r, moved_id.
  - cbn [length seq fmap list_fmap m_del del_loop].
    destruct (kv_delete_ok _ _ _ (clock (w_ticks w)) k Hr) as (e & E1 & Hr1).
    rewrite (bind_val _ _ _ _ _ (engine_call_run _ w _ _ E1)).
    set (w1 := moved e (w_log w) (S (w_ticks w)) w).
    destruct (IH w1 _ (removed + if bool_decide (is_Some (m_live (clock (w_ticks w)) k m)) then 1 else 0)%Z Hr1)
      as (e2 & E2 & Hr2).
    cbn [w1 moved w_ticks w_log] in E2, Hr2.
    destruct (m_del _ keys (delete k m)) as [n m2]. cbn [fst snd] in *.
    exists e2. split; [|done]. rewrite <- Nat.add_succ_comm, Z.add_assoc.
    destruct (bool_decide (is_Some _)); [|rewrite Z.add_0_r in E2 |- *]; exact E2.
Qed.

Lemma handle_del_ok b (w : World) m name rest :
  kv_rep b (w_engine w) m ->
  handler_ok b w (match rest with [] => wrong_arity (lit "DEL") | keys => CDel keys end) m
    (handle_del clock (name :: rest)).
Proof.
  intros Hr. destruct rest as [|k rest]; [by apply handler_bad|].
  destruct (del_loop_ok b (k :: rest) w m 0 Hr) as (e & E1 & Hr1).
  rewrite Z.add_0_l in E1.
  exists (Integer (fst (m_del (clock <$> seq (w_ticks w) (length (k :: rest))) (k :: rest) m))),
    (snd (m_del (clock <$> seq (w_ticks w) (length (k :: rest))) (k :: rest) m)), e.
  split; [exact E1|]. split; [|exact Hr1].
  constructor. by rewrite length_fmap, length_seq.
Qed.

Lemma handle_info_ok b (w : World) m :
  kv_rep b (w_engine w) m -> handler_ok b w CInfo m (handle_info clock).
Proof.
  intros Hr. exists (Bulk (Some (info_lines (snapshot (clock (w_ticks w)) (w_metrics w))))), m, (w_engine w).
  cbn [readings seq fmap list_fmap]. rewrite Nat.add_1_r. split_and!; [done|constructor|done].
Qed.

Lemma serves_wf b mt ts c m v m' : serves b mt ts c m v m' -> is_error_response (enc_value v) = is_error_value v.
Proof. intros Hs. by destruct v as [| | |[]|]. Qed.

(** ** Observation *)

Definition log_with (evs : list ObservationEvent) (log : option SharedObservationLog)
    : option SharedObservationLog := (fun l => l ++ evs) <$> log.

Lemma record_events_run evs (w : World) :
  record_events evs w = (Val tt, moved (w_engine w) (log_with evs (w_log w)) (w_ticks w) w).
Proof.
  unfold record_events, modify, moved, log_with. do 2 f_equal.
  destruct (w_log w) as [log|]; [|done]. simpl. f_equal.
  revert log. induction evs as [|ev evs IH]; intros log; [by rewrite app_nil_r|].
  simpl. rewrite IH. by rewrite <- app_assoc.
Qed.

Definition planned_ok (args : list bytes) (evs : list (SystemTime -> ObservationEvent)) : Prop :=
  forall w : World, planned_observations wall args w
    = (Val (stamp wall (w_ticks w) evs), moved (w_engine w) (w_log w) (w_ticks w + length evs) w).

Lemma planned_none args : (forall w : World, planned_observations wall args w = (Val [], w)) -> planned_ok args [].
Proof. intros Hp w. simpl. by rewrite Hp, Nat.add_0_r, moved_id. Qed.

Lemma planned_one_run f (w : World) :
  planned_one wall f w = (Val (stamp wall (w_ticks w) [f]), moved (w_engine w) (w_log w) (w_ticks w + 1) w).
Proof. unfold stamp. simpl. by rewrite Nat.add_0_r, Nat.add_1_r. Qed.

Lemma planned_deletes_run keys : forall w : World,
  planned_deletes wall keys w
  = (Val (stamp wall (w_ticks w) ((fun k => event_write CmdDelete k None) <$> keys)),
     moved (w_engine w) (w_log w) (w_ticks w + length keys) w).
Proof.
  induction keys as [|k keys IH]; intros w; [by simpl; rewrite Nat.add_0_r, moved_id|].
  assert (Hnow : system_now wall w = (Val (wall (w_ticks w)), moved (w_engine w) (w_log w) (S (w_ticks w)) w)) by done.
  cbn [planned_deletes]. rewrite (bind_val _ _ _ _ _ Hnow), (bind_val _ _ _ _ _ (IH _)).
  rewrite fmap_cons, stamp_cons. cbn [length]. by rewrite <- Nat.add_succ_comm.
Qed.

(** The observed handlers: if the planned events are those of the command
    whenever the reply is not an error, the log grows by exactly these. *)
Definition dispatch_ok (b : bool) (w : World) (args : list bytes) (m : store) : Prop :=
  exists v m' e n, dispatch_command clock wall args w
      = (Val (enc_value v),
         moved e (log_with (stamp wall (w_ticks w) (command_events (decode args))) (w_log w))
           (w_ticks w + n + readings (decode args)) w)
    /\ serves b (w_metrics w) (clock <$> seq (w_ticks w + n) (readings (decode args))) (decode args) m v m'
    /\ kv_rep b e m'.

Lemma observed_ok b (w : World) m args c evs h :
  planned_ok args evs -> (command_events c = evs \/ exists x, c = CBad x) ->
  (forall w1 : World, w_engine w1 = w_engine w -> handler_ok b w1 c m h) ->
  exists v m' e n, observed wall args h w
      = (Val (enc_value v), moved e (log_with (stamp wall (w_ticks w) (command_events c)) (w_log w))
           (w_ticks w + n + readings c) w)
    /\ serves b (w_metrics w) (clock <$> seq (w_ticks w + n) (readings c)) c m v m' /\ kv_rep b e m'.
Proof.
  intros Hp Hc Hh. destruct (Hh (moved (w_engine w) (w_log w) (w_ticks w + length evs) w) eq_refl)
    as (v & m' & e & E1 & Hs & Hr).
  exists v, m', e, (length evs). unfold observed, observe_command_result.
  rewrite (bind_val _ _ _ _ _ (Hp w)), (bind_val _ _ _ _ _ E1). split_and!; [|done|done].
  rewrite (serves_wf _ _ _ _ _ _ _ Hs). destruct Hc as [<-|[x ->]].
  - destruct (is_error_value v) eqn:Hv.
    + assert (command_events c = []) as ->; [|simpl].
      { inversion Hs; subst; done. }
      unfold log_with, stamp. simpl. by destruct (w_log w); simpl; rewrite ?app_nil_r.
    + cbn [negb]. by rewrite (bind_val _ _ _ _ _ (record_events_run _ _)).
  - assert (is_error_value v = true) as -> by (by inversion Hs).
    unfold log_with, stamp. simpl. by destruct (w_log w); simpl; rewrite ?app_nil_r.
Qed.

End handlers.
