(* ===== verification/ServerThms.v ===== *)
(** * Properties of the server (hkv-server/src/server.rs)

    Every request is answered as the command specification says and reported to
    the observers; a connection is the stream of its commands however the bytes
    are cut; the counters account for every request. *)

From S2P Require Import Prelude Decimal Errors KVEngine RespClient RespClientThms.
From S2P Require Import RespParser RespParserThms RespThms Observation F64 Metrics Server ServerSpec.

Section dispatch.
Context `{KVEngineLaws E} (clock : nat -> Instant) (wall : nat -> SystemTime).

Abbreviation World := (World E).

(** A handler that reports nothing. *)
Lemma plain_ok b (w : World) args c m h :
  decode args = c -> command_events c = [] -> dispatch_command clock wall args = h ->
  handler_ok clock b w c m h -> dispatch_ok clock wall b w args m.
Proof.
  intros Hd He Hh (v & m' & e & E1 & Hs & Hr). exists v, m', e, 0. rewrite Hd, Hh, He, E1, Nat.add_0_r.
  split_and!; [|done|done]. unfold log_with, stamp. simpl. by destruct (w_log w); simpl; rewrite ?app_nil_r.
Qed.

Lemma planned_pure args evs :
  (forall w : World, planned_observations wall args w = (Val (stamp wall (w_ticks w) evs),
     moved (w_engine w) (w_log w) (w_ticks w + length evs) w)) -> planned_ok (E := E) wall args evs.
Proof. done. Qed.

Lemma planned_nothing args :
  (planned_observations wall args : M World io_error _) = mret [] -> planned_ok (E := E) wall args [].
Proof. intros Hp. apply planned_none. intros w. by rewrite Hp. Qed.

Lemma planned_single args f :
  (planned_observations wall args : M World io_error _) = planned_one wall f -> planned_ok (E := E) wall args [f].
Proof. intros Hp w. rewrite Hp. apply planned_one_run. Qed.

Ltac name_tests := repeat match goal with
  | Ht : eq_ignore_ascii_case ?n ?s = _ |- context [eq_ignore_ascii_case ?n ?s] => rewrite Ht
  end.
Ltac planned_case := (apply planned_single || apply planned_nothing); cbn [planned_observations]; by name_tests.

(** An observed command: what the observers plan to report and what the handler
    does, put together. *)
Lemma observed_dispatch b (w : World) args m c evs h :
  decode args = c -> dispatch_command clock wall args = observed wall args h ->
  planned_ok (E := E) wall args evs -> (command_events c = evs \/ exists x, c = CBad x) ->
  (forall w1 : World, w_engine w1 = w_engine w -> handler_ok clock b w1 c m h) ->
  dispatch_ok clock wall b w args m.
Proof. intros Hdec Hdis Hpl Hev Hh. unfold dispatch_ok. rewrite Hdec, Hdis. by eapply observed_ok. Qed.

(** The tests that select a command's arm, decided by the hypotheses. *)
Ltac select_arm := first [cbn [decode]; by name_tests | cbn [dispatch_command]; by name_tests].

Section arms.
Context (b : bool) (w : World) (name : bytes) (rest : list bytes) (m : store).
Context (Hr : kv_rep b (w_engine w) m) (Hf : command_fits clock (decode (name :: rest))).
Context (H1 : eq_ignore_ascii_case name (lit "PING") = false).

Lemma dispatch_get : eq_ignore_ascii_case name (lit "GET") = true -> dispatch_ok clock wall b w (name :: rest) m.
Proof.
  intros H2.
  eapply (observed_dispatch _ _ _ _ _ (match rest with [k] => [event_read CmdGet k] | _ => [] end)); try select_arm.
  - destruct rest as [|k [|]]; planned_case.
  - destruct rest as [|k [|]]; unfold wrong_arity; eauto.
  - intros w1 Hw1. apply handle_get_ok. by rewrite Hw1.
Qed.

Context (H2 : eq_ignore_ascii_case name (lit "GET") = false).

Lemma dispatch_set : eq_ignore_ascii_case name (lit "SET") = true -> dispatch_ok clock wall b w (name :: rest) m.
Proof.
  intros H3. cbn [decode] in Hf. rewrite H1, H2, H3 in Hf.
  eapply (observed_dispatch _ _ _ _ _ (match rest with
                | [k; v] => [event_write CmdSet k (Some (Z.of_nat (length v)))]
                | [k; v; ex; _] => if eq_ignore_ascii_case ex (lit "EX")
                                   then [event_write CmdSet k (Some (Z.of_nat (length v)))] else []
                | _ => [] end)); try select_arm.
  - destruct rest as [|k [|v [|ex [|n [|]]]]]; try planned_case.
    destruct (eq_ignore_ascii_case ex (lit "EX")) eqn:Hex; planned_case.
  - destruct rest as [|k [|v [|ex [|n [|]]]]]; unfold wrong_arity, decode_set; eauto.
    destruct (eq_ignore_ascii_case ex (lit "EX")); [|eauto]. destruct (number n); eauto.
  - intros w1 Hw1. apply handle_set_ok; [by rewrite Hw1|done].
Qed.

Context (H3 : eq_ignore_ascii_case name (lit "SET") = false).

Lemma dispatch_del : eq_ignore_ascii_case name (lit "DEL") = true -> dispatch_ok clock wall b w (name :: rest) m.
Proof.
  intros H4.
  eapply (observed_dispatch _ _ _ _ _ ((fun k => event_write CmdDelete k None) <$> rest)); try select_arm.
  - destruct rest as [|k l]; [planned_case|].
    intros w1. cbn [planned_observations]. name_tests. cbn [length Nat.ltb Nat.leb tail].
    rewrite planned_deletes_run. by rewrite length_fmap.
  - destruct rest; unfold wrong_arity; eauto.
  - intros w1 Hw1. apply handle_del_ok. by rewrite Hw1.
Qed.

Context (H4 : eq_ignore_ascii_case name (lit "DEL") = false).

Lemma dispatch_expire :
  eq_ignore_ascii_case name (lit "EXPIRE") = true -> dispatch_ok clock wall b w (name :: rest) m.
Proof.
  intros H5. cbn [decode] in Hf. rewrite H1, H2, H3, H4, H5 in Hf.
  eapply (observed_dispatch _ _ _ _ _ (match rest with [k; _] => [event_write CmdExpire k None] | _ => [] end));
    try select_arm.
  - destruct rest as [|k [|n [|]]]; planned_case.
  - destruct rest as [|k [|n [|]]]; unfold wrong_arity, decode_expire; eauto. destruct (number n); eauto.
  - intros w1 Hw1. apply handle_expire_ok; [by rewrite Hw1|done].
Qed.

Context (H5 : eq_ignore_ascii_case name (lit "EXPIRE") = false).

Lemma dispatch_ttl : eq_ignore_ascii_case name (lit "TTL") = true -> dispatch_ok clock wall b w (name :: rest) m.
Proof.
  intros H6.
  eapply (observed_dispatch _ _ _ _ _ (match rest with [k] => [event_read CmdTtl k] | _ => [] end)); try select_arm.
  - destruct rest as [|k [|]]; planned_case.
  - destruct rest as [|k [|]]; unfold wrong_arity; eauto.
  - intros w1 Hw1. apply handle_ttl_ok. by rewrite Hw1.
Qed.

Context (H6 : eq_ignore_ascii_case name (lit "TTL") = false).

(** [INFO], and a name that is no command's: no observer is involved. *)
Lemma dispatch_unobserved : dispatch_ok clock wall b w (name :: rest) m.
Proof.
  destruct (eq_ignore_ascii_case name (lit "INFO")) eqn:H7;
    (eapply plain_ok; [cbn [decode]; name_tests; reflexivity|done|cbn [dispatch_command]; name_tests; reflexivity|]).
  - by apply handle_info_ok.
  - by apply handler_bad.
Qed.

End arms.

Lemma dispatch_ping b (w : World) name rest m :
  kv_rep b (w_engine w) m -> eq_ignore_ascii_case name (lit "PING") = true ->
  dispatch_ok clock wall b w (name :: rest) m.
Proof.
  intros Hr H1. eapply plain_ok; [cbn [decode]; by rewrite H1|by destruct rest as [|? [|]]|
    cbn [dispatch_command]; by rewrite H1|].
  destruct rest as [|x [|]]; [| |by apply handler_bad];
    do 3 eexists; cbn [readings seq fmap list_fmap]; rewrite Nat.add_0_r, moved_id; by split_and!; [|constructor|].
Qed.

Lemma dispatch_run b (w : World) args m :
  kv_rep b (w_engine w) m -> command_fits clock (decode args) -> dispatch_ok clock wall b w args m.
Proof.
  intros Hr Hf. destruct args as [|name rest].
  { eapply plain_ok; [reflexivity|reflexivity|reflexivity|]. by apply handler_bad. }
  destruct (eq_ignore_ascii_case name (lit "PING")) eqn:H1; [by apply dispatch_ping|].
  destruct (eq_ignore_ascii_case name (lit "GET")) eqn:H2; [by apply dispatch_get|].
  destruct (eq_ignore_ascii_case name (lit "SET")) eqn:H3; [by apply dispatch_set|].
  destruct (eq_ignore_ascii_case name (lit "DEL")) eqn:H4; [by apply dispatch_del|].
  destruct (eq_ignore_ascii_case name (lit "EXPIRE")) eqn:H5; [by apply dispatch_expire|].
  destruct (eq_ignore_ascii_case name (lit "TTL")) eqn:H6; [by apply dispatch_ttl|].
  by apply dispatch_unobserved.
Qed.

End dispatch.

(** ** A connection is the stream of its commands *)

Section connection.
Context `{KVEngine E} (clock : nat -> Instant) (wall : nat -> SystemTime) (write_fault : nat -> option nat).
Context `{Profile} `{BytesMut B}.

Abbreviation World := (World E).
Abbreviation HM := (M World io_error).

Fixpoint serve_commands (cmds : list (list bytes)) : HM unit :=
  match cmds with
  | [] => mret tt
  | args :: cmds' => handle_request clock wall write_fault args;; serve_commands cmds'
  end.

(** What the stream ends in: the parser waits, rejects the input, or panics. *)
Definition stream_stop {A} (waiting : HM A) (closed : A) (e : outcome RespError unit) : HM A :=
  match e with
  | Val _ => waiting
  | Err _ => handle_protocol_error clock write_fault;; mret closed
  | Panic => panic
  | Diverge => diverge
  end.

(** The outcome and the world of a run, without the parser. *)
Definition shown {A} (r : outcome io_error A * (World * (RespParser * B))) : outcome io_error A * World :=
  (fst r, fst (snd r)).

Lemma shown_bind_world {A C} (h : HM A) (k : A -> M (World * (RespParser * B)) io_error C) (k' : A -> HM C) w c :
  (forall a w', shown (k a (w', c)) = k' a w') -> shown ((in_world h ≫= k) (w, c)) = (h ≫= k') w.
Proof.
  intros Hk. unfold in_world, mbind, M_bind, shown in *. by destruct (h w) as [[a|e| |] w'].
Qed.

Lemma serve_commands_bind {A} args cmds (k : unit -> HM A) w :
  (serve_commands (args :: cmds) ≫= k) w
  = (handle_request clock wall write_fault args ≫= fun _ => serve_commands cmds ≫= k) w.
Proof. cbn [serve_commands]. by rewrite bind_bind. Qed.

Lemma serve_buffer_drain fuel : forall w c,
  let '(cs, e, c') := drain fuel c in
  shown (serve_buffer clock wall write_fault fuel (w, c))
  = (serve_commands cs;; stream_stop (mret MoreInput) Closed e) w
  /\ (fst (serve_buffer clock wall write_fault fuel (w, c)) = Val MoreInput ->
      snd (snd (serve_buffer clock wall write_fault fuel (w, c))) = c').
Proof.
  induction fuel as [|fuel IH]; intros w c; [done|]. cbn [drain serve_buffer].
  destruct (parse c) as [o c1] eqn:Ep.
  assert (Hn : parse_next (w, c) = (match o with Val a => Val (Ok a) | Err x => Val (Error x)
    | Panic => Panic | Diverge => Diverge end, (w, c1))) by (unfold parse_next; by rewrite Ep).
  destruct o as [[args|]|x| |].
  - rewrite (bind_val _ _ _ _ _ Hn).
    destruct (drain fuel c1) as [[cs e] c'] eqn:Ed. split.
    + rewrite serve_commands_bind. apply shown_bind_world. intros [] w'.
      specialize (IH w' c1). rewrite Ed in IH. apply IH.
    + unfold in_world. unfold mbind, M_bind. destruct (handle_request _ _ _ args w) as [[a|a| |] w']; try done.
      specialize (IH w' c1). rewrite Ed in IH. apply IH.
  - by rewrite (bind_val _ _ _ _ _ Hn).
  - rewrite (bind_val _ _ _ _ _ Hn). destruct x. split; [cbn [serve_commands stream_stop]; rewrite bind_ret; by apply shown_bind_world|].
    unfold in_world, mbind, M_bind. by destruct (handle_protocol_error _ _ w) as [[] ?].
  - rewrite (bind_panic _ _ _ _ Hn). done.
  - unfold mbind, M_bind. rewrite Hn. done.
Qed.

Lemma serve_commands_app {A} cs1 cs2 (k : unit -> HM A) w :
  (serve_commands (cs1 ++ cs2) ≫= k) w = (serve_commands cs1 ≫= fun _ => serve_commands cs2 ≫= k) w.
Proof.
  revert w. induction cs1 as [|a cs1 IH]; intros w; [done|].
  rewrite <- app_comm_cons, !serve_commands_bind. apply bind_ext. intros []. apply IH.
Qed.

Lemma read_loop_feed read_end chunks : forall w p b,
  Forall (fun c => c <> []) chunks ->
  let '(cs, e, _) := feed chunks (p, b) in
  shown (read_loop clock wall write_fault chunks read_end (w, (p, b)))
  = (serve_commands cs;; stream_stop (match read_end with Ok _ => mret tt | Error x => throw x end) tt e) w.
Proof.
  induction chunks as [|c chunks IH]; intros w p b Hne.
  { simpl. by destruct read_end as [[]|]. }
  apply Forall_cons in Hne as [Hc Hne]. cbn [feed fst snd read_loop]. rewrite bind_modify.
  rewrite bool_decide_false by (by destruct c). rewrite bind_gets. unfold drain_all. cbn [snd].
  set (fuel := S (length (bm_bytes (bm_put b c)))).
  pose proof (serve_buffer_drain fuel w (p, bm_put b c)) as Hd.
  destruct (drain fuel (p, bm_put b c)) as [[cs e] [p1 b1]]. destruct Hd as [Hd Hst].
  destruct e as [[]|x| |]; cbn [stream_stop] in *;
    [specialize (IH (snd (serve_commands cs w)) p1 b1 Hne);
     destruct (feed chunks (p1, b1)) as [[cs' e'] s']; rewrite serve_commands_app|..];
    unfold shown in *; unfold mbind, M_bind, panic, diverge in Hd |- *;
    destruct (serve_buffer clock wall write_fault fuel (w, (p, bm_put b c))) as [o [w1 c1]]; cbn [fst snd] in *;
    destruct (serve_commands cs w) as [[[]|ex| |] w2]; try (by simplify_eq).
  - injection Hd as -> ->. cbn [snd] in IH. rewrite (Hst eq_refl). exact IH.
  - destruct (handle_protocol_error clock write_fault w2) as [[[]|?| |] w3];
      unfold mret, M_ret in *; by simplify_eq.
Qed.

End connection.

(** ** Accounting *)

(** [accounted n errs mt mt']: [n] requests more, [errs] of them answered with
    an error, each with one latency sample, and none left in flight. The
    counters are modulo 2^64. *)
Record accounted (n errs : Z) (mt mt' : Metrics) : Prop := {
  acc_requests : wrap64 (requests_total mt') = wrap64 (requests_total mt + n);
  acc_errors : wrap64 (errors_total mt') = wrap64 (errors_total mt + errs);
  acc_inflight : wrap64 (inflight mt') = wrap64 (inflight mt);
  acc_samples : wrap64 (h_samples (latency mt')) = wrap64 (h_samples (latency mt) + n)
}.

Lemma accounted_zero mt : accounted 0 0 mt mt.
Proof. by split; rewrite ?Z.add_0_r. Qed.

Lemma wrap64_add_cong a a' b : wrap64 a = wrap64 a' -> wrap64 (a + b) = wrap64 (a' + b).
Proof. intros Ha. by rewrite <- (wrap64_add_l a), Ha, wrap64_add_l. Qed.

Lemma accounted_trans n1 e1 n2 e2 m1 m2 m3 :
  accounted n1 e1 m1 m2 -> accounted n2 e2 m2 m3 -> accounted (n1 + n2) (e1 + e2) m1 m3.
Proof.
  intros [] []. split.
  - rewrite Z.add_assoc. etrans; [done|]. by apply wrap64_add_cong.
  - rewrite Z.add_assoc. etrans; [done|]. by apply wrap64_add_cong.
  - congruence.
  - rewrite Z.add_assoc. etrans; [done|]. by apply wrap64_add_cong.
Qed.

Lemma wrap64_wrap a : wrap64 (wrap64 a) = wrap64 a.
Proof. apply Z.mod_mod. done. Qed.

(** The counters at the end of a request of which [d] is the latency. *)
Definition request_metrics (err : bool) (d : Duration) (mt : Metrics) : Metrics :=
  record_request_end d ((if err then record_error else id) (record_request_start mt)).

Lemma request_accounted (err : bool) d mt : accounted 1 (if err then 1 else 0) mt (request_metrics err d mt).
Proof.
  split; destruct err; cbn; rewrite ?wrap64_wrap, ?Z.add_0_r, ?wrap64_sub_l, ?wrap64_wrap; try done.
  all: try (by replace (inflight mt + 1 - 1)%Z with (inflight mt) by lia).
Qed.

(** ** Requests and sessions *)

Definition count_errors (vs : list RespValue) : Z := Z.of_nat (length (filter (fun v => is_error_value v = true) vs)).

Section session.
Context `{KVEngineLaws E} (clock : nat -> Instant) (wall : nat -> SystemTime) (write_fault : nat -> option nat).

Abbreviation World := (World E).

(** Replies of a sequence of commands, at clock readings not before the [t]-th,
    each command with the metrics of its time. *)
Inductive serves_all (b : bool) : nat -> list Command -> store -> list RespValue -> store -> Prop :=
| serves_nil t m : serves_all b t [] m [] m
| serves_cons t t0 mt c cs m v m1 vs m2 :
    t <= t0 -> serves b mt (clock <$> seq t0 (readings c)) c m v m1 ->
    serves_all b (t0 + readings c) cs m1 vs m2 -> serves_all b t (c :: cs) m (v :: vs) m2.

Lemma serves_all_later b t t' cs m vs m' : t' <= t -> serves_all b t cs m vs m' -> serves_all b t' cs m vs m'.
Proof. intros Ht Hs. inversion Hs; subst; [constructor|]. econstructor; [|done..]. lia. Qed.

(** The world once a request is counted and timed. *)
Definition started (w : World) : World :=
  mkWorld (w_engine w) (record_request_start (w_metrics w)) (w_log w) (S (w_ticks w)) (w_out w) (w_writes w).

Lemma tracked_run (respond : M World io_error bytes) (w : World) resp e log t :
  respond (started w) = (Val resp, moved e log t (started w)) ->
  tracked clock write_fault respond w
  = (match write_fault (w_writes w) with None => Val tt | Some _ => Err WriteFailed end,
     mkWorld e (request_metrics (is_error_response resp) (saturating_sub (clock t) (clock (w_ticks w))) (w_metrics w))
       log (S t) (w_out w ++ match write_fault (w_writes w) with None => resp | Some n => take n resp end)
       (S (w_writes w))).
Proof.
  intros Hrun. unfold tracked, modify_metrics. rewrite bind_modify.
  unfold instant_now, tick. unfold mbind at 1, M_bind at 1. unfold mbind at 1, M_bind at 1.
  cbn [mret M_ret w_ticks w_engine w_metrics w_log w_out w_writes]. fold (started w).
  rewrite (bind_val _ _ _ _ _ Hrun).
  unfold write_all. unfold mbind at 1, M_bind at 1. unfold finish_tracked_request, modify_metrics.
  cbn [moved started w_writes]. by destruct (write_fault (w_writes w)), (is_error_response resp).
Qed.

(** One request, whatever becomes of its write. *)
Lemma request_run b (w : World) m args :
  kv_rep b (w_engine w) m -> command_fits clock (decode args) ->
  exists v m' w' t0,
    handle_request clock wall write_fault args w
      = (match write_fault (w_writes w) with None => Val tt | Some _ => Err WriteFailed end, w')
    /\ serves b (record_request_start (w_metrics w)) (clock <$> seq t0 (readings (decode args))) (decode args) m v m'
    /\ kv_rep b (w_engine w') m'
    /\ w_ticks w <= t0 /\ t0 + readings (decode args) <= w_ticks w'
    /\ w_out w' = w_out w ++ match write_fault (w_writes w) with None => enc_value v | Some n => take n (enc_value v) end
    /\ w_writes w' = S (w_writes w)
    /\ accounted 1 (if is_error_value v then 1 else 0) (w_metrics w) (w_metrics w')
    /\ w_log w' = log_with (stamp wall (S (w_ticks w)) (command_events (decode args))) (w_log w).
Proof.
  intros Hr Hf.
  destruct (dispatch_run clock wall b (started w) args m Hr Hf) as (v & m' & e & n & E1 & Hs & Hr1).
  unfold handle_request. rewrite (tracked_run _ _ _ _ _ _ E1), (serves_wf _ _ _ _ _ _ _ Hs).
  do 3 eexists. exists (w_ticks (started w) + n).
  split_and!; [done|exact Hs|done|cbn; lia|cbn; lia|done..| |done]. apply request_accounted.
Qed.

Lemma session_run b cmds : forall (w : World) m,
  kv_rep b (w_engine w) m -> Forall (fun args => command_fits clock (decode args)) cmds ->
  (forall i, write_fault i = None) ->
  exists vs m' w' evs,
    serve_commands clock wall write_fault cmds w = (Val tt, w')
    /\ serves_all b (w_ticks w) (decode <$> cmds) m vs m' /\ kv_rep b (w_engine w') m'
    /\ w_out w' = w_out w ++ concat (enc_value <$> vs)
    /\ accounted (Z.of_nat (length cmds)) (count_errors vs) (w_metrics w) (w_metrics w')
    /\ w_log w' = log_with evs (w_log w)
    /\ (exists times, evs = zip_with (fun f t => f t) (concat (command_events ∘ decode <$> cmds)) times
          /\ length times = length (concat (command_events ∘ decode <$> cmds))).
Proof.
  induction cmds as [|args cmds IH]; intros w m Hr Hf Hw.
  { exists [], m, w, []. simpl. split_and!; try done; [constructor|by rewrite app_nil_r|apply accounted_zero| |].
    - unfold log_with. destruct (w_log w); simpl; by rewrite ?app_nil_r.
    - by exists []. }
  apply Forall_cons in Hf as [Hfa Hf].
  destruct (request_run b w m args Hr Hfa) as (v & m1 & w1 & t0 & E1 & Hs & Hr1 & Ht0 & Ht1 & Ho1 & _ & Ha1 & Hl1).
  rewrite Hw in E1, Ho1.
  destruct (IH w1 m1 Hr1 Hf Hw) as (vs & m2 & w2 & evs & E2 & Hs2 & Hr2 & Ho2 & Ha2 & Hl2 & times & Hev & Htl).
  exists (v :: vs), m2, w2, (stamp wall (S (w_ticks w)) (command_events (decode args)) ++ evs).
  cbn [serve_commands]. rewrite (bind_val _ _ _ _ _ E1). split_and!; try done.
  - rewrite fmap_cons. econstructor; [exact Ht0|exact Hs|]. by apply (serves_all_later b (w_ticks w1)).
  - rewrite Ho2, Ho1, fmap_cons. cbn [concat]. by rewrite app_assoc.
  - replace (Z.of_nat (length (args :: cmds))) with (1 + Z.of_nat (length cmds))%Z by (cbn [length]; lia).
    replace (count_errors (v :: vs)) with ((if is_error_value v then 1 else 0) + count_errors vs)%Z.
    + by eapply accounted_trans.
    + unfold count_errors. rewrite filter_cons. destruct (is_error_value v); [rewrite decide_True|rewrite decide_False]; simpl; try done; lia.
  - rewrite Hl2, Hl1. unfold log_with. destruct (w_log w); simpl; by rewrite ?app_assoc.
  - exists (imap (fun i _ => wall (S (w_ticks w) + i)%nat) (command_events (decode args)) ++ times).
    rewrite fmap_cons. cbn [concat compose]. rewrite Hev. split.
    + rewrite zip_with_app by (by rewrite length_imap). f_equal. unfold stamp.
      generalize (S (w_ticks w)). generalize (command_events (decode args)). clear.
      intros l. induction l as [|f l IHl]; intros t; [done|]. rewrite !imap_cons. simpl. f_equal.
      etrans; [|etrans; [apply (IHl (S t))|]]; [|f_equal]; apply imap_ext; intros; simpl; f_equal; try f_equal; lia.
    + by rewrite !length_app, length_imap, Htl.
Qed.

End session.
