(* ===== verification/EndToEnd.v ===== *)
(** * From the client to the server and back

    The client's encoder and reader (hkv-client/src/resp.rs) around a server
    connection (hkv-server/src/server.rs) on any lawful engine, and the
    properties of a connection on any input. *)

From S2P Require Import Prelude Decimal Errors KVEngine RespClient RespClientThms.
From S2P Require Import RespParser RespParserThms RespThms Observation F64 Metrics Server ServerSpec ServerThms.
From S2P Require Engine EngineKV EngineThms.

(** ** Replies the client can read *)

Definition deadlines_fit (m : store) : Prop :=
  forall k v t, m !! k = Some (v, Some t) -> (t < instant_limit)%Z.

Lemma deadlines_sub m m' : m' ⊆ m -> deadlines_fit m -> deadlines_fit m'.
Proof. intros Hs Hd k v t Hk. eapply Hd, lookup_weaken; [exact Hk|done]. Qed.

Lemma deadlines_insert m k v d :
  deadlines_fit m -> (forall t, d = Some t -> (t < instant_limit)%Z) -> deadlines_fit (<[k := (v, d)]> m).
Proof.
  intros Hd Hn k' v' t. rewrite lookup_insert. case_decide; [intros [= <- ->]; by apply Hn|apply Hd].
Qed.

Lemma m_touch_sub t k m : m_touch t k m ⊆ m.
Proof. unfold m_touch. destruct (m_live t k m); [done|apply delete_subseteq]. Qed.

Lemma shrinks_sub b m m' : shrinks b m m' -> m' ⊆ m.
Proof. destruct b; simpl; [done|by intros ->]. Qed.

Lemma m_del_sub ts : forall ks m, snd (m_del ts ks m) ⊆ m /\ (0 <= fst (m_del ts ks m) <= Z.of_nat (length ks))%Z.
Proof.
  induction ts as [|t ts IH]; intros [|k ks] m; simpl; try (split; [done|lia]).
  specialize (IH ks (delete k m)). destruct (m_del ts ks (delete k m)) as [n m']. simpl in *.
  destruct IH as [Hs Hn]. split; [etrans; [exact Hs|apply delete_subseteq]|]. case_bool_decide; lia.
Qed.

Section replies.
Context (clock : nat -> Instant) (Hclock : forall i, (0 <= clock i)%Z).

Lemma serves_deadlines b mt t0 n c m v m' :
  serves b mt (clock <$> seq t0 n) c m v m' -> command_fits clock c -> deadlines_fit m -> deadlines_fit m'.
Proof.
  intros Hs Hf Hd. remember (clock <$> seq t0 n) as ts eqn:Hts. revert Hts.
  destruct Hs as [m|x m|t k m|t k v m m' Hsh|t k v s m m' Hsh|ts ks m _|t k s m|t k m|t m|x m]; intros Hts; try done.
  - eapply deadlines_sub; [apply m_touch_sub|done].
  - eapply deadlines_sub; [by eapply shrinks_sub|]. by apply deadlines_insert.
  - destruct n as [|[|n]]; try done. injection Hts as ->.
    eapply deadlines_sub; [by eapply shrinks_sub|]. apply deadlines_insert; [done|]. intros t [= <-]. apply Hf.
  - eapply deadlines_sub; [apply m_del_sub|done].
  - destruct n as [|[|n]]; try done. injection Hts as ->. unfold m_expire.
    destruct (m_live _ k m) as [[v d]|]; simpl.
    + apply deadlines_insert; [done|]. intros t [= <-]. apply Hf.
    + eapply deadlines_sub; [apply delete_subseteq|done].
  - eapply deadlines_sub; [apply m_touch_sub|done].
Qed.

Lemma as_i64_small z : (0 <= z < 2 ^ 63)%Z -> as_i64 z = z.
Proof.
  intros Hz. unfold as_i64. rewrite wrap64_small by (unfold u64_modulus; lia).
  by rewrite (proj2 (Z.ltb_lt _ _)) by lia.
Qed.

Lemma ttl_number_range t k m :
  (0 <= t)%Z -> deadlines_fit m -> (-2 <= ttl_number (m_ttl t k m) < 2 ^ 63)%Z.
Proof.
  intros Ht Hd. unfold m_ttl, m_live. destruct (m !! k) as [[v [d|]]|] eqn:Hk; simpl; [|lia..].
  pose proof (Hd _ _ _ Hk) as Hdl.
  destruct (Z.leb_spec d t); simpl; [lia|]. unfold as_secs, nanos_per_sec, instant_limit in *.
  assert (0 <= (d - t) / 1000000000 < 2 ^ 63)%Z.
  { split; [apply Z.div_pos; lia|]. apply Z.div_lt_upper_bound; lia. }
  rewrite as_i64_small; lia.
Qed.

Lemma no_lf (s : bytes) : bool_decide (LF ∉ s) = true -> LF ∉ s.
Proof. apply bool_decide_eq_true_1. Qed.

Lemma decode_bad_text args x : decode args = CBad x -> LF ∉ x.
Proof.
  intros Hd. apply no_lf. revert Hd. destruct args as [|name rest]; [by intros [= <-]|].
  unfold decode, wrong_arity, decode_set, decode_expire.
  repeat case_match; try done; by intros [= <-].
Qed.

Lemma serves_reply_wf value_size b mt t0 n args m v m' :
  serves b mt (clock <$> seq t0 n) (decode args) m v m' -> deadlines_fit m ->
  in_memory (enc_value v) -> (Z.of_nat (length args) <= i64_max)%Z -> value_wf value_size v.
Proof.
  intros Hs Hd Hm Ha. remember (clock <$> seq t0 n) as ts eqn:Hts. remember (decode args) as c eqn:Hc.
  assert (Hbulk : forall d, in_memory (enc_value (Bulk (Some d))) -> (Z.of_nat (length d) <= i64_max)%Z).
  { unfold in_memory, i64_max. intros d. cbn [enc_value]. rewrite !length_app. lia. }
  assert (Hkeys : forall ks, CDel ks = decode args -> length ks <= length args).
  { clear. intros ks Hk. destruct args as [|name rest]; [done|].
    unfold decode, wrong_arity, decode_set, decode_expire in Hk. repeat case_match; try done.
    injection Hk as ->. simpl. lia. }
  revert Hts Hc Hm. destruct Hs; intros Hts Hc Hm; try done; try (by apply Hbulk).
  - by apply no_lf.
  - simpl. destruct (m_live t k m) as [[]|]; [by apply Hbulk|done].
  - by apply no_lf.
  - by apply no_lf.
  - pose proof (proj2 (m_del_sub ts ks m)). specialize (Hkeys _ Hc). simpl. lia.
  - simpl. unfold i64_max. case_match; lia.
  - destruct n as [|[|n]]; try done. injection Hts as ->.
    pose proof (ttl_number_range (clock t0) k m (Hclock _) Hd). simpl. unfold i64_max. lia.
  - symmetry in Hc. apply decode_bad_text in Hc. change (LF ∉ lit "ERR " ++ x). intros [Hx|Hx]%elem_of_app; [|done].
    revert Hx. by apply no_lf.
Qed.

Lemma serves_all_wf value_size b cmds : forall t m vs m',
  serves_all clock b t (decode <$> cmds) m vs m' -> deadlines_fit m ->
  Forall (fun args => command_fits clock (decode args)) cmds ->
  in_memory (concat (enc_value <$> vs)) -> Forall (fun args => Z.of_nat (length args) <= i64_max)%Z cmds ->
  Forall (value_wf value_size) vs.
Proof.
  induction cmds as [|args cmds IH]; intros t m vs m' Hs Hd Hf Hm Hl; inversion Hs; subst; [constructor|].
  apply Forall_cons in Hf as [Hfa Hf]. apply Forall_cons in Hl as [Hla Hl].
  rewrite fmap_cons in Hm. cbn [concat] in Hm. constructor.
  - eapply serves_reply_wf; [done|done| |done]. revert Hm. apply in_memory_le. rewrite length_app. lia.
  - eapply IH; [done|by eapply serves_deadlines|done| |done]. revert Hm. apply in_memory_le. rewrite length_app. lia.
Qed.

End replies.

(** ** Connections *)

Section connection.
Context `{KVEngineLaws E} (clock : nat -> Instant) (wall : nat -> SystemTime) (write_fault : nat -> option nat).
Context `{Profile} `{BytesMutLaws B}.

Abbreviation World := (World E).
Abbreviation handle_connection := (handle_connection_with_observation clock wall write_fault).

Lemma connection_feed (b0 : B) chunks read_end (w : World) cmds e :
  Forall (fun c => c <> []) chunks -> fst (feed chunks (parser_new, b0)) = (cmds, e) ->
  handle_connection b0 chunks read_end w
  = (serve_commands clock wall write_fault cmds;;
     stream_stop clock write_fault (match read_end with Ok _ => mret tt | Error x => throw x end) tt e) w.
Proof.
  intros Hne Hf. pose proof (read_loop_feed clock wall write_fault read_end chunks w parser_new b0 Hne) as Hl.
  destruct (feed chunks (parser_new, b0)) as [[cs e'] s]. simpl in Hf. injection Hf as -> ->.
  rewrite <- Hl. unfold handle_connection_with_observation, shown.
  by destruct (read_loop _ _ _ _ _ _) as [o [w' c]].
Qed.

Lemma protocol_error_run (w : World) :
  (forall i, write_fault i = None) ->
  exists w', handle_protocol_error clock write_fault w = (Val tt, w')
    /\ w_engine w' = w_engine w /\ w_log w' = w_log w
    /\ w_out w' = w_out w ++ enc_value (ErrorReply (lit "ERR protocol error"))
    /\ accounted 1 1 (w_metrics w) (w_metrics w').
Proof.
  intros Hw. unfold handle_protocol_error.
  rewrite (tracked_run clock write_fault (mret (resp_error (lit "protocol error"))) w _
    (w_engine w) (w_log w) (S (w_ticks w)) eq_refl), Hw.
  eexists. split_and!; try done. by apply (request_accounted true).
Qed.

End connection.

(** C13: a dispatched command does what the command specification says, on any
    lawful engine, with or without a capacity, unless it asks for a deadline the
    clock cannot represent (which panics the task): the reply is the specified one,
    the engine holds the specified map (the engine's clock readings fall within
    the call), and the observation log grows by exactly the accesses of a
    command that succeeded; metrics and socket are left alone. *)
Theorem command_semantics `{KVEngineLaws E} clock wall b (w : World E) m args :
  kv_rep b (w_engine w) m -> command_fits clock (decode args) ->
  exists v m' w' t0,
    dispatch_command clock wall args w = (Val (enc_value v), w')
    /\ serves b (w_metrics w) (clock <$> seq t0 (readings (decode args))) (decode args) m v m'
    /\ kv_rep b (w_engine w') m'
    /\ w_ticks w <= t0 /\ t0 + readings (decode args) = w_ticks w'
    /\ w_log w' = (fun log => log ++ stamp wall (w_ticks w) (command_events (decode args))) <$> w_log w
    /\ w_metrics w' = w_metrics w /\ w_out w' = w_out w.
Proof.
  intros Hr Hf. destruct (dispatch_run clock wall b w args m Hr Hf) as (v & m' & e & n & E1 & Hs & Hr1).
  exists v, m'. eexists. exists (w_ticks w + n). rewrite E1. split_and!; try done. lia.
Qed.

(** An empty engine with one shard, no observations yet, and a clock that
    ticks a hundred times. *)
Definition hash0 (k : bytes) : Z := 0.
Definition engine0 : KVEngine Engine.MemoryEngine := EngineKV.memory_engine (H := release_profile) hash0.
Definition laws0 : @KVEngineLaws _ engine0 := EngineKV.memory_engine_laws (H := release_profile) hash0.
Definition clock0 (i : nat) : Z := Z.min (Z.of_nat i) 100.
Definition w0 : World Engine.MemoryEngine :=
  mkWorld (EngineThms.fresh 1 usize_max) (metrics_new 0) (Some []) 0 [] 0.

Lemma w0_rep : @kv_rep _ _ laws0 false (w_engine w0) ∅.
Proof. exact (EngineThms.fresh_kv (H := release_profile) hash0 0 false usize_max ltac:(lia) eq_refl). Qed.

Lemma clock0_fits n : (0 <= n < 2 ^ 32)%Z -> forall i, (clock0 i + from_secs n < instant_limit)%Z.
Proof. intros Hn i. unfold clock0, from_secs, nanos_per_sec, instant_limit. lia. Qed.

Lemma command_semantics_witness :
  let args := [lit "set"; lit "k"; lit "v"; lit "ex"; lit "12"] in
  decode args = CSet (lit "k") (lit "v") (Some 12%Z)
  /\ exists v m' w' t0,
    dispatch_command (H := engine0) clock0 clock0 args w0 = (Val (enc_value v), w')
    /\ serves false (w_metrics w0) (clock0 <$> seq t0 1) (decode args) ∅ v m'
    /\ @kv_rep _ _ laws0 false (w_engine w') m' /\ 0 <= t0 /\ t0 + 1 = w_ticks w'
    /\ w_log w' = Some [event_write CmdSet (lit "k") (Some 1%Z) 0%Z]
    /\ w_metrics w' = w_metrics w0 /\ w_out w' = [].
Proof.
  intros args. split; [reflexivity|].
  apply (command_semantics (H := engine0) (H0 := laws0) clock0 clock0 false w0 ∅ args w0_rep).
  exact (clock0_fits 12 ltac:(lia)).
Defined.

(** C34: two clients' byte streams that are equal up to how they are cut into
    reads give the same connection: the same outcome, engine, replies, metrics
    and observations, whatever the engine does and whichever writes fail. *)
Theorem connection_chunking_irrelevant `{KVEngine E} `{Profile} `{BytesMutLaws B}
    clock wall write_fault (b0 : B) chunks1 chunks2 read_end (w : World E) :
  bm_bytes b0 = [] -> Forall (fun c => c <> []) chunks1 -> Forall (fun c => c <> []) chunks2 ->
  concat chunks1 = concat chunks2 -> in_memory (concat chunks1) ->
  handle_connection_with_observation clock wall write_fault b0 chunks1 read_end w
  = handle_connection_with_observation clock wall write_fault b0 chunks2 read_end w.
Proof.
  intros Hb Hn1 Hn2 Hc Hm.
  assert (Hf : seen (feed chunks1 (parser_new, b0)) = seen (feed chunks2 (parser_new, b0))).
  { rewrite (feed_new_transfer chunks1 b0 Hb), (feed_new_transfer chunks2 b0 Hb), (feed_new chunks1 Hm).
    rewrite feed_new by (by rewrite <- Hc). by rewrite Hc. }
  unfold seen in Hf. destruct (fst (feed chunks2 (parser_new, b0))) as [cmds e] eqn:E2.
  by rewrite (connection_feed _ _ _ _ _ _ _ _ _ Hn1 Hf), (connection_feed _ _ _ _ _ _ _ _ _ Hn2 E2).
Qed.

Lemma connection_chunking_irrelevant_witness :
  let run chunks := handle_connection_with_observation (H := engine0) (H0 := release_profile)
    clock0 clock0 (fun _ => None) (@nil byte) chunks (Ok tt) w0 in
  run [lit "PI"; lit "NG" ++ crlf ++ lit "TTL"; lit " k" ++ crlf] = run [lit "PING" ++ crlf ++ lit "TTL k" ++ crlf].
Proof.
  apply (connection_chunking_irrelevant (H := engine0) (H0 := release_profile) clock0 clock0 (fun _ => None) (@nil byte)).
  - reflexivity.
  - repeat constructor; discriminate.
  - repeat constructor; discriminate.
  - reflexivity.
  - reflexivity.
Defined.

(** C14: a connection whose commands ask for no deadline beyond the clock's
    range, and whose writes succeed (for one that fails see
    [write_failure_is_accounted]), serves the commands its bytes parse to, in
    order: each is answered as specified, the replies are written one after the other, every
    request is counted once with its errors, its latency sample and nothing
    left in flight. When the parser waits at the end of the stream the task
    ends as the stream did; a malformed request is answered with a protocol
    error, counted as one, and ends the task without an error. *)
Theorem connection_serves_stream `{KVEngineLaws E} `{Profile} `{BytesMutLaws B}
    clock wall write_fault (b0 : B) chunks read_end b (w : World E) m cmds e :
  Forall (fun c => c <> []) chunks -> fst (feed chunks (parser_new, b0)) = (cmds, e) ->
  (forall i, write_fault i = None) ->
  kv_rep b (w_engine w) m -> Forall (fun args => command_fits clock (decode args)) cmds ->
  exists vs m' o w',
    handle_connection_with_observation clock wall write_fault b0 chunks read_end w = (o, w')
    /\ serves_all clock b (w_ticks w) (decode <$> cmds) m vs m' /\ kv_rep b (w_engine w') m'
    /\ let replies := concat (enc_value <$> vs) in
       match e with
       | Val _ => o = match read_end with Ok _ => Val tt | Error x => Err x end /\ w_out w' = w_out w ++ replies
           /\ accounted (Z.of_nat (length cmds)) (count_errors vs) (w_metrics w) (w_metrics w')
       | Err _ => o = Val tt /\ w_out w' = w_out w ++ replies ++ lit "-ERR protocol error" ++ crlf
           /\ accounted (Z.of_nat (length cmds) + 1) (count_errors vs + 1) (w_metrics w) (w_metrics w')
       | Panic => o = Panic /\ w_out w' = w_out w ++ replies
       | Diverge => o = Diverge
       end.
Proof.
  intros Hne Hf Hw Hr Hfit.
  destruct (session_run clock wall write_fault b cmds w m Hr Hfit Hw) as (vs & m' & w1 & evs & E1 & Hs & Hr1 & Ho & Ha & _).
  exists vs, m'. rewrite (connection_feed _ _ _ _ _ _ _ _ _ Hne Hf), (bind_val _ _ _ _ _ E1).
  destruct e as [[]|x| |]; cbn [stream_stop].
  - exists (match read_end with Ok _ => Val tt | Error x => Err x end), w1. by destruct read_end as [[]|].
  - destruct (protocol_error_run clock write_fault w1 Hw) as (w2 & E2 & He & _ & Ho2 & Ha2).
    exists (Val tt), w2. rewrite (bind_val _ _ _ _ _ E2). split_and!; try done.
    + by rewrite He.
    + rewrite Ho2, Ho. by rewrite <- app_assoc.
    + by eapply accounted_trans.
  - by exists Panic, w1.
  - by exists Diverge, w1.
Qed.

Lemma connection_serves_stream_witness :
  exists vs m' o w',
    handle_connection_with_observation (H := engine0) (H0 := release_profile) clock0 clock0 (fun _ => None) (@nil byte)
      [lit "SET k v" ++ crlf; lit "GET k" ++ crlf ++ lit "*x" ++ crlf] (Ok tt) w0 = (o, w')
    /\ serves_all clock0 false 0 [CSet (lit "k") (lit "v") None; CGet (lit "k")] ∅ vs m'
    /\ @kv_rep _ _ laws0 false (w_engine w') m'
    /\ o = Val tt /\ w_out w' = [] ++ concat (enc_value <$> vs) ++ lit "-ERR protocol error" ++ crlf
    /\ accounted 3 (count_errors vs + 1) (w_metrics w0) (w_metrics w').
Proof.
  apply (connection_serves_stream (H := engine0) (H0 := laws0) (H1 := release_profile) clock0 clock0 (fun _ => None) (@nil byte)
    [lit "SET k v" ++ crlf; lit "GET k" ++ crlf ++ lit "*x" ++ crlf] (Ok tt) false w0 ∅
    [[lit "SET"; lit "k"; lit "v"]; [lit "GET"; lit "k"]] (Err ProtocolError)).
  - repeat constructor; discriminate.
  - vm_compute. reflexivity.
  - reflexivity.
  - exact w0_rep.
  - repeat constructor.
Defined.

(** A reply that cannot be written ends the task with the error of the
    write, but the command has been carried out and the request is accounted
    for: counted, timed and no longer in flight. *)
Theorem write_failure_is_accounted `{KVEngineLaws E} clock wall write_fault b (w : World E) m args n :
  write_fault (w_writes w) = Some n -> kv_rep b (w_engine w) m -> command_fits clock (decode args) ->
  exists v m' w' t0 mt0, handle_request clock wall write_fault args w = (Err WriteFailed, w')
    /\ serves b mt0 (clock <$> seq t0 (readings (decode args))) (decode args) m v m' /\ kv_rep b (w_engine w') m'
    /\ w_out w' = w_out w ++ take n (enc_value v)
    /\ accounted 1 (if is_error_value v then 1 else 0) (w_metrics w) (w_metrics w').
Proof.
  intros Hw Hr Hf.
  destruct (request_run clock wall write_fault b w m args Hr Hf)
    as (v & m' & w' & t0 & E1 & Hs & Hr1 & _ & _ & Ho & _ & Ha & _).
  rewrite Hw in *. exists v, m', w', t0, (record_request_start (w_metrics w)). by split_and!.
Qed.

Lemma write_failure_is_accounted_witness :
  exists v m' w' t0 mt0,
    handle_request (H := engine0) clock0 clock0 (fun _ => Some 2) [lit "GET"; lit "k"] w0 = (Err WriteFailed, w')
    /\ serves false mt0 (clock0 <$> seq t0 1) (CGet (lit "k")) ∅ v m' /\ @kv_rep _ _ laws0 false (w_engine w') m'
    /\ w_out w' = [] ++ take 2 (enc_value v)
    /\ accounted 1 (if is_error_value v then 1 else 0) (w_metrics w0) (w_metrics w').
Proof.
  apply (write_failure_is_accounted (H := engine0) (H0 := laws0) clock0 clock0 (fun _ => Some 2) false w0 ∅ [lit "GET"; lit "k"] 2).
  - reflexivity.
  - exact w0_rep.
  - exact I.
Defined.

(** C15: end to end: a client pipelines commands that fit the memory and ask for
    no deadline beyond the clock's range, with its encoder, cut into reads in any
    way; over a connection whose writes succeed the server answers them as
    specified, and the client's reader gets back exactly these replies, in order,
    with nothing left over. *)
Theorem client_server_roundtrip `{KVEngineLaws E} `{Profile} `{BytesMutLaws B}
    clock wall write_fault (b0 : B) chunks b (w : World E) m cmds wires value_size :
  Forall small_args cmds -> Forall2 (fun c x => encode_command c [] = Some x) cmds wires ->
  concat chunks = concat wires -> in_memory (concat chunks) ->
  Forall (fun c => c <> []) chunks -> bm_bytes b0 = [] ->
  (forall i, write_fault i = None) -> (forall i, 0 <= clock i)%Z ->
  kv_rep b (w_engine w) m -> deadlines_fit m ->
  Forall (fun args => command_fits clock (decode args) /\ Z.of_nat (length args) <= i64_max)%Z cmds -> w_out w = [] ->
  exists vs m' w', handle_connection_with_observation clock wall write_fault b0 chunks (Ok tt) w = (Val tt, w')
    /\ serves_all clock b (w_ticks w) (decode <$> cmds) m vs m' /\ kv_rep b (w_engine w') m'
    /\ (in_memory (w_out w') -> forall buf, exists buf',
          read_all value_size (length cmds) (mkReader (w_out w') None, buf) = (Val vs, (mkReader [] None, buf'))).
Proof.
  intros Hsm Hwires Hc Hm Hne Hb Hw Hclk Hr Hd Hfit Hout.
  assert (Hf : fst (feed chunks (parser_new, b0)) = (cmds, Val tt)).
  { change (seen (feed chunks (parser_new, b0)) = (cmds, Val tt)).
    rewrite feed_new_transfer, feed_new by done. rewrite Hc in *.
    rewrite (encoded_wires _ _ Hsm Hwires) in *. by apply drain_commands. }
  apply Forall_and in Hfit as [Hfit Hlen].
  destruct (session_run clock wall write_fault b cmds w m Hr Hfit Hw) as (vs & m' & w1 & evs & E1 & Hs & Hr1 & Ho & _).
  exists vs, m', w1. rewrite (connection_feed _ _ _ _ _ _ _ _ _ Hne Hf), (bind_val _ _ _ _ _ E1).
  split_and!; try done. rewrite Ho, Hout. cbn [app]. intros Hmo buf.
  assert (length cmds = length vs) as ->.
  { clear -Hs. remember (decode <$> cmds) as cs eqn:Hcs. revert cmds Hcs.
    induction Hs as [|? ? ? ? ? ? ? ? ? ? ? ? Hs IH]; intros [|c0 cmds] Hcs; try done.
    simpl. f_equal. apply IH. by injection Hcs. }
  rewrite <- (app_nil_r (concat (enc_value <$> vs))).
  apply read_all_back. by eapply serves_all_wf.
Qed.

Lemma client_server_roundtrip_witness :
  let wire := lit "*3" ++ crlf ++ lit "$3" ++ crlf ++ lit "SET" ++ crlf ++ lit "$1" ++ crlf ++ lit "k" ++ crlf
    ++ lit "$2" ++ crlf ++ [CR; LF] ++ crlf in
  exists vs m' w', handle_connection_with_observation (H := engine0) (H0 := release_profile)
      clock0 clock0 (fun _ => None) (@nil byte) [take 9 wire; drop 9 wire] (Ok tt) w0 = (Val tt, w')
    /\ serves_all clock0 false 0 [CSet (lit "k") [CR; LF] None] ∅ vs m' /\ @kv_rep _ _ laws0 false (w_engine w') m'
    /\ (in_memory (w_out w') -> forall buf, exists buf',
          read_all 32 1 (mkReader (w_out w') None, buf) = (Val vs, (mkReader [] None, buf'))).
Proof.
  intros wire.
  apply (client_server_roundtrip (H := engine0) (H0 := laws0) (H1 := release_profile) clock0 clock0 (fun _ => None)
    (@nil byte) [take 9 wire; drop 9 wire] false w0 ∅ [[lit "SET"; lit "k"; [CR; LF]]] [wire] 32).
  - repeat constructor; vm_compute; discriminate.
  - repeat constructor.
  - reflexivity.
  - reflexivity.
  - repeat constructor; discriminate.
  - reflexivity.
  - reflexivity.
  - intros i. unfold clock0. lia.
  - exact w0_rep.
  - intros k v t. by rewrite lookup_empty.
  - repeat constructor. vm_compute. discriminate.
  - reflexivity.
Defined.
