(* ===== verification/ServerConc.v ===== *)
(** * Connections that run at the same time (hkv-server/src/server.rs, metrics.rs)

    The tasks of a server as programs of actions: a call of the engine, an update
    of one counter, an event for the log, a read from the task's own socket, a
    write to it.
    Server.v has the same code as it runs in one task. In Process.v the tasks
    interleave action by action, and a call of the engine is not one action but
    the program of EngineConc.v. *)

From S2P Require Import Prelude Threads Errors KVEngine RespParser Observation F64 Metrics Server.

(** ** Actions *)

(** The atomic cells of [Metrics]. *)
Inductive Cell : Type :=
| CRequests
| CErrors
| CInflight
| CBucket (i : nat)
| CSamples
| CSum
| CMax.

Inductive SAct : Type -> Type :=
| ANow : SAct Instant
| AWall : SAct SystemTime
| ACall (o : Op) : SAct (outcome HkvError Reply)
| ARecord (ev : ObservationEvent) : SAct unit
| ARead : SAct unit
| AWrite (response : bytes) : SAct (result unit io_error)
| AFetchAdd (c : Cell) (n : Z) : SAct unit
| ALoad (c : Cell) : SAct Z
| ACompareExchange (c : Cell) (current new : Z) : SAct (result unit Z).

Abbreviation SProg := (Prog SAct io_error).

(** ** Metrics *)

Section metrics.
Context (bounds_us : list Z) (started : Instant) (fuel : nat).

Definition p_record_request_start : SProg unit :=
  act (AFetchAdd CRequests 1);; act (AFetchAdd CInflight 1).

Definition p_record_error : SProg unit := act (AFetchAdd CErrors 1).

(** [fuel] bounds the attempts of the compare-exchange. *)
Fixpoint p_update_max_loop (fuel : nat) (current value : Z) : SProg unit :=
  match fuel with
  | O => Ret Diverge
  | S fuel' =>
      if (current <? value)%Z then
        r ← act (ACompareExchange CMax current value);
        match r with Ok _ => mret tt | Error observed => p_update_max_loop fuel' observed value end
      else mret tt
  end.

Definition p_update_max (value : Z) : SProg unit :=
  current ← act (ALoad CMax); p_update_max_loop fuel current value.

Definition p_hist_record (latency : Duration) : SProg unit :=
  let micros := as_micros_u64 latency in
  act (AFetchAdd CSamples 1);;
  act (AFetchAdd CSum micros);;
  p_update_max micros;;
  act (AFetchAdd (CBucket (bucket_index bounds_us micros)) 1).

Definition p_record_request_end (latency : Duration) : SProg unit :=
  act (AFetchAdd CInflight (-1));; p_hist_record latency.

(** [buckets.iter().map(load).collect()]. *)
Fixpoint p_load_buckets (is_ : list nat) : SProg (list Z) :=
  match is_ with
  | [] => mret []
  | i :: is' => n ← act (ALoad (CBucket i)); ns ← p_load_buckets is'; mret (n :: ns)
  end.

Definition p_hist_snapshot : SProg LatencySnapshot :=
  buckets ← p_load_buckets (seq 0 (S (length bounds_us)));
  samples ← act (ALoad CSamples);
  sum ← act (ALoad CSum);
  mx ← act (ALoad CMax);
  mret (mkHist bounds_us buckets sum samples mx).

Definition p_snapshot : SProg MetricsSnapshot :=
  requests ← act (ALoad CRequests);
  errors ← act (ALoad CErrors);
  inflight ← act (ALoad CInflight);
  now ← act ANow;
  latency ← p_hist_snapshot;
  mret (mkMSnap requests errors inflight (saturating_sub now started) latency).

End metrics.

(** ** Commands *)

Section handlers.
Context (bounds_us : list Z) (started : Instant) (fuel : nat).

(** The methods of the trait [KVEngine], as a task calls them. *)
Definition reply_value (r : Reply) : outcome HkvError (option bytes) := match r with RValue x => Val x | _ => Panic end.
Definition reply_done (r : Reply) : outcome HkvError unit :=
  match r with RDone (Ok u) => Val u | RDone (Error x) => Err x | _ => Panic end.
Definition reply_deleted (r : Reply) : outcome HkvError bool := match r with RDeleted d => Val d | _ => Panic end.
Definition reply_ttl (r : Reply) : outcome HkvError TtlStatus := match r with RTtl t => Val t | _ => Panic end.

Definition as_result {A} (o : outcome HkvError A) : outcome io_error (result A HkvError) :=
  match o with Val a => Val (Ok a) | Err x => Val (Error x) | Panic => Panic | Diverge => Diverge end.

Definition decoded {A} (dec : Reply -> outcome HkvError A) (o : outcome HkvError Reply) : outcome HkvError A :=
  match o with Val r => dec r | Err x => Err x | Panic => Panic | Diverge => Diverge end.

Definition p_engine_call {A} (o : Op) (dec : Reply -> outcome HkvError A) : SProg (result A HkvError) :=
  Act (ACall o) (fun out => Ret (as_result (decoded dec out))).

Definition p_handle_get (args : list bytes) : SProg bytes :=
  match args with
  | [_; key] =>
      r ← p_engine_call (OpGet key) reply_value;
      mret (match r with
            | Ok (Some value) => resp_bulk value
            | Ok None => resp_null
            | Error _ => resp_error (lit "engine error")
            end)
  | _ => mret (resp_error (lit "wrong number of arguments for GET"))
  end.

Definition p_handle_set (args : list bytes) : SProg bytes :=
  match args with
  | _ :: key :: value :: options =>
      match options with
      | [] =>
          r ← p_engine_call (OpSet key value) reply_done;
          mret (match r with
                | Ok _ => resp_simple (lit "OK")
                | Error _ => resp_error (lit "engine error")
                end)
      | [ex; seconds] =>
          if eq_ignore_ascii_case ex (lit "EX") then
            match parse_u64 seconds with
            | Error resp => mret resp
            | Ok seconds =>
                r ← p_engine_call (OpSetTtl key value (from_secs seconds)) reply_done;
                mret (match r with
                      | Ok _ => resp_simple (lit "OK")
                      | Error _ => resp_error (lit "engine error")
                      end)
            end
          else mret (resp_error (lit "unsupported SET options"))
      | _ => mret (resp_error (lit "unsupported SET options"))
      end
  | _ => mret (resp_error (lit "wrong number of arguments for SET"))
  end.

Fixpoint p_del_loop (keys : list bytes) (removed : Z) : SProg bytes :=
  match keys with
  | [] => mret (resp_integer removed)
  | key :: keys' =>
      r ← p_engine_call (OpDelete key) reply_deleted;
      match r with
      | Ok true => p_del_loop keys' (removed + 1)
      | Ok false => p_del_loop keys' removed
      | Error _ => mret (resp_error (lit "engine error"))
      end
  end.

Definition p_handle_del (args : list bytes) : SProg bytes :=
  if length args <? 2 then mret (resp_error (lit "wrong number of arguments for DEL"))
  else p_del_loop (tail args) 0.

Definition p_handle_expire (args : list bytes) : SProg bytes :=
  match args with
  | [_; key; seconds] =>
      match parse_u64 seconds with
      | Error resp => mret resp
      | Ok seconds =>
          r ← p_engine_call (OpExpire key (from_secs seconds)) reply_done;
          mret (match r with
                | Ok _ => resp_integer 1
                | Error NotFound => resp_integer 0
                | Error _ => resp_error (lit "engine error")
                end)
      end
  | _ => mret (resp_error (lit "wrong number of arguments for EXPIRE"))
  end.

Definition p_handle_ttl (args : list bytes) : SProg bytes :=
  match args with
  | [_; key] =>
      r ← p_engine_call (OpTtl key) reply_ttl;
      mret (match r with
            | Ok Missing => resp_integer (-2)
            | Ok NoExpiry => resp_integer (-1)
            | Ok (ExpiresIn remaining) => resp_integer (as_i64 (as_secs remaining))
            | Error _ => resp_error (lit "engine error")
            end)
  | _ => mret (resp_error (lit "wrong number of arguments for TTL"))
  end.

Definition p_handle_info : SProg bytes :=
  s ← p_snapshot bounds_us started; mret (resp_bulk (info_lines s)).

(** *** Observation *)

Fixpoint p_planned_deletes (keys : list bytes) : SProg (list ObservationEvent) :=
  match keys with
  | [] => mret []
  | key :: keys' =>
      at_ ← act AWall;
      evs ← p_planned_deletes keys';
      mret (event_write CmdDelete key None at_ :: evs)
  end.

Definition p_planned_one (f : SystemTime -> ObservationEvent) : SProg (list ObservationEvent) :=
  at_ ← act AWall; mret [f at_].

Definition p_planned_observations (args : list bytes) : SProg (list ObservationEvent) :=
  match args with
  | [] => mret []
  | command :: _ =>
      if eq_ignore_ascii_case command (lit "GET") then
        match args with
        | [_; key] => p_planned_one (event_read CmdGet key)
        | _ => mret []
        end
      else if eq_ignore_ascii_case command (lit "SET") then
        match args with
        | [_; key; value] => p_planned_one (event_write CmdSet key (Some (Z.of_nat (length value))))
        | [_; key; value; ex; _] =>
            if eq_ignore_ascii_case ex (lit "EX")
            then p_planned_one (event_write CmdSet key (Some (Z.of_nat (length value))))
            else mret []
        | _ => mret []
        end
      else if eq_ignore_ascii_case command (lit "DEL") then
        if length args <? 2 then mret [] else p_planned_deletes (tail args)
      else if eq_ignore_ascii_case command (lit "EXPIRE") then
        match args with
        | [_; key; _] => p_planned_one (event_write CmdExpire key None)
        | _ => mret []
        end
      else if eq_ignore_ascii_case command (lit "TTL") then
        match args with
        | [_; key] => p_planned_one (event_read CmdTtl key)
        | _ => mret []
        end
      else mret []
  end.

(** Each event takes the lock of the log for itself. *)
Fixpoint p_record_events (events : list ObservationEvent) : SProg unit :=
  match events with
  | [] => mret tt
  | ev :: events' => act (ARecord ev);; p_record_events events'
  end.

Definition p_observe_command_result (events : list ObservationEvent) (dispatch : SProg bytes) : SProg bytes :=
  response ← dispatch;
  (if negb (is_error_response response) then p_record_events events else mret tt);;
  mret response.

Definition p_observed (args : list bytes) (dispatch : SProg bytes) : SProg bytes :=
  events ← p_planned_observations args; p_observe_command_result events dispatch.

Definition p_dispatch_command (args : list bytes) : SProg bytes :=
  match args with
  | [] => mret (resp_error (lit "empty command"))
  | cmd :: _ =>
      if eq_ignore_ascii_case cmd (lit "PING") then mret (handle_ping args)
      else if eq_ignore_ascii_case cmd (lit "GET") then p_observed args (p_handle_get args)
      else if eq_ignore_ascii_case cmd (lit "SET") then p_observed args (p_handle_set args)
      else if eq_ignore_ascii_case cmd (lit "DEL") then p_observed args (p_handle_del args)
      else if eq_ignore_ascii_case cmd (lit "EXPIRE") then p_observed args (p_handle_expire args)
      else if eq_ignore_ascii_case cmd (lit "TTL") then p_observed args (p_handle_ttl args)
      else if eq_ignore_ascii_case cmd (lit "INFO") then p_handle_info
      else mret (resp_error (lit "unknown command"))
  end.

(** ** Requests and connections *)

Definition p_finish_tracked_request (started_at : Instant) (response : bytes) (write_result : result unit io_error)
    : SProg unit :=
  (if is_error_response response then p_record_error else mret tt);;
  now ← act ANow;
  p_record_request_end bounds_us fuel (saturating_sub now started_at);;
  Ret (match write_result with Ok _ => Val tt | Error e => Err e end).

Definition p_tracked (respond : SProg bytes) : SProg unit :=
  p_record_request_start;;
  started_at ← act ANow;
  response ← respond;
  write_result ← act (AWrite response);
  p_finish_tracked_request started_at response write_result.

Definition p_handle_request (args : list bytes) : SProg unit := p_tracked (p_dispatch_command args).
Definition p_handle_protocol_error : SProg unit := p_tracked (mret (resp_error (lit "protocol error"))).

(** What the parser makes of the bytes a connection reads (RespThms.v): the
    commands, and how it stands after them; then how the reads ended. *)
Record Session := mkSession {
  se_commands : list (list bytes);
  se_parser : outcome RespError unit;
  se_read_end : result unit io_error
}.

(** [ARead] is where the task may have to wait for more bytes; a command that came
    with the one before passes it at once. *)
Definition p_stop (s : Session) : SProg unit :=
  act ARead;;
  match se_parser s with
  | Val _ => Ret (match se_read_end s with Ok _ => Val tt | Error e => Err e end)
  | Err ProtocolError => p_handle_protocol_error
  | Panic => Ret Panic
  | Diverge => Ret Diverge
  end.

Fixpoint p_commands (cmds : list (list bytes)) : SProg unit :=
  match cmds with
  | [] => mret tt
  | args :: cmds' => act ARead;; p_handle_request args;; p_commands cmds'
  end.

Definition p_session (s : Session) : SProg unit := p_commands (se_commands s);; p_stop s.

End handlers.

(** ** What the actions do *)

Definition cell_get (c : Cell) (m : Metrics) : Z :=
  match c with
  | CRequests => requests_total m
  | CErrors => errors_total m
  | CInflight => inflight m
  | CBucket i => default 0%Z (h_buckets (latency m) !! i)
  | CSamples => h_samples (latency m)
  | CSum => h_sum_us (latency m)
  | CMax => h_max_us (latency m)
  end.

Definition with_latency (f : LatencyHistogram -> LatencyHistogram) (m : Metrics) : Metrics :=
  mkMetrics (requests_total m) (errors_total m) (inflight m) (f (latency m)) (started_at m).

Definition cell_set (c : Cell) (x : Z) (m : Metrics) : Metrics :=
  match c with
  | CRequests => mkMetrics x (errors_total m) (inflight m) (latency m) (started_at m)
  | CErrors => mkMetrics (requests_total m) x (inflight m) (latency m) (started_at m)
  | CInflight => mkMetrics (requests_total m) (errors_total m) x (latency m) (started_at m)
  | CBucket i => with_latency (fun h => mkHist (h_bounds_us h) (<[i := x]> (h_buckets h)) (h_sum_us h) (h_samples h) (h_max_us h)) m
  | CSamples => with_latency (fun h => mkHist (h_bounds_us h) (h_buckets h) (h_sum_us h) x (h_max_us h)) m
  | CSum => with_latency (fun h => mkHist (h_bounds_us h) (h_buckets h) x (h_samples h) (h_max_us h)) m
  | CMax => with_latency (fun h => mkHist (h_bounds_us h) (h_buckets h) (h_sum_us h) (h_samples h) x) m
  end.

Section run.
Context (clock : nat -> Instant) (wall : nat -> SystemTime).

(** What the tasks share but for the engine, and each task's socket: what was
    written to it, by how many writes. *)
Record SShared := mkSShared {
  ss_metrics : Metrics;
  ss_log : option SharedObservationLog;
  ss_ticks : nat;
  ss_socks : list (bytes * nat)
}.

(** [fault t] says which writes of the connection [t] fail, and after how many bytes. *)
Context (fault : nat -> nat -> option nat).

(** One action of the task [t]; a call of the engine is none (Process.v). *)
Definition sact_run {X} (t : nat) (a : SAct X) (w : SShared) : option (X * SShared) :=
  match a in SAct X return option (X * SShared) with
  | ANow => Some (clock (ss_ticks w), mkSShared (ss_metrics w) (ss_log w) (S (ss_ticks w)) (ss_socks w))
  | AWall => Some (wall (ss_ticks w), mkSShared (ss_metrics w) (ss_log w) (S (ss_ticks w)) (ss_socks w))
  | ACall _ => None
  | ARecord ev => Some (tt, mkSShared (ss_metrics w) (record_observation ev <$> ss_log w) (ss_ticks w) (ss_socks w))
  | ARead => Some (tt, w)
  | AWrite response =>
      '(out, n) ← ss_socks w !! t;
      let '(r, sent) := match fault t n with
                        | None => (Ok tt, response)
                        | Some k => (Error WriteFailed, take k response)
                        end in
      Some (r, mkSShared (ss_metrics w) (ss_log w) (ss_ticks w) (<[t := (out ++ sent, S n)]> (ss_socks w)))
  | AFetchAdd c n =>
      let m := ss_metrics w in
      Some (tt, mkSShared (cell_set c (wrap64 (cell_get c m + n)) m) (ss_log w) (ss_ticks w) (ss_socks w))
  | ALoad c => Some (cell_get c (ss_metrics w), w)
  | ACompareExchange c current new =>
      let m := ss_metrics w in
      if bool_decide (cell_get c m = current)
      then Some (Ok tt, mkSShared (cell_set c new m) (ss_log w) (ss_ticks w) (ss_socks w))
      else Some (Error (cell_get c m), w)
  end.

(** The task [t] is dropped at an action instead, which it can be where it waits for
    its socket; [k] bytes of a reply have been taken then. *)
Definition sact_drop {X} (t : nat) (a : SAct X) (k : nat) (w : SShared) : option SShared :=
  match a with
  | ARead => Some w
  | AWrite response =>
      '(out, n) ← ss_socks w !! t;
      Some (mkSShared (ss_metrics w) (ss_log w) (ss_ticks w) (<[t := (out ++ take k response, S n)]> (ss_socks w)))
  | _ => None
  end.

(** One task alone, in the world of Server.v, on any engine. *)
Definition sact_alone `{KVEngine E} (write_fault : nat -> option nat) {X} (a : SAct X) (w : World E) : X * World E :=
  match a in SAct X return X * World E with
  | ANow => (clock (w_ticks w), mkWorld (w_engine w) (w_metrics w) (w_log w) (S (w_ticks w)) (w_out w) (w_writes w))
  | AWall => (wall (w_ticks w), mkWorld (w_engine w) (w_metrics w) (w_log w) (S (w_ticks w)) (w_out w) (w_writes w))
  | ACall o =>
      let '(out, e) := kv_exec (clock (w_ticks w)) o (w_engine w) in
      (out, mkWorld e (w_metrics w) (w_log w) (S (w_ticks w)) (w_out w) (w_writes w))
  | ARecord ev =>
      (tt, mkWorld (w_engine w) (w_metrics w) (record_observation ev <$> w_log w) (w_ticks w) (w_out w) (w_writes w))
  | ARead => (tt, w)
  | AWrite response =>
      let '(r, sent) := match write_fault (w_writes w) with
                        | None => (Ok tt, response)
                        | Some k => (Error WriteFailed, take k response)
                        end in
      (r, mkWorld (w_engine w) (w_metrics w) (w_log w) (w_ticks w) (w_out w ++ sent) (S (w_writes w)))
  | AFetchAdd c n =>
      let m := w_metrics w in
      (tt, mkWorld (w_engine w) (cell_set c (wrap64 (cell_get c m + n)) m) (w_log w) (w_ticks w) (w_out w) (w_writes w))
  | ALoad c => (cell_get c (w_metrics w), w)
  | ACompareExchange c current new =>
      let m := w_metrics w in
      if bool_decide (cell_get c m = current)
      then (Ok tt, mkWorld (w_engine w) (cell_set c new m) (w_log w) (w_ticks w) (w_out w) (w_writes w))
      else (Error (cell_get c m), w)
  end.

End run.
