(* ===== verification/ServerConcSpec.v ===== *)
(** * What concurrent clients of a server are promised

    Each connection is answered from its own engine calls: what it writes, reports
    and counts, given what those calls returned. ProcessSpec.v says where all the
    calls come from. *)

From S2P Require Import Prelude Threads Errors KVEngine RespParser RespClient RespClientThms Observation F64 Metrics Server.
From S2P Require Import ServerSpec ServerConc.

(** ** Engine calls

    An operation with its clock reading and its answer. *)
Abbreviation Effect := (Instant * Op * Reply)%type.

(** ** Replies

    [answered c fxs v]: the command [c] makes the calls [fxs] and is answered [v]. *)
Inductive answered (bounds : list Z) : Command -> list Effect -> RespValue -> Prop :=
| an_ping : answered bounds (CPing None) [] (Simple (lit "PONG"))
| an_echo x : answered bounds (CPing (Some x)) [] (Bulk (Some x))
| an_get t k v : answered bounds (CGet k) [(t, OpGet k, RValue v)] (Bulk v)
| an_set t k v : answered bounds (CSet k v None) [(t, OpSet k v, RDone (Ok tt))] (Simple (lit "OK"))
| an_set_ex t k v n :
    answered bounds (CSet k v (Some n)) [(t, OpSetTtl k v (from_secs n), RDone (Ok tt))] (Simple (lit "OK"))
| an_del ts ks ds :
    length ts = length ks -> length ds = length ks ->
    answered bounds (CDel ks) (zip_with (fun '(t, k) d => (t, OpDelete k, RDeleted d)) (zip ts ks) ds)
      (Integer (zsum (fun d : bool => if d then 1 else 0)%Z ds))
| an_expire t k n :
    answered bounds (CExpire k n) [(t, OpExpire k (from_secs n), RDone (Ok tt))] (Integer 1)
| an_expire_missing t k n :
    answered bounds (CExpire k n) [(t, OpExpire k (from_secs n), RDone (Error NotFound))] (Integer 0)
| an_ttl t k s : answered bounds (CTtl k) [(t, OpTtl k, RTtl s)] (Integer (ttl_number s))
| an_info s : h_bounds_us (ms_latency s) = bounds -> answered bounds CInfo [] (Bulk (Some (info_lines s)))
| an_bad x : answered bounds (CBad x) [] (ErrorReply (lit "ERR " ++ x)).

(** What a command that was answered [v] reports, at any times. *)
Definition reported (c : Command) (v : RespValue) (evs : list ObservationEvent) : Prop :=
  if is_error_value v then evs = [] else Forall2 (fun f ev => exists t, ev = f t) (command_events c) evs.

(** ** Connections

    [served fault bounds j cmds stop fxs out evs n errs]: from its [j]-th write
    on, a connection with the commands [cmds] whose parser then stands at [stop]
    makes the calls [fxs], writes [out], reports [evs] and counts [n] requests,
    [errs] of them with an error. It ends at a write that fails. *)
Inductive served (fault : nat -> option nat) (bounds : list Z) (stop : outcome RespError unit) :
    nat -> list (list bytes) -> list Effect -> bytes -> list ObservationEvent -> nat -> nat -> Prop :=
| served_all j : stop <> Err ProtocolError -> served fault bounds stop j [] [] [] [] 0 0
| served_protocol_error j :
    stop = Err ProtocolError ->
    served fault bounds stop j [] [] (default id (take <$> fault j) (enc_value (ErrorReply (lit "ERR protocol error")))) [] 1 1
| served_next j args cmds fx fxs v out ev evs n errs :
    fault j = None -> answered bounds (decode args) fx v -> reported (decode args) v ev ->
    served fault bounds stop (S j) cmds fxs out evs n errs ->
    served fault bounds stop j (args :: cmds) (fx ++ fxs) (enc_value v ++ out) (ev ++ evs)
      (S n) ((if is_error_value v then 1 else 0) + errs)
| served_cut j args cmds fx v ev k :
    fault j = Some k -> answered bounds (decode args) fx v -> reported (decode args) v ev ->
    served fault bounds stop j (args :: cmds) fx (take k (enc_value v)) ev 1 (if is_error_value v then 1 else 0).

(** [cut_off fault bounds stop j cmds fxs out evs n errs left]: the same of a
    connection that was dropped where it waited, for bytes or for its reply to be
    taken. The request it was at has been counted, and [left] of those counted are
    still in flight, neither recorded as an error nor with a latency. *)
Inductive cut_off (fault : nat -> option nat) (bounds : list Z) (stop : outcome RespError unit) :
    nat -> list (list bytes) -> list Effect -> bytes -> list ObservationEvent -> nat -> nat -> nat -> Prop :=
| cut_reading j cmds : cut_off fault bounds stop j cmds [] [] [] 0 0 0
| cut_protocol_error j k :
    stop = Err ProtocolError ->
    cut_off fault bounds stop j [] [] (take k (enc_value (ErrorReply (lit "ERR protocol error")))) [] 1 0 1
| cut_next j args cmds fx fxs v out ev evs n errs left :
    fault j = None -> answered bounds (decode args) fx v -> reported (decode args) v ev ->
    cut_off fault bounds stop (S j) cmds fxs out evs n errs left ->
    cut_off fault bounds stop j (args :: cmds) (fx ++ fxs) (enc_value v ++ out) (ev ++ evs)
      (S n) ((if is_error_value v then 1 else 0) + errs) left
| cut_writing j args cmds fx v ev k :
    answered bounds (decode args) fx v -> reported (decode args) v ev ->
    cut_off fault bounds stop j (args :: cmds) fx (take k (enc_value v)) ev 1 0 1.

(** A connection that was served, or dropped. *)
Definition handled (dropped : bool) (fault : nat -> option nat) (bounds : list Z) (s : Session)
    (fxs : list Effect) (out : bytes) (evs : list ObservationEvent) (n errs left : nat) : Prop :=
  if dropped then cut_off fault bounds (se_parser s) 0 (se_commands s) fxs out evs n errs left
  else served fault bounds (se_parser s) 0 (se_commands s) fxs out evs n errs /\ left = 0.

(** The requests a session can make. *)
Definition protocol_errors (stop : outcome RespError unit) : nat := match stop with Err _ => 1 | _ => 0 end.
Definition requests (s : Session) : nat := length (se_commands s) + protocol_errors (se_parser s).

Lemma served_requests fault bounds stop j cmds fxs out evs n errs :
  served fault bounds stop j cmds fxs out evs n errs ->
  n <= length cmds + protocol_errors stop /\ errs <= n.
Proof.
  induction 1 as [j Hs|j Hs|j args cmds fx fxs v out ev evs n errs Hf Ha Hr _ IH|j args cmds fx v ev k Hf Ha Hr]; cbn [length].
  - lia.
  - subst. cbn. lia.
  - destruct (is_error_value v); lia.
  - destruct (is_error_value v); lia.
Qed.

Lemma cut_off_requests fault bounds stop j cmds fxs out evs n errs left :
  cut_off fault bounds stop j cmds fxs out evs n errs left ->
  n <= length cmds + protocol_errors stop /\ errs + left <= n.
Proof.
  induction 1 as [j cmds|j k Hs|j args cmds fx fxs v out ev evs n errs left Hf Ha Hr _ IH|j args cmds fx v ev k Ha Hr]; cbn [length].
  - lia.
  - subst. cbn. lia.
  - destruct (is_error_value v); lia.
  - lia.
Qed.

Lemma handled_requests d fault bounds s fxs out evs n errs left :
  handled d fault bounds s fxs out evs n errs left -> n <= requests s /\ errs + left <= n.
Proof.
  destruct d; cbn.
  - apply cut_off_requests.
  - intros [Hs ->]. rewrite Nat.add_0_r. by eapply served_requests.
Qed.
