(* ===== verification/ServerConcWp.v ===== *)
(** * A program logic for the tasks of the server (hkv-server/src/server.rs)

    What a task of ServerConc.v may rely on and adds to what all tasks share, one
    action at a time. A request makes the calls of its command, writes its reply,
    and counts itself; ServerConcThms.v puts the tasks together. *)

From S2P Require Import Prelude Threads Errors KVEngine RespParser RespClient RespClientThms Observation F64 Metrics Server.
From S2P Require Import ServerSpec ServerThms ServerConc ServerConcSpec.

#[global] Instance Cell_eq_dec : EqDecision Cell.
Proof. solve_decision. Defined.

(** ** What a task has done *)

Record SView := mkSView {
  sv_fx : list Effect;
  sv_out : bytes;
  sv_writes : nat;
  sv_evs : list ObservationEvent;
  (** what it added to each counter *)
  sv_add : Cell -> Z;
  (** the latencies it recorded, in microseconds *)
  sv_lat : list Z;
  (** the maximum when it last looked, how often it has raised it, and how often
      all tasks had when it looked *)
  sv_seen : Z;
  sv_wins : nat;
  sv_at : nat
}.

Definition sv_start (mx : Z) : SView := mkSView [] [] 0 [] (fun _ => 0%Z) [] mx 0 0.

Definition add_fx (fx : list Effect) (v : SView) : SView :=
  mkSView (sv_fx v ++ fx) (sv_out v) (sv_writes v) (sv_evs v) (sv_add v) (sv_lat v) (sv_seen v) (sv_wins v) (sv_at v).
Definition add_evs (evs : list ObservationEvent) (v : SView) : SView :=
  mkSView (sv_fx v) (sv_out v) (sv_writes v) (sv_evs v ++ evs) (sv_add v) (sv_lat v) (sv_seen v) (sv_wins v) (sv_at v).
Definition put_out (sent : bytes) (v : SView) : SView :=
  mkSView (sv_fx v) (sv_out v ++ sent) (S (sv_writes v)) (sv_evs v) (sv_add v) (sv_lat v) (sv_seen v) (sv_wins v) (sv_at v).
Definition add_cell (c : Cell) (n : Z) (v : SView) : SView :=
  mkSView (sv_fx v) (sv_out v) (sv_writes v) (sv_evs v) (fun c' => if decide (c' = c) then sv_add v c' + n else sv_add v c')%Z
    (if decide (c = CSum) then sv_lat v ++ [n] else sv_lat v) (sv_seen v) (sv_wins v) (sv_at v).
Definition saw (x : Z) (at_ : nat) (v : SView) : SView :=
  mkSView (sv_fx v) (sv_out v) (sv_writes v) (sv_evs v) (sv_add v) (sv_lat v) x (sv_wins v) at_.
Definition won (x : Z) (v : SView) : SView :=
  mkSView (sv_fx v) (sv_out v) (sv_writes v) (sv_evs v) (sv_add v) (sv_lat v) x (S (sv_wins v)) (sv_at v).

Lemma add_fx_nil v : add_fx [] v = v.
Proof. destruct v. unfold add_fx. cbn. by rewrite app_nil_r. Qed.
Lemma add_evs_nil v : add_evs [] v = v.
Proof. destruct v. unfold add_evs. cbn. by rewrite app_nil_r. Qed.
Lemma add_fx_app fx fx' v : add_fx fx' (add_fx fx v) = add_fx (fx ++ fx') v.
Proof. unfold add_fx. cbn. by rewrite app_assoc. Qed.
Lemma add_evs_app ev ev' v : add_evs ev' (add_evs ev v) = add_evs (ev ++ ev') v.
Proof. unfold add_evs. cbn. by rewrite app_assoc. Qed.

(** ** The logic *)

Section wp.
Context (clock : nat -> Instant) (wall : nat -> SystemTime).

(** [fault]: the writes that fail; [buckets]: how many there are; [limit]: the
    requests the task may count; [wins]: how often the maximum can be raised;
    [dropped]: what holds when the runtime drops the task, which it can where the
    task waits, for bytes or for a reply to be taken. *)
Context (fault : nat -> option nat) (buckets : nat) (limit : Z) (wins : nat) (dropped : SView -> Prop).

Definition add_ok (c : Cell) (n : Z) (v : SView) : Prop :=
  match c with
  | CRequests => n = 1%Z /\ (sv_add v CRequests < limit)%Z
  | CSum => (0 <= n < u64_modulus)%Z
  | CBucket i => i < buckets
  | CMax => False
  | _ => True
  end.

Definition swp_act {X} (a : SAct X) (v : SView) : (X -> SView -> Prop) -> Prop :=
  match a in SAct X return (X -> SView -> Prop) -> Prop with
  | ANow => fun R => forall j, R (clock j) v
  | AWall => fun R => forall j, R (wall j) v
  | ACall o => fun R =>
      forall now mp, R (Val (fst (m_exec now o mp))) (add_fx [(now, o, fst (m_exec now o mp))] v)
  | ARecord ev => fun R => R tt (add_evs [ev] v)
  | ARead => fun R => dropped v /\ R tt v
  | AWrite response => fun R =>
      (forall k, dropped (put_out (take k response) v))
      /\ R (match fault (sv_writes v) with None => Ok tt | Some _ => Error WriteFailed end)
        (put_out (default id (take <$> fault (sv_writes v)) response) v)
  | AFetchAdd c n => fun R => add_ok c n v /\ R tt (add_cell c n v)
  | ALoad c => fun R =>
      match c with
      | CMax => forall x at_, (sv_seen v <= x)%Z -> at_ <= wins -> R x (saw x at_ v) \/ R x v
      | _ => forall x, R x v
      end
  | ACompareExchange c current new => fun R =>
      c = CMax /\ current = sv_seen v /\ (current < new)%Z /\ new ∈ sv_lat v
      /\ (Z.of_nat (sv_wins v) < sv_add v CRequests)%Z
      /\ R (Ok tt) (won new v)
      /\ forall x at_, (sv_seen v < x)%Z -> sv_at v < at_ <= wins -> R (Error x) (saw x at_ v)
  end.

Fixpoint swp {A} (p : SProg A) (v : SView) (Q : outcome io_error A -> SView -> Prop) : Prop :=
  match p with
  | Ret o => Q o v
  | Act a k => swp_act a v (fun x v' => swp (k x) v' Q)
  end.

Lemma swp_act_mono {X} (a : SAct X) v (R R' : X -> SView -> Prop) :
  (forall x v', R x v' -> R' x v') -> swp_act a v R -> swp_act a v R'.
Proof. intros HR. destruct a as [| |o|ev| |r|c n|[]|c x y]; cbn; naive_solver. Qed.

Lemma swp_mono {A} (p : SProg A) : forall v (Q Q' : outcome io_error A -> SView -> Prop),
  (forall o v', Q o v' -> Q' o v') -> swp p v Q -> swp p v Q'.
Proof.
  induction p as [o|X a k IH]; intros v Q Q' HQ; cbn; [apply HQ|].
  apply swp_act_mono. intros x v'. by apply IH.
Qed.

Lemma swp_bind {A B} (p : SProg A) (k : A -> SProg B) : forall v Q,
  swp p v (fun o v' => swp (carry o k) v' Q) -> swp (p ≫= k) v Q.
Proof.
  induction p as [o|X a c IH]; intros v Q; cbn; [done|].
  apply swp_act_mono. intros x v'. apply IH.
Qed.

(** A program that answers, and what follows. *)
Lemma swp_then {A B} (p : SProg A) (k : A -> SProg B) v (P : A -> SView -> Prop) Q :
  swp p v (fun o v' => exists a, o = Val a /\ P a v') -> (forall a v', P a v' -> swp (k a) v' Q) -> swp (p ≫= k) v Q.
Proof.
  intros Hp Hk. apply swp_bind. eapply swp_mono; [|exact Hp]. intros o v' (a & -> & Ha). by apply Hk.
Qed.

(** *** The maximum *)

Definition looked (v v' : SView) : Prop :=
  exists x k at_, v' = mkSView (sv_fx v) (sv_out v) (sv_writes v) (sv_evs v) (sv_add v) (sv_lat v) x (sv_wins v + k) at_
    /\ (sv_seen v <= x)%Z /\ k <= 1 /\ at_ <= wins.

Lemma swp_update_max_loop fuel : forall v value (Q : outcome io_error unit -> SView -> Prop),
  sv_at v <= wins -> wins < fuel + sv_at v -> value ∈ sv_lat v -> (Z.of_nat (sv_wins v) < sv_add v CRequests)%Z ->
  (forall v', looked v v' -> (value <= sv_seen v')%Z -> Q (Val tt) v') ->
  swp (p_update_max_loop fuel (sv_seen v) value) v Q.
Proof.
  induction fuel as [|fuel IH]; intros v value Q Hat Hfu Hin Hreq HQ; [lia|]. cbn [p_update_max_loop].
  destruct (Z.ltb_spec (sv_seen v) value) as [Hlt|Hge].
  - cbn. split_and!; try done.
    + apply HQ; [|done]. exists value, 1, (sv_at v). rewrite Nat.add_1_r. split_and!; [done|lia..].
    + intros x at_ Hx Ha. change x with (sv_seen (saw x at_ v)) at 1. apply IH; [cbn; lia|cbn; lia|done|done|].
      intros v' (y & k & at' & -> & Hy & Hk & Hat') Hval. apply HQ; [|done]. cbn in *. exists y, k, at'. split_and!; [done|lia..].
  - cbn. apply HQ; [|done]. exists (sv_seen v), 0, (sv_at v). rewrite Nat.add_0_r. destruct v. split_and!; [done|cbn in *; lia..].
Qed.

Lemma swp_update_max fuel v value (Q : outcome io_error unit -> SView -> Prop) :
  wins < fuel -> value ∈ sv_lat v -> (Z.of_nat (sv_wins v) < sv_add v CRequests)%Z ->
  (forall v', looked v v' -> (value <= sv_seen v')%Z -> Q (Val tt) v') -> swp (p_update_max fuel value) v Q.
Proof.
  intros Hfu Hin Hreq HQ. cbn. intros x at_ Hx Hat. left.
  change x with (sv_seen (saw x at_ v)) at 1. apply swp_update_max_loop; [cbn; lia|cbn; lia|done|done|].
  intros v' (y & k & at' & -> & Hy & Hk & Hat') Hval. apply HQ; [|done]. cbn in *. exists y, k, at'. split_and!; [done|lia..].
Qed.

(** *** Engine calls *)

Lemma swp_call {A B} o (dec : Reply -> outcome HkvError A) (k : result A HkvError -> SProg B) v Q :
  (forall now mp, let r := fst (m_exec now o mp) in swp (carry (as_result (dec r)) k) (add_fx [(now, o, r)] v) Q) ->
  swp (p_engine_call o dec ≫= k) v Q.
Proof. intros Hk. cbn. intros now mp. apply Hk. Qed.

(** *** Commands *)

Context (bounds_us : list Z).

(** The program answers the command. *)
Definition answers (v : SView) (c : Command) (p : SProg bytes) : Prop :=
  swp p v (fun o v' => exists x fx, o = Val (enc_value x) /\ answered bounds_us c fx x /\ v' = add_fx fx v).

Lemma answers_bad v x p : p = mret (resp_error x) -> answers v (CBad x) p.
Proof. intros ->. exists (ErrorReply (lit "ERR " ++ x)), []. rewrite add_fx_nil. by repeat constructor. Qed.

Lemma swp_handle_get v name rest :
  answers v (match rest with [key] => CGet key | _ => wrong_arity (lit "GET") end) (p_handle_get (name :: rest)).
Proof.
  destruct rest as [|k [|]]; try by apply answers_bad.
  apply swp_call. intros now mp. cbn.
  eexists (Bulk _), _. split_and!; [|apply an_get|done]. by destruct (m_live _ k mp) as [[]|].
Qed.

Lemma swp_handle_set v name rest :
  answers v (decode_set rest) (p_handle_set (name :: rest)).
Proof.
  destruct rest as [|k [|x [|ex [|n [|]]]]]; try by apply answers_bad.
  - apply swp_call. intros now mp. cbn.
    eexists (Simple (lit "OK")), _. split_and!; [done|apply an_set|done].
  - cbn [p_handle_set decode_set] in *. destruct (eq_ignore_ascii_case ex (lit "EX")); [|by apply answers_bad].
    rewrite parse_u64_spec. destruct (number n) as [s|]; [|by apply answers_bad].
    apply swp_call. intros now mp. cbn.
    eexists (Simple (lit "OK")), _. split_and!; [done|apply an_set_ex|done].
Qed.

Lemma swp_handle_expire v name rest :
  answers v (decode_expire rest) (p_handle_expire (name :: rest)).
Proof.
  destruct rest as [|k [|n [|]]]; try by apply answers_bad.
  cbn [p_handle_expire decode_expire] in *. rewrite parse_u64_spec. destruct (number n) as [s|]; [|by apply answers_bad].
  apply swp_call. intros now mp.
  cbn [m_exec fst]. unfold m_expire. destruct (m_live _ k mp) as [[]|]; cbn.
  - eexists (Integer 1), _. split_and!; [done|apply an_expire|done].
  - eexists (Integer 0), _. split_and!; [done|apply an_expire_missing|done].
Qed.

Lemma swp_handle_ttl v name rest :
  answers v (match rest with [key] => CTtl key | _ => wrong_arity (lit "TTL") end) (p_handle_ttl (name :: rest)).
Proof.
  destruct rest as [|k [|]]; try by apply answers_bad.
  apply swp_call. intros now mp. cbn.
  eexists (Integer _), _. split_and!; [|apply an_ttl|done]. by destruct (m_ttl _ k mp).
Qed.

Lemma swp_del_loop keys : forall removed v (Q : outcome io_error bytes -> SView -> Prop),
  (forall ts ds, length ts = length keys -> length ds = length keys ->
    Q (Val (resp_integer (removed + zsum (fun d : bool => if d then 1 else 0)%Z ds)))
      (add_fx (zip_with (fun '(t, k) d => (t, OpDelete k, RDeleted d)) (zip ts keys) ds) v)) ->
  swp (p_del_loop keys removed) v Q.
Proof.
  induction keys as [|k keys IH]; intros removed v Q HQ.
  { specialize (HQ [] [] eq_refl eq_refl). cbn in HQ. by rewrite Z.add_0_r, add_fx_nil in HQ. }
  cbn [p_del_loop]. apply swp_call. intros now mp.
  cbn [m_exec fst reply_deleted as_result carry]. destruct (bool_decide _); apply IH; intros ts ds Ht Hd; rewrite add_fx_app.
  - specialize (HQ (now :: ts) (true :: ds)). cbn [zsum] in HQ. rewrite Z.add_assoc in HQ. apply HQ; cbn; lia.
  - specialize (HQ (now :: ts) (false :: ds)). cbn [zsum] in HQ. rewrite Z.add_0_l in HQ. apply HQ; cbn; lia.
Qed.

Lemma swp_handle_del v name rest :
  answers v (match rest with [] => wrong_arity (lit "DEL") | keys => CDel keys end) (p_handle_del (name :: rest)).
Proof.
  destruct rest as [|k keys]; [by apply answers_bad|]. unfold p_handle_del. cbn [length tail Nat.ltb Nat.leb].
  apply swp_del_loop. intros ts ds Ht Hd. eexists (Integer _), _. split_and!; [done|by apply an_del|done].
Qed.

Lemma swp_load_buckets is_ : forall v (Q : outcome io_error (list Z) -> SView -> Prop),
  (forall ns, Q (Val ns) v) -> swp (p_load_buckets is_) v Q.
Proof.
  induction is_ as [|i is_ IH]; intros v Q HQ; cbn; [apply HQ|]. intros x. apply swp_bind, IH. intros ns. apply HQ.
Qed.

Lemma swp_snapshot started v (Q : outcome io_error MetricsSnapshot -> SView -> Prop) :
  (forall s, h_bounds_us (ms_latency s) = bounds_us -> Q (Val s) v) -> swp (p_snapshot bounds_us started) v Q.
Proof.
  intros HQ. cbn -[p_hist_snapshot]. intros n1 n2 n3 j. apply swp_bind. unfold p_hist_snapshot.
  apply swp_bind, swp_load_buckets. intros ns. cbn. intros n4 n5 mx at_ _ _. right. by apply HQ.
Qed.

Lemma swp_handle_info v started : answers v CInfo (p_handle_info bounds_us started).
Proof.
  apply swp_bind, swp_snapshot. intros s Hs. exists (Bulk (Some (info_lines s))), []. rewrite add_fx_nil.
  split_and!; [done|by apply an_info|done].
Qed.

End wp.
