(* ===== verification/ServerConcReq.v ===== *)
(** * Requests of concurrent tasks (hkv-server/src/server.rs)

    With the logic of ServerConcWp.v: every command reports what it should, a
    request counts itself once and records one latency, and a connection serves
    its commands one after the other up to a write that fails, or to where it is
    dropped. *)

From S2P Require Import Prelude Threads Errors KVEngine RespParser RespClient RespClientThms Observation F64 Metrics Server.
From S2P Require Import ServerSpec ServerThms ServerConc ServerConcSpec ServerConcWp.

Section requests.
Context (clock : nat -> Instant) (wall : nat -> SystemTime).
Context (fault : nat -> option nat) (limit : Z) (wins : nat) (dropped : SView -> Prop).
Context (bounds_us : list Z) (started : Instant) (fuel : nat).

Abbreviation swp := (swp clock wall fault (S (length bounds_us)) limit wins dropped).
Abbreviation answers := (answers clock wall fault (S (length bounds_us)) limit wins dropped bounds_us).
Abbreviation dispatch := (p_dispatch_command bounds_us started).

(** ** Observed commands *)

Definition planned (args : list bytes) (fs : list (SystemTime -> ObservationEvent)) : Prop :=
  forall v (Q : outcome io_error (list ObservationEvent) -> SView -> Prop),
    (forall evs, Forall2 (fun f ev => exists t, ev = f t) fs evs -> Q (Val evs) v) -> swp (p_planned_observations args) v Q.

Lemma planned_nothing_of args : p_planned_observations args = mret [] -> planned args [].
Proof. intros Hp v Q HQ. rewrite Hp. apply HQ. constructor. Qed.

Lemma planned_one_of args f : p_planned_observations args = p_planned_one f -> planned args [f].
Proof. intros Hp v Q HQ. rewrite Hp. cbn. intros j. apply HQ. repeat constructor. eauto. Qed.

Lemma planned_deletes_of keys : forall v (Q : outcome io_error (list ObservationEvent) -> SView -> Prop),
  (forall evs, Forall2 (fun f ev => exists t, ev = f t) ((fun k => event_write CmdDelete k None) <$> keys) evs -> Q (Val evs) v) ->
  swp (p_planned_deletes keys) v Q.
Proof.
  induction keys as [|k keys IH]; intros v Q HQ; cbn -[event_write]; [apply HQ; constructor|].
  intros j. apply swp_bind, IH. intros evs Hevs. apply HQ. constructor; [eauto|done].
Qed.

Lemma swp_record_events evs : forall v (Q : outcome io_error unit -> SView -> Prop),
  Q (Val tt) (add_evs evs v) -> swp (p_record_events evs) v Q.
Proof.
  induction evs as [|ev evs IH]; intros v Q HQ; cbn; [by rewrite add_evs_nil in HQ|].
  apply IH. by rewrite add_evs_app.
Qed.

(** What a dispatched command does. *)
Definition dispatches (v : SView) (c : Command) (p : SProg bytes) : Prop :=
  swp p v (fun o v' => exists x fx ev, o = Val (enc_value x) /\ answered bounds_us c fx x /\ reported c x ev
    /\ v' = add_evs ev (add_fx fx v)).

Lemma answered_error c fx x : answered bounds_us c fx x -> is_error_response (enc_value x) = is_error_value x.
Proof. destruct 1 as [| |? ? []| | | | | | | |]; done. Qed.

Lemma swp_observed v args c fs h :
  planned args fs -> (command_events c = fs \/ exists x, c = CBad x) -> (forall v, answers v c h) ->
  dispatches v c (p_observed args h).
Proof.
  intros Hp Hc Hh. unfold dispatches, p_observed. apply swp_bind, Hp. intros evs Hevs. cbn [carry].
  apply swp_bind. eapply swp_mono; [|apply Hh]. intros o v' (x & fx & -> & Ha & ->). cbn [carry].
  rewrite (answered_error _ _ _ Ha). destruct (is_error_value x) eqn:Hx; cbn [negb].
  - exists x, fx, []. unfold reported. rewrite Hx, add_evs_nil. by split_and!.
  - apply swp_bind, swp_record_events. exists x, fx, evs. unfold reported. rewrite Hx. split_and!; [done|done| |done].
    destruct Hc as [-> |[y ->]]; [done|]. inversion Ha; subst. discriminate Hx.
Qed.

(** *** The arms of [dispatch_command] *)

Ltac name_tests := repeat match goal with
  | Ht : eq_ignore_ascii_case ?n ?s = _ |- context [eq_ignore_ascii_case ?n ?s] => rewrite Ht
  end.
Ltac planned_case := (apply planned_one_of || apply planned_nothing_of); cbn [p_planned_observations]; by name_tests.

Lemma observed_arm v args c fs h :
  decode args = c -> dispatch args = p_observed args h -> planned args fs ->
  (command_events c = fs \/ exists x, c = CBad x) -> (forall v, answers v c h) -> dispatches v (decode args) (dispatch args).
Proof. intros -> ->. apply swp_observed. Qed.

Lemma plain_arm v args c h :
  decode args = c -> command_events c = [] -> dispatch args = h -> answers v c h -> dispatches v (decode args) (dispatch args).
Proof.
  intros -> Hev -> Hh. eapply swp_mono; [|exact Hh]. intros o v' (x & fx & -> & Ha & ->). exists x, fx, [].
  rewrite add_evs_nil. unfold reported. rewrite Hev. split_and!; [done|done| |done]. by destruct (is_error_value x).
Qed.

Ltac select_arm := first [cbn [decode]; by name_tests | cbn [p_dispatch_command]; by name_tests].

Section arms.
Context (v : SView) (name : bytes) (rest : list bytes).

Lemma swp_dispatch_get :
  eq_ignore_ascii_case name (lit "PING") = false -> eq_ignore_ascii_case name (lit "GET") = true ->
  dispatches v (decode (name :: rest)) (dispatch (name :: rest)).
Proof.
  intros H1 H2. eapply (observed_arm _ _ _ (match rest with [k] => [event_read CmdGet k] | _ => [] end)); try select_arm.
  - destruct rest as [|k [|]]; planned_case.
  - destruct rest as [|k [|]]; unfold wrong_arity; eauto.
  - intros v1. apply swp_handle_get.
Qed.

Lemma swp_dispatch_set :
  eq_ignore_ascii_case name (lit "PING") = false -> eq_ignore_ascii_case name (lit "GET") = false ->
  eq_ignore_ascii_case name (lit "SET") = true -> dispatches v (decode (name :: rest)) (dispatch (name :: rest)).
Proof.
  intros H1 H2 H3.
  eapply (observed_arm _ _ _ (match rest with
                | [k; x] => [event_write CmdSet k (Some (Z.of_nat (length x)))]
                | [k; x; ex; _] => if eq_ignore_ascii_case ex (lit "EX")
                                   then [event_write CmdSet k (Some (Z.of_nat (length x)))] else []
                | _ => [] end)); try select_arm.
  - destruct rest as [|k [|x [|ex [|n [|]]]]]; try planned_case.
    destruct (eq_ignore_ascii_case ex (lit "EX")) eqn:Hex; planned_case.
  - destruct rest as [|k [|x [|ex [|n [|]]]]]; unfold wrong_arity, decode_set; eauto.
    destruct (eq_ignore_ascii_case ex (lit "EX")); [|eauto]. destruct (number n); eauto.
  - intros v1. by apply swp_handle_set.
Qed.

Lemma swp_dispatch_del :
  eq_ignore_ascii_case name (lit "PING") = false -> eq_ignore_ascii_case name (lit "GET") = false ->
  eq_ignore_ascii_case name (lit "SET") = false -> eq_ignore_ascii_case name (lit "DEL") = true ->
  dispatches v (decode (name :: rest)) (dispatch (name :: rest)).
Proof.
  intros H1 H2 H3 H4. eapply (observed_arm _ _ _ ((fun k => event_write CmdDelete k None) <$> rest)); try select_arm.
  - destruct rest as [|k l]; [planned_case|]. intros v1 Q HQ. cbn [p_planned_observations]. name_tests.
    cbn [length Nat.ltb Nat.leb tail]. by apply planned_deletes_of.
  - destruct rest; unfold wrong_arity; eauto.
  - intros v1. apply swp_handle_del.
Qed.

Lemma swp_dispatch_expire :
  eq_ignore_ascii_case name (lit "PING") = false -> eq_ignore_ascii_case name (lit "GET") = false ->
  eq_ignore_ascii_case name (lit "SET") = false -> eq_ignore_ascii_case name (lit "DEL") = false ->
  eq_ignore_ascii_case name (lit "EXPIRE") = true -> dispatches v (decode (name :: rest)) (dispatch (name :: rest)).
Proof.
  intros H1 H2 H3 H4 H5.
  eapply (observed_arm _ _ _ (match rest with [k; _] => [event_write CmdExpire k None] | _ => [] end)); try select_arm.
  - destruct rest as [|k [|n [|]]]; planned_case.
  - destruct rest as [|k [|n [|]]]; unfold wrong_arity, decode_expire; eauto. destruct (number n); eauto.
  - intros v1. by apply swp_handle_expire.
Qed.

Lemma swp_dispatch_ttl :
  eq_ignore_ascii_case name (lit "PING") = false -> eq_ignore_ascii_case name (lit "GET") = false ->
  eq_ignore_ascii_case name (lit "SET") = false -> eq_ignore_ascii_case name (lit "DEL") = false ->
  eq_ignore_ascii_case name (lit "EXPIRE") = false -> eq_ignore_ascii_case name (lit "TTL") = true ->
  dispatches v (decode (name :: rest)) (dispatch (name :: rest)).
Proof.
  intros H1 H2 H3 H4 H5 H6. eapply (observed_arm _ _ _ (match rest with [k] => [event_read CmdTtl k] | _ => [] end)); try select_arm.
  - destruct rest as [|k [|]]; planned_case.
  - destruct rest as [|k [|]]; unfold wrong_arity; eauto.
  - intros v1. apply swp_handle_ttl.
Qed.

End arms.

Lemma swp_dispatch v args : dispatches v (decode args) (dispatch args).
Proof.
  destruct args as [|name rest].
  { eapply plain_arm; [reflexivity|reflexivity|reflexivity|]. by apply answers_bad. }
  destruct (eq_ignore_ascii_case name (lit "PING")) eqn:H1.
  { eapply plain_arm; [cbn [decode]; by rewrite H1|by destruct rest as [|? [|]]|cbn [p_dispatch_command]; by rewrite H1|].
    destruct rest as [|x [|]]; [| |by apply answers_bad]; do 2 eexists; rewrite add_fx_nil; by repeat constructor. }
  destruct (eq_ignore_ascii_case name (lit "GET")) eqn:H2; [by apply swp_dispatch_get|].
  destruct (eq_ignore_ascii_case name (lit "SET")) eqn:H3; [by apply swp_dispatch_set|].
  destruct (eq_ignore_ascii_case name (lit "DEL")) eqn:H4; [by apply swp_dispatch_del|].
  destruct (eq_ignore_ascii_case name (lit "EXPIRE")) eqn:H5; [by apply swp_dispatch_expire|].
  destruct (eq_ignore_ascii_case name (lit "TTL")) eqn:H6; [by apply swp_dispatch_ttl|].
  destruct (eq_ignore_ascii_case name (lit "INFO")) eqn:H7;
    (eapply plain_arm; [cbn [decode]; name_tests; reflexivity|done|cbn [p_dispatch_command]; name_tests; reflexivity|]).
  - apply swp_handle_info.
  - by apply answers_bad.
Qed.

(** ** Accounting *)

(** What requests with the latencies [xs], [errs] of them errors, add to a counter. *)
Definition cell_delta (errs : Z) (xs : list Z) (c : Cell) : Z :=
  match c with
  | CRequests | CSamples => Z.of_nat (length xs)
  | CErrors => errs
  | CInflight | CMax => 0
  | CSum => zsum id xs
  | CBucket i => zsum (fun x => if decide (i = bucket_index bounds_us x) then 1 else 0)%Z xs
  end.

(** What [left] requests add that have been counted but have not ended. *)
Definition open_delta (left : nat) (c : Cell) : Z :=
  match c with CRequests | CInflight => Z.of_nat left | _ => 0 end.

Lemma cell_delta_app e1 e2 xs1 xs2 c :
  cell_delta (e1 + e2) (xs1 ++ xs2) c = (cell_delta e1 xs1 c + cell_delta e2 xs2 c)%Z.
Proof. destruct c; cbn; rewrite ?length_app, ?zsum_app; lia. Qed.

(** Between requests. *)
Record ready (v : SView) : Prop := {
  rd_at : sv_at v <= wins;
  rd_wins : (Z.of_nat (sv_wins v) <= sv_add v CRequests)%Z
}.

Record counted (errs : Z) (xs : list Z) (left : nat) (v v' : SView) : Prop := {
  ct_ready : ready v';
  ct_add c : sv_add v' c = (sv_add v c + cell_delta errs xs c + open_delta left c)%Z;
  ct_lat : sv_lat v' = sv_lat v ++ xs;
  ct_range : Forall (fun x => 0 <= x < u64_modulus)%Z xs;
  ct_seen : (sv_seen v <= sv_seen v')%Z;
  ct_covers : Forall (fun x => x <= sv_seen v')%Z xs
}.

Lemma counted_none v : ready v -> counted 0 [] 0 v v.
Proof. intros Hr. split; [done| |by rewrite app_nil_r|done|done|done]. intros []; cbn; lia. Qed.

Lemma counted_trans e1 xs1 left1 e2 xs2 left2 v v1 v2 :
  counted e1 xs1 left1 v v1 -> counted e2 xs2 left2 v1 v2 -> counted (e1 + e2) (xs1 ++ xs2) (left1 + left2) v v2.
Proof.
  intros [_ A1 L1 R1 S1 C1] [Hr A2 L2 R2 S2 C2]. split; [done|..].
  - intros c. rewrite A2, A1, cell_delta_app. destruct c; cbn; lia.
  - by rewrite L2, L1, app_assoc.
  - by apply Forall_app.
  - lia.
  - apply Forall_app. split; [|done]. eapply Forall_impl; [exact C1|]. cbn. lia.
Qed.

(** ** Requests *)

Definition sent (v : SView) (x : RespValue) : bytes := default id (take <$> fault (sv_writes v)) (enc_value x).

Record request_done (v : SView) (fx : list Effect) (x : RespValue) (ev : list ObservationEvent) (v' : SView) : Prop := {
  rq_fx : sv_fx v' = sv_fx v ++ fx;
  rq_out : sv_out v' = sv_out v ++ sent v x;
  rq_writes : sv_writes v' = S (sv_writes v);
  rq_evs : sv_evs v' = sv_evs v ++ ev;
  rq_counted : exists y, counted (if is_error_value x then 1 else 0) [y] 0 v v'
}.

(** A request whose reply was taken up to its first [k] bytes when the task was dropped. *)
Record request_open (v : SView) (fx : list Effect) (x : RespValue) (ev : list ObservationEvent) (k : nat) (v' : SView) : Prop := {
  ro_fx : sv_fx v' = sv_fx v ++ fx;
  ro_out : sv_out v' = sv_out v ++ take k (enc_value x);
  ro_evs : sv_evs v' = sv_evs v ++ ev;
  ro_counted : counted 0 [] 1 v v'
}.

Lemma bucket_index_lt bounds y : bucket_index bounds y < S (length bounds).
Proof. induction bounds as [|b bounds IH]; cbn; [lia|]. destruct (y <=? b)%Z; lia. Qed.

Lemma as_micros_range d : (0 <= as_micros_u64 d < u64_modulus)%Z.
Proof. apply Z.mod_pos_bound. done. Qed.

(** The two tasks' views agree but for the counters and the maximum. *)
Record same_story (v v' : SView) : Prop := {
  st_fx : sv_fx v' = sv_fx v;
  st_out : sv_out v' = sv_out v;
  st_writes : sv_writes v' = sv_writes v;
  st_evs : sv_evs v' = sv_evs v
}.

Context (Hfuel : wins < fuel).

(** The end of a request: the latency is recorded, cell by cell. *)
Lemma swp_record_request_end d v (Q : outcome io_error unit -> SView -> Prop) :
  (Z.of_nat (sv_wins v) < sv_add v CRequests)%Z ->
  (forall y v', same_story v v' -> sv_lat v' = sv_lat v ++ [y] -> (0 <= y < u64_modulus)%Z -> (y <= sv_seen v')%Z ->
    (sv_seen v <= sv_seen v')%Z -> sv_wins v' <= S (sv_wins v) -> sv_at v' <= wins ->
    (forall c, sv_add v' c = (sv_add v c + cell_delta 0 [y] c
      - match c with CRequests | CInflight => 1 | _ => 0 end)%Z) ->
    Q (Val tt) v') ->
  swp (p_record_request_end bounds_us fuel d) v Q.
Proof.
  intros Hw HQ. unfold p_record_request_end, p_hist_record. cbn -[p_update_max as_micros_u64 u64_modulus].
  pose proof (as_micros_range d) as Hy. set (y := as_micros_u64 d) in *. split_and!; [done|done|lia|lia|].
  apply swp_bind, swp_update_max; [done|cbn; set_solver|cbn; by repeat case_decide|].
  intros v' (x & k & at_ & -> & Hx & Hk & Hat) Hyx. cbn -[u64_modulus] in *. split; [apply bucket_index_lt|].
  apply (HQ y); cbn -[u64_modulus]; try done; try lia.
  intros [| | |i| | |]; cbn; repeat case_decide; simplify_eq; lia.
Qed.

Definition written (v : SView) : outcome io_error unit :=
  match fault (sv_writes v) with None => Val tt | Some _ => Err WriteFailed end.

Lemma swp_finish at_ response wr v (Q : outcome io_error unit -> SView -> Prop) :
  (Z.of_nat (sv_wins v) < sv_add v CRequests)%Z ->
  (forall y v', same_story v v' -> sv_lat v' = sv_lat v ++ [y] -> (0 <= y < u64_modulus)%Z -> (y <= sv_seen v')%Z ->
    (sv_seen v <= sv_seen v')%Z -> sv_wins v' <= S (sv_wins v) -> sv_at v' <= wins ->
    (forall c, sv_add v' c = (sv_add v c + cell_delta (if is_error_response response then 1 else 0) [y] c
      - match c with CRequests | CInflight => 1 | _ => 0 end)%Z) ->
    Q (match wr with Ok _ => Val tt | Error e => Err e end) v') ->
  swp (p_finish_tracked_request bounds_us fuel at_ response wr) v Q.
Proof.
  intros Hw HQ. unfold p_finish_tracked_request. apply swp_bind.
  assert (forall v1, same_story v v1 -> sv_lat v1 = sv_lat v -> sv_seen v1 = sv_seen v -> sv_wins v1 = sv_wins v ->
    (forall c, sv_add v1 c = (sv_add v c + match c with CErrors => if is_error_response response then 1 else 0 | _ => 0 end)%Z) ->
    swp (now ← act ANow; p_record_request_end bounds_us fuel (saturating_sub now at_);;
      Ret (match wr with Ok _ => Val tt | Error e => Err e end)) v1 Q) as Hend.
  { intros v1 [] Hl Hse Hwi Hadd. cbn -[p_record_request_end]. intros j. apply swp_bind, swp_record_request_end.
    { rewrite Hwi, Hadd. lia. }
    intros y v' [] Hl' Hy Hys Hss Hww Hat Hadd'. cbn. apply (HQ y); try congruence; try lia.
    - split; congruence.
    - intros c. rewrite Hadd', Hadd. destruct c; cbn; lia. }
  destruct (is_error_response response); cbn -[p_record_request_end].
  - split; [done|]. apply Hend; try done. intros []; cbn; case_decide; simplify_eq; lia.
  - apply Hend; try done. intros []; lia.
Qed.

Lemma swp_tracked v c respond (Q : outcome io_error unit -> SView -> Prop) :
  ready v -> (sv_add v CRequests < limit)%Z -> (forall v, dispatches v c respond) ->
  (forall fx x ev k v', answered bounds_us c fx x -> reported c x ev -> request_open v fx x ev k v' -> dropped v') ->
  (forall fx x ev v', answered bounds_us c fx x -> reported c x ev -> request_done v fx x ev v' -> Q (written v) v') ->
  swp (p_tracked bounds_us fuel respond) v Q.
Proof.
  intros [Hat Hwins] Hlim Hresp HD HQ. unfold p_tracked, p_record_request_start. cbn -[p_finish_tracked_request].
  split_and!; [done|done|done|]. intros j. apply swp_bind. eapply swp_mono; [|apply Hresp].
  intros o v' (x & fx & ev & -> & Ha & Hr & ->). cbn -[p_finish_tracked_request enc_value]. split.
  { intros k. apply (HD fx x ev k); [done|done|]. split; [done..|]. split; cbn; rewrite ?app_nil_r; try done.
    - split; cbn; repeat case_decide; simplify_eq; lia.
    - intros []; cbn; repeat case_decide; simplify_eq; lia. }
  apply swp_finish; [cbn; repeat case_decide; try done; lia|].
  rewrite (answered_error _ _ _ Ha). intros y v' [Hfx Hout Hwr Hev] Hl Hy Hys Hss Hww Hat' Hadd.
  cbn -[enc_value u64_modulus] in *.
  replace (match match fault (sv_writes v) with None => Ok tt | Some _ => Error WriteFailed end with
           | Ok _ => Val tt | Error e => Err e end) with (written v) by (unfold written; by destruct (fault (sv_writes v))).
  apply (HQ fx x ev); [done|done|]. split; [done..|]. exists y. split.
  - split; [done|]. rewrite Hadd. cbn. repeat case_decide; simplify_eq; lia.
  - intros c'. rewrite Hadd. destruct c'; cbn; repeat case_decide; simplify_eq; lia.
  - done.
  - by constructor.
  - done.
  - by constructor.
Qed.

(** ** Connections *)

Record session_done (v : SView) (n errs left : nat) (fxs : list Effect) (out : bytes) (evs : list ObservationEvent) (v' : SView) : Prop := {
  sd_fx : sv_fx v' = sv_fx v ++ fxs;
  sd_out : sv_out v' = sv_out v ++ out;
  sd_evs : sv_evs v' = sv_evs v ++ evs;
  sd_counted : exists ys, length ys + left = n /\ counted (Z.of_nat errs) ys left v v'
}.

(** How a task with such a parser can end. *)
Definition returns (stop : outcome RespError unit) (o : outcome io_error unit) : Prop :=
  o = Val tt \/ (exists e, o = Err e) \/ (o = Panic /\ stop = Panic).

Lemma session_none v : ready v -> session_done v 0 0 0 [] [] [] v.
Proof. intros Hr. split; rewrite ?app_nil_r; try done. exists []. split; [done|by apply counted_none]. Qed.

Lemma session_request v fx x ev v' :
  request_done v fx x ev v' -> session_done v 1 (if is_error_value x then 1 else 0) 0 fx (sent v x) ev v'.
Proof.
  intros [Hfx Hout Hwr Hev (y & Hc)]. split; [done..|]. exists [y]. split; [done|]. by destruct (is_error_value x).
Qed.

Lemma session_open v fx x ev k v' :
  request_open v fx x ev k v' -> session_done v 1 0 1 fx (take k (enc_value x)) ev v'.
Proof. intros [Hfx Hout Hev Hc]. split; [done..|]. by exists []. Qed.

Lemma session_trans v n1 e1 left1 fx1 out1 ev1 v1 n2 e2 left2 fx2 out2 ev2 v2 :
  session_done v n1 e1 left1 fx1 out1 ev1 v1 -> session_done v1 n2 e2 left2 fx2 out2 ev2 v2 ->
  session_done v (n1 + n2) (e1 + e2) (left1 + left2) (fx1 ++ fx2) (out1 ++ out2) (ev1 ++ ev2) v2.
Proof.
  intros [F1 O1 E1 (y1 & Hl1 & C1)] [F2 O2 E2 (y2 & Hl2 & C2)]. split.
  - by rewrite F2, F1, app_assoc.
  - by rewrite O2, O1, app_assoc.
  - by rewrite E2, E1, app_assoc.
  - exists (y1 ++ y2). rewrite length_app. split; [lia|]. rewrite Nat2Z.inj_add. by eapply counted_trans.
Qed.

Lemma swp_protocol_error v (Q : outcome io_error unit -> SView -> Prop) :
  ready v -> (sv_add v CRequests < limit)%Z ->
  (forall k v', session_done v 1 0 1 [] (take k (enc_value (ErrorReply (lit "ERR protocol error")))) [] v' -> dropped v') ->
  (forall v', session_done v 1 1 0 [] (sent v (ErrorReply (lit "ERR protocol error"))) [] v' -> Q (written v) v') ->
  swp (p_handle_protocol_error bounds_us fuel) v Q.
Proof.
  intros Hr Hlim HD HQ. apply (swp_tracked _ (CBad (lit "protocol error"))); [done|done| | |].
  - intros v1. exists (ErrorReply (lit "ERR protocol error")), [], []. rewrite add_fx_nil, add_evs_nil.
    split_and!; [done|apply (an_bad _ (lit "protocol error"))|done|done].
  - intros fx x ev k v' Ha Hrep Hd. inversion Ha; subst. cbn in Hrep. subst ev. by eapply HD, session_open.
  - intros fx x ev v' Ha Hrep Hd. inversion Ha; subst. cbn in Hrep. subst ev. apply HQ. by apply session_request in Hd.
Qed.

Lemma swp_session stop rend cmds0 cmds : forall v (Q : outcome io_error unit -> SView -> Prop),
  ready v -> (sv_add v CRequests + Z.of_nat (length cmds + protocol_errors stop) <= limit)%Z ->
  stop <> Diverge ->
  (forall fxs out evs n errs left v', cut_off fault bounds_us stop (sv_writes v) cmds fxs out evs n errs left ->
    session_done v n errs left fxs out evs v' -> dropped v') ->
  (forall o fxs out evs n errs v', returns stop o ->
    served fault bounds_us stop (sv_writes v) cmds fxs out evs n errs -> session_done v n errs 0 fxs out evs v' -> Q o v') ->
  swp (p_commands bounds_us started fuel cmds) v
    (fun o v' => swp (carry o (fun _ => p_stop bounds_us fuel (mkSession cmds0 stop rend))) v' Q).
Proof.
  induction cmds as [|args cmds IH]; intros v Q Hr Hlim Hstop HD HQ; cbn [p_commands].
  - unfold mret, prog_ret. cbn [ServerConcWp.swp carry]. unfold p_stop. cbn [se_parser se_read_end].
    split; [by eapply HD, session_none; [constructor|]|].
    destruct stop as [[]|[]| |]; cbn [carry]; [..|done].
    + apply (HQ _ [] [] [] 0 0); [|by constructor|by apply session_none]. unfold returns. destruct rend as [[]|e]; eauto.
    + cbn in Hlim. apply swp_protocol_error; [done|lia|intros k v' Hd; by eapply HD; [by apply cut_protocol_error|]|]. intros v' Hd.
      apply (HQ _ [] (sent v (ErrorReply (lit "ERR protocol error"))) [] 1 1); [|by constructor|done].
      unfold written, returns. destruct (fault _); eauto.
    + apply (HQ _ [] [] [] 0 0); [|by constructor|by apply session_none]. unfold returns. eauto.
  - cbn [length] in Hlim. split; [by eapply HD, session_none; [constructor|]|]. apply swp_bind.
    apply (swp_tracked _ (decode args)); [done|lia|intros v1; by apply swp_dispatch| |].
    { intros fx x ev k v1 Ha Hrep Hd. by eapply HD, session_open; [by apply cut_writing|]. }
    intros fx x ev v1 Ha Hrep Hd.
    pose proof (session_request _ _ _ _ _ Hd) as Hs. unfold written, sent in *. destruct (fault (sv_writes v)) as [k|] eqn:Hf; cbn [carry].
    + apply (HQ _ fx (take k (enc_value x)) ev 1 (if is_error_value x then 1 else 0)); [right; eauto|by eapply served_cut|exact Hs].
    + destruct (rq_counted _ _ _ _ _ Hd) as (y & [Hr1 Hadd _ _ _ _]). apply IH; [done| |done| |].
      * rewrite Hadd. cbn. lia.
      * intros fxs out evs n errs left v' Hcut Hd'. eapply HD; [|exact (session_trans _ _ _ _ _ _ _ _ _ _ _ _ _ _ _ Hs Hd')].
        rewrite (rq_writes _ _ _ _ _ Hd) in Hcut. by apply cut_next.
      * intros o fxs out evs n errs v' Ho Hserved Hd'. eapply HQ; [done| |exact (session_trans _ _ _ 0 _ _ _ _ _ _ 0 _ _ _ _ Hs Hd')].
        rewrite (rq_writes _ _ _ _ _ Hd) in Hserved. by apply served_next.
Qed.

End requests.
