(* ===== verification/ServerConcInv.v ===== *)
(** * The invariant of a server with many connections (hkv-server/src/server.rs)

    What all tasks share but for the engine, in terms of what each has done (the
    views of ServerConcWp.v): every counter is what all tasks added, the maximum is
    the greatest latency any of them has seen, the log holds what they reported.
    Every action of every task keeps it. *)

From S2P Require Import Prelude Threads Errors KVEngine RespParser RespClient RespClientThms Observation F64 Metrics Server.
From S2P Require Import ServerSpec ServerThms ServerConc ServerConcSpec ServerConcWp ServerConcReq.

(** ** Parts of a common sequence *)

Definition own {T} (i : nat) (l : list (nat * T)) : list T := snd <$> filter (fun x => fst x = i) l.

(** The [ls] are the parts of the sequence [l]. *)
Definition owned {T} (l : list (nat * T)) (ls : list (list T)) : Prop :=
  Forall (fun x => fst x < length ls) l /\ forall i part, ls !! i = Some part -> part = own i l.

Lemma owned_nil {T} (ls : list (list T)) : (forall part, part ∈ ls -> part = []) -> owned [] ls.
Proof. intros Hn. split; [constructor|]. intros i part Hi. by apply Hn, (list_elem_of_lookup_2 _ i). Qed.

Lemma owned_snoc {T} (l : list (nat * T)) ls t part y :
  owned l ls -> ls !! t = Some part -> owned (l ++ [(t, y)]) (<[t := part ++ [y]]> ls).
Proof.
  intros [Hlt Hown] Ht. pose proof (lookup_lt_Some _ _ _ Ht) as Hlen. split.
  - rewrite length_insert. apply Forall_app. split; [done|]. by constructor.
  - intros i q Hi. unfold own. rewrite filter_app, fmap_app. destruct (decide (t = i)) as [<-|Hne].
    + rewrite list_lookup_insert_eq in Hi by done. injection Hi as <-. rewrite (Hown _ _ Ht).
      rewrite filter_cons_True by done. done.
    + rewrite list_lookup_insert_ne in Hi by done. rewrite (Hown _ _ Hi).
      rewrite filter_cons_False by (cbn; congruence). cbn. by rewrite app_nil_r.
Qed.

Lemma fmap_insert_same {A B} (f : A -> B) (l : list A) (i : nat) x x' :
  l !! i = Some x -> f x' = f x -> f <$> <[i := x']> l = f <$> l.
Proof. intros Hi Hf. rewrite list_fmap_insert, Hf. apply list_insert_id. by rewrite list_lookup_fmap, Hi. Qed.

(** ** The invariant of the shared memory *)

Section inv.
Context (clock : nat -> Instant) (wall : nat -> SystemTime) (fault : nat -> nat -> option nat).
Context (bounds_us : list Z) (sessions : list Session).

(** What was there at the start. *)
Context (m0 : Metrics) (log0 : option SharedObservationLog).

Definition all_requests : nat := sum_list (requests <$> sessions).

Definition log_part (log : option SharedObservationLog) (evss : list (list ObservationEvent)) : Prop :=
  exists evs, log = (fun l => l ++ (snd <$> evs)) <$> log0 /\ owned evs evss.

Definition counted_cell (c : Cell) : bool :=
  match c with CMax => false | CBucket i => i <? S (length bounds_us) | _ => true end.

Record cells_part (m : Metrics) (adds : list (Cell -> Z)) : Prop := {
  cp_cells c : counted_cell c = true -> cell_get c m = wrap64 (cell_get c m0 + zsum (fun f => f c) adds);
  cp_bounds : h_bounds_us (latency m) = bounds_us;
  cp_buckets : length (h_buckets (latency m)) = S (length bounds_us);
  cp_started : started_at m = started_at m0
}.

Definition all_wins (vs : list SView) : nat := sum_list (sv_wins <$> vs).

Record max_part (mx : Z) (vs : list SView) : Prop := {
  mx_known : mx = h_max_us (latency m0) \/ exists v, v ∈ vs /\ mx ∈ sv_lat v;
  mx_start : (h_max_us (latency m0) <= mx)%Z;
  mx_seen v : v ∈ vs -> (sv_seen v <= mx)%Z;
  mx_at v : v ∈ vs -> sv_at v <= all_wins vs /\ (sv_at v = all_wins vs -> sv_seen v = mx)
}.

(** Per task: the requests it may count, and what it may have raised. *)
Definition view_ok (s : Session) (v : SView) : Prop :=
  (Z.of_nat (sv_wins v) <= sv_add v CRequests <= Z.of_nat (requests s))%Z
  /\ Forall (fun y => 0 <= y < u64_modulus)%Z (sv_lat v).

Record shared_inv (w : SShared) (vs : list SView) : Prop := {
  sh_log_part : log_part (ss_log w) (sv_evs <$> vs);
  sh_socks : ss_socks w = (fun v => (sv_out v, sv_writes v)) <$> vs;
  sh_cells : cells_part (ss_metrics w) (sv_add <$> vs);
  sh_max : max_part (h_max_us (latency (ss_metrics w))) vs;
  sh_views : Forall2 view_ok sessions vs
}.

Lemma wins_bound w vs : shared_inv w vs -> all_wins vs <= all_requests.
Proof.
  intros [_ _ _ _ Hv]. unfold all_wins, all_requests. induction Hv as [|s v ss vs' [Hs _] _ IH]; cbn; lia.
Qed.

(** *** Cells *)

Lemma cell_get_set c c' x m :
  (forall i, c' = CBucket i -> i < length (h_buckets (latency m))) ->
  cell_get c (cell_set c' x m) = if decide (c = c') then x else cell_get c m.
Proof.
  intros Hr. destruct c as [| | |i| | |], c' as [| | |j| | |]; cbn; try done; repeat case_decide; simplify_eq; try done.
  - by rewrite list_lookup_insert_eq by (by apply Hr).
  - rewrite list_lookup_insert_ne by congruence. done.
Qed.

Lemma cells_add m adds t f c n :
  cells_part m adds -> adds !! t = Some f -> c <> CMax -> (forall i, c = CBucket i -> i < S (length bounds_us)) ->
  cells_part (cell_set c (wrap64 (cell_get c m + n)) m)
    (<[t := fun c' => if decide (c' = c) then f c' + n else f c']> adds)%Z.
Proof.
  intros [Hc Hb Hk Hs] Ht Hmax Hr. split.
  - intros c' Hc'. rewrite cell_get_set by (by rewrite Hk). rewrite (zsum_insert _ _ _ _ _ Ht). destruct (decide (c' = c)) as [-> |].
    + rewrite Hc, wrap64_add_l by done. f_equal. lia.
    + rewrite Hc by done. f_equal. lia.
  - by destruct c.
  - destruct c; cbn; rewrite ?length_insert; done.
  - by destruct c.
Qed.

Lemma all_wins_insert vs t v v' :
  vs !! t = Some v -> all_wins (<[t := v']> vs) + sv_wins v = all_wins vs + sv_wins v'.
Proof.
  unfold all_wins. revert t. induction vs as [|u vs IH]; intros [|t] Ht; simplify_eq/=; [lia|]. specialize (IH _ Ht). lia.
Qed.

Lemma elem_of_insert (vs : list SView) t v' u : u ∈ <[t := v']> vs -> u = v' \/ u ∈ vs.
Proof.
  intros [i Hi]%list_elem_of_lookup_1. destruct (decide (t = i)) as [<-|].
  - rewrite list_lookup_insert_eq in Hi; [injection Hi; auto|]. apply lookup_lt_Some in Hi. by rewrite length_insert in Hi.
  - rewrite list_lookup_insert_ne in Hi by done. right. by eapply list_elem_of_lookup_2.
Qed.

Lemma max_update mx mx' vs t v v' :
  max_part mx vs -> vs !! t = Some v -> (mx <= mx')%Z -> mx' = mx \/ mx' ∈ sv_lat v' ->
  (forall y, y ∈ sv_lat v -> y ∈ sv_lat v') -> (sv_seen v' <= mx')%Z ->
  sv_at v' <= all_wins (<[t := v']> vs) /\ (sv_at v' = all_wins (<[t := v']> vs) -> sv_seen v' = mx') ->
  (mx' = mx /\ sv_wins v' = sv_wins v) \/ sv_wins v' = S (sv_wins v) ->
  max_part mx' (<[t := v']> vs).
Proof.
  intros [Hk Hs Hse Ha] Ht Hle Hnew Hlat Hseen Hat Hw. pose proof (all_wins_insert vs t v v' Ht) as HW.
  assert (v' ∈ <[t := v']> vs) as Hin by (eapply list_elem_of_lookup_2, list_lookup_insert_eq, lookup_lt_Some, Ht).
  split.
  - destruct Hnew as [-> |Hnew]; [|by right; exists v']. destruct Hk as [Hk|(u & Hu & Hmx)]; [by left|right].
    apply list_elem_of_lookup_1 in Hu as [i Hi]. destruct (decide (t = i)) as [<-|Hne].
    + exists v'. split; [done|]. apply Hlat. by simplify_eq.
    + exists u. split; [|done]. apply (list_elem_of_lookup_2 _ i). by rewrite list_lookup_insert_ne.
  - lia.
  - intros u [-> |Hu]%elem_of_insert; [done|]. specialize (Hse u Hu). lia.
  - intros u [-> |Hu]%elem_of_insert; [done|]. destruct (Ha u Hu) as [H1 H2]. destruct Hw as [[-> Hw]|Hw]; [|lia].
    split; [lia|]. intros E1. apply H2. lia.
Qed.

Lemma max_other mx vs t v v' :
  max_part mx vs -> vs !! t = Some v -> (forall y, y ∈ sv_lat v -> y ∈ sv_lat v') -> sv_seen v' = sv_seen v ->
  sv_wins v' = sv_wins v -> sv_at v' = sv_at v -> max_part mx (<[t := v']> vs).
Proof.
  intros Hm Ht Hl Hse Hw Hat. pose proof (all_wins_insert vs t v v' Ht) as HW.
  assert (v ∈ vs) as Hin by (by eapply list_elem_of_lookup_2). destruct (mx_at _ _ Hm v Hin) as [H1 H2].
  pose proof (mx_seen _ _ Hm v Hin). eapply max_update; [done|done|lia|by left|done|lia| |by left].
  rewrite Hat, Hse. split; [lia|]. intros E1. apply H2. lia.
Qed.

(** *** Actions *)

Section act.
Context (t : nat) (se : Session) (v : SView) (w : SShared) (vs : list SView) (dropped : SView -> Prop).
Context (Hinv : shared_inv w vs) (Hse : sessions !! t = Some se) (Hv : vs !! t = Some v).

Abbreviation swp_act := (swp_act clock wall (fault t) (S (length bounds_us)) (Z.of_nat (requests se)) all_requests dropped).
Abbreviation act_run := (sact_run clock wall fault t).

Lemma view_here : view_ok se v.
Proof. destruct (Forall2_lookup_lr _ _ _ _ _ _ (sh_views _ _ Hinv) Hse Hv). by split. Qed.

Lemma views_update v' : view_ok se v' -> Forall2 view_ok sessions (<[t := v']> vs).
Proof. intros Hv'. rewrite <- (list_insert_id sessions t se Hse). apply Forall2_insert; [apply Hinv|done]. Qed.

(** An action that leaves counters, maximum and latencies alone. *)
Lemma shared_story w' v' :
  log_part (ss_log w') (<[t := sv_evs v']> (sv_evs <$> vs)) ->
  ss_socks w' = <[t := (sv_out v', sv_writes v')]> (ss_socks w) -> ss_metrics w' = ss_metrics w ->
  sv_add v' = sv_add v -> sv_lat v' = sv_lat v -> sv_seen v' = sv_seen v -> sv_wins v' = sv_wins v -> sv_at v' = sv_at v ->
  shared_inv w' (<[t := v']> vs).
Proof.
  intros Hl Hs Hm Ha Hlat Hseen Hw Hat. destruct Hinv as [_ Hsocks Hcells Hmax _]. split.
  - by rewrite list_fmap_insert.
  - by rewrite Hs, Hsocks, list_fmap_insert.
  - rewrite Hm, (fmap_insert_same sv_add vs t v v' Hv Ha). done.
  - rewrite Hm. eapply max_other; try done. by rewrite Hlat.
  - apply views_update. unfold view_ok. rewrite Ha, Hlat, Hw. apply view_here.
Qed.

Lemma log_same : log_part (ss_log w) (<[t := sv_evs v]> (sv_evs <$> vs)).
Proof. rewrite list_insert_id by (by rewrite list_lookup_fmap, Hv). apply Hinv. Qed.
Lemma sock_here : ss_socks w !! t = Some (sv_out v, sv_writes v).
Proof. rewrite (sh_socks _ _ Hinv), list_lookup_fmap, Hv. done. Qed.
Lemma socks_same : ss_socks w = <[t := (sv_out v, sv_writes v)]> (ss_socks w).
Proof. symmetry. apply list_insert_id, sock_here. Qed.

(** An engine call shows in nothing else. *)
Lemma shared_call fx : shared_inv w (<[t := add_fx fx v]> vs).
Proof. apply shared_story; try done; [apply log_same|apply socks_same]. Qed.

Lemma act_record ev R x w' :
  swp_act (ARecord ev) v R -> act_run (ARecord ev) w = Some (x, w') ->
  exists v', R x v' /\ shared_inv w' (<[t := v']> vs).
Proof.
  intros HR Hrun. cbn in HR, Hrun. simplify_eq. eexists. split; [apply HR|].
  apply shared_story; try done; [|apply socks_same].
  destruct (sh_log_part _ _ Hinv) as (evs & -> & Hown). exists (evs ++ [(t, ev)]). split.
  - cbn. destruct log0 as [l|]; [|done]. cbn. by rewrite fmap_app, app_assoc.
  - apply owned_snoc; [done|]. by rewrite list_lookup_fmap, Hv.
Qed.

Lemma act_write response R x w' :
  swp_act (AWrite response) v R -> act_run (AWrite response) w = Some (x, w') ->
  exists v', R x v' /\ shared_inv w' (<[t := v']> vs).
Proof.
  intros [_ HR] Hrun. cbn in HR, Hrun. rewrite sock_here in Hrun. cbn in Hrun.
  destruct (fault t (sv_writes v)) as [k|]; simplify_eq; (eexists; split; [exact HR|]);
    apply shared_story; try done; apply log_same.
Qed.

Lemma act_read R x w' :
  swp_act ARead v R -> act_run ARead w = Some (x, w') -> exists v', R x v' /\ shared_inv w' (<[t := v']> vs).
Proof. intros [_ HR] Hrun. cbn in Hrun. simplify_eq. exists v. split; [done|]. by rewrite list_insert_id. Qed.

(** The task is dropped. *)
Lemma act_dropped {X} (a : SAct X) k R w' :
  swp_act a v R -> sact_drop t a k w = Some w' ->
  exists v', dropped v' /\ sv_fx v' = sv_fx v /\ shared_inv w' (<[t := v']> vs).
Proof.
  intros HR Hrun. destruct a as [| |o|ev| |response|c n|c|c x y]; try done; cbn in HR, Hrun; destruct HR as [HD _].
  - simplify_eq. exists v. split_and!; [done..|]. by rewrite list_insert_id.
  - rewrite sock_here in Hrun. cbn in Hrun. simplify_eq. eexists. split_and!; [apply HD|done|].
    apply shared_story; try done; apply log_same.
Qed.

Lemma act_time {X} (a : SAct X) R x w' :
  (match a with ANow | AWall => True | _ => False end) -> swp_act a v R -> act_run a w = Some (x, w') ->
  exists v', R x v' /\ shared_inv w' (<[t := v']> vs).
Proof.
  intros Ha HR Hrun. exists v. destruct a; try done; cbn in HR, Hrun; simplify_eq; (split; [apply HR|]);
    apply shared_story; try done; first [apply log_same|apply socks_same].
Qed.

(** Only the metrics change. *)
Lemma shared_metrics m' v' :
  sv_evs v' = sv_evs v -> sv_out v' = sv_out v -> sv_writes v' = sv_writes v ->
  cells_part m' (<[t := sv_add v']> (sv_add <$> vs)) -> max_part (h_max_us (latency m')) (<[t := v']> vs) -> view_ok se v' ->
  shared_inv (mkSShared m' (ss_log w) (ss_ticks w) (ss_socks w)) (<[t := v']> vs).
Proof.
  intros He Ho Hw Hc Hm Hok. destruct Hinv as [H2 H3 _ _ _]. split; cbn.
  - by rewrite (fmap_insert_same sv_evs vs t v v' Hv He).
  - rewrite H3. symmetry. apply (fmap_insert_same _ vs t v v' Hv). by rewrite Ho, Hw.
  - by rewrite list_fmap_insert.
  - done.
  - by apply views_update.
Qed.

Lemma act_fetch_add c n R x w' :
  swp_act (AFetchAdd c n) v R -> act_run (AFetchAdd c n) w = Some (x, w') ->
  exists v', R x v' /\ shared_inv w' (<[t := v']> vs).
Proof.
  intros [Hok HR] Hrun. cbn in Hrun. simplify_eq. eexists. split; [exact HR|].
  pose proof view_here as [Hreq Hlat]. apply shared_metrics; try done.
  - apply cells_add; [apply Hinv|by rewrite list_lookup_fmap, Hv|by intros ->|by intros i ->].
  - assert (h_max_us (latency (cell_set c (wrap64 (cell_get c (ss_metrics w) + n)) (ss_metrics w)))
      = h_max_us (latency (ss_metrics w))) as -> by (destruct c; done).
    eapply max_other; try done; [apply Hinv|]. intros y Hy. cbn. case_decide; [|done]. apply elem_of_app. by left.
  - split; cbn.
    + destruct (decide (CRequests = c)) as [<-|]; cbn in Hok; lia.
    + destruct (decide (c = CSum)) as [-> |]; [|done]. apply Forall_app. split; [done|]. by constructor.
Qed.

(** The maximum as the task finds it. *)
Lemma max_here : v ∈ vs.
Proof. by eapply list_elem_of_lookup_2. Qed.

Abbreviation mx := (h_max_us (latency (ss_metrics w))).

Lemma shared_saw : shared_inv w (<[t := saw mx (all_wins vs) v]> vs).
Proof.
  pose proof (all_wins_insert vs t v (saw mx (all_wins vs) v) Hv) as HW. cbn in HW.
  assert (w = mkSShared (ss_metrics w) (ss_log w) (ss_ticks w) (ss_socks w)) as Ew by (by destruct w).
  rewrite Ew at 1. apply shared_metrics; try done.
  - rewrite list_insert_id by (by rewrite list_lookup_fmap, Hv). apply Hinv.
  - apply (max_update mx mx vs t v); [apply Hinv|done|lia|by left|done|cbn; lia| |by left]. cbn. split; [lia|done].
  - apply view_here.
Qed.

Lemma load_shared c R x w' :
  swp_act (ALoad c) v R -> act_run (ALoad c) w = Some (x, w') -> exists v', R x v' /\ shared_inv w' (<[t := v']> vs).
Proof.
  intros HR Hrun. cbn in Hrun. injection Hrun as <- <-. assert (shared_inv w (<[t := v]> vs)) as Hsame by (by rewrite list_insert_id).
  destruct c; cbn in HR; try (exists v; by split).
  destruct (HR mx (all_wins vs)) as [HR'|HR'].
  - apply (mx_seen _ _ (sh_max _ _ Hinv)), max_here.
  - by eapply wins_bound.
  - eexists. split; [exact HR'|]. apply shared_saw.
  - exists v. by split.
Qed.

Lemma act_compare_exchange c current new R x w' :
  swp_act (ACompareExchange c current new) v R -> act_run (ACompareExchange c current new) w = Some (x, w') ->
  exists v', R x v' /\ shared_inv w' (<[t := v']> vs).
Proof.
  intros (-> & -> & Hlt & Hnew & Hwins & Hwon & Hlost) Hrun. cbn in Hrun.
  pose proof (sh_max _ _ Hinv) as Hm. destruct (mx_at _ _ Hm v max_here) as [Hat Hseen].
  pose proof (mx_seen _ _ Hm v max_here) as Hle. case_bool_decide as Hcur; injection Hrun as <- <-.
  - eexists. split; [exact Hwon|]. pose proof (all_wins_insert vs t v (won new v) Hv) as HW. cbn in HW.
    apply shared_metrics; try done.
    + change (sv_add (won new v)) with (sv_add v). rewrite list_insert_id by (by rewrite list_lookup_fmap, Hv).
      destruct (sh_cells _ _ Hinv) as [Hc Hb Hk Hs]. split; [|done..]. intros c Hc'. rewrite <- Hc by done. by destruct c.
    + apply (max_update mx _ vs t v); cbn; [done|done|lia|by right|done|lia| |by right]. split; [lia|]. intros E1. lia.
    + pose proof view_here as [? ?]. split; [cbn; lia|done].
  - eexists. split; [apply (Hlost _ (all_wins vs))|apply shared_saw].
    + lia.
    + split; [|by eapply wins_bound]. destruct (decide (sv_at v = all_wins vs)) as [E1|]; [|lia]. specialize (Hseen E1). congruence.
Qed.

Lemma act_shared {X} (a : SAct X) R x w' :
  swp_act a v R -> act_run a w = Some (x, w') -> exists v', R x v' /\ shared_inv w' (<[t := v']> vs).
Proof.
  destruct a.
  - by apply (act_time ANow).
  - by apply (act_time AWall).
  - by intros _ Hrun.
  - apply act_record.
  - apply act_read.
  - apply act_write.
  - apply act_fetch_add.
  - apply load_shared.
  - apply act_compare_exchange.
Qed.

End act.

End inv.
