(* ===== verification/ServerConcCount.v ===== *)
(** * What finished tasks leave (hkv-server/src/server.rs, metrics.rs)

    A task that ran to its end has served its connection, one that was dropped a
    part of it; the counters and the histogram of all tasks together are those of
    one latency per request, but for the requests that tasks were dropped in. *)

From S2P Require Import Prelude Threads Errors KVEngine RespParser RespClient RespClientThms Observation F64 Metrics Server.
From S2P Require Import ServerSpec ServerThms ServerConc ServerConcSpec ServerConcWp ServerConcReq ServerConcInv.

(** ** The histogram of all tasks *)

Lemma bucket_index_cons x bounds y :
  bucket_index (x :: bounds) y = if (y <=? x)%Z then 0 else S (bucket_index bounds y).
Proof. done. Qed.

Lemma buckets_lookup bounds : forall ys i,
  i < S (length bounds) ->
  buckets_of bounds ys !! i = Some (zsum (fun y => if decide (i = bucket_index bounds y) then 1 else 0)%Z ys).
Proof.
  induction bounds as [|x bounds IH]; intros ys i Hi; cbn in Hi.
  - assert (i = 0) as -> by lia. cbn. f_equal. induction ys as [|y ys IHy]; [done|]. cbn [length zsum]. rewrite <- IHy, decide_True by done. lia.
  - destruct i as [|i]; cbn [buckets_of lookup list_lookup].
    + f_equal. unfold at_most. clear IH. induction ys as [|y ys IHy]; [done|]. rewrite filter_cons. cbn [zsum].
      rewrite <- IHy, bucket_index_cons. destruct (Z.leb_spec y x) as [Hle|Hgt].
      * rewrite decide_True by done. rewrite decide_True by done. cbn [length]. lia.
      * rewrite decide_False by lia. rewrite decide_False by done. lia.
    + change (buckets_of bounds (filter (fun y => ~ (y <= x)%Z) ys) !! i
        = Some (zsum (fun y => if decide (S i = bucket_index (x :: bounds) y) then 1 else 0)%Z ys)).
      rewrite IH by lia. f_equal. clear IH. induction ys as [|y ys IHy]; [done|]. rewrite filter_cons. cbn [zsum].
      rewrite <- IHy, bucket_index_cons. destruct (Z.leb_spec y x) as [Hle|Hgt].
      * rewrite decide_False by lia. rewrite decide_False by done. lia.
      * rewrite decide_True by lia. cbn [zsum]. f_equal. by repeat case_decide; simplify_eq.
Qed.

Lemma max_of_unique ys mx :
  (mx = 0 \/ mx ∈ ys)%Z -> (0 <= mx)%Z -> Forall (fun y => y <= mx)%Z ys -> mx = max_of ys.
Proof.
  intros Hk H0 Hall. unfold max_of. pose proof (foldl_max_ge ys 0).
  assert (forall a, (mx ∈ a :: ys) -> (mx <= foldl Z.max a ys)%Z) as Hge.
  { clear. induction ys as [|y ys IH]; intros a; cbn [foldl].
    - intros ->%list_elem_of_singleton. lia.
    - intros [-> |[-> |Hin]%elem_of_cons]%elem_of_cons.
      + pose proof (foldl_max_ge ys (Z.max a y)). lia.
      + pose proof (foldl_max_ge ys (Z.max a y)). lia.
      + apply IH. by right. }
  assert (mx <= foldl Z.max 0 ys)%Z by (apply Hge; destruct Hk as [-> |]; by constructor).
  destruct (foldl_max_in ys 0) as [E|Hin]; [lia|]. rewrite Forall_forall in Hall. specialize (Hall _ Hin). lia.
Qed.

Lemma foldl_add_zsum ys : forall a, foldl Z.add a ys = (a + zsum id ys)%Z.
Proof. induction ys as [|y ys IH]; intros a; cbn [foldl zsum id]; [lia|]. rewrite IH. unfold id. lia. Qed.

Lemma micros_back ys : Forall (fun y => 0 <= y < u64_modulus)%Z ys -> as_micros_u64 <$> ((fun y => y * 1000)%Z <$> ys) = ys.
Proof.
  induction 1 as [|y ys Hy _ IH]; [done|]. rewrite !fmap_cons, IH. f_equal. unfold as_micros_u64.
  rewrite Z.div_mul by done. by apply wrap64_small.
Qed.

(** A histogram whose cells are those of the latencies [ys]. *)
Lemma hist_of_cells bounds h ys :
  Forall (fun y => 0 <= y < u64_modulus)%Z ys -> (Z.of_nat (length ys) < u64_modulus)%Z ->
  h_bounds_us h = bounds -> length (h_buckets h) = S (length bounds) ->
  (forall i, i < S (length bounds) -> default 0%Z (h_buckets h !! i)
     = wrap64 (zsum (fun y => if decide (i = bucket_index bounds y) then 1 else 0)%Z ys)) ->
  h_sum_us h = wrap64 (zsum id ys) -> h_samples h = Z.of_nat (length ys) ->
  (h_max_us h = 0 \/ h_max_us h ∈ ys)%Z -> (0 <= h_max_us h)%Z -> Forall (fun y => y <= h_max_us h)%Z ys ->
  h = record_all ((fun y => y * 1000)%Z <$> ys) (hist_new bounds).
Proof.
  intros Hr Hlen Hb Hk Hcells Hsum Hsmp Hmx H0 Hall. rewrite record_all_run by (by rewrite length_fmap).
  rewrite micros_back by done. rewrite length_fmap. destruct h as [hb hk hs hn hm]. cbn in *. subst hb hs hn.
  f_equal; [|by rewrite foldl_add_zsum|by apply max_of_unique].
  apply list_eq. intros i. destruct (decide (i < S (length bounds))) as [Hi|Hi].
  - rewrite buckets_lookup by done. destruct (lookup_lt_is_Some_2 hk i) as [x Hx]; [lia|]. rewrite Hx. f_equal.
    specialize (Hcells i Hi). rewrite Hx in Hcells. cbn in Hcells. rewrite Hcells. apply wrap64_small.
    assert (forall P : Z -> bool, (0 <= zsum (fun y => if P y then 1 else 0) ys <= Z.of_nat (length ys))%Z) as Hb.
    { clear. intros P. induction ys as [|y ys IH]; cbn [zsum length]; [lia|]. destruct (P y); lia. }
    specialize (Hb (fun y => bool_decide (i = bucket_index bounds y))).
    assert (zsum (fun y => if bool_decide (i = bucket_index bounds y) then 1 else 0)%Z ys
      = zsum (fun y => if decide (i = bucket_index bounds y) then 1 else 0)%Z ys) as Eb.
    { clear. induction ys as [|y ys IH]; cbn [zsum]; [done|]. rewrite IH. f_equal. case_bool_decide; [by rewrite decide_True|by rewrite decide_False]. }
    lia.
  - rewrite !lookup_ge_None_2; [done| |lia]. assert (length (buckets_of bounds ys) = S (length bounds)) as ->; [|lia].
    clear. revert ys. induction bounds as [|x bounds IH]; intros ys; cbn; [done|]. by rewrite IH.
Qed.

(** ** Tasks *)

Section tasks.
Context (clock : nat -> Instant) (wall : nat -> SystemTime) (fault : nat -> nat -> option nat).
Context (bounds_us : list Z) (started : Instant) (fuel : nat) (sessions : list Session) (m0 : Metrics).

Abbreviation first_view := (sv_start (h_max_us (latency m0))).

Definition finished (d : bool) (i : nat) (se : Session) (v : SView) : Prop :=
  exists fxs out evs n errs left, handled d (fault i) bounds_us se fxs out evs n errs left
    /\ session_done (all_requests sessions) bounds_us first_view n errs left fxs out evs v.

Lemma swp_connection i se :
  all_requests sessions < fuel -> se_parser se <> Diverge ->
  swp clock wall (fault i) (S (length bounds_us)) (Z.of_nat (requests se)) (all_requests sessions) (finished true i se)
    (p_session bounds_us started fuel se) first_view (fun o v' => returns (se_parser se) o /\ finished false i se v').
Proof.
  intros Hfuel Hstop. destruct se as [cmds stop rend]. cbn in Hstop. apply swp_bind.
  apply swp_session; [done|by split; cbn; lia|done|done| |].
  - intros fxs out evs n errs left v' Hc Hd. by exists fxs, out, evs, n, errs, left.
  - intros o fxs out evs n errs v' Ho Hs Hd. split; [done|]. by exists fxs, out, evs, n, errs, 0.
Qed.

Lemma shared_start log0 ticks :
  h_bounds_us (latency m0) = bounds_us -> length (h_buckets (latency m0)) = S (length bounds_us) ->
  (forall c, counted_cell bounds_us c = true -> (0 <= cell_get c m0 < u64_modulus)%Z) ->
  shared_inv bounds_us sessions m0 log0 (mkSShared m0 log0 ticks ((fun _ => ([], 0)) <$> sessions)) ((fun _ => first_view) <$> sessions).
Proof.
  intros Hbounds Hbuckets Hcells.
  assert (forall v, v ∈ (fun _ : Session => first_view) <$> sessions -> v = first_view) as Hall
    by (by intros v (se & -> & _)%list_elem_of_fmap).
  split; cbn.
  - exists []. split; [destruct log0; cbn; by rewrite ?app_nil_r|]. apply owned_nil.
    intros part (v & -> & (se & -> & _)%list_elem_of_fmap)%list_elem_of_fmap. done.
  - by rewrite <- list_fmap_compose.
  - split; [|done..]. intros c Hc. replace (zsum (fun f : Cell -> Z => f c) _) with 0%Z.
    + rewrite Z.add_0_r, wrap64_small; [done|by apply Hcells].
    + clear. induction sessions as [|se ss IH]; [done|]. cbn. by rewrite <- IH.
  - assert (all_wins ((fun _ : Session => first_view) <$> sessions) = 0) as HW by (clear; unfold all_wins; induction sessions; cbn; lia).
    split; [by left|done|by intros v ->%Hall|]. intros v ->%Hall. rewrite HW. cbn. split; [lia|done].
  - clear. induction sessions as [|se ss IH]; cbn; constructor; [|done]. split; cbn; [lia|done].
Qed.

End tasks.

(** ** The counters of finished tasks *)

(** What a finished task added, in terms of its latencies and of the request it was
    dropped in, if any. *)
Definition left_open (v : SView) : nat := Z.to_nat (sv_add v CInflight).
Definition adds_up (bounds_us : list Z) (v : SView) : Prop :=
  (0 <= sv_add v CErrors <= Z.of_nat (length (sv_lat v)))%Z
  /\ (forall c, sv_add v c = cell_delta bounds_us (sv_add v CErrors) (sv_lat v) c + open_delta (left_open v) c)%Z
  /\ Forall (fun y => y <= sv_seen v)%Z (sv_lat v) /\ Forall (fun y => 0 <= y < u64_modulus)%Z (sv_lat v).

Definition all_open (vs : list SView) : nat := sum_list (left_open <$> vs).

Lemma cells_of_all bounds_us vs c :
  (forall v, v ∈ vs -> adds_up bounds_us v) ->
  (zsum (fun f : Cell -> Z => f c) (sv_add <$> vs)
  = cell_delta bounds_us (zsum (fun v => sv_add v CErrors) vs) (concat (sv_lat <$> vs)) c + open_delta (all_open vs) c)%Z.
Proof.
  unfold all_open. induction vs as [|v vs IH]; intros Hv; [by destruct c|]. cbn [fmap list_fmap zsum concat sum_list].
  rewrite cell_delta_app, IH by (intros u Hu; apply Hv; by right).
  destruct (Hv v (list_elem_of_here _ _)) as (_ & Hc & _). rewrite (Hc c). destruct c; cbn; lia.
Qed.

Lemma finished_adds_up fault bounds_us sessions m0 d i se v :
  finished fault bounds_us sessions m0 d i se v -> adds_up bounds_us v
  /\ exists fxs out evs, handled d (fault i) bounds_us se fxs out evs
       (length (sv_lat v) + left_open v) (Z.to_nat (sv_add v CErrors)) (left_open v).
Proof.
  intros (fxs & out & evs & n & errs & left & Hs & [_ _ _ (ys & Hn & [_ Ha Hl Hr _ Hc])]). cbn in Ha, Hl.
  assert (sv_add v CErrors = Z.of_nat errs) as He by (rewrite Ha; cbn; lia).
  assert (left_open v = left) as Hleft by (unfold left_open; rewrite Ha; cbn; lia).
  split; [|exists fxs, out, evs; by rewrite Hl, He, Hleft, Nat2Z.id, Hn].
  destruct (handled_requests _ _ _ _ _ _ _ _ _ _ Hs) as [_ Hen].
  split; [rewrite He, Hl; lia|]. rewrite He, Hl, Hleft. split_and!; [|done|done]. intros c. rewrite Ha. lia.
Qed.

Lemma fresh_cells bounds_us now c : cell_get c (with_latency_buckets bounds_us now) = 0%Z.
Proof.
  destruct c as [| | |i| | |]; try done. cbn [cell_get with_latency_buckets latency hist_new h_buckets].
  destruct (replicate _ _ !! i) as [x|] eqn:Hi; [|done]. by apply lookup_replicate in Hi as [-> _].
Qed.

Lemma fresh_buckets bounds_us now :
  length (h_buckets (latency (with_latency_buckets bounds_us now))) = S (length bounds_us).
Proof. apply length_replicate. Qed.

Lemma sum_lengths {A} (f : A -> list Z) (l : list A) : sum_list ((fun x => length (f x)) <$> l) = length (concat (f <$> l)).
Proof. induction l as [|x l IH]; [done|]. cbn. by rewrite IH, length_app. Qed.

Lemma sum_zsum {A} (f : A -> Z) (l : list A) :
  (forall x, x ∈ l -> (0 <= f x)%Z) -> Z.of_nat (sum_list ((fun x => Z.to_nat (f x)) <$> l)) = zsum f l.
Proof.
  induction l as [|x l IH]; intros Hf; [done|]. cbn. rewrite Nat2Z.inj_add, IH by (intros y Hy; apply Hf; by right).
  rewrite Z2Nat.id; [done|]. apply Hf, list_elem_of_here.
Qed.

Lemma Forall_concat_fmap {A B} (P : B -> Prop) (f : A -> list B) (l : list A) :
  (forall x, x ∈ l -> Forall P (f x)) -> Forall P (concat (f <$> l)).
Proof.
  induction l as [|x l IH]; intros Hf; [constructor|]. cbn. apply Forall_app. split; [apply Hf, list_elem_of_here|].
  apply IH. intros y Hy. apply Hf. by right.
Qed.

Lemma in_concat_fmap {A B} (f : A -> list B) (l : list A) x y : x ∈ l -> y ∈ f x -> y ∈ concat (f <$> l).
Proof. induction 1; cbn; intros Hy; apply elem_of_app; auto. Qed.

Lemma requests_within bounds_us sessions vs :
  Forall2 view_ok sessions vs -> (forall v, v ∈ vs -> adds_up bounds_us v) ->
  length (concat (sv_lat <$> vs)) + all_open vs <= all_requests sessions
  /\ (0 <= zsum (fun v => sv_add v CErrors) vs <= Z.of_nat (length (concat (sv_lat <$> vs))))%Z.
Proof.
  unfold all_requests, all_open. induction 1 as [|se v ss vs' [Hreq _] _ IH]; intros Hadd; cbn; [lia|]. rewrite length_app.
  destruct IH as [H1 H2]; [intros u Hu; apply Hadd; by right|].
  destruct (Hadd v (list_elem_of_here _ _)) as (He & Hc & _). rewrite (Hc CRequests) in Hreq. cbn in Hreq. lia.
Qed.

(** The metrics of tasks that have all finished. *)
Lemma finished_metrics bounds_us sessions now log (w : SShared) vs :
  shared_inv bounds_us sessions (with_latency_buckets bounds_us now) log w vs ->
  (forall v, v ∈ vs -> adds_up bounds_us v) -> (Z.of_nat (all_requests sessions) < u64_modulus)%Z ->
  ss_metrics w = mkMetrics (Z.of_nat (length (concat (sv_lat <$> vs)) + all_open vs)) (zsum (fun v => sv_add v CErrors) vs)
    (Z.of_nat (all_open vs)) (record_all ((fun y => y * 1000)%Z <$> concat (sv_lat <$> vs)) (hist_new bounds_us)) now.
Proof.
  intros [_ _ [Hcells Hb Hk Hst] [Hmk Hm0 Hms _] Hv] Hadd Hsmall. set (ys := concat (sv_lat <$> vs)) in *.
  assert (forall c, counted_cell bounds_us c = true -> cell_get c (ss_metrics w)
    = wrap64 (cell_delta bounds_us (zsum (fun v => sv_add v CErrors) vs) ys c + open_delta (all_open vs) c)) as Hc.
  { intros c Hc. rewrite Hcells by done. rewrite fresh_cells, (cells_of_all bounds_us vs c Hadd). done. }
  destruct (requests_within _ _ _ Hv Hadd) as [Hn He]. fold ys in Hn, He.
  assert (Z.of_nat (length ys + all_open vs) < u64_modulus)%Z as Hlt by lia.
  assert (requests_total (ss_metrics w) = Z.of_nat (length ys + all_open vs)) as E1
    by (etrans; [exact (Hc CRequests eq_refl)|rewrite wrap64_small; cbn; lia]).
  assert (errors_total (ss_metrics w) = zsum (fun v => sv_add v CErrors) vs) as E2
    by (etrans; [exact (Hc CErrors eq_refl)|rewrite wrap64_small; cbn; lia]).
  assert (inflight (ss_metrics w) = Z.of_nat (all_open vs)) as E3
    by (etrans; [exact (Hc CInflight eq_refl)|rewrite wrap64_small; cbn; lia]).
  assert (latency (ss_metrics w) = record_all ((fun y => y * 1000)%Z <$> ys) (hist_new bounds_us)) as E4.
  { apply hist_of_cells; try done.
    - apply Forall_concat_fmap. intros v Hin. apply Hadd, Hin.
    - lia.
    - intros i Hi. etrans; [apply (Hc (CBucket i)); by apply Nat.ltb_lt|]. cbn. by rewrite Z.add_0_r.
    - etrans; [exact (Hc CSum eq_refl)|]. cbn. by rewrite Z.add_0_r.
    - etrans; [exact (Hc CSamples eq_refl)|rewrite wrap64_small; cbn; lia].
    - destruct Hmk as [-> |(v & Hin & Hy)]; [by left|right]. by eapply in_concat_fmap.
    - apply Forall_concat_fmap. intros v Hin. destruct (Hadd v Hin) as (_ & _ & Hy & _).
      eapply Forall_impl; [exact Hy|]. cbn. specialize (Hms v Hin). lia. }
  clear -E1 E2 E3 E4 Hst. destruct (ss_metrics w). cbn in *. by rewrite E1, E2, E3, E4, Hst.
Qed.
