(* ===== verification/ServerConcAlone.v ===== *)
(** * One task alone (hkv-server/src/server.rs)

    The programs of ServerConc.v, run by one task that nobody interrupts, are the
    handlers and the connection of Server.v: the same outcome and the same world. *)

From S2P Require Import Prelude Threads Errors KVEngine RespParser RespParserThms RespThms Observation F64 Metrics Server.
From S2P Require Import ServerSpec ServerThms EndToEnd ServerConc.

Section alone.
Context `{KVEngine E} (clock : nat -> Instant) (wall : nat -> SystemTime) (write_fault : nat -> option nat).
Context (bounds_us : list Z) (started : Instant) (fuel : nat) (Hfuel : 0 < fuel).

Abbreviation HM := (M (World E) io_error).
Abbreviation alone := (prog_run (F := SAct) (fun X => @sact_alone clock wall E _ write_fault X)).

(** What never changes of the metrics. *)
Definition same_shape (w : World E) : Prop :=
  h_bounds_us (latency (w_metrics w)) = bounds_us /\ length (h_buckets (latency (w_metrics w))) = S (length bounds_us)
  /\ started_at (w_metrics w) = started.

Definition agrees {A} (p : SProg A) (m : HM A) : Prop :=
  forall w, same_shape w -> alone p w = m w /\ same_shape (snd (m w)).

Lemma agrees_then {A B} (p : SProg A) (k : A -> SProg B) m m' :
  agrees p m -> (forall a, agrees (k a) (m' a)) -> agrees (p ≫= k) (m ≫= m').
Proof.
  intros Hp Hk w Hw. destruct (Hp w Hw) as [E1 Hw1]. rewrite prog_run_bind.
  unfold mbind, M_bind. rewrite E1. destruct (m w) as [[a| | |] w1]; try done. by apply Hk.
Qed.

Lemma agrees_ret {A} (a : A) : agrees (mret a) (mret a).
Proof. by intros w Hw. Qed.

Lemma agrees_out {A} (o : outcome io_error A) : agrees (Ret o) (fun w => (o, w)).
Proof. by intros w Hw. Qed.

Lemma agrees_now : agrees (act ANow) (instant_now clock).
Proof. by intros w Hw. Qed.
Lemma agrees_wall : agrees (act AWall) (system_now wall).
Proof. by intros w Hw. Qed.

Lemma agrees_engine {A} o (dec : Reply -> outcome HkvError A) call :
  (forall now e, decoded dec (fst (kv_exec now o e)) = fst (call now e) /\ snd (kv_exec now o e) = snd (call now e)) ->
  agrees (p_engine_call o dec) (engine_call clock call).
Proof.
  intros Hc w Hw. unfold p_engine_call, engine_call, instant_now, tick, on_engine, mbind, M_bind. cbn.
  destruct (Hc (clock (w_ticks w)) (w_engine w)) as [E1 E2].
  destruct (kv_exec _ _ _) as [o1 e1], (call _ _) as [o2 e2]. cbn in *. subst. by split; [destruct (decoded dec o1)|].
Qed.

Lemma agrees_write response : agrees (act (AWrite response)) (write_all write_fault response).
Proof.
  intros w Hw. unfold write_all. cbn. by destruct (write_fault _).
Qed.

(** *** Metrics *)

Lemma agrees_metrics (p : SProg unit) (f : Metrics -> Metrics) :
  (forall w, same_shape w -> alone p w = modify_metrics f w) ->
  (forall m, h_bounds_us (latency (f m)) = h_bounds_us (latency m)
    /\ length (h_buckets (latency (f m))) = length (h_buckets (latency m)) /\ started_at (f m) = started_at m) ->
  agrees p (modify_metrics f).
Proof.
  intros Hp Hf w Hw. split; [by apply Hp|]. destruct (Hf (w_metrics w)) as (H1 & H2 & H3), Hw as (H4 & H5 & H6).
  unfold same_shape. cbn. by rewrite H1, H2, H3.
Qed.

Lemma agrees_request_start : agrees p_record_request_start (modify_metrics record_request_start).
Proof. by apply agrees_metrics. Qed.

Lemma agrees_error : agrees p_record_error (modify_metrics record_error).
Proof. by apply agrees_metrics. Qed.

Lemma list_insert_alter (f : Z -> Z) (l : list Z) (i : nat) x : l !! i = Some x -> <[i := f x]> l = alter f i l.
Proof. revert i. induction l as [|y l IH]; intros [|i] Hi; simplify_eq/=; [done|]. f_equal. by apply IH. Qed.

Lemma alone_update_max value w :
  alone (p_update_max fuel value) w
  = (Val tt, mkWorld (w_engine w) (cell_set CMax (update_max [] (h_max_us (latency (w_metrics w))) value) (w_metrics w))
       (w_log w) (w_ticks w) (w_out w) (w_writes w)).
Proof.
  destruct fuel as [|f]; [lia|]. destruct w as [e [rt et fl [hb hk hs hn hm] st] log ticks out writes].
  cbn. destruct (hm <? value)%Z; cbn; [|done]. by rewrite bool_decide_true.
Qed.

Lemma agrees_request_end d : agrees (p_record_request_end bounds_us fuel d) (modify_metrics (record_request_end d)).
Proof.
  apply agrees_metrics.
  2: { intros m. cbn. by rewrite length_alter. }
  intros w (Hb & Hk & _). unfold p_record_request_end, p_hist_record. cbn -[p_update_max as_micros_u64].
  rewrite prog_run_bind. unfold mbind at 1, M_bind. rewrite alone_update_max. cbn -[as_micros_u64].
  unfold modify_metrics, modify, record_request_end, hist_record, as_micros_u64. cbn. do 4 f_equal.
  rewrite <- Hb. destruct (lookup_lt_is_Some_2 (h_buckets (latency (w_metrics w))) (bucket_index (h_bounds_us (latency (w_metrics w))) (wrap64 (d / 1000))))
    as [x Hx].
  { rewrite Hk, <- Hb. clear. generalize (h_bounds_us (latency (w_metrics w))). intros l.
    induction l as [|y l IH]; cbn; [lia|]. destruct (_ <=? _)%Z; lia. }
  rewrite Hx. unfold with_latency. cbn. by rewrite (list_insert_alter (fun n => wrap64 (n + 1)) _ _ _ Hx).
Qed.

(** *** The snapshot *)

Lemma load_buckets l (w : World E) : forall is_,
  h_buckets (latency (w_metrics w)) = l ->
  alone (p_load_buckets is_) w = (Val ((fun i => default 0%Z (l !! i)) <$> is_), w).
Proof.
  intros is_ <-. induction is_ as [|i is_ IH]; [done|]. cbn [p_load_buckets]. rewrite prog_run_bind.
  unfold mbind at 1, M_bind. cbn [prog_run act sact_alone]. rewrite prog_run_bind. unfold mbind at 1, M_bind. by rewrite IH.
Qed.

Lemma lookup_seq_all (l : list Z) : (fun i => default 0%Z (l !! i)) <$> seq 0 (length l) = l.
Proof.
  apply list_eq. intros i. rewrite list_lookup_fmap. destruct (decide (i < length l)) as [Hi|Hi].
  - rewrite lookup_seq_lt by done. cbn. by destruct (lookup_lt_is_Some_2 l i Hi) as [x ->].
  - rewrite lookup_seq_ge by lia. symmetry. apply lookup_ge_None_2. lia.
Qed.

Lemma agrees_info : agrees (p_handle_info bounds_us started) (handle_info clock).
Proof.
  intros w Hw. split; [|done]. destruct Hw as (Hb & Hk & Hs). unfold p_handle_info, p_snapshot. rewrite prog_run_bind.
  assert (alone (p_snapshot bounds_us started) w
    = (Val (snapshot (clock (w_ticks w)) (w_metrics w)),
       mkWorld (w_engine w) (w_metrics w) (w_log w) (S (w_ticks w)) (w_out w) (w_writes w))) as E1.
  { unfold p_snapshot. cbn -[p_hist_snapshot]. rewrite prog_run_bind. unfold p_hist_snapshot, mbind at 1, M_bind.
    rewrite prog_run_bind. unfold mbind at 1, M_bind. rewrite (load_buckets (h_buckets (latency (w_metrics w)))) by done.
    rewrite <- Hk, lookup_seq_all. cbn. unfold snapshot, hist_snapshot. do 3 f_equal; [by rewrite Hs|].
    rewrite <- Hb. by destruct (latency (w_metrics w)). }
  unfold p_snapshot in E1. by rewrite (bind_val _ _ _ _ _ E1).
Qed.

(** A method against its case of [kv_exec]. *)
Ltac exec_method :=
  let now := fresh in let e := fresh in
  intros now e; cbn [kv_exec]; unfold mbind, M_bind, catch;
  match goal with |- context [match ?m e with _ => _ end] => by destruct (m e) as [[[]| | |] ?] end.

Ltac agr :=
  repeat first
    [ apply agrees_ret | apply agrees_engine; by exec_method | apply agrees_now | apply agrees_wall | apply agrees_out
    | apply agrees_then; [|intros ?]
    | match goal with |- agrees match ?x with _ => _ end _ => destruct x end ].

(** *** Commands *)

Lemma agrees_get args : agrees (p_handle_get args) (handle_get clock args).
Proof. unfold p_handle_get, handle_get. agr. Qed.

Lemma agrees_set args : agrees (p_handle_set args) (handle_set clock args).
Proof. unfold p_handle_set, handle_set. agr. Qed.

Lemma agrees_del_loop keys : forall removed, agrees (p_del_loop keys removed) (del_loop clock keys removed).
Proof. induction keys as [|k keys IH]; intros removed; cbn [p_del_loop del_loop]; agr; apply IH. Qed.

Lemma agrees_del args : agrees (p_handle_del args) (handle_del clock args).
Proof. unfold p_handle_del, handle_del. agr. apply agrees_del_loop. Qed.

Lemma agrees_expire args : agrees (p_handle_expire args) (handle_expire clock args).
Proof. unfold p_handle_expire, handle_expire. agr. Qed.

Lemma agrees_ttl args : agrees (p_handle_ttl args) (handle_ttl clock args).
Proof. unfold p_handle_ttl, handle_ttl. agr. Qed.

Lemma agrees_planned_deletes keys : agrees (p_planned_deletes keys) (planned_deletes wall keys).
Proof. induction keys as [|k keys IH]; cbn [p_planned_deletes planned_deletes]; agr. apply IH. Qed.

Lemma agrees_planned args : agrees (p_planned_observations args) (planned_observations wall args).
Proof.
  unfold p_planned_observations, planned_observations, p_planned_one, planned_one. agr. apply agrees_planned_deletes.
Qed.

Lemma agrees_record evs : agrees (p_record_events evs) (record_events evs).
Proof.
  intros w Hw. split; [|done]. unfold record_events, modify. revert w Hw. induction evs as [|ev evs IH]; intros w Hw.
  - destruct w as [e m log t out n]. cbn. by destruct log.
  - cbn. rewrite IH by done. cbn. by destruct (w_log w).
Qed.

Lemma agrees_observed args p h : agrees p h -> agrees (p_observed args p) (observed wall args h).
Proof.
  intros Hp. unfold p_observed, observed. apply agrees_then; [apply agrees_planned|]. intros evs.
  unfold p_observe_command_result, observe_command_result. apply agrees_then; [done|]. intros response.
  apply agrees_then; [|intros _; apply agrees_ret]. destruct (negb _); [apply agrees_record|apply agrees_ret].
Qed.

Lemma agrees_dispatch args : agrees (p_dispatch_command bounds_us started args) (dispatch_command clock wall args).
Proof.
  unfold p_dispatch_command, dispatch_command. destruct args as [|cmd rest]; [apply agrees_ret|].
  repeat match goal with |- agrees (if ?x then _ else _) _ => destruct x end;
    first [apply agrees_ret|apply agrees_info|apply agrees_observed].
  - apply agrees_get.
  - apply agrees_set.
  - apply agrees_del.
  - apply agrees_expire.
  - apply agrees_ttl.
Qed.

(** *** Requests and connections *)

Lemma agrees_read {A} (p : SProg A) m : agrees p m -> agrees (act ARead;; p) m.
Proof. intros Hp w Hw. exact (Hp w Hw). Qed.

Lemma agrees_tracked p h : agrees p h -> agrees (p_tracked bounds_us fuel p) (tracked clock write_fault h).
Proof.
  intros Hp. unfold p_tracked, tracked. apply agrees_then; [apply agrees_request_start|intros _].
  apply agrees_then; [apply agrees_now|intros at_]. apply agrees_then; [done|intros response].
  apply agrees_then; [apply agrees_write|intros wr]. unfold p_finish_tracked_request, finish_tracked_request.
  apply agrees_then; [destruct (is_error_response response); [apply agrees_error|apply agrees_ret]|intros _].
  apply agrees_then; [apply agrees_now|intros now]. apply agrees_then; [apply agrees_request_end|intros _].
  destruct wr as [[]|x]; apply agrees_out.
Qed.

Lemma agrees_commands cmds : agrees (p_commands bounds_us started fuel cmds) (serve_commands clock wall write_fault cmds).
Proof.
  induction cmds as [|args cmds IH]; cbn [p_commands serve_commands]; [apply agrees_ret|].
  apply agrees_read, agrees_then; [apply agrees_tracked, agrees_dispatch|intros _; exact IH].
Qed.

Lemma agrees_stop s :
  agrees (p_stop bounds_us fuel s)
    (stream_stop clock write_fault (match se_read_end s with Ok _ => mret tt | Error x => throw x end) tt (se_parser s)).
Proof.
  unfold p_stop, stream_stop. apply agrees_read. destruct (se_parser s) as [[]|[]| |]; [destruct (se_read_end s) as [[]|x]; apply agrees_out| |apply agrees_out..].
  intros w Hw. destruct (agrees_tracked _ _ (agrees_ret (resp_error (lit "protocol error"))) w Hw) as [E1 Hw1].
  change (alone (p_handle_protocol_error bounds_us fuel) w = handle_protocol_error clock write_fault w) in E1.
  rewrite E1. unfold mbind, M_bind, mret, M_ret. unfold handle_protocol_error in *.
  by destruct (tracked clock write_fault _ w) as [[[]|x| |] w1].
Qed.

End alone.

(** C28: A task that nobody interrupts is the connection of Server.v: run alone, the program of a session ends as
    [handle_connection_with_observation] does on every way the bytes of the session can arrive, and leaves the
    same engine, metrics, log and replies. *)
Theorem session_alone_is_connection `{KVEngine E} `{Profile} `{BytesMutLaws B}
    clock wall write_fault fuel (b0 : B) chunks read_end (w : World E) cmds stop :
  0 < fuel -> Forall (fun c => c <> []) chunks -> fst (feed chunks (parser_new, b0)) = (cmds, stop) ->
  length (h_buckets (latency (w_metrics w))) = S (length (h_bounds_us (latency (w_metrics w)))) ->
  prog_run (F := SAct) (fun X => @sact_alone clock wall E _ write_fault X)
    (p_session (h_bounds_us (latency (w_metrics w))) (started_at (w_metrics w)) fuel (mkSession cmds stop read_end)) w
  = handle_connection_with_observation clock wall write_fault b0 chunks read_end w.
Proof.
  intros Hfuel Hne Hfeed Hk. rewrite (connection_feed _ _ _ _ _ _ _ _ _ Hne Hfeed).
  apply (agrees_then clock wall write_fault (h_bounds_us (latency (w_metrics w))) (started_at (w_metrics w))); [|intros _|done].
  - by apply agrees_commands.
  - by apply (agrees_stop clock wall write_fault _ _ fuel Hfuel (mkSession cmds stop read_end)).
Qed.

Lemma session_alone_is_connection_witness :
  prog_run (F := SAct) (fun X => @sact_alone clock0 clock0 _ engine0 (fun _ => None) X)
    (p_session (h_bounds_us (latency (w_metrics w0))) (started_at (w_metrics w0)) 9 (mkSession [[lit "SET"; lit "k"; lit "v"]; [lit "GET"; lit "k"]] (Err ProtocolError) (Ok tt))) w0
  = handle_connection_with_observation (H := engine0) (H0 := release_profile) clock0 clock0 (fun _ => None) (@nil byte)
      [lit "SET k v" ++ crlf; lit "GET k" ++ crlf ++ lit "*x" ++ crlf] (Ok tt) w0.
Proof.
  apply (session_alone_is_connection (H := engine0) (H0 := release_profile) clock0 clock0 (fun _ => None) 9 (@nil byte)).
  - lia.
  - repeat constructor; discriminate.
  - vm_compute. reflexivity.
  - reflexivity.
Defined.
