(* ===== verification/Serve.v ===== *)
(** * The accept loop and the shutdown (hkv-server/src/server.rs)

    [serve_with_shutdown_with_observation] as a step function on its state and
    the event [select!] or the timer picks: the runtime decides which of the
    enabled events comes next. The tasks of the [JoinSet] are numbered. *)

From S2P Require Import Prelude Decimal Errors KVEngine RespParser RespParserThms RespThms Observation F64 Metrics Server ServerThms.
From stdpp Require Import gmap fin_sets.

(** ** Configuration *)

Record ServerConfig := mkConfig {
  shutdown_drain_timeout : Duration;
  keepalive_time : Duration;
  keepalive_interval : Duration;
  keepalive_retries : Z
}.

Definition DEFAULT_SERVER_CONFIG : ServerConfig :=
  mkConfig (from_secs 5) (from_secs 30) (from_secs 10) 3.

(** The socket options of tokio and socket2: setters that may fail, and the
    keepalive builder. The Linux variants of the two [cfg] helpers. *)
Class SocketOptions (K : Type) := {
  ka_new : K;
  ka_with_time : K -> Duration -> K;
  ka_with_interval : K -> Duration -> K;
  ka_with_retries : K -> Z -> K
}.

Definition build_tcp_keepalive `{SocketOptions K} (config : ServerConfig) : K :=
  let keepalive := ka_with_time ka_new (keepalive_time config) in
  let keepalive := ka_with_interval keepalive (keepalive_interval config) in
  ka_with_retries keepalive (keepalive_retries config).

(** The options set so far on a stream, and which settings the system refuses. *)
Inductive sockopt (K : Type) : Type := NoDelay | KeepAlive | TcpKeepaliveOpt (k : K).
Arguments NoDelay {K}. Arguments KeepAlive {K}. Arguments TcpKeepaliveOpt {K} k.

Definition set_option {K} (refused : sockopt K -> bool) (o : sockopt K) : M (list (sockopt K)) io_error unit := fun set =>
  if refused o then (Err SocketFailed, set) else (Val tt, set ++ [o]).

Definition configure_accepted_stream `{SocketOptions K} (refused : sockopt K -> bool) (config : ServerConfig)
    : M (list (sockopt K)) io_error unit :=
  set_option refused NoDelay;;
  set_option refused KeepAlive;;
  set_option refused (TcpKeepaliveOpt (build_tcp_keepalive config)).

(** ** Joined tasks *)

Inductive join_result : Type :=
| Finished (r : result unit io_error)
| JoinPanic
| JoinCancelled.
#[global] Instance io_error_eq_dec : EqDecision io_error.
Proof. solve_decision. Defined.
#[global] Instance join_result_eq_dec : EqDecision join_result.
Proof.
  intros [[[]|x]| |] [[[]|y]| |]; try (left; done); try (right; done).
  destruct (decide (x = y)) as [->|]; [left; done|right; congruence].
Defined.

(** How a connection task's run reaches its joiner; no run is [Diverge]. *)
Definition task_result (o : outcome io_error unit) : join_result :=
  match o with Val _ => Finished (Ok tt) | Err e => Finished (Error e) | Panic | Diverge => JoinPanic end.

(** [true]: the panic is resumed in the caller. *)
Definition reap_connection_task (r : join_result) : bool :=
  match r with JoinPanic => true | _ => false end.

(** ** The loop *)

Inductive ServeState : Type :=
| Accepting (connections : gset nat)
| Draining (connections : gset nat)
| Aborting (connections : gset nat)
| Returned (r : result unit io_error)
| Panicked.

Inductive ServeEvent : Type :=
| ShutdownSignal
| Joined (task : nat) (r : join_result)
| Accept (r : result nat io_error) (configured : result unit io_error)
| DrainTimeout.

(** The drain loops end when [join_next] finds no task. *)
Definition drain_next (st : gset nat -> ServeState) (connections : gset nat) : ServeState :=
  if decide (connections = ∅) then Returned (Ok tt) else st connections.

Definition join_step (st : gset nat -> ServeState) (connections : gset nat) (task : nat) (r : join_result)
    : option ServeState :=
  if decide (task ∈ connections)
  then Some (if reap_connection_task r then Panicked else st (connections ∖ {[task]}))
  else None.

(** [None]: the event cannot happen in that state. *)
Definition serve_step (s : ServeState) (ev : ServeEvent) : option ServeState :=
  match s, ev with
  | Accepting connections, ShutdownSignal => Some (drain_next Draining connections)
  | Accepting connections, Joined task r => join_step Accepting connections task r
  | Accepting connections, Accept (Error e) _ => Some (Returned (Error e))
  | Accepting connections, Accept (Ok task) configured =>
      if decide (task ∈ connections) then None
      else match configured with
           | Error e => Some (Returned (Error e))
           | Ok _ => Some (Accepting ({[task]} ∪ connections))
           end
  | Draining connections, Joined task r => join_step (drain_next Draining) connections task r
  | Draining connections, DrainTimeout => Some (drain_next Aborting connections)
  | Aborting connections, Joined task r => join_step (drain_next Aborting) connections task r
  | _, _ => None
  end.

Fixpoint serve_run (s : ServeState) (evs : list ServeEvent) : option ServeState :=
  match evs with
  | [] => Some s
  | ev :: evs' => s' ← serve_step s ev; serve_run s' evs'
  end.

Definition serve_start : ServeState := Accepting ∅.

(** ** What the events say *)

Definition accepted_task (ev : ServeEvent) : option nat :=
  match ev with Accept (Ok task) (Ok _) => Some task | _ => None end.
Definition joined_task (ev : ServeEvent) : option nat :=
  match ev with Joined task _ => Some task | _ => None end.
Definition panics (ev : ServeEvent) : bool := match ev with Joined _ JoinPanic => true | _ => false end.
Definition accept_error (ev : ServeEvent) : option io_error :=
  match ev with Accept (Error e) _ | Accept (Ok _) (Error e) => Some e | _ => None end.

(** The tasks a state still waits for. *)
Definition waiting_for (s : ServeState) : gset nat :=
  match s with Accepting c | Draining c | Aborting c => c | Returned _ | Panicked => ∅ end.

Definition spawned_after (evs : list ServeEvent) (c : gset nat) : gset nat :=
  foldl (fun c ev =>
    match accepted_task ev with
    | Some t => {[t]} ∪ c
    | None => match joined_task ev with Some t => c ∖ {[t]} | None => c end
    end) c evs.

Lemma drain_next_waiting st c : (forall c, waiting_for (st c) = c) -> waiting_for (drain_next st c) = c.
Proof. intros Hst. unfold drain_next. case_decide as Hc; [by rewrite Hc|apply Hst]. Qed.

Lemma drain_next_panicked st c : (forall c, st c <> Panicked) -> drain_next st c <> Panicked.
Proof. intros Hst. unfold drain_next. case_decide; [done|apply Hst]. Qed.

Lemma drain_next_error st c e : (forall c, st c <> Returned (Error e)) -> drain_next st c <> Returned (Error e).
Proof. intros Hst. unfold drain_next. case_decide; [done|apply Hst]. Qed.

(** Where one step can lead. *)
Lemma serve_step_cases s ev s' : serve_step s ev = Some s' ->
  (panics ev = true /\ s' = Panicked)
  \/ (panics ev = false /\ exists e, accept_error ev = Some e /\ s' = Returned (Error e))
  \/ (panics ev = false /\ accept_error ev = None /\ s' <> Panicked /\ (forall e, s' <> Returned (Error e))
      /\ waiting_for s' = spawned_after [ev] (waiting_for s)).
Proof.
  assert (Hj : forall st c t r s', (forall c, waiting_for (st c) = c) -> (forall c, st c <> Panicked) ->
    (forall c e, st c <> Returned (Error e)) -> join_step st c t r = Some s' ->
    (panics (Joined t r) = true /\ s' = Panicked)
    \/ (panics (Joined t r) = false /\ accept_error (Joined t r) = None /\ s' <> Panicked
        /\ (forall e, s' <> Returned (Error e)) /\ waiting_for s' = spawned_after [Joined t r] c)).
  { intros st c t r s1 Hw Hp He. unfold join_step. case_decide; [|done].
    destruct r; intros [= <-]; [right|left|right]; simpl; rewrite ?Hw; split_and!; try done; auto. }
  assert (Hd : forall c, waiting_for (Draining c) = c) by done.
  assert (Ha : forall c, waiting_for (Aborting c) = c) by done.
  destruct s as [c|c|c|q|]; destruct ev as [|t r|[t|e] [[]|e2]|]; simpl; try done.
  - intros [= <-]. right; right. split_and!; try done; [by apply drain_next_panicked|intros; by apply drain_next_error|].
    by apply drain_next_waiting.
  - intros Hs. destruct (Hj Accepting _ _ _ _ ltac:(done) ltac:(done) ltac:(done) Hs); tauto.
  - case_decide; [done|]. intros [= <-]. right; right. by split_and!.
  - case_decide; [done|]. intros [= <-]. right; left. eauto.
  - intros [= <-]. right; left. eauto.
  - intros [= <-]. right; left. eauto.
  - intros Hs. destruct (Hj (drain_next Draining) _ _ _ _ (fun c => drain_next_waiting _ c Hd)
      ltac:(intros; by apply drain_next_panicked) ltac:(intros; by apply drain_next_error) Hs); tauto.
  - intros [= <-]. right; right. split_and!; try done; [by apply drain_next_panicked|intros; by apply drain_next_error|].
    by apply drain_next_waiting.
  - intros Hs. destruct (Hj (drain_next Aborting) _ _ _ _ (fun c => drain_next_waiting _ c Ha)
      ltac:(intros; by apply drain_next_panicked) ltac:(intros; by apply drain_next_error) Hs); tauto.
Qed.

Lemma serve_run_stuck r evs s : serve_run (Returned r) evs = Some s -> evs = [] /\ s = Returned r.
Proof. destruct evs as [|[]]; simpl; try done. by intros [= <-]. Qed.
Lemma serve_run_panicked evs s : serve_run Panicked evs = Some s -> evs = [] /\ s = Panicked.
Proof. destruct evs as [|[]]; simpl; try done. by intros [= <-]. Qed.

(** Neither panicked nor returned with an error. *)
Definition healthy (s : ServeState) : Prop := s <> Panicked /\ forall e, s <> Returned (Error e).

Lemma serve_run_spec evs : forall s s', healthy s -> serve_run s evs = Some s' ->
  (waiting_for s' = spawned_after evs (waiting_for s) /\ healthy s' /\ existsb panics evs = false)
  \/ (exists evs0 ev, evs = evs0 ++ [ev] /\ existsb panics evs0 = false
      /\ (panics ev = true /\ s' = Panicked \/ exists e, accept_error ev = Some e /\ s' = Returned (Error e))).
Proof.
  induction evs as [|ev evs IH]; intros s s' Hh; [intros [= <-]; left; by split|].
  simpl. destruct (serve_step s ev) as [s1|] eqn:E1; [|done]. simpl. intros Hrun.
  destruct (serve_step_cases s ev s1 E1) as [[Hp ->]|[(Hp & e & He & ->)|(Hp & He & H1 & H2 & Hw)]].
  - apply serve_run_panicked in Hrun as [-> ->]. right. exists [], ev. split_and!; [done|done|by left].
  - apply serve_run_stuck in Hrun as [-> ->]. right. exists [], ev. split_and!; [done|done|right; eauto].
  - rewrite Hp. destruct (IH s1 s' (conj H1 H2) Hrun) as [(Hw2 & Hh2 & Hall)|(evs0 & ev' & -> & Hall & Hend)].
    + left. split_and!; [|done|done]. rewrite Hw2, Hw. done.
    + right. exists (ev :: evs0), ev'. split_and!; [done| |done]. simpl. by rewrite Hp.
Qed.

(** Joining the tasks that are left, without a panic. *)
Definition joins (l : list (nat * join_result)) : list ServeEvent := (fun '(t, r) => Joined t r) <$> l.

Lemma serve_joins st l : (forall c, waiting_for (st c) = c) ->
  (forall c t r, serve_step (st c) (Joined t r) = join_step (drain_next st) c t r) ->
  NoDup (fst <$> l) -> Forall (fun '(_, r) => r <> JoinPanic) l ->
  forall c rest, (forall t, t ∈ fst <$> l -> t ∈ c) ->
  c ≠ ∅ ->
  serve_run (st c) (joins l ++ rest) = serve_run (drain_next st (c ∖ list_to_set (fst <$> l))) rest
  \/ l = [].
Proof.
  intros Hw Hst Hnd Hp. induction l as [|[t r] l IH]; intros c rest Hin Hc; [by right|left].
  rewrite fmap_cons in Hnd. apply NoDup_cons in Hnd as [Ht Hnd]. apply Forall_cons in Hp as [Hr Hp].
  assert (Hstep : serve_run (st c) (joins ((t, r) :: l) ++ rest)
    = serve_run (drain_next st (c ∖ {[t]})) (joins l ++ rest)).
  { cbn [joins fmap list_fmap app serve_run]. rewrite Hst. unfold join_step.
    rewrite decide_True by (apply Hin; simpl; set_solver). by destruct r. }
  rewrite Hstep.
  assert (c ∖ list_to_set (fst <$> (t, r) :: l) = (c ∖ {[t]}) ∖ list_to_set (fst <$> l)) as -> by (simpl; set_solver).
  destruct l as [|x l].
  - simpl. by rewrite difference_empty_L.
  - unfold drain_next at 1. rewrite decide_False.
    + destruct (IH Hnd Hp (c ∖ {[t]}) rest) as [E|E]; [|..|exact E|done].
      * intros t' Ht'. apply elem_of_difference. split; [apply Hin; simpl; set_solver|]. set_solver.
      * intros He. assert (fst x ∈ c ∖ {[t]}); [|set_solver].
        apply elem_of_difference. split; [apply Hin; simpl; set_solver|]. simpl in Ht. set_solver.
    + intros He. assert (fst x ∈ c ∖ {[t]}); [|set_solver].
      apply elem_of_difference. split; [apply Hin; simpl; set_solver|]. simpl in Ht. set_solver.
Qed.

Lemma serve_joins_all st l c : (forall c, waiting_for (st c) = c) ->
  (forall c t r, serve_step (st c) (Joined t r) = join_step (drain_next st) c t r) ->
  NoDup (fst <$> l) -> Forall (fun '(_, r) => r <> JoinPanic) l ->
  c = list_to_set (fst <$> l) -> serve_run (drain_next st c) (joins l) = Some (Returned (Ok tt)).
Proof.
  intros Hw Hst Hnd Hp Hc. unfold drain_next at 1. destruct (decide (c = ∅)) as [->|Hne].
  - destruct l; [done|]. simpl in Hc. set_solver.
  - destruct (serve_joins st l Hw Hst Hnd Hp c []) as [E| ->]; [set_solver|done|..].
    + rewrite app_nil_r in E. rewrite E. unfold drain_next. by rewrite decide_True by set_solver.
    + simpl in Hc. done.
Qed.

(** C35: the server's exit tells what happened: it returns [Ok] only after
    every accepted connection task has been joined, none of them by a panic;
    it returns an error only for a failed accept or socket option; and it
    panics exactly when a joined task panicked. I/O errors of connections do
    not stop it. *)
Theorem serve_exit_accounts_for_tasks evs s :
  serve_run serve_start evs = Some s ->
  match s with
  | Returned (Ok _) => spawned_after evs ∅ = ∅ /\ existsb panics evs = false
  | Returned (Error e) => exists ev, last evs = Some ev /\ accept_error ev = Some e
  | Panicked => existsb panics evs = true
  | _ => waiting_for s = spawned_after evs ∅ /\ existsb panics evs = false
  end.
Proof.
  intros Hrun. assert (Hh : healthy serve_start) by done.
  destruct (serve_run_spec evs _ _ Hh Hrun) as [(Hw & [H1 H2] & Hall)|(evs0 & ev & -> & Hall & [[Hp ->]|(e & He & ->)])].
  - destruct s as [c|c|c|[[]|e]|]; try done. by destruct (H2 e).
  - rewrite existsb_app. simpl. rewrite Hp. by rewrite orb_true_r.
  - exists ev. by rewrite last_snoc.
Qed.

Lemma serve_exit_accounts_for_tasks_witness :
  let evs := [Accept (Ok 0) (Ok tt); Accept (Ok 1) (Ok tt); Joined 0 (Finished (Error ReadFailed));
              ShutdownSignal; DrainTimeout; Joined 1 JoinCancelled] in
  serve_run serve_start evs = Some (Returned (Ok tt)) /\ spawned_after evs ∅ = ∅ /\ existsb panics evs = false.
Proof.
  intros evs. assert (Hrun : serve_run serve_start evs = Some (Returned (Ok tt))) by (vm_compute; reflexivity).
  split; [exact Hrun|]. exact (serve_exit_accounts_for_tasks evs _ Hrun).
Defined.

(** After the shutdown signal the server returns [Ok] as soon as its tasks
    are joined, in whatever order they finish, also when the drain time runs
    out in between and the rest is aborted. *)
Theorem shutdown_drains connections l1 l2 :
  NoDup (fst <$> l1 ++ l2) -> Forall (fun '(_, r) => r <> JoinPanic) (l1 ++ l2) ->
  connections = list_to_set (fst <$> l1 ++ l2) -> l2 <> [] ->
  serve_run (Accepting connections) (ShutdownSignal :: joins (l1 ++ l2)) = Some (Returned (Ok tt))
  /\ serve_run (Accepting connections) (ShutdownSignal :: joins l1 ++ DrainTimeout :: joins l2) = Some (Returned (Ok tt)).
Proof.
  intros Hnd Hp Hc Hl2. cbn [serve_run serve_step mbind option_bind]. split; [by apply serve_joins_all|].
  pose proof Hnd as Hnd'. rewrite fmap_app in Hnd'. apply NoDup_app in Hnd' as (Hnd1 & Hdis & Hnd2).
  pose proof (proj1 (Forall_app _ _ _) Hp) as [Hp1 Hp2].
  assert (Hrest : connections ∖ list_to_set (fst <$> l1) = list_to_set (fst <$> l2)).
  { rewrite Hc, fmap_app, list_to_set_app_L. set_solver. }
  destruct l2 as [|x2 l2]; [done|].
  assert (Hne2 : (list_to_set (fst <$> x2 :: l2) : gset nat) <> ∅) by (simpl; set_solver).
  assert (Hne : connections <> ∅) by (intros He; rewrite He in Hrest; set_solver).
  unfold drain_next at 1. rewrite decide_False by done.
  assert (Hd : serve_run (Draining connections) (joins l1 ++ DrainTimeout :: joins (x2 :: l2))
    = serve_run (Draining (list_to_set (fst <$> x2 :: l2))) (DrainTimeout :: joins (x2 :: l2))).
  { destruct (serve_joins Draining l1 ltac:(done) ltac:(done) Hnd1 Hp1 connections (DrainTimeout :: joins (x2 :: l2)))
      as [E| ->]; [rewrite Hc, fmap_app; set_solver|done|..].
    - rewrite E, Hrest. unfold drain_next. by rewrite decide_False by done.
    - simpl in Hrest. rewrite difference_empty_L in Hrest. by rewrite Hrest. }
  rewrite Hd. cbn [serve_run serve_step mbind option_bind]. by apply serve_joins_all.
Qed.

Lemma shutdown_drains_witness :
  serve_run (Accepting {[3; 5]}) [ShutdownSignal; Joined 5 (Finished (Ok tt)); Joined 3 JoinCancelled] = Some (Returned (Ok tt))
  /\ serve_run (Accepting {[3; 5]}) [ShutdownSignal; Joined 5 (Finished (Ok tt)); DrainTimeout; Joined 3 JoinCancelled]
     = Some (Returned (Ok tt)).
Proof.
  apply (shutdown_drains {[3; 5]} [(5, Finished (Ok tt))] [(3, JoinCancelled)]).
  - simpl. apply NoDup_ListNoDup. repeat constructor; simpl; lia.
  - repeat constructor; done.
  - vm_compute. reflexivity.
  - done.
Defined.

(** C36: one request of 28 bytes stops the server for every client: the task
    that reads it panics, whatever the engine, and joining it panics the accept
    loop. *)
Theorem one_request_stops_server `{KVEngine E} (profile : Profile) clock wall write_fault read_end (w : World E) task connections :
  task ∈ connections ->
  let o := fst (handle_connection_with_observation clock wall write_fault ([] : bytes)
    [lit "*1" ++ crlf ++ lit "$18446744073709551615" ++ crlf ++ lit "x"] read_end w) in
  o = Panic /\ serve_step (Accepting connections) (Joined task (task_result o)) = Some Panicked.
Proof.
  intros Ht o. assert (Ho : o = Panic).
  { unfold o, handle_connection_with_observation. cbn [read_loop]. rewrite bind_modify.
    rewrite bool_decide_false by done. rewrite bind_gets. cbn [serve_buffer].
    pose proof (huge_bulk_run profile) as Hp.
    set (buf := bm_put ([] : bytes) (lit "*1" ++ crlf ++ lit "$18446744073709551615" ++ crlf ++ lit "x")).
    assert (Hn : exists s, parse_next (E := E) (w, (parser_new, buf)) = (Panic, (w, s))).
    { unfold parse_next. change buf with (lit "*1" ++ crlf ++ lit "$18446744073709551615" ++ crlf ++ lit "x").
      destruct (parse _) as [o1 c1]. simpl in Hp. subst o1. by exists c1. }
    destruct Hn as [s Hn]. unfold mbind, M_bind. by rewrite Hn. }
  rewrite Ho. split; [done|]. simpl. unfold join_step. by rewrite decide_True.
Qed.

Lemma one_request_stops_server_witness :
  let o := fst (handle_connection_with_observation
      (H := Build_KVEngine unit (fun _ _ => mret None) (fun _ _ _ => mret tt) (fun _ _ _ _ => mret tt)
        (fun _ _ => mret false) (fun _ _ _ => mret tt) (fun _ _ => mret Missing))
      (H0 := release_profile) (fun _ => 0%Z) (fun _ => 0%Z) (fun _ => None) ([] : bytes)
    [lit "*1" ++ crlf ++ lit "$18446744073709551615" ++ crlf ++ lit "x"] (Ok tt)
    (mkWorld tt (metrics_new 0) None 0 [] 0)) in
  o = Panic /\ serve_step (Accepting {[7]}) (Joined 7 (task_result o)) = Some Panicked.
Proof. intros o. apply one_request_stops_server. set_solver. Defined.
