(* ===== verification/Process.v ===== *)
(** * The server process (hkv-server/src/main.rs, hkv-server/src/server.rs, hkv-engine/src/memory.rs)

    All threads of a running server at once: the connection tasks of ServerConc.v,
    whose engine calls run the programs of EngineConc.v action by action, the
    background thread that sweeps expired keys, and the thread of [main], which
    runs the accept loop of Serve.v, then stops the sweeper and joins it. When the
    drain times out the tasks that are left are aborted: the runtime drops a task
    where it waits for its socket. *)

From S2P Require Import Prelude Serve Threads Errors KVEngine Shard Engine RespParser Observation F64 Metrics Server.
From S2P Require Import EngineConc ServerConc.

(** ** Actions *)

Inductive PAct : Type -> Type :=
| PTask {X : Type} (a : SAct X) : PAct (option X)
| PEngine {X : Type} (a : EngineAct X) : PAct X
| PAccepted : PAct unit
| PEnd (r : join_result) : PAct unit
| PServe (ev : ServeEvent) : PAct ServeState
| PLoadStop : PAct bool
| PStoreStop : PAct unit
| PJoin (threads : list nat) : PAct unit.

(** What a thread can fail with: an error, or, a task only, by being dropped. *)
Inductive Failure : Type := Failed (e : io_error) | Dropped.

Definition task_outcome (o : outcome io_error unit) : outcome Failure unit :=
  match o with Val u => Val u | Err e => Err (Failed e) | Panic => Panic | Diverge => Diverge end.

Abbreviation PProg := (Prog PAct Failure).

(** A program of the engine as part of a thread's. *)
Fixpoint graft {A B} (p : EProg A) (k : outcome HkvError A -> PProg B) : PProg B :=
  match p with
  | Ret o => k o
  | Act a c => Act (PEngine a) (fun x => graft (c x) k)
  end.

(** A task can be joined when it has ended in any way. *)
Definition task_end (o : outcome io_error unit) : PProg unit :=
  Act (PEnd (task_result o)) (fun _ => Ret (task_outcome o)).
Definition task_dropped : PProg unit := Act (PEnd JoinCancelled) (fun _ => Ret (Err Dropped)).

Section programs.
Context `{Profile} (hash : bytes -> Z) (n : nat) (mask max : Z) (fuel : nat).

(** A task with the engine it calls. Its actions answer nothing when it is dropped;
    it holds no lock then. *)
Fixpoint linked (p : SProg unit) : PProg unit :=
  match p with
  | Ret o => task_end o
  | Act a c =>
      match a in SAct X return (X -> PProg unit) -> PProg unit with
      | ACall o => fun k => graft (op_prog hash n mask max fuel o) k
      | a => fun k => Act (PTask a) (fun r => match r with Some x => k x | None => task_dropped end)
      end (fun x => linked (c x))
  end.

(** The thread of [start_expirer], run for at most [turns] turns of its loop; the
    sleep is whatever the others do meanwhile. *)
Fixpoint p_expirer (turns : nat) : PProg unit :=
  match turns with
  | O => Ret Diverge
  | S turns' =>
      stop ← act PLoadStop;
      if (stop : bool) then act (PEnd (Finished (Ok tt)))
      else graft (p_purge_expired n) (fun o =>
        match o with
        | Val _ => p_expirer turns'
        | _ => act (PEnd JoinPanic);; Ret Panic
        end)
  end.

(** [ExpirationHandle::stop]. *)
Definition p_stop_expirer (sweepers : list nat) : PProg unit := act PStoreStop;; act (PJoin sweepers).

(** [serve_with_shutdown_with_observation] while it gets the [events]. *)
Fixpoint p_serve (events : list ServeEvent) : PProg (result unit io_error) :=
  match events with
  | [] => Ret Diverge
  | ev :: events' =>
      s ← act (PServe ev);
      match (s : ServeState) with
      | Serve.Returned r => Ret (Val r)
      | Panicked => Ret Panic
      | _ => p_serve events'
      end
  end.

(** [main]: a panic that the accept loop resumes unwinds it. *)
Definition p_main (events : list ServeEvent) (sweepers : list nat) : PProg unit :=
  result ← p_serve events;
  p_stop_expirer sweepers;;
  Ret (match result with Ok _ => Val tt | Error e => Err (Failed e) end).

Inductive Job : Type :=
| JTask (s : Session)
| JExpirer (turns : nat)
| JMain (events : list ServeEvent) (sweepers : list nat).

Context (bounds_us : list Z) (started : Instant).

Definition job_prog (j : Job) : PProg unit :=
  match j with
  | JTask s => act PAccepted;; linked (p_session bounds_us started fuel s)
  | JExpirer turns => p_expirer turns
  | JMain events sweepers => p_main events sweepers
  end.

End programs.

(** ** What the threads share *)

Record Process := mkProcess {
  ps_engine : Shared;
  ps_server : SShared;
  ps_serve : ServeState;
  ps_accepted : gset nat;
  ps_ended : gmap nat join_result;
  ps_stop : bool;
  ps_polls : nat
}.

(** A step of the accept loop, if its event can happen: a connection is accepted
    once, a task is joined when it has ended. [Serve.serve_step] says what else an
    event needs; the drain can time out at any moment. *)
Definition event_occurs (ev : ServeEvent) (w : Process) : bool :=
  match ev with
  | ShutdownSignal => true
  | Joined task r => bool_decide (ps_ended w !! task = Some r)
  | Accept (Ok task) _ => bool_decide (task ∉ ps_accepted w)
  | Accept (Error _) _ => true
  | DrainTimeout => true
  end.

Definition serve_event (ev : ServeEvent) (w : Process) : option (ServeState * Process) :=
  if event_occurs ev w then
    s ← serve_step (ps_serve w) ev;
    let accepted := match accepted_task ev with Some task => {[task]} ∪ ps_accepted w | None => ps_accepted w end in
    Some (s, mkProcess (ps_engine w) (ps_server w) s accepted (ps_ended w) (ps_stop w) (ps_polls w))
  else None.

(** [abort_all] after the time-out, and the [JoinSet] dropped with its tasks when the
    accept loop returns or unwinds. *)
Definition aborted (s : ServeState) : bool :=
  match s with Accepting _ | Draining _ => false | Aborting _ | Serve.Returned _ | Panicked => true end.

Section system.
Context `{Profile} (hash : bytes -> Z) (eclock clock : nat -> Instant) (wall : nat -> SystemTime).
Context (fault : nat -> nat -> option nat).

(** [drops k]: an aborted task whose action is the [k]-th of all tasks has to wait
    there for its socket, and is dropped when so many bytes of its reply have been
    taken. A task goes on where it does not have to wait. *)
Context (drops : nat -> option nat).

Definition dropped_at {X} (t : nat) (a : SAct X) (w : Process) : option SShared :=
  if aborted (ps_serve w) then k ← drops (ps_polls w); sact_drop t a k (ps_server w) else None.

(** The readings of the clock by the engine's methods ([eclock]) and by the tasks
    ([clock]) are numbered separately; nothing is assumed of either. *)
Definition pact_run {X} (t : nat) (a : PAct X) (w : Process) : option (X * Process) :=
  let put e sv ended stop := mkProcess e sv (ps_serve w) (ps_accepted w) ended stop (ps_polls w) in
  match a in PAct X return option (X * Process) with
  | PTask a =>
      let polled sv := mkProcess (ps_engine w) sv (ps_serve w) (ps_accepted w) (ps_ended w) (ps_stop w) (S (ps_polls w)) in
      match dropped_at t a w with
      | Some sv => Some (None, polled sv)
      | None => r ← sact_run clock wall fault t a (ps_server w); Some (Some (fst r), polled (snd r))
      end
  | PEngine a =>
      r ← act_run eclock t a (ps_engine w);
      Some (fst r, put (snd r) (ps_server w) (ps_ended w) (ps_stop w))
  | PAccepted => if decide (t ∈ ps_accepted w) then Some (tt, w) else None
  | PEnd r => Some (tt, put (ps_engine w) (ps_server w) (<[t := r]> (ps_ended w)) (ps_stop w))
  | PServe ev => serve_event ev w
  | PLoadStop => Some (ps_stop w, w)
  | PStoreStop => Some (tt, put (ps_engine w) (ps_server w) (ps_ended w) true)
  | PJoin threads => if decide (Forall (fun u => is_Some (ps_ended w !! u)) threads) then Some (tt, w) else None
  end.

Abbreviation PSystem := (System PAct Failure Job unit Process).
Abbreviation PLabel := (Label Failure Job unit).

Context (e : MemoryEngine) (fuel : nat) (bounds_us : list Z) (started : Instant).

Definition the_prog : Job -> PProg unit :=
  job_prog hash (length (shards e)) (shard_mask e) (max_bytes e) fuel bounds_us started.

Definition process_step : nat -> PSystem -> option (option PLabel * PSystem) :=
  thread_step (F := PAct) (@pact_run) the_prog.
Definition process_schedule : list nat -> PSystem -> option (list PLabel * PSystem) :=
  threads_run (F := PAct) (@pact_run) the_prog.

End system.

(** The engine [e], fresh metrics and a thread for every job. *)
Definition process_start (e : MemoryEngine) (m : Metrics) (log : option SharedObservationLog) (jobs : list Job)
    : System PAct Failure Job unit Process :=
  all_idle (mkProcess (mkShared e ∅ 0) (mkSShared m log 0 ((fun _ => ([], 0)) <$> jobs)) serve_start ∅ ∅ false 0)
    ((fun j => [j]) <$> jobs).
