(* ===== verification/ProcessSpec.v ===== *)
(** * What the clients of a running server are promised

    The engine calls of all tasks, each with the clock reading its method made,
    form one sequence that the map of keys to values and deadlines explains. In
    between, a sweep only drops keys that had expired when it read the clock, and
    writes to an engine with a capacity may drop keys. ProcessThms.v proves that
    the threads of Process.v implement this. *)

From S2P Require Import Prelude Threads Errors KVEngine Server ServerSpec EngineConc EngineConcSpec EngineConcMap ServerConc ServerConcSpec Process.

(** ** The history of the map *)

(** [history m l m']: from [m] the calls [l], each with the thread that made it, lead to [m']. *)
Inductive history (clock : nat -> Instant) (bounded : bool) (m : store) : list (nat * Effect) -> store -> Prop :=
| history_start : history clock bounded m [] m
| history_call l m1 t j o :
    history clock bounded m l m1 ->
    history clock bounded m (l ++ [(t, (clock j, o, fst (m_exec (clock j) o m1)))]) (snd (m_exec (clock j) o m1))
| history_sweep l m1 m2 j :
    history clock bounded m l m1 -> swept (clock j) m1 m2 -> history clock bounded m l m2
| history_evict l m1 m2 t now o r :
    history clock bounded m l m1 -> bounded = true -> (t, (now, o, r)) ∈ l -> is_write o = true ->
    m2 ⊆ m1 -> history clock bounded m l m2.

(** ** The calls of a job *)

Definition command_ops (c : Command) : list Op :=
  match c with
  | CGet k => [OpGet k]
  | CSet k v None => [OpSet k v]
  | CSet k v (Some n) => [OpSetTtl k v (from_secs n)]
  | CDel ks => OpDelete <$> ks
  | CExpire k n => [OpExpire k (from_secs n)]
  | CTtl k => [OpTtl k]
  | CPing _ | CInfo | CBad _ => []
  end.

Definition session_ops (s : Session) : list Op := concat ((fun args => command_ops (decode args)) <$> se_commands s).

(** The calls a thread makes at most. *)
Definition job_calls (j : Job) : list Call :=
  match j with
  | JTask s => CallOp <$> session_ops s
  | JExpirer turns => replicate turns CallPurge
  | JMain _ _ => []
  end.

(** What a thread that serves no connection would be served. *)
Definition no_session : Session := mkSession [] (Val tt) (Ok tt).
Definition job_session (j : Job) : Session := match j with JTask s => s | _ => no_session end.

(** ** The calls of a program *)

(** [makes p ops Q]: [p] makes the calls [ops], in this order, and ends with [Q] of
    those it has not made. *)
Fixpoint makes {A} (p : SProg A) (ops : list Op) (Q : outcome io_error A -> list Op -> Prop) : Prop :=
  match p with
  | Ret o => Q o ops
  | Act a k =>
      match a in SAct X return (X -> list Op -> Prop) -> Prop with
      | ACall o => fun R =>
          exists ops', ops = o :: ops' /\ forall now mp, R (Val (fst (m_exec now o mp))) ops'
      | _ => fun R => forall x, R x ops
      end (fun x ops' => makes (k x) ops' Q)
  end.

Lemma makes_mono {A} (p : SProg A) : forall ops (Q Q' : outcome io_error A -> list Op -> Prop),
  (forall o ops', Q o ops' -> Q' o ops') -> makes p ops Q -> makes p ops Q'.
Proof.
  induction p as [o|X a k IH]; intros ops Q Q' HQ; cbn; [apply HQ|]. destruct a; cbn; try naive_solver.
Qed.

Lemma makes_bind {A B} (p : SProg A) (k : A -> SProg B) : forall ops Q,
  makes p ops (fun o ops' => makes (carry o k) ops' Q) -> makes (p ≫= k) ops Q.
Proof.
  induction p as [o|X a c IH]; intros ops Q; cbn; [done|]. destruct a; cbn; try naive_solver.
Qed.

Definition is_call {X} (a : SAct X) : bool := match a with ACall _ => true | _ => false end.

Lemma makes_act {X} (a : SAct X) ops (Q : outcome io_error X -> list Op -> Prop) :
  is_call a = false -> (forall x, Q (Val x) ops) -> makes (act a) ops Q.
Proof. intros Ha HQ. destruct a; try done; cbn; intros; apply HQ. Qed.

(** A program that makes the calls [own] and answers, and one that makes none. *)
Definition calls {A} (p : SProg A) (own : list Op) : Prop :=
  forall ops (Q : outcome io_error A -> list Op -> Prop), (forall a, Q (Val a) ops) -> makes p (own ++ ops) Q.
Definition silent {A} (p : SProg A) : Prop :=
  forall ops (Q : outcome io_error A -> list Op -> Prop), (forall o, Q o ops) -> makes p ops Q.

Lemma calls_ret {A} (a : A) : calls (mret a) [].
Proof. intros ops Q HQ. apply HQ. Qed.

Lemma calls_bind {A B} (p : SProg A) (k : A -> SProg B) own own' :
  calls p own -> (forall a, calls (k a) own') -> calls (p ≫= k) (own ++ own').
Proof. intros Hp Hk ops Q HQ. apply makes_bind. rewrite <- app_assoc. apply Hp. intros a. by apply Hk. Qed.

Lemma calls_act {X} (a : SAct X) : is_call a = false -> calls (act a) [].
Proof. intros Ha ops Q HQ. by apply makes_act. Qed.

Lemma silent_ret {A} (o : outcome io_error A) : silent (Ret o).
Proof. intros ops Q HQ. apply HQ. Qed.

Lemma silent_bind {A B} (p : SProg A) (k : A -> SProg B) : silent p -> (forall a, silent (k a)) -> silent (p ≫= k).
Proof.
  intros Hp Hk ops Q HQ. apply makes_bind, Hp. intros o. destruct o; cbn; [by apply Hk|apply HQ..].
Qed.

Lemma silent_act {X} (a : SAct X) : is_call a = false -> silent (act a).
Proof. intros Ha ops Q HQ. by apply makes_act. Qed.

(** ** The calls of a connection *)

Section programs.
Context (bounds_us : list Z) (started : Instant) (fuel : nat).

Ltac no_calls :=
  repeat first
    [ apply calls_ret | apply silent_ret | apply calls_act; reflexivity | apply silent_act; reflexivity
    | apply (calls_bind _ _ [] []); [|intros ?] | apply silent_bind; [|intros ?]
    | match goal with |- calls match ?x with _ => _ end _ => destruct x | |- silent match ?x with _ => _ end => destruct x end ].

Lemma silent_finish at_ response wr : silent (p_finish_tracked_request bounds_us fuel at_ response wr).
Proof.
  assert (forall f current value, silent (p_update_max_loop f current value)) as Hloop.
  { induction f as [|f IH]; intros current value; cbn [p_update_max_loop]; no_calls. apply IH. }
  unfold p_finish_tracked_request, p_record_error, p_record_request_end, p_hist_record, p_update_max. no_calls. apply Hloop.
Qed.

Lemma calls_planned args : calls (p_planned_observations args) [].
Proof.
  assert (forall keys, calls (p_planned_deletes keys) []) as Hdel by (induction keys; cbn [p_planned_deletes]; no_calls; done).
  unfold p_planned_observations, p_planned_one. no_calls. apply Hdel.
Qed.

Lemma calls_record evs : calls (p_record_events evs) [].
Proof. induction evs; cbn [p_record_events]; no_calls. done. Qed.

Lemma calls_info : calls (p_handle_info bounds_us started) [].
Proof.
  assert (forall is_, calls (p_load_buckets is_) []) as Hload by (induction is_; cbn [p_load_buckets]; no_calls; done).
  unfold p_handle_info, p_snapshot, p_hist_snapshot. no_calls. apply Hload.
Qed.

Lemma calls_deletes keys : forall removed, calls (p_del_loop keys removed) (OpDelete <$> keys).
Proof.
  induction keys as [|k keys IH]; intros removed ops Q HQ; cbn [p_del_loop fmap list_fmap]; [apply HQ|].
  cbn. exists ((OpDelete <$> keys) ++ ops). split; [done|]. intros now mp. destruct (bool_decide _); by apply IH.
Qed.

Lemma calls_observed args h own : calls h own -> calls (p_observed args h) own.
Proof.
  intros Hh. apply (calls_bind _ _ [] own); [apply calls_planned|]. intros evs.
  rewrite <- (app_nil_r own). apply calls_bind; [done|]. intros response. no_calls. apply calls_record.
Qed.

(** One call, and a reply that depends on nothing else. *)
Ltac one_call := intros ops Q HQ; cbn; exists ops; split; [done|]; intros now mp; cbn; repeat case_match; apply HQ.

Lemma calls_dispatch args : calls (p_dispatch_command bounds_us started args) (command_ops (decode args)).
Proof.
  destruct args as [|name rest]; [apply calls_ret|]. cbn [p_dispatch_command decode].
  destruct (eq_ignore_ascii_case name (lit "PING")); [by destruct rest as [|? [|]]; apply calls_ret|].
  destruct (eq_ignore_ascii_case name (lit "GET")).
  { apply calls_observed. destruct rest as [|k [|]]; try apply calls_ret. one_call. }
  destruct (eq_ignore_ascii_case name (lit "SET")).
  { apply calls_observed. destruct rest as [|k [|x [|ex [|m [|]]]]]; try apply calls_ret; [one_call|].
    cbn [p_handle_set decode_set]. destruct (eq_ignore_ascii_case ex (lit "EX")); [|apply calls_ret].
    rewrite parse_u64_spec. destruct (number m) as [s|]; [|apply calls_ret]. one_call. }
  destruct (eq_ignore_ascii_case name (lit "DEL")).
  { apply calls_observed. destruct rest as [|k keys]; [apply calls_ret|]. apply calls_deletes. }
  destruct (eq_ignore_ascii_case name (lit "EXPIRE")).
  { apply calls_observed. destruct rest as [|k [|m [|]]]; try apply calls_ret.
    cbn [p_handle_expire decode_expire]. rewrite parse_u64_spec. destruct (number m) as [s|]; [|apply calls_ret]. one_call. }
  destruct (eq_ignore_ascii_case name (lit "TTL")).
  { apply calls_observed. destruct rest as [|k [|]]; try apply calls_ret. one_call. }
  destruct (eq_ignore_ascii_case name (lit "INFO")); [apply calls_info|apply calls_ret].
Qed.

(** A request makes the calls of its command, whatever becomes of its reply. *)
Lemma tracked_makes respond own ops (Q : outcome io_error unit -> list Op -> Prop) :
  calls respond own -> (forall o, Q o ops) -> makes (p_tracked bounds_us fuel respond) (own ++ ops) Q.
Proof.
  intros Hr HQ. unfold p_tracked, p_record_request_start. cbn. intros _ _ at_.
  apply makes_bind, Hr. intros response. cbn. intros wr. by apply silent_finish.
Qed.

Lemma session_makes s : makes (p_session bounds_us started fuel s) (session_ops s) (fun _ _ => True).
Proof.
  unfold p_session, session_ops. apply makes_bind. generalize (se_commands s) as cmds.
  induction cmds as [|args cmds IH]; cbn [p_commands fmap list_fmap concat].
  - unfold p_stop. destruct (se_parser s) as [[]|[]| |]; try done. intros [].
    by apply (tracked_makes _ [] []); [apply calls_ret|].
  - intros []. apply makes_bind. apply (tracked_makes _ _ _ _ (calls_dispatch args)). by intros [[]|x| |].
Qed.

End programs.
