(* ===== verification/ProcessInv.v ===== *)
(** * The invariant of the server process (hkv-server/src/main.rs, hkv-server/src/server.rs)

    The threads of Process.v, each at a place of its program, over the invariants
    of the engine (EngineConcInv.v) and of the tasks (ServerConcInv.v): a ghost
    system of engine threads runs the calls of each thread, and the history of the
    map grows when a call takes effect. *)

From S2P Require Import Prelude Serve Threads Errors KVEngine RespParser Observation F64 Metrics Server ServerSpec Engine EngineSpec EngineKV EngineThms.
From S2P Require Import EngineConc EngineConcSpec EngineConcWp EngineConcInv EngineConcMap EngineConcCalls.
From S2P Require Import ServerConc ServerConcSpec ServerConcWp ServerConcReq ServerConcInv ServerConcCount Process ProcessSpec.

Abbreviation PThread := (Thread PAct Failure Job unit).
Abbreviation PSystem := (System PAct Failure Job unit Process).

Section process.
Context `{Profile} (hash : bytes -> Z) (eclock clock : nat -> Instant) (wall : nat -> SystemTime).
Context (fault : nat -> nat -> option nat) (drops : nat -> option nat) (e0 : MemoryEngine) (c0 : Cache) (fuel : nat).
Context (bounds_us : list Z) (started : Instant) (mp0 : store) (m0 : Metrics) (log0 : option SharedObservationLog).
Context (jobs : list Job).
Context (Hw : workload eclock e0 c0 (job_calls <$> jobs) fuel).
Context (Hmain : forall i j evs ss evs' ss', jobs !! i = Some (JMain evs ss) -> jobs !! j = Some (JMain evs' ss') -> i = j).

Abbreviation n := (length (shards e0)).
Abbreviation bounded := (negb (bool_decide (max_bytes e0 = usize_max))).
Abbreviation einv := (conc_inv hash eclock n (shard_mask e0) (max_bytes e0) fuel
  (total (c_shards c0) + zsum (zsum call_bytes) (job_calls <$> jobs))%Z).
Abbreviation sessions := (job_session <$> jobs).
Abbreviation first_view := (sv_start (h_max_us (latency m0))).
Abbreviation linked := (linked hash n (shard_mask e0) (max_bytes e0) fuel).
Abbreviation step := (process_step hash eclock clock wall fault drops e0 fuel bounds_us started).

(** ** Where a thread is *)

(** What is left of a task: the calls [ops], and all it has to do. *)
Definition goes_on (i : nat) (se : Session) (p : SProg unit) (ops : list Op) (v : SView) : Prop :=
  makes p ops (fun _ _ => True)
  /\ swp clock wall (fault i) (S (length bounds_us)) (Z.of_nat (requests se)) (all_requests sessions)
       (finished fault bounds_us sessions m0 true i se) p v
       (fun o v' => returns (se_parser se) o /\ finished fault bounds_us sessions m0 false i se v').

(** In a call of the engine, before it takes effect and after. *)
Inductive in_call (i : nat) (se : Session) (o : Op) (k : outcome HkvError Reply -> SProg unit) (ops : list Op)
    : APhase -> SView -> Prop :=
| ic_before ph v :
    ph = ACalled (CallOp o) \/ (exists j, ph = ATimed o (eclock j)) ->
    (forall j mp, let r := fst (m_exec (eclock j) o mp) in goes_on i se (k (Val r)) ops (add_fx [(eclock j, o, r)] v)) ->
    in_call i se o k ops ph v
| ic_after r now v : (now, o, r) ∈ sv_fx v -> goes_on i se (k (Val r)) ops v -> in_call i se o k ops (ADone o r) v.

Lemma in_call_done i se o k ops o' r v : in_call i se o k ops (ADone o' r) v -> goes_on i se (k (Val r)) ops v.
Proof. intros Hc. inversion Hc as [ph0 v0 Hp Hk|]; subst; [by destruct Hp as [?|[? ?]]|done]. Qed.

(** What the sweeper does after a turn. *)
Definition after_purge (turns : nat) (o : outcome HkvError Z) : PProg unit :=
  match o with Val _ => p_expirer n turns | _ => act (PEnd JoinPanic);; Ret Panic end.

Definition all_ended (w : Process) (l : list nat) : Prop := Forall (fun u => is_Some (ps_ended w !! u)) l.

(** What [main] does when the accept loop has returned. *)
Definition after_serve (ss : list nat) (r : result unit io_error) : PProg unit :=
  p_stop_expirer ss;; Ret (match r with Ok _ => Val tt | Error e => Err (Failed e) end).

(** The accept loop waits for an event. *)
Definition in_loop (st : ServeState) : Prop := match st with Serve.Returned _ | Panicked => False | _ => True end.

(** Why a task can be dropped: the drain may time out, or the accept loop is over
    before its time. *)
Definition times_out : Prop := exists i evs ss, jobs !! i = Some (JMain evs ss) /\ DrainTimeout ∈ evs.
Definition drop_reason (w : Process) : Prop :=
  times_out \/ (exists e, ps_serve w = Serve.Returned (Error e)) \/ ps_serve w = Panicked.

(** How a task has ended: as its connection has, or dropped. *)
Definition end_of (se : Session) (d : bool) (r : join_result) (o : outcome Failure unit) : Prop :=
  if d then r = JoinCancelled /\ o = Err Dropped
  else exists o', returns (se_parser se) o' /\ r = task_result o' /\ o = task_outcome o'.

Inductive job_ok (i : nat) (w : Process) : Job -> PThread -> EThread -> APhase -> SView -> Prop :=
| jo_task_new se :
    job_ok i w (JTask se) (mkThread [JTask se] None) (mkThread (CallOp <$> session_ops se) None) AIdle first_view
| jo_task_wait se :
    job_ok i w (JTask se) (mkThread [] (Some (act PAccepted;; linked (p_session bounds_us started fuel se))))
      (mkThread (CallOp <$> session_ops se) None) AIdle first_view
| jo_task_at se p ops v :
    i ∈ ps_accepted w -> goes_on i se p ops v ->
    job_ok i w (JTask se) (mkThread [] (Some (linked p))) (mkThread (CallOp <$> ops) None) AIdle v
| jo_task_in se o k ops ph v {X} (a : EngineAct X) (c : X -> EProg Reply) :
    i ∈ ps_accepted w -> in_call i se o k ops ph v ->
    job_ok i w (JTask se)
      (mkThread [] (Some (Act (PEngine a) (fun x => graft (c x) (fun out => linked (k out))))))
      (mkThread (CallOp <$> ops) (Some (Act a (fun x => c x ≫= fun r => mret (AReply r))))) ph v
| jo_task_dropped se todo v :
    i ∈ ps_accepted w -> drop_reason w -> finished fault bounds_us sessions m0 true i se v ->
    job_ok i w (JTask se) (mkThread [] (Some task_dropped)) (mkThread todo None) AIdle v
| jo_task_ended se d r o th todo v :
    i ∈ ps_accepted w -> (d = true -> drop_reason w) -> ps_ended w !! i = Some r -> end_of se d r o ->
    finished fault bounds_us sessions m0 d i se v -> th = mkThread [] (Some (Ret o)) \/ th = mkThread [] None ->
    job_ok i w (JTask se) th (mkThread todo None) AIdle v
| jo_expirer_new turns :
    job_ok i w (JExpirer turns) (mkThread [JExpirer turns] None) (mkThread (replicate turns CallPurge) None) AIdle first_view
| jo_expirer_at turns k :
    job_ok i w (JExpirer turns) (mkThread [] (Some (p_expirer n k))) (mkThread (replicate k CallPurge) None) AIdle first_view
| jo_expirer_go turns k :
    job_ok i w (JExpirer turns) (mkThread [] (Some (graft (p_purge_expired n) (after_purge k))))
      (mkThread (replicate (S k) CallPurge) None) AIdle first_view
| jo_expirer_in turns k ph {X} (a : EngineAct X) (c : X -> EProg Z) :
    ph = ACalled CallPurge \/ (exists j l removed, ph = APurging (eclock j) l removed) ->
    job_ok i w (JExpirer turns) (mkThread [] (Some (Act (PEngine a) (fun x => graft (c x) (after_purge k)))))
      (mkThread (replicate k CallPurge) (Some (Act a (fun x => c x ≫= fun r => mret (APurged r))))) ph first_view
| jo_expirer_stop turns todo :
    job_ok i w (JExpirer turns) (mkThread [] (Some (act (PEnd (Finished (Ok tt)))))) (mkThread todo None) AIdle first_view
| jo_expirer_over turns th todo :
    th = mkThread [] (Some (Ret (Val tt))) \/ th = mkThread [] None ->
    job_ok i w (JExpirer turns) th (mkThread todo None) AIdle first_view
| jo_main_new evs ss :
    in_loop (ps_serve w) ->
    job_ok i w (JMain evs ss) (mkThread [JMain evs ss] None) (mkThread [] None) AIdle first_view
| jo_main_at evs evs' ss :
    in_loop (ps_serve w) -> evs' ⊆ evs ->
    job_ok i w (JMain evs ss) (mkThread [] (Some (p_serve evs' ≫= after_serve ss))) (mkThread [] None) AIdle first_view
| jo_main_stop evs ss r :
    ps_serve w = Serve.Returned r ->
    job_ok i w (JMain evs ss) (mkThread [] (Some (after_serve ss r))) (mkThread [] None) AIdle first_view
| jo_main_join evs ss r o :
    ps_serve w = Serve.Returned r -> o <> Panic ->
    job_ok i w (JMain evs ss) (mkThread [] (Some (act (PJoin ss);; Ret o))) (mkThread [] None) AIdle first_view
| jo_main_panicked evs ss :
    ps_serve w = Panicked ->
    job_ok i w (JMain evs ss) (mkThread [] (Some (Ret Panic))) (mkThread [] None) AIdle first_view
| jo_main_over evs ss th :
    (forall r, ps_serve w = Serve.Returned r -> all_ended w ss) ->
    th = mkThread [] None \/ (exists o, o <> Panic /\ th = mkThread [] (Some (Ret o))) ->
    job_ok i w (JMain evs ss) th (mkThread [] None) AIdle first_view.

(** It has nothing more to do but to return. *)
Definition past (th : PThread) : Prop := th_todo th = [] /\ (th_run th = None \/ exists o, th_run th = Some (Ret o)).

(** The accept loop: it waits for tasks it accepted; one it no longer waits for
    has ended, and not by a panic, unless the panic was resumed. *)
Record loop_ok (w : Process) : Prop := {
  lo_tasks t : t ∈ ps_accepted w -> exists se, jobs !! t = Some (JTask se);
  lo_waiting : waiting_for (ps_serve w) ⊆ ps_accepted w;
  lo_joined t : healthy (ps_serve w) -> t ∈ ps_accepted w ->
    t ∈ waiting_for (ps_serve w) \/ exists r, ps_ended w !! t = Some r /\ r <> JoinPanic;
  lo_panicked : ps_serve w = Panicked -> exists t, t ∈ ps_accepted w /\ ps_ended w !! t = Some JoinPanic;
  lo_drains : ps_serve w <> Draining ∅ /\ ps_serve w <> Aborting ∅;
  lo_aborted : aborted (ps_serve w) = true -> drop_reason w \/ ps_serve w = Serve.Returned (Ok tt)
}.

(** What a step of the thread [i] with the job [job] can do to what the threads
    share besides the engine and the metrics. *)
Record moves (i : nat) (job : Job) (w w' : Process) : Prop := {
  mv_ended : ps_ended w' = ps_ended w \/ exists r, ps_ended w !! i = None /\ ps_ended w' = <[i := r]> (ps_ended w);
  mv_loop : (ps_serve w' = ps_serve w /\ ps_accepted w' = ps_accepted w)
    \/ (loop_ok w' /\ ps_accepted w ⊆ ps_accepted w' /\ (drop_reason w -> drop_reason w')
        /\ exists evs ss, job = JMain evs ss)
}.

Record proc_inv (s : PSystem) (es : ESystem) (a : AState) (evs : list View) (svs : list SView)
    (fx : list (nat * Effect)) (m : store) : Prop := {
  pi_memory : sy_shared es = ps_engine (sy_shared s);
  pi_engine : einv es a evs;
  pi_holds : holds hash a m;
  pi_history : history eclock bounded mp0 fx m;
  pi_owned : owned fx (sv_fx <$> svs);
  pi_tasks : shared_inv bounds_us sessions m0 log0 (ps_server (sy_shared s)) svs;
  pi_loop : loop_ok (sy_shared s);
  pi_length : length (sy_threads s) = length jobs;
  pi_es_length : length (sy_threads es) = length jobs;
  pi_jobs i job : jobs !! i = Some job -> exists th eth ph v,
    sy_threads s !! i = Some th /\ sy_threads es !! i = Some eth /\ a_threads a !! i = Some (th_todo eth, ph)
    /\ svs !! i = Some v /\ job_ok i (sy_shared s) job th eth ph v;
  pi_ended i : is_Some (ps_ended (sy_shared s) !! i) -> exists th, sy_threads s !! i = Some th /\ past th
}.

Lemma moves_ended i job w w' : moves i job w w' -> ps_ended w ⊆ ps_ended w'.
Proof. intros [[->|(r & Hi & ->)] _]; [done|by apply insert_subseteq]. Qed.

Lemma moves_loop i job w w' : loop_ok w -> moves i job w w' -> loop_ok w'.
Proof.
  intros [Ht Hwt Hj Hp Hd Hab] Hm. pose proof (moves_ended _ _ _ _ Hm) as Hsub.
  destruct Hm as [_ [[Es Ea]|(Hl & _)]]; [|done]. split; unfold drop_reason; rewrite ?Es, ?Ea; try done.
  - intros t Hh Hin. destruct (Hj t Hh Hin) as [?|(r & Hr & Hne)]; [by left|right]. exists r. split; [|done]. by eapply lookup_weaken.
  - intros E. destruct (Hp E) as (t & Hin & Hr). exists t. split; [done|]. by eapply lookup_weaken.
Qed.

Lemma moves_same i job w we ws stop polls : moves i job w (mkProcess we ws (ps_serve w) (ps_accepted w) (ps_ended w) stop polls).
Proof. split; by left. Qed.

(** What holds of the other threads still holds. *)
Lemma job_ok_moves i u job jobu w w' th eth ph v :
  (forall a b c d, job = JMain a b -> jobu = JMain c d -> u = i) -> u <> i ->
  moves i job w w' -> job_ok u w jobu th eth ph v -> job_ok u w' jobu th eth ph v.
Proof.
  intros Hone Hne Hm Hok. pose proof (moves_ended _ _ _ _ Hm) as Hsub.
  assert (forall t, t ∈ ps_accepted w -> t ∈ ps_accepted w') as Hacc.
  { intros t Hin. destruct Hm as [_ [[_ ->]|(_ & Hacc & _)]]; [done|by apply Hacc]. }
  assert (drop_reason w -> drop_reason w') as Hdrop.
  { destruct Hm as [_ [[Es _]|(_ & _ & Hdr & _)]]; [|done]. unfold drop_reason. by rewrite Es. }
  assert ((exists a b, jobu = JMain a b) -> ps_serve w' = ps_serve w) as Hserve.
  { intros (x & y & ->). destruct Hm as [_ [[-> _]|(_ & _ & _ & x' & y' & ->)]]; [done|]. by destruct Hne; eapply Hone. }
  destruct Hok; econstructor; eauto using lookup_weaken; try (rewrite Hserve by eauto; done).
  intros r. rewrite Hserve by eauto. intros Hr.
  match goal with Ha : forall r, _ -> all_ended _ _ |- _ => eapply Forall_impl; [exact (Ha r Hr)|] end.
  intros t [x Hx]. exists x. by eapply lookup_weaken.
Qed.

(** The thread [i] goes on, the others stay where they are. *)
Lemma proc_update s es a evs svs fx m i job th' eth' ph' w' es' a' evs' v' fx' m' :
  proc_inv s es a evs svs fx m -> jobs !! i = Some job ->
  sy_shared es' = ps_engine w' -> einv es' a' evs' -> holds hash a' m' -> history eclock bounded mp0 fx' m' ->
  owned fx' (<[i := sv_fx v']> (sv_fx <$> svs)) -> shared_inv bounds_us sessions m0 log0 (ps_server w') (<[i := v']> svs) ->
  sy_threads es' = <[i := eth']> (sy_threads es) -> others_same i a a' -> a_threads a' !! i = Some (th_todo eth', ph') ->
  moves i job (sy_shared s) w' -> (is_Some (ps_ended w' !! i) -> past th') -> job_ok i w' job th' eth' ph' v' ->
  proc_inv (mkSystem w' (<[i := th']> (sy_threads s))) es' a' evs' (<[i := v']> svs) fx' m'.
Proof.
  intros [Hm He Hh Hhi Ho Ht Hlo Hl Hel Hj Hend] Hjob Hm' He' Hh' Hhi' Ho' Ht' Hes Hoth Hph Hmv Hpast Hok.
  destruct (Hj _ _ Hjob) as (th & eth & ph & v & Hth & Heth & _ & Hv & _).
  split; cbn; try done.
  - by rewrite list_fmap_insert.
  - by eapply moves_loop.
  - by rewrite length_insert.
  - by rewrite Hes, length_insert.
  - intros u job' Hjob'. destruct (decide (u = i)) as [->|Hne].
    + simplify_eq. exists th', eth', ph', v'. rewrite Hes. split_and!; try done;
        apply list_lookup_insert_eq; by eapply lookup_lt_Some.
    + destruct (Hj _ _ Hjob') as (thu & ethu & phu & vu & H1 & H2 & H3 & H4 & H5).
      exists thu, ethu, phu, vu. rewrite Hes, !list_lookup_insert_ne by done. rewrite (Hoth u Hne).
      split_and!; try done. eapply job_ok_moves; [|done|done|done].
      intros x1 y1 x2 y2 -> ->. by eapply Hmain.
  - intros u Hu. destruct (decide (u = i)) as [->|Hne].
    + exists th'. split; [|by apply Hpast]. apply list_lookup_insert_eq. by eapply lookup_lt_Some.
    + destruct (Hend u) as (thu & Hthu & Hp).
      { destruct (mv_ended _ _ _ _ Hmv) as [E|(r & _ & E)]; rewrite E in Hu; [done|by rewrite lookup_insert_ne in Hu]. }
      exists thu. by rewrite list_lookup_insert_ne.
Qed.

Lemma owned_in {T} (l : list (nat * T)) ls t part x : owned l ls -> ls !! t = Some part -> x ∈ part -> (t, x) ∈ l.
Proof.
  intros [_ Hown] Ht Hx. rewrite (Hown _ _ Ht) in Hx. apply list_elem_of_fmap in Hx as ([u y] & -> & Hin).
  by apply list_elem_of_filter in Hin as [<- Hin].
Qed.

Lemma writer_in_history s es a evs svs fx m :
  proc_inv s es a evs svs fx m -> writer_at a -> exists t now o r, (t, (now, o, r)) ∈ fx /\ is_write o = true.
Proof.
  intros Hi (u & cs & o & r & Hu & Ho).
  assert (u < length jobs) as Hlt.
  { rewrite <- (pi_es_length _ _ _ _ _ _ _ Hi). pose proof (lookup_lt_Some _ _ _ Hu) as Hlt.
    rewrite (ci_abs _ _ _ _ _ _ _ _ _ _ (pi_engine _ _ _ _ _ _ _ Hi)), length_zip_with in Hlt. lia. }
  destruct (lookup_lt_is_Some_2 _ _ Hlt) as [job Hjob].
  destruct (pi_jobs _ _ _ _ _ _ _ Hi _ _ Hjob) as (th & eth & ph & v & _ & _ & Hph & Hv & Hok).
  rewrite Hu in Hph. simplify_eq. exists u.
  assert (exists now, (now, o, r) ∈ sv_fx v) as [now Hin].
  { remember (ADone o r) as ph eqn:E. destruct Hok; try done.
    - match goal with Hc : in_call _ _ _ _ _ _ _ |- _ => destruct Hc as [ph v [-> |[j ->]] _|r' now v Hin _] end; try done.
      simplify_eq. by exists now.
    - match goal with Hp : _ \/ _ |- _ => destruct Hp as [-> |(j & l & removed & ->)] end; done. }
  exists now, o, r. split; [|done]. eapply owned_in; [apply Hi| |exact Hin]. by rewrite list_lookup_fmap, Hv.
Qed.

(** *** One step of the thread [i] *)

Section step.
Context (s : PSystem) (es : ESystem) (a : AState) (evs : list View) (svs : list SView) (fx : list (nat * Effect)) (m : store).
Context (i : nat) (job : Job) (th : PThread) (eth : EThread) (ph : APhase) (v : SView).
Context (Hinv : proc_inv s es a evs svs fx m) (Hjob : jobs !! i = Some job).
Context (Hth : sy_threads s !! i = Some th) (Heth : sy_threads es !! i = Some eth).
Context (Hph : a_threads a !! i = Some (th_todo eth, ph)) (Hv : svs !! i = Some v).

Definition reaches (s' : PSystem) : Prop := exists es' a' evs' svs' fx' m', proc_inv s' es' a' evs' svs' fx' m'.

(** The engine is not touched. *)
Lemma step_outside th' w' v' :
  ps_engine w' = ps_engine (sy_shared s) -> sv_fx v' = sv_fx v ->
  shared_inv bounds_us sessions m0 log0 (ps_server w') (<[i := v']> svs) ->
  moves i job (sy_shared s) w' -> (is_Some (ps_ended w' !! i) -> past th') -> job_ok i w' job th' eth ph v' ->
  reaches (mkSystem w' (<[i := th']> (sy_threads s))).
Proof.
  intros He Hfx Hsh Hmv Hpast Hok. exists es, a, evs, (<[i := v']> svs), fx, m.
  eapply (proc_update _ _ _ _ _ _ _ i job th' eth ph w' es a evs v' fx m Hinv Hjob); try done; try apply Hinv.
  - rewrite He. apply Hinv.
  - rewrite Hfx, list_insert_id by (by rewrite list_lookup_fmap, Hv). apply Hinv.
  - by rewrite list_insert_id.
Qed.

(** Only the flag is touched, if anything. *)
Lemma step_still th' stop :
  let w := sy_shared s in
  let w' := mkProcess (ps_engine w) (ps_server w) (ps_serve w) (ps_accepted w) (ps_ended w) stop (ps_polls w) in
  past th' \/ ps_ended w !! i = None -> job_ok i w' job th' eth ph v ->
  reaches (mkSystem w' (<[i := th']> (sy_threads s))).
Proof.
  intros w w' Hp Hok. apply (step_outside _ _ v); try done.
  - rewrite list_insert_id by done. apply Hinv.
  - apply moves_same.
  - cbn. by destruct Hp as [?| ->]; [|intros [? [=]]].
Qed.

Lemma shared_eta : mkProcess (ps_engine (sy_shared s)) (ps_server (sy_shared s)) (ps_serve (sy_shared s)) (ps_accepted (sy_shared s))
  (ps_ended (sy_shared s)) (ps_stop (sy_shared s)) (ps_polls (sy_shared s)) = sy_shared s.
Proof. by destruct (sy_shared s). Qed.

Lemma step_idle th' :
  past th' \/ ps_ended (sy_shared s) !! i = None -> job_ok i (sy_shared s) job th' eth ph v ->
  reaches (mkSystem (sy_shared s) (<[i := th']> (sy_threads s))).
Proof. intros Hp Hok. pose proof (step_still th' (ps_stop (sy_shared s))) as Hst. cbn in Hst. rewrite shared_eta in Hst. auto. Qed.

(** The thread that has not ended has not been recorded as ended. *)
Lemma not_ended : ~ past th -> ps_ended (sy_shared s) !! i = None.
Proof.
  intros Hp. destruct (ps_ended (sy_shared s) !! i) eqn:Hi; [|done].
  destruct (pi_ended _ _ _ _ _ _ _ Hinv i) as (th1 & H1 & H2); [by eexists|]. by simplify_eq.
Qed.

Lemma step_ends th' r :
  let w := sy_shared s in
  let w' := mkProcess (ps_engine w) (ps_server w) (ps_serve w) (ps_accepted w) (<[i := r]> (ps_ended w)) (ps_stop w) (ps_polls w) in
  ps_ended w !! i = None -> past th' -> job_ok i w' job th' eth ph v ->
  reaches (mkSystem w' (<[i := th']> (sy_threads s))).
Proof.
  intros w w' Hno Hp Hok. apply (step_outside _ _ v); try done.
  - rewrite list_insert_id by done. apply Hinv.
  - split; [right; by exists r|by left].
Qed.

(** One action of a call, and the return if it was the last. *)
Lemma engine_moves {R X} (act : EngineAct X) (c : X -> EProg R) (wrap : R -> Answer) todo x we' :
  eth = mkThread todo (Some (Act act (fun y => c y ≫= fun r => mret (wrap r)))) ->
  act_run eclock i act (ps_engine (sy_shared s)) = Some (x, we') ->
  exists es' a' evs' m' ph1 eth' ph',
    sy_shared es' = we' /\ einv es' a' evs' /\ holds hash a' m' /\ sy_threads es' = <[i := eth']> (sy_threads es)
    /\ others_same i a a' /\ a_threads a' !! i = Some (th_todo eth', ph') /\ call_step eclock bounded a m ph m' ph1
    /\ ((exists Y (act' : EngineAct Y) c', c x = Act act' c'
           /\ eth' = mkThread todo (Some (Act act' (fun y => c' y ≫= fun r => mret (wrap r)))) /\ ph' = ph1)
        \/ exists r, c x = Ret (Val r) /\ eth' = mkThread todo None /\ ph' = AIdle
             /\ match wrap r with AReply r => exists o, ph1 = ADone o r | APurged removed => exists now i, ph1 = APurging now i removed end).
Proof.
  intros -> Hrun. rewrite <- (pi_memory _ _ _ _ _ _ _ Hinv) in Hrun.
  destruct (call_acts hash eclock e0 c0 _ fuel Hw es a evs i _ act _ x we' m ph (pi_engine _ _ _ _ _ _ _ Hinv) Heth eq_refl Hrun
    (pi_holds _ _ _ _ _ _ _ Hinv) Hph) as (a1 & evs1 & m1 & ph1 & Hi1 & Ho1 & Hph1 & Hm1 & Hcs). cbn [th_todo th_run] in *.
  destruct (c x) as [out|Y act' c'] eqn:Hcx; cbn [mbind prog_mbind prog_bind] in Hi1.
  2: { eexists (mkSystem we' _), a1, evs1, m1, ph1, _, ph1. split_and!; [reflexivity|exact Hi1|done|reflexivity|done|done|done|]. left. by exists Y, act', c'. }
  set (th1 := mkThread todo (Some (carry out (fun r => mret (wrap r)))) : EThread) in *.
  assert (exists out', carry out (fun r => mret (wrap r)) = (Ret out' : EProg Answer) /\ (forall ans, out' = Val ans -> exists r, out = Val r /\ ans = wrap r))
    as (out' & Eout & Hout).
  { destruct out as [r|err| |]; cbn; (eexists; split; [reflexivity|]); [|done..]. intros ans [= <-]. eauto. }
  destruct (call_returns hash eclock e0 c0 _ fuel Hw _ a1 evs1 i th1 out' ph1 Hi1) as (a2 & evs2 & ans & Eans & Hi2 & Ho2 & Hsh2 & Hph2 & Hans).
  { cbn. apply list_lookup_insert_eq. by eapply lookup_lt_Some. }
  { cbn. by rewrite Eout. }
  { exact Hph1. }
  cbn [sy_shared sy_threads th_todo th1] in *. rewrite list_insert_insert_eq in Hi2. destruct (Hout _ Eans) as (r & -> & ->).
  eexists (mkSystem we' _), a2, evs2, m1, ph1, (mkThread todo None), AIdle. split_and!; [reflexivity|exact Hi2|by eapply holds_shards|reflexivity| |done|done|].
  - intros u Hu. by rewrite (Ho2 u Hu), (Ho1 u Hu).
  - right. by exists r.
Qed.

(** The history after an eviction. *)
Lemma history_evicted m' : bounded = true -> writer_at a -> m' ⊆ m -> history eclock bounded mp0 fx m'.
Proof.
  intros Hb Hwr Hsub. destruct (writer_in_history _ _ _ _ _ _ _ Hinv Hwr) as (t & now & o & r & Hin & Ho).
  eapply history_evict; [apply Hinv|done|exact Hin|done|done].
Qed.

(** An action of a task's call. *)
Lemma task_call_history se o k ops m' ph1 :
  in_call i se o k ops ph v -> call_step eclock bounded a m ph m' ph1 ->
  exists v' fx', history eclock bounded mp0 fx' m' /\ owned fx' (<[i := sv_fx v']> (sv_fx <$> svs))
    /\ shared_inv bounds_us sessions m0 log0 (ps_server (sy_shared s)) (<[i := v']> svs) /\ in_call i se o k ops ph1 v'.
Proof.
  intros Hc Hcs. pose proof (pi_owned _ _ _ _ _ _ _ Hinv) as Hown. pose proof (pi_tasks _ _ _ _ _ _ _ Hinv) as Hsh.
  assert (sv_fx <$> svs !! i = Some (sv_fx v)) as Hfx by (by rewrite Hv).
  assert (forall m'', history eclock bounded mp0 fx m'' -> in_call i se o k ops ph1 v -> exists v' fx',
    history eclock bounded mp0 fx' m'' /\ owned fx' (<[i := sv_fx v']> (sv_fx <$> svs))
    /\ shared_inv bounds_us sessions m0 log0 (ps_server (sy_shared s)) (<[i := v']> svs) /\ in_call i se o k ops ph1 v') as Hsame.
  { intros m'' Hh Hin. exists v, fx. split_and!; try done.
    - by rewrite list_insert_id by (by rewrite list_lookup_fmap, Hv).
    - by rewrite list_insert_id. }
  destruct Hcs as [ph|c j|o' now|now l r1 r2 m' Hsw|ph m' Hb Hwr Hsub].
  - apply Hsame; [apply Hinv|done].
  - inversion Hc as [ph0 v0 Hp Hk|]; subst. destruct Hp as [[= ->]|[? [=]]]. apply Hsame; [apply Hinv|].
    apply ic_before; [right; by exists j|done].
  - inversion Hc as [ph0 v0 Hp Hk|]; subst. destruct Hp as [[=]|[j [= -> ->]]].
    eexists (add_fx [(eclock j, o, fst (m_exec (eclock j) o m))] v), _. split_and!.
    + apply (history_call _ _ _ fx m i j o). apply Hinv.
    + apply owned_snoc; [done|]. by rewrite list_lookup_fmap, Hv.
    + destruct (lookup_lt_is_Some_2 sessions i) as [se' Hse]; [rewrite length_fmap; by eapply lookup_lt_Some|].
      eapply shared_call; [exact Hsh|exact Hse|exact Hv].
    + eapply (ic_after _ _ _ _ _ _ (eclock j)); [cbn; set_solver|]. apply Hk.
  - inversion Hc as [ph0 v0 Hp Hk|]; subst. destruct Hp as [[=]|[j [=]]].
  - apply Hsame; [by apply history_evicted|done].
Qed.

Lemma task_engine_step se o k ops {X} (act : EngineAct X) (c : X -> EProg Reply) x we' :
  job = JTask se -> eth = mkThread (CallOp <$> ops) (Some (Act act (fun y => c y ≫= fun r => mret (AReply r)))) ->
  i ∈ ps_accepted (sy_shared s) -> in_call i se o k ops ph v -> act_run eclock i act (ps_engine (sy_shared s)) = Some (x, we') -> ps_ended (sy_shared s) !! i = None ->
  reaches (mkSystem (mkProcess we' (ps_server (sy_shared s)) (ps_serve (sy_shared s)) (ps_accepted (sy_shared s)) (ps_ended (sy_shared s)) (ps_stop (sy_shared s)) (ps_polls (sy_shared s)))
    (<[i := mkThread [] (Some (graft (c x) (fun out => linked (k out))))]> (sy_threads s))).
Proof.
  intros Ejob Eeth Hacc Hc Hrun Hne.
  destruct (engine_moves act c AReply (CallOp <$> ops) x we' Eeth Hrun)
    as (es' & a' & evs' & m' & ph1 & eth' & ph' & Hm & Hi' & Hh & Hes & Ho & Hph' & Hcs & Hend).
  destruct (task_call_history _ _ _ _ _ _ Hc Hcs) as (v' & fx' & Hhist & Hown & Hsh & Hc').
  exists es', a', evs', (<[i := v']> svs), fx', m'.
  eapply (proc_update _ _ _ _ _ _ _ i job _ eth' ph' _ es' a' evs' v' fx' m' Hinv Hjob); try done;
    [apply moves_same|cbn; rewrite Hne; by intros [? [=]]|].
  subst job. destruct Hend as [(Y & act' & c' & -> & -> & ->)|(r & -> & -> & -> & o' & ->)]; cbn [graft ps_ended].
  - by apply (jo_task_in _ _ _ o).
  - apply jo_task_at; [done|]. by eapply in_call_done.
Qed.

(** A task enters a call; nothing has happened yet. *)
Lemma task_enters se o (k : outcome HkvError Reply -> SProg unit) ops :
  job = JTask se -> th = mkThread [] (Some (linked (Act (ACall o) k))) ->
  eth = mkThread (CallOp <$> ops) None -> ph = AIdle -> i ∈ ps_accepted (sy_shared s) -> goes_on i se (Act (ACall o) k) ops v ->
  exists (es' : ESystem) (a' : AState) (evs' : list View) (ops' : list Op) X (act : EngineAct X) (c : X -> EProg Reply),
    proc_inv s es' a' evs' svs fx m
    /\ th = mkThread [] (Some (Act (PEngine act) (fun x => graft (c x) (fun out => linked (k out)))))
    /\ sy_threads es' !! i = Some (mkThread (CallOp <$> ops') (Some (Act act (fun y => c y ≫= fun r => mret (AReply r)))))
    /\ a_threads a' !! i = Some (CallOp <$> ops', ACalled (CallOp o))
    /\ in_call i se o k ops' (ACalled (CallOp o)) v.
Proof.
  intros Ejob Eth -> -> Hacc [Hmk Hgo]. cbn in Hmk, Hgo. destruct Hmk as (ops' & -> & Hmk).
  destruct (call_starts hash eclock e0 c0 _ fuel Hw es a evs i _ _ _ (pi_engine _ _ _ _ _ _ _ Hinv) Heth eq_refl eq_refl)
    as (a' & evs' & Hi' & Ho & Hsh & Hph').
  assert (in_call i se o k ops' (ACalled (CallOp o)) v) as Hc.
  { apply ic_before; [by left|]. intros j mp. split; [apply (Hmk (eclock j) mp)|apply (Hgo (eclock j) mp)]. }
  assert (exists X (act : EngineAct X) (c : X -> EProg Reply), op_prog hash n (shard_mask e0) (max_bytes e0) fuel o = Act act c) as (X & act & c & Eop)
    by (destruct o; cbn; by do 3 eexists).
  cbn [call_prog] in Hi'. rewrite Eop in Hi'. cbn [mbind prog_mbind prog_bind] in Hi'.
  cbn [Process.linked] in Eth. rewrite Eop in Eth. cbn [graft] in Eth.
  eexists (mkSystem (sy_shared es) _), a', evs', ops', X, act, c. split_and!; [|exact Eth| |done|done].
  2: { cbn. apply list_lookup_insert_eq. by eapply lookup_lt_Some. }
  assert (s = mkSystem (sy_shared s) (<[i := th]> (sy_threads s))) as Es by (rewrite list_insert_id by done; by destruct s).
  assert (svs = <[i := v]> svs) as Ev by (by rewrite list_insert_id).
  rewrite Es at 1. rewrite Ev at 1.
  eapply (proc_update _ _ _ _ _ _ _ i job th _ (ACalled (CallOp o)) (sy_shared s) _ a' evs' v fx m Hinv Hjob); try done; try apply Hinv.
  - eapply holds_shards; [apply Hinv|done].
  - rewrite list_insert_id by (by rewrite list_lookup_fmap, Hv). apply Hinv.
  - rewrite <- Ev. apply Hinv.
  - split; by left.
  - intros Hin. destruct (pi_ended _ _ _ _ _ _ _ Hinv i Hin) as (th1 & Hth1 & Hp). by simplify_eq.
  - subst job. rewrite Eth. by apply (jo_task_in _ _ _ o).
Qed.

(** An action of a sweep. *)
Lemma sweep_history m' ph1 :
  ph = ACalled CallPurge \/ (exists j l removed, ph = APurging (eclock j) l removed) ->
  call_step eclock bounded a m ph m' ph1 ->
  history eclock bounded mp0 fx m' /\ (ph1 = ACalled CallPurge \/ exists j l removed, ph1 = APurging (eclock j) l removed).
Proof.
  intros Hp Hcs. destruct Hcs as [ph|c j|o' now|now l r1 r2 m' Hsw|ph m' Hb Hwr Hsub].
  - split; [apply Hinv|done].
  - destruct Hp as [[= ->]|(? & ? & ? & [=])]. split; [apply Hinv|right; by exists j, 0, 0%Z].
  - destruct Hp as [[=]|(? & ? & ? & [=])].
  - destruct Hp as [[=]|(j & ? & ? & [= -> -> ->])]. split; [|right; eauto]. eapply history_sweep; [apply Hinv|done].
  - split; [by apply history_evicted|done].
Qed.

Lemma sweep_engine_step turns k {X} (act : EngineAct X) (c : X -> EProg Z) x we' :
  job = JExpirer turns -> v = first_view ->
  eth = mkThread (replicate k CallPurge) (Some (Act act (fun y => c y ≫= fun r => mret (APurged r)))) ->
  ph = ACalled CallPurge \/ (exists j l removed, ph = APurging (eclock j) l removed) ->
  act_run eclock i act (ps_engine (sy_shared s)) = Some (x, we') -> ps_ended (sy_shared s) !! i = None ->
  reaches (mkSystem (mkProcess we' (ps_server (sy_shared s)) (ps_serve (sy_shared s)) (ps_accepted (sy_shared s)) (ps_ended (sy_shared s)) (ps_stop (sy_shared s)) (ps_polls (sy_shared s)))
    (<[i := mkThread [] (Some (graft (c x) (after_purge k)))]> (sy_threads s))).
Proof.
  intros Ejob Ev Eeth Hp Hrun Hne.
  destruct (engine_moves act c APurged (replicate k CallPurge) x we' Eeth Hrun)
    as (es' & a' & evs' & m' & ph1 & eth' & ph' & Hm & Hi' & Hh & Hes & Ho & Hph' & Hcs & Hend).
  destruct (sweep_history _ _ Hp Hcs) as [Hhist Hp1]. exists es', a', evs', (<[i := v]> svs), fx, m'.
  eapply (proc_update _ _ _ _ _ _ _ i job _ eth' ph' _ es' a' evs' v fx m' Hinv Hjob); try done; cbn [ps_server ps_ended].
  - rewrite list_insert_id by (by rewrite list_lookup_fmap, Hv). apply Hinv.
  - rewrite list_insert_id by done. apply Hinv.
  - apply moves_same.
  - rewrite Hne. by intros [? [=]].
  - subst job v. destruct Hend as [(Y & act' & c' & -> & -> & ->)|(r & -> & -> & -> & _)]; cbn [graft after_purge].
    + by apply jo_expirer_in.
    + by apply jo_expirer_at.
Qed.

End step.

(** ** Steps *)

Context (Hreq : all_requests sessions < fuel).
Context (Hparse : forall se, JTask se ∈ jobs -> se_parser se <> Diverge).
Context (Haccepts : forall i evs ss ev t, jobs !! i = Some (JMain evs ss) -> ev ∈ evs -> accepted_task ev = Some t ->
  exists se, jobs !! t = Some (JTask se)).

(** How a thread can return: a task as its connection ends, or dropped, and by a
    panic only if its parser panicked; [main] by a panic only if a task did; the sweeper, and
    [main], also when the schedule's turns, and its events, are used up. *)
Definition ends (job : Job) (o : outcome Failure unit) : Prop :=
  match job with
  | JTask se => (exists o', returns (se_parser se) o' /\ o = task_outcome o') \/ o = Err Dropped
  | JExpirer _ => o = Val tt \/ o = Diverge
  | JMain _ _ => o = Panic -> exists t se, jobs !! t = Some (JTask se) /\ se_parser se = Panic
  end.
Definition fine (lab : option (Label Failure Job unit)) : Prop :=
  forall u o, lab = Some (Returned u o) -> exists job, jobs !! u = Some job /\ ends job o.

Lemma fine_none : fine None.
Proof. by intros u o. Qed.
Lemma fine_invoked t job : fine (Some (Invoked t job)).
Proof. by intros u o. Qed.
Lemma fine_returned t job o : jobs !! t = Some job -> ends job o -> fine (Some (Returned t o)).
Proof. intros Hj Ho u o' [= <- <-]. by exists job. Qed.

Lemma linked_act {X} (a : SAct X) (k : X -> SProg unit) :
  is_call a = false ->
  linked (Act a k) = Act (PTask a) (fun r => match r with Some x => linked (k x) | None => task_dropped end).
Proof. by destruct a. Qed.

Lemma goes_on_act i se {X} (a : SAct X) (k : X -> SProg unit) ops v :
  is_call a = false -> goes_on i se (Act a k) ops v ->
  (forall x, makes (k x) ops (fun _ _ => True))
  /\ swp_act clock wall (fault i) (S (length bounds_us)) (Z.of_nat (requests se)) (all_requests sessions)
       (finished fault bounds_us sessions m0 true i se) a v
       (fun x v' => swp clock wall (fault i) (S (length bounds_us)) (Z.of_nat (requests se)) (all_requests sessions)
          (finished fault bounds_us sessions m0 true i se) (k x) v'
          (fun o v'' => returns (se_parser se) o /\ finished fault bounds_us sessions m0 false i se v'')).
Proof. intros Ha [Hmk Hgo]. split; [|exact Hgo]. by destruct a. Qed.

(** Only a call makes the list of calls longer. *)
Lemma act_keeps_fx i limit wins dropped {X} (a : SAct X) v (R : X -> SView -> Prop) :
  is_call a = false -> swp_act clock wall (fault i) (S (length bounds_us)) limit wins dropped a v R ->
  swp_act clock wall (fault i) (S (length bounds_us)) limit wins dropped a v (fun x v' => R x v' /\ sv_fx v' = sv_fx v).
Proof. intros Ha HR. destruct a as [| |o|ev| |r|c x|[]|c x y]; try done; cbn in *; naive_solver. Qed.

(** The parts of one step of a thread whose program is known. *)
Ltac run_step Hth Hstep := unfold process_step, thread_step in Hstep; rewrite Hth in Hstep; cbn in Hstep.
Ltac unended Hi Hth := eapply not_ended; [exact Hi|exact Hth|by intros [? [?|[? ?]]]].

Section kinds.
Context (s : PSystem) (es : ESystem) (a : AState) (evs : list View) (svs : list SView) (fx : list (nat * Effect)) (m : store).
Context (Hi : proc_inv s es a evs svs fx m).

(** A task that was accepted and has not ended is aborted for a reason. *)
Lemma aborted_task i :
  aborted (ps_serve (sy_shared s)) = true -> i ∈ ps_accepted (sy_shared s) -> ps_ended (sy_shared s) !! i = None ->
  drop_reason (sy_shared s).
Proof.
  intros Hab Hacc Hne. pose proof (pi_loop _ _ _ _ _ _ _ Hi) as Hl. destruct (lo_aborted _ Hl Hab) as [?|Er]; [done|].
  destruct (lo_joined _ Hl i) as [Hin|(r & Hr & _)]; [by rewrite Er|done|by rewrite Er in Hin|by rewrite Hr in Hne].
Qed.

Lemma task_act_step i se {X} (act : SAct X) k ops eth v lab s' :
  jobs !! i = Some (JTask se) -> sy_threads s !! i = Some (mkThread [] (Some (linked (Act act k)))) ->
  eth = mkThread (CallOp <$> ops) None ->
  sy_threads es !! i = Some eth -> a_threads a !! i = Some (th_todo eth, AIdle) -> svs !! i = Some v ->
  is_call act = false -> i ∈ ps_accepted (sy_shared s) -> goes_on i se (Act act k) ops v -> step i s = Some (lab, s') -> reaches s' /\ fine lab.
Proof.
  intros Hjob Hth -> Heth Hph Hv Hact Hacc Hgo Hstep. destruct (goes_on_act _ _ _ _ _ _ Hact Hgo) as [Hmk Hwp].
  rewrite linked_act in Hth by done. run_step Hth Hstep.
  assert (ps_ended (sy_shared s) !! i = None) as Hne by unended Hi Hth.
  assert (sessions !! i = Some se) as Hse by (by rewrite list_lookup_fmap, Hjob).
  destruct (dropped_at drops i act (sy_shared s)) as [sv|] eqn:Ed.
  - cbn in Hstep. simplify_eq. unfold dropped_at in Ed. destruct (aborted _) eqn:Eab; [|done]. destruct (drops _) as [k'|]; [|done].
    destruct (act_dropped clock wall fault bounds_us sessions m0 log0 i se v _ svs _ (pi_tasks _ _ _ _ _ _ _ Hi) Hse Hv act _ _ _ Hwp Ed)
      as (v' & HD & Hfx & Hsh).
    split; [|apply fine_none]. eapply (step_outside _ _ _ _ _ _ _ _ _ _ _ v Hi Hjob Heth Hph Hv _ _ v'); try done; [apply moves_same| |].
    + cbn. rewrite Hne. by intros [? [=]].
    + apply jo_task_dropped; [done| |done]. by eapply aborted_task.
  - destruct (sact_run clock wall fault i act (ps_server (sy_shared s))) as [[x w']|] eqn:Ea; [|done]. cbn in Hstep. simplify_eq.
    destruct (act_shared clock wall fault bounds_us sessions m0 log0 i se v _ svs _ (pi_tasks _ _ _ _ _ _ _ Hi) Hse Hv act _ _ _
      (act_keeps_fx _ _ _ _ _ _ _ Hact Hwp) Ea) as (v' & [Hgo' Hfx] & Hsh).
    split; [|apply fine_none]. eapply (step_outside _ _ _ _ _ _ _ _ _ _ _ v Hi Hjob Heth Hph Hv _ _ v'); try done; [apply moves_same| |].
    + cbn. rewrite Hne. by intros [? [=]].
    + apply jo_task_at; [done|by split].
Qed.

(** A task under way in a call. *)
Lemma task_in_step i se o k ops ph v {X} (act : EngineAct X) (c : X -> EProg Reply) th eth lab s' :
  jobs !! i = Some (JTask se) -> sy_threads s !! i = Some th -> sy_threads es !! i = Some eth ->
  a_threads a !! i = Some (th_todo eth, ph) -> svs !! i = Some v ->
  th = mkThread [] (Some (Act (PEngine act) (fun x => graft (c x) (fun out => linked (k out))))) ->
  eth = mkThread (CallOp <$> ops) (Some (Act act (fun x => c x ≫= fun r => mret (AReply r)))) ->
  i ∈ ps_accepted (sy_shared s) -> in_call i se o k ops ph v -> step i s = Some (lab, s') -> reaches s' /\ fine lab.
Proof.
  intros Hjob Hth Heth Hph Hv Eth Eeth Hacc Hc Hstep. pose proof Hth as Hth'. rewrite Eth in Hth'. run_step Hth' Hstep.
  destruct (act_run eclock i act (ps_engine (sy_shared s))) as [[x we']|] eqn:Ea; [|done]. cbn in Hstep. simplify_eq.
  split; [|apply fine_none].
  eapply (task_engine_step _ _ _ _ _ _ _ _ _ _ _ ph v Hi Hjob Hth Heth Hph Hv se o k ops act c x we'); try done.
  unended Hi Hth.
Qed.

End kinds.

Lemma task_step s es a evs svs fx m i se lab s' :
  proc_inv s es a evs svs fx m -> jobs !! i = Some (JTask se) -> step i s = Some (lab, s') -> reaches s' /\ fine lab.
Proof.
  intros Hi Hjob Hstep. destruct (pi_jobs _ _ _ _ _ _ _ Hi _ _ Hjob) as (th & eth & ph & v & Hth & Heth & Hph & Hv & Hok).
  pose proof (fun th' => step_idle _ _ _ _ _ _ _ _ _ _ _ _ Hi Hjob Heth Hph Hv th') as Hidle.
  inversion Hok as [se0|se0|se0 p ops v0 Hacc Hgo|se0 o k ops ph0 v0 X act c Hacc Hc|se0 todo v0 Hacc Hdr Hfin
    |se0 d q o th0 todo v0 Hacc Hdr Hin Ho Hfin Hp| | | | | | | | | | | | ];
    subst; clear Hok.
  - run_step Hth Hstep. simplify_eq. split; [|apply fine_invoked]. apply Hidle; [right; unended Hi Hth|]. apply jo_task_wait.
  - run_step Hth Hstep. case_decide as Hacc; [|done]. cbn in Hstep. simplify_eq. split; [|apply fine_none].
    apply Hidle; [right; unended Hi Hth|]. apply jo_task_at; [done|]. split; [apply session_makes|]. apply swp_connection; [done|].
    apply Hparse. by eapply list_elem_of_lookup_2.
  - destruct p as [o|X act k].
    + destruct Hgo as [_ [Ho Hfin]]. pose proof Hth as Hth'. run_step Hth' Hstep. simplify_eq. split; [|apply fine_none].
      eapply (step_ends _ _ _ _ _ _ _ _ _ _ _ _ Hi Hjob Heth Hph Hv); [unended Hi Hth|split; [done|right; eauto]|].
      apply (jo_task_ended _ _ _ false (task_result o) (task_outcome o)); cbn; try done; [by rewrite lookup_insert_eq|by exists o|by left].
    + destruct (is_call act) eqn:Hact; [|by eapply (task_act_step _ _ _ _ _ _ _ Hi i se act k ops)].
      destruct act; try done.
      destruct (task_enters _ _ _ _ _ _ _ _ _ _ _ _ _ Hi Hjob Hth Heth Hph Hv se o k ops eq_refl eq_refl eq_refl eq_refl Hacc Hgo)
        as (es' & a' & evs' & ops' & X & act & c & Hi' & Eth & Heth' & Hph' & Hc).
      rewrite Eth in Hth. by eapply (task_in_step _ _ _ _ _ _ _ Hi' i se o k ops').
  - by eapply (task_in_step _ _ _ _ _ _ _ Hi i se o k ops).
  - pose proof Hth as Hth'. run_step Hth' Hstep. simplify_eq. split; [|apply fine_none].
    eapply (step_ends _ _ _ _ _ _ _ _ _ _ _ _ Hi Hjob Heth Hph Hv); [unended Hi Hth|split; [done|right; eauto]|].
    apply (jo_task_ended _ _ _ true JoinCancelled (Err Dropped)); cbn; try done; [by rewrite lookup_insert_eq|by left].
  - destruct Hp as [-> | ->]; run_step Hth Hstep; [|done]. simplify_eq. split.
    + assert (after_return o [] = ([] : list Job)) as -> by (by destruct o).
      apply Hidle; [left; split; [done|by left]|]. apply (jo_task_ended _ _ _ d q o); auto.
    + eapply fine_returned; [exact Hjob|]. destruct d; [right; by destruct Ho|left; destruct Ho as (o' & ? & _ & ?); eauto].
Qed.

Lemma expirer_enters s es a evs svs fx m i turns k th eth v :
  proc_inv s es a evs svs fx m -> jobs !! i = Some (JExpirer turns) -> sy_threads s !! i = Some th ->
  sy_threads es !! i = Some eth -> a_threads a !! i = Some (th_todo eth, AIdle) -> svs !! i = Some v -> v = first_view ->
  th = mkThread [] (Some (graft (p_purge_expired n) (after_purge k))) -> eth = mkThread (replicate (S k) CallPurge) None ->
  exists (es' : ESystem) (a' : AState) (evs' : list View) X (act : EngineAct X) (c : X -> EProg Z),
    proc_inv s es' a' evs' svs fx m
    /\ th = mkThread [] (Some (Act (PEngine act) (fun x => graft (c x) (after_purge k))))
    /\ sy_threads es' !! i = Some (mkThread (replicate k CallPurge) (Some (Act act (fun y => c y ≫= fun r => mret (APurged r)))))
    /\ a_threads a' !! i = Some (replicate k CallPurge, ACalled CallPurge).
Proof.
  intros Hi Hjob Hth Heth Hph Hv -> Eth ->.
  destruct (call_starts hash eclock e0 c0 _ fuel Hw es a evs i _ _ _ (pi_engine _ _ _ _ _ _ _ Hi) Heth eq_refl eq_refl)
    as (a' & evs' & Hi' & Ho & Hsh & Hph').
  eexists (mkSystem (sy_shared es) _), a', evs', _, ReadClock, (fun now => p_purge_shards now (seq 0 n) 0).
  split_and!; [|exact Eth| |done].
  2: { cbn. apply list_lookup_insert_eq. by eapply lookup_lt_Some. }
  assert (s = mkSystem (sy_shared s) (<[i := th]> (sy_threads s))) as Es by (rewrite list_insert_id by done; by destruct s).
  assert (svs = <[i := first_view]> svs) as Ev by (by rewrite list_insert_id).
  rewrite Es at 1. rewrite Ev at 1.
  eapply (proc_update _ _ _ _ _ _ _ i _ th _ (ACalled CallPurge) (sy_shared s) _ a' evs' first_view fx m Hi Hjob); try done; try apply Hi.
  - eapply holds_shards; [apply Hi|done].
  - rewrite list_insert_id by (by rewrite list_lookup_fmap, Hv). apply Hi.
  - rewrite <- Ev. apply Hi.
  - split; by left.
  - intros Hin. destruct (pi_ended _ _ _ _ _ _ _ Hi i Hin) as (th1 & Hth1 & Hp). by simplify_eq.
  - rewrite Eth. apply (jo_expirer_in i _ turns k _ ReadClock (fun now => p_purge_shards now (seq 0 n) 0)). by left.
Qed.

Lemma expirer_in_step s es a evs svs fx m i turns k ph {X} (act : EngineAct X) (c : X -> EProg Z) th eth lab s' :
  proc_inv s es a evs svs fx m -> jobs !! i = Some (JExpirer turns) -> sy_threads s !! i = Some th ->
  sy_threads es !! i = Some eth -> a_threads a !! i = Some (th_todo eth, ph) -> svs !! i = Some first_view ->
  th = mkThread [] (Some (Act (PEngine act) (fun x => graft (c x) (after_purge k)))) ->
  eth = mkThread (replicate k CallPurge) (Some (Act act (fun x => c x ≫= fun r => mret (APurged r)))) ->
  ph = ACalled CallPurge \/ (exists j l removed, ph = APurging (eclock j) l removed) ->
  step i s = Some (lab, s') -> reaches s' /\ fine lab.
Proof.
  intros Hi Hjob Hth Heth Hph Hv Eth Eeth Hp Hstep. pose proof Hth as Hth'. rewrite Eth in Hth'. run_step Hth' Hstep.
  destruct (act_run eclock i act (ps_engine (sy_shared s))) as [[x we']|] eqn:Ea; [|done]. cbn in Hstep. simplify_eq.
  split; [|apply fine_none].
  eapply (sweep_engine_step _ _ _ _ _ _ _ _ _ _ ph first_view Hi Hjob Heth Hph Hv turns k act c x we'); try done.
  unended Hi Hth.
Qed.

Lemma expirer_step s es a evs svs fx m i turns lab s' :
  proc_inv s es a evs svs fx m -> jobs !! i = Some (JExpirer turns) -> step i s = Some (lab, s') -> reaches s' /\ fine lab.
Proof.
  intros Hi Hjob Hstep. destruct (pi_jobs _ _ _ _ _ _ _ Hi _ _ Hjob) as (th & eth & ph & v & Hth & Heth & Hph & Hv & Hok).
  pose proof (fun th' => step_idle _ _ _ _ _ _ _ _ _ _ _ _ Hi Hjob Heth Hph Hv th') as Hidle.
  inversion Hok as [ | | | | | |t0|t0 k|t0 k|t0 k ph0 X act c Hp|t0 todo|t0 th0 todo Hp| | | | | | ]; subst; clear Hok.
  - run_step Hth Hstep. simplify_eq. split; [|apply fine_invoked]. apply Hidle; [right; unended Hi Hth|]. by apply jo_expirer_at.
  - destruct k as [|k]; pose proof Hth as Hth'; run_step Hth' Hstep; simplify_eq.
    + split; [|eapply fine_returned; [exact Hjob|by right]]. apply Hidle; [left; split; auto|]. apply jo_expirer_over. auto.
    + split; [|apply fine_none]. destruct (ps_stop (sy_shared s)); (apply Hidle; [right; unended Hi Hth|]).
      * by apply jo_expirer_stop.
      * by apply jo_expirer_go.
  - destruct (expirer_enters _ _ _ _ _ _ _ _ _ k _ _ _ Hi Hjob Hth Heth Hph Hv eq_refl eq_refl eq_refl)
      as (es' & a' & evs' & X & act & c & Hi' & Eth & Heth' & Hph').
    rewrite Eth in Hth. eapply (expirer_in_step _ _ _ _ _ _ _ i turns k _ act c); try done. by left.
  - by eapply (expirer_in_step _ _ _ _ _ _ _ i turns k ph).
  - pose proof Hth as Hth'. run_step Hth' Hstep. simplify_eq. split; [|apply fine_none].
    eapply (step_ends _ _ _ _ _ _ _ _ _ _ _ _ Hi Hjob Heth Hph Hv); [unended Hi Hth|split; [done|right; eauto]|].
    apply jo_expirer_over. by left.
  - destruct Hp as [-> | ->]; run_step Hth Hstep; [|done]. simplify_eq. split; [|eapply fine_returned; [exact Hjob|by left]].
    apply Hidle; [left; split; auto|]. apply jo_expirer_over. by right.
Qed.

(** *** The accept loop *)

Lemma serve_step_live st ev st' : serve_step st ev = Some st' -> in_loop st /\ healthy st.
Proof. by destruct st. Qed.

Lemma joined_waiting st t r st' : serve_step st (Joined t r) = Some st' -> t ∈ waiting_for st.
Proof. destruct st; cbn; unfold join_step; try done; by case_decide. Qed.

Lemma drain_next_not st c : (forall c', st c' = st ∅ -> c' = ∅) -> (forall q, st ∅ <> Serve.Returned q) -> drain_next st c <> st ∅.
Proof. intros Hinj Hq. unfold drain_next. case_decide as Hc; [by intros E; eapply Hq|]. intros E. by apply Hc, Hinj. Qed.

(** The drain loops wait for a task; the second is entered by the time-out. *)
Lemma serve_drains st ev st' :
  serve_step st ev = Some st' ->
  (st' <> Draining ∅ /\ st' <> Aborting ∅)
  /\ (aborted st' = true -> aborted st = true \/ ev = DrainTimeout \/ (exists e, st' = Serve.Returned (Error e)) \/ st' = Panicked
        \/ st' = Serve.Returned (Ok tt)).
Proof.
  intros Hs. assert (forall c, drain_next Draining c <> Draining ∅ /\ drain_next Draining c <> Aborting ∅) as Hd.
  { intros c. split; [apply drain_next_not; [by intros ? [= ->]|done]|]. unfold drain_next. by case_decide. }
  assert (forall c, drain_next Aborting c <> Draining ∅ /\ drain_next Aborting c <> Aborting ∅) as Ha.
  { intros c. split; [|apply drain_next_not; [by intros ? [= ->]|done]]. unfold drain_next. by case_decide. }
  assert (forall c, aborted (drain_next Draining c) = true -> drain_next Draining c = Serve.Returned (Ok tt)) as Hdone.
  { intros c. unfold drain_next. by case_decide. }
  destruct st as [c|c|c|q|]; [..|done|done]; destruct ev as [|t r|[t|e] [[]|e2]|]; cbn in Hs; try done;
    unfold join_step in Hs; repeat case_decide; try destruct (reap_connection_task r); simplify_eq;
    (split; [done || apply Hd || apply Ha|]); cbn; eauto 10.
Qed.

Lemma loop_step ev w st w' :
  loop_ok w -> (forall t, accepted_task ev = Some t -> exists se, jobs !! t = Some (JTask se)) -> (ev = DrainTimeout -> times_out) ->
  serve_event ev w = Some (st, w') -> ps_serve w' = st /\ loop_ok w' /\ ps_accepted w ⊆ ps_accepted w'
  /\ (drop_reason w -> drop_reason w') /\ in_loop (ps_serve w) /\ ps_ended w' = ps_ended w /\ ps_engine w' = ps_engine w /\ ps_server w' = ps_server w.
Proof.
  intros [Ht Hwt Hj Hp _ Hab] Hacc Htime. unfold serve_event. destruct (event_occurs ev w) eqn:Hocc; [|done].
  destruct (serve_step (ps_serve w) ev) as [st1|] eqn:Es; [|done]. cbn. intros [= -> <-]. split; [done|].
  destruct (serve_step_live _ _ _ Es) as [Hin_loop Hlive].
  assert (forall w1, ps_serve w1 = st -> drop_reason w -> drop_reason w1) as Hkeep.
  { intros w1 _ [?|[[e E]|E]]; [by left|by destruct (proj2 Hlive e)|by destruct (proj1 Hlive)]. }
  destruct (serve_drains _ _ _ Es) as [Hdr Hab'].
  assert (forall w1, ps_serve w1 = st -> aborted st = true -> drop_reason w1 \/ st = Serve.Returned (Ok tt)) as Habort.
  { intros w1 E1 [Hb|Hb]%Hab'.
    - destruct (Hab Hb) as [Hr|Er]; [left; by apply (Hkeep w1)|by rewrite Er in Hin_loop].
    - unfold drop_reason. rewrite E1. destruct Hb as [->|[?|[?|?]]]; auto. }
  assert (forall t, t ∈ (match accepted_task ev with Some task => {[task]} ∪ ps_accepted w | None => ps_accepted w end) ->
    exists se, jobs !! t = Some (JTask se)) as Htasks.
  { intros t. destruct (accepted_task ev) as [u|] eqn:Ea; [|apply Ht]. intros [->%elem_of_singleton|Hin]%elem_of_union; auto. }
  split; [|split_and!; try done; [cbn; destruct (accepted_task ev); [apply union_subseteq_r|done]|by apply Hkeep]].
  destruct (serve_step_cases _ _ _ Es) as [[Hpn ->]|[(Hpn & e & He & ->)|(Hpn & He & Hnp & Hnr & Hw')]].
  - destruct ev as [|t []| |]; try done. cbn in Hocc. apply bool_decide_eq_true in Hocc.
    split; cbn; try done; [by intros ? [[]]| |by apply Habort]. intros _. exists t. split; [|done]. apply Hwt. by eapply joined_waiting.
  - split; cbn; try done; [|by apply Habort]. intros t [_ Hne]. by destruct (Hne e).
  - split; cbn; try done; [| |by apply Habort].
    + rewrite Hw'. cbn. destruct (accepted_task ev); [by apply union_mono_l|]. destruct (joined_task ev); [|done].
      intros x [Hx _]%elem_of_difference. by apply Hwt.
    + intros t _ Hin. rewrite Hw'. cbn. destruct (accepted_task ev) as [u|] eqn:Ea.
      * apply elem_of_union in Hin as [Hin|Hin]; [left; by apply elem_of_union_l|].
        destruct (Hj t Hlive Hin); [left; by apply elem_of_union_r|by right].
      * destruct (Hj t Hlive Hin) as [Hin'|?]; [|by right].
        destruct (joined_task ev) as [u|] eqn:Eu; [|by left]. destruct (decide (t = u)) as [->|Hne].
        -- right. destruct ev as [|u' q| |]; try done. cbn in Eu, Hocc. apply bool_decide_eq_true in Hocc. simplify_eq.
           exists q. split; [done|]. by intros ->.
        -- left. apply elem_of_difference. by rewrite elem_of_singleton.
Qed.

(** A task whose join is a panic had a parser that panicked. *)
Lemma panic_of s es a evs svs fx m t :
  proc_inv s es a evs svs fx m -> t ∈ ps_accepted (sy_shared s) -> ps_ended (sy_shared s) !! t = Some JoinPanic ->
  exists se, jobs !! t = Some (JTask se) /\ se_parser se = Panic.
Proof.
  intros Hi Hin Hend. destruct (lo_tasks _ (pi_loop _ _ _ _ _ _ _ Hi) t Hin) as [se Hjob]. exists se. split; [done|].
  destruct (pi_jobs _ _ _ _ _ _ _ Hi _ _ Hjob) as (th & eth & ph & v & Hth & _ & _ & _ & Hok).
  destruct (pi_ended _ _ _ _ _ _ _ Hi t) as (th' & Hth' & Htd & Hrun); [by eexists|]. simplify_eq.
  inversion Hok as [| |se0 p ops v0 Hacc Hgo| | |se0 d q o th0 todo v0 Hacc _ Hr Ho _ _| | | | | | | | | | | | ]; subst; try done; cbn in Hrun.
  - by destruct Hrun as [?|[? ?]].
  - destruct Hrun as [?|[? Hrun]]; [done|]. injection Hrun as Hrun. destruct p as [|X act k]; [done|]. by destruct act as [| |[]| | | | | |].
  - by destruct Hrun as [?|[? ?]].
  - by destruct Hrun as [?|[? ?]].
  - rewrite Hend in Hr. destruct d; [by destruct Ho; simplify_eq|].
    destruct Ho as (o' & [->|[[x ->]|[-> ?]]] & Er & _); simplify_eq; done.
Qed.

Lemma main_step s es a evs svs fx m i events ss lab s' :
  proc_inv s es a evs svs fx m -> jobs !! i = Some (JMain events ss) -> step i s = Some (lab, s') -> reaches s' /\ fine lab.
Proof.
  intros Hi Hjob Hstep. destruct (pi_jobs _ _ _ _ _ _ _ Hi _ _ Hjob) as (th & eth & ph & v & Hth & Heth & Hph & Hv & Hok).
  pose proof (fun th' => step_idle _ _ _ _ _ _ _ _ _ _ _ _ Hi Hjob Heth Hph Hv th') as Hidle.
  inversion Hok as [ | | | | | | | | | | | |e0' s0 Hl|e0' evs' s0 Hl Hsub|e0' s0 q Hst|e0' s0 q o Hst Ho|e0' s0 Hst|e0' s0 th0 Hall Hp];
    subst; clear Hok.
  - run_step Hth Hstep. simplify_eq. split; [|apply fine_invoked]. apply Hidle; [right; unended Hi Hth|]. by apply jo_main_at.
  - destruct evs' as [|ev evs']; pose proof Hth as Hth'; run_step Hth' Hstep.
    { simplify_eq. split; [|by eapply fine_returned]. apply Hidle; [left; split; auto|]. apply jo_main_over; [|by left].
      intros q Hq. by rewrite Hq in Hl. }
    destruct (serve_event ev (sy_shared s)) as [[st w']|] eqn:Ev; [|done]. cbn in Hstep. simplify_eq.
    destruct (loop_step ev (sy_shared s) st w' (pi_loop _ _ _ _ _ _ _ Hi)) as (Est & Hlo & Hacc & Hdr & _ & Hend & Hen & Hse); [| |done|].
    { intros t. apply (Haccepts i events ss ev t Hjob). apply Hsub, list_elem_of_here. }
    { intros ->. exists i, events, ss. split; [done|]. apply Hsub, list_elem_of_here. }
    split; [|apply fine_none]. eapply (step_outside _ _ _ _ _ _ _ _ _ _ _ _ Hi Hjob Heth Hph Hv _ _ first_view); try done.
    + rewrite list_insert_id, Hse by done. apply Hi.
    + split; [by left|right; eauto 6].
    + rewrite Hend, (not_ended _ _ _ _ _ _ _ _ _ Hi Hth); [by intros [? [=]]|by intros [? [?|[? ?]]]].
    + assert (evs' ⊆ events) as Hsub' by (intros x Hx; apply Hsub; by right).
      destruct st as [c|c|c|q|]; cbn [prog_mbind mbind].
      * apply jo_main_at; [by rewrite Est|done].
      * apply jo_main_at; [by rewrite Est|done].
      * apply jo_main_at; [by rewrite Est|done].
      * by apply jo_main_stop.
      * by apply jo_main_panicked.
  - pose proof Hth as Hth'. run_step Hth' Hstep. simplify_eq. split; [|apply fine_none].
    eapply (step_still _ _ _ _ _ _ _ _ _ _ _ _ Hi Hjob Heth Hph Hv); [right; unended Hi Hth|].
    eapply (jo_main_join _ _ _ _ q); [done|]. by destruct q.
  - pose proof Hth as Hth'. run_step Hth' Hstep. case_decide as Hss; [|done]. cbn in Hstep. simplify_eq. split; [|apply fine_none].
    apply Hidle; [right; unended Hi Hth|]. apply jo_main_over; [|right; eauto]. done.
  - run_step Hth Hstep. simplify_eq. split.
    + apply Hidle; [left; split; auto|]. apply jo_main_over; [|by left]. intros q Hq. by rewrite Hq in Hst.
    + eapply fine_returned; [exact Hjob|]. intros _. destruct (lo_panicked _ (pi_loop _ _ _ _ _ _ _ Hi) Hst) as (t & Hin & Hend).
      exists t. by eapply panic_of.
  - destruct Hp as [->|(o & Ho & ->)]; run_step Hth Hstep; [done|]. simplify_eq. split; [|eapply fine_returned; [exact Hjob|by intros ->]].
    assert (after_return o [] = ([] : list Job)) as -> by (by destruct o).
    apply Hidle; [left; split; auto|]. apply jo_main_over; [done|by left].
Qed.

Lemma proc_step s es a evs svs fx m i lab s' :
  proc_inv s es a evs svs fx m -> step i s = Some (lab, s') -> reaches s' /\ fine lab.
Proof.
  intros Hi Hstep. destruct (lookup_lt_is_Some_2 jobs i) as [[se|turns|ts ss] Hjob].
  - rewrite <- (pi_length _ _ _ _ _ _ _ Hi). apply lookup_lt_is_Some_1. unfold process_step, thread_step in Hstep.
    by destruct (sy_threads s !! i); [eexists|].
  - by eapply task_step.
  - by eapply expirer_step.
  - by eapply main_step.
Qed.

Lemma proc_run ts s es a evs svs fx m tr s' :
  proc_inv s es a evs svs fx m -> process_schedule hash eclock clock wall fault drops e0 fuel bounds_us started ts s = Some (tr, s') ->
  reaches s' /\ forall lab, lab ∈ tr -> fine (Some lab).
Proof.
  intros Hi Hrun.
  destruct (threads_run_inv (F := PAct) (@pact_run eclock clock wall fault drops) (the_prog hash e0 fuel bounds_us started)
    (fun s _ => reaches s) (fun _ tr _ => forall lab, lab ∈ tr -> fine (Some lab)) ts s tt tr s') as (_ & Htr & Hr);
    [by intros _ lab ?%not_elem_of_nil| |by exists es, a, evs, svs, fx, m|exact Hrun|done].
  clear s es a evs svs fx m s' tr Hi Hrun. intros t s _ lab s' (es & a & evs & svs & fx & m & Hi) Hs.
  destruct (proc_step _ _ _ _ _ _ _ _ _ _ Hi Hs) as [Hr Hlab]. exists tt. split; [done|].
  intros tr _ Htr lab' [Hin|Hin]%elem_of_app; [|by apply Htr].
  destruct lab as [lab|]; [|by apply not_elem_of_nil in Hin]. by apply list_elem_of_singleton in Hin as ->.
Qed.

End process.

Arguments pi_memory {_ _ _ _ _ _ _ _ _ _ _ _ _ _ _ _ _ _ _ _ _ _} _.
Arguments pi_engine {_ _ _ _ _ _ _ _ _ _ _ _ _ _ _ _ _ _ _ _ _ _} _.
Arguments pi_tasks {_ _ _ _ _ _ _ _ _ _ _ _ _ _ _ _ _ _ _ _ _ _} _.
Arguments pi_loop {_ _ _ _ _ _ _ _ _ _ _ _ _ _ _ _ _ _ _ _ _ _} _.
Arguments pi_length {_ _ _ _ _ _ _ _ _ _ _ _ _ _ _ _ _ _ _ _ _ _} _.
Arguments pi_es_length {_ _ _ _ _ _ _ _ _ _ _ _ _ _ _ _ _ _ _ _ _ _} _.
Arguments pi_jobs {_ _ _ _ _ _ _ _ _ _ _ _ _ _ _ _ _ _ _ _ _ _} _ _ _ _.
Arguments pi_ended {_ _ _ _ _ _ _ _ _ _ _ _ _ _ _ _ _ _ _ _ _ _} _ _ _.
