(* ===== verification/ProcessThms.v ===== *)
(** * A running server, from its start to its shutdown (hkv-server/src/main.rs, hkv-server/src/server.rs)

    However the connection tasks, the background sweeper and [main] interleave,
    action by action down to the locks of the engine and the atomics of the
    metrics, and wherever tasks are aborted at the end of the drain: every client
    is answered from one map, the counters add up, nobody waits for ever, and
    [main] returns last. The clients ask for no deadline that the clock cannot
    represent: such a SET or EXPIRE panics its task ([overflowing_deadline_panics],
    [Serve.serve_exit_accounts_for_tasks]), which these theorems leave out. *)

From S2P Require Import Prelude Serve Threads Errors KVEngine RespParser RespClient RespClientThms Observation F64 Metrics Server ServerSpec ServerThms EndToEnd Shard LruSpec Engine EngineSpec EngineRefine EngineKV EngineThms.
From S2P Require Import EngineConc EngineConcSpec EngineConcWp EngineConcInv EngineConcMap EngineConcCalls.
From S2P Require Import ServerConc ServerConcSpec ServerConcWp ServerConcReq ServerConcInv ServerConcCount Process ProcessSpec ProcessInv.

Section process.
Context `{Profile} (hash : bytes -> Z) (eclock clock : nat -> Instant) (wall : nat -> SystemTime).
Context (fault : nat -> nat -> option nat) (drops : nat -> option nat) (e : MemoryEngine) (c : Cache) (mp : store) (fuel : nat).
Context (bounds_us : list Z) (now : Instant) (log : option SharedObservationLog) (jobs : list Job).

Abbreviation sessions := (job_session <$> jobs).
Abbreviation m0 := (with_latency_buckets bounds_us now).
Abbreviation bounded := (negb (bool_decide (max_bytes e = usize_max))).
Abbreviation first := (process_start e m0 log jobs).
Abbreviation step := (process_step hash eclock clock wall fault drops e fuel bounds_us now).
Abbreviation schedule := (process_schedule hash eclock clock wall fault drops e fuel bounds_us now).
Abbreviation inv := (proc_inv hash eclock clock wall fault e c fuel bounds_us now mp m0 log jobs).
Abbreviation first_view := (sv_start (h_max_us (latency m0))).

(** A process whose engine holds [mp] and has room for what its clients write, whose
    clients ask for no deadline beyond the clock's range ([workload]), with one
    [main], whose connections are the tasks. *)
Record running : Prop := {
  rn_workload : workload eclock e c (job_calls <$> jobs) fuel;
  rn_map : map_rep hash c mp;
  rn_fuel : all_requests sessions < fuel;
  rn_parsers se : JTask se ∈ jobs -> se_parser se <> Diverge;
  rn_main i j evs ss evs' ss' : jobs !! i = Some (JMain evs ss) -> jobs !! j = Some (JMain evs' ss') -> i = j;
  rn_accepts i evs ss ev t : jobs !! i = Some (JMain evs ss) -> ev ∈ evs -> accepted_task ev = Some t ->
    exists se, jobs !! t = Some (JTask se);
  rn_joins i evs ss u : jobs !! i = Some (JMain evs ss) -> u ∈ ss -> exists turns, jobs !! u = Some (JExpirer turns)
}.

Context (Hrun : running).

Lemma proc_start :
  inv first (start e (job_calls <$> jobs)) (astart (c_shards c) (job_calls <$> jobs))
    (replicate (length (job_calls <$> jobs)) (idle_view (fuel - 1))) ((fun _ => first_view) <$> sessions) [] mp.
Proof.
  destruct Hrun as [Hw Hm Hf Hp _ _ _]. pose proof (conc_start hash eclock e c _ fuel Hw) as Hc.
  split; cbn [process_start start all_idle sy_shared sy_threads ps_engine ps_server ps_ended]; try done.
  - split; [by eapply rep_shards_ok, wl_rep|exact Hm].
  - constructor.
  - apply owned_nil. intros part (v & -> & (se & -> & _)%list_elem_of_fmap)%list_elem_of_fmap. done.
  - assert (((fun _ : Job => ([] : bytes, 0)) <$> jobs) = (fun _ => ([], 0)) <$> sessions) as -> by (by rewrite <- list_fmap_compose).
    apply shared_start; [done|apply fresh_buckets|].
    intros cell _. by rewrite fresh_cells.
  - by rewrite !length_fmap.
  - by rewrite !length_fmap.
  - intros i job Hj. exists (mkThread [job] None), (mkThread (job_calls job) None), AIdle, first_view.
    rewrite !list_lookup_fmap, Hj. split_and!; try done.
    + cbn. by rewrite !list_lookup_fmap, Hj.
    + by destruct job; constructor.
  - intros i. rewrite lookup_empty. by intros [? [=]].
Qed.

Lemma running_inv ts tr s : schedule ts first = Some (tr, s) ->
  (exists es a evs svs fx m, inv s es a evs svs fx m) /\ forall lab, lab ∈ tr -> fine jobs (Some lab).
Proof. destruct Hrun as [Hw Hm Hf Hp H1 H2 _]. intros Hs. eapply proc_run; [exact Hw|exact H1|exact Hf|exact Hp|exact H2|exact proc_start|exact Hs]. Qed.

(** *** Threads that are done *)

(** When no engine call is under way the engine is at rest. *)
Definition at_rest (w : Process) (m : store) : Prop :=
  let e' := sh_engine (ps_engine w) in
  sh_locks (ps_engine w) = ∅ /\ exists c', engine_rep e' c' /\ map_rep hash c' m
    /\ used_bytes e' = total (c_shards c') /\ (used_bytes e' <= max_bytes e)%Z.

Lemma idle_at_rest s es a evs svs fx m :
  inv s es a evs svs fx m ->
  (forall i job th eth ph v, jobs !! i = Some job -> sy_threads s !! i = Some th -> sy_threads es !! i = Some eth ->
     job_ok hash eclock clock wall fault e fuel bounds_us now m0 jobs i (sy_shared s) job th eth ph v -> th_run eth = None) ->
  at_rest (sy_shared s) m.
Proof.
  intros Hi Hidle. destruct Hrun as [Hw _ _ _ _ _ _]. pose proof (wl_bytes _ _ _ _ _ Hw) as Hb.
  pose proof (er_pow _ _ (wl_rep _ _ _ _ _ Hw)) as (lg & Hlg & Hn & Hmask).
  destruct (conc_settled _ _ _ _ _ _ _ Hb lg Hlg Hn Hmask _ _ _ (pi_engine Hi)) as (Hr & Hu & Hl & Hcap).
  { intros eth [i Heth]%list_elem_of_lookup_1.
    destruct (lookup_lt_is_Some_2 jobs i) as [job Hjob].
    { rewrite <- (pi_es_length Hi). by eapply lookup_lt_Some. }
    destruct (pi_jobs Hi _ _ Hjob) as (th & eth' & ph & v & Hth & Heth' & _ & _ & Hok).
    simplify_eq. by eapply Hidle. }
  unfold at_rest. rewrite <- (pi_memory Hi).
  split; [done|]. eexists. split_and!; [exact Hr|by apply Hi|exact Hu|].
  destruct (decide (max_bytes e = usize_max)) as [E|Hm]; [|by apply Hcap]. rewrite E.
  destruct (bytes_exact _ _ Hb _ _ _ _ _ _ (ci_shape _ _ _ _ _ _ _ _ _ _ (pi_engine Hi))
    (ci_bytes _ _ _ _ _ _ _ _ _ _ (pi_engine Hi))) as [_ Hle]. unfold usize_max. lia.
Qed.



Definition was_dropped (w : Process) (i : nat) : bool := bool_decide (ps_ended w !! i = Some JoinCancelled).





(** *** Threads that can go on *)

Lemma stuck_act s i todo {X} (act : PAct X) k :
  (forall t, step t s = None) -> sy_threads s !! i = Some (mkThread todo (Some (Act act k))) ->
  pact_run eclock clock wall fault drops i act (sy_shared s) = None.
Proof.
  intros Hstuck Hth. specialize (Hstuck i). unfold process_step, thread_step in Hstuck. rewrite Hth in Hstuck. cbn in Hstuck.
  by destruct (pact_run _ _ _ _ _ _ _ _).
Qed.

Lemma act_free t {X} (act : EngineAct X) w : sh_locks w = ∅ -> act_run eclock t act w <> None.
Proof. intros Hl. destruct act; cbn; rewrite ?Hl; try done. by destruct (shards _ !! i). Qed.

(** No call is under way when no thread can make a step. *)
Lemma stuck_unlocked s es a evs svs fx m :
  inv s es a evs svs fx m -> (forall t, step t s = None) -> at_rest (sy_shared s) m.
Proof.
  intros Hi Hstuck.
  assert (forall i job th eth ph v, sy_threads s !! i = Some th ->
     job_ok hash eclock clock wall fault e fuel bounds_us now m0 jobs i (sy_shared s) job th eth ph v ->
     th_run eth <> None -> exists X (act : EngineAct X) k, act_run eclock i act (ps_engine (sy_shared s)) = None
       /\ th_run eth = Some (Act act k)) as Hwaits.
  { intros i job th eth ph v Hth Hok Hbusy.
    destruct Hok; try done; pose proof (stuck_act _ _ _ _ _ Hstuck Hth) as Hno; cbn in Hno;
      (eexists _, _, _; split; [|done]); by destruct (act_run _ _ _ _). }
  eapply idle_at_rest; [exact Hi|]. intros i job th eth ph v _ Hth Heth Hok.
  destruct (decide (th_run eth = None)) as [|Hbusy]; [done|]. exfalso.
  destruct (call_progress hash eclock e c _ fuel es a evs i eth (pi_engine Hi) Heth Hbusy) as (u & thu & lab & es' & Hu & Hbu & Hs).
  destruct (lookup_lt_is_Some_2 jobs u) as [jobu Hjob]; [rewrite <- (pi_es_length Hi); by eapply lookup_lt_Some|].
  destruct (pi_jobs Hi _ _ Hjob) as (th' & eth' & ph' & v' & Hth' & Heth' & _ & _ & Hok'). simplify_eq.
  destruct (Hwaits _ _ _ _ _ _ Hth' Hok' Hbu) as (X & act & k & Hno & Ek). rewrite <- (pi_memory Hi) in Hno.
  unfold EngineConc.step, thread_step in Hs. rewrite Hu in Hs. cbn in Hs. by rewrite Ek, Hno in Hs.
Qed.

Lemma sact_goes_on i se {X} (act : SAct X) w svs :
  shared_inv bounds_us sessions m0 log w svs -> sessions !! i = Some se -> is_call act = false -> sact_run clock wall fault i act w <> None.
Proof.
  intros Hsh Hse Hact. destruct act as [| |o|ev| |r|cell x|cell|cell x y]; try done; cbn.
  - destruct (lookup_lt_is_Some_2 (ss_socks w) i) as [[out k] ->]; [|cbn; by destruct (fault i k)].
    rewrite (sh_socks _ _ _ _ _ _ Hsh), length_fmap, <- (Forall2_length _ _ _ (sh_views _ _ _ _ _ _ Hsh)). by eapply lookup_lt_Some.
  - by case_bool_decide.
Qed.

(** A thread that cannot go on has nothing to do, or has to be accepted first, or is
    [main] and waits for an event, or for a sweeper. *)
Definition waits (w : Process) (i : nat) (job : Job) : Prop :=
  match job with
  | JTask _ => i ∉ ps_accepted w
  | JExpirer _ => False
  | JMain evs ss => (in_loop (ps_serve w) /\ exists ev, ev ∈ evs /\ serve_event ev w = None)
      \/ exists u, u ∈ ss /\ ps_ended w !! u = None
  end.

Lemma stuck_thread s es a evs svs fx m i job th :
  inv s es a evs svs fx m -> (forall t, step t s = None) -> jobs !! i = Some job -> sy_threads s !! i = Some th ->
  th = mkThread [] None \/ waits (sy_shared s) i job.
Proof.
  intros Hi Hstuck Hjob Hth. destruct (stuck_unlocked _ _ _ _ _ _ _ Hi Hstuck) as [Hl _].
  destruct (pi_jobs Hi _ _ Hjob) as (th' & eth & ph & v & Hth' & Heth & _ & _ & Hok). simplify_eq.
  assert (forall todo X (act : EngineAct X) k, sy_threads s !! i <> Some (mkThread todo (Some (Act (PEngine act) k)))) as Hfree.
  { intros todo X act k Hth1. pose proof (stuck_act _ _ _ _ _ Hstuck Hth1) as Hno. cbn in Hno.
    destruct (act_run eclock i act (ps_engine (sy_shared s))) eqn:Ea; [done|]. by apply (act_free i act _ Hl). }
  pose proof (Hstuck i) as Hno. unfold process_step, thread_step in Hno. rewrite Hth in Hno.
  destruct Hok as [ | |se p ops v Hacc _| | |se d q o th todo v _ _ _ _ _ Hp| |turns k| | | |turns th todo Hp| |evs0 evs' ss Hl' Hsub| |evs0 ss r o Hr Ho| |evs0 ss th Hall Hp];
    try done; try (by destruct (Hfree _ _ _ _ Hth)).
  - right. cbn in Hno |- *. by case_decide.
  - destruct p as [o|X act k]; [done|]. destruct (is_call act) eqn:Hact.
    + by destruct act as [| |[]| | | | | |]; try done; destruct (Hfree _ _ _ _ Hth).
    + rewrite linked_act in Hth by done. pose proof (stuck_act _ _ _ _ _ Hstuck Hth) as Ha. cbn in Ha.
      assert (sessions !! i = Some se) as Hse by (by rewrite list_lookup_fmap, Hjob).
      destruct (dropped_at drops i act (sy_shared s)); [done|].
      destruct (sact_run clock wall fault i act (ps_server (sy_shared s))) eqn:Es; [done|].
      by apply (sact_goes_on i se act _ _ (pi_tasks Hi) Hse Hact) in Es.
  - destruct Hp as [-> | ->]; [done|by left].
  - by destruct k.
  - destruct Hp as [-> | ->]; [done|by left].
  - destruct evs' as [|ev evs']; [done|]. right. left. split; [done|]. exists ev. split; [apply Hsub, list_elem_of_here|].
    cbn in Hno. by destruct (serve_event ev (sy_shared s)).
  - right. right. cbn in Hno. case_decide as Hall; [done|].
    apply not_Forall_Exists, Exists_exists in Hall; [|intros u; apply _]. destruct Hall as (u & Hu & Hne). exists u. split; [done|].
    destruct (ps_ended (sy_shared s) !! u) eqn:E; [|done]. by destruct Hne; eexists.
  - destruct Hp as [->|(o & _ & ->)]; [by left|done].
Qed.



(** *** The theorems *)



(** Where no thread can make a step, the accept loop can still be given an event. *)
Lemma stuck_loop s es a evs svs fx m :
  inv s es a evs svs fx m -> (forall t, step t s = None) -> in_loop (ps_serve (sy_shared s)) ->
  exists ev, is_Some (serve_event ev (sy_shared s)).
Proof.
  intros Hi Hstuck Hl. destruct (pi_loop Hi) as [Htasks Hwait _ _ [Hd Ha] _].
  assert (forall t, t ∈ waiting_for (ps_serve (sy_shared s)) -> exists q, ps_ended (sy_shared s) !! t = Some q) as Hended.
  { intros t Ht. pose proof (Hwait t Ht) as Hacc. destruct (Htasks t Hacc) as [se Hjob].
    destruct (pi_jobs Hi _ _ Hjob) as (th & eth & ph & v & Hth & _ & _ & _ & Hok).
    destruct (stuck_thread _ _ _ _ _ _ _ _ _ _ Hi Hstuck Hjob Hth) as [->|Hw]; [|by destruct Hw].
    inversion Hok as [| | | | |se0 d q o th0 todo v0 _ _ Hr _ _ _| | | | | | | | | | | | ]; subst. by exists q. }
  assert (forall st conns, ps_serve (sy_shared s) = st conns -> conns <> ∅ -> waiting_for (st conns) = conns ->
    (forall t q, serve_step (st conns) (Joined t q) = join_step (drain_next st) conns t q) ->
    exists ev, is_Some (serve_event ev (sy_shared s))) as Hjoin.
  { intros st conns Es Hne Hw Hst. destruct (set_choose_L conns Hne) as [t Ht]. rewrite Es, Hw in Hended.
    destruct (Hended t Ht) as [q Hq]. exists (Joined t q). unfold serve_event. cbn. rewrite bool_decide_true, Es, Hst by done.
    unfold join_step. rewrite decide_True by done. cbn. by eexists. }
  destruct (ps_serve (sy_shared s)) as [conns|conns|conns|q|] eqn:Es; [|eapply Hjoin; try done|eapply Hjoin; try done|done|done].
  - exists ShutdownSignal. unfold serve_event. cbn. rewrite Es. cbn. by eexists.
  - by intros ->.
  - by intros ->.
Qed.

(** What [main] can be left waiting for. *)
Definition left_waiting (s : PSystem) (i : nat) (job : Job) : Prop :=
  let w := sy_shared s in
  match job with
  | JTask _ => i ∉ ps_accepted w
  | JExpirer _ => False
  | JMain evs ss =>
      (exists ev ev', ev ∈ evs /\ serve_event ev w = None /\ is_Some (serve_event ev' w))
      \/ exists u, u ∈ ss /\ ps_ended w !! u = None /\ sy_threads s !! u = Some (mkThread [] None)
  end.

(** C11: In a server whose clients ask for no deadline beyond the clock's range, no schedule goes on for ever, and
    nobody waits for ever, the drain's time-out and its aborts included: no task panics unless its parser did, none
    runs out of its attempts to raise the maximum, and [main] panics only after a task did; no lock is kept; and
    when no thread can make a step, every accepted task has ended its connection or was dropped, and [main] has
    returned, unless its accept loop was promised an event that cannot happen while another one can, or the
    schedule gave a sweeper fewer turns than it needs to see that it has to stop. *)
Theorem connections_end :
  Acc (fun s' s => exists t lab, step t s = Some (lab, s')) first
  /\ forall ts tr s, schedule ts first = Some (tr, s) ->
       (forall t o, Returned t o ∈ tr -> exists job, jobs !! t = Some job /\ ends jobs job o)
       /\ ((forall t, step t s = None) -> (exists m, at_rest (sy_shared s) m)
           /\ forall i job th, jobs !! i = Some job -> sy_threads s !! i = Some th -> th = mkThread [] None \/ left_waiting s i job).
Proof.
  split; [apply schedules_end|]. intros ts tr s Hs.
  destruct (running_inv _ _ _ Hs) as [(es & a & evs & svs & fx & m & Hi) Hfine].
  split; [intros t o Hin; exact (Hfine _ Hin t o eq_refl)|]. intros Hstuck.
  split; [by eexists; eapply stuck_unlocked|]. intros i job th Hjob Hth.
  destruct (stuck_thread _ _ _ _ _ _ _ _ _ _ Hi Hstuck Hjob Hth) as [->|Hw]; [by left|right].
  destruct job as [se|turns|events ss]; [done..|]. destruct Hw as [(Hl & ev & Hev & Hno)|(u & Hu & Hne)].
  - left. destruct (stuck_loop _ _ _ _ _ _ _ Hi Hstuck Hl) as [ev' Hev']. by exists ev, ev'.
  - right. exists u. split_and!; [done..|]. destruct (rn_joins Hrun _ _ _ _ Hjob Hu) as [turns Ht].
    destruct (pi_jobs Hi _ _ Ht) as (thu & eth & ph & v & Hthu & _).
    by destruct (stuck_thread _ _ _ _ _ _ _ _ _ _ Hi Hstuck Ht Hthu) as [->|[]].
Qed.


End process.

(** ** An example

    On an empty engine one connection sets a key, another reads it, sends an
    unknown command and then bytes that are no request, while the sweeper makes its
    rounds; the server is told to shut down while the second one is still served, the
    drain times out, and the connection is dropped when four bytes of the last reply
    have been taken. *)

Definition demo_jobs : list Job :=
  [JTask (mkSession [[lit "SET"; lit "k"; lit "v"]] (Val tt) (Ok tt));
   JTask (mkSession [[lit "GET"; lit "k"]; [lit "X"]] (Err ProtocolError) (Ok tt));
   JExpirer 4;
   JMain [Accept (Ok 1) (Ok tt); Accept (Ok 0) (Ok tt); Joined 0 (Finished (Ok tt)); ShutdownSignal; DrainTimeout; Joined 1 JoinCancelled] [2]].
Definition demo_turns : list nat :=
  repeat 3 3 ++ [0; 1; 0; 1; 0; 1; 2; 2] ++ concat (repeat [0; 1; 2] 5) ++ [2; 0; 2; 0] ++ repeat 0 15 ++ [3] ++ repeat 1 30 ++ repeat 3 2
    ++ repeat 1 3 ++ repeat 3 2 ++ repeat 2 7 ++ repeat 3 2.
Definition demo_run :=
  process_schedule (H := release_profile) hash0 clock0 clock0 clock0 (fun _ _ => None) (fun _ => Some 4) (EngineThms.fresh 1 usize_max) 9
    DEFAULT_LATENCY_BUCKETS_US 0 demo_turns
    (process_start (EngineThms.fresh 1 usize_max) (with_latency_buckets DEFAULT_LATENCY_BUCKETS_US 0) (Some []) demo_jobs).
Definition demo_replies : bytes := resp_bulk (lit "v") ++ resp_error (lit "unknown command") ++ lit "-ERR".

Lemma demo_running :
  running (H := release_profile) hash0 clock0 (EngineThms.fresh 1 usize_max) (empty_cache 1 usize_max) ∅ 9 demo_jobs.
Proof.
  split.
  - split; [by apply (fresh_rep 0)|by left|done| |by vm_compute..]. repeat constructor; intros o j [= <-]; done.
  - intros k. reflexivity.
  - vm_compute. lia.
  - intros se [i Hi]%list_elem_of_lookup_1. by do 4 (destruct i as [|i]; [simplify_eq/=; done|]).
  - intros i j evs ss evs' ss'. by do 4 (destruct i as [|i]; [do 4 (destruct j as [|j]; [done|]); done|]).
  - intros i evs ss ev t Hi. do 3 (destruct i as [|i]; [done|]). destruct i as [|i]; [|done]. simplify_eq/=.
    intros Hev Ht. repeat (apply elem_of_cons in Hev as [->|Hev]; [by simplify_eq/=; eexists|]). by apply not_elem_of_nil in Hev.
  - intros i evs ss u Hi. do 3 (destruct i as [|i]; [done|]). destruct i as [|i]; [|done]. simplify_eq/=.
    intros ->%list_elem_of_singleton. by eexists.
Qed.

Definition demo_ended (s : System PAct Failure Job unit Process) : Prop :=
  sy_threads s = [mkThread [] None; mkThread [] None; mkThread [] None; mkThread [] None]
  /\ ss_socks (ps_server (sy_shared s)) !! 1 = Some (demo_replies, 3)
  /\ requests_total (ss_metrics (ps_server (sy_shared s))) = 4%Z
  /\ errors_total (ss_metrics (ps_server (sy_shared s))) = 1%Z
  /\ inflight (ss_metrics (ps_server (sy_shared s))) = 1%Z
  /\ ps_serve (sy_shared s) = Serve.Returned (Ok tt)
  /\ bool_decide (0 ∈ ps_accepted (sy_shared s)) = true /\ bool_decide (1 ∈ ps_accepted (sy_shared s)) = true
  /\ was_dropped (sy_shared s) 0 = false /\ was_dropped (sy_shared s) 1 = true.

Lemma demo_done : match demo_run with Some (_, s) => demo_ended s | None => False end.
Proof. vm_compute. split_and!; reflexivity. Qed.

#[local] Strategy expand [demo_run].

Lemma demo_at : exists tr s, demo_run = Some (tr, s) /\ demo_ended s.
Proof. pose proof demo_done as Hdone. destruct demo_run as [[tr s]|]; [|destruct Hdone]. by exists tr, s. Qed.





Lemma connections_end_witness :
  exists tr s, demo_run = Some (tr, s) /\ forall t o, Returned t o ∈ tr -> exists job, demo_jobs !! t = Some job /\ ends demo_jobs job o.
Proof.
  destruct demo_at as (tr & s & E & _).
  destruct (connections_end hash0 clock0 clock0 clock0 (fun _ _ => None) (fun _ => Some 4) _ _ _ _ DEFAULT_LATENCY_BUCKETS_US 0 (Some []) _ demo_running) as [_ Hrun].
  exists tr, s. split; [exact E|]. exact (proj1 (Hrun demo_turns tr s E)).
Defined.


(** ** A snapshot is taken cell by cell *)

Definition info_jobs : list Job :=
  [JTask (mkSession [[lit "INFO"]] (Val tt) (Ok tt)); JTask (mkSession [[lit "X"]; [lit "X"]; [lit "X"]] (Val tt) (Ok tt));
   JMain [Accept (Ok 0) (Ok tt); Accept (Ok 1) (Ok tt)] []].
Definition info_run :=
  process_schedule (H := release_profile) hash0 clock0 clock0 clock0 (fun _ _ => None) (fun _ => None) (EngineThms.fresh 1 usize_max) 9
    DEFAULT_LATENCY_BUCKETS_US 0 (repeat 2 3 ++ repeat 0 7 ++ repeat 1 40 ++ repeat 0 28)
    (process_start (EngineThms.fresh 1 usize_max) (metrics_new 0) (Some []) info_jobs).
Definition info_overtaken : MetricsSnapshot :=
  mkMSnap 1 3 1 7 (hist_snapshot (record_all [0; 0; 0]%Z (hist_new DEFAULT_LATENCY_BUCKETS_US))).
#[local] Strategy expand [info_run].

(** C30: What INFO reports is not the state at any point in time: it loads the counters one after the other, and
    requests that run in between are in the later figures only. Here an INFO that has loaded the number of
    requests is overtaken by three unknown commands: it reports one request, three errors and an error rate of
    three. *)
Theorem info_can_report_more_errors_than_requests :
  match info_run with
  | None => False
  | Some (_, s) => exists snap,
      fst <$> ss_socks (ps_server (sy_shared s)) !! 0 = Some (resp_bulk (info_lines snap))
      /\ ms_requests_total snap = 1%Z /\ ms_errors_total snap = 3%Z
      /\ format_f64_3 (error_rate snap) = lit "3.000"
      /\ requests_total (ss_metrics (ps_server (sy_shared s))) = 4%Z
  end.
Proof.
  enough (match info_run with
    | None => False
    | Some (_, s) => fst <$> ss_socks (ps_server (sy_shared s)) !! 0 = Some (resp_bulk (info_lines info_overtaken))
        /\ requests_total (ss_metrics (ps_server (sy_shared s))) = 4%Z
    end) as Hrun.
  { destruct info_run as [[tr s]|]; [|exact Hrun]. exists info_overtaken. destruct Hrun as [Hout Htotal].
    split_and!; [exact Hout|reflexivity|reflexivity|vm_compute; reflexivity|exact Htotal]. }
  vm_compute. split; reflexivity.
Qed.
