(* ===== verification/Pool.v ===== *)
(** * The client's connection pool (hkv-client/src/pool.rs)

    The sockets of the operating system are the class [Network]: a state [N],
    streams [S], and calls that may fail with an [ErrorKind]. The pool's mutex
    makes each of its four operations on the shared state atomic. *)

From S2P Require Import Prelude Decimal RespClient.

(** ** Errors *)

Inductive ExecError : Type :=
| Retryable (e : ClientError)
| Fatal (e : ClientError).

Definition into_client_error (e : ExecError) : ClientError :=
  match e with Retryable err | Fatal err => err end.

Definition is_retryable_write_error_kind (kind : ErrorKind) : bool :=
  match kind with
  | BrokenPipe | ConnectionReset | ConnectionAborted | NotConnected | TimedOut
  | UnexpectedEof | InterruptedIo => true
  | _ => false
  end.

Definition classify_write_error (err : ErrorKind) : ExecError :=
  if is_retryable_write_error_kind err then Retryable (Io err) else Fatal (Io err).

Definition is_retryable_read_error_kind (kind : ErrorKind) : bool :=
  match kind with
  | ConnectionReset | ConnectionAborted | NotConnected | TimedOut | UnexpectedEof | InterruptedIo => true
  | _ => false
  end.

Definition classify_read_error (err : ClientError) (no_response_bytes : bool) : ExecError :=
  if negb no_response_bytes then Fatal err
  else match err with
       | Io kind => if is_retryable_read_error_kind kind then Retryable (Io kind) else Fatal (Io kind)
       | ClientProtocol => Retryable ClientProtocol
       | other => Fatal other
       end.

(** ** The network *)

Record PoolConfig := mkPoolConfig {
  addr : bytes;
  max_idle : Z;
  max_total : Z;
  read_timeout : option Duration;
  write_timeout : option Duration;
  connect_timeout : option Duration
}.

Class Network (N S : Type) := {
  net_parse_addr : bytes -> bool;
  net_connect : bytes -> option Duration -> M N ErrorKind S;
  net_set_read_timeout : S -> Duration -> M N ErrorKind unit;
  net_set_write_timeout : S -> Duration -> M N ErrorKind unit;
  net_set_nodelay : S -> M N ErrorKind unit;
  net_write_all : S -> bytes -> M N ErrorKind unit;
  net_flush : S -> M N ErrorKind unit;
  (** what the stream's [BufReader] has and will get, up to its end *)
  net_reader : S -> N -> Reader;
  net_set_reader : S -> Reader -> N -> N;
  (** what it has buffered *)
  net_buffered : S -> N -> bytes;
  net_set_nonblocking : S -> bool -> M N ErrorKind unit;
  net_peek : S -> M N ErrorKind nat
}.

(** [map_err]. *)
Definition map_err {S E E' A} (f : E -> E') (m : M S E A) : M S E' A := fun s =>
  match m s with
  | (Val a, s') => (Val a, s')
  | (Err e, s') => (Err (f e), s')
  | (Panic, s') => (Panic, s')
  | (Diverge, s') => (Diverge, s')
  end.

(** ** Connections *)

Record Connection (S : Type) := mkConn {
  conn_stream : S;
  conn_line_buf : bytes;
  conn_write_buf : bytes
}.
Arguments mkConn {S}. Arguments conn_stream {S}. Arguments conn_line_buf {S}. Arguments conn_write_buf {S}.

Section connection.
Context {N S : Type} `{Network N S} (value_size : Z).

Abbreviation NM := (M N ClientError).

Definition connect_stream (config : PoolConfig) : NM S :=
  if negb (net_parse_addr (addr config)) then throw InvalidAddress
  else map_err Io (net_connect (addr config) (connect_timeout config)).

Definition when_some {A} (o : option A) (f : A -> NM unit) : NM unit :=
  match o with Some a => f a | None => mret tt end.

Definition conn_connect (config : PoolConfig) : NM (Connection S) :=
  stream ← connect_stream config;
  when_some (read_timeout config) (fun t => map_err Io (net_set_read_timeout stream t));;
  when_some (write_timeout config) (fun t => map_err Io (net_set_write_timeout stream t));;
  map_err Io (net_set_nodelay stream);;
  mret (mkConn stream [] []).

(** The commands of one connection: its buffers and the network. *)
Abbreviation CM := (M (Connection S * N) ExecError).

Definition on_stream {A} (f : S -> M N ExecError A) : CM A := fun '(c, n) =>
  let '(o, n') := f (conn_stream c) n in (o, (c, n')).

Definition set_write_buf (f : bytes -> option bytes) : CM unit := fun '(c, n) =>
  match f (conn_write_buf c) with
  | Some buf => (Val tt, (mkConn (conn_stream c) (conn_line_buf c) buf, n))
  | None => (Panic, (c, n))
  end.

(** [read_response(&mut self.reader, &mut self.line_buf)], its [Result] as a value. *)
Definition conn_read_response : CM (result RespValue ClientError) := fun '(c, n) =>
  let '(o, (r, buf)) := read_response value_size (net_reader (conn_stream c) n, conn_line_buf c) in
  (match o with Val v => Val (Ok v) | Err e => Val (Error e) | Panic => Panic | Diverge => Diverge end,
   (mkConn (conn_stream c) buf (conn_write_buf c), net_set_reader (conn_stream c) r n)).

Definition conn_exec (args : list bytes) : CM RespValue :=
  set_write_buf (fun _ => Some []);;
  set_write_buf (encode_command args);;
  buf ← gets (fun '(c, _) => conn_write_buf c);
  on_stream (fun s => map_err classify_write_error (net_write_all s buf));;
  on_stream (fun s => map_err classify_write_error (net_flush s));;
  r ← conn_read_response;
  match r with
  | Ok response => mret response
  | Error err =>
      no_bytes ← gets (fun '(c, _) => bool_decide (conn_line_buf c = []));
      throw (classify_read_error err no_bytes)
  end.

(** [is_err()] of a call. *)
Definition try_call {A} (m : M N ErrorKind A) : M N Empty_set (result A ErrorKind) := catch m.

Definition is_healthy (c : Connection S) : M N Empty_set bool :=
  buffered ← gets (net_buffered (conn_stream c));
  if bool_decide (buffered <> []) then mret false
  else
    r ← try_call (net_set_nonblocking (conn_stream c) true);
    match r with
    | Error _ => mret false
    | Ok _ =>
        p ← try_call (net_peek (conn_stream c));
        let healthy := match p with
                       | Ok _ => false
                       | Error WouldBlock | Error InterruptedIo => true
                       | Error _ => false
                       end in
        r ← try_call (net_set_nonblocking (conn_stream c) false);
        mret (match r with Error _ => false | Ok _ => healthy end)
    end.

End connection.

(** ** The shared state *)

Record PoolState (S : Type) := mkPool {
  idle : list (Connection S);
  total : Z
}.
Arguments mkPool {S}. Arguments idle {S}. Arguments total {S}.

Definition pool_new {S} : PoolState S := mkPool [] 0.

Section pool.
Context {S : Type} (config : PoolConfig).

Definition pop_idle (p : PoolState S) : option (Connection S) * PoolState S :=
  match idle p with
  | [] => (None, p)
  | c :: rest => (Some c, mkPool rest (total p))
  end.

Definition try_reserve (p : PoolState S) : bool * PoolState S :=
  if (max_total config <=? total p)%Z then (false, p) else (true, mkPool (idle p) (total p + 1)).

Definition release_slot (p : PoolState S) : PoolState S :=
  mkPool (idle p) (saturating_sub (total p) 1).

Definition return_connection (conn : Connection S) (p : PoolState S) : PoolState S :=
  if (Z.of_nat (length (idle p)) <? max_idle config)%Z then mkPool (idle p ++ [conn]) (total p)
  else mkPool (idle p) (saturating_sub (total p) 1).

(** [Drop for PooledConnection]. *)
Definition drop_pooled (valid : bool) (conn : Connection S) (p : PoolState S) : PoolState S :=
  if valid then return_connection conn p else release_slot p.

End pool.

(** ** A thread alone on the pool *)

Section acquire.
Context {N S : Type} `{Network N S} (value_size : Z) (config : PoolConfig).

Abbreviation PM := (M (PoolState S * N) ClientError).

Definition on_pool {A} (f : PoolState S -> A * PoolState S) : PM A := fun '(p, n) =>
  let '(a, p') := f p in (Val a, (p', n)).
Definition on_net {A} (m : M N ClientError A) : PM A := fun '(p, n) => let '(o, n') := m n in (o, (p, n')).
Definition probe (c : Connection S) : PM bool := fun '(p, n) =>
  let '(o, n') := is_healthy c n in
  (match o with Val b => Val b | Err e => match e with end | Panic => Panic | Diverge => Diverge end, (p, n')).

(** Each turn that goes round again has taken an idle connection. *)
Fixpoint acquire_loop (fuel : nat) : PM (Connection S) :=
  match fuel with
  | O => diverge
  | Datatypes.S fuel' =>
      c ← on_pool pop_idle;
      match c with
      | Some conn =>
          healthy ← probe conn;
          if (healthy : bool) then mret conn
          else on_pool (fun p => (tt, release_slot p));; acquire_loop fuel'
      | None =>
          reserved ← on_pool (try_reserve config);
          if negb reserved then throw PoolExhausted
          else
            r ← catch (on_net (conn_connect config));
            match r with
            | Ok conn => mret conn
            | Error err => on_pool (fun p => (tt, release_slot p));; throw err
            end
      end
  end.

Definition acquire : PM (Connection S) :=
  fuel ← gets (fun '(p, _) => length (idle p)); acquire_loop (Datatypes.S fuel).

(** [PooledConnection::exec] and the drop at the end of its scope, which also
    runs when [exec] panics: only an [Err] clears [valid]. *)
Definition pooled_exec (conn : Connection S) (args : list bytes) : M (PoolState S * N) ExecError RespValue :=
  fun '(p, n) =>
    let '(o, (conn', n')) := conn_exec value_size args (conn, n) in
    let valid := match o with Err _ => false | _ => true end in
    (o, (drop_pooled config valid conn' p, n')).

End acquire.
