(* ===== verification/Client.v ===== *)
(** * The synchronous client (hkv-client/src/client.rs) *)

From S2P Require Import Prelude Decimal RespClient Pool.

Inductive ClientTtl : Type :=
| TtlMissing
| TtlNoExpiry
| TtlExpiresIn (remaining : Duration).

Record ClientConfig := mkClientConfig {
  cc_addr : bytes;
  cc_max_idle : Z;
  cc_max_total : Z;
  cc_read_timeout : option Duration;
  cc_write_timeout : option Duration;
  cc_connect_timeout : option Duration;
  max_retries : nat
}.

Definition client_config_default : ClientConfig :=
  mkClientConfig (lit "127.0.0.1:6379") 8 16 None None None 1.

(** A client: its pool's configuration and its retry bound. *)
Record KVClient := mkClient {
  client_pool : PoolConfig;
  client_max_retries : nat
}.

Definition with_config (config : ClientConfig) : KVClient :=
  mkClient (mkPoolConfig (cc_addr config) (cc_max_idle config) (cc_max_total config)
    (cc_read_timeout config) (cc_write_timeout config) (cc_connect_timeout config)) (max_retries config).

Definition connect (address : bytes) : KVClient :=
  let d := client_config_default in
  with_config (mkClientConfig address (cc_max_idle d) (cc_max_total d) (cc_read_timeout d)
    (cc_write_timeout d) (cc_connect_timeout d) (max_retries d)).

Definition is_retryable_connect_error (err : ClientError) : bool :=
  match err with
  | Io kind =>
      match kind with
      | ConnectionRefused | ConnectionReset | ConnectionAborted | NotConnected | TimedOut | InterruptedIo => true
      | _ => false
      end
  | _ => false
  end.

(** The digits in a 20-byte buffer; an index past it would panic ([None]). *)
Definition encode_u64 (value : Z) : option bytes :=
  if bool_decide (value = 0%Z) then Some [digit_byte 0] else (fun l => rev l) <$> digits_rev 20 value.

Definition ttl_secs (ttl : Duration) : Z := (ttl / 1000000000)%Z.

Section client.
Context {N S : Type} `{Network N S} (value_size : Z) (self : KVClient).

Abbreviation PM := (M (PoolState S * N) ClientError).

(** [left]: how many retries are left, [max_retries - attempts]. *)
Fixpoint retry_loop (left : nat) (args : list bytes) : PM RespValue :=
  acquired ← catch (acquire (client_pool self));
  match acquired with
  | Error err =>
      match left with
      | O => throw err
      | Datatypes.S left' => if is_retryable_connect_error err then retry_loop left' args else throw err
      end
  | Ok conn =>
      r ← catch (pooled_exec value_size (client_pool self) conn args);
      match r with
      | Ok response => mret response
      | Error (Retryable err) =>
          match left with O => throw err | Datatypes.S left' => retry_loop left' args end
      | Error (Fatal err) => throw err
      end
  end.

Definition exec_with_retry (args : list bytes) : PM RespValue := retry_loop (client_max_retries self) args.

Definition unexpected {A} (v : RespValue) : PM A :=
  match v with ErrorReply message => throw (ServerReply message) | _ => throw UnexpectedResponse end.

Definition client_get (key : bytes) : PM (option bytes) :=
  v ← exec_with_retry [lit "GET"; key];
  match v with Bulk data => mret data | _ => unexpected v end.

Definition client_set (key value : bytes) : PM unit :=
  v ← exec_with_retry [lit "SET"; key; value];
  match v with Simple _ => mret tt | _ => unexpected v end.

Definition client_set_with_ttl (key value : bytes) (ttl : Duration) : PM unit :=
  seconds ← expect (encode_u64 (ttl_secs ttl));
  v ← exec_with_retry [lit "SET"; key; value; lit "EX"; seconds];
  match v with Simple _ => mret tt | _ => unexpected v end.

Definition client_delete (key : bytes) : PM bool :=
  v ← exec_with_retry [lit "DEL"; key];
  match v with Integer count => mret (0 <? count)%Z | _ => unexpected v end.

Definition client_expire (key : bytes) (ttl : Duration) : PM bool :=
  seconds ← expect (encode_u64 (ttl_secs ttl));
  v ← exec_with_retry [lit "EXPIRE"; key; seconds];
  match v with Integer value => mret (bool_decide (value = 1%Z)) | _ => unexpected v end.

Definition client_ttl (key : bytes) : PM ClientTtl :=
  v ← exec_with_retry [lit "TTL"; key];
  match v with
  | Integer value =>
      if bool_decide (value = -2)%Z then mret TtlMissing
      else if bool_decide (value = -1)%Z then mret TtlNoExpiry
      else if (0 <=? value)%Z then mret (TtlExpiresIn (value * 1000000000)%Z)
      else throw UnexpectedResponse
  | _ => unexpected v
  end.

Definition client_ping (payload : option bytes) : PM bytes :=
  v ← exec_with_retry (match payload with Some data => [lit "PING"; data] | None => [lit "PING"] end);
  match v with
  | Simple text => mret text
  | Bulk (Some data) => mret data
  | _ => unexpected v
  end.

Definition client_info : PM bytes :=
  v ← exec_with_retry [lit "INFO"];
  match v with Bulk (Some data) => mret data | _ => unexpected v end.

End client.
