(* ===== verification/PoolThms.v ===== *)
(** * Properties of the connection pool and of the client's retries

    Slot accounting under any interleaving of threads, the bound on how often a
    request is sent, and what each client method returns for the server's
    replies (hkv-client/src/pool.rs, hkv-client/src/client.rs). *)

From S2P Require Import Prelude Decimal RespClient RespClientThms RespThms Pool Client.

(** ** Interleavings

    A thread's program counter between the atomic operations of the pool. *)

Section threads.
Context {S : Type} (config : PoolConfig).

Inductive Phase : Type :=
| Outside
| Looping
| Probing (c : Connection S)
| Unhealthy
| Reserving
| Connecting
| ConnectFailed
| Holding (c : Connection S) (valid : bool).

Inductive pool_step : PoolState S * list Phase -> PoolState S * list Phase -> Prop :=
| step_begin i p phs : phs !! i = Some Outside -> pool_step (p, phs) (p, <[i := Looping]> phs)
| step_pop i p p' c phs : phs !! i = Some Looping -> pop_idle p = (Some c, p') ->
    pool_step (p, phs) (p', <[i := Probing c]> phs)
| step_none i p p' phs : phs !! i = Some Looping -> pop_idle p = (None, p') ->
    pool_step (p, phs) (p', <[i := Reserving]> phs)
| step_healthy i p c phs : phs !! i = Some (Probing c) -> pool_step (p, phs) (p, <[i := Holding c true]> phs)
| step_unhealthy i p c phs : phs !! i = Some (Probing c) -> pool_step (p, phs) (p, <[i := Unhealthy]> phs)
| step_discard i p phs : phs !! i = Some Unhealthy ->
    pool_step (p, phs) (release_slot p, <[i := Looping]> phs)
| step_exhausted i p p' phs : phs !! i = Some Reserving -> try_reserve config p = (false, p') ->
    pool_step (p, phs) (p', <[i := Outside]> phs)
| step_reserve i p p' phs : phs !! i = Some Reserving -> try_reserve config p = (true, p') ->
    pool_step (p, phs) (p', <[i := Connecting]> phs)
| step_connect i p c phs : phs !! i = Some Connecting -> pool_step (p, phs) (p, <[i := Holding c true]> phs)
| step_refused i p phs : phs !! i = Some Connecting -> pool_step (p, phs) (p, <[i := ConnectFailed]> phs)
| step_give_up i p phs : phs !! i = Some ConnectFailed ->
    pool_step (p, phs) (release_slot p, <[i := Outside]> phs)
| step_exec i p c c' v v' phs : phs !! i = Some (Holding c v) ->
    pool_step (p, phs) (p, <[i := Holding c' v']> phs)
| step_drop i p c v phs : phs !! i = Some (Holding c v) ->
    pool_step (p, phs) (drop_pooled config v c p, <[i := Outside]> phs).

(** The connections a thread accounts for. *)
Definition slot (ph : Phase) : Z :=
  match ph with Outside | Looping | Reserving => 0 | _ => 1 end.

Fixpoint slots (phs : list Phase) : Z := match phs with [] => 0 | ph :: phs' => slot ph + slots phs' end.

Lemma slot_range ph : (0 <= slot ph <= 1)%Z.
Proof. destruct ph; simpl; lia. Qed.

Lemma slots_nonneg phs : (0 <= slots phs)%Z.
Proof. induction phs as [|ph phs IH]; simpl; [lia|]. pose proof (slot_range ph). lia. Qed.

Lemma slots_insert phs i ph ph' : phs !! i = Some ph -> slots (<[i := ph']> phs) = (slots phs - slot ph + slot ph')%Z.
Proof.
  revert i. induction phs as [|x phs IH]; intros [|i] Hi; simpl in *; try done.
  - injection Hi as ->. lia.
  - rewrite (IH i Hi). lia.
Qed.

Lemma slots_ge phs i ph : phs !! i = Some ph -> (slot ph <= slots phs)%Z.
Proof.
  revert i. induction phs as [|x phs IH]; intros [|i] Hi; simpl in *; try done.
  - injection Hi as ->. pose proof (slots_nonneg phs). lia.
  - specialize (IH i Hi). pose proof (slot_range x). lia.
Qed.

(** [h] connections are held, all are counted, and the limits are kept. *)
Record pool_ok (h : Z) (p : PoolState S) : Prop := {
  ok_total : total p = (Z.of_nat (length (idle p)) + h)%Z;
  ok_max_total : (total p <= max_total config)%Z;
  ok_max_idle : (Z.of_nat (length (idle p)) <= max_idle config)%Z
}.

Lemma pop_idle_ok h p : pool_ok h p ->
  match pop_idle p with (Some c, p') => pool_ok (h + 1) p' | (None, p') => p' = p end.
Proof.
  unfold pop_idle. intros [Ht Hm Hi]. destruct (idle p) as [|c rest] eqn:E; [done|].
  simpl in *. split; simpl; lia.
Qed.

Lemma try_reserve_ok h p : pool_ok h p ->
  match try_reserve config p with
  | (true, p') => pool_ok (h + 1) p'
  | (false, p') => p' = p /\ total p = max_total config
  end.
Proof.
  unfold try_reserve. intros [Ht Hm Hi]. destruct (Z.leb_spec (max_total config) (total p)); [split; [done|lia]|].
  split; simpl; lia.
Qed.

Lemma release_slot_ok h p : (0 < h)%Z -> pool_ok h p -> pool_ok (h - 1) (release_slot p).
Proof. intros Hh [Ht Hm Hi]. split; simpl; unfold saturating_sub; lia. Qed.

Lemma drop_pooled_ok h v c p : (0 < h)%Z -> pool_ok h p -> pool_ok (h - 1) (drop_pooled config v c p).
Proof.
  intros Hh Hok. destruct v; [|by apply release_slot_ok]. destruct Hok as [Ht Hm Hi]. simpl. unfold return_connection.
  destruct (Z.ltb_spec (Z.of_nat (length (idle p))) (max_idle config)).
  - split; simpl; rewrite ?length_app; simpl; lia.
  - split; simpl; unfold saturating_sub; lia.
Qed.

Lemma pool_step_ok s s' : pool_step s s' -> pool_ok (slots (snd s)) (fst s) -> pool_ok (slots (snd s')) (fst s').
Proof.
  intros Hstep Hok. destruct Hstep as
    [i p phs Hi|i p p' c phs Hi Hp|i p p' phs Hi Hp|i p c phs Hi|i p c phs Hi|i p phs Hi|i p p' phs Hi Hp
    |i p p' phs Hi Hp|i p c phs Hi|i p phs Hi|i p phs Hi|i p c c' v v' phs Hi|i p c v phs Hi];
    cbn [fst snd] in *; rewrite (slots_insert _ _ _ _ Hi); pose proof (slots_ge _ _ _ Hi) as Hge; cbn [slot] in *.
  - by replace (slots phs - 0 + 0)%Z with (slots phs) by lia.
  - pose proof (pop_idle_ok _ _ Hok) as Hx. rewrite Hp in Hx. by rewrite Z.sub_0_r.
  - pose proof (pop_idle_ok _ _ Hok) as Hx. rewrite Hp in Hx. subst. by replace (slots phs - 0 + 0)%Z with (slots phs) by lia.
  - by replace (slots phs - 1 + 1)%Z with (slots phs) by lia.
  - by replace (slots phs - 1 + 1)%Z with (slots phs) by lia.
  - rewrite Z.add_0_r. apply release_slot_ok; [lia|done].
  - pose proof (try_reserve_ok _ _ Hok) as Hx. rewrite Hp in Hx. destruct Hx as [-> _].
    by replace (slots phs - 0 + 0)%Z with (slots phs) by lia.
  - pose proof (try_reserve_ok _ _ Hok) as Hx. rewrite Hp in Hx. by rewrite Z.sub_0_r.
  - by replace (slots phs - 1 + 1)%Z with (slots phs) by lia.
  - by replace (slots phs - 1 + 1)%Z with (slots phs) by lia.
  - rewrite Z.add_0_r. apply release_slot_ok; [lia|done].
  - by replace (slots phs - 1 + 1)%Z with (slots phs) by lia.
  - rewrite Z.add_0_r. apply drop_pooled_ok; [lia|done].
Qed.

Definition pool_start (threads : nat) : PoolState S * list Phase := (pool_new, replicate threads Outside).

Lemma pool_start_ok threads : (0 <= max_total config)%Z -> (0 <= max_idle config)%Z ->
  pool_ok (slots (snd (pool_start threads))) (fst (pool_start threads)).
Proof.
  intros Ht Hi. assert (slots (replicate threads Outside) = 0%Z) as Hz by (induction threads; done).
  split; simpl; rewrite ?Hz; lia.
Qed.

End threads.

(** C31: however the threads of a client interleave, the pool counts exactly
    the idle connections and those a thread holds, is opening or is discarding;
    their number never exceeds [max_total], nor the idle ones [max_idle]; and
    an acquire is refused only when [max_total] connections exist. *)
Theorem pool_limits_hold {S} config threads (p : PoolState S) phs :
  (0 <= max_total config)%Z -> (0 <= max_idle config)%Z ->
  rtc (pool_step config) (pool_start threads) (p, phs) ->
  total p = (Z.of_nat (length (idle p)) + slots phs)%Z
  /\ (Z.of_nat (length (idle p)) + slots phs <= max_total config)%Z
  /\ (Z.of_nat (length (idle p)) <= max_idle config)%Z
  /\ (forall p', try_reserve config p = (false, p') -> Z.of_nat (length (idle p)) + slots phs = max_total config)%Z.
Proof.
  intros Ht Hi Hr. assert (Hok : pool_ok config (slots (snd (p, phs))) (fst (p, phs))).
  { revert Hr. apply (rtc_ind_r (fun s => pool_ok config (slots (snd s)) (fst s))); [by apply pool_start_ok|].
    intros s s' _ Hs Hok. by eapply pool_step_ok. }
  cbn [fst snd] in Hok. pose proof (try_reserve_ok _ _ _ Hok) as Hx. destruct Hok as [H1 H2 H3].
  split_and!; [done|lia|done|]. intros p' Hp. rewrite Hp in Hx. lia.
Qed.

Lemma pool_limits_hold_witness :
  let config := mkPoolConfig [] 1 1 None None None in
  let c := mkConn tt [] [] in
  (1 = 1 + slots [Outside (S := unit); Outside])%Z
  /\ (1 + slots [Outside (S := unit); Outside] <= 1)%Z
  /\ (1 <= 1)%Z
  /\ (forall p', try_reserve config (mkPool [c] 1) = (false, p') -> 1 + slots [Outside (S := unit); Outside] = 1)%Z.
Proof.
  intros config c. apply (pool_limits_hold config 2 (mkPool [c] 1) [Outside; Outside]); [simpl; lia..|].
  eapply rtc_l; [apply (step_begin _ 0); reflexivity|]. simpl.
  eapply rtc_l; [eapply (step_none _ 0); reflexivity|]. simpl.
  eapply rtc_l; [eapply (step_reserve _ 0); reflexivity|]. simpl.
  eapply rtc_l; [apply (step_connect _ 0 _ c); reflexivity|]. simpl.
  eapply rtc_l; [eapply (step_drop _ 0); reflexivity|]. simpl. apply rtc_refl.
Defined.

(** ** One thread: retries *)

(** [m] ends in a value or an error, and meters at most [k] of a cost. *)
Definition settles {T E A} (cost : T -> nat) (k : nat) (m : M T E A) : Prop :=
  forall s, cost (snd (m s)) <= cost s + k
    /\ match fst (m s) with Val _ | Err _ => True | _ => False end.

(** A network whose calls return, and of which [cost] counts the writes. *)
Record metered {N S} `{Network N S} (cost : N -> nat) : Prop := {
  mt_connect a t : settles cost 0 (net_connect a t);
  mt_read_timeout s t : settles cost 0 (net_set_read_timeout s t);
  mt_write_timeout s t : settles cost 0 (net_set_write_timeout s t);
  mt_nodelay s : settles cost 0 (net_set_nodelay s);
  mt_write s buf : settles cost 1 (net_write_all s buf);
  mt_flush s : settles cost 0 (net_flush s);
  mt_set_reader s r n : cost (net_set_reader s r n) <= cost n;
  mt_nonblocking s b : settles cost 0 (net_set_nonblocking s b);
  mt_peek s : settles cost 0 (net_peek s)
}.

Section settles.
Context {T : Type} (cost : T -> nat).

Lemma settles_ret {E A} (a : A) : settles (E := E) cost 0 (mret a).
Proof. intros s. simpl. split; [lia|done]. Qed.
Lemma settles_throw {E A} (e : E) : settles (A := A) cost 0 (throw e).
Proof. intros s. simpl. split; [lia|done]. Qed.
Lemma settles_weaken {E A} k k' (m : M T E A) : k <= k' -> settles cost k m -> settles cost k' m.
Proof. intros Hk Hm s. destruct (Hm s). split; [lia|done]. Qed.

Lemma settles_bind {E A B} k k' (m : M T E A) (f : A -> M T E B) :
  settles cost k m -> (forall a, settles cost k' (f a)) -> settles cost (k + k') (m ≫= f).
Proof.
  intros Hm Hf s. destruct (Hm s) as [Hc Ho]. unfold mbind, M_bind.
  destruct (m s) as [[a|e| |] s']; simpl in *; try done; [|split; [lia|done]].
  destruct (Hf a s') as [Hc' Ho']. split; [lia|done].
Qed.

Lemma settles_bind0 {E A B} k (m : M T E A) (f : A -> M T E B) :
  settles cost 0 m -> (forall a, settles cost k (f a)) -> settles cost k (m ≫= f).
Proof. apply (settles_bind 0). Qed.

Lemma settles_map_err {E E' A} k (f : E -> E') (m : M T E A) : settles cost k m -> settles cost k (map_err f m).
Proof.
  intros Hm s. destruct (Hm s) as [Hc Ho]. unfold map_err.
  destruct (m s) as [[a|e| |] s']; simpl in *; done.
Qed.

Lemma settles_catch {E E' A} k (m : M T E A) : settles cost k m -> settles cost k (catch (E' := E') m).
Proof.
  intros Hm s. destruct (Hm s) as [Hc Ho]. unfold catch.
  destruct (m s) as [[a|e| |] s']; simpl in *; done.
Qed.

Lemma settles_gets {E A} (f : T -> A) : settles (E := E) cost 0 (gets f).
Proof. intros s. simpl. split; [lia|done]. Qed.
End settles.

Create HintDb settles.
#[export] Hint Resolve settles_ret settles_throw settles_map_err settles_catch settles_gets : settles.
#[export] Hint Resolve mt_connect mt_read_timeout mt_write_timeout mt_nodelay mt_write mt_flush mt_nonblocking mt_peek : settles.

Section retries.
Context {N S : Type} `{Network N S} (value_size : Z) (cost : N -> nat) (Hnet : metered cost).

Lemma settles_when_some {A} (o : option A) f : (forall a, settles cost 0 (f a)) -> settles cost 0 (when_some o f).
Proof. intros Hf. destruct o; [apply Hf|apply settles_ret]. Qed.

Lemma settles_connect config : settles cost 0 (conn_connect config).
Proof.
  unfold conn_connect, connect_stream. apply settles_bind0; [destruct (negb _); auto with settles|]. intros stream.
  apply settles_bind0; [apply settles_when_some; auto with settles|]. intros _.
  apply settles_bind0; [apply settles_when_some; auto with settles|]. intros _.
  apply settles_bind0; auto with settles.
Qed.

Lemma settles_is_healthy c : settles cost 0 (is_healthy c).
Proof.
  unfold is_healthy, try_call. apply settles_bind0; [auto with settles|]. intros b. case_bool_decide; [auto with settles|].
  apply settles_bind0; [auto with settles|]. intros [|]; [|auto with settles].
  apply settles_bind0; [auto with settles|]. intros p.
  apply settles_bind0; [auto with settles|]. auto with settles.
Qed.

(** A request writes once at most and its reader returns. *)
Lemma conn_exec_cost args c n :
  cost (snd (snd (conn_exec value_size args (c, n)))) <= cost n + 1
  /\ fst (conn_exec value_size args (c, n)) <> Diverge.
Proof.
  unfold conn_exec, set_write_buf, on_stream. unfold mbind, M_bind, gets. cbn.
  destruct (encode_command args []) as [buf|]; [|simpl; split; [lia|done]]. cbn.
  pose proof (settles_map_err cost 1 classify_write_error _ (mt_write cost Hnet (conn_stream c) buf) n) as [Hc1 Ho1].
  destruct (map_err classify_write_error (net_write_all (conn_stream c) buf) n) as [[[]|e| |] n1];
    cbn in *; try done; try (split; [lia|done]).
  pose proof (settles_map_err cost 0 classify_write_error _ (mt_flush cost Hnet (conn_stream c)) n1) as [Hc2 Ho2].
  destruct (map_err classify_write_error (net_flush (conn_stream c)) n1) as [[[]|e| |] n2];
    cbn in *; try done; try (split; [lia|done]).
  unfold conn_read_response.
  pose proof (read_response_returns value_size (net_reader (conn_stream c) n2) (conn_line_buf c)) as Ht.
  cbn. destruct (read_response value_size _) as [o [r buf']]. pose proof (mt_set_reader cost Hnet (conn_stream c) r n2).
  destruct o as [v|e| |]; cbn; try done; split; (lia || done).
Qed.

(** What a computation on the pool keeps: the limits, with [h] connections held
    before it, [h'] more after it returns a value, none more after it fails. *)
Definition keeps {A} config (k : nat) (h' : Z) (m : M (PoolState S * N) ClientError A) : Prop :=
  forall h p n, (0 <= h)%Z -> pool_ok config h p ->
  let '(o, (p', n')) := m (p, n) in
  cost n' <= cost n + k /\ o <> Diverge /\ pool_ok config (match o with Val _ => h + h' | _ => h end)%Z p'.

Lemma on_pool_run {A} (f : PoolState S -> A * PoolState S) p (n : N) a p' :
  f p = (a, p') -> on_pool f (p, n) = (Val a, (p', n)).
Proof. unfold on_pool. by intros ->. Qed.

Lemma probe_run c (p : PoolState S) n b n' : is_healthy c n = (Val b, n') -> probe c (p, n) = (Val b, (p, n')).
Proof. unfold probe. by intros ->. Qed.

Lemma acquire_loop_keeps config fuel : forall h p n,
  length (idle p) < fuel -> (0 <= h)%Z -> pool_ok config h p ->
  let '(o, (p', n')) := acquire_loop config fuel (p, n) in
  cost n' <= cost n /\ match o with
    | Val _ => pool_ok config (h + 1) p' | Err _ => pool_ok config h p' | _ => False end.
Proof.
  induction fuel as [|fuel IH]; intros h p n Hf Hh Hok; [lia|]. cbn [acquire_loop].
  pose proof (pop_idle_ok config h p Hok) as Hpop.
  assert (Hlen : match pop_idle p with (Some _, p') => length (idle p') < length (idle p) | _ => True end).
  { unfold pop_idle. destruct (idle p); simpl; [done|lia]. }
  destruct (pop_idle p) as [[c|] p0] eqn:Ep; rewrite (bind_val _ _ _ _ _ (on_pool_run _ p n _ _ Ep)).
  - destruct (settles_is_healthy c n) as [Hc Ho].
    destruct (is_healthy c n) as [[b|[]| |] n1] eqn:Eh; cbn [fst snd] in *; try done.
    rewrite (bind_val _ _ _ _ _ (probe_run c p0 n b n1 Eh)). destruct b; [unfold mret, M_ret; split; [lia|done]|].
    rewrite (bind_val _ _ _ _ _ (on_pool_run (fun p => (tt, release_slot p)) p0 n1 _ _ eq_refl)).
    specialize (IH h (release_slot p0) n1).
    destruct (acquire_loop config fuel _) as [o [p' n']]. destruct IH as [Hc2 Ho2]; [simpl in *; lia|done| |split; [lia|done]].
    replace h with (h + 1 - 1)%Z by lia. apply release_slot_ok; [lia|done].
  - subst p0. pose proof (try_reserve_ok config h p Hok) as Hres.
    destruct (try_reserve config p) as [[] p1] eqn:Er; rewrite (bind_val _ _ _ _ _ (on_pool_run _ p n _ _ Er)); cbn [negb].
    2: { destruct Hres as [-> _]. unfold throw. split; [lia|done]. }
    unfold catch, on_net. unfold mbind at 1, M_bind at 1.
    destruct (settles_connect config n) as [Hc Ho].
    destruct (conn_connect config n) as [[c|e| |] n1]; cbn in *; try done.
    + split; [lia|done].
    + split; [lia|]. replace h with (h + 1 - 1)%Z by lia. apply (release_slot_ok config (h + 1)); [lia|done].
Qed.

Lemma acquire_keeps config : keeps config 0 1 (acquire config).
Proof.
  intros h p n Hh Hok. unfold acquire. rewrite bind_gets.
  pose proof (acquire_loop_keeps config (Datatypes.S (length (idle p))) h p n ltac:(lia) Hh Hok) as Hl.
  destruct (acquire_loop _ _ _) as [o [p' n']]. destruct Hl as [Hc Ho].
  split_and!; [lia|by intros ->|by destruct o].
Qed.

Lemma pooled_exec_keeps config conn args h p n : (0 <= h)%Z -> pool_ok config (h + 1) p ->
  let '(o, (p', n')) := pooled_exec value_size config conn args (p, n) in
  cost n' <= cost n + 1 /\ o <> Diverge /\ pool_ok config h p'.
Proof.
  intros Hh Hok. unfold pooled_exec. destruct (conn_exec_cost args conn n) as [Hc Ho].
  destruct (conn_exec value_size args (conn, n)) as [o [c' n']]. cbn [fst snd] in *. split_and!; [done|done|].
  replace h with (h + 1 - 1)%Z by lia. apply drop_pooled_ok; [lia|done].
Qed.

(** One turn of the retry loop. *)
Lemma retry_unfold self left args s :
  retry_loop value_size self left args s
  = match acquire (client_pool self) s with
    | (Val conn, s1) =>
        match pooled_exec value_size (client_pool self) conn args s1 with
        | (Val v, s2) => (Val v, s2)
        | (Err (Fatal e), s2) => (Err e, s2)
        | (Err (Retryable e), s2) =>
            match left with O => (Err e, s2) | Datatypes.S l => retry_loop value_size self l args s2 end
        | (Panic, s2) => (Panic, s2)
        | (Diverge, s2) => (Diverge, s2)
        end
    | (Err e, s1) =>
        match left with
        | Datatypes.S l => if is_retryable_connect_error e then retry_loop value_size self l args s1 else (Err e, s1)
        | O => (Err e, s1)
        end
    | (Panic, s1) => (Panic, s1)
    | (Diverge, s1) => (Diverge, s1)
    end.
Proof.
  destruct left; cbn [retry_loop]; rewrite bind_catch;
    destruct (acquire (client_pool self) s) as [[conn|err| |] s1]; try done;
    try (rewrite bind_catch; by destruct (pooled_exec value_size (client_pool self) conn args s1) as [[v|[e|e]| |] s2]).
  by destruct (is_retryable_connect_error err).
Qed.

Lemma retry_loop_keeps self args left : keeps (client_pool self) (Datatypes.S left) 0 (retry_loop value_size self left args).
Proof.
  induction left as [|left IH]; intros h p n Hh Hok; rewrite retry_unfold;
    pose proof (acquire_keeps (client_pool self) h p n Hh Hok) as Ha;
    destruct (acquire (client_pool self) (p, n)) as [[conn|err| |] [p1 n1]]; destruct Ha as (Hc1 & Ho1 & Hok1);
    try (split_and!; (lia || done)).
  - pose proof (pooled_exec_keeps (client_pool self) conn args h p1 n1 Hh Hok1) as He.
    destruct (pooled_exec _ _ _ _ _) as [[v|[e|e]| |] [p2 n2]]; destruct He as (Hc2 & Ho2 & Hok2);
      split_and!; rewrite ?Z.add_0_r; (lia || done).
  - pose proof (pooled_exec_keeps (client_pool self) conn args h p1 n1 Hh Hok1) as He.
    destruct (pooled_exec _ _ _ _ _) as [[v|[e|e]| |] [p2 n2]]; destruct He as (Hc2 & Ho2 & Hok2);
      try (split_and!; rewrite ?Z.add_0_r; (lia || done)).
    specialize (IH h p2 n2 Hh Hok2). destruct (retry_loop _ _ _ _ _) as [o [p3 n3]].
    destruct IH as (Hc3 & Ho3 & Hok3). split_and!; (lia || done).
  - destruct (is_retryable_connect_error err); [|split_and!; (lia || done)].
    specialize (IH h p1 n1 Hh Hok1). destruct (retry_loop _ _ _ _ _) as [o [p3 n3]].
    destruct IH as (Hc3 & Ho3 & Hok3). split_and!; (lia || done).
Qed.

End retries.

(** C32: a call of the client returns, writes its request [max_retries + 1]
    times at most, and gives back every pool slot it took, whether it succeeds,
    fails, or panics in the reader: the connections counted are those idle and
    those other threads hold. *)
Theorem exec_is_bounded {N S} `{Network N S} value_size cost self args h p n :
  metered cost -> (0 <= h)%Z -> pool_ok (client_pool self) h p ->
  exists o p' n', exec_with_retry value_size self args (p, n) = (o, (p', n'))
    /\ o <> Diverge /\ cost n' <= cost n + (client_max_retries self + 1) /\ pool_ok (client_pool self) h p'.
Proof.
  intros Hnet Hh Hok. pose proof (retry_loop_keeps value_size cost Hnet self args (client_max_retries self) h p n Hh Hok) as Hk.
  unfold exec_with_retry. destruct (retry_loop _ _ _ _ _) as [o [p' n']]. destruct Hk as (Hc & Ho & Hok').
  exists o, p', n'. split_and!; [done|done|lia|]. destruct o; by rewrite ?Z.add_0_r in Hok'.
Qed.

(** A network that counts requests: the first one's reply is lost (the peer
    closes), later ones are answered [:1]. *)
Definition flaky : Network nat unit := {|
  net_parse_addr _ := true;
  net_connect _ _ := mret tt;
  net_set_read_timeout _ _ := mret tt;
  net_set_write_timeout _ _ := mret tt;
  net_set_nodelay _ := mret tt;
  net_write_all _ _ := fun n => (Val tt, Datatypes.S n);
  net_flush _ := mret tt;
  net_reader _ n := mkReader (if n <? 2 then [] else lit ":1" ++ crlf) None;
  net_set_reader _ _ n := n;
  net_buffered _ _ := [];
  net_set_nonblocking _ _ := mret tt;
  net_peek _ := throw WouldBlock
|}.

Lemma flaky_metered : metered (H := flaky) (fun n => n).
Proof. split; simpl; intros; try (intros ?; simpl; split; [lia|done]). lia. Qed.

Lemma exec_is_bounded_witness : exists o p' n',
  exec_with_retry (H := flaky) 32 (connect []) [lit "DEL"; lit "k"] (pool_new, 0) = (o, (p', n'))
  /\ o <> Diverge /\ n' <= 0 + (1 + 1) /\ pool_ok (client_pool (connect [])) 0 p'.
Proof.
  apply (exec_is_bounded (H := flaky) 32 (fun n => n) (connect []) [lit "DEL"; lit "k"] 0 pool_new 0 flaky_metered).
  - lia.
  - split; simpl; lia.
Defined.

(** The first two steps of a request: clear the buffer, encode into it. *)
Lemma clear_buf_run {N S : Type} (c : Connection S) (n : N) :
  set_write_buf (fun _ => Some []) (c, n) = (Val tt, (mkConn (conn_stream c) (conn_line_buf c) [], n)).
Proof. done. Qed.

Lemma write_command_run {N S : Type} (s : S) line args (n : N) : small_args args ->
  set_write_buf (encode_command args) (mkConn s line [], n) = (Val tt, (mkConn s line (enc_command args), n)).
Proof. intros Hs. unfold set_write_buf. cbn [conn_write_buf]. by rewrite (encode_command_run args [] Hs). Qed.

(** A request whose bytes were all written, and to which the peer closed
    the stream without an answer, fails as retryable: with a retry left, the
    client sends it again, although the server may have carried it out. *)
Theorem lost_reply_is_retryable {N S} `{Network N S} value_size args (c : Connection S) n n1 n2 :
  small_args args -> net_write_all (conn_stream c) (enc_command args) n = (Val tt, n1) ->
  net_flush (conn_stream c) n1 = (Val tt, n2) -> net_reader (conn_stream c) n2 = mkReader [] None ->
  exists c', conn_exec value_size args (c, n)
    = (Err (Retryable ClientProtocol), (c', net_set_reader (conn_stream c) (mkReader [] None) n2)).
Proof.
  intros Hs Hw Hf Hr. eexists. unfold conn_exec. rewrite (bind_val _ _ _ _ _ (clear_buf_run c n)).
  rewrite (bind_val _ _ _ _ _ (write_command_run _ _ _ _ Hs)), bind_gets. cbn [conn_write_buf].
  unfold on_stream, map_err, conn_read_response, mbind, M_bind, gets. cbn [conn_stream conn_line_buf conn_write_buf].
  rewrite Hw. cbn [conn_stream]. rewrite Hf. cbn [conn_stream conn_line_buf]. rewrite Hr. reflexivity.
Qed.

Lemma lost_reply_is_retryable_witness :
  (exists c', conn_exec (H := flaky) 32 [lit "DEL"; lit "k"] (mkConn tt [] [], 0) = (Err (Retryable ClientProtocol), (c', 1)))
  /\ client_delete (H := flaky) 32 (connect []) (lit "k") (pool_new, 0)
     = (Val true, (mkPool [mkConn tt (lit ":1") (enc_command [lit "DEL"; lit "k"])] 1, 2)).
Proof.
  split; [|vm_compute; reflexivity].
  apply (lost_reply_is_retryable (H := flaky) 32 [lit "DEL"; lit "k"] (mkConn tt [] []) 0 1 1); try reflexivity.
  split; [|repeat constructor]; vm_compute; discriminate.
Defined.
