(* ===== verification/ClientThms.v ===== *)
(** * The client refines the engine's map (hkv-client/src/client.rs)

    Each storage method of the client, when the server answers its request as
    the command specification says, returns what the map of keys to values and
    deadlines says, with durations cut to whole seconds. *)

From S2P Require Import Prelude Decimal Errors KVEngine RespClient RespClientThms RespParser RespParserThms RespThms.
From S2P Require Import Observation F64 Metrics Server ServerSpec ServerThms EndToEnd Pool Client PoolThms.

(** ** Requests *)

Lemma encode_u64_dec v : (0 <= v <= u64_max)%Z -> encode_u64 v = Some (dec_nonneg v).
Proof.
  intros Hv. unfold encode_u64, dec_nonneg. destruct (Z.leb_spec v 0).
  - by rewrite bool_decide_true by lia.
  - rewrite bool_decide_false by lia. destruct (digits_rev_fits 20 v (u64_digits v Hv)) as [l E]. by rewrite E.
Qed.

Lemma number_dec v : (0 <= v <= u64_max)%Z -> number (dec_nonneg v) = Some v.
Proof.
  intros Hv. destruct (dec_nonneg_spec v (u64_digits v Hv)) as (Hd & Hval & Hne). unfold number.
  rewrite bool_decide_true, Hd, Hval by done. cbn [andb]. f_equal. lia.
Qed.

Definition op_args (o : Op) : list bytes :=
  match o with
  | OpGet k => [lit "GET"; k]
  | OpSet k v => [lit "SET"; k; v]
  | OpSetTtl k v d => [lit "SET"; k; v; lit "EX"; dec_nonneg (ttl_secs d)]
  | OpDelete k => [lit "DEL"; k]
  | OpExpire k d => [lit "EXPIRE"; k; dec_nonneg (ttl_secs d)]
  | OpTtl k => [lit "TTL"; k]
  end.

(** A [Duration] has a [u64] of seconds. *)
Definition op_duration (o : Op) : Prop :=
  match o with OpSetTtl _ _ d | OpExpire _ d => (0 <= ttl_secs d <= u64_max)%Z | _ => True end.

Definition op_command (o : Op) : Command :=
  match o with
  | OpGet k => CGet k
  | OpSet k v => CSet k v None
  | OpSetTtl k v d => CSet k v (Some (ttl_secs d))
  | OpDelete k => CDel [k]
  | OpExpire k d => CExpire k (ttl_secs d)
  | OpTtl k => CTtl k
  end.

Lemma decode_op o : op_duration o -> decode (op_args o) = op_command o.
Proof. destruct o; simpl; intros Hd; rewrite ?number_dec by done; reflexivity. Qed.

(** Whole seconds. *)
Definition trunc (d : Duration) : Duration := from_secs (ttl_secs d).

Definition op_trunc (o : Op) : Op :=
  match o with
  | OpSetTtl k v d => OpSetTtl k v (trunc d)
  | OpExpire k d => OpExpire k (trunc d)
  | o => o
  end.

Definition reply_trunc (r : Reply) : Reply :=
  match r with RTtl (ExpiresIn d) => RTtl (ExpiresIn (trunc d)) | r => r end.

(** ** Calls *)

Section calls.
Context {N S : Type} `{Network N S} (value_size : Z) (self : KVClient).

Abbreviation PM := (M (PoolState S * N) ClientError).

(** The storage methods of the client as operations of a [KVEngine]. *)
Definition client_call (o : Op) : PM Reply :=
  match o with
  | OpGet k => v ← client_get value_size self k; mret (RValue v)
  | OpSet k v => client_set value_size self k v;; mret (RDone (Ok tt))
  | OpSetTtl k v d => client_set_with_ttl value_size self k v d;; mret (RDone (Ok tt))
  | OpDelete k => b ← client_delete value_size self k; mret (RDeleted b)
  | OpExpire k d =>
      applied ← client_expire value_size self k d;
      mret (RDone (if (applied : bool) then Ok tt else Error NotFound))
  | OpTtl k =>
      t ← client_ttl value_size self k;
      mret (RTtl (match t with TtlMissing => Missing | TtlNoExpiry => NoExpiry | TtlExpiresIn d => ExpiresIn d end))
  end.

Lemma client_call_run o b mt t m v m' s s' :
  op_duration o -> deadlines_fit m -> (0 <= t)%Z ->
  serves b mt [t] (op_command o) m v m' ->
  exec_with_retry value_size self (op_args o) s = (Val v, s') ->
  client_call o s = (Val (reply_trunc (fst (m_exec t (op_trunc o) m))), s')
  /\ shrinks b (snd (m_exec t (op_trunc o) m)) m'.
Proof.
  intros Hd Hm Ht Hs Hx. assert (Href : forall x : store, shrinks b x x) by (intros x; destruct b; simpl; reflexivity).
  destruct o as [k|k v0|k v0 d|k|k d|k]; inversion Hs; subst; cbn [op_args] in Hx; cbn [client_call].
  - unfold client_get. rewrite bind_bind, (bind_val _ _ _ _ _ Hx). split; [done|by (apply Href || assumption)].
  - unfold client_set. rewrite bind_bind, (bind_val _ _ _ _ _ Hx). split; [done|by (apply Href || assumption)].
  - unfold client_set_with_ttl. rewrite (encode_u64_dec (ttl_secs d) Hd). cbn [expect].
    rewrite bind_bind, bind_ret, bind_bind, (bind_val _ _ _ _ _ Hx). split; [done|by (apply Href || assumption)].
  - unfold client_delete. rewrite bind_bind, (bind_val _ _ _ _ _ Hx). cbn [m_del fst snd op_trunc m_exec reply_trunc].
    split; [|done]. unfold mret, M_ret, mbind, M_bind. by destruct (bool_decide (is_Some (m_live t k m))).
  - unfold client_expire. rewrite (encode_u64_dec (ttl_secs d) Hd). cbn [expect].
    rewrite bind_bind, bind_ret, bind_bind, (bind_val _ _ _ _ _ Hx). split; [|apply Href].
    unfold m_expire. simpl. unfold m_expire. unfold trunc. by destruct (m_live t k m) as [[]|].
  - unfold client_ttl. rewrite bind_bind, (bind_val _ _ _ _ _ Hx). split; [|apply Href].
    cbn [m_exec op_trunc fst]. unfold m_ttl, m_live. destruct (m !! k) as [[v0 [d|]]|] eqn:Hk; simpl; [|done..].
    destruct (Z.leb_spec d t); simpl; [done|].
    pose proof (Hm k v0 d Hk) as Hfit. unfold instant_limit in Hfit.
    assert (Hr : (0 <= as_secs (d - t) < 2 ^ 63)%Z).
    { unfold as_secs, nanos_per_sec. split; [apply Z.div_pos; lia|apply Z.div_lt_upper_bound; lia]. }
    rewrite as_i64_small by done. rewrite !bool_decide_false by lia.
    by rewrite (proj2 (Z.leb_le _ _)) by lia.
Qed.

End calls.

(** Every storage call of the client, over any network, refines the map
    that specifies the engine: if the server's answer to the request is the
    specified one, the call returns what the map says (durations and remaining
    times in whole seconds), and the server's map has become the map's next
    one, but for entries a bounded engine evicted. *)
Theorem client_refines_map {N S} `{Network N S} value_size self o b mt t m v m' s s' :
  op_duration o -> deadlines_fit m -> (0 <= t)%Z ->
  serves b mt [t] (decode (op_args o)) m v m' ->
  exec_with_retry value_size self (op_args o) s = (Val v, s') ->
  client_call value_size self o s = (Val (reply_trunc (fst (m_exec t (op_trunc o) m))), s')
  /\ shrinks b (snd (m_exec t (op_trunc o) m)) m'.
Proof.
  intros Hd Hm Ht Hs Hx. rewrite decode_op in Hs by done. by eapply client_call_run.
Qed.

Lemma client_refines_map_witness :
  let m := <[lit "k" := (lit "v", None)]> (∅ : store) in
  client_call (H := flaky) 32 (connect []) (OpDelete (lit "k")) (pool_new, 1)
    = (Val (reply_trunc (fst (m_exec 5 (op_trunc (OpDelete (lit "k"))) m))),
       snd (exec_with_retry (H := flaky) 32 (connect []) (op_args (OpDelete (lit "k"))) (pool_new, 1)))
  /\ shrinks false (snd (m_exec 5 (op_trunc (OpDelete (lit "k"))) m)) (snd (m_del [5%Z] [lit "k"] m)).
Proof.
  intros m.
  apply (client_refines_map (H := flaky) 32 (connect []) (OpDelete (lit "k")) false (metrics_new 0) 5 m
    (Integer (fst (m_del [5%Z] [lit "k"] m)))).
  - exact I.
  - intros k x t. unfold m. rewrite lookup_insert. case_decide; [done|]. by rewrite lookup_empty.
  - lia.
  - exact (serves_del false (metrics_new 0) [5%Z] [lit "k"] m eq_refl).
  - vm_compute. reflexivity.
Defined.
