(* ===== verification/Loopback.v ===== *)
(** * The client over the server

    A network that is a link to one server connection: what the client writes
    the connection reads as one chunk, and what it answers the client reads.
    Over it, sequences of client calls implement the map. *)

From S2P Require Import Prelude Decimal Errors KVEngine RespClient RespClientThms RespParser RespParserThms RespThms.
From S2P Require Import Observation F64 Metrics Server ServerSpec ServerThms EndToEnd Pool Client PoolThms ClientThms.
From Stdlib Require Import Sorting.Sorted.

Section loopback.
Context `{Profile} `{KVEngineLaws E} (clock : nat -> Instant) (wall : nat -> SystemTime).

Abbreviation link := (World E * (RespParser * bytes))%type.

Definition set_out (out : bytes) (w : World E) : World E :=
  mkWorld (w_engine w) (w_metrics w) (w_log w) (w_ticks w) out (w_writes w).

Definition no_fault (_ : nat) : option nat := None.

Definition loopback : Network link unit := {|
  net_parse_addr _ := true;
  net_connect _ _ := mret tt;
  net_set_read_timeout _ _ := mret tt;
  net_set_write_timeout _ _ := mret tt;
  net_set_nodelay _ := mret tt;
  net_write_all _ buf := fun st => (Val tt, snd (read_loop clock wall no_fault [buf] (Ok tt) st));
  net_flush _ := mret tt;
  net_reader _ st := mkReader (w_out (fst st)) None;
  net_set_reader _ r st := (set_out (r_data r) (fst st), snd st);
  net_buffered _ st := w_out (fst st);
  net_set_nonblocking _ _ := mret tt;
  net_peek _ := fun st => match w_out (fst st) with [] => (Err WouldBlock, st) | _ => (Val 1, st) end
|}.

#[local] Existing Instance loopback.

(** Between two calls: the parser is at the start of a command and everything
    the server wrote has been read. *)
Definition quiet (st : link) : Prop :=
  w_out (fst st) = [] /\ snd (snd st) = [] /\ p_state (fst (snd st)) = ArrayLen /\ (0 <= p_bulk_len (fst (snd st)))%Z.

Lemma quiet_healthy c st : quiet st -> is_healthy c st = (Val true, st).
Proof.
  intros (Ho & _). unfold is_healthy, try_call, catch, mbind, M_bind, gets. simpl. rewrite Ho. simpl.
  by rewrite Ho.
Qed.

Lemma quiet_acquire config p st :
  quiet st -> pool_ok config 0 p -> (1 <= max_total config)%Z ->
  exists c p', acquire config (p, st) = (Val c, (p', st)) /\ pool_ok config 1 p'.
Proof.
  intros Hq Hok Hmax. unfold acquire. rewrite bind_gets. cbn [acquire_loop].
  pose proof (pop_idle_ok config 0 p Hok) as Hpop. destruct (pop_idle p) as [[c|] p1] eqn:Ep;
    rewrite (bind_val _ _ _ _ _ (on_pool_run _ p st _ _ Ep)).
  - rewrite (bind_val _ _ _ _ _ (probe_run c p1 st true st (quiet_healthy c st Hq))). eauto.
  - subst p1. pose proof (try_reserve_ok config 0 p Hok) as Hres.
    destruct (try_reserve config p) as [[] p1] eqn:Er; rewrite (bind_val _ _ _ _ _ (on_pool_run _ p st _ _ Er)).
    + cbn [negb]. rewrite bind_catch. unfold on_net, conn_connect, connect_stream. simpl.
      destruct (read_timeout config), (write_timeout config); simpl; eauto.
    + exfalso. destruct Hres as [_ Hres]. unfold pop_idle in Ep. destruct Hok as [Ht _ _].
      destruct (idle p); [simpl in Ht; lia|done].
Qed.

Lemma command_arg_fits args : in_memory (enc_command args) -> small_args args.
Proof.
  unfold in_memory, enc_command, enc_args. intros Hm. rewrite !length_app in Hm.
  assert (Hl : forall l, length l <= length (concat (enc_arg <$> l))
    /\ Forall (fun a => length a <= length (concat (enc_arg <$> l))) l).
  { induction l as [|a l [IH1 IH2]]; [by split|]. rewrite fmap_cons. cbn [concat length].
    rewrite length_app. unfold enc_arg at 1 3. rewrite !length_app. simpl length. split; [lia|].
    constructor; [lia|]. eapply Forall_impl; [exact IH2|]. simpl. lia. }
  destruct (Hl args) as [H1l H2l]. split; [unfold u64_max, u64_modulus; lia|].
  eapply Forall_impl; [exact H2l|]. simpl. unfold u64_max, u64_modulus. lia.
Qed.

(** The server serves the one command written to it. *)
Lemma read_loop_one args w w1 p :
  p_state p = ArrayLen -> (0 <= p_bulk_len p)%Z -> in_memory (enc_command args) ->
  handle_request clock wall no_fault args w = (Val tt, w1) ->
  exists bl, (0 <= bl)%Z /\
    read_loop clock wall no_fault [enc_command args] (Ok tt) (w, (p, []))
    = (Val tt, (w1, (mkParser ArrayLen [] 0 bl, []))).
Proof.
  intros Hst Hbl Hm Hh.
  destruct (parse_command_run p args [] Hst Hbl ltac:(by rewrite app_nil_r)) as (bl & Hb & Ep).
  rewrite app_nil_r in Ep. exists bl. split; [done|].
  cbn [read_loop]. rewrite bind_modify. cbn [bm_put list_bytes_mut app].
  assert (1 <= length (enc_command args)) as Hlen by (unfold enc_command; rewrite !length_app; simpl; lia).
  rewrite bool_decide_false by lia. rewrite bind_gets. cbn [snd bm_bytes list_bytes_mut].
  destruct (length (enc_command args)) as [|fuel]; [lia|].
  assert (Hs : serve_buffer clock wall no_fault (S (S fuel)) (w, (p, enc_command args))
    = (Val MoreInput, (w1, (mkParser ArrayLen [] 0 bl, [])))).
  { assert (Hn1 : parse_next (w, (p, enc_command args)) = (Val (Ok (Some args)), (w, (mkParser ArrayLen [] 0 bl, []))))
      by (unfold parse_next; by rewrite Ep).
    cbn [serve_buffer]. rewrite (bind_val _ _ _ _ _ Hn1).
    assert (Hw : in_world (handle_request clock wall no_fault args) (w, (mkParser ArrayLen [] 0 bl, ([] : bytes)))
      = (Val tt, (w1, (mkParser ArrayLen [] 0 bl, [])))) by (unfold in_world; by rewrite Hh).
    rewrite (bind_val _ _ _ _ _ Hw). done. }
  by rewrite (bind_val _ _ _ _ _ Hs).
Qed.

(** Entries of 63-bit deadlines and lengths. *)
Definition store_ok (m : store) : Prop :=
  deadlines_fit m /\ forall k x, m !! k = Some x -> (Z.of_nat (length (fst x)) <= i64_max)%Z.

Lemma store_ok_sub m m' : m' ⊆ m -> store_ok m -> store_ok m'.
Proof.
  intros Hs [Hd Hv]. split; [by eapply deadlines_sub|]. intros k x Hk. eapply Hv, lookup_weaken; [exact Hk|done].
Qed.

Context (Hclock : forall i, (0 <= clock i)%Z).

Definition op_ok (o : Op) : Prop :=
  op_duration o /\ in_memory (enc_command (op_args o)) /\ command_fits clock (op_command o).

Lemma arg_length args a : in_memory (enc_command args) -> a ∈ args -> (Z.of_nat (length a) <= i64_max)%Z.
Proof.
  unfold in_memory, enc_command, enc_args, i64_max. rewrite !length_app. intros Hm Ha.
  apply list_elem_of_split in Ha as (l1 & l2 & ->).
  rewrite fmap_app, fmap_cons, concat_app, length_app in Hm. cbn [concat] in Hm. rewrite length_app in Hm.
  unfold enc_arg at 2 in Hm. rewrite !length_app in Hm. lia.
Qed.

Lemma op_serves b mt t0 o m v m' :
  op_ok o -> serves b mt [clock t0] (op_command o) m v m' -> store_ok m ->
  value_wf 1 v /\ store_ok m'.
Proof.
  intros (Hd & Hm & Hf) Hs [Hdl Hv].
  assert (Hwf : value_wf 1 v).
  { destruct o; inversion Hs; subst; try done; try (by apply no_lf); cbn [value_wf].
    - unfold m_live. destruct (m !! k) as [[x d]|] eqn:Hk; [|done]. pose proof (Hv k _ Hk).
      by destruct (passed (clock t0) d).
    - simpl. unfold i64_max. case_bool_decide; lia.
    - unfold i64_max. case_match; lia.
    - pose proof (ttl_number_range (clock t0) k m (Hclock _) Hdl). unfold i64_max. lia. }
  split; [done|]. split.
  - eapply (serves_deadlines clock b mt t0 1); [exact Hs|exact Hf|done].
  - intros k' x Hk'. destruct o as [k|k v0|k v0 d|k|k d|k]; inversion Hs; subst.
    + eapply Hv, lookup_weaken; [exact Hk'|apply m_touch_sub].
    + eapply (lookup_weaken _ (<[k := (v0, None)]> m)) in Hk'; [|by eapply shrinks_sub].
      rewrite lookup_insert in Hk'. case_decide; [injection Hk' as <-|by eapply Hv].
      apply (arg_length _ v0 Hm). simpl. set_solver.
    + eapply (lookup_weaken _ (<[k := (v0, Some (clock t0 + from_secs (ttl_secs d))%Z)]> m)) in Hk'; [|by eapply shrinks_sub].
      rewrite lookup_insert in Hk'. case_decide; [injection Hk' as <-|by eapply Hv].
      apply (arg_length _ v0 Hm). simpl. set_solver.
    + eapply Hv, lookup_weaken; [exact Hk'|apply (m_del_sub [clock t0] [k] m)].
    + unfold m_expire in Hk'. destruct (m_live (clock t0) k m) as [[x0 d0]|] eqn:Hl; simpl in Hk'.
      * rewrite lookup_insert in Hk'. case_decide; [injection Hk' as <-|by eapply Hv].
        unfold m_live in Hl. destruct (m !! k) as [[x1 d1]|] eqn:Hk; [|done].
        destruct (passed (clock t0) d1); [done|]. injection Hl as <- <-. by apply (Hv k _ Hk).
      * eapply Hv, lookup_weaken; [exact Hk'|apply delete_subseteq].
    + eapply Hv, lookup_weaken; [exact Hk'|apply m_touch_sub].
Qed.

(** One request over the link. *)
Lemma link_exec b args m w p c :
  quiet (w, (p, [])) -> in_memory (enc_command args) -> kv_rep b (w_engine w) m -> command_fits clock (decode args) ->
  (forall t0 v m', serves b (record_request_start (w_metrics w)) (clock <$> seq t0 (readings (decode args))) (decode args) m v m' ->
    value_wf 1 v) ->
  exists v m' st' t0 c', conn_exec 1 args (c, (w, (p, []))) = (Val v, (c', st'))
    /\ serves b (record_request_start (w_metrics w)) (clock <$> seq t0 (readings (decode args))) (decode args) m v m'
    /\ kv_rep b (w_engine (fst st')) m' /\ quiet st' /\ w_ticks w <= t0 /\ t0 + readings (decode args) <= w_ticks (fst st').
Proof.
  intros (Ho & _ & Hst & Hbl) Hm Hr Hf Hwf.
  destruct (request_run clock wall no_fault b w m args Hr Hf)
    as (v & m' & w1 & t0 & E1 & Hs & Hr1 & Ht0 & Ht1 & Ho1 & _).
  cbn [fst snd] in *. cbn [no_fault] in E1, Ho1. rewrite Ho in Ho1. cbn [app] in Ho1.
  destruct (read_loop_one args w w1 p Hst Hbl Hm E1) as (bl & Hb & Eloop).
  destruct (read_response_back 1 v [] None (conn_line_buf c) (Hwf _ _ _ Hs)) as [buf Eread].
  rewrite app_nil_r in Eread.
  exists v, m', (set_out [] w1, (mkParser ArrayLen [] 0 bl, [])), t0,
    (mkConn (conn_stream c) buf (enc_command args)).
  split_and!; [|done|done|done|done|done].
  unfold conn_exec. rewrite (bind_val _ _ _ _ _ (clear_buf_run c _)).
  rewrite (bind_val _ _ _ _ _ (write_command_run _ _ _ _ (command_arg_fits args Hm))). rewrite bind_gets. cbn [conn_write_buf].
  unfold on_stream, map_err. cbn [net_write_all loopback net_flush]. unfold mbind at 1, M_bind at 1.
  cbn [conn_stream]. rewrite Eloop. cbn [snd]. unfold mbind at 1, M_bind at 1. cbn [mret M_ret].
  unfold conn_read_response. unfold mbind, M_bind. cbn [net_reader loopback fst conn_stream conn_line_buf].
  rewrite Ho1, Eread. done.
Qed.

(** One call of the client. *)
Lemma link_call b self o m p w pr :
  quiet (w, (pr, [])) -> pool_ok (client_pool self) 0 p -> (1 <= max_total (client_pool self))%Z ->
  op_ok o -> kv_rep b (w_engine w) m -> store_ok m ->
  exists m' p' w' pr' t0,
    client_call 1 self o (p, (w, (pr, [])))
      = (Val (reply_trunc (fst (m_exec (clock t0) (op_trunc o) m))), (p', (w', (pr', []))))
    /\ shrinks b (snd (m_exec (clock t0) (op_trunc o) m)) m' /\ kv_rep b (w_engine w') m' /\ store_ok m'
    /\ quiet (w', (pr', [])) /\ pool_ok (client_pool self) 0 p' /\ w_ticks w <= t0 < w_ticks w'.
Proof.
  intros Hq Hok Hmax Hop Hr Hst. pose proof Hop as (Hd & Hm & Hf).
  assert (Hdec : decode (op_args o) = op_command o) by (by apply decode_op).
  assert (Hread : readings (op_command o) = 1) by (by destruct o).
  destruct (quiet_acquire (client_pool self) p _ Hq Hok Hmax) as (c & p1 & Ea & Hok1).
  destruct (link_exec b (op_args o) m w pr c Hq Hm Hr) as (v & m' & [w' [pr' bb']] & t0 & c' & Ee & Hs & Hr' & Hq' & Ht0 & Ht1).
  { by rewrite Hdec. }
  { rewrite Hdec, Hread. intros t0 v m' Hs. exact (proj1 (op_serves b _ t0 o m v m' Hop Hs Hst)). }
  rewrite Hdec, Hread in Hs, Ht1. pose proof Hq' as (_ & Hbb & _). cbn [fst snd] in Hbb, Ht1, Hr'. subst bb'.
  destruct (op_serves _ _ _ _ _ _ _ Hop Hs Hst) as [_ Hst'].
  assert (Hx : exec_with_retry 1 self (op_args o) (p, (w, (pr, [])))
    = (Val v, (drop_pooled (client_pool self) true c' p1, (w', (pr', []))))).
  { unfold exec_with_retry. rewrite retry_unfold, Ea. unfold pooled_exec. by rewrite Ee. }
  destruct (client_call_run 1 self o b _ (clock t0) m v m' _ _ Hd (proj1 Hst) (Hclock _) Hs Hx) as [Ec Hsh].
  exists m', (drop_pooled (client_pool self) true c' p1), w', pr', t0.
  split_and!; try done; try lia. replace 0%Z with (1 - 1)%Z by lia. apply drop_pooled_ok; [lia|done].
Qed.

(** A sequence of calls, stopped by the first that fails. *)
Fixpoint client_run (self : KVClient) (ops : list Op) : M (PoolState unit * link) ClientError (list Reply) :=
  match ops with
  | [] => mret []
  | o :: ops' => r ← client_call 1 self o; rs ← client_run self ops'; mret (r :: rs)
  end.

Lemma link_run self ops : forall m p w pr,
  quiet (w, (pr, [])) -> pool_ok (client_pool self) 0 p -> (1 <= max_total (client_pool self))%Z ->
  Forall op_ok ops -> kv_rep false (w_engine w) m -> store_ok m ->
  exists idx s', client_run self ops (p, (w, (pr, [])))
      = (Val (reply_trunc <$> fst (m_run (zip (clock <$> idx) (op_trunc <$> ops)) m)), s')
    /\ length idx = length ops /\ Forall (fun i => w_ticks w <= i) idx /\ StronglySorted lt idx.
Proof.
  induction ops as [|o ops IH]; intros m p w pr Hq Hok Hmax Hops Hr Hst.
  { exists [], (p, (w, (pr, []))). split_and!; try done; constructor. }
  apply Forall_cons in Hops as [Ho Hops].
  destruct (link_call false self o m p w pr Hq Hok Hmax Ho Hr Hst)
    as (m' & p' & w' & pr' & t0 & Ec & Hsh & Hr' & Hst' & Hq' & Hok' & Ht0). simpl in Hsh. subst m'.
  destruct (IH _ p' w' pr' Hq' Hok' Hmax Hops Hr' Hst') as (idx & s' & Er & Hlen & Hall & Hsort).
  exists (t0 :: idx), s'. cbn [client_run]. rewrite (bind_val _ _ _ _ _ Ec), (bind_val _ _ _ _ _ Er).
  split_and!.
  - cbn [fmap list_fmap zip zip_with m_run]. destruct (m_exec (clock t0) (op_trunc o) m) as [r m1].
    cbn [snd]. by destruct (m_run _ m1).
  - simpl. by rewrite Hlen.
  - constructor; [lia|]. eapply Forall_impl; [exact Hall|]. simpl. lia.
  - constructor; [done|]. eapply Forall_impl; [exact Hall|]. simpl. lia.
Qed.

End loopback.

(** C1: over a link to one server connection on any lawful unbounded engine,
    with a pool that has room for a connection, every sequence of the client's
    storage calls whose deadlines the server's clock can represent and whose
    arguments the memory can hold succeeds, and its results are those of the map of keys to values and
    deadlines at increasing readings of the server's clock (durations in whole
    seconds): client pool, wire format, server and engine together implement
    the specification of the engine. *)
Theorem client_over_server_implements_map `{Profile} `{KVEngineLaws E} clock wall self ops (w : World E) m p :
  (forall i, 0 <= clock i)%Z -> kv_rep false (w_engine w) m -> store_ok m -> w_out w = [] ->
  pool_ok (client_pool self) 0 p -> (1 <= max_total (client_pool self))%Z -> Forall (op_ok clock) ops ->
  exists idx s', client_run clock wall self ops (p, (w, (parser_new, [])))
      = (Val (reply_trunc <$> fst (m_run (zip (clock <$> idx) (op_trunc <$> ops)) m)), s')
    /\ length idx = length ops /\ Forall (fun i => w_ticks w <= i) idx /\ StronglySorted lt idx.
Proof.
  intros Hc Hr Hst Ho Hok Hmax Hops. eapply link_run; try done.
Qed.

Lemma client_over_server_implements_map_witness :
  let ops := [OpSetTtl (lit "k") (lit "v") 2500000000; OpGet (lit "k"); OpTtl (lit "k"); OpDelete (lit "j")]%Z in
  exists idx s', client_run (H := release_profile) (H0 := engine0) clock0 clock0 (connect (lit "127.0.0.1:1")) ops
      (pool_new, (w0, (parser_new, [])))
      = (Val (reply_trunc <$> fst (m_run (zip (clock0 <$> idx) (op_trunc <$> ops)) ∅)), s')
    /\ length idx = length ops /\ Forall (fun i => 0 <= i) idx /\ StronglySorted lt idx.
Proof.
  intros ops. apply (client_over_server_implements_map (H := release_profile) (H0 := engine0) (H1 := laws0)
    clock0 clock0 (connect (lit "127.0.0.1:1")) ops w0 ∅ pool_new).
  - intros i. unfold clock0. lia.
  - exact w0_rep.
  - split; [intros k v t; by rewrite lookup_empty|intros k x; by rewrite lookup_empty].
  - reflexivity.
  - split; simpl; lia.
  - simpl. lia.
  - unfold ops. repeat (apply Forall_cons_2 || apply Forall_nil_2); (split; [|split]);
      first [exact I | exact (clock0_fits 2 ltac:(lia)) | vm_compute; reflexivity | vm_compute; split; discriminate].
Defined.
