(* ===== verification/Types.v ===== *)
(** * Cache entry types (hkv-common/src/types.rs)

    Keys and values in fixed buffers, versions, deadlines, flags and metadata.
    A [u8], [u16] or [u64] is a [Z] in its range. The wall clock is an argument:
    nanoseconds since the Unix epoch, negative before it. *)

From S2P Require Import Prelude Errors.

Definition MAX_KEY_SIZE : nat := 256.
Definition MAX_VALUE_SIZE : nat := 1024.

(** ** Length-prefixed buffers

    [Key] and [Value] have the same code with another capacity and error. *)

Record FixedBuf := mkBuf {
  buf_len : Z;
  buf_data : bytes
}.

Section buffer.
Context (capacity : nat) (too_long : HkvError).

(** [data.len() as u16], and [copy_from_slice] into zeros. *)
Definition buf_new (data : bytes) : result FixedBuf HkvError :=
  if capacity <? length data then Error too_long
  else Ok (mkBuf (Z.of_nat (length data) mod 2 ^ 16) (data ++ replicate (capacity - length data) Byte.x00)).

End buffer.

(** [&self.data[..self.len as usize]]: a longer prefix would panic ([None]). *)
Definition buf_as_bytes (b : FixedBuf) : option bytes :=
  if (buf_len b <=? Z.of_nat (length (buf_data b)))%Z then Some (take (Z.to_nat (buf_len b)) (buf_data b)) else None.

Definition buf_is_empty (b : FixedBuf) : bool := bool_decide (buf_len b = 0%Z).

(** [PartialEq]: [None] is the panic of the slice. *)
Definition buf_eq (a b : FixedBuf) : option bool :=
  if bool_decide (buf_len a = buf_len b) then
    x ← buf_as_bytes a; y ← buf_as_bytes b; Some (bool_decide (x = y))
  else Some false.

(** What [Hash] feeds to the hasher: the length, then the slice. *)
Definition buf_hash_input (b : FixedBuf) : option (Z * bytes) :=
  x ← buf_as_bytes b; Some (buf_len b, x).

Abbreviation Key := FixedBuf.
Abbreviation Value := FixedBuf.
Definition Key_new : bytes -> result Key HkvError := buf_new MAX_KEY_SIZE KeyTooLong.
Definition Value_new : bytes -> result Value HkvError := buf_new MAX_VALUE_SIZE ValueTooLong.

(** The buffers the constructors make: a length in range, the capacity filled. *)
Definition buf_wf (capacity : nat) (b : FixedBuf) : Prop :=
  (0 <= buf_len b <= Z.of_nat capacity)%Z /\ length (buf_data b) = capacity.

(** ** Versions *)

Abbreviation Version := Z.
Definition version_ZERO : Version := 0.
Definition version_next (v : Version) : Version := wrap64 (v + 1).
(** [increment]: the new version is stored and returned. *)
Definition version_increment (v : Version) : Version * Version := let v' := wrap64 (v + 1) in (v', v').

(** ** Deadlines *)

Abbreviation Ttl := Z.
Definition ttl_INFINITE : Ttl := u64_max.
Definition ttl_is_infinite (t : Ttl) : bool := bool_decide (t = u64_max).
Definition ttl_is_expired (t : Ttl) (current_nanos : Z) : bool := negb (ttl_is_infinite t) && (t <=? current_nanos)%Z.

(** [duration_since(UNIX_EPOCH).unwrap_or(ZERO)]. *)
Definition since_epoch (now : Z) : Duration := Z.max now 0.

(** [now + duration] panics past the largest [Duration] ([None]); [as_nanos]
    is 128 bits wide and the cast keeps 64 of them. *)
Definition duration_limit : Z := 2 ^ 64 * 1000000000.
Definition ttl_from_duration (now : Z) (duration : Duration) : option Ttl :=
  if (since_epoch now + duration <? duration_limit)%Z then Some (wrap64 (since_epoch now + duration)) else None.

(** ** Flags *)

Abbreviation EntryFlags := Z.
Definition VALID : Z := 1.
Definition EVICTING : Z := 2.
Definition INVALIDATED : Z := 4.
Definition flags_empty : EntryFlags := 0.
Definition flags_valid : EntryFlags := VALID.
Definition flags_is_valid (f : EntryFlags) : bool := negb (bool_decide (Z.land f VALID = 0%Z)).
Definition flags_is_evicting (f : EntryFlags) : bool := negb (bool_decide (Z.land f EVICTING = 0%Z)).
Definition flags_is_invalidated (f : EntryFlags) : bool := negb (bool_decide (Z.land f INVALIDATED = 0%Z)).
Definition flags_set (flag : Z) (f : EntryFlags) : EntryFlags := Z.lor f flag.
(** [!flag] on a [u8]. *)
Definition flags_clear (flag : Z) (f : EntryFlags) : EntryFlags := Z.land f (Z.lxor flag 255).

(** ** Metadata and entries *)

Record EntryMetadata := mkMeta {
  em_version : Version;
  em_ttl : Ttl;
  em_created_at : Z;
  em_accessed_at : Z;
  em_flags : EntryFlags;
  em_key_len : Z;
  em_value_len : Z
}.

(** [as_nanos() as u64] of the time since the epoch. *)
Definition now_nanos (now : Z) : Z := wrap64 (since_epoch now).

Definition metadata_new (now : Z) (version : Version) (ttl : Ttl) (key_len value_len : Z) : EntryMetadata :=
  mkMeta version ttl (now_nanos now) (now_nanos now) flags_valid key_len value_len.
Definition metadata_touch (now : Z) (m : EntryMetadata) : EntryMetadata :=
  mkMeta (em_version m) (em_ttl m) (em_created_at m) (now_nanos now) (em_flags m) (em_key_len m) (em_value_len m).
Definition metadata_is_expired (now : Z) (m : EntryMetadata) : bool := ttl_is_expired (em_ttl m) (now_nanos now).
Definition age_nanos (now : Z) (m : EntryMetadata) : Z := saturating_sub (now_nanos now) (em_created_at m).

Record Entry := mkEntry {
  en_key : Key;
  en_value : Value;
  en_metadata : EntryMetadata
}.

Definition entry_new (now : Z) (key : Key) (value : Value) (version : Version) (ttl : Ttl) : Entry :=
  mkEntry key value (metadata_new now version ttl (buf_len key mod 2 ^ 16) (buf_len value mod 2 ^ 16)).
Definition entry_is_valid (now : Z) (e : Entry) : bool :=
  flags_is_valid (em_flags (en_metadata e)) && negb (metadata_is_expired now (en_metadata e))
  && negb (flags_is_invalidated (em_flags (en_metadata e))).
Definition entry_touch (now : Z) (e : Entry) : Entry :=
  mkEntry (en_key e) (en_value e) (metadata_touch now (en_metadata e)).

(** ** Buffers hold what they were given *)

Lemma buf_new_spec capacity err data :
  (Z.of_nat capacity < 2 ^ 16)%Z ->
  if capacity <? length data then buf_new capacity err data = Error err
  else exists b, buf_new capacity err data = Ok b /\ buf_wf capacity b /\ buf_as_bytes b = Some data
         /\ buf_len b = Z.of_nat (length data).
Proof.
  intros Hc. unfold buf_new. destruct (Nat.ltb_spec capacity (length data)) as [|Hle]; [done|].
  eexists. split; [done|].
  assert (Hlen : (Z.of_nat (length data) mod 2 ^ 16 = Z.of_nat (length data))%Z) by (apply Z.mod_small; lia).
  unfold buf_wf, buf_as_bytes. cbn [buf_len buf_data]. rewrite Hlen, length_app, length_replicate. split_and!; try lia.
  rewrite (proj2 (Z.leb_le _ _)) by lia. rewrite Nat2Z.id. by rewrite take_app_length.
Qed.

(** A key (256 bytes) or value (1024 bytes) buffer is built exactly from
    the data that fits, anything longer is the documented error; the buffer
    gives back the data, and equality and the input of hashing depend on the
    data alone, so equal buffers hash alike. *)
Theorem buffers_roundtrip capacity err d1 d2 :
  (capacity = MAX_KEY_SIZE /\ err = KeyTooLong) \/ (capacity = MAX_VALUE_SIZE /\ err = ValueTooLong) ->
  (buf_new capacity err d1 = Error err <-> capacity < length d1)
  /\ (length d1 <= capacity -> exists b1, buf_new capacity err d1 = Ok b1 /\ buf_wf capacity b1
      /\ buf_as_bytes b1 = Some d1 /\ buf_is_empty b1 = bool_decide (d1 = [])
      /\ (forall b2, buf_new capacity err d2 = Ok b2 ->
            buf_eq b1 b2 = Some (bool_decide (d1 = d2)) /\ (d1 = d2 <-> buf_hash_input b1 = buf_hash_input b2))).
Proof.
  intros Hcap. assert (Hc : (Z.of_nat capacity < 2 ^ 16)%Z) by (destruct Hcap as [[-> _]|[-> _]]; done).
  pose proof (buf_new_spec capacity err d1 Hc) as H1. pose proof (buf_new_spec capacity err d2 Hc) as H2.
  destruct (Nat.ltb_spec capacity (length d1)) as [Hlt|Hle]; [split; [done|lia]|].
  destruct H1 as (b1 & E1 & Hwf1 & Hb1 & Hl1). split; [rewrite E1; split; [done|lia]|].
  intros _. exists b1. split_and!; try done.
  { unfold buf_is_empty. rewrite Hl1. apply bool_decide_ext. destruct d1; simpl; split; (lia || done). }
  intros b2 E2. destruct (capacity <? length d2); [congruence|].
  destruct H2 as (b2' & E2' & _ & Hb2 & Hl2). rewrite E2 in E2'. injection E2' as <-.
  unfold buf_eq, buf_hash_input. rewrite Hb1, Hb2, Hl1, Hl2. simpl. split.
  - case_bool_decide as Hl; [done|]. rewrite bool_decide_false; [done|]. intros ->. done.
  - split; [by intros ->|]. by intros [= _ ->].
Qed.

Lemma buffers_roundtrip_witness :
  exists b1, Key_new (lit "user:1") = Ok b1 /\ buf_wf MAX_KEY_SIZE b1 /\ buf_as_bytes b1 = Some (lit "user:1")
    /\ buf_is_empty b1 = false
    /\ forall b2, Key_new (lit "user:2") = Ok b2 ->
        buf_eq b1 b2 = Some false /\ (lit "user:1" = lit "user:2" <-> buf_hash_input b1 = buf_hash_input b2).
Proof.
  apply (buffers_roundtrip MAX_KEY_SIZE KeyTooLong (lit "user:1") (lit "user:2")); [by left|].
  unfold MAX_KEY_SIZE. apply Nat.leb_le. vm_compute. reflexivity.
Defined.

(** ** Flags are independent bits *)

Lemma land_bit f i : (0 <= i)%Z -> bool_decide (Z.land f (2 ^ i) = 0%Z) = negb (Z.testbit f i).
Proof.
  intros Hi. destruct (Z.testbit f i) eqn:Hb; simpl.
  - apply bool_decide_eq_false. intros E. apply (f_equal (fun z => Z.testbit z i)) in E.
    rewrite Z.land_spec, Hb, Z.pow2_bits_true, Z.bits_0 in E by done. done.
  - apply bool_decide_eq_true. apply Z.bits_inj'. intros n Hn. rewrite Z.land_spec, Z.bits_0.
    destruct (decide (n = i)) as [->|Hne]; [by rewrite Hb|]. by rewrite Z.pow2_bits_false, andb_false_r by congruence.
Qed.

Lemma clear_bit f i j : (0 <= i < 8)%Z -> (0 <= j < 8)%Z ->
  Z.testbit (flags_clear (2 ^ i) f) j = if decide (i = j) then false else Z.testbit f j.
Proof.
  intros Hi Hj. unfold flags_clear. rewrite Z.land_spec, Z.lxor_spec.
  assert (Z.testbit 255 j = true) as ->.
  { change 255%Z with (Z.ones 8). apply Z.ones_spec_low. lia. }
  case_decide as Hij.
  - subst. rewrite Z.pow2_bits_true by lia. by rewrite andb_false_r.
  - rewrite Z.pow2_bits_false by done. by rewrite andb_true_r.
Qed.

Lemma set_bit f i j : (0 <= i < 8)%Z -> (0 <= j < 8)%Z ->
  Z.testbit (flags_set (2 ^ i) f) j = if decide (i = j) then true else Z.testbit f j.
Proof.
  intros Hi Hj. unfold flags_set. rewrite Z.lor_spec. case_decide as Hij.
  - subst. rewrite Z.pow2_bits_true by lia. by rewrite orb_true_r.
  - rewrite Z.pow2_bits_false by done. by rewrite orb_false_r.
Qed.

Definition flag_tests (f : EntryFlags) : bool * bool * bool :=
  (flags_is_valid f, flags_is_evicting f, flags_is_invalidated f).

Lemma flag_tests_bits f : flag_tests f = (Z.testbit f 0, Z.testbit f 1, Z.testbit f 2).
Proof.
  unfold flag_tests, flags_is_valid, flags_is_evicting, flags_is_invalidated.
  change VALID with (2 ^ 0)%Z. change EVICTING with (2 ^ 1)%Z. change INVALIDATED with (2 ^ 2)%Z.
  by rewrite !land_bit, !negb_involutive by lia.
Qed.

(** Setting or clearing one of the three entry flags changes what its own
    test says and no other, whatever the other bits of the byte are. *)
Theorem flags_are_independent f :
  let '(v, e, i) := flag_tests f in
  flag_tests (flags_set VALID f) = (true, e, i) /\ flag_tests (flags_clear VALID f) = (false, e, i)
  /\ flag_tests (flags_set EVICTING f) = (v, true, i) /\ flag_tests (flags_clear EVICTING f) = (v, false, i)
  /\ flag_tests (flags_set INVALIDATED f) = (v, e, true) /\ flag_tests (flags_clear INVALIDATED f) = (v, e, false).
Proof.
  rewrite flag_tests_bits.
  change VALID with (2 ^ 0)%Z. change EVICTING with (2 ^ 1)%Z. change INVALIDATED with (2 ^ 2)%Z.
  by rewrite !flag_tests_bits, !set_bit, !clear_bit by lia.
Qed.

(** ** Validity over time *)

(** An entry made at [t0] with a deadline [d] from then is valid exactly
    until that deadline, for every wall clock reading of the next centuries
    (the times fit 64 bits of nanoseconds), however often it is touched; an
    infinite deadline never expires; once invalidated it is never valid. *)
Theorem entry_validity t0 t1 t2 d key value version ttl :
  (0 <= t0)%Z -> (0 <= d)%Z -> (t0 + d < u64_max)%Z -> (0 <= t2 < u64_max)%Z ->
  ttl_from_duration t0 d = Some ttl ->
  let e := entry_touch t1 (entry_new t0 key value version ttl) in
  (entry_is_valid t2 e = true <-> (t2 < t0 + d)%Z)
  /\ entry_is_valid t2 (entry_touch t1 (entry_new t0 key value version ttl_INFINITE)) = true
  /\ age_nanos t2 (en_metadata e) = Z.max (t2 - t0) 0
  /\ entry_is_valid t2 (mkEntry key value (mkMeta version ttl t0 t0 (flags_set INVALIDATED flags_valid) 0 0)) = false.
Proof.
  unfold u64_max, u64_modulus. intros H0 Hd Hfit H2 Httl. unfold ttl_from_duration, since_epoch, duration_limit in Httl.
  rewrite Z.max_l in Httl by lia. rewrite (proj2 (Z.ltb_lt _ _)) in Httl by lia. injection Httl as <-.
  rewrite wrap64_small by (unfold u64_modulus; lia).
  assert (Hn : forall t, (0 <= t < 2 ^ 64)%Z -> now_nanos t = t).
  { intros t Ht. unfold now_nanos, since_epoch. rewrite Z.max_l by lia. by rewrite wrap64_small by (unfold u64_modulus; lia). }
  split_and!.
  - unfold entry_is_valid, entry_touch, entry_new, metadata_is_expired, metadata_touch, metadata_new. cbn.
    rewrite Hn by lia. unfold ttl_is_expired, ttl_is_infinite, u64_max, u64_modulus.
    rewrite bool_decide_false by lia. cbn. destruct (Z.leb_spec (t0 + d) t2); cbn; split; (done || lia).
  - reflexivity.
  - unfold age_nanos, entry_touch, entry_new, metadata_touch, metadata_new. cbn. by rewrite !Hn by lia.
  - unfold entry_is_valid. cbn. by rewrite andb_false_r.
Qed.

Lemma entry_validity_witness :
  exists key value, Key_new (lit "k") = Ok key /\ Value_new (lit "v") = Ok value
  /\ let e := entry_touch 1500 (entry_new 1000 key value 7 6000) in
     (entry_is_valid 5999 e = true <-> 5999 < 1000 + 5000)%Z
  /\ entry_is_valid 5999 (entry_touch 1500 (entry_new 1000 key value 7 ttl_INFINITE)) = true
  /\ age_nanos 5999 (en_metadata e) = Z.max (5999 - 1000) 0
  /\ entry_is_valid 5999 (mkEntry key value (mkMeta 7 6000 1000 1000 (flags_set INVALIDATED flags_valid) 0 0)) = false.
Proof.
  eexists _, _. split; [reflexivity|]. split; [reflexivity|].
  apply (entry_validity 1000 1500 5999 5000); unfold u64_max, u64_modulus; try lia. reflexivity.
Defined.

(** A deadline past the year 2554 is cut to 64 bits of nanoseconds: an
    entry that should live for 584 more years is already expired when made. *)
Theorem far_deadline_expires_now t0 key value version :
  (0 <= t0 < u64_max)%Z ->
  exists ttl, ttl_from_duration t0 u64_modulus = Some ttl
    /\ entry_is_valid t0 (entry_new t0 key value version ttl) = false.
Proof.
  intros Ht. unfold u64_max in Ht. exists t0. unfold ttl_from_duration, since_epoch, duration_limit.
  rewrite Z.max_l by lia. rewrite (proj2 (Z.ltb_lt _ _)) by (unfold u64_modulus in *; lia). split.
  - f_equal. unfold wrap64. rewrite <- Z.add_mod_idemp_r, Z.mod_same, Z.add_0_r by done. apply Z.mod_small. lia.
  - unfold entry_is_valid, entry_new, metadata_new, metadata_is_expired. cbn.
    unfold now_nanos, since_epoch. rewrite Z.max_l, wrap64_small by lia.
    unfold ttl_is_expired, ttl_is_infinite. rewrite bool_decide_false by (unfold u64_max; lia). cbn.
    by rewrite (proj2 (Z.leb_le _ _)) by lia.
Qed.

Lemma far_deadline_expires_now_witness :
  exists ttl, ttl_from_duration 1700000000000000000 u64_modulus = Some ttl
    /\ entry_is_valid 1700000000000000000 (entry_new 1700000000000000000 (mkBuf 0 []) (mkBuf 0 []) 1 ttl) = false.
Proof. apply far_deadline_expires_now. unfold u64_max, u64_modulus. lia. Defined.
