(* ===== verification/Abi.v ===== *)
(** * The kernel interface (hkv-common/src/ioctl.rs and hkv-common/src/protocol.rs)

    The ioctl commands, the request and response structures with their
    constructors, and their C layout: the layout of a [repr(C)] type is computed
    by the rules of the language, from the field types. *)

From Stdlib Require Import Strings.String.
From S2P Require Import Prelude Errors Types.

(** ** Commands *)

Definition IOCTL_MAGIC : Z := 72.
Definition CMD_READ : Z := 0.
Definition CMD_PROMOTE : Z := 1.
Definition CMD_BATCH_PROMOTE : Z := 2.
Definition CMD_DEMOTE : Z := 3.
Definition CMD_INVALIDATE : Z := 4.
Definition CMD_STATS : Z := 5.
Definition CMD_CONFIG : Z := 6.
Definition CMD_FLUSH : Z := 7.

Inductive IoctlCommand : Type :=
| IoRead | IoPromote | IoBatchPromote | IoDemote | IoInvalidate | IoStats | IoConfig | IoFlush.

#[global] Instance IoctlCommand_eq_dec : EqDecision IoctlCommand.
Proof. solve_decision. Defined.

Definition as_u8 (c : IoctlCommand) : Z :=
  match c with
  | IoRead => CMD_READ | IoPromote => CMD_PROMOTE | IoBatchPromote => CMD_BATCH_PROMOTE
  | IoDemote => CMD_DEMOTE | IoInvalidate => CMD_INVALIDATE | IoStats => CMD_STATS
  | IoConfig => CMD_CONFIG | IoFlush => CMD_FLUSH
  end.

Definition from_u8 (value : Z) : option IoctlCommand :=
  if bool_decide (value = CMD_READ) then Some IoRead
  else if bool_decide (value = CMD_PROMOTE) then Some IoPromote
  else if bool_decide (value = CMD_BATCH_PROMOTE) then Some IoBatchPromote
  else if bool_decide (value = CMD_DEMOTE) then Some IoDemote
  else if bool_decide (value = CMD_INVALIDATE) then Some IoInvalidate
  else if bool_decide (value = CMD_STATS) then Some IoStats
  else if bool_decide (value = CMD_CONFIG) then Some IoConfig
  else if bool_decide (value = CMD_FLUSH) then Some IoFlush
  else None.

Definition command_name (c : IoctlCommand) : bytes :=
  lit (match c with
       | IoRead => "READ" | IoPromote => "PROMOTE" | IoBatchPromote => "BATCH_PROMOTE"
       | IoDemote => "DEMOTE" | IoInvalidate => "INVALIDATE" | IoStats => "STATS"
       | IoConfig => "CONFIG" | IoFlush => "FLUSH"
       end)%string.

Definition is_readonly (c : IoctlCommand) : bool := match c with IoRead | IoStats => true | _ => false end.
Definition is_write (c : IoctlCommand) : bool :=
  match c with IoPromote | IoBatchPromote | IoDemote | IoInvalidate | IoFlush => true | _ => false end.
Definition is_config (c : IoctlCommand) : bool := match c with IoConfig => true | _ => false end.

(** ** Structures *)

Definition PROTOCOL_VERSION : Z := 1.
Definition STATUS_OK : Z := 0.
Definition MAX_BATCH_SIZE : nat := 1000.
(** [div_ceil]. *)
Definition BATCH_RESULT_BYTES : nat := (MAX_BATCH_SIZE + 7) / 8.

Record IoctlHeader := mkHeader { ih_magic : Z; ih_version : Z; ih_command : Z; ih_reserved : Z }.
Definition header_new (c : IoctlCommand) : IoctlHeader := mkHeader IOCTL_MAGIC PROTOCOL_VERSION (as_u8 c) 0.

Record ReadRequest := mkReadRequest { rr_header : IoctlHeader; rr_key : Key }.
Definition ReadRequest_new (key : Key) : ReadRequest := mkReadRequest (header_new IoRead) key.

Record ReadResponse := mkReadResponse { rs_header : IoctlHeader; rs_status : Z; rs_value : Value }.
Definition ReadResponse_new (status : Z) (value : Value) : ReadResponse :=
  mkReadResponse (header_new IoRead) status value.

Record PromoteRequest := mkPromoteRequest {
  pr_header : IoctlHeader; pr_key : Key; pr_value : Value; pr_version : Version; pr_ttl : Ttl }.
Definition PromoteRequest_new (key : Key) (value : Value) (version : Version) (ttl : Ttl) : PromoteRequest :=
  mkPromoteRequest (header_new IoPromote) key value version ttl.

Record PromoteResponse := mkPromoteResponse { ps_header : IoctlHeader; ps_status : Z; ps_reserved : Z }.
Definition PromoteResponse_new (status : Z) : PromoteResponse := mkPromoteResponse (header_new IoPromote) status 0.

Record BatchPromoteEntry := mkBatchEntry { be_key : Key; be_value : Value; be_version : Version; be_ttl : Ttl }.
Definition BatchPromoteEntry_new := mkBatchEntry.

Record BatchPromoteRequest := mkBatchRequest {
  bp_header : IoctlHeader; bp_count : Z; bp_reserved : Z; bp_entries : list BatchPromoteEntry }.
(** [debug_assert!]: checked in the profile that checks overflow. The array
    argument has [MAX_BATCH_SIZE] entries by its type. *)
Definition debug_assert `{Profile} {S E} (b : bool) : M S E unit :=
  if overflow_checks && negb b then panic else mret tt.
Definition BatchPromoteRequest_new `{Profile} {S E} (entries : list BatchPromoteEntry) (count : Z) : M S E BatchPromoteRequest :=
  debug_assert (count <=? Z.of_nat MAX_BATCH_SIZE)%Z;;
  mret (mkBatchRequest (header_new IoBatchPromote) count 0 entries).

Record BatchPromoteResponse := mkBatchResponse {
  bs_header : IoctlHeader; bs_count : Z; bs_reserved : Z; bs_results : bytes }.
Definition BatchPromoteResponse_new `{Profile} {S E} (count : Z) : M S E BatchPromoteResponse :=
  debug_assert (count <=? Z.of_nat MAX_BATCH_SIZE)%Z;;
  mret (mkBatchResponse (header_new IoBatchPromote) count 0 (replicate BATCH_RESULT_BYTES Byte.x00)).

Record DemoteRequest := mkDemote { dr_header : IoctlHeader; dr_key : Key }.
Definition DemoteRequest_new (key : Key) : DemoteRequest := mkDemote (header_new IoDemote) key.

Record InvalidateRequest := mkInvalidate { ir_header : IoctlHeader; ir_key : Key; ir_version : Version }.
Definition InvalidateRequest_new (key : Key) (version : Version) : InvalidateRequest :=
  mkInvalidate (header_new IoInvalidate) key version.

Record CacheStats := mkStats {
  lookups : Z; hits : Z; misses : Z; stale_hits : Z; promotions : Z; demotions : Z; evictions : Z;
  invalidations : Z; cs_used_bytes : Z; cs_max_bytes : Z; entry_count : Z; lock_contentions : Z;
  rcu_grace_periods : Z }.

Record StatsRequest := mkStatsRequest { sr_header : IoctlHeader }.
Definition StatsRequest_new : StatsRequest := mkStatsRequest (header_new IoStats).

Record StatsResponse := mkStatsResponse {
  ss_header : IoctlHeader; ss_status : Z; ss_reserved : Z; ss_stats : CacheStats }.
Definition StatsResponse_new (status : Z) (stats : CacheStats) : StatsResponse :=
  mkStatsResponse (header_new IoStats) status 0 stats.

Record ConfigRequest := mkConfigRequest {
  cr_header : IoctlHeader; cr_max_bytes : Z; cr_max_entries : Z; cr_high_watermark : Z; cr_low_watermark : Z;
  cr_reserved : Z }.
Definition ConfigRequest_new (max_bytes max_entries high_watermark low_watermark : Z) : ConfigRequest :=
  mkConfigRequest (header_new IoConfig) max_bytes max_entries high_watermark low_watermark 0.

Record FlushRequest := mkFlush { fr_header : IoctlHeader }.
Definition FlushRequest_new : FlushRequest := mkFlush (header_new IoFlush).

(** Offsets, sizes and alignments are numbers of bytes. *)
#[local] Open Scope Z_scope.

(** ** Layout

    A [repr(C)] struct places each field at the next multiple of its alignment
    and pads the end to the alignment of the struct. *)

#[warnings="-register-all"]
Inductive ctype : Type :=
| CInt (width : Z)
| CArray (elem : ctype) (count : Z)
| CStruct (fields : list ctype).

Definition align_up (n a : Z) : Z := (n + (a - 1)) / a * a.

Fixpoint align_of (t : ctype) : Z :=
  match t with
  | CInt w => w
  | CArray e _ => align_of e
  | CStruct fs => foldr (fun f a => Z.max (align_of f) a) 1 fs
  end.

(** Where a struct with fields of these (size, alignment) pairs ends. *)
Definition place (fs : list (Z * Z)) (start : Z) : Z :=
  foldl (fun o '(s, a) => align_up o a + s) start fs.

Fixpoint size_of (t : ctype) : Z :=
  match t with
  | CInt w => w
  | CArray e n => n * size_of e
  | CStruct fs => align_up (place (map (fun f => (size_of f, align_of f)) fs) 0) (align_of t)
  end.

(** The offset of the [i]-th field. *)
Definition offset_of (fs : list ctype) (i : nat) : option Z :=
  f ← fs !! i; Some (align_up (place (map (fun f => (size_of f, align_of f)) (take i fs)) 0) (align_of f)).

Definition u8 := CInt 1.
Definition u16 := CInt 2.
Definition u32 := CInt 4.
Definition u64 := CInt 8.

Definition key_fields : list ctype := [u16; CArray u8 (Z.of_nat MAX_KEY_SIZE)].
Definition value_fields : list ctype := [u16; CArray u8 (Z.of_nat MAX_VALUE_SIZE)].
Definition metadata_fields : list ctype := [CStruct [u64]; CStruct [u64]; u64; u64; CStruct [u8]; u16; u16].
Definition header_fields : list ctype := [u8; u8; u8; u8].

Definition key_t := CStruct key_fields.
Definition value_t := CStruct value_fields.
Definition metadata_t := CStruct metadata_fields.
Definition header_t := CStruct header_fields.

Definition entry_fields : list ctype := [key_t; value_t; metadata_t].
Definition read_request_fields : list ctype := [header_t; key_t].
Definition read_response_fields : list ctype := [header_t; u16; value_t].
Definition promote_request_fields : list ctype := [header_t; key_t; value_t; CStruct [u64]; CStruct [u64]].
Definition promote_response_fields : list ctype := [header_t; u16; u16].
Definition batch_entry_fields : list ctype := [key_t; value_t; CStruct [u64]; CStruct [u64]].
Definition batch_request_fields : list ctype := [header_t; u16; u16; CArray (CStruct batch_entry_fields) (Z.of_nat MAX_BATCH_SIZE)].
Definition batch_response_fields : list ctype := [header_t; u16; u16; CArray u8 (Z.of_nat BATCH_RESULT_BYTES)].
Definition demote_request_fields : list ctype := [header_t; key_t].
Definition invalidate_request_fields : list ctype := [header_t; key_t; CStruct [u64]].
Definition cache_stats_fields : list ctype := replicate 13 u64.
Definition stats_request_fields : list ctype := [header_t].
Definition stats_response_fields : list ctype := [header_t; u16; u16; CStruct cache_stats_fields].
Definition config_request_fields : list ctype := [header_t; u64; u64; u32; u32; u64].
Definition flush_request_fields : list ctype := [header_t].

(** ** Layouts have no overlap *)

Lemma align_up_spec n a : 0 < a -> n <= align_up n a < n + a /\ exists q, align_up n a = q * a.
Proof.
  intros Ha. unfold align_up. split; [|eauto].
  pose proof (Z.div_mod (n + (a - 1)) a). pose proof (Z.mod_pos_bound (n + (a - 1)) a). lia.
Qed.

Lemma place_mono fs : forall o, Forall (fun '(s, a) => 0 <= s /\ 0 < a) fs -> o <= place fs o.
Proof.
  unfold place. induction fs as [|[s a] fs IH]; intros o Ha; simpl; [done|].
  apply Forall_cons in Ha as [[Hs Ha] Hfs]. pose proof (align_up_spec o a Ha) as [[? _] _].
  specialize (IH (align_up o a + s) Hfs). lia.
Qed.

Lemma place_app fs gs o : place (fs ++ gs) o = place gs (place fs o).
Proof. apply foldl_app. Qed.

Definition sized (f : ctype) : Prop := 0 <= size_of f /\ 0 < align_of f.
Definition extent (f : ctype) : Z * Z := (size_of f, align_of f).

(** ** The properties *)

(** The C layout of every structure of the kernel interface has the size
    the documentation draws (and its fields the documented offsets, padding
    included). *)
Theorem layouts_as_documented :
  map (fun fs => (size_of (CStruct fs), align_of (CStruct fs)))
    [key_fields; value_fields; metadata_fields; entry_fields; header_fields; read_request_fields;
     read_response_fields; promote_request_fields; promote_response_fields; batch_request_fields;
     batch_response_fields; demote_request_fields; invalidate_request_fields; stats_request_fields;
     stats_response_fields; config_request_fields; flush_request_fields]
  = [(258, 2); (1026, 2); (40, 8); (1328, 8); (4, 1); (262, 2); (1032, 2); (1304, 8); (8, 2); (1304008, 8);
     (134, 2); (262, 2); (272, 8); (4, 1); (112, 8); (40, 8); (4, 1)]
  /\ map (offset_of metadata_fields) (seq 0 7) = map Some [0; 8; 16; 24; 32; 34; 36]
  /\ map (offset_of entry_fields) (seq 0 3) = map Some [0; 258; 1288]
  /\ map (offset_of promote_request_fields) (seq 0 5) = map Some [0; 4; 262; 1288; 1296]
  /\ map (offset_of invalidate_request_fields) (seq 0 3) = map Some [0; 4; 264]
  /\ map (offset_of config_request_fields) (seq 0 6) = map Some [0; 8; 16; 24; 28; 32].
Proof. by vm_compute. Qed.

(** Command numbers round-trip, [from_u8] accepts nothing else, every
    command has a name of its own, and each is exactly one of read-only, write
    and configuration. *)
Theorem ioctl_commands_roundtrip :
  (forall c, from_u8 (as_u8 c) = Some c) /\ (forall v c, from_u8 v = Some c -> v = as_u8 c /\ 0 <= v <= 7)
  /\ (forall c d, command_name c = command_name d -> c = d)
  /\ (forall c, (is_readonly c, is_write c, is_config c) ∈ [(true, false, false); (false, true, false); (false, false, true)]).
Proof.
  split_and!.
  - by intros [].
  - intros v c. unfold from_u8. repeat case_bool_decide; intros [= <-]; subst; by split.
  - intros [] []; vm_compute; congruence.
  - intros []; vm_compute; set_solver.
Qed.

(** The header every constructor writes. *)
Definition header_ok (c : IoctlCommand) (h : IoctlHeader) : Prop :=
  ih_magic h = byte_val Byte.x48 /\ ih_version h = PROTOCOL_VERSION /\ from_u8 (ih_command h) = Some c /\ ih_reserved h = 0.

(** Every request and response is built with the header of its own
    command, of which the kernel can decode the command, with reserved fields
    zero; a batch count over 1000 is refused in a checked build and let through
    in a release build. *)
Theorem messages_carry_their_command `{Profile} key value version ttl status stats a b c d entries count s :
  header_ok IoRead (rr_header (ReadRequest_new key)) /\ header_ok IoRead (rs_header (ReadResponse_new status value))
  /\ header_ok IoPromote (pr_header (PromoteRequest_new key value version ttl))
  /\ header_ok IoPromote (ps_header (PromoteResponse_new status))
  /\ header_ok IoDemote (dr_header (DemoteRequest_new key))
  /\ header_ok IoInvalidate (ir_header (InvalidateRequest_new key version))
  /\ header_ok IoStats (sr_header StatsRequest_new) /\ header_ok IoStats (ss_header (StatsResponse_new status stats))
  /\ header_ok IoConfig (cr_header (ConfigRequest_new a b c d)) /\ header_ok IoFlush (fr_header FlushRequest_new)
  /\ match BatchPromoteRequest_new (S := unit) (E := HkvError) entries count s with
     | (Val r, _) => header_ok IoBatchPromote (bp_header r) /\ bp_count r = count /\ bp_reserved r = 0
         /\ (overflow_checks = true -> count <= 1000)
     | (Panic, _) => overflow_checks = true /\ 1000 < count
     | _ => False
     end
  /\ match BatchPromoteResponse_new (S := unit) (E := HkvError) count s with
     | (Val r, _) => header_ok IoBatchPromote (bs_header r) /\ length (bs_results r) = 125%nat
     | (Panic, _) => overflow_checks = true /\ 1000 < count
     | _ => False
     end.
Proof.
  split_and!; try done; unfold BatchPromoteRequest_new, BatchPromoteResponse_new, debug_assert;
    change (Z.of_nat MAX_BATCH_SIZE) with 1000; destruct (Z.leb_spec count 1000), overflow_checks; cbn; split_and!; try done; lia.
Qed.

(** In the layout of any structure the fields lie in order, each aligned,
    and none overlaps the next ones or the end. *)
Theorem fields_do_not_overlap fs i j oi oj fi fj :
  Forall sized fs -> (i < j)%nat -> fs !! i = Some fi -> fs !! j = Some fj ->
  offset_of fs i = Some oi -> offset_of fs j = Some oj ->
  0 <= oi /\ oi + size_of fi <= oj /\ oi mod align_of fi = 0 /\ oj + size_of fj <= size_of (CStruct fs).
Proof.
  intros Ha Hij Hi Hj Hoi Hoj. unfold offset_of in *. rewrite Hi in Hoi. rewrite Hj in Hoj.
  simpl in Hoi, Hoj. injection Hoi as <-. injection Hoj as <-. change (fun f => (size_of f, align_of f)) with extent.
  assert (Hext : forall l, Forall sized l -> Forall (fun '(s, a) => 0 <= s /\ 0 < a) (map extent l)).
  { intros l Hl. apply Forall_map. exact Hl. }
  assert (Hai : 0 < align_of fi) by (eapply Forall_lookup_1 in Ha; [|exact Hi]; apply Ha).
  assert (Haj : 0 < align_of fj) by (eapply Forall_lookup_1 in Ha; [|exact Hj]; apply Ha).
  assert (Hmid : forall k (l : list ctype) (f : ctype), l !! k = Some f -> l = take k l ++ f :: drop (S k) l) by (intros; by rewrite take_drop_middle).
  assert (Hplace : forall (l : list ctype) f o, place (map extent (f :: l)) o = place (map extent l) (align_up o (align_of f) + size_of f)) by done.
  split_and!.
  - pose proof (place_mono (map extent (take i fs)) 0 (Hext _ (Forall_take _ _ _ Ha))).
    pose proof (align_up_spec (place (map extent (take i fs)) 0) (align_of fi) Hai) as [[? _] _]. lia.
  - rewrite (Hmid i (take j fs) fi) by (by rewrite lookup_take_lt by lia). rewrite take_take, Nat.min_l by lia.
    rewrite map_app, place_app, Hplace.
    pose proof (place_mono (map extent (drop (S i) (take j fs))) (align_up (place (map extent (take i fs)) 0) (align_of fi) + size_of fi)
      (Hext _ (Forall_drop _ _ _ (Forall_take _ _ _ Ha)))).
    pose proof (align_up_spec (place (map extent (drop (S i) (take j fs)))
      (align_up (place (map extent (take i fs)) 0) (align_of fi) + size_of fi)) (align_of fj) Haj) as [[? _] _]. lia.
  - pose proof (align_up_spec (place (map extent (take i fs)) 0) (align_of fi) Hai) as [_ [q ->]]. apply Z_mod_mult.
  - cbn [size_of]. change (fun f => (size_of f, align_of f)) with extent. rewrite (Hmid j fs fj Hj) at 2.
    rewrite map_app, place_app, Hplace.
    pose proof (place_mono (map extent (drop (S j) fs)) (align_up (place (map extent (take j fs)) 0) (align_of fj) + size_of fj)
      (Hext _ (Forall_drop _ _ _ Ha))).
    assert (Hs : 0 < align_of (CStruct fs)) by (simpl; clear; induction fs; simpl; lia).
    pose proof (align_up_spec (place (map extent (drop (S j) fs)) (align_up (place (map extent (take j fs)) 0) (align_of fj) + size_of fj))
      (align_of (CStruct fs)) Hs) as [[? _] _]. lia.
Qed.

Lemma fields_do_not_overlap_witness :
  0 <= 258 /\ 258 + size_of value_t <= 1288 /\ 258 mod align_of value_t = 0
  /\ 1288 + size_of metadata_t <= size_of (CStruct entry_fields).
Proof.
  apply (fields_do_not_overlap entry_fields 1 2); try reflexivity.
  - repeat constructor; vm_compute; congruence.
  - lia.
Defined.
