(* ===== verification/RustStr.v ===== *)
(** * Rust strings

    A [str] is its UTF-8 bytes. What the GUI back end (hkv-gui/src-tauri/src) uses
    of the standard library's string methods: trimming, splitting, searching,
    parsing of integers, and checking UTF-8. *)

From S2P Require Import Prelude Decimal.

(** ** White space

    The characters with the White_Space property, by the length of their
    encoding: TAB to CR and the space; U+0085 and U+00A0; U+1680, U+2000 to
    U+200A, U+2028, U+2029, U+202F, U+205F and U+3000. *)
Definition ws1 (b : byte) : bool :=
  ((9 <=? byte_val b)%Z && (byte_val b <=? 13)%Z) || (byte_val b =? 32)%Z.

Definition ws2 (b c : byte) : bool :=
  (byte_val b =? 194)%Z && ((byte_val c =? 133)%Z || (byte_val c =? 160)%Z).

Definition ws3 (b c d : byte) : bool :=
  match byte_val b, byte_val c with
  | 225, 154 => (byte_val d =? 128)%Z
  | 226, 128 => ((128 <=? byte_val d)%Z && (byte_val d <=? 138)%Z)
                || (byte_val d =? 168)%Z || (byte_val d =? 169)%Z || (byte_val d =? 175)%Z
  | 226, 129 => (byte_val d =? 159)%Z
  | 227, 128 => (byte_val d =? 128)%Z
  | _, _ => false
  end%Z.

Fixpoint trim_start (s : bytes) : bytes :=
  match s with
  | [] => []
  | b :: s1 =>
      if ws1 b then trim_start s1
      else match s1 with
           | [] => s
           | c :: s2 =>
               if ws2 b c then trim_start s2
               else match s2 with
                    | [] => s
                    | d :: s3 => if ws3 b c d then trim_start s3 else s
                    end
           end
  end.

(** [trim_end] of the string whose bytes are given last one first. *)
Fixpoint trim_end_rev (s : bytes) : bytes :=
  match s with
  | [] => []
  | d :: s1 =>
      if ws1 d then trim_end_rev s1
      else match s1 with
           | [] => s
           | c :: s2 =>
               if ws2 c d then trim_end_rev s2
               else match s2 with
                    | [] => s
                    | b :: s3 => if ws3 b c d then trim_end_rev s3 else s
                    end
           end
  end.

Definition trim_end (s : bytes) : bytes := rev (trim_end_rev (rev s)).
Definition trim (s : bytes) : bytes := trim_end (trim_start s).

(** [trim_matches(c)]. *)
Fixpoint trim_byte_start (c : byte) (s : bytes) : bytes :=
  match s with b :: s' => if bool_decide (b = c) then trim_byte_start c s' else s | [] => [] end.
Definition trim_matches (c : byte) (s : bytes) : bytes :=
  rev (trim_byte_start c (rev (trim_byte_start c s))).

(** ** Splitting *)

(** [lines]: cut after every line feed; the line end, LF or CR LF, is dropped;
    no last line when the string ends in a line feed. *)
Fixpoint lines (s : bytes) : list bytes :=
  match s with
  | [] => []
  | b :: s' =>
      if bool_decide (b = LF) then [] :: lines s'
      else if bool_decide (b = CR /\ head s' = Some LF) then lines s'
      else match lines s' with l :: ls => (b :: l) :: ls | [] => [[b]] end
  end.

(** [split_once(c)]. *)
Fixpoint split_once (c : byte) (s : bytes) : option (bytes * bytes) :=
  match s with
  | [] => None
  | b :: s' =>
      if bool_decide (b = c) then Some ([], s')
      else (fun '(l, r) => (b :: l, r)) <$> split_once c s'
  end.

Definition push_word (cur : bytes) (words : list bytes) : list bytes :=
  if bool_decide (cur = []) then words else rev cur :: words.

(** [split_whitespace], with the word being read, last byte first. *)
Fixpoint words_from (cur s : bytes) : list bytes :=
  match s with
  | [] => push_word cur []
  | b :: s1 =>
      if ws1 b then push_word cur (words_from [] s1)
      else match s1 with
           | [] => words_from (b :: cur) s1
           | c :: s2 =>
               if ws2 b c then push_word cur (words_from [] s2)
               else match s2 with
                    | [] => words_from (b :: cur) s1
                    | d :: s3 => if ws3 b c d then push_word cur (words_from [] s3)
                                 else words_from (b :: cur) s1
                    end
           end
  end.
Definition split_whitespace (s : bytes) : list bytes := words_from [] s.

(** ** Searching *)

Fixpoint strip_prefix (p s : bytes) : option bytes :=
  match p, s with
  | [], _ => Some s
  | a :: p', b :: s' => if bool_decide (a = b) then strip_prefix p' s' else None
  | _, [] => None
  end.

Definition starts_with (p s : bytes) : bool := bool_decide (is_Some (strip_prefix p s)).

Fixpoint contains (sub s : bytes) : bool :=
  starts_with sub s || match s with [] => false | _ :: s' => contains sub s' end.

(** [replace(chars, " ")], for ASCII characters. *)
Definition replace_bytes (cs : list byte) (with_ : byte) (s : bytes) : bytes :=
  map (fun b => if bool_decide (b ∈ cs) then with_ else b) s.

(** ** Integers *)

(** [ParseIntError], as it prints. *)
Definition int_empty : bytes := lit "cannot parse integer from empty string".
Definition int_invalid : bytes := lit "invalid digit found in string".
Definition int_overflow : bytes := lit "number too large to fit in target type".

Fixpoint parse_uint_loop (max value : Z) (s : bytes) : result Z bytes :=
  match s with
  | [] => Ok value
  | b :: s' =>
      if negb (is_ascii_digit b) then Error int_invalid
      else if (max <? value * 10)%Z then Error int_overflow
      else if (max <? value * 10 + (byte_val b - 48))%Z then Error int_overflow
      else parse_uint_loop max (value * 10 + (byte_val b - 48)) s'
  end.

(** [str::parse] into an unsigned type with the largest value [max]. *)
Definition parse_uint (max : Z) (s : bytes) : result Z bytes :=
  match s with
  | [] => Error int_empty
  | [b] => if bool_decide (b = Byte.x2b \/ b = Byte.x2d) then Error int_invalid else parse_uint_loop max 0 s
  | b :: s' => if bool_decide (b = Byte.x2b) then parse_uint_loop max 0 s' else parse_uint_loop max 0 s
  end.

(** [to_string] of a [u128]. *)
Definition dec_u128 (n : Z) : bytes :=
  if (n <=? 0)%Z then [digit_byte 0] else rev (default [] (digits_rev 39 n)).

Definition u16_max : Z := 2 ^ 16 - 1.
Definition u32_max : Z := 2 ^ 32 - 1.

(** ** UTF-8 *)

(** [Utf8Error]: the end of the valid prefix, and the length of the bad
    sequence unless the string ends inside one. *)
Record Utf8Error := mkUtf8 { valid_up_to : nat; error_len : option nat }.

Definition cont (b : byte) : bool := ((128 <=? byte_val b)%Z && (byte_val b <=? 191)%Z).

(** The second bytes a lead byte allows, and the length it announces. *)
Definition lead (b : byte) : option (nat * (byte -> bool)) :=
  let v := byte_val b in
  let between l h := fun c => ((l <=? byte_val c)%Z && (byte_val c <=? h)%Z) in
  if ((194 <=? v) && (v <=? 223))%Z then Some (2, cont)
  else if (v =? 224)%Z then Some (3, between 160%Z 191%Z)
  else if (v =? 237)%Z then Some (3, between 128%Z 159%Z)
  else if ((225 <=? v) && (v <=? 239))%Z then Some (3, cont)
  else if (v =? 240)%Z then Some (4, between 144%Z 191%Z)
  else if (v =? 244)%Z then Some (4, between 128%Z 143%Z)
  else if ((241 <=? v) && (v <=? 243))%Z then Some (4, cont)
  else None.

Fixpoint utf8_check (at_ : nat) (s : bytes) : option Utf8Error :=
  match s with
  | [] => None
  | b :: s1 =>
      if (byte_val b <? 128)%Z then utf8_check (S at_) s1
      else match lead b with
           | None => Some (mkUtf8 at_ (Some 1))
           | Some (width, second) =>
               match s1 with
               | [] => Some (mkUtf8 at_ None)
               | c :: s2 =>
                   if negb (second c) then Some (mkUtf8 at_ (Some 1))
                   else if width =? 2 then utf8_check (2 + at_) s2
                   else match s2 with
                        | [] => Some (mkUtf8 at_ None)
                        | d :: s3 =>
                            if negb (cont d) then Some (mkUtf8 at_ (Some 2))
                            else if width =? 3 then utf8_check (3 + at_) s3
                            else match s3 with
                                 | [] => Some (mkUtf8 at_ None)
                                 | e :: s4 => if negb (cont e) then Some (mkUtf8 at_ (Some 3))
                                              else utf8_check (4 + at_) s4
                                 end
                        end
               end
           end
  end.

Definition valid_utf8 (s : bytes) : bool := bool_decide (utf8_check 0 s = None).

(** [Display for Utf8Error]. *)
Definition show_utf8_error (e : Utf8Error) : bytes :=
  match error_len e with
  | Some n => lit "invalid utf-8 sequence of " ++ dec_nonneg (Z.of_nat n) ++ lit " bytes from index "
              ++ dec_nonneg (Z.of_nat (valid_up_to e))
  | None => lit "incomplete utf-8 byte sequence from index " ++ dec_nonneg (Z.of_nat (valid_up_to e))
  end.

(** [String::from_utf8]. *)
Definition from_utf8 (s : bytes) : result bytes Utf8Error :=
  match utf8_check 0 s with None => Ok s | Some e => Error e end.

(** [String::from_utf8_lossy]: each bad sequence becomes U+FFFD. *)
Definition replacement : bytes := [Byte.xef; Byte.xbf; Byte.xbd].
Fixpoint lossy (fuel : nat) (s : bytes) : bytes :=
  match fuel with
  | O => []
  | S fuel' =>
      match utf8_check 0 s with
      | None => s
      | Some e => take (valid_up_to e) s ++ replacement
                  ++ match error_len e with
                     | Some n => lossy fuel' (drop (valid_up_to e + n) s)
                     | None => []
                     end
      end
  end.
Definition from_utf8_lossy (s : bytes) : bytes := lossy (S (length s)) s.

(** ** Lemmas *)

Lemma split_once_Some c s l r : split_once c s = Some (l, r) <-> s = l ++ c :: r /\ c ∉ l.
Proof.
  revert l r. induction s as [|b s IH]; intros l r; simpl.
  { split; [done|]. by intros [H _]; destruct l. }
  case_bool_decide as Hb; [subst b|].
  - split; [by intros [= <- <-]; split; [|set_solver]|].
    intros [H Hc]. destruct l as [|b l]; simplify_eq/=; [done|]. set_solver.
  - split.
    + destruct (split_once c s) as [[l' r']|]; [|done]. intros [= <- <-].
      destruct (proj1 (IH l' r') eq_refl) as [-> Hc]. split; [done|]. set_solver.
    + intros [H Hc]. destruct l as [|b' l]; simplify_eq/=.
      rewrite (proj2 (IH l r)); [done|]. split; [done|set_solver].
Qed.

Lemma split_once_None c s : split_once c s = None <-> c ∉ s.
Proof.
  induction s as [|b s IH]; simpl; [set_solver|]. case_bool_decide as Hb; [subst b; set_solver|].
  destruct (split_once c s) as [[l r]|]; simpl in *; [|set_solver].
  split; [done|]. intros Hc. by assert (c ∉ s) as ?%IH by set_solver.
Qed.

(** Integers are read back. *)
Lemma parse_uint_loop_digits max s : forall v, (0 <= v <= max)%Z -> all_digits s = true ->
  parse_uint_loop max v s = if (dec_from v s <=? max)%Z then Ok (dec_from v s) else Error int_overflow.
Proof.
  induction s as [|b s IH]; intros v Hv; simpl.
  { intros _. unfold dec_from. simpl. by rewrite (proj2 (Z.leb_le _ _)) by lia. }
  intros [Hb Hs]%andb_true_iff. rewrite Hb. simpl. pose proof (is_ascii_digit_val b Hb) as Hd. unfold digit_val in Hd.
  pose proof (dec_from_ge (v * 10 + digit_val b) s ltac:(unfold digit_val; lia) Hs) as Hge.
  change (dec_from v (b :: s)) with (dec_from (v * 10 + digit_val b) s). unfold digit_val in *.
  destruct (Z.ltb_spec max (v * 10)); [by rewrite (proj2 (Z.leb_gt _ _)) by lia|].
  destruct (Z.ltb_spec max (v * 10 + (byte_val b - 48))); [by rewrite (proj2 (Z.leb_gt _ _)) by lia|].
  apply IH; [lia|done].
Qed.

Lemma parse_uint_digits max s : (0 <= max)%Z -> s <> [] -> all_digits s = true ->
  parse_uint max s = if (dec_value s <=? max)%Z then Ok (dec_value s) else Error int_overflow.
Proof.
  intros Hm Hne Hd. unfold dec_value. rewrite <- (parse_uint_loop_digits max s 0) by (done || lia).
  destruct s as [|b s]; [done|]. pose proof Hd as Hd2. simpl in Hd2. apply andb_true_iff in Hd2 as [Hb _].
  assert (b <> Byte.x2b /\ b <> Byte.x2d) as [H1 H2] by (split; intros ->; done).
  unfold parse_uint. destruct s; rewrite bool_decide_false by (try done; intros [?|?]; done); done.
Qed.

Lemma parse_uint_dec max n : (0 <= n <= max)%Z -> (n < 10 ^ 20)%Z -> parse_uint max (dec_nonneg n) = Ok n.
Proof.
  intros Hn Hb. destruct (dec_nonneg_spec n ltac:(lia)) as (Hd & Hv & Hne).
  rewrite parse_uint_digits by (done || lia). by rewrite Hv, (proj2 (Z.leb_le _ _)) by lia.
Qed.

(** ASCII bytes: valid UTF-8, and none of them is white space but the six. *)
Definition ascii (b : byte) : Prop := (byte_val b < 128)%Z.
#[global] Instance ascii_dec b : Decision (ascii b).
Proof. unfold ascii. apply _. Defined.

Lemma utf8_ascii s : forall n, Forall ascii s -> utf8_check n s = None.
Proof.
  induction s as [|b s IH]; intros n; simpl; [done|]. intros [Hb Hs]%Forall_cons.
  rewrite (proj2 (Z.ltb_lt _ _)) by done. by apply IH.
Qed.

Lemma ascii_ws2 b c : ascii b -> ws2 b c = false.
Proof. unfold ascii, ws2. intros Hb. by rewrite (proj2 (Z.eqb_neq _ _)) by lia. Qed.
Lemma ascii_ws3 b c d : ascii b -> ws3 b c d = false.
Proof.
  unfold ascii, ws3. pose proof (byte_val_range b). intros Hb.
  destruct (byte_val b) as [|p|p]; [done| |lia]. repeat (destruct p as [p|p|]; try done; try lia).
Qed.

(** ** Small cases *)

Example lines_mixed : lines (lit "a" ++ crlf ++ lit "b" ++ [LF; LF] ++ lit "c" ++ [CR])
  = [lit "a"; lit "b"; []; lit "c" ++ [CR]].
Proof. reflexivity. Qed.
Example trim_nbsp : trim ([Byte.xc2; Byte.xa0] ++ lit " x y" ++ [Byte.xe2; Byte.x80; Byte.x83; CR]) = lit "x y".
Proof. reflexivity. Qed.
Example words_mixed : split_whitespace (lit "  a bc" ++ [Byte.xe3; Byte.x80; Byte.x80] ++ lit "d ") = [lit "a"; lit "bc"; lit "d"].
Proof. reflexivity. Qed.
Example parse_uint_cases : map (fun s => parse_uint u16_max (lit s)) ["+6380"; "65535"; "65536"; ""; "-1"; "+"; "99999x"]%string
  = [Ok 6380; Ok 65535; Error int_overflow; Error int_empty; Error int_invalid; Error int_invalid; Error int_overflow]%Z.
Proof. reflexivity. Qed.
Example utf8_cases : map (utf8_check 0) [lit "ok"; [Byte.xe2; Byte.x82]; [Byte.x61; Byte.xff]; [Byte.xed; Byte.xa0; Byte.x80]]
  = [None; Some (mkUtf8 0 None); Some (mkUtf8 1 (Some 1)); Some (mkUtf8 0 (Some 1))].
Proof. reflexivity. Qed.
Example lossy_case : from_utf8_lossy (lit "a" ++ [Byte.xff] ++ lit "b") = lit "a" ++ replacement ++ lit "b".
Proof. reflexivity. Qed.
