(* ===== verification/GuiModels.v ===== *)
(** * Data of the GUI back end (hkv-gui/src-tauri/src/models.rs)

    The records the commands and the event channels carry. Their JSON form is
    serde's; run_repository.rs is verified against the class in RunRepository.v. *)

From S2P Require Import Prelude F64 RustStr.

Definition BENCHMARK_EVENT_CHANNEL : bytes := lit "benchmark:lifecycle".

(** ** Requests *)

Record BenchmarkRunRequest := mkRequest {
  rq_runner : bytes;
  rq_target_addr : bytes;
  rq_clients : Z;
  rq_requests : Z;
  rq_data_size : Z;
  rq_pipeline : Z
}.

#[global] Instance BenchmarkRunRequest_eq_dec : EqDecision BenchmarkRunRequest.
Proof. solve_decision. Defined.

Definition validate (self : BenchmarkRunRequest) : result unit bytes :=
  if bool_decide (trim (rq_runner self) = []) then Error (lit "runner must not be empty")
  else if bool_decide (trim (rq_target_addr self) = []) || negb (contains (lit ":") (rq_target_addr self))
  then Error (lit "target_addr must use host:port format")
  else if ((rq_clients self =? 0) || (rq_requests self =? 0) || (rq_data_size self =? 0)
           || (rq_pipeline self =? 0))%Z
  then Error (lit "clients, requests, data_size, and pipeline must be greater than zero")
  else Ok tt.

Record StartServerRequest := mkStartServer { ss_address : bytes; ss_port : Z }.

(** ** Results and runs *)

Record BenchmarkResult := mkResult {
  br_total_requests : Z;
  br_throughput_ops_per_sec : f64;
  br_average_latency_ms : f64;
  br_p50_latency_ms : f64;
  br_p95_latency_ms : f64;
  br_p99_latency_ms : f64;
  br_duration_ms : Z;
  br_dataset_bytes : Z
}.

(** The derived [PartialEq]: not reflexive on NaN. *)
Definition result_eqb (a b : BenchmarkResult) : bool :=
  (br_total_requests a =? br_total_requests b)%Z
  && f64_eqb (br_throughput_ops_per_sec a) (br_throughput_ops_per_sec b)
  && f64_eqb (br_average_latency_ms a) (br_average_latency_ms b)
  && f64_eqb (br_p50_latency_ms a) (br_p50_latency_ms b)
  && f64_eqb (br_p95_latency_ms a) (br_p95_latency_ms b)
  && f64_eqb (br_p99_latency_ms a) (br_p99_latency_ms b)
  && (br_duration_ms a =? br_duration_ms b)%Z
  && (br_dataset_bytes a =? br_dataset_bytes b)%Z.

Record BenchmarkRun := mkRun {
  run_id : bytes;
  run_request : BenchmarkRunRequest;
  run_status : bytes;
  run_created_at : bytes;
  run_started_at : option bytes;
  run_finished_at : option bytes;
  run_result : option BenchmarkResult;
  run_error_message : option bytes
}.

Definition option_eqb {A} (eqb : A -> A -> bool) (a b : option A) : bool :=
  match a, b with Some x, Some y => eqb x y | None, None => true | _, _ => false end.

Definition run_eqb (a b : BenchmarkRun) : bool :=
  bool_decide (run_id a = run_id b) && bool_decide (run_request a = run_request b)
  && bool_decide (run_status a = run_status b) && bool_decide (run_created_at a = run_created_at b)
  && bool_decide (run_started_at a = run_started_at b) && bool_decide (run_finished_at a = run_finished_at b)
  && option_eqb result_eqb (run_result a) (run_result b)
  && bool_decide (run_error_message a = run_error_message b).

(** Field updates. *)
Definition with_status (st : bytes) (r : BenchmarkRun) : BenchmarkRun :=
  mkRun (run_id r) (run_request r) st (run_created_at r) (run_started_at r) (run_finished_at r) (run_result r)
    (run_error_message r).
Definition with_started_at (t : option bytes) (r : BenchmarkRun) : BenchmarkRun :=
  mkRun (run_id r) (run_request r) (run_status r) (run_created_at r) t (run_finished_at r) (run_result r)
    (run_error_message r).
Definition with_finished_at (t : option bytes) (r : BenchmarkRun) : BenchmarkRun :=
  mkRun (run_id r) (run_request r) (run_status r) (run_created_at r) (run_started_at r) t (run_result r)
    (run_error_message r).
Definition with_result (x : option BenchmarkResult) (r : BenchmarkRun) : BenchmarkRun :=
  mkRun (run_id r) (run_request r) (run_status r) (run_created_at r) (run_started_at r) (run_finished_at r) x
    (run_error_message r).
Definition with_error_message (e : option bytes) (r : BenchmarkRun) : BenchmarkRun :=
  mkRun (run_id r) (run_request r) (run_status r) (run_created_at r) (run_started_at r) (run_finished_at r)
    (run_result r) e.

Record NormalizedRunSummary := mkSummary {
  sm_id : bytes;
  sm_runner : bytes;
  sm_status : bytes;
  sm_target_addr : bytes;
  sm_created_at : bytes;
  sm_finished_at : option bytes;
  sm_throughput_ops_per_sec : option f64;
  sm_p95_latency_ms : option f64
}.

(** ** Server status and metrics *)

Record ServerStatus := mkStatus {
  st_state : bytes;
  st_address : bytes;
  st_pid : option Z;
  st_started_at : option bytes;
  st_last_error : option bytes
}.

Record InfoSnapshot := mkInfo {
  is_captured_at : bytes;
  is_role : bytes;
  is_connected_clients : Z;
  is_used_memory : Z;
  is_total_commands_processed : Z;
  is_instantaneous_ops_per_sec : Z;
  is_keyspace_hits : Z;
  is_keyspace_misses : Z;
  is_uptime_seconds : Z
}.

(** ** Events *)

Record BenchmarkEventEnvelope := mkEnvelope {
  ee_channel : bytes;
  ee_event : bytes;
  ee_run_id : bytes;
  ee_emitted_at : bytes;
  ee_message : option bytes;
  ee_error : option bytes
}.

(** ** What [validate] accepts *)

Lemma validate_ok q : validate q = Ok tt <->
  trim (rq_runner q) <> [] /\ trim (rq_target_addr q) <> [] /\ contains (lit ":") (rq_target_addr q) = true
  /\ (rq_clients q <> 0 /\ rq_requests q <> 0 /\ rq_data_size q <> 0 /\ rq_pipeline q <> 0)%Z.
Proof.
  unfold validate. case_bool_decide as H1; [naive_solver|].
  case_bool_decide as H2; simpl; [naive_solver|].
  destruct (contains _ _) eqn:H3; simpl; [|naive_solver].
  rewrite <- !Z.eqb_neq.
  destruct (rq_clients q =? 0)%Z, (rq_requests q =? 0)%Z, (rq_data_size q =? 0)%Z, (rq_pipeline q =? 0)%Z;
    simpl; naive_solver.
Qed.
