(* ===== verification/RedisBenchmark.v ===== *)
(** * The redis-benchmark runner (hkv-gui/src-tauri/src/runners)

    runners/mod.rs: the lifecycle events, the runner interface and the choice of
    a runner. runners/redis_benchmark.rs: the command line, the parser of the
    output, and the threads of a run: the observer that waits for the process,
    the two readers of its pipes, and the callers of [stop]. A [Path] is a Unix
    path. *)

From S2P Require Import Prelude Decimal F64 RespParser RustStr GuiModels.

(** ** The interface (runners/mod.rs) *)

Inductive BenchmarkLifecycleEvent : Type :=
| Started
| Progress (message : bytes)
| Completed (res : BenchmarkResult)
| Failed (message : bytes)
| Cancelled.

Record RunnerError := mkRunnerError { er_code : bytes; er_message : bytes }.

#[global] Instance RunnerError_eq_dec : EqDecision RunnerError.
Proof. solve_decision. Defined.

(** A runner: what it is called, and how it starts a run. [W] is the world the
    runner acts on, [H] its handles. *)
Record BenchmarkRunner (W H : Type) := mkRunner {
  runner_type : bytes;
  runner_start : BenchmarkRunRequest -> W -> result H RunnerError * W
}.
Arguments mkRunner {W H}. Arguments runner_type {W H}. Arguments runner_start {W H}.

Definition SLASH : byte := Byte.x2f.
Definition COLON : byte := Byte.x3a.
Definition COMMA : byte := Byte.x2c.
Definition QUOTE : byte := Byte.x22.
Definition SPACE : byte := Byte.x20.

(** [Path::file_name]: the last component, when it is neither the root nor [..].
    Empty and [.] components do not count. *)
Definition path_file_name (path : bytes) : option bytes :=
  match last (filter (fun c => c <> [] /\ c <> lit ".") (split_on SLASH path)) with
  | Some name => if bool_decide (name = lit "..") then None else Some name
  | None => None
  end.

Definition normalize_runner_type (ty : bytes) : bytes :=
  let file_name := default ty (path_file_name ty) in
  if eq_ignore_case file_name (lit "redis-benchmark") || eq_ignore_case file_name (lit "redis-benchmark.exe")
  then lit "redis-benchmark" else ty.

Definition select_runner {W H} (runners : list (BenchmarkRunner W H)) (ty : bytes)
    : result (BenchmarkRunner W H) RunnerError :=
  let normalized := normalize_runner_type ty in
  match list_find (fun r => runner_type r = normalized) runners with
  | Some (_, r) => Ok r
  | None => Error (mkRunnerError (lit "unsupported_runner") (lit "runner '" ++ ty ++ lit "' is not supported"))
  end.

(** ** The command line *)

Abbreviation RE A := (result A RunnerError).

Definition invalid_request {A} (message : bytes) : RE A := Error (mkRunnerError (lit "invalid_request") message).
Definition parse_failed {A} (message : bytes) : RE A := Error (mkRunnerError (lit "parse_failed") message).

(** The [?] of a [Result]. *)
Definition rbind {A B E} (m : result A E) (k : A -> result B E) : result B E :=
  match m with Ok a => k a | Error e => Error e end.

Definition split_target_addr (target_addr : bytes) : RE (bytes * Z)%type :=
  match split_once COLON target_addr with
  | None => invalid_request (lit "target address '" ++ target_addr ++ lit "' must use host:port format")
  | Some (host, port) =>
      if bool_decide (host = []) then invalid_request (lit "target host must not be empty")
      else match parse_uint u16_max port with
           | Ok port => Ok (host, port)
           | Error _ => invalid_request (lit "target address '" ++ target_addr ++ lit "' has an invalid port")
           end
  end.

Definition validate_request (request : BenchmarkRunRequest) : RE unit :=
  if ((rq_clients request =? 0) || (rq_requests request =? 0) || (rq_data_size request =? 0)
      || (rq_pipeline request =? 0))%Z
  then invalid_request (lit "clients, requests, data_size, and pipeline must be greater than zero")
  else rbind (split_target_addr (rq_target_addr request)) (fun _ => Ok tt).

Definition build_command (request : BenchmarkRunRequest) : RE (list bytes) :=
  rbind (validate_request request) (fun _ =>
  rbind (split_target_addr (rq_target_addr request)) (fun '(host, port) =>
  Ok [lit "-h"; host; lit "-p"; dec_nonneg port; lit "-c"; dec_nonneg (rq_clients request);
      lit "-n"; dec_nonneg (rq_requests request); lit "-d"; dec_nonneg (rq_data_size request);
      lit "-P"; dec_nonneg (rq_pipeline request); lit "--csv"])).

(** ** The output *)

Definition parse_csv_number (segment : bytes) : RE f64 :=
  match parse_f64 (trim_matches QUOTE segment) with
  | Ok x => Ok x
  | Error _ => parse_failed (lit "failed to parse redis-benchmark throughput from '" ++ segment ++ lit "'")
  end.

Definition parse_key_value_segment (line key : bytes) : RE bytes :=
  match omap (strip_prefix (key ++ lit "=")) (split_whitespace (replace_bytes [COMMA; QUOTE] SPACE line)) with
  | value :: _ => Ok value
  | [] => parse_failed (lit "missing " ++ key ++ lit " in '" ++ line ++ lit "'")
  end.

Definition parse_key_value {A} (parse : bytes -> result A bytes) (line key : bytes) : RE A :=
  rbind (parse_key_value_segment line key) (fun value =>
  match parse value with
  | Ok x => Ok x
  | Error _ => parse_failed (lit "failed to parse " ++ key ++ lit " from '" ++ line ++ lit "'")
  end).
Definition parse_key_value_number : bytes -> bytes -> RE f64 := parse_key_value parse_f64.
Definition parse_key_value_u64 : bytes -> bytes -> RE Z := parse_key_value (parse_uint u64_max).

(** The eight variables of [parse_output]. *)
Record Figures := mkFigures {
  fg_throughput : option f64;
  fg_total_requests : option Z;
  fg_dataset_bytes : option Z;
  fg_duration_ms : option Z;
  fg_average : option f64;
  fg_p50 : option f64;
  fg_p95 : option f64;
  fg_p99 : option f64
}.
Definition no_figures : Figures := mkFigures None None None None None None None None.

Definition parse_throughput (line : bytes) (f : Figures) : RE Figures :=
  if starts_with [QUOTE] line && contains (lit "PING_INLINE") line then
    match split_on COMMA line with
    | _ :: segment :: _ =>
        rbind (parse_csv_number segment) (fun x =>
        Ok (mkFigures (Some x) (fg_total_requests f) (fg_dataset_bytes f) (fg_duration_ms f) (fg_average f)
              (fg_p50 f) (fg_p95 f) (fg_p99 f)))
    | _ => Ok f
    end
  else Ok f.

Definition parse_latency (line : bytes) (f : Figures) : RE Figures :=
  if contains (lit "latency summary") line then
    rbind (parse_key_value_number line (lit "p50")) (fun p50 =>
    rbind (parse_key_value_number line (lit "p95")) (fun p95 =>
    rbind (parse_key_value_number line (lit "p99")) (fun p99 =>
    Ok (mkFigures (fg_throughput f) (fg_total_requests f) (fg_dataset_bytes f) (fg_duration_ms f) (fg_average f)
          (Some p50) (Some p95) (Some p99)))))
  else Ok f.

Definition parse_requests (line : bytes) (f : Figures) : RE Figures :=
  if contains (lit "requests summary") line then
    rbind (parse_key_value_u64 line (lit "requests")) (fun total =>
    rbind (parse_key_value_u64 line (lit "bytes")) (fun dataset =>
    rbind (parse_key_value_u64 line (lit "duration_ms")) (fun duration =>
    rbind (parse_key_value_number line (lit "avg_ms")) (fun average =>
    Ok (mkFigures (fg_throughput f) (Some total) (Some dataset) (Some duration) (Some average)
          (fg_p50 f) (fg_p95 f) (fg_p99 f))))))
  else Ok f.

Definition parse_line (raw_line : bytes) (f : Figures) : RE Figures :=
  let line := trim raw_line in
  if bool_decide (line = []) then Ok f
  else rbind (parse_throughput line f) (fun f => rbind (parse_latency line f) (parse_requests line)).

Fixpoint parse_lines (ls : list bytes) (f : Figures) : RE Figures :=
  match ls with [] => Ok f | l :: ls' => rbind (parse_line l f) (parse_lines ls') end.

Definition parse_output (stdout stderr : bytes) : RE BenchmarkResult :=
  rbind (parse_lines (lines stdout) no_figures) (fun f =>
  match f with
  | mkFigures (Some throughput) (Some total) (Some dataset) (Some duration) (Some average) (Some p50) (Some p95)
      (Some p99) => Ok (mkResult total throughput average p50 p95 p99 duration dataset)
  | _ => parse_failed (lit "failed to parse redis-benchmark output: " ++ stderr)
  end).

(** ** Reading a pipe *)

(** [BufRead::read_line] until the end: cut after every line feed. *)
Fixpoint split_inclusive (s : bytes) : list bytes :=
  match s with
  | [] => []
  | b :: s' =>
      if bool_decide (b = LF) then [b] :: split_inclusive s'
      else match split_inclusive s' with l :: ls => (b :: l) :: ls | [] => [[b]] end
  end.

(** [read_stream] on a pipe that yields [data]: [read_to_string] leaves the
    buffer empty when the data is not UTF-8. The lines it sends, and the buffer. *)
Definition read_stream (data : bytes) : list bytes * bytes :=
  let buffer := if valid_utf8 data then data else [] in
  (filter (fun l => l <> []) (trim <$> split_inclusive buffer), buffer).

(** ** The command line carries the request *)

Lemma rbind_Ok {A B E} (m : result A E) (k : A -> result B E) b :
  rbind m k = Ok b <-> exists a, m = Ok a /\ k a = Ok b.
Proof. destruct m; simpl; naive_solver. Qed.

Lemma split_target_addr_Ok addr host port : split_target_addr addr = Ok (host, port) <->
  exists ptext, addr = host ++ COLON :: ptext /\ (COLON ∉ host) /\ host <> [] /\ parse_uint u16_max ptext = Ok port.
Proof.
  unfold split_target_addr. destruct (split_once COLON addr) as [[h p]|] eqn:E.
  - apply split_once_Some in E as [-> Hc]. split.
    + case_bool_decide; [done|]. destruct (parse_uint u16_max p) eqn:Ep; [|done]. intros [= <- <-]. eauto 10.
    + intros (pt & Heq & Hc2 & Hne & Hp).
      assert (h = host /\ p = pt) as [-> ->].
      { assert (Some (h, p) = Some (host, pt)) as [= -> ->]; [|done].
        rewrite <- (proj2 (split_once_Some COLON (h ++ COLON :: p) h p)) by done.
        by apply split_once_Some. }
      by rewrite bool_decide_false, Hp by done.
  - apply split_once_None in E. split; [done|]. intros (pt & -> & _). set_solver.
Qed.

Definition counts_positive (q : BenchmarkRunRequest) : Prop :=
  (rq_clients q <> 0 /\ rq_requests q <> 0 /\ rq_data_size q <> 0 /\ rq_pipeline q <> 0)%Z.

Lemma validate_request_Ok q : validate_request q = Ok tt <->
  counts_positive q /\ exists host port, split_target_addr (rq_target_addr q) = Ok (host, port).
Proof.
  unfold validate_request, counts_positive, invalid_request. rewrite <- !Z.eqb_neq.
  destruct (rq_clients q =? 0)%Z, (rq_requests q =? 0)%Z, (rq_data_size q =? 0)%Z, (rq_pipeline q =? 0)%Z;
    cbn [orb]; try naive_solver.
  destruct (split_target_addr _) as [[h p]|]; simpl; naive_solver.
Qed.

(** The request a command line stands for, as redis-benchmark reads its options. *)
Definition read_command (runner : bytes) (args : list bytes) : option BenchmarkRunRequest :=
  match args with
  | [h; host; p; port; c; clients; n; requests; d; size; P; pipeline; csv] =>
      if bool_decide ([h; p; c; n; d; P; csv] = lit <$> ["-h"; "-p"; "-c"; "-n"; "-d"; "-P"; "--csv"]%string) then
        match parse_uint u32_max clients, parse_uint u64_max requests, parse_uint u32_max size,
              parse_uint u32_max pipeline with
        | Ok clients, Ok requests, Ok size, Ok pipeline =>
            Some (mkRequest runner (host ++ [COLON] ++ port) clients requests size pipeline)
        | _, _, _, _ => None
        end
      else None
  | _ => None
  end.

Definition u32_u64_fields (q : BenchmarkRunRequest) : Prop :=
  (0 <= rq_clients q <= u32_max /\ 0 <= rq_requests q <= u64_max /\ 0 <= rq_data_size q <= u32_max
   /\ 0 <= rq_pipeline q <= u32_max)%Z.

(** A command line is built exactly for the requests with positive counts and an address that is a
    nonempty host without colon, a colon and a 16-bit port; the options of the command line then stand for
    that request, with the port in canonical decimal. *)
Theorem command_carries_request q (Hq : u32_u64_fields q) :
  ((exists args, build_command q = Ok args) <-> counts_positive q /\ exists host ptext port,
      rq_target_addr q = host ++ COLON :: ptext /\ (COLON ∉ host) /\ host <> [] /\ parse_uint u16_max ptext = Ok port)
  /\ forall args host port, build_command q = Ok args -> split_target_addr (rq_target_addr q) = Ok (host, port) ->
       read_command (rq_runner q) args
       = Some (mkRequest (rq_runner q) (host ++ [COLON] ++ dec_nonneg port) (rq_clients q) (rq_requests q)
                 (rq_data_size q) (rq_pipeline q)).
Proof.
  unfold build_command. split.
  - split.
    + intros [args ([] & Hv & _)%rbind_Ok]. apply validate_request_Ok in Hv as [Hc (host & port & Hs)].
      split; [done|]. exists host. apply split_target_addr_Ok in Hs as (pt & Hs). eauto.
    + intros [Hc (host & pt & port & Hs)].
      assert (split_target_addr (rq_target_addr q) = Ok (host, port)) as Es by (apply split_target_addr_Ok; eauto).
      rewrite (proj2 (validate_request_Ok q)) by eauto. simpl. rewrite Es. simpl. eauto.
  - intros args host port ([] & _ & ([h p] & Es & Ha)%rbind_Ok)%rbind_Ok Es2. rewrite Es in Es2.
    injection Es2 as -> ->. injection Ha as <-. destruct Hq as (? & ? & ? & ?).
    unfold read_command. rewrite bool_decide_true by done.
    by rewrite !parse_uint_dec by (unfold u32_max, u64_max, u64_modulus in *; lia).
Qed.

Lemma command_carries_request_witness :
  let q := mkRequest (lit "redis-benchmark") (lit "127.0.0.1:+06379") 50 100000 128 4 in
  build_command q = Ok (lit <$> ["-h"; "127.0.0.1"; "-p"; "6379"; "-c"; "50"; "-n"; "100000"; "-d"; "128"; "-P"; "4"; "--csv"]%string)
  /\ ((exists args, build_command q = Ok args) <-> counts_positive q /\ exists host ptext port,
      rq_target_addr q = host ++ COLON :: ptext /\ (COLON ∉ host) /\ host <> [] /\ parse_uint u16_max ptext = Ok port)
  /\ forall args host port, build_command q = Ok args -> split_target_addr (rq_target_addr q) = Ok (host, port) ->
       read_command (rq_runner q) args
       = Some (mkRequest (rq_runner q) (host ++ [COLON] ++ dec_nonneg port) (rq_clients q) (rq_requests q)
                 (rq_data_size q) (rq_pipeline q)).
Proof.
  intros q. split; [reflexivity|]. apply (command_carries_request q).
  unfold u32_u64_fields, u32_max, u64_max, u64_modulus; cbn; lia.
Defined.

(** ** Key and value pairs are read back *)

Definition separator (b : byte) : Prop := b = COMMA \/ b = QUOTE \/ b = SPACE.
Definition word_byte (b : byte) : Prop := ascii b /\ ws1 b = false /\ b <> COMMA /\ b <> QUOTE.

(** A line: before every word at least one separator, and more at the end. *)
Definition render (words : list (bytes * bytes)) (end_ : bytes) : bytes :=
  concat ((fun '(sep, w) => sep ++ w) <$> words) ++ end_.
Definition well_separated (words : list (bytes * bytes)) : Prop :=
  Forall (fun '(sep, w) => sep <> [] /\ Forall separator sep /\ w <> [] /\ Forall word_byte w) words.

Abbreviation blank := (replace_bytes [COMMA; QUOTE] SPACE).

Lemma blank_separators sep : Forall separator sep -> blank sep = replicate (length sep) SPACE.
Proof.
  induction 1 as [|b sep Hb _ IH]; [done|]. unfold replace_bytes in *. simpl. rewrite IH. f_equal.
  destruct Hb as [->|[->| ->]]; [rewrite bool_decide_true by set_solver|rewrite bool_decide_true by set_solver|]; done.
Qed.

Lemma blank_word w : Forall word_byte w -> blank w = w.
Proof.
  induction 1 as [|b w (_ & _ & H1 & H2) _ IH]; [done|]. unfold replace_bytes in *. simpl. rewrite IH.
  by rewrite bool_decide_false by set_solver.
Qed.

Lemma words_spaces n : forall cur s, words_from cur (replicate (S n) SPACE ++ s) = push_word cur (words_from [] s).
Proof. induction n as [|n IH]; intros cur s; [done|]. change (replicate (S (S n)) SPACE) with (SPACE :: replicate (S n) SPACE).
  simpl. f_equal. apply (IH [] s). Qed.

Lemma words_word w : forall cur s, Forall word_byte w -> words_from cur (w ++ s) = words_from (rev w ++ cur) s.
Proof.
  induction w as [|b w IH]; intros cur s Hw; [done|]. apply Forall_cons in Hw as [(Ha & Hb & _) Hw].
  assert (words_from cur (b :: w ++ s) = words_from (b :: cur) (w ++ s)) as E.
  { simpl. rewrite Hb. destruct (w ++ s) as [|c l]; [done|]. rewrite (ascii_ws2 _ _ Ha).
    destruct l as [|d l]; [done|]. by rewrite (ascii_ws3 _ _ _ Ha). }
  simpl app. rewrite E, IH by done. simpl. by rewrite <- app_assoc.
Qed.

Lemma words_render words end_ : forall cur, well_separated words -> Forall separator end_ ->
  words_from cur (blank (render words end_)) = push_word cur (snd <$> words).
Proof.
  unfold well_separated, render. induction words as [|[sep w] words IH]; intros cur Hw He.
  - simpl. rewrite blank_separators by done. destruct (length end_) as [|n] eqn:E; [done|].
    rewrite <- (app_nil_r (replicate _ _)). apply words_spaces.
  - apply Forall_cons in Hw as [(Hs & Hsep & Hne & Hwd) Hw]. simpl.
    unfold replace_bytes. rewrite <- !app_assoc, !map_app. fold (blank sep). fold (blank w).
    rewrite blank_separators, blank_word by done. destruct sep as [|b sep]; [done|]. simpl length.
    rewrite words_spaces, words_word by done. rewrite app_nil_r. rewrite <- map_app.
    fold (blank (concat ((fun '(sep, w) => sep ++ w) <$> words) ++ end_)). rewrite IH by done.
    unfold push_word at 2. rewrite bool_decide_false; [by rewrite rev_involutive|].
    intros H. apply (f_equal (@length byte)) in H. rewrite length_rev in H. by destruct w.
Qed.

Definition EQUALS : byte := Byte.x3d.

Lemma strip_key k : forall k' v, EQUALS ∉ k -> EQUALS ∉ k' ->
  strip_prefix (k ++ [EQUALS]) (k' ++ EQUALS :: v) = if decide (k' = k) then Some v else None.
Proof.
  induction k as [|a k IH]; intros [|b k'] v Hk Hk'; simpl.
  - done.
  - rewrite bool_decide_false by set_solver. done.
  - rewrite bool_decide_false by set_solver. done.
  - case_bool_decide as Hab; [subst b|].
    + rewrite IH by set_solver. destruct (decide (k' = k)) as [->|Hne].
      * by rewrite decide_True.
      * rewrite decide_False by congruence. done.
    + rewrite decide_False by congruence. done.
Qed.

Definition pair_word (kv : bytes * bytes) : bytes := fst kv ++ EQUALS :: snd kv.
Definition pairs_line (kvs : list (bytes * (bytes * bytes))) (end_ : bytes) : bytes :=
  render ((fun '(sep, kv) => (sep, pair_word kv)) <$> kvs) end_.

Definition pairs_ok (kvs : list (bytes * (bytes * bytes))) : Prop :=
  well_separated ((fun '(sep, kv) => (sep, pair_word kv)) <$> kvs)
  /\ Forall (fun '(_, (k, _)) => EQUALS ∉ k) kvs /\ NoDup ((fun '(_, (k, _)) => k) <$> kvs).

Lemma find_pair k (kvs : list (bytes * (bytes * bytes))) : EQUALS ∉ k -> Forall (fun '(_, (k, _)) => EQUALS ∉ k) kvs ->
  omap (strip_prefix (k ++ [EQUALS])) (snd <$> ((fun '(sep, kv) => (sep, pair_word kv)) <$> kvs))
  = (fun '(_, (_, v)) => v) <$> filter (fun '(_, (k', _)) => k' = k) kvs.
Proof.
  intros Hk. induction 1 as [|[sep [k' v]] kvs Hk' _ IH]; [done|]. cbn [fmap list_fmap omap list_omap snd].
  unfold pair_word at 1. cbn [fst snd]. rewrite strip_key by done. destruct (decide (k' = k)) as [->|Hne].
  - rewrite filter_cons_True by done. simpl. f_equal. apply IH.
  - rewrite filter_cons_False by done. apply IH.
Qed.

Lemma filter_key_NoDup k (kvs : list (bytes * (bytes * bytes))) sep v : NoDup ((fun '(_, (k, _)) => k) <$> kvs) -> (sep, (k, v)) ∈ kvs ->
  filter (fun '(_, (k', _)) => k' = k) kvs = [((sep, (k, v)) : bytes * (bytes * bytes))].
Proof.
  induction kvs as [|[sep' [k' v']] kvs IH]; [set_solver|]. cbn [fmap list_fmap].
  intros [Hn Hnd]%NoDup_cons [Heq|Hin]%elem_of_cons.
  - simplify_eq. rewrite filter_cons_True by done. f_equal. apply filter_none.
    intros [sep2 [k2 v2]] Hin ->. apply Hn. apply list_elem_of_fmap. by exists (sep2, (k', v2)).
  - rewrite filter_cons_False; [by apply IH|]. intros ->. apply Hn. apply list_elem_of_fmap. by exists (sep, (k, v)).
Qed.

(** On a line of key=value words separated by spaces, commas and double quotes, with distinct keys, the
    lookup of a key finds its value, and fails exactly for the keys that are not there. *)
Theorem key_values_read_back kvs end_ (Hkv : pairs_ok kvs) (He : Forall separator end_) k (Hk : EQUALS ∉ k) :
  (forall sep v, (sep, (k, v)) ∈ kvs -> parse_key_value_segment (pairs_line kvs end_) k = Ok v)
  /\ ((forall sep v, (sep, (k, v)) ∉ kvs) ->
      parse_key_value_segment (pairs_line kvs end_) k
      = parse_failed (lit "missing " ++ k ++ lit " in '" ++ pairs_line kvs end_ ++ lit "'")).
Proof.
  destruct Hkv as (Hw & Hks & Hnd).
  assert (parse_key_value_segment (pairs_line kvs end_) k
    = match (fun '(_, (_, v)) => v) <$> filter (fun '(_, (k', _)) => k' = k) kvs with
      | value :: _ => Ok value
      | [] => parse_failed (lit "missing " ++ k ++ lit " in '" ++ pairs_line kvs end_ ++ lit "'")
      end) as E.
  { unfold parse_key_value_segment, split_whitespace. unfold pairs_line at 1. rewrite words_render by done.
    unfold push_word. rewrite bool_decide_true by done. change (lit "=") with [EQUALS].
    by rewrite find_pair by done. }
  rewrite E. split.
  - intros sep v Hin. by rewrite (filter_key_NoDup k kvs sep v) by done.
  - intros Hno. assert (filter (fun '(_, (k', _)) => k' = k) kvs = []) as ->; [|done].
    apply filter_none. intros [sep [k' v]] Hin ->. by eapply Hno.
Qed.

Lemma key_values_read_back_witness :
  let kvs := [(lit " ,", (lit "p5", lit "0.1")); ([QUOTE], (lit "p50", lit "0.440")); (lit " ", (lit "max", lit "2=2"))] in
  pairs_line kvs [QUOTE] = lit " ,p5=0.1" ++ [QUOTE] ++ lit "p50=0.440 max=2=2" ++ [QUOTE]
  /\ (forall sep v, (sep, (lit "p50", v)) ∈ kvs -> parse_key_value_segment (pairs_line kvs [QUOTE]) (lit "p50") = Ok v)
  /\ ((forall sep v, (sep, (lit "p50", v)) ∉ kvs) ->
      parse_key_value_segment (pairs_line kvs [QUOTE]) (lit "p50")
      = parse_failed (lit "missing " ++ lit "p50" ++ lit " in '" ++ pairs_line kvs [QUOTE] ++ lit "'")).
Proof.
  intros kvs. split; [reflexivity|]. apply key_values_read_back.
  - split_and!; [|repeat constructor; vm_compute; set_solver|repeat constructor; vm_compute; set_solver].
    apply Forall_fmap. repeat constructor; try discriminate; unfold separator; naive_solver.
  - repeat constructor; unfold separator; naive_solver.
  - vm_compute; set_solver.
Defined.
