(* ===== verification/RedisRun.v ===== *)
(** * A run of redis-benchmark (hkv-gui/src-tauri/src/runners/redis_benchmark.rs)

    [RedisBenchmarkRunner::start] and the threads it leaves behind, as a step
    function on what they share: the mutex around the process, the [cancelled]
    flag and the channel of events. A step is one thread's work between two
    points where others may run; the process, its pipes and its exit code are the
    environment's. *)

From S2P Require Import Prelude Decimal F64 RustStr GuiModels RedisBenchmark.

(** ** State *)

(** The observer thread: before it locks the process, in [wait] with the lock
    held, joining the readers, and ended. *)
Inductive ObserverPhase : Type :=
| Observing
| Waiting
| Joining (exit_code : result Z bytes)
| Ended.

(** A reader thread: in [read_to_string], or sending the lines it has left. *)
Inductive ReaderPhase : Type :=
| Reading
| Sending (pending : list bytes) (buffer : bytes).

Record BenchmarkProcessState := mkBench {
  bp_process : bool;                       (* [Some] in the mutex *)
  bp_locked : bool;                        (* the observer holds the lock *)
  bp_cancelled : bool;
  bp_observer : ObserverPhase;
  bp_stdout : ReaderPhase;
  bp_stderr : ReaderPhase;
  bp_stopping : nat;                       (* calls of [stop] past the flag *)
  bp_events : list BenchmarkLifecycleEvent (* sent so far *)
}.

Definition set_process (b : bool) (s : BenchmarkProcessState) : BenchmarkProcessState :=
  mkBench b (bp_locked s) (bp_cancelled s) (bp_observer s) (bp_stdout s) (bp_stderr s) (bp_stopping s) (bp_events s).
Definition set_locked (b : bool) (s : BenchmarkProcessState) : BenchmarkProcessState :=
  mkBench (bp_process s) b (bp_cancelled s) (bp_observer s) (bp_stdout s) (bp_stderr s) (bp_stopping s) (bp_events s).
Definition set_cancelled (s : BenchmarkProcessState) : BenchmarkProcessState :=
  mkBench (bp_process s) (bp_locked s) true (bp_observer s) (bp_stdout s) (bp_stderr s) (bp_stopping s) (bp_events s).
Definition set_observer (o : ObserverPhase) (s : BenchmarkProcessState) : BenchmarkProcessState :=
  mkBench (bp_process s) (bp_locked s) (bp_cancelled s) o (bp_stdout s) (bp_stderr s) (bp_stopping s) (bp_events s).
Definition set_reader (stderr : bool) (r : ReaderPhase) (s : BenchmarkProcessState) : BenchmarkProcessState :=
  mkBench (bp_process s) (bp_locked s) (bp_cancelled s) (bp_observer s)
    (if stderr then bp_stdout s else r) (if stderr then r else bp_stderr s) (bp_stopping s) (bp_events s).
Definition set_stopping (n : nat) (s : BenchmarkProcessState) : BenchmarkProcessState :=
  mkBench (bp_process s) (bp_locked s) (bp_cancelled s) (bp_observer s) (bp_stdout s) (bp_stderr s) n (bp_events s).
Definition send (evs : list BenchmarkLifecycleEvent) (s : BenchmarkProcessState) : BenchmarkProcessState :=
  mkBench (bp_process s) (bp_locked s) (bp_cancelled s) (bp_observer s) (bp_stdout s) (bp_stderr s) (bp_stopping s)
    (bp_events s ++ evs).

Definition bp_reader (stderr : bool) (s : BenchmarkProcessState) : ReaderPhase :=
  if stderr then bp_stderr s else bp_stdout s.

(** ** Starting *)

(** What the operating system answers to [Command::spawn]: an error with its
    kind and text, or a process whose pipes may be missing. *)
Inductive SpawnAnswer : Type :=
| SpawnError (not_found : bool) (text : bytes)
| SpawnedProcess (stdout stderr : bool).

(** [SystemBenchmarkProcessSpawner::spawn]. *)
Definition spawn_process (os : bytes -> list bytes -> SpawnAnswer) (program : bytes) (args : list bytes)
    : RE (bool * bool)%type :=
  match os program args with
  | SpawnError not_found text =>
      Error (mkRunnerError (if not_found then lit "binary_missing" else lit "spawn_failed")
               (lit "failed to start redis-benchmark: " ++ text))
  | SpawnedProcess stdout stderr => Ok (stdout, stderr)
  end.

Definition REDIS_BENCHMARK_BINARY : bytes := lit "redis-benchmark".

Definition started_message (request : BenchmarkRunRequest) : bytes :=
  lit "started redis-benchmark against " ++ rq_target_addr request ++ lit " with "
  ++ dec_nonneg (rq_clients request) ++ lit " clients".

Definition started_events (request : BenchmarkRunRequest) : list BenchmarkLifecycleEvent :=
  [Started; Progress (started_message request)].

(** [RedisBenchmarkRunner::start], up to the handle and the threads it spawns. *)
Definition redis_start (spawn : bytes -> list bytes -> RE (bool * bool)%type) (request : BenchmarkRunRequest)
    : RE BenchmarkProcessState :=
  rbind (validate_request request) (fun _ =>
  rbind (build_command request) (fun args =>
  rbind (spawn REDIS_BENCHMARK_BINARY args) (fun '(stdout, stderr) =>
  if negb stdout then Error (mkRunnerError (lit "spawn_failed") (lit "redis-benchmark stdout was not captured"))
  else if negb stderr then Error (mkRunnerError (lit "spawn_failed") (lit "redis-benchmark stderr was not captured"))
  else Ok (mkBench true false false Observing Reading Reading 0 (started_events request))))).

(** ** Running *)

(** What the observer reports, once the process has ended and the readers are
    joined. *)
Definition outcome_events (cancelled : bool) (exit_code : result Z bytes) (stdout stderr : bytes)
    : list BenchmarkLifecycleEvent :=
  match exit_code with
  | Ok code =>
      if cancelled then [Cancelled; Progress (lit "redis-benchmark cancelled")]
      else if (code =? 0)%Z then
        match parse_output stdout stderr with
        | Ok r => [Completed r]
        | Error e => [Failed (er_message e)]
        end
      else if bool_decide (trim stderr = [])
      then [Failed (lit "redis-benchmark exited early with code " ++ dec_string code)]
      else [Failed (lit "redis-benchmark exited early with code " ++ dec_string code ++ lit ": " ++ stderr)]
  | Error err => [Failed (lit "failed to wait for redis-benchmark: " ++ err)]
  end.

Inductive BenchLabel : Type :=
| ObserverLocks                          (* lock, [take], and into [wait] *)
| ProcessExits (r : result Z bytes)      (* [wait] returns; the lock is released *)
| PipeEnds (stderr : bool) (data : bytes) (* [read_to_string] returns *)
| LineSent (stderr : bool)
| ObserverReports
| StopFlags                              (* [stop]: the flag is set *)
| StopLocks (kill : result unit bytes).  (* [stop]: with the lock; what [kill] would answer *)

(** The answer of a [stop] that gets the lock. *)
Definition stop_answer (s : BenchmarkProcessState) (kill : result unit bytes) : RE unit :=
  if bp_process s then
    match kill with
    | Ok _ => Ok tt
    | Error err => Error (mkRunnerError (lit "stop_failed") (lit "failed to stop redis-benchmark: " ++ err))
    end
  else Error (mkRunnerError (lit "run_not_active") (lit "redis-benchmark process is no longer active")).

(** [None]: the step is not possible in that state. *)
Definition bench_step (s : BenchmarkProcessState) (l : BenchLabel) : option BenchmarkProcessState :=
  match l with
  | ObserverLocks =>
      match bp_observer s with
      | Observing => if bp_locked s then None
                     else Some (if bp_process s then set_observer Waiting (set_locked true (set_process false s))
                                else set_observer Ended s)
      | _ => None
      end
  | ProcessExits r =>
      match bp_observer s with
      | Waiting => Some (set_observer (Joining r) (set_locked false s))
      | _ => None
      end
  | PipeEnds stderr data =>
      match bp_reader stderr s with
      | Reading => let '(pending, buffer) := read_stream data in Some (set_reader stderr (Sending pending buffer) s)
      | Sending _ _ => None
      end
  | LineSent stderr =>
      match bp_reader stderr s with
      | Sending (m :: pending) buffer => Some (send [Progress m] (set_reader stderr (Sending pending buffer) s))
      | _ => None
      end
  | ObserverReports =>
      match bp_observer s, bp_stdout s, bp_stderr s with
      | Joining r, Sending [] out, Sending [] err =>
          Some (set_observer Ended (send (outcome_events (bp_cancelled s) r out err) s))
      | _, _, _ => None
      end
  | StopFlags => Some (set_stopping (S (bp_stopping s)) (set_cancelled s))
  | StopLocks kill =>
      match bp_stopping s with
      | S n => if bp_locked s then None else Some (set_stopping n s)
      | O => None
      end
  end.

Fixpoint bench_run (s : BenchmarkProcessState) (ls : list BenchLabel) : option BenchmarkProcessState :=
  match ls with
  | [] => Some s
  | l :: ls' => s' ← bench_step s l; bench_run s' ls'
  end.

(** The answers the [stop] calls of a run get. *)
Fixpoint stop_answers (s : BenchmarkProcessState) (ls : list BenchLabel) : list (RE unit) :=
  match ls with
  | [] => []
  | l :: ls' =>
      match l with StopLocks kill => [stop_answer s kill] | _ => [] end
      ++ match bench_step s l with Some s' => stop_answers s' ls' | None => [] end
  end.

(** ** The history of a run *)

Definition flagged (h : list BenchLabel) : bool := existsb (fun l => match l with StopFlags => true | _ => false end) h.

(** The lines one reader has sent, out of those both have. *)
Definition of_reader (stderr : bool) (sent : list (bool * bytes)) : list bytes :=
  snd <$> filter (fun x => fst x = stderr) sent.

Definition is_terminal (ev : BenchmarkLifecycleEvent) : bool :=
  match ev with Completed _ | Failed _ | Cancelled => true | Started | Progress _ => false end.

(** What one reader has done. *)
Definition reader_ok (h : list BenchLabel) (sent : list (bool * bytes)) (b : bool) (r : ReaderPhase) : Prop :=
  match r with
  | Reading => of_reader b sent = []
  | Sending pending buffer => exists data, PipeEnds b data ∈ h /\ buffer = snd (read_stream data)
                                /\ of_reader b sent ++ pending = fst (read_stream data)
  end.

(** What the observer has done, and the events past the readers'. *)
Definition observer_ok (h : list BenchLabel) (s : BenchmarkProcessState) (sent : list (bool * bytes))
    (reported : list BenchmarkLifecycleEvent) : Prop :=
  match bp_observer s with
  | Observing => bp_process s = true /\ bp_locked s = false /\ reported = []
  | Waiting => bp_process s = false /\ bp_locked s = true /\ reported = []
  | Joining r => bp_process s = false /\ bp_locked s = false /\ reported = [] /\ ProcessExits r ∈ h
  | Ended => bp_process s = false /\ bp_locked s = false
      /\ exists r dout derr before after,
           h = before ++ ObserverReports :: after /\ ProcessExits r ∈ before
           /\ PipeEnds false dout ∈ before /\ PipeEnds true derr ∈ before
           /\ bp_stdout s = Sending [] (snd (read_stream dout)) /\ bp_stderr s = Sending [] (snd (read_stream derr))
           /\ of_reader false sent = fst (read_stream dout) /\ of_reader true sent = fst (read_stream derr)
           /\ reported = outcome_events (flagged before) r (snd (read_stream dout)) (snd (read_stream derr))
  end.

Definition bench_inv (q : BenchmarkRunRequest) (h : list BenchLabel) (s : BenchmarkProcessState)
    (sent : list (bool * bytes)) : Prop :=
  bp_cancelled s = flagged h
  /\ reader_ok h sent false (bp_stdout s) /\ reader_ok h sent true (bp_stderr s)
  /\ exists reported, observer_ok h s sent reported
       /\ bp_events s = started_events q ++ (Progress ∘ snd <$> sent) ++ reported.

Lemma flagged_app h1 h2 : flagged (h1 ++ h2) = flagged h1 || flagged h2.
Proof. apply existsb_app. Qed.

Lemma reader_ok_more h l sent b r : reader_ok h sent b r -> reader_ok (h ++ [l]) sent b r.
Proof. destruct r; [done|]. intros (data & Hin & Hrest). exists data. split; [set_solver|done]. Qed.

Lemma reader_ok_sent h m sent b r : reader_ok h sent (negb b) r -> reader_ok h (sent ++ [(b, m)]) (negb b) r.
Proof.
  unfold reader_ok, of_reader. rewrite filter_app, filter_cons_False, filter_nil, app_nil_r by (by destruct b).
  done.
Qed.

Lemma observer_ok_more h l s sent reported : observer_ok h s sent reported -> observer_ok (h ++ [l]) s sent reported.
Proof.
  unfold observer_ok. destruct (bp_observer s); try done.
  - intros (?&?&?&?). split_and!; try done. set_solver.
  - intros (?&?&r&dout&derr&before&after&->&Hrest). split_and!; try done.
    exists r, dout, derr, before, (after ++ [l]). by rewrite <- app_assoc.
Qed.

Lemma start_inv spawn q s : redis_start spawn q = Ok s -> bench_inv q [] s [].
Proof.
  unfold redis_start, rbind. destruct (validate_request q); [|done]. destruct (build_command q); [|done].
  destruct (spawn _ _) as [[[] []]|]; try done. intros [= <-].
  split_and!; try done. exists []. split; [done|]. by rewrite app_nil_r.
Qed.

(** A step that leaves the readers, the lines and the reports alone. *)
Lemma step_same q h s s' sent l :
  bench_inv q h s sent -> bp_cancelled s' = flagged (h ++ [l]) -> bp_stdout s' = bp_stdout s ->
  bp_stderr s' = bp_stderr s -> bp_events s' = bp_events s ->
  (forall reported, observer_ok h s sent reported -> observer_ok (h ++ [l]) s' sent reported) ->
  bench_inv q (h ++ [l]) s' sent.
Proof.
  intros (Hc & Ho & He & reported & Hobs & Hev) Hc' Ho' He' Hev' Hk. split; [done|]. rewrite Ho', He', Hev'.
  split_and!; try (by apply reader_ok_more). eauto.
Qed.

Lemma flagged_snoc h l : flagged (h ++ [l]) = flagged h || match l with StopFlags => true | _ => false end.
Proof. rewrite flagged_app. simpl. by rewrite orb_false_r. Qed.

(** A reader at work: the observer has not reported yet. *)
Lemma reader_busy h s sent reported b : observer_ok h s sent reported ->
  (forall buffer, bp_reader b s <> Sending [] buffer) -> bp_observer s <> Ended.
Proof.
  unfold observer_ok. intros Hobs Hb E. rewrite E in Hobs.
  destruct Hobs as (_&_&r&dout&derr&before&after&_&_&_&_&Ho&He&_&_&_). destruct b; by eapply Hb.
Qed.

Lemma observer_reader h s s' sent sent' reported : bp_observer s <> Ended -> bp_observer s' = bp_observer s ->
  bp_process s' = bp_process s -> bp_locked s' = bp_locked s -> observer_ok h s sent reported -> observer_ok h s' sent' reported.
Proof. unfold observer_ok. intros Hne -> -> ->. by destruct (bp_observer s). Qed.

Lemma unreported h s sent reported : observer_ok h s sent reported -> bp_observer s <> Ended -> reported = [].
Proof. unfold observer_ok. destruct (bp_observer s); naive_solver. Qed.

Lemma pipe_inv q h s sent b data : bench_inv q h s sent -> bp_reader b s = Reading ->
  bench_inv q (h ++ [PipeEnds b data]) (set_reader b (Sending (fst (read_stream data)) (snd (read_stream data))) s) sent.
Proof.
  intros (Hc & Ho & He & reported & Hobs & Hev) Hb.
  assert (bp_observer s <> Ended) as Hne by (apply (reader_busy h s sent reported b); [done|by rewrite Hb]).
  split; [by rewrite flagged_snoc, orb_false_r|].
  assert (reader_ok h sent b (bp_reader b s)) as Hrd by (by destruct b).
  rewrite Hb in Hrd. simpl in Hrd.
  assert (reader_ok (h ++ [PipeEnds b data]) sent b (Sending (fst (read_stream data)) (snd (read_stream data)))).
  { exists data. rewrite Hrd. split_and!; [set_solver|done|done]. }
  split_and!; [destruct b; simpl; auto using reader_ok_more..|].
  exists reported. split; [|done]. apply observer_ok_more. by apply (observer_reader h s _ sent).
Qed.

Lemma line_inv q h s sent b m pending buffer : bench_inv q h s sent -> bp_reader b s = Sending (m :: pending) buffer ->
  bench_inv q (h ++ [LineSent b]) (send [Progress m] (set_reader b (Sending pending buffer) s)) (sent ++ [(b, m)]).
Proof.
  intros (Hc & Ho & He & reported & Hobs & Hev) Hb.
  assert (bp_observer s <> Ended) as Hne by (apply (reader_busy h s sent reported b); [done|by rewrite Hb]).
  pose proof (unreported _ _ _ _ Hobs Hne) as ->.
  split; [by rewrite flagged_snoc, orb_false_r|].
  assert (reader_ok h sent b (bp_reader b s)) as Hrd by (by destruct b).
  rewrite Hb in Hrd. destruct Hrd as (data & Hin & Hbuf & Hlines).
  assert (reader_ok (h ++ [LineSent b]) (sent ++ [(b, m)]) b (Sending pending buffer)).
  { exists data. split_and!; [set_solver|done|]. rewrite <- Hlines. unfold of_reader.
    rewrite filter_app, filter_cons_True, filter_nil, fmap_app by done. by rewrite <- app_assoc. }
  split_and!; [destruct b; simpl; try done; by apply reader_ok_more, (reader_ok_sent _ _ _ true) ||
    by apply reader_ok_more, (reader_ok_sent _ _ _ false)..|].
  exists []. split; [apply observer_ok_more; by apply (observer_reader h s _ sent)|].
  simpl. rewrite Hev, fmap_app, !app_nil_r. by rewrite <- app_assoc.
Qed.

Lemma all_sent h sent b buffer : reader_ok h sent b (Sending [] buffer) ->
  exists data, PipeEnds b data ∈ h /\ buffer = snd (read_stream data) /\ of_reader b sent = fst (read_stream data).
Proof. intros (data & Hin & Hb & Hl). rewrite app_nil_r in Hl. eauto. Qed.

Lemma report_inv q h s sent r out err : bench_inv q h s sent ->
  bp_observer s = Joining r -> bp_stdout s = Sending [] out -> bp_stderr s = Sending [] err ->
  bench_inv q (h ++ [ObserverReports]) (set_observer Ended (send (outcome_events (bp_cancelled s) r out err) s)) sent.
Proof.
  intros (Hc & Ho & He & reported & Hobs & Hev) Hj Hso Hse.
  split; [by rewrite flagged_snoc, orb_false_r|]. split_and!; [by apply reader_ok_more..|].
  unfold observer_ok in Hobs. rewrite Hj in Hobs. destruct Hobs as (Hp & Hl & -> & Hr).
  rewrite Hso in Ho. rewrite Hse in He.
  destruct (all_sent _ _ _ _ Ho) as (dout & Hdo & -> & Hlo), (all_sent _ _ _ _ He) as (derr & Hde & -> & Hle).
  eexists. split.
  - split_and!; try done. exists r, dout, derr, h, []. split_and!; done.
  - simpl. rewrite Hev, app_nil_r, <- app_assoc. by rewrite Hc.
Qed.

Lemma bench_step_inv q h s sent l s' :
  bench_inv q h s sent -> bench_step s l = Some s' -> exists sent', bench_inv q (h ++ [l]) s' sent'.
Proof.
  intros Hinv Hs. pose proof Hinv as (Hc & Hout & Herr & reported & Hobs & Hev).
  destruct l as [|r|b data|b| | |kill]; simpl in Hs.
  - revert Hs. destruct (bp_observer s) eqn:E; try done.
    pose proof Hobs as Hobs2. unfold observer_ok in Hobs2. rewrite E in Hobs2. destruct Hobs2 as (Hp & Hl & _).
    rewrite Hl, Hp. intros [= <-]. exists sent. apply (step_same q h s); try done.
    { by rewrite flagged_snoc, orb_false_r. }
    intros rep. unfold observer_ok. simpl. rewrite E. by intros (_ & _ & ->).
  - revert Hs. destruct (bp_observer s) eqn:E; try done. intros [= <-]. exists sent.
    apply (step_same q h s); try done; [by rewrite flagged_snoc, orb_false_r|].
    intros rep. unfold observer_ok. simpl. rewrite E. intros (? & _ & ->). split_and!; try done. set_solver.
  - revert Hs. destruct (bp_reader b s) eqn:E; [|done].
    intros [= <-]. exists sent. by apply pipe_inv.
  - revert Hs. destruct (bp_reader b s) as [|[|m pending] buffer] eqn:E; try done. intros [= <-].
    exists (sent ++ [(b, m)]). by apply line_inv.
  - revert Hs. destruct (bp_observer s) eqn:Ej; try done.
    destruct (bp_stdout s) as [|[|] out] eqn:Eo; try done. destruct (bp_stderr s) as [|[|] err] eqn:Ee; try done.
    intros [= <-]. exists sent. by apply report_inv.
  - injection Hs as <-. exists sent. apply (step_same q h s); try done; [by rewrite flagged_snoc, orb_true_r|].
    intros rep Hrep. exact (observer_ok_more _ _ _ _ _ Hrep).
  - destruct (bp_stopping s); [done|]. destruct (bp_locked s); [done|]. injection Hs as <-.
    exists sent. apply (step_same q h s); try done; [by rewrite flagged_snoc, orb_false_r|].
    intros rep Hrep. exact (observer_ok_more _ _ _ _ _ Hrep).
Qed.

Lemma bench_run_inv q ls : forall h s sent s',
  bench_inv q h s sent -> bench_run s ls = Some s' -> exists sent', bench_inv q (h ++ ls) s' sent'.
Proof.
  induction ls as [|l ls IH]; intros h s sent s' Hinv; simpl.
  - intros [= <-]. rewrite app_nil_r. eauto.
  - destruct (bench_step s l) as [s1|] eqn:E; [|done]. simpl. intros Hr.
    destruct (bench_step_inv _ _ _ _ _ _ Hinv E) as [sent1 H1].
    destruct (IH _ _ _ _ H1 Hr) as [sent2 H2]. exists sent2. by rewrite <- app_assoc in H2.
Qed.

Lemma run_inv spawn q s0 ls s :
  redis_start spawn q = Ok s0 -> bench_run s0 ls = Some s -> exists sent, bench_inv q ls s sent.
Proof. intros H0 Hr. by apply (bench_run_inv q ls [] s0 [] s); [eapply start_inv|]. Qed.

(** ** Outcomes *)

Lemma outcome_terminal c r out err : length (filter is_terminal (outcome_events c r out err)) = 1.
Proof.
  unfold outcome_events. destruct r as [code|e]; [|done]. destruct c; [done|].
  destruct (code =? 0)%Z; [by destruct (parse_output out err)|by case_bool_decide].
Qed.

Lemma outcome_shape c r out err : exists t rest,
  outcome_events c r out err = t :: rest /\ is_terminal t = true.
Proof.
  unfold outcome_events. destruct r as [code|e]; [|by eexists _, _]. destruct c; [by eexists _, _|].
  destruct (code =? 0)%Z; [destruct (parse_output out err)|case_bool_decide]; by eexists _, _.
Qed.

Lemma lines_not_terminal (sent : list (bool * bytes)) : filter is_terminal (Progress ∘ snd <$> sent) = [].
Proof. induction sent as [|[b m] sent IH]; [done|]. by rewrite fmap_cons, filter_cons_False by (simpl; auto). Qed.

(** What a run that has ended has sent. *)
Lemma ended_events spawn q s0 ls s : redis_start spawn q = Ok s0 -> bench_run s0 ls = Some s -> bp_observer s = Ended ->
  exists sent dout derr r before after,
    ls = before ++ ObserverReports :: after
    /\ ProcessExits r ∈ before /\ PipeEnds false dout ∈ before /\ PipeEnds true derr ∈ before
    /\ of_reader false sent = fst (read_stream dout) /\ of_reader true sent = fst (read_stream derr)
    /\ bp_events s = started_events q ++ (Progress ∘ snd <$> sent)
         ++ outcome_events (flagged before) r (snd (read_stream dout)) (snd (read_stream derr)).
Proof.
  intros H0 Hr He. destruct (run_inv _ _ _ _ _ H0 Hr) as [sent (Hc & Ho & He2 & reported & Hobs & Hev)].
  unfold observer_ok in Hobs. rewrite He in Hobs.
  destruct Hobs as (_&_&r&dout&derr&before&after&Hls&Hx&Hdo&Hde&_&_&Hlo&Hle&->).
  exists sent, dout, derr, r, before, after. by split_and!.
Qed.

(** C20: Whatever the interleaving of the observer, the two readers and any calls of [stop], a run that
    has ended has sent its two opening events, then every line of both pipes with the lines of each pipe
    in order, then the outcome, once; the outcome is [Cancelled] exactly when the process was waited for
    and a [stop] had set its flag before the report, [Completed] when the process exited with 0 and its
    output parses. *)
Theorem run_reports_once spawn q s0 ls s :
  redis_start spawn q = Ok s0 -> bench_run s0 ls = Some s -> bp_observer s = Ended ->
  exists sent dout derr r before after,
    ls = before ++ ObserverReports :: after
    /\ ProcessExits r ∈ before /\ PipeEnds false dout ∈ before /\ PipeEnds true derr ∈ before
    /\ of_reader false sent = fst (read_stream dout) /\ of_reader true sent = fst (read_stream derr)
    /\ bp_events s = started_events q ++ (Progress ∘ snd <$> sent)
         ++ outcome_events (flagged before) r (snd (read_stream dout)) (snd (read_stream derr))
    /\ length (filter is_terminal (bp_events s)) = 1.
Proof.
  intros H0 Hr He.
  destruct (ended_events _ _ _ _ _ H0 Hr He) as (sent&dout&derr&r&before&after&Hls&Hx&Hdo&Hde&Hlo&Hle&Hev).
  exists sent, dout, derr, r, before, after. split_and!; try done.
  rewrite Hev, !filter_app, !length_app, lines_not_terminal, outcome_terminal. done.
Qed.

(** ** Stopping *)

Definition run_not_active : RE unit :=
  Error (mkRunnerError (lit "run_not_active") (lit "redis-benchmark process is no longer active")).

Lemma taken_stays s l s' : bp_process s = false -> bench_step s l = Some s' -> bp_process s' = false.
Proof.
  intros Hp. destruct l as [|r|b data|b| | |kill]; simpl; repeat case_match; intros; simplify_eq; by destruct s.
Qed.

Lemma taken_answers ls : forall s, bp_process s = false -> Forall (fun a => a = run_not_active) (stop_answers s ls).
Proof.
  induction ls as [|l ls IH]; intros s Hp; simpl; [constructor|]. apply Forall_app. split.
  - destruct l; try constructor; [|constructor]. unfold stop_answer. by rewrite Hp.
  - destruct (bench_step s l) as [s'|] eqn:E; [|constructor]. apply IH. by eapply taken_stays.
Qed.

(** While the observer waits with the lock, [stop] does not get it. *)
Lemma waiting_blocks s l s' : bp_observer s = Waiting -> bp_locked s = true -> bench_step s l = Some s' ->
  (exists r, l = ProcessExits r)
  \/ ((forall kill, l <> StopLocks kill) /\ bp_observer s' = Waiting /\ bp_locked s' = true).
Proof.
  intros Ho Hl. destruct l as [|r|b data|b| | |kill]; simpl; rewrite ?Ho, ?Hl; intros; eauto;
    repeat case_match; simplify_eq; right; by split_and!.
Qed.

Lemma waiting_run pre kill post : forall s s', bp_observer s = Waiting -> bp_locked s = true ->
  bench_run s (pre ++ StopLocks kill :: post) = Some s' -> exists r, ProcessExits r ∈ pre.
Proof.
  induction pre as [|l pre IH]; intros s s' Ho Hl; simpl.
  - rewrite Hl. by destruct (bp_stopping s).
  - destruct (bench_step s l) as [s1|] eqn:E; [|done]. simpl. intros Hr.
    destruct (waiting_blocks _ _ _ Ho Hl E) as [[r ->]|(_ & Ho' & Hl')]; [exists r; set_solver|].
    destruct (IH _ _ Ho' Hl' Hr) as [r Hin]. exists r. set_solver.
Qed.

Lemma bench_run_app l1 l2 : forall s, bench_run s (l1 ++ l2) = s' ← bench_run s l1; bench_run s' l2.
Proof. induction l1 as [|l l1 IH]; intros s; simpl; [done|]. destruct (bench_step s l); simpl; auto. Qed.

(** C38: Once the observer thread has taken the process out of the mutex, no [stop] reaches it: the lock is
    held until the process has ended by itself, and every [stop] then answers that the run is not active. A
    running benchmark can be killed only before its observer thread gets to wait for it. *)
Theorem stop_misses_watched_process spawn q s0 before s1 after s :
  redis_start spawn q = Ok s0 -> bench_run s0 (before ++ [ObserverLocks]) = Some s1 -> bench_run s1 after = Some s ->
  Forall (fun a => a = run_not_active) (stop_answers s1 after)
  /\ forall pre kill post, after = pre ++ StopLocks kill :: post -> exists r, ProcessExits r ∈ pre.
Proof.
  intros H0 H1 H2. destruct (run_inv _ _ _ _ _ H0 H1) as [sent (_ & _ & _ & reported & Hobs & _)].
  rewrite bench_run_app in H1. destruct (bench_run s0 before) as [sb|] eqn:Eb; [|done]. simpl in H1.
  destruct (run_inv _ _ _ _ _ H0 Eb) as [sentb (_ & _ & _ & reportedb & Hobsb & _)].
  revert H1. destruct (bp_observer sb) eqn:Ob; try done.
  unfold observer_ok in Hobsb. rewrite Ob in Hobsb. destruct Hobsb as (Hp & Hl & _).
  rewrite Hp, Hl. intros [= <-]. split; [by apply taken_answers|].
  intros pre kill post ->. by eapply waiting_run; [..|exact H2].
Qed.

(** ** Ending *)

(** The labels of a run nobody stops, whose process exits with [r] and writes
    [dout] and [derr]. *)
Section ending.
Context (r : result Z bytes) (dout derr : bytes).

Definition unstopped (l : BenchLabel) : Prop :=
  match l with
  | StopFlags | StopLocks _ => False
  | ProcessExits r' => r' = r
  | PipeEnds b data => data = if b then derr else dout
  | _ => True
  end.

Lemma send_lines b pending buffer : forall s, bp_reader b s = Sending pending buffer ->
  exists s', bench_run s (replicate (length pending) (LineSent b)) = Some s'
    /\ bp_reader b s' = Sending [] buffer /\ bp_reader (negb b) s' = bp_reader (negb b) s
    /\ bp_observer s' = bp_observer s.
Proof.
  induction pending as [|m pending IH]; intros s Hb; [by exists s|]. simpl. rewrite Hb. simpl.
  destruct (IH (send [Progress m] (set_reader b (Sending pending buffer) s))) as (s' & Hr & H1 & H2 & H3); [by destruct b|].
  exists s'. rewrite Hr, H2, H3. by destruct b.
Qed.

Lemma drain_reader (b : bool) s : exists ls s' buffer, bench_run s ls = Some s' /\ Forall unstopped ls
  /\ bp_reader b s' = Sending [] buffer /\ bp_reader (negb b) s' = bp_reader (negb b) s
  /\ bp_observer s' = bp_observer s.
Proof.
  assert (forall n, Forall unstopped (replicate n (LineSent b))) as Hn by (intros; by apply Forall_replicate).
  set (data := if b then derr else dout). destruct (bp_reader b s) as [|pending buffer] eqn:E.
  - set (s1 := set_reader b (Sending (fst (read_stream data)) (snd (read_stream data))) s).
    destruct (send_lines b (fst (read_stream data)) (snd (read_stream data)) s1) as (s' & Hr & H1 & H2 & H3); [by destruct b|].
    exists (PipeEnds b data :: replicate (length (fst (read_stream data))) (LineSent b)), s', (snd (read_stream data)).
    split_and!; [cbn [bench_run bench_step]; by rewrite E| by constructor|done| |done]. rewrite H2. by destruct b.
  - destruct (send_lines b pending buffer s E) as (s' & Hr & H1 & H2 & H3). eauto 10.
Qed.

Lemma end_process h s sent reported : observer_ok h s sent reported -> bp_observer s <> Ended ->
  exists ls s' r', bench_run s ls = Some s' /\ Forall unstopped ls /\ bp_observer s' = Joining r'.
Proof.
  unfold observer_ok. intros Hobs Hne. destruct (bp_observer s) as [| |r'|] eqn:E; [| | |done].
  - destruct Hobs as (Hp & Hl & _). eexists [ObserverLocks; ProcessExits r], _, r. simpl. rewrite E, Hl, Hp. simpl.
    split_and!; [done|by repeat constructor|done].
  - eexists [ProcessExits r], _, r. simpl. rewrite E. simpl. split_and!; [done|by repeat constructor|done].
  - exists [], s, r'. split_and!; [done|constructor|done].
Qed.

End ending.

Lemma free_stops kill n : forall s, bp_stopping s = n -> bp_locked s = false ->
  exists s', bench_run s (replicate n (StopLocks kill)) = Some s' /\ bp_stopping s' = 0.
Proof.
  induction n as [|n IH]; intros s Hn Hl; simpl; [eauto|]. rewrite Hn, Hl. simpl. by apply IH.
Qed.

(** C25: No run hangs: from every reachable state, if the process ends and its pipes close, whatever they
    hold, the threads get to the end of the run without the help of a [stop], and every pending [stop] then
    gets the lock and returns. *)
Theorem run_can_end spawn q s0 ls s (r : result Z bytes) (dout derr : bytes) :
  redis_start spawn q = Ok s0 -> bench_run s0 ls = Some s ->
  exists more s', bench_run s more = Some s' /\ Forall (unstopped r dout derr) more /\ bp_observer s' = Ended
    /\ forall kill, exists s'', bench_run s' (replicate (bp_stopping s') (StopLocks kill)) = Some s'' /\ bp_stopping s'' = 0.
Proof.
  intros H0 Hr. destruct (run_inv _ _ _ _ _ H0 Hr) as [sent (_ & _ & _ & reported & Hobs & _)].
  assert (forall more s', bench_run s more = Some s' -> bp_observer s' = Ended -> bp_locked s' = false) as Hfree.
  { intros more s' Hm He. destruct (run_inv spawn q s0 (ls ++ more) s' H0) as [sent' (_ & _ & _ & rep' & Hobs' & _)].
    { by rewrite bench_run_app, Hr. }
    unfold observer_ok in Hobs'. rewrite He in Hobs'. tauto. }
  destruct (bp_observer s) eqn:E;
    [..|exists [], s; split_and!; [done|constructor|done|];
       intros kill; apply (free_stops kill _ s eq_refl), (Hfree [] s eq_refl E)];
    (assert (bp_observer s <> Ended) as Hne by congruence);
    destruct (end_process r dout derr _ _ _ _ Hobs Hne) as (l1 & s1 & r' & R1 & N1 & O1);
    destruct (drain_reader r dout derr false s1) as (l2 & s2 & out & R2 & N2 & B2 & _ & O2);
    destruct (drain_reader r dout derr true s2) as (l3 & s3 & err & R3 & N3 & B3 & B3' & O3);
    simpl in B2, B3, B3';
    (assert (bench_run s (l1 ++ l2 ++ l3 ++ [ObserverReports])
      = Some (set_observer Ended (send (outcome_events (bp_cancelled s3) r' out err) s3))) as R
      by (rewrite !bench_run_app, R1; simpl; rewrite bench_run_app, R2; simpl; rewrite bench_run_app, R3; simpl;
          by rewrite O3, O2, O1, B3', B2, B3));
    eexists _, _; (split_and!; [exact R|by rewrite !Forall_app; split_and!; [..|repeat constructor]|done|]);
    intros kill; apply (free_stops kill _ _ eq_refl), (Hfree _ _ R eq_refl).
Qed.

(** ** A run that is flagged too late *)

Definition request0 : BenchmarkRunRequest := mkRequest (lit "redis-benchmark") (lit "127.0.0.1:6379") 50 100000 128 4.
Definition spawn0 (program : bytes) (args : list bytes) : RE (bool * bool)%type :=
  spawn_process (fun _ _ => SpawnedProcess true true) program args.
Definition bench0 : BenchmarkProcessState := mkBench true false false Observing Reading Reading 0 (started_events request0).

Definition output0 : bytes :=
  [QUOTE] ++ lit "PING_INLINE" ++ [QUOTE; COMMA; QUOTE] ++ lit "104166.66" ++ [QUOTE; LF]
  ++ lit "latency summary,min=0.120 p50=0.440 p95=0.880 p99=1.020 max=2.200" ++ [LF]
  ++ lit "requests summary,requests=100000 bytes=12800000 duration_ms=960 avg_ms=0.520".

Definition result_shown (r : BenchmarkResult) : Z * list bytes * Z * Z :=
  (br_total_requests r, format_f64_3 <$> [br_throughput_ops_per_sec r; br_average_latency_ms r; br_p50_latency_ms r;
     br_p95_latency_ms r; br_p99_latency_ms r], br_duration_ms r, br_dataset_bytes r).

Example output0_parses : match parse_output output0 [] with Ok r => Some (result_shown r) | Error _ => None end
  = Some (100000%Z, [lit "104166.660"; lit "0.520"; lit "0.440"; lit "0.880"; lit "1.020"], 960%Z, 12800000%Z).
Proof. vm_compute. reflexivity. Qed.

(** [stop] is called while the process runs; the process ends by itself, with 0. *)
Definition labels0 : list BenchLabel :=
  [ObserverLocks; StopFlags; PipeEnds false output0; LineSent false; LineSent false; PipeEnds true (lit "warming up");
   ProcessExits (Ok 0%Z); LineSent true; LineSent false; ObserverReports; StopLocks (Ok tt)].
Definition ended0 : BenchmarkProcessState := default bench0 (bench_run bench0 labels0).

Lemma run_reports_once_witness :
  bench_run bench0 labels0 = Some ended0 /\ drop 6 (bp_events ended0) = [Cancelled; Progress (lit "redis-benchmark cancelled")]
  /\ exists sent dout derr r before after,
    labels0 = before ++ ObserverReports :: after
    /\ ProcessExits r ∈ before /\ PipeEnds false dout ∈ before /\ PipeEnds true derr ∈ before
    /\ of_reader false sent = fst (read_stream dout) /\ of_reader true sent = fst (read_stream derr)
    /\ bp_events ended0 = started_events request0 ++ (Progress ∘ snd <$> sent)
         ++ outcome_events (flagged before) r (snd (read_stream dout)) (snd (read_stream derr))
    /\ length (filter is_terminal (bp_events ended0)) = 1.
Proof.
  split; [vm_compute; reflexivity|]. split; [vm_compute; reflexivity|].
  apply (run_reports_once spawn0 request0 bench0 labels0 ended0); vm_compute; reflexivity.
Defined.

Lemma stop_misses_watched_process_witness :
  bench_run bench0 ([] ++ [ObserverLocks]) = Some (mkBench false true false Waiting Reading Reading 0 (started_events request0))
  /\ stop_answers (mkBench false true false Waiting Reading Reading 0 (started_events request0)) (tail labels0) = [run_not_active]
  /\ Forall (fun a => a = run_not_active)
       (stop_answers (mkBench false true false Waiting Reading Reading 0 (started_events request0)) (tail labels0))
  /\ forall pre kill post, tail labels0 = pre ++ StopLocks kill :: post -> exists r, ProcessExits r ∈ pre.
Proof.
  split; [reflexivity|]. split; [vm_compute; reflexivity|].
  apply (stop_misses_watched_process spawn0 request0 bench0 [] _ (tail labels0) ended0); vm_compute; reflexivity.
Defined.

Lemma run_can_end_witness :
  bench_run bench0 [StopFlags] = Some (set_stopping 1 (set_cancelled bench0))
  /\ exists more s', bench_run (set_stopping 1 (set_cancelled bench0)) more = Some s'
    /\ Forall (unstopped (Ok 0%Z) output0 []) more /\ bp_observer s' = Ended
    /\ forall kill, exists s'', bench_run s' (replicate (bp_stopping s') (StopLocks kill)) = Some s'' /\ bp_stopping s'' = 0.
Proof.
  split; [reflexivity|].
  apply (run_can_end spawn0 request0 bench0 [StopFlags] _ (Ok 0%Z) output0 []); reflexivity.
Defined.
