(* ===== verification/RunRepository.v ===== *)
(** * The run repository (hkv-gui/src-tauri/src/run_repository.rs)

    Finished runs in a JSON file. An operation is a program of file operations, a
    tree whose nodes are the calls of the file system; run alone on a disk it
    gives the operation's result, and two of them can be interleaved call by call.
    serde_json is the class [RunJson]. *)

From S2P Require Import Prelude Decimal F64 Observation RustStr GuiModels.

(** ** Programs of file operations *)

(** Calls on the storage directory. [fs::write] is two of them: it creates or
    empties the file, and then fills it. *)
Inductive DiskOp : Type -> Type :=
| CreateDirAll : DiskOp (result unit bytes)
| Exists (name : bytes) : DiskOp bool
| ReadToString (name : bytes) : DiskOp (result bytes bytes)
| CreateFile (name : bytes) : DiskOp (result unit bytes)
| WriteAll (name contents : bytes) : DiskOp (result unit bytes)
| SystemNow : DiskOp SystemTime.

Inductive Prog (A : Type) : Type :=
| Done (a : A)
| Call {X : Type} (op : DiskOp X) (k : X -> Prog A).
Arguments Done {A} a.
Arguments Call {A X} op k.

Fixpoint prog_bind {A B} (p : Prog A) (k : A -> Prog B) : Prog B :=
  match p with Done a => k a | Call op c => Call op (fun x => prog_bind (c x) k) end.

#[global] Instance prog_ret : MRet Prog := @Done.
#[global] Instance prog_mbind : MBind Prog := fun A B k p => prog_bind p k.

(** Programs that return a [Result], and their [?]. *)
Definition attempt {A B} (p : Prog (result A bytes)) (k : A -> Prog (result B bytes)) : Prog (result B bytes) :=
  prog_bind p (fun r => match r with Ok a => k a | Error e => Done (Error e) end).
Definition call {X} (op : DiskOp X) : Prog X := Call op Done.

Definition fs_write (name contents : bytes) : Prog (result unit bytes) :=
  attempt (call (CreateFile name)) (fun _ => call (WriteAll name contents)).

(** ** serde_json *)

Class RunJson := {
  from_str : bytes -> option (list BenchmarkRun);
  to_string_pretty : list BenchmarkRun -> result bytes bytes
}.

(** ** The operations *)

Definition RUN_STORE_FILE : bytes := lit "runs.json".

(** The first element that satisfies [P], replaced; or the new one at the end. *)
Definition replace_or_push {A} (P : A -> Prop) `{forall x, Decision (P x)} (x : A) (l : list A) : list A :=
  match list_find P l with Some (i, _) => <[i := x]> l | None => l ++ [x] end.

(** [sort_by], the standard library's stable sort. *)
Fixpoint insert_by {A} (le : A -> A -> bool) (x : A) (l : list A) : list A :=
  match l with [] => [x] | y :: l' => if le x y then x :: l else y :: insert_by le x l' end.
Definition sort_by {A} (le : A -> A -> bool) (l : list A) : list A := foldr (insert_by le) [] l.

(** The comparators [right.created_at.cmp(&left.created_at)]. *)
Definition newer_first {A} (created_at : A -> bytes) (left_ right_ : A) : bool :=
  match bytes_cmp (created_at right_) (created_at left_) with Gt => false | _ => true end.

Definition repo_normalize_run (run : BenchmarkRun) : NormalizedRunSummary :=
  mkSummary (run_id run) (rq_runner (run_request run)) (run_status run) (rq_target_addr (run_request run))
    (run_created_at run) (run_finished_at run)
    (br_throughput_ops_per_sec <$> run_result run) (br_p95_latency_ms <$> run_result run).

Section repository.
Context `{RunJson}.

(** [RunRepository::new]: the path of the store is the file's name in the
    storage directory. *)
Definition repo_new : Prog (result unit bytes) :=
  attempt (call CreateDirAll) (fun _ =>
  prog_bind (call (Exists RUN_STORE_FILE)) (fun exists_ =>
  if exists_ then Done (Ok tt) else fs_write RUN_STORE_FILE (lit "[]"))).

Definition store_runs (runs : list BenchmarkRun) : Prog (result unit bytes) :=
  match to_string_pretty runs with
  | Ok payload => fs_write RUN_STORE_FILE payload
  | Error e => Done (Error e)
  end.

(** [duration_since(UNIX_EPOCH)] fails for a clock before the epoch. *)
Definition clock_error : bytes := lit "second time provided was later than self".

Definition backup_name (unique : Z) : bytes := lit "runs.corrupt-" ++ dec_u128 unique ++ lit ".json".

Definition backup_corrupted_store (contents : bytes) : Prog (result unit bytes) :=
  prog_bind (call SystemNow) (fun now =>
  if (now <? 0)%Z then Done (Error clock_error) else fs_write (backup_name now) contents).

Definition load_runs : Prog (result (list BenchmarkRun) bytes) :=
  attempt (call (ReadToString RUN_STORE_FILE)) (fun contents =>
  match from_str contents with
  | Some runs => Done (Ok runs)
  | None =>
      attempt (backup_corrupted_store contents) (fun _ =>
      attempt (store_runs []) (fun _ => Done (Ok [])))
  end).

Definition repo_list_runs : Prog (result (list NormalizedRunSummary) bytes) :=
  attempt load_runs (fun runs => Done (Ok (repo_normalize_run <$> sort_by (newer_first run_created_at) runs))).

Definition repo_get_run (id : bytes) : Prog (result (option BenchmarkRun) bytes) :=
  attempt load_runs (fun runs => Done (Ok (snd <$> list_find (fun run => run_id run = id) runs))).

(** Under [write_lock], which keeps other calls of [persist] away, but not the
    readers. *)
Definition persist (run : BenchmarkRun) : Prog (result unit bytes) :=
  attempt load_runs (fun runs =>
  store_runs (replace_or_push (fun existing => run_id existing = run_id run) run runs)).

End repository.

(** ** The disk *)

(** The files by name, and how many calls were made. [io_fault n] is the error
    text of the [n]-th call, if it fails, and how much a [write_all] that fails
    writes. *)
Record Disk := mkDisk { d_files : gmap bytes bytes; d_calls : nat }.

Section disk.
Context (wall : nat -> SystemTime) (io_fault : nat -> option (bytes * nat)) (missing : bytes).

Definition not_utf8 : bytes := lit "stream did not contain valid UTF-8".

Definition disk_op {X} (op : DiskOp X) (d : Disk) : X * Disk :=
  let d' := fun files => mkDisk files (S (d_calls d)) in
  let files := d_files d in
  let fault := io_fault (d_calls d) in
  match op in DiskOp X return X * Disk with
  | CreateDirAll => (match fault with Some (e, _) => Error e | None => Ok tt end, d' files)
  | Exists name => (bool_decide (is_Some (files !! name)), d' files)
  | ReadToString name =>
      (match fault with
       | Some (e, _) => Error e
       | None => match files !! name with
                 | Some contents => if valid_utf8 contents then Ok contents else Error not_utf8
                 | None => Error missing
                 end
       end, d' files)
  | CreateFile name =>
      match fault with Some (e, _) => (Error e, d' files) | None => (Ok tt, d' (<[name := []]> files)) end
  | WriteAll name contents =>
      match fault with
      | Some (e, n) => (Error e, d' (<[name := take n contents]> files))
      | None => (Ok tt, d' (<[name := contents]> files))
      end
  | SystemNow => (wall (d_calls d), d' files)
  end.

(** A program alone on the disk. *)
Fixpoint exec {A} (p : Prog A) (d : Disk) : A * Disk :=
  match p with
  | Done a => (a, d)
  | Call op k => let '(x, d') := disk_op op d in exec (k x) d'
  end.

(** One call of a program; a finished one does nothing. *)
Definition prog_step {A} (p : Prog A) (d : Disk) : Prog A * Disk :=
  match p with
  | Done a => (Done a, d)
  | Call op k => let '(x, d') := disk_op op d in (k x, d')
  end.

(** Two programs whose calls come in the order of the schedule. *)
Fixpoint interleave {A B} (schedule : list bool) (p : Prog A) (q : Prog B) (d : Disk) : Prog A * Prog B * Disk :=
  match schedule with
  | [] => (p, q, d)
  | true :: more => let '(p', d') := prog_step p d in interleave more p' q d'
  | false :: more => let '(q', d') := prog_step q d in interleave more p q' d'
  end.

End disk.

(** ** Runs up to their figures

    serde_json writes a finite [f64] so that it reads back as one, not always the
    same one: runs are compared up to the values of their finite figures. *)

Definition erase_f64 (x : f64) : f64 := if f64_is_finite x then S754_zero false else S754_nan.
Definition erase_result (r : BenchmarkResult) : BenchmarkResult :=
  mkResult (br_total_requests r) (erase_f64 (br_throughput_ops_per_sec r)) (erase_f64 (br_average_latency_ms r))
    (erase_f64 (br_p50_latency_ms r)) (erase_f64 (br_p95_latency_ms r)) (erase_f64 (br_p99_latency_ms r))
    (br_duration_ms r) (br_dataset_bytes r).
Definition erase_run (r : BenchmarkRun) : BenchmarkRun := with_result (erase_result <$> run_result r) r.
Definition erase_summary (s : NormalizedRunSummary) : NormalizedRunSummary :=
  mkSummary (sm_id s) (sm_runner s) (sm_status s) (sm_target_addr s) (sm_created_at s) (sm_finished_at s)
    (erase_f64 <$> sm_throughput_ops_per_sec s) (erase_f64 <$> sm_p95_latency_ms s).

#[global] Instance run_equiv : Equiv BenchmarkRun := fun a b => erase_run a = erase_run b.
#[global] Instance summary_equiv : Equiv NormalizedRunSummary := fun a b => erase_summary a = erase_summary b.
#[global] Instance run_equivalence : Equivalence (≡@{BenchmarkRun}).
Proof. split; unfold equiv, run_equiv; repeat intro; congruence. Qed.
#[global] Instance summary_equivalence : Equivalence (≡@{NormalizedRunSummary}).
Proof. split; unfold equiv, summary_equiv; repeat intro; congruence. Qed.

#[global] Instance run_id_proper : Proper ((≡) ==> (=)) run_id.
Proof. intros a b E. exact (f_equal run_id E). Qed.
#[global] Instance run_created_at_proper : Proper ((≡) ==> (=)) run_created_at.
Proof. intros a b E. exact (f_equal run_created_at E). Qed.
Lemma erase_normalize r : erase_summary (repo_normalize_run r) = repo_normalize_run (erase_run r).
Proof. unfold erase_summary, repo_normalize_run. simpl. by destruct (run_result r). Qed.
#[global] Instance normalize_proper : Proper ((≡) ==> (≡)) repo_normalize_run.
Proof. intros a b E. unfold equiv, summary_equiv. by rewrite !erase_normalize, (E : erase_run a = erase_run b). Qed.

Definition finite_result (r : BenchmarkResult) : bool :=
  f64_is_finite (br_throughput_ops_per_sec r) && f64_is_finite (br_average_latency_ms r)
  && f64_is_finite (br_p50_latency_ms r) && f64_is_finite (br_p95_latency_ms r) && f64_is_finite (br_p99_latency_ms r).
Definition finite_run (r : BenchmarkRun) : bool := match run_result r with Some x => finite_result x | None => true end.

#[global] Instance finite_run_proper : Proper ((≡) ==> (=)) finite_run.
Proof.
  assert (forall x, f64_is_finite (erase_f64 x) = f64_is_finite x) as Hf.
  { intros x. unfold erase_f64. by destruct (f64_is_finite x) eqn:E. }
  assert (forall r, finite_run (erase_run r) = finite_run r) as Hr.
  { intros r. unfold finite_run, erase_run. simpl. destruct (run_result r); [|done]. simpl.
    unfold finite_result. simpl. by rewrite !Hf. }
  intros a b E. by rewrite <- (Hr a), <- (Hr b), (E : erase_run a = erase_run b).
Qed.

(** What the repository relies on: JSON has no numbers but the finite ones; the
    others are written as [null], which is no [f64]; the empty text is not JSON. *)
Class RunJsonLaws `{RunJson} := {
  json_back runs : Forall finite_run runs ->
    exists s runs', to_string_pretty runs = Ok s /\ valid_utf8 s = true /\ from_str s = Some runs' /\ runs' ≡ runs;
  json_null runs : ~ Forall finite_run runs ->
    exists s, to_string_pretty runs = Ok s /\ valid_utf8 s = true /\ from_str s = None;
  json_empty : to_string_pretty [] = Ok (lit "[]") /\ from_str (lit "[]") = Some [];
  json_no_text : from_str [] = None
}.

(** ** Lists up to their figures *)

Section lists.
Context {A : Type} `{Equiv A} `{!Equivalence (≡@{A})}.

Lemma find_proper (P : A -> Prop) `{forall x, Decision (P x)} (l l' : list A) :
  Proper ((≡) ==> iff) P -> l ≡ l' -> (snd <$> list_find P l) ≡ (snd <$> list_find P l').
Proof.
  intros HP. induction 1 as [|x y l l' Hxy _ IH]; [constructor|]. simpl.
  destruct (decide (P x)) as [Hx|Hx].
  - rewrite decide_True by (by rewrite <- Hxy). by constructor.
  - rewrite decide_False by (by rewrite <- Hxy). simpl.
    destruct (list_find P l) as [[]|], (list_find P l') as [[]|]; simpl in *; inversion IH; constructor; done.
Qed.

Lemma replace_or_push_cons (P : A -> Prop) `{forall x, Decision (P x)} x y l :
  replace_or_push P x (y :: l) = if decide (P y) then x :: l else y :: replace_or_push P x l.
Proof.
  unfold replace_or_push. simpl. destruct (decide (P y)); [done|].
  by destruct (list_find P l) as [[]|].
Qed.

Lemma replace_or_push_proper (P Q : A -> Prop) `{forall x, Decision (P x)} `{forall x, Decision (Q x)} x y (l l' : list A) :
  (forall a b, a ≡ b -> P a <-> Q b) -> x ≡ y -> l ≡ l' -> replace_or_push P x l ≡ replace_or_push Q y l'.
Proof.
  intros HPQ Hxy. induction 1 as [|a b l l' Hab Hl IH].
  - unfold replace_or_push. simpl. by constructor.
  - rewrite !replace_or_push_cons. destruct (decide (P a)) as [Ha|Ha].
    + rewrite decide_True by (by apply (HPQ a b)). by constructor.
    + rewrite decide_False by (by rewrite <- (HPQ a b)). by constructor.
Qed.

Lemma sort_by_proper (le : A -> A -> bool) (l l' : list A) :
  Proper ((≡) ==> (≡) ==> (=)) le -> l ≡ l' -> sort_by le l ≡ sort_by le l'.
Proof.
  intros Hle. induction 1 as [|x y l l' Hxy _ IH]; [done|]. simpl.
  revert IH. generalize (sort_by le l) (sort_by le l'). induction 1 as [|a b m m' Hab Hm IHm]; simpl; [by repeat constructor|].
  rewrite (Hle x y Hxy a b Hab). destruct (le y b); [by repeat constructor|]. by constructor.
Qed.

End lists.

#[global] Instance newer_proper : Proper ((≡) ==> (≡) ==> (=)) (newer_first run_created_at).
Proof. intros a b E c d F. unfold newer_first. by rewrite E, F. Qed.

(** ** The repository as a list of runs *)

Inductive RepoOp : Type := RPersist (run : BenchmarkRun) | RList | RGet (id : bytes).
Inductive RepoReply : Type :=
| RStored
| RSummaries (l : list NormalizedRunSummary)
| RRun (r : option BenchmarkRun).

#[global] Instance reply_equiv : Equiv RepoReply := fun a b =>
  match a, b with
  | RStored, RStored => True
  | RSummaries l, RSummaries l' => l ≡ l'
  | RRun r, RRun r' => r ≡ r'
  | _, _ => False
  end.

Definition upsert (run : BenchmarkRun) (runs : list BenchmarkRun) : list BenchmarkRun :=
  replace_or_push (fun existing => run_id existing = run_id run) run runs.

(** What an operation answers and does on the list of runs. *)
Definition repo_spec (op : RepoOp) (runs : list BenchmarkRun) : RepoReply * list BenchmarkRun :=
  match op with
  | RPersist run => (RStored, upsert run runs)
  | RList => (RSummaries (repo_normalize_run <$> sort_by (newer_first run_created_at) runs), runs)
  | RGet id => (RRun (snd <$> list_find (fun run => run_id run = id) runs), runs)
  end.

Fixpoint repo_spec_run (ops : list RepoOp) (runs : list BenchmarkRun) : list RepoReply * list BenchmarkRun :=
  match ops with
  | [] => ([], runs)
  | op :: ops' =>
      let '(r, runs) := repo_spec op runs in
      let '(rs, runs) := repo_spec_run ops' runs in (r :: rs, runs)
  end.

Definition op_finite (op : RepoOp) : Prop := match op with RPersist run => finite_run run | _ => True end.

Section thms.
Context `{RunJsonLaws} (wall : nat -> SystemTime) (missing : bytes).

Definition no_io_fault (n : nat) : option (bytes * nat) := None.
Abbreviation exec := (exec wall no_io_fault missing).

Definition repo_exec (op : RepoOp) : Prog (result RepoReply bytes) :=
  match op with
  | RPersist run => attempt (persist run) (fun _ => Done (Ok RStored))
  | RList => attempt repo_list_runs (fun l => Done (Ok (RSummaries l)))
  | RGet id => attempt (repo_get_run id) (fun r => Done (Ok (RRun r)))
  end.

Fixpoint repo_run (ops : list RepoOp) (d : Disk) : list (result RepoReply bytes) * Disk :=
  match ops with
  | [] => ([], d)
  | op :: ops' =>
      let '(r, d) := exec (repo_exec op) d in
      let '(rs, d) := repo_run ops' d in (r :: rs, d)
  end.

(** The store holds the runs [rs]. *)
Definition stored (d : Disk) (rs : list BenchmarkRun) : Prop :=
  Forall finite_run rs /\ exists s rs', d_files d !! RUN_STORE_FILE = Some s /\ valid_utf8 s = true
    /\ from_str s = Some rs' /\ rs' ≡ rs.

(** Only the store differs. *)
Definition others_kept (d d' : Disk) : Prop := forall name, name <> RUN_STORE_FILE -> d_files d' !! name = d_files d !! name.

Lemma exec_attempt {A B} (p : Prog (result A bytes)) (k : A -> Prog (result B bytes)) d :
  exec (attempt p k) d = let '(r, d') := exec p d in match r with Ok a => exec (k a) d' | Error e => (Error e, d') end.
Proof.
  unfold attempt. revert d. induction p as [r|X op c IH]; intros d; simpl; [by destruct r|].
  destruct (disk_op _ _ _ op d) as [x d']. apply IH.
Qed.

Lemma finite_lists (l l' : list BenchmarkRun) : l ≡ l' -> Forall finite_run l -> Forall finite_run l'.
Proof.
  induction 1 as [|x y l l' Hxy _ IH]; [done|]. rewrite !Forall_cons. rewrite Hxy. naive_solver.
Qed.

Lemma upsert_finite run rs : finite_run run -> Forall finite_run rs -> Forall finite_run (upsert run rs).
Proof.
  intros Hr. unfold upsert. induction 1 as [|x l Hx Hl IH]; [by repeat constructor|].
  rewrite replace_or_push_cons. case_decide; by constructor.
Qed.

Lemma upsert_proper run rs rs' : rs ≡ rs' -> upsert run rs ≡ upsert run rs'.
Proof. intros E. apply replace_or_push_proper; [|done|done]. intros a b Hab. by rewrite Hab. Qed.

Lemma load_stored d rs : stored d rs -> exists rs' d', exec load_runs d = (Ok rs', d') /\ rs' ≡ rs /\ d_files d' = d_files d.
Proof.
  intros (Hf & s & rs' & Hs & Hu & Hj & Heq). unfold load_runs. rewrite exec_attempt. simpl. rewrite Hs, Hu, Hj. eauto.
Qed.

Lemma store_finite d rs : Forall finite_run rs -> exists d', exec (store_runs rs) d = (Ok tt, d')
  /\ stored d' rs /\ others_kept d d'.
Proof.
  intros Hf. destruct (json_back rs Hf) as (s & rs' & Hs & Hu & Hj & Heq).
  unfold store_runs. rewrite Hs. simpl. eexists. split; [done|]. split.
  - split; [done|]. exists s, rs'. simpl. by rewrite lookup_insert_eq.
  - intros name Hn. simpl. by rewrite !lookup_insert_ne by done.
Qed.

Lemma stored_files d d' rs : d_files d' = d_files d -> stored d rs -> stored d' rs.
Proof. unfold stored. by intros ->. Qed.

Lemma repo_op_refines op d rs : stored d rs -> op_finite op ->
  exists r d', exec (repo_exec op) d = (Ok r, d') /\ r ≡ fst (repo_spec op rs)
    /\ stored d' (snd (repo_spec op rs)) /\ others_kept d d'.
Proof.
  intros Hst Hop. destruct (load_stored d rs Hst) as (rs' & d1 & E & Heq & Hd1).
  destruct op as [run| |id]; cbn [repo_exec repo_spec fst snd op_finite] in *.
  - unfold persist. rewrite !exec_attempt, E. fold (upsert run rs').
    assert (Forall finite_run (upsert run rs')) as Hf.
    { apply upsert_finite; [done|]. destruct Hst as [Hf _]. by apply (finite_lists rs rs'). }
    destruct (store_finite d1 _ Hf) as (d2 & E2 & (_ & s & rs2 & Hs & Hu & Hj & H2) & Hk).
    rewrite E2. eexists _, d2. split; [done|]. split_and!; [done| |].
    + destruct Hst as [Hfr _]. split; [by apply upsert_finite|]. exists s, rs2. split_and!; try done.
      etrans; [exact H2|]. by apply upsert_proper.
    + intros name Hn. by rewrite Hk, Hd1.
  - unfold repo_list_runs. rewrite !exec_attempt, E. simpl. eexists _, d1. split; [done|]. split_and!; simpl.
    + apply list_fmap_proper; [apply normalize_proper|]. apply sort_by_proper; [apply _|done].
    + by apply (stored_files d).
    + intros name _. by rewrite Hd1.
  - unfold repo_get_run. rewrite !exec_attempt, E. simpl. eexists _, d1. split; [done|]. split_and!; simpl.
    + apply find_proper; [|done]. intros a b Hab. by rewrite Hab.
    + by apply (stored_files d).
    + intros name _. by rewrite Hd1.
Qed.

Lemma new_stored d : d_files d !! RUN_STORE_FILE = None ->
  exists d', exec repo_new d = (Ok tt, d') /\ stored d' [] /\ others_kept d d'.
Proof.
  intros Hd. unfold repo_new. rewrite exec_attempt. simpl. rewrite bool_decide_false by (by rewrite Hd; intros []). simpl.
  eexists. split; [done|]. destruct json_empty as [_ Hj]. split.
  - split; [done|]. exists (lit "[]"), []. simpl. rewrite lookup_insert_eq. by split_and!.
  - intros name Hn. simpl. by rewrite !lookup_insert_ne by done.
Qed.

Lemma repo_run_refines ops : forall d rs, stored d rs -> Forall op_finite ops ->
  exists answers, (repo_run ops d).1 = Ok <$> answers /\ answers ≡ fst (repo_spec_run ops rs)
    /\ stored (repo_run ops d).2 (snd (repo_spec_run ops rs)) /\ others_kept d (repo_run ops d).2.
Proof.
  induction ops as [|op ops IH]; intros d rs Hst Hops; cbn [repo_run repo_spec_run].
  { exists []. split_and!; try done; constructor. }
  apply Forall_cons in Hops as [Hop Hops].
  destruct (repo_op_refines op d rs Hst Hop) as (r & d1 & E & Hr & Hst1 & Hk1). rewrite E.
  destruct (repo_spec op rs) as [r' rs1]. simpl in Hr, Hst1.
  destruct (IH d1 rs1 Hst1 Hops) as (answers & Ha & Heq & Hst2 & Hk2).
  destruct (repo_run ops d1) as [replies d2], (repo_spec_run ops rs1) as [rs' runs']. simpl in *. subst replies.
  exists (r :: answers). split_and!; [done|by constructor|done|]. intros name Hn. by rewrite Hk2, Hk1.
Qed.

(** C21: On a working disk, a new repository starts empty, and every sequence of calls whose runs have finite
    figures (others empty the store, see [nonfinite_figure_empties_store]) answers as a list of runs in which
    [persist] replaces the run with its id or adds it at the end, [get_run] finds a run by its id, and [list_runs]
    gives the summaries sorted by creation, up to the figures JSON rounds; no other file changes. *)
Theorem repository_refines_list d :
  (d_files d !! RUN_STORE_FILE = None -> exists d', exec repo_new d = (Ok tt, d') /\ stored d' [] /\ others_kept d d')
  /\ forall rs ops, stored d rs -> Forall op_finite ops ->
     exists answers, (repo_run ops d).1 = Ok <$> answers /\ answers ≡ fst (repo_spec_run ops rs)
       /\ stored (repo_run ops d).2 (snd (repo_spec_run ops rs)) /\ others_kept d (repo_run ops d).2.
Proof. split; [apply new_stored|]. intros rs ops. apply repo_run_refines. Qed.

(** ** A store that does not parse *)

Lemma backup_is_not_store n : backup_name n <> RUN_STORE_FILE.
Proof. unfold backup_name, RUN_STORE_FILE. intros E. by apply (f_equal (fun s => s !! 5)) in E. Qed.

(** The name of the backup made when the second call of an operation reads the clock. *)
Definition backup_at (d : Disk) : bytes := backup_name (wall (S (d_calls d))).

Lemma load_corrupt d s : d_files d !! RUN_STORE_FILE = Some s -> valid_utf8 s = true -> from_str s = None ->
  (0 <= wall (S (d_calls d)))%Z ->
  exists d', exec load_runs d = (Ok [], d')
    /\ d_files d' = <[RUN_STORE_FILE := lit "[]"]> (<[backup_at d := s]> (d_files d)).
Proof.
  intros Hs Hu Hj Hw. unfold load_runs. rewrite exec_attempt. simpl. rewrite Hs, Hu, Hj. simpl.
  rewrite (proj2 (Z.ltb_ge _ _)) by done. simpl. unfold store_runs. destruct json_empty as [-> _]. simpl.
  eexists. split; [done|]. simpl. by rewrite !insert_insert_eq.
Qed.

(** Reading a store that is not JSON for a list of runs succeeds with no runs: its contents are first
    written to a backup file, and the store is made empty. *)
Theorem corrupt_store_is_backed_up d s id :
  d_files d !! RUN_STORE_FILE = Some s -> valid_utf8 s = true -> from_str s = None ->
  (0 <= wall (S (d_calls d)))%Z ->
  exists d1 d2, exec repo_list_runs d = (Ok [], d1) /\ exec (repo_get_run id) d = (Ok None, d2)
    /\ d_files d1 = d_files d2 /\ d_files d1 !! backup_at d = Some s /\ stored d1 []
    /\ forall name, name <> RUN_STORE_FILE -> name <> backup_at d -> d_files d1 !! name = d_files d !! name.
Proof.
  intros Hs Hu Hj Hw. destruct (load_corrupt d s Hs Hu Hj Hw) as (d1 & E & Hd1).
  exists d1, d1. unfold repo_list_runs, repo_get_run. rewrite !exec_attempt, E.
  pose proof (backup_is_not_store (wall (S (d_calls d)))) as Hne. unfold backup_at in *.
  split_and!; try done; rewrite ?Hd1.
  - by rewrite lookup_insert_ne, lookup_insert_eq.
  - split; [done|]. exists (lit "[]"), []. destruct json_empty as [_ ->]. rewrite Hd1, lookup_insert_eq. by split_and!.
  - intros name H1 H2. by rewrite !lookup_insert_ne by done.
Qed.

(** A run with a figure that is no finite number can be persisted, and the whole store is given up at
    the next read: all runs stored before are gone from it. *)
Theorem nonfinite_figure_empties_store d rs run :
  stored d rs -> ~ finite_run run -> (forall n, 0 <= wall n)%Z ->
  exists d1 d2, exec (persist run) d = (Ok tt, d1) /\ exec repo_list_runs d1 = (Ok [], d2) /\ stored d2 [].
Proof.
  intros Hst Hrun Hw. destruct (load_stored d rs Hst) as (rs' & d0 & E & Heq & Hd0).
  assert (~ Forall finite_run (upsert run rs')) as Hnf.
  { intros Hf. apply Hrun. revert Hf. unfold upsert. generalize rs'. clear. induction rs' as [|x l IH].
    - by intros [Hx _]%Forall_cons.
    - rewrite replace_or_push_cons. case_decide; by intros [Hx Hl]%Forall_cons; auto. }
  destruct (json_null _ Hnf) as (s & Hs & Hu & Hj).
  assert (exists d1, exec (persist run) d = (Ok tt, d1) /\ d_files d1 !! RUN_STORE_FILE = Some s) as (d1 & E1 & Hf1).
  { unfold persist. rewrite exec_attempt, E. fold (upsert run rs'). unfold store_runs. rewrite Hs. simpl.
    eexists. split; [done|]. simpl. by rewrite lookup_insert_eq. }
  destruct (load_corrupt d1 s Hf1 Hu Hj) as (d2 & E2 & Hd2); [done|].
  exists d1, d2. split_and!; [done|by unfold repo_list_runs; rewrite exec_attempt, E2|].
  split; [done|]. exists (lit "[]"), []. destruct json_empty as [_ ->]. rewrite Hd2, lookup_insert_eq. by split_and!.
Qed.

(** ** A reader between the two halves of a write *)

(** [persist] reads and empties the store, [list_runs] reads it, [persist] fills
    it, and [list_runs] recovers. *)
Definition race : list bool := [true; true; false; true; false; false; false; false; false].

(** C39: [list_runs] does not take the lock of [persist]. When it reads the store that [persist] has just
    emptied, it takes it for a corrupt one: both calls succeed, the store ends up empty, with neither the runs
    it had nor the new one, and the backup made is of the empty text. *)
Theorem listing_can_erase_runs d rs run :
  stored d rs -> finite_run run -> (forall n, 0 <= wall n)%Z ->
  exists d' b, interleave wall no_io_fault missing race (persist run) repo_list_runs d
      = (Done (Ok tt), Done (Ok []), d')
    /\ stored d' [] /\ b <> RUN_STORE_FILE /\ d_files d' !! b = Some []
    /\ forall name, name <> RUN_STORE_FILE -> name <> b -> d_files d' !! name = d_files d !! name.
Proof.
  intros (Hf & s & rs' & Hs & Hu & Hj & Heq) Hrun Hw.
  assert (Forall finite_run (upsert run rs')) as Hf' by (apply upsert_finite; [done|by apply (finite_lists rs rs')]).
  destruct (json_back _ Hf') as (s2 & _ & Hs2 & _). destruct json_empty as [He1 He2].
  unfold race, persist, repo_list_runs, load_runs. simpl. rewrite Hs, Hu, Hj. simpl. fold (upsert run rs').
  unfold store_runs. rewrite Hs2, He1. simpl. rewrite lookup_insert_eq. simpl. rewrite json_no_text. simpl.
  rewrite (proj2 (Z.ltb_ge _ _)) by apply Hw. simpl.
  eexists _, (backup_name (wall (4 + d_calls d))). pose proof (backup_is_not_store (wall (4 + d_calls d))) as Hne.
  split; [done|]. cbn [d_files]. split_and!; [|done| |].
  - split; [done|]. exists (lit "[]"), []. cbn [d_files]. rewrite lookup_insert_eq, He2. by split_and!.
  - by rewrite !(lookup_insert_ne _ RUN_STORE_FILE), lookup_insert_eq by done.
  - intros name H1 H2. by rewrite !lookup_insert_ne by done.
Qed.

End thms.

(** ** A codec with these laws

    Not JSON: the list as a number, in binary. *)

#[global] Instance f64_eq_dec : EqDecision f64.
Proof. solve_decision. Defined.
#[global] Program Instance f64_countable : Countable f64 :=
  inj_countable' (fun x => match x with
    | S754_zero s => inl (inl s)
    | S754_infinity s => inl (inr s)
    | S754_nan => inr (inl tt)
    | S754_finite s m e => inr (inr (s, m, e))
    end) (fun y => match y with
    | inl (inl s) => S754_zero s
    | inl (inr s) => S754_infinity s
    | inr (inl _) => S754_nan
    | inr (inr (s, m, e)) => S754_finite s m e
    end) _.
Next Obligation. by intros []. Qed.

#[global] Program Instance request_countable : Countable BenchmarkRunRequest :=
  inj_countable' (fun q => (rq_runner q, rq_target_addr q, rq_clients q, rq_requests q, rq_data_size q, rq_pipeline q))
    (fun '(a, b, c, d, e, f) => mkRequest a b c d e f) _.
Next Obligation. by intros []. Qed.

#[global] Instance result_eq_dec : EqDecision BenchmarkResult.
Proof. solve_decision. Defined.
#[global] Program Instance result_countable : Countable BenchmarkResult :=
  inj_countable' (fun r => (br_total_requests r, br_throughput_ops_per_sec r, br_average_latency_ms r,
      br_p50_latency_ms r, br_p95_latency_ms r, br_p99_latency_ms r, br_duration_ms r, br_dataset_bytes r))
    (fun '(a, b, c, d, e, f, g, h) => mkResult a b c d e f g h) _.
Next Obligation. by intros []. Qed.

#[global] Instance run_eq_dec : EqDecision BenchmarkRun.
Proof. solve_decision. Defined.
#[global] Program Instance run_countable : Countable BenchmarkRun :=
  inj_countable' (fun r => (run_id r, run_request r, run_status r, run_created_at r, run_started_at r,
      run_finished_at r, run_result r, run_error_message r))
    (fun '(a, b, c, d, e, f, g, h) => mkRun a b c d e f g h) _.
Next Obligation. by intros []. Qed.

Fixpoint bits (p : positive) : bytes :=
  match p with xH => [] | xO p => Byte.x30 :: bits p | xI p => Byte.x31 :: bits p end.
Fixpoint of_bits (s : bytes) : option positive :=
  match s with
  | [] => Some xH
  | b :: s' => if bool_decide (b = Byte.x30) then xO <$> of_bits s'
               else if bool_decide (b = Byte.x31) then xI <$> of_bits s' else None
  end.

Lemma of_bits_bits p : of_bits (bits p) = Some p.
Proof. induction p as [p IH|p IH|]; simpl; rewrite ?IH; done. Qed.
Lemma bits_ascii p : Forall ascii (bits p).
Proof. induction p; constructor; done. Qed.

#[local] Instance binary_json : RunJson := {
  to_string_pretty runs := Ok (if decide (runs = []) then lit "[]" else Byte.x62 :: bits (encode runs));
  from_str s := if decide (s = lit "[]") then Some [] else
    match s with
    | b :: s' => if decide (b = Byte.x62) then
                   p ← of_bits s'; runs ← decode p; if decide (Forall finite_run runs) then Some runs else None
                 else None
    | [] => None
    end
}.

Lemma binary_text (runs : list BenchmarkRun) : valid_utf8 (if decide (runs = []) then lit "[]" else Byte.x62 :: bits (encode runs)) = true.
Proof.
  unfold valid_utf8. apply bool_decide_true. case_decide; [done|]. apply utf8_ascii. constructor; [done|apply bits_ascii].
Qed.

#[local] Instance binary_json_laws : RunJsonLaws.
Proof.
  split.
  - intros runs Hf. eexists _, runs. split; [done|]. split; [apply binary_text|]. split; [|done]. simpl.
    destruct (decide (runs = [])) as [->|Hne]; [done|]. simpl.
    rewrite of_bits_bits. cbn [mbind option_bind]. rewrite decode_encode. cbn [mbind option_bind]. by rewrite decide_True.
  - intros runs Hf. eexists. split; [done|]. split; [apply binary_text|]. simpl.
    destruct (decide (runs = [])) as [->|Hne]; [by destruct Hf; constructor|]. simpl.
    rewrite of_bits_bits. cbn [mbind option_bind]. rewrite decode_encode. cbn [mbind option_bind]. by rewrite decide_False.
  - done.
  - done.
Qed.

(** ** Concrete runs *)

Definition clock_ms (n : nat) : SystemTime := (1774267200 * 10 ^ 9 + Z.of_nat n * 10 ^ 6)%Z.
Definition run_of (id created : bytes) (result_ : option BenchmarkResult) : BenchmarkRun :=
  mkRun id (mkRequest (lit "redis-benchmark") (lit "127.0.0.1:6379") 32 100000 128 4) (lit "completed") created
    (Some created) (Some created) result_ None.
Definition result_of (throughput : f64) : BenchmarkResult :=
  mkResult 100000 throughput (f64_of_Z 1) (f64_of_Z 1) (f64_of_Z 2) (f64_of_Z 3) 5000 12800000.
Definition older : BenchmarkRun := run_of (lit "run-001") (lit "1774267200Z") (Some (result_of (f64_of_Z 101000))).
Definition newer : BenchmarkRun := run_of (lit "run-002") (lit "1774267201Z") None.
Definition broken : BenchmarkRun := run_of (lit "run-003") (lit "1774267202Z") (Some (result_of S754_nan)).

Definition text_of (runs : list BenchmarkRun) : bytes :=
  match to_string_pretty runs with Ok s => s | Error _ => [] end.
Definition disk_of (runs : list BenchmarkRun) : Disk := mkDisk {[RUN_STORE_FILE := text_of runs]} 0.

Lemma disk_stored runs : Forall finite_run runs -> stored (disk_of runs) runs.
Proof.
  intros Hf. split; [done|]. destruct (json_back runs Hf) as (s & runs' & Hs & Hu & Hj & Heq). exists s, runs'.
  unfold disk_of, text_of. rewrite Hs. simpl. rewrite lookup_singleton_eq. by split_and!.
Qed.

Lemma older_finite : Forall finite_run [older].
Proof. by repeat constructor. Qed.

Lemma repository_refines_list_witness :
  let d := disk_of [older] in
  let ops := [RPersist newer; RList; RGet (lit "run-001")] in
  fst (repo_spec_run ops [older])
    = [RStored; RSummaries [repo_normalize_run newer; repo_normalize_run older]; RRun (Some older)]
  /\ exists answers, (repo_run clock_ms (lit "not found") ops d).1 = Ok <$> answers
       /\ answers ≡ fst (repo_spec_run ops [older])
       /\ stored (repo_run clock_ms (lit "not found") ops d).2 (snd (repo_spec_run ops [older]))
       /\ others_kept d (repo_run clock_ms (lit "not found") ops d).2.
Proof.
  intros d ops. split; [vm_compute; reflexivity|].
  apply (repository_refines_list clock_ms (lit "not found") d); [apply disk_stored, older_finite|by repeat constructor].
Defined.

Lemma corrupt_store_is_backed_up_witness :
  let d := mkDisk {[RUN_STORE_FILE := lit "{ not valid json"]} 0 in
  exists d1 d2, exec clock_ms no_io_fault (lit "not found") repo_list_runs d = (Ok [], d1)
    /\ exec clock_ms no_io_fault (lit "not found") (repo_get_run (lit "x")) d = (Ok None, d2)
    /\ d_files d1 = d_files d2 /\ d_files d1 !! backup_at clock_ms d = Some (lit "{ not valid json") /\ stored d1 []
    /\ forall name, name <> RUN_STORE_FILE -> name <> backup_at clock_ms d -> d_files d1 !! name = d_files d !! name.
Proof.
  intros d. apply (corrupt_store_is_backed_up clock_ms (lit "not found") d); [reflexivity..|].
  unfold clock_ms. lia.
Defined.

Lemma nonfinite_figure_empties_store_witness :
  exists d1 d2, exec clock_ms no_io_fault (lit "not found") (persist broken) (disk_of [older]) = (Ok tt, d1)
    /\ exec clock_ms no_io_fault (lit "not found") repo_list_runs d1 = (Ok [], d2) /\ stored d2 [].
Proof.
  apply (nonfinite_figure_empties_store clock_ms (lit "not found") (disk_of [older]) [older] broken);
    [apply disk_stored, older_finite|by intros []|intros n; unfold clock_ms; lia].
Defined.

Lemma listing_can_erase_runs_witness :
  exists d' b, interleave clock_ms no_io_fault (lit "not found") race (persist newer) repo_list_runs (disk_of [older])
      = (Done (Ok tt), Done (Ok []), d')
    /\ stored d' [] /\ b <> RUN_STORE_FILE /\ d_files d' !! b = Some []
    /\ forall name, name <> RUN_STORE_FILE -> name <> b -> d_files d' !! name = d_files (disk_of [older]) !! name.
Proof.
  apply (listing_can_erase_runs clock_ms (lit "not found") (disk_of [older]) [older] newer);
    [apply disk_stored, older_finite|done|intros n; unfold clock_ms; lia].
Defined.
