(* ===== verification/BenchmarkManager.v ===== *)
(** * The benchmark manager (hkv-gui/src-tauri/src/benchmark_manager.rs)

    The table of runs behind a mutex, the two broadcast channels, and a worker
    thread per run that applies the runner's events. A worker's work is cut where
    it releases the mutex; the system is a step function on the shared state and
    the workers' phases. *)

From S2P Require Import Prelude Decimal F64 RustStr GuiModels RedisBenchmark.

(** ** State *)

Record ActiveRun (H : Type) := mkActive { ar_handle : H; ar_run_index : nat }.
Arguments mkActive {H}. Arguments ar_handle {H}. Arguments ar_run_index {H}.

(** [H]: handles of running benchmarks; [W]: the world of the runners and of the
    sink. What was sent on the channels is kept; a send without receivers is
    ignored by the code. *)
Record ManagerWorld (H W : Type) := mkManager {
  bm_active_runs : gmap bytes (ActiveRun H);
  bm_runs : list BenchmarkRun;
  bm_run_events : list BenchmarkRun;
  bm_lifecycle_events : list BenchmarkEventEnvelope;
  bm_ticks : nat;
  bm_world : W
}.
Arguments mkManager {H W}.
Arguments bm_active_runs {H W}. Arguments bm_runs {H W}. Arguments bm_run_events {H W}.
Arguments bm_lifecycle_events {H W}. Arguments bm_ticks {H W}. Arguments bm_world {H W}.

Definition manager_new {H W} (w : W) : ManagerWorld H W := mkManager ∅ [] [] [] 0 w.

Definition bm_normalize_run (run : BenchmarkRun) : NormalizedRunSummary :=
  mkSummary (run_id run) (rq_runner (run_request run)) (run_status run) (rq_target_addr (run_request run))
    (run_created_at run) (run_finished_at run)
    (br_throughput_ops_per_sec <$> run_result run) (br_p95_latency_ms <$> run_result run).

Definition lifecycle_event_name (event : BenchmarkLifecycleEvent) : bytes :=
  match event with
  | Started => lit "started"
  | Progress _ => lit "running"
  | Completed _ => lit "completed"
  | Failed _ => lit "failed"
  | Cancelled => lit "cancelled"
  end.

(** The texts of a time after the epoch. *)
Definition run_id_at (now : SystemTime) : bytes := lit "run-" ++ dec_u128 (now / 1000000).
Definition iso_at (now : SystemTime) : bytes := dec_nonneg (now / 1000000000) ++ lit "Z".

Section manager.
Context {H W : Type} (wall : nat -> SystemTime).
Context (runners : list (BenchmarkRunner W H)) (handle_stop : H -> W -> result unit RunnerError * W).
Context (sink : BenchmarkRun -> W -> result unit bytes * W).

Abbreviation World := (ManagerWorld H W).
Abbreviation BM := (M World RunnerError).

(** [SystemTime::now()]; a time before the epoch panics. *)
Definition now_after_epoch : BM SystemTime := fun w =>
  let now := wall (bm_ticks w) in
  (if (now <? 0)%Z then Panic else Val now,
   mkManager (bm_active_runs w) (bm_runs w) (bm_run_events w) (bm_lifecycle_events w) (S (bm_ticks w)) (bm_world w)).

Definition next_run_id : BM bytes := now ← now_after_epoch; mret (run_id_at now).
Definition iso_timestamp : BM bytes := now ← now_after_epoch; mret (iso_at now).

Definition in_runner_world {A} (f : W -> result A RunnerError * W) : BM A := fun w =>
  let '(r, w') := f (bm_world w) in
  (match r with Ok a => Val a | Error e => Err e end,
   mkManager (bm_active_runs w) (bm_runs w) (bm_run_events w) (bm_lifecycle_events w) (bm_ticks w) w').

Definition set_active (f : gmap bytes (ActiveRun H) -> gmap bytes (ActiveRun H)) : BM unit :=
  modify (fun w => mkManager (f (bm_active_runs w)) (bm_runs w) (bm_run_events w) (bm_lifecycle_events w)
    (bm_ticks w) (bm_world w)).
Definition set_runs (f : list BenchmarkRun -> list BenchmarkRun) : BM unit :=
  modify (fun w => mkManager (bm_active_runs w) (f (bm_runs w)) (bm_run_events w) (bm_lifecycle_events w)
    (bm_ticks w) (bm_world w)).
Definition send_run (run : BenchmarkRun) : BM unit :=
  modify (fun w => mkManager (bm_active_runs w) (bm_runs w) (bm_run_events w ++ [run]) (bm_lifecycle_events w)
    (bm_ticks w) (bm_world w)).
Definition send_lifecycle (e : BenchmarkEventEnvelope) : BM unit :=
  modify (fun w => mkManager (bm_active_runs w) (bm_runs w) (bm_run_events w) (bm_lifecycle_events w ++ [e])
    (bm_ticks w) (bm_world w)).

Definition lifecycle_envelope (id event : bytes) (message error : option bytes) : BM BenchmarkEventEnvelope :=
  emitted_at ← iso_timestamp;
  mret (mkEnvelope BENCHMARK_EVENT_CHANNEL event id emitted_at message error).

(** ** Calls *)

(** [start], up to the thread it spawns. Between the insertion and the spawn no
    other thread sends for this run, so its sends are one step with it. *)
Definition bm_start (request : BenchmarkRunRequest) : BM BenchmarkRun :=
  match validate request with
  | Error message => throw (mkRunnerError (lit "invalid_request") message)
  | Ok _ =>
      match select_runner runners (rq_runner request) with
      | Error e => throw e
      | Ok runner =>
          id ← next_run_id;
          timestamp ← iso_timestamp;
          active ← in_runner_world (runner_start runner request);
          started_at ← iso_timestamp;
          let run := mkRun id request (lit "running") timestamp (Some started_at) None None None in
          run_index ← gets (fun w => length (bm_runs w));
          set_runs (fun runs => runs ++ [run]);;
          set_active (<[id := mkActive active run_index]>);;
          send_run run;;
          e ← lifecycle_envelope id (lit "started") (Some (lit "benchmark run " ++ id ++ lit " started")) None;
          send_lifecycle e;;
          mret run
      end
  end.

Definition bm_stop (id : bytes) : BM BenchmarkRun :=
  active ← gets (fun w => bm_active_runs w !! id);
  match active with
  | None => throw (mkRunnerError (lit "run_not_found") (lit "benchmark run '" ++ id ++ lit "' is not active"))
  | Some active_run =>
      runs ← gets bm_runs;
      run ← expect (runs !! ar_run_index active_run);
      in_runner_world (handle_stop (ar_handle active_run));;
      mret run
  end.

Definition bm_list_runs (w : World) : list NormalizedRunSummary := bm_normalize_run <$> bm_runs w.
Definition bm_get_run (id : bytes) (w : World) : option BenchmarkRun :=
  snd <$> list_find (fun run => run_id run = id) (bm_runs w).

(** ** The worker *)

Inductive WorkerPhase : Type :=
| Receiving
| Persisting (current : BenchmarkRun)
| Reporting (current : BenchmarkRun) (error : bytes)
| WorkerEnded.

Definition get_or_now (t : option bytes) : BM (option bytes) :=
  match t with Some _ => mret t | None => now ← iso_timestamp; mret (Some now) end.

Definition apply_event (event : BenchmarkLifecycleEvent) (run : BenchmarkRun) : BM BenchmarkRun :=
  match event with
  | Started =>
      started_at ← get_or_now (run_started_at run);
      mret (with_started_at started_at (with_status (lit "running") run))
  | Progress _ => mret (with_status (lit "running") run)
  | Completed res =>
      now ← iso_timestamp;
      mret (with_finished_at (Some now) (with_result (Some res) (with_status (lit "completed") run)))
  | Failed message =>
      now ← iso_timestamp;
      mret (with_finished_at (Some now) (with_error_message (Some message) (with_status (lit "failed") run)))
  | Cancelled =>
      now ← iso_timestamp;
      mret (with_finished_at (Some now) (with_status (lit "cancelled") run))
  end.

Definition progress_message (event : BenchmarkLifecycleEvent) : option bytes :=
  match event with Progress m => Some m | _ => None end.
Definition failure_detail (event : BenchmarkLifecycleEvent) : option bytes :=
  match event with Failed m => Some m | _ => None end.

(** A turn of the worker's loop, up to [persist]. *)
Definition worker_receive (id : bytes) (event : BenchmarkLifecycleEvent) : BM WorkerPhase :=
  active ← gets (fun w => bm_active_runs w !! id);
  match active with
  | None => mret WorkerEnded
  | Some active_run =>
      let run_index := ar_run_index active_run in
      runs ← gets bm_runs;
      before ← expect (runs !! run_index);
      current ← apply_event event before;
      set_runs (<[run_index := current]>);;
      let changed := negb (run_eqb current before) in
      let finished := bool_decide (is_Some (run_finished_at current)) in
      let lifecycle_changed :=
        bool_decide (is_Some (progress_message event)) || bool_decide (is_Some (failure_detail event)) in
      (if finished then set_active (delete id) else mret tt);;
      (if changed then send_run current else mret tt);;
      (if changed || lifecycle_changed then
         e ← lifecycle_envelope (run_id current) (lifecycle_event_name event) (progress_message event)
               (failure_detail event);
         send_lifecycle e
       else mret tt);;
      mret (if finished then Persisting current else Receiving)
  end.

Definition worker_persist (current : BenchmarkRun) : BM WorkerPhase := fun w =>
  let '(r, w') := sink current (bm_world w) in
  (Val (match r with Ok _ => WorkerEnded | Error error => Reporting current error end),
   mkManager (bm_active_runs w) (bm_runs w) (bm_run_events w) (bm_lifecycle_events w) (bm_ticks w) w').

Definition worker_report (current : BenchmarkRun) (error : bytes) : BM WorkerPhase :=
  runs ← gets bm_runs;
  match list_find (fun run => run_id run = run_id current) runs with
  | None => mret WorkerEnded
  | Some (i, run) =>
      finished_at ← get_or_now (run_finished_at run);
      let failed_run := with_finished_at finished_at
        (with_error_message (Some (lit "failed to persist run: " ++ error)) (with_status (lit "failed") run)) in
      set_runs (<[i := failed_run]>);;
      send_run failed_run;;
      e ← lifecycle_envelope (run_id failed_run) (lit "failed") None (run_error_message failed_run);
      send_lifecycle e;;
      mret WorkerEnded
  end.

(** ** The system *)

(** The workers, in the order of the starts, with the id each was given. *)
Record System := mkSystem { sys_world : World; sys_workers : list (bytes * WorkerPhase) }.

Inductive SystemLabel : Type :=
| CallStart (request : BenchmarkRunRequest)
| CallStop (id : bytes)
| EventArrives (worker : nat) (event : BenchmarkLifecycleEvent)
| ChannelCloses (worker : nat)
| WorkerPersists (worker : nat)
| WorkerReports (worker : nat).

(** A worker's step, with the phase it leads to. *)
Definition worker_step (s : System) (i : nat) (id : bytes) (m : BM WorkerPhase) : outcome RunnerError System :=
  match m (sys_world s) with
  | (Val ph, w') => Val (mkSystem w' (<[i := (id, ph)]> (sys_workers s)))
  | (Err e, _) => Err e
  | (Panic, _) => Panic
  | (Diverge, _) => Diverge
  end.

(** [None]: the step is not possible. A call that fails leaves its error to the
    caller and the state as the call left it. *)
Definition sys_step (s : System) (l : SystemLabel) : option (outcome RunnerError System) :=
  match l with
  | CallStart request =>
      Some (match bm_start request (sys_world s) with
            | (Val run, w') => Val (mkSystem w' (sys_workers s ++ [(run_id run, Receiving)]))
            | (Err _, w') => Val (mkSystem w' (sys_workers s))
            | (Panic, _) => Panic
            | (Diverge, _) => Diverge
            end)
  | CallStop id =>
      Some (match bm_stop id (sys_world s) with
            | (Val _, w') | (Err _, w') => Val (mkSystem w' (sys_workers s))
            | (Panic, _) => Panic
            | (Diverge, _) => Diverge
            end)
  | EventArrives i event =>
      match sys_workers s !! i with
      | Some (id, Receiving) => Some (worker_step s i id (worker_receive id event))
      | _ => None
      end
  | ChannelCloses i =>
      match sys_workers s !! i with
      | Some (id, Receiving) => Some (Val (mkSystem (sys_world s) (<[i := (id, WorkerEnded)]> (sys_workers s))))
      | _ => None
      end
  | WorkerPersists i =>
      match sys_workers s !! i with
      | Some (id, Persisting current) => Some (worker_step s i id (worker_persist current))
      | _ => None
      end
  | WorkerReports i =>
      match sys_workers s !! i with
      | Some (id, Reporting current error) => Some (worker_step s i id (worker_report current error))
      | _ => None
      end
  end.

Definition sys_new (w : W) : System := mkSystem (manager_new w) [].

Fixpoint sys_run (s : System) (ls : list SystemLabel) : option System :=
  match ls with
  | [] => Some s
  | l :: ls' => match sys_step s l with Some (Val s') => sys_run s' ls' | _ => None end
  end.

(** The states the manager can reach. *)
Inductive reachable (w : W) : System -> Prop :=
| reachable_new : reachable w (sys_new w)
| reachable_step s l s' : reachable w s -> sys_step s l = Some (Val s') -> reachable w s'.

End manager.

Arguments mkSystem {H W}. Arguments sys_world {H W}. Arguments sys_workers {H W}.
