(* ===== verification/BenchmarkThms.v ===== *)
(** * Properties of the benchmark manager (hkv-gui/src-tauri/src/benchmark_manager.rs)

    The well-formedness of runs and of the table under every interleaving; what
    one run's worker publishes for the events of a run of redis-benchmark; what
    two starts in the same millisecond do. *)

From S2P Require Import Prelude Decimal F64 RustStr GuiModels RedisBenchmark RedisRun BenchmarkManager.

(** ** The states of a run *)

Definition is_running (r : BenchmarkRun) : Prop :=
  run_status r = lit "running" /\ is_Some (run_started_at r) /\ run_finished_at r = None
  /\ run_result r = None /\ run_error_message r = None.

Definition is_finished (r : BenchmarkRun) : Prop :=
  is_Some (run_started_at r) /\ is_Some (run_finished_at r)
  /\ ((run_status r = lit "completed" /\ is_Some (run_result r) /\ run_error_message r = None)
      \/ (run_status r = lit "failed" /\ is_Some (run_error_message r))
      \/ (run_status r = lit "cancelled" /\ run_result r = None /\ run_error_message r = None)).

(** What an event makes of a run, at a time. *)
Definition applied (event : BenchmarkLifecycleEvent) (now : bytes) (run : BenchmarkRun) : BenchmarkRun :=
  match event with
  | Started => with_started_at (Some (default now (run_started_at run))) (with_status (lit "running") run)
  | Progress _ => with_status (lit "running") run
  | Completed res => with_finished_at (Some now) (with_result (Some res) (with_status (lit "completed") run))
  | Failed message =>
      with_finished_at (Some now) (with_error_message (Some message) (with_status (lit "failed") run))
  | Cancelled => with_finished_at (Some now) (with_status (lit "cancelled") run)
  end.

Lemma applied_id ev now r : run_id (applied ev now r) = run_id r.
Proof. by destruct ev. Qed.

Lemma applied_running ev now r : is_running r -> is_terminal ev = false -> applied ev now r = r.
Proof.
  intros (Hs & [t Ht] & Hf & Hr & He). destruct r as [id q st cr sa fa res em]; simpl in *; subst.
  by destruct ev.
Qed.

Lemma applied_finished ev now r : is_running r -> is_terminal ev = true -> is_finished (applied ev now r).
Proof.
  intros (Hs & Ht & Hf & Hr & He). destruct r as [id q st cr sa fa res em]; simpl in *; subst.
  destruct ev; try done; intros _; (split; [done|]); (split; [simpl; eauto|]); simpl; eauto 10.
Qed.

Lemma running_not_finished r : is_running r -> run_finished_at r = None.
Proof. by intros (_&_&?&_). Qed.

Lemma run_eqb_refl r : run_result r = None -> run_eqb r r = true.
Proof. unfold run_eqb. intros ->. by rewrite !bool_decide_true. Qed.

Lemma run_eqb_status a b : run_status a <> run_status b -> run_eqb a b = false.
Proof.
  intros Hne. unfold run_eqb. rewrite (bool_decide_false (run_status a = run_status b)) by done.
  by rewrite !andb_false_r.
Qed.

Lemma applied_changed ev now r : is_running r -> negb (run_eqb (applied ev now r) r) = is_terminal ev.
Proof.
  intros Hr. destruct (is_terminal ev) eqn:E.
  - rewrite run_eqb_status; [done|]. destruct Hr as [-> _]. by destruct ev.
  - rewrite applied_running by done. rewrite run_eqb_refl; [done|]. by destruct Hr as (_&_&_&?&_).
Qed.

Lemma applied_finished_at ev now r : is_running r ->
  bool_decide (is_Some (run_finished_at (applied ev now r))) = is_terminal ev.
Proof.
  intros Hr. pose proof (running_not_finished r Hr) as Hf.
  by destruct ev; simpl; rewrite ?Hf.
Qed.

Section thms.
Context {H W : Type} (wall : nat -> SystemTime) (Hwall : forall n, (0 <= wall n)%Z).
Context (runners : list (BenchmarkRunner W H)) (handle_stop : H -> W -> result unit RunnerError * W).
Context (sink : BenchmarkRun -> W -> result unit bytes * W).

Abbreviation World := (ManagerWorld H W).
Abbreviation sys_step := (sys_step wall runners handle_stop sink).

(** ** What each piece does *)

Definition with_ticks (n : nat) (w : World) : World :=
  mkManager (bm_active_runs w) (bm_runs w) (bm_run_events w) (bm_lifecycle_events w) n (bm_world w).

Lemma now_run w : now_after_epoch wall w = (Val (wall (bm_ticks w)), with_ticks (S (bm_ticks w)) w).
Proof. unfold now_after_epoch. by rewrite (proj2 (Z.ltb_ge _ _)) by apply Hwall. Qed.

Lemma iso_run w : iso_timestamp wall w = (Val (iso_at (wall (bm_ticks w))), with_ticks (S (bm_ticks w)) w).
Proof. unfold iso_timestamp. by rewrite (bind_val _ _ _ _ _ (now_run w)). Qed.

Lemma apply_event_run ev r (w : World) : exists n,
  apply_event wall ev r w = (Val (applied ev (iso_at (wall (bm_ticks w))) r), with_ticks n w).
Proof.
  assert (exists n, w = with_ticks n w) as [n0 Hn0] by (exists (bm_ticks w); by destruct w).
  destruct ev; simpl.
  - unfold get_or_now. destruct (run_started_at r) as [t|] eqn:E.
    + exists n0. rewrite <- Hn0. simpl. done.
    + eexists. rewrite bind_bind, (bind_val _ _ _ _ _ (iso_run w)). simpl. done.
  - exists n0. by rewrite <- Hn0.
  - eexists. by rewrite (bind_val _ _ _ _ _ (iso_run w)).
  - eexists. by rewrite (bind_val _ _ _ _ _ (iso_run w)).
  - eexists. by rewrite (bind_val _ _ _ _ _ (iso_run w)).
Qed.

(** What one event publishes. *)
Definition published (ev : BenchmarkLifecycleEvent) (id at_ : bytes) : list BenchmarkEventEnvelope :=
  if is_terminal ev || bool_decide (is_Some (progress_message ev)) || bool_decide (is_Some (failure_detail ev))
  then [mkEnvelope BENCHMARK_EVENT_CHANNEL (lifecycle_event_name ev) id at_ (progress_message ev) (failure_detail ev)]
  else [].

Lemma worker_receive_run id ev (w : World) a before :
  bm_active_runs w !! id = Some a -> bm_runs w !! ar_run_index a = Some before -> is_running before ->
  exists now at_ n, worker_receive wall id ev w
    = (Val (if is_terminal ev then Persisting (applied ev now before) else Receiving),
       mkManager (if is_terminal ev then delete id (bm_active_runs w) else bm_active_runs w)
         (<[ar_run_index a := applied ev now before]> (bm_runs w))
         (bm_run_events w ++ if is_terminal ev then [applied ev now before] else [])
         (bm_lifecycle_events w ++ published ev (run_id before) at_) n (bm_world w)).
Proof.
  intros Ha Hb Hr. unfold worker_receive. rewrite bind_gets, Ha, bind_gets, Hb.
  change (expect (Some before)) with (mret before : M World RunnerError BenchmarkRun). rewrite bind_ret.
  destruct (apply_event_run ev before w) as [n1 E1].
  rewrite (bind_val _ _ _ _ _ E1). set (now := iso_at (wall (bm_ticks w))).
  unfold set_runs at 1. rewrite bind_modify. cbn [bm_active_runs bm_runs with_ticks].
  rewrite applied_changed, applied_finished_at by done.
  exists now. unfold published. rewrite applied_id.
  destruct (is_terminal ev) eqn:Et; cbn [orb].
  - exists (iso_at (wall n1)), (S n1). unfold set_active, send_run, lifecycle_envelope.
    rewrite !bind_modify. rewrite !bind_bind, (bind_val _ _ _ _ _ (iso_run _)), bind_ret. done.
  - rewrite !bind_ret.
    destruct (bool_decide (is_Some (progress_message ev)) || bool_decide (is_Some (failure_detail ev))) eqn:El.
    + exists (iso_at (wall n1)), (S n1). unfold lifecycle_envelope.
      rewrite !bind_bind, (bind_val _ _ _ _ _ (iso_run _)), bind_ret. cbn. by rewrite app_nil_r.
    + exists [], n1. rewrite bind_ret. cbn. by rewrite !app_nil_r.
Qed.

Definition started_envelope (id at_ : bytes) : BenchmarkEventEnvelope :=
  mkEnvelope BENCHMARK_EVENT_CHANNEL (lit "started") id at_ (Some (lit "benchmark run " ++ id ++ lit " started")) None.

Definition run_at (request : BenchmarkRunRequest) (id created started : bytes) : BenchmarkRun :=
  mkRun id request (lit "running") created (Some started) None None None.

(** A call of [start] registers and announces a running run, or fails with the
    table and the channels as they were. *)
Lemma start_run q (w : World) :
  (exists e n x, bm_start wall runners q w
     = (Err e, mkManager (bm_active_runs w) (bm_runs w) (bm_run_events w) (bm_lifecycle_events w) n x))
  \/ exists h n x started at_,
       let run := run_at q (run_id_at (wall (bm_ticks w))) (iso_at (wall (S (bm_ticks w)))) started in
       bm_start wall runners q w
       = (Val run, mkManager (<[run_id run := mkActive h (length (bm_runs w))]> (bm_active_runs w)) (bm_runs w ++ [run])
            (bm_run_events w ++ [run]) (bm_lifecycle_events w ++ [started_envelope (run_id run) at_]) n x).
Proof.
  assert (w = mkManager (bm_active_runs w) (bm_runs w) (bm_run_events w) (bm_lifecycle_events w) (bm_ticks w) (bm_world w))
    as Hw by (by destruct w).
  unfold bm_start. destruct (validate q) as [[]|m]; [|left; eexists _, _, _; unfold throw; by rewrite Hw at 1].
  destruct (select_runner runners (rq_runner q)) as [runner|e]; [|left; eexists _, _, _; unfold throw; by rewrite Hw at 1].
  unfold next_run_id. rewrite bind_bind, (bind_val _ _ _ _ _ (now_run w)), bind_ret.
  rewrite (bind_val _ _ _ _ _ (iso_run _)). set (w1 := with_ticks (S (bm_ticks (with_ticks (S (bm_ticks w)) w))) (with_ticks (S (bm_ticks w)) w)).
  destruct (runner_start runner q (bm_world w1)) as [[h|e] x] eqn:Er.
  - right. eexists h, _, x, _, _. cbn zeta.
    assert (in_runner_world (runner_start runner q) w1 = (Val h, mkManager (bm_active_runs w1) (bm_runs w1)
      (bm_run_events w1) (bm_lifecycle_events w1) (bm_ticks w1) x)) as E1 by (unfold in_runner_world; by rewrite Er).
    rewrite (bind_val _ _ _ _ _ E1), (bind_val _ _ _ _ _ (iso_run _)), bind_gets.
    unfold set_runs, set_active, send_run, send_lifecycle, lifecycle_envelope. rewrite !bind_modify.
    rewrite bind_bind, (bind_val _ _ _ _ _ (iso_run _)), bind_ret, bind_modify. done.
  - left. eexists e, _, x.
    assert (in_runner_world (runner_start runner q) w1 = (Err e, mkManager (bm_active_runs w1) (bm_runs w1)
      (bm_run_events w1) (bm_lifecycle_events w1) (bm_ticks w1) x)) as E1 by (unfold in_runner_world; by rewrite Er).
    by rewrite (bind_err _ _ _ _ _ E1).
Qed.

Lemma get_or_now_run t (w : World) : exists n,
  get_or_now wall t w = (Val (Some (default (iso_at (wall (bm_ticks w))) t)), with_ticks n w).
Proof.
  unfold get_or_now. destruct t as [t|].
  - exists (bm_ticks w). by destruct w.
  - eexists. by rewrite (bind_val _ _ _ _ _ (iso_run w)).
Qed.

Definition persist_failure (error : bytes) : bytes := lit "failed to persist run: " ++ error.

(** The run as a failed [persist] leaves it. *)
Definition unpersisted (error now : bytes) (run : BenchmarkRun) : BenchmarkRun :=
  with_finished_at (Some (default now (run_finished_at run)))
    (with_error_message (Some (persist_failure error)) (with_status (lit "failed") run)).

Lemma worker_report_run current error (w : World) i run :
  list_find (fun run => run_id run = run_id current) (bm_runs w) = Some (i, run) ->
  exists now at_ n, worker_report wall current error w
    = (Val WorkerEnded, mkManager (bm_active_runs w) (<[i := unpersisted error now run]> (bm_runs w))
         (bm_run_events w ++ [unpersisted error now run])
         (bm_lifecycle_events w
          ++ [mkEnvelope BENCHMARK_EVENT_CHANNEL (lit "failed") (run_id run) at_ None (Some (persist_failure error))])
         n (bm_world w)).
Proof.
  intros Hf. unfold worker_report. rewrite bind_gets, Hf.
  destruct (get_or_now_run (run_finished_at run) w) as [n1 E1]. rewrite (bind_val _ _ _ _ _ E1).
  unfold set_runs, send_run, send_lifecycle, lifecycle_envelope. rewrite !bind_modify.
  rewrite bind_bind, (bind_val _ _ _ _ _ (iso_run _)), bind_ret, bind_modify. eauto 10.
Qed.

(** ** The invariant *)

Definition ids (w : World) : list bytes := run_id <$> bm_runs w.

(** What a worker's phase says about its run, the [i]-th, and the table. *)
Definition phase_ok (w : World) (i : nat) (id : bytes) (ph : WorkerPhase) (r : BenchmarkRun) : Prop :=
  match ph with
  | Receiving => is_running r /\ exists h, bm_active_runs w !! id = Some (mkActive h i)
  | Persisting current | Reporting current _ => current = r /\ is_finished r /\ bm_active_runs w !! id = None
  | WorkerEnded => (is_finished r /\ bm_active_runs w !! id = None)
                   \/ (is_running r /\ exists h, bm_active_runs w !! id = Some (mkActive h i))
  end.

Record sys_inv (s : System) : Prop := {
  si_length : length (sys_workers s) = length (bm_runs (sys_world s));
  si_worker i id ph r : sys_workers s !! i = Some (id, ph) -> bm_runs (sys_world s) !! i = Some r ->
    run_id r = id /\ phase_ok (sys_world s) i id ph r;
  si_active id a : bm_active_runs (sys_world s) !! id = Some a ->
    exists r, bm_runs (sys_world s) !! ar_run_index a = Some r /\ run_id r = id /\ is_running r
}.

Lemma ids_inj (w : World) i j ri rj : NoDup (ids w) -> bm_runs w !! i = Some ri -> bm_runs w !! j = Some rj ->
  run_id ri = run_id rj -> i = j.
Proof.
  intros Hnd Hi Hj E. eapply NoDup_lookup; [exact Hnd|..]; unfold ids; rewrite list_lookup_fmap.
  - rewrite Hi. done.
  - rewrite Hj. simpl. by rewrite E.
Qed.

Lemma inv_worker s i id ph : sys_inv s -> sys_workers s !! i = Some (id, ph) ->
  exists r, bm_runs (sys_world s) !! i = Some r /\ run_id r = id /\ phase_ok (sys_world s) i id ph r.
Proof.
  intros Hs Hi. destruct (bm_runs (sys_world s) !! i) as [r|] eqn:Er.
  - exists r. destruct (si_worker _ Hs _ _ _ _ Hi Er). eauto.
  - apply lookup_lt_Some in Hi. apply lookup_ge_None in Er. pose proof (si_length _ Hs). lia.
Qed.

(** A step of worker [i] that puts [r'] for its run and changes the table at most at its id. *)
Lemma inv_update s i id ph ph' r r' w' :
  sys_inv s -> NoDup (ids (sys_world s)) -> sys_workers s !! i = Some (id, ph) ->
  bm_runs (sys_world s) !! i = Some r -> run_id r' = id ->
  bm_runs w' = <[i := r']> (bm_runs (sys_world s)) ->
  (forall id', id' <> id -> bm_active_runs w' !! id' = bm_active_runs (sys_world s) !! id') ->
  phase_ok w' i id ph' r' ->
  (forall a, bm_active_runs w' !! id = Some a -> ar_run_index a = i /\ is_running r') ->
  sys_inv (mkSystem w' (<[i := (id, ph')]> (sys_workers s))).
Proof.
  intros Hs Hnd Hi Hr Hid Hruns Hact Hph Ha. pose proof (lookup_lt_Some _ _ _ Hr) as Hlt.
  pose proof (lookup_lt_Some _ _ _ Hi) as Hlt2. split; cbn [sys_world sys_workers].
  - rewrite Hruns, !length_insert. apply Hs.
  - intros j idj phj rj. rewrite Hruns. destruct (decide (j = i)) as [->|Hne].
    + rewrite !list_lookup_insert_eq by done. intros [= <- <-] [= <-]. done.
    + rewrite !list_lookup_insert_ne by done. intros Hj Hrj.
      destruct (si_worker _ Hs _ _ _ _ Hj Hrj) as [Hidj Hphj]. split; [done|].
      assert (idj <> id) as Hneid.
      { intros ->. apply Hne. eapply ids_inj; [exact Hnd|exact Hrj|exact Hr|].
        destruct (si_worker _ Hs _ _ _ _ Hi Hr) as [-> _]. done. }
      unfold phase_ok in *. by rewrite Hact.
  - intros id' a Hlook. rewrite Hruns. destruct (decide (id' = id)) as [->|Hne].
    + destruct (Ha a Hlook) as [Hai Hrun]. exists r'.
      split; [|done]. destruct a as [h k]. cbn [ar_run_index] in *. subst k. by rewrite list_lookup_insert_eq.
    + rewrite Hact in Hlook by done. destruct (si_active _ Hs _ _ Hlook) as (r2 & Hr2 & Hid2 & Hrun2).
      exists r2. rewrite list_lookup_insert_ne; [done|]. intros Heq. rewrite <- Heq, Hr in Hr2. injection Hr2 as <-.
      destruct (si_worker _ Hs _ _ _ _ Hi Hr) as [Hid3 _]. congruence.
Qed.

Lemma start_keeps_inv s q : sys_inv s -> NoDup (ids (sys_world s)) ->
  forall run w', bm_start wall runners q (sys_world s) = (Val run, w') -> NoDup (ids w') ->
  sys_inv (mkSystem w' (sys_workers s ++ [(run_id run, Receiving)])).
Proof.
  intros Hs Hnd run w' E Hnd'. destruct (start_run q (sys_world s)) as [(e & n & x & E2)|(h & n & x & st & at_ & E2)];
    rewrite E2 in E; [done|]. cbn zeta in E. injection E as <- <-.
  remember (run_at _ _ _ _) as run eqn:Erun.
  assert (run_id_at (wall (bm_ticks (sys_world s))) = run_id run) as Hid0 by (by rewrite Erun). rewrite Hid0 in *. unfold ids in Hnd'. cbn [bm_runs] in Hnd'. rewrite fmap_app in Hnd'.
  assert (run_id run ∉ ids (sys_world s)) as Hnew by (apply NoDup_app in Hnd' as (_ & Hd & _); set_solver).
  assert (is_running run) as Hrun by (rewrite Erun; split_and!; [done|simpl; eauto|done..]).
  clear Erun E2.
  assert (forall id, id <> run_id run -> <[run_id run:=mkActive h (length (bm_runs (sys_world s)))]>
    (bm_active_runs (sys_world s)) !! id = bm_active_runs (sys_world s) !! id) as Hact
    by (intros id Hne; by rewrite lookup_insert_ne).
  split; cbn [sys_world sys_workers bm_runs bm_active_runs].
  - rewrite !length_app. by rewrite (si_length _ Hs).
  - intros i id ph r. rewrite !lookup_app, (si_length _ Hs).
    destruct (decide (i < length (bm_runs (sys_world s)))) as [Hi|Hi].
    + destruct (lookup_lt_is_Some_2 _ _ Hi) as [ri Hri]. rewrite Hri.
      assert (i < length (sys_workers s)) as Hi2 by (by rewrite (si_length _ Hs)).
      destruct (lookup_lt_is_Some_2 _ _ Hi2) as [[idi phi] Hwi]. rewrite Hwi. intros [= <- <-] [= <-].
      destruct (si_worker _ Hs _ _ _ _ Hwi Hri) as [Hid Hph]. split; [done|].
      assert (idi <> run_id run).
      { intros ->. apply Hnew. rewrite <- Hid. apply list_elem_of_fmap. exists ri. split; [done|]. by eapply list_elem_of_lookup_2. }
      unfold phase_ok in *. cbn [bm_active_runs]. by rewrite Hact.
    + rewrite (lookup_ge_None_2 (sys_workers s)) by (rewrite (si_length _ Hs); lia).
      rewrite (lookup_ge_None_2 (bm_runs _)) by lia.
      destruct (i - length (bm_runs (sys_world s))) as [|k] eqn:Ek; [|done].
      intros F1 F2. cbn in F1, F2. simplify_eq. split; [done|].
      split; [done|]. exists h. cbn [bm_active_runs]. rewrite lookup_insert_eq.
      replace i with (length (bm_runs (sys_world s))) by lia. done.
  - intros id a Ha. destruct (decide (id = run_id run)) as [->|Hne].
    + rewrite lookup_insert_eq in Ha. injection Ha as <-. exists run. cbn [ar_run_index].
      by rewrite list_lookup_middle.
    + rewrite Hact in Ha by done. destruct (si_active _ Hs _ _ Ha) as (r & Hr & Hid & Hrun2).
      exists r. split_and!; [|done..]. by apply lookup_app_l_Some.
Qed.

Lemma insert_ids (w : World) i r r' : bm_runs w !! i = Some r -> run_id r' = run_id r ->
  run_id <$> <[i := r']> (bm_runs w) = ids w.
Proof.
  intros Hr Hid. rewrite list_fmap_insert. apply list_insert_id. unfold ids. rewrite list_lookup_fmap, Hr. simpl. by rewrite Hid.
Qed.

(** The outcome of a step is a state, and keeps the invariant as long as ids are unique. *)
Definition good_step (o : outcome RunnerError System) : Prop :=
  exists s', o = Val s' /\ (NoDup (ids (sys_world s')) -> sys_inv s').

Lemma event_step s i id ev : sys_inv s -> NoDup (ids (sys_world s)) -> sys_workers s !! i = Some (id, Receiving) ->
  good_step (worker_step s i id (worker_receive wall id ev)).
Proof.
  intros Hs Hnd Hi. destruct (inv_worker _ _ _ _ Hs Hi) as (r & Hr & Hid & Hrun & h & Ha).
  destruct (worker_receive_run id ev (sys_world s) _ r Ha Hr Hrun) as (now & at_ & n & E).
  unfold worker_step. rewrite E. eexists. split; [done|]. cbn [sys_world ar_run_index].
  intros _. eapply (inv_update s i id Receiving); [done..|by rewrite applied_id|done| | |]; cbn [bm_active_runs].
  - intros id' Hne. destruct (is_terminal ev); [by rewrite lookup_delete_ne|done].
  - destruct (is_terminal ev) eqn:Et; cbn.
    + split_and!; [done|by apply applied_finished|by rewrite lookup_delete_eq].
    + rewrite applied_running by done. eauto.
  - intros a. destruct (is_terminal ev) eqn:Et; [by rewrite lookup_delete_eq|].
    rewrite Ha, applied_running by done. by intros [= <-].
Qed.

(** A step of a worker that touches no run. *)
Lemma phase_step s i id ph ph' r w' : sys_inv s -> NoDup (ids (sys_world s)) -> sys_workers s !! i = Some (id, ph) ->
  bm_runs (sys_world s) !! i = Some r -> bm_runs w' = bm_runs (sys_world s) ->
  bm_active_runs w' = bm_active_runs (sys_world s) -> phase_ok (sys_world s) i id ph' r ->
  good_step (Val (mkSystem w' (<[i := (id, ph')]> (sys_workers s)))).
Proof.
  intros Hs Hnd Hi Hr Hw Ha Hph. eexists. split; [done|]. intros _. destruct (si_worker _ Hs _ _ _ _ Hi Hr) as [Hid _].
  eapply inv_update; [done..| | | |].
  - rewrite Hw. by rewrite list_insert_id.
  - by rewrite Ha.
  - unfold phase_ok in *. by rewrite Ha.
  - rewrite Ha. intros a Hlook. destruct (si_active _ Hs _ _ Hlook) as (r2 & Hr2 & Hid2 & Hrun).
    assert (ar_run_index a = i) as Hai by (eapply ids_inj; [done..|congruence]).
    split; [done|]. rewrite Hai, Hr in Hr2. by injection Hr2 as <-.
Qed.

Lemma report_step s i id current error : sys_inv s -> NoDup (ids (sys_world s)) ->
  sys_workers s !! i = Some (id, Reporting current error) ->
  good_step (worker_step s i id (worker_report wall current error)).
Proof.
  intros Hs Hnd Hi. destruct (inv_worker _ _ _ _ Hs Hi) as (r & Hr & Hid & -> & Hfin & Hnone).
  assert (list_find (fun run => run_id run = run_id r) (bm_runs (sys_world s)) = Some (i, r)) as Hfind.
  { apply list_find_Some. split_and!; [done|done|]. intros j y Hj Hlt E.
    pose proof (ids_inj _ _ _ _ _ Hnd Hj Hr E). lia. }
  destruct (worker_report_run r error _ _ _ Hfind) as (now & at_ & n & E).
  unfold worker_step. rewrite E. eexists. split; [done|]. cbn [sys_world].
  intros _. eapply (inv_update s i id _ _ r (unpersisted error now r)); [done..| | |]; cbn [bm_active_runs].
  - done.
  - left. split; [|done]. destruct Hfin as (Hst & Hf & _). split_and!; [done|simpl; eauto|]. right. left. split; [done|simpl; eauto].
  - by rewrite Hnone.
Qed.

Lemma start_step s q : sys_inv s -> NoDup (ids (sys_world s)) ->
  exists o, sys_step s (CallStart q) = Some o /\ good_step o.
Proof.
  intros Hs Hnd. eexists. split; [done|]. cbn [BenchmarkManager.sys_step].
  destruct (bm_start wall runners q (sys_world s)) as [r w'] eqn:E.
  destruct (start_run q (sys_world s)) as [(e & n & x & E2)|(h & n & x & st & at_ & E2)];
    rewrite E2 in E; cbn zeta in E; injection E as <- <-; eexists; (split; [done|]); cbn [sys_world].
  - intros _. split; cbn [sys_world sys_workers bm_runs bm_active_runs]; apply Hs.
  - intros Hnd'. by eapply start_keeps_inv.
Qed.

Lemma stop_step s id : sys_inv s -> exists o, sys_step s (CallStop id) = Some o /\ good_step o.
Proof.
  intros Hs. eexists. split; [done|]. cbn [BenchmarkManager.sys_step]. unfold bm_stop. rewrite bind_gets.
  assert (forall w', bm_runs w' = bm_runs (sys_world s) -> bm_active_runs w' = bm_active_runs (sys_world s) ->
    good_step (Val (mkSystem w' (sys_workers s)))) as Hsame.
  { intros w' Hr Ha. eexists. split; [done|]. intros _.
    destruct Hs as [H1 H2 H3]. split; cbn [sys_world sys_workers]; rewrite ?Hr, ?Ha; [done| |done].
    intros i id' ph r Hi Hri. destruct (H2 i id' ph r Hi Hri) as [Hid Hph]. split; [done|].
    unfold phase_ok in *. by rewrite Ha. }
  destruct (bm_active_runs (sys_world s) !! id) as [a|] eqn:Ea; [|by apply Hsame].
  destruct (si_active _ Hs _ _ Ea) as (r & Hr & _). rewrite bind_gets, Hr.
  change (expect (Some r)) with (mret r : M World RunnerError BenchmarkRun). rewrite bind_ret.
  unfold in_runner_world, mbind, M_bind. destruct (handle_stop (ar_handle a) (bm_world (sys_world s))) as [[u|e] x]; by apply Hsame.
Qed.

Lemma step_good s l o : sys_inv s -> NoDup (ids (sys_world s)) -> sys_step s l = Some o -> good_step o.
Proof.
  intros Hs Hnd. destruct l as [q|id|i ev|i|i|i].
  - intros [= <-]. by destruct (start_step s q Hs Hnd) as (o & [= <-] & Hg).
  - intros [= <-]. by destruct (stop_step s id Hs) as (o & [= <-] & Hg).
  - simpl. destruct (sys_workers s !! i) as [[id [| | |]]|] eqn:Hi; try done. intros [= <-]. by apply event_step.
  - simpl. destruct (sys_workers s !! i) as [[id [| | |]]|] eqn:Hi; try done. intros [= <-].
    destruct (inv_worker _ _ _ _ Hs Hi) as (r & Hr & Hid & Hrun & Ha).
    eapply phase_step; [done..|]. right. eauto.
  - simpl. destruct (sys_workers s !! i) as [[id [|c| |]]|] eqn:Hi; try done. intros [= <-].
    destruct (inv_worker _ _ _ _ Hs Hi) as (r & Hr & Hid & -> & Hfin & Hn).
    unfold worker_step, worker_persist. destruct (sink r (bm_world (sys_world s))) as [[u|e] x].
    + eapply phase_step; [done..|]. by left.
    + eapply phase_step; [done..|]. done.
  - simpl. destruct (sys_workers s !! i) as [[id [| |c e|]]|] eqn:Hi; try done. intros [= <-]. by apply report_step.
Qed.

(** ** Ids only accumulate *)

Definition same_runs {A} (m : M World RunnerError A) : Prop := forall w, bm_runs (snd (m w)) = bm_runs w.

Lemma same_runs_bind {A B} (m : M World RunnerError A) (k : A -> M World RunnerError B) :
  same_runs m -> (forall a, same_runs (k a)) -> same_runs (m ≫= k).
Proof.
  intros Hm Hk w. unfold mbind, M_bind. specialize (Hm w). destruct (m w) as [[a|e| |] w1]; simpl in *; [|done..].
  by rewrite Hk.
Qed.

Lemma same_runs_now : same_runs (now_after_epoch wall).
Proof. intros w. by rewrite now_run. Qed.

Lemma same_runs_iso : same_runs (iso_timestamp wall).
Proof. intros w. by rewrite iso_run. Qed.

Lemma same_runs_announce (c : bool) (m : M World RunnerError unit) : same_runs m -> same_runs (if c then m else mret tt).
Proof. by destruct c. Qed.

Lemma same_runs_lifecycle id ev msg err :
  same_runs (e ← lifecycle_envelope wall id ev msg err; send_lifecycle e).
Proof.
  apply same_runs_bind; [|done]. apply same_runs_bind; [apply same_runs_iso|done].
Qed.

Lemma worker_receive_ids id ev w : run_id <$> bm_runs (snd (worker_receive wall id ev w)) = ids w.
Proof.
  unfold worker_receive. rewrite bind_gets. destruct (bm_active_runs w !! id) as [a|]; [|done].
  rewrite bind_gets. destruct (bm_runs w !! ar_run_index a) as [before|] eqn:Eb; [|done].
  change (expect (Some before)) with (mret before : M World RunnerError BenchmarkRun). rewrite bind_ret.
  destruct (apply_event_run ev before w) as [n1 E1]. rewrite (bind_val _ _ _ _ _ E1).
  unfold set_runs at 1. rewrite bind_modify. rewrite same_runs_bind.
  - cbn [bm_runs with_ticks]. rewrite (insert_ids _ _ before); [done..|by rewrite applied_id].
  - by apply same_runs_announce.
  - intros _. apply same_runs_bind; [by apply same_runs_announce|]. intros _.
    apply same_runs_bind; [|done]. apply same_runs_announce, same_runs_lifecycle.
Qed.

Lemma worker_report_ids current error w : run_id <$> bm_runs (snd (worker_report wall current error w)) = ids w.
Proof.
  destruct (list_find (fun run => run_id run = run_id current) (bm_runs w)) as [[i run]|] eqn:Ef.
  - destruct (worker_report_run current error w i run Ef) as (now & at_ & n & E). rewrite E. cbn [snd bm_runs].
    apply list_find_Some in Ef as (Hi & _). by rewrite (insert_ids _ _ run).
  - unfold worker_report. by rewrite bind_gets, Ef.
Qed.

Lemma stop_same_runs id : same_runs (bm_stop handle_stop id).
Proof.
  apply same_runs_bind; [done|]. intros [a|]; [|done]. apply same_runs_bind; [done|]. intros runs.
  apply same_runs_bind; [by destruct (runs !! ar_run_index a)|]. intros run. apply same_runs_bind; [|done].
  intros w. unfold in_runner_world. by destruct (handle_stop _ _).
Qed.

Lemma step_ids s l s' : sys_step s l = Some (Val s') -> ids (sys_world s) `prefix_of` ids (sys_world s').
Proof.
  assert (forall i id (m : M World RunnerError WorkerPhase),
    run_id <$> bm_runs (snd (m (sys_world s))) = ids (sys_world s) ->
    Some (worker_step s i id m) = Some (Val s') -> ids (sys_world s) `prefix_of` ids (sys_world s')) as Hw.
  { intros i id m Hm [= E]. unfold worker_step in E. destruct (m (sys_world s)) as [[ph|e| |] w'] eqn:Em; try done.
    injection E as <-. simpl in *. unfold ids at 2. by rewrite Hm. }
  destruct l as [q|id|i ev|i|i|i]; simpl.
  - destruct (start_run q (sys_world s)) as [(e & n & x & ->)|(h & n & x & st & at_ & E2)]; [by intros [= <-]|].
    cbn zeta in E2. rewrite E2. intros [= <-]. unfold ids. cbn. rewrite fmap_app. by eexists.
  - pose proof (stop_same_runs id (sys_world s)) as Hs.
    destruct (bm_stop handle_stop id (sys_world s)) as [[r|e| |] w']; intros [= <-]; simpl in *; unfold ids; by rewrite Hs.
  - destruct (sys_workers s !! i) as [[id [| | |]]|]; try done. apply Hw, worker_receive_ids.
  - destruct (sys_workers s !! i) as [[id [| | |]]|]; try done. by intros [= <-].
  - destruct (sys_workers s !! i) as [[id [|c| |]]|]; try done. apply Hw.
    unfold worker_persist. by destruct (sink c (bm_world (sys_world s))) as [[u|e] x].
  - destruct (sys_workers s !! i) as [[id [| |c e|]]|]; try done. apply Hw, worker_report_ids.
Qed.

Lemma prefix_NoDup {A} (l1 l2 : list A) : l1 `prefix_of` l2 -> NoDup l2 -> NoDup l1.
Proof. intros [k ->] Hnd. by apply NoDup_app in Hnd as (? & _). Qed.

Lemma reachable_inv w s : reachable wall runners handle_stop sink w s -> NoDup (ids (sys_world s)) -> sys_inv s.
Proof.
  induction 1 as [|s l s' Hreach IH Hstep]; intros Hnd.
  - split; cbn; [done|by intros ?? ?? ?|]. intros id a. by rewrite lookup_empty.
  - pose proof (prefix_NoDup _ _ (step_ids _ _ _ Hstep) Hnd) as Hnd0.
    destruct (step_good _ _ _ (IH Hnd0) Hnd0 Hstep) as (s2 & [= <-] & Hi). by apply Hi.
Qed.

(** Every run of a reachable table is running, with its entry in the active table, or finished without one. *)
Lemma inv_runs s i r : sys_inv s -> bm_runs (sys_world s) !! i = Some r ->
  (is_running r /\ exists h, bm_active_runs (sys_world s) !! run_id r = Some (mkActive h i))
  \/ (is_finished r /\ bm_active_runs (sys_world s) !! run_id r = None).
Proof.
  intros Hs Hr. pose proof (lookup_lt_Some _ _ _ Hr) as Hlt. rewrite <- (si_length _ Hs) in Hlt.
  destruct (lookup_lt_is_Some_2 _ _ Hlt) as [[id ph] Hi]. destruct (si_worker _ Hs _ _ _ _ Hi Hr) as [<- Hph].
  destruct ph; simpl in Hph; naive_solver.
Qed.

(** ** The events of one run *)

Abbreviation sys_run := (sys_run wall runners handle_stop sink).

Lemma run_reachable w s ls : forall s1, reachable wall runners handle_stop sink w s -> sys_run s ls = Some s1 ->
  reachable wall runners handle_stop sink w s1.
Proof.
  revert s. induction ls as [|l ls IH]; intros s s1 Hr; simpl; [by intros [= <-]|].
  destruct (BenchmarkManager.sys_step wall runners handle_stop sink s l) as [[s2|e| |]|] eqn:E; try done.
  apply IH. by eapply reachable_step.
Qed.

(** What subscribers read of an envelope, apart from its time. *)
Definition notice (e : BenchmarkEventEnvelope) : bytes * bytes * option bytes * option bytes :=
  (ee_run_id e, ee_event e, ee_message e, ee_error e).
Definition running_notice (id m : bytes) : bytes * bytes * option bytes * option bytes := (id, lit "running", Some m, None).

Lemma sys_run_app s ls1 ls2 s1 : sys_run s ls1 = Some s1 -> sys_run s (ls1 ++ ls2) = sys_run s1 ls2.
Proof.
  revert s. induction ls1 as [|l ls1 IH]; intros s; simpl; [by intros [= ->]|].
  destruct (BenchmarkManager.sys_step wall runners handle_stop sink s l) as [[s2|e| |]|]; try done. apply IH.
Qed.

(** The worker on an event, with the run it is given. *)
Lemma event_arrives s i id h r ev :
  sys_workers s !! i = Some (id, Receiving) -> bm_active_runs (sys_world s) !! id = Some (mkActive h i) ->
  bm_runs (sys_world s) !! i = Some r -> run_id r = id -> is_running r ->
  exists now at_ s1, sys_step s (EventArrives i ev) = Some (Val s1)
    /\ sys_workers s1 = <[i := (id, if is_terminal ev then Persisting (applied ev now r) else Receiving)]> (sys_workers s)
    /\ bm_runs (sys_world s1) = <[i := applied ev now r]> (bm_runs (sys_world s))
    /\ bm_active_runs (sys_world s1)
       = (if is_terminal ev then delete id (bm_active_runs (sys_world s)) else bm_active_runs (sys_world s))
    /\ bm_run_events (sys_world s1) = bm_run_events (sys_world s) ++ (if is_terminal ev then [applied ev now r] else [])
    /\ bm_lifecycle_events (sys_world s1) = bm_lifecycle_events (sys_world s) ++ published ev id at_
    /\ bm_world (sys_world s1) = bm_world (sys_world s).
Proof.
  intros Hw Ha Hr Hid Hrun. destruct (worker_receive_run id ev (sys_world s) _ r Ha Hr Hrun) as (now & at_ & n & E).
  exists now, at_. eexists. cbn [BenchmarkManager.sys_step]. rewrite Hw. unfold worker_step. rewrite E.
  split; [done|]. cbn [sys_world sys_workers bm_runs bm_active_runs bm_run_events bm_lifecycle_events bm_world ar_run_index].
  rewrite Hid. by split_and!.
Qed.

Lemma feed_lines i id h r lines : forall s,
  sys_workers s !! i = Some (id, Receiving) -> bm_active_runs (sys_world s) !! id = Some (mkActive h i) ->
  bm_runs (sys_world s) !! i = Some r -> run_id r = id -> is_running r ->
  exists s1, sys_run s (EventArrives i ∘ Progress <$> lines) = Some s1
    /\ sys_workers s1 = sys_workers s /\ bm_runs (sys_world s1) = bm_runs (sys_world s)
    /\ bm_active_runs (sys_world s1) = bm_active_runs (sys_world s)
    /\ bm_run_events (sys_world s1) = bm_run_events (sys_world s)
    /\ notice <$> bm_lifecycle_events (sys_world s1)
       = (notice <$> bm_lifecycle_events (sys_world s)) ++ (running_notice id <$> lines)
    /\ bm_world (sys_world s1) = bm_world (sys_world s).
Proof.
  induction lines as [|m lines IH]; intros s Hw Ha Hr Hid Hrun.
  - exists s. rewrite app_nil_r. by split_and!.
  - destruct (event_arrives s i id h r (Progress m) Hw Ha Hr Hid Hrun)
      as (now & at_ & s1 & E & Hw1 & Hr1 & Ha1 & He1 & Hl1 & Hx1).
    cbn [is_terminal] in *. rewrite applied_running, list_insert_id in Hr1 by done.
    rewrite list_insert_id in Hw1 by done. rewrite app_nil_r in He1.
    destruct (IH s1) as (s2 & E2 & Hw2 & Hr2 & Ha2 & He2 & Hl2 & Hx2); try congruence.
    exists s2. rewrite fmap_cons. cbn [BenchmarkManager.sys_run]. cbn [compose]. rewrite E. split; [done|].
    split_and!; try congruence. rewrite Hl2, Hl1, fmap_app, <- app_assoc. done.
Qed.

Lemma worker_at s i id ph r : sys_inv s -> sys_workers s !! i = Some (id, ph) -> bm_runs (sys_world s) !! i = Some r ->
  run_id r = id /\ phase_ok (sys_world s) i id ph r.
Proof. intros Hs Hi Hr. apply (si_worker _ Hs _ _ _ _ Hi Hr). Qed.

(** A terminal event, and what persisting then does. *)
Lemma terminal_arrives s i id h r t :
  sys_workers s !! i = Some (id, Receiving) -> bm_active_runs (sys_world s) !! id = Some (mkActive h i) ->
  bm_runs (sys_world s) !! i = Some r -> run_id r = id -> is_running r -> is_terminal t = true ->
  exists now s1, sys_step s (EventArrives i t) = Some (Val s1)
    /\ sys_workers s1 !! i = Some (id, Persisting (applied t now r))
    /\ bm_runs (sys_world s1) = <[i := applied t now r]> (bm_runs (sys_world s))
    /\ bm_active_runs (sys_world s1) = delete id (bm_active_runs (sys_world s))
    /\ bm_run_events (sys_world s1) = bm_run_events (sys_world s) ++ [applied t now r]
    /\ notice <$> bm_lifecycle_events (sys_world s1)
       = (notice <$> bm_lifecycle_events (sys_world s)) ++ [(id, lifecycle_event_name t, None, failure_detail t)]
    /\ bm_world (sys_world s1) = bm_world (sys_world s).
Proof.
  intros Hw Ha Hr Hid Hrun Ht.
  destruct (event_arrives s i id h r t Hw Ha Hr Hid Hrun) as (now & at_ & s1 & E & Hw1 & Hr1 & Ha1 & He1 & Hl1 & Hx1).
  rewrite Ht in *. exists now, s1. split_and!; try done.
  - rewrite Hw1, list_lookup_insert_eq; [done|]. by eapply lookup_lt_Some.
  - rewrite Hl1, fmap_app. f_equal. unfold published. rewrite Ht. by destruct t.
Qed.

Lemma started_arrives s i id h r :
  sys_workers s !! i = Some (id, Receiving) -> bm_active_runs (sys_world s) !! id = Some (mkActive h i) ->
  bm_runs (sys_world s) !! i = Some r -> run_id r = id -> is_running r ->
  exists s1, sys_step s (EventArrives i Started) = Some (Val s1)
    /\ sys_workers s1 = sys_workers s /\ bm_runs (sys_world s1) = bm_runs (sys_world s)
    /\ bm_active_runs (sys_world s1) = bm_active_runs (sys_world s)
    /\ bm_run_events (sys_world s1) = bm_run_events (sys_world s)
    /\ bm_lifecycle_events (sys_world s1) = bm_lifecycle_events (sys_world s)
    /\ bm_world (sys_world s1) = bm_world (sys_world s).
Proof.
  intros Hw Ha Hr Hid Hrun.
  destruct (event_arrives s i id h r Started Hw Ha Hr Hid Hrun) as (now & at_ & s1 & E & Hw1 & Hr1 & Ha1 & He1 & Hl1 & Hx1).
  cbn [is_terminal] in *. rewrite applied_running, list_insert_id in Hr1 by done. rewrite list_insert_id in Hw1 by done.
  rewrite app_nil_r in He1. change (published Started id at_) with (@nil BenchmarkEventEnvelope) in Hl1.
  rewrite app_nil_r in Hl1. exists s1. by split_and!.
Qed.

Lemma feed_outcome s i id h r m lines t :
  sys_workers s !! i = Some (id, Receiving) -> bm_active_runs (sys_world s) !! id = Some (mkActive h i) ->
  bm_runs (sys_world s) !! i = Some r -> run_id r = id -> is_running r -> is_terminal t = true ->
  exists now s1, sys_run s (EventArrives i <$> (Started :: Progress m :: (Progress <$> lines)) ++ [t]) = Some s1
    /\ sys_workers s1 !! i = Some (id, Persisting (applied t now r))
    /\ bm_runs (sys_world s1) = <[i := applied t now r]> (bm_runs (sys_world s))
    /\ bm_active_runs (sys_world s1) = delete id (bm_active_runs (sys_world s))
    /\ bm_run_events (sys_world s1) = bm_run_events (sys_world s) ++ [applied t now r]
    /\ notice <$> bm_lifecycle_events (sys_world s1) = (notice <$> bm_lifecycle_events (sys_world s))
         ++ (running_notice id <$> m :: lines) ++ [(id, lifecycle_event_name t, None, failure_detail t)]
    /\ bm_world (sys_world s1) = bm_world (sys_world s).
Proof.
  intros Hw Ha Hr Hid Hrun Ht.
  destruct (started_arrives s i id h r Hw Ha Hr Hid Hrun) as (s1 & E1 & Hw1 & Hr1 & Ha1 & He1 & Hl1 & Hx1).
  destruct (feed_lines i id h r (m :: lines) s1) as (s2 & E2 & Hw2 & Hr2 & Ha2 & He2 & Hl2 & Hx2); try congruence.
  destruct (terminal_arrives s2 i id h r t) as (now & s3 & E3 & Hw3 & Hr3 & Ha3 & He3 & Hl3 & Hx3); try congruence.
  exists now, s3. split.
  - replace (EventArrives i <$> (Started :: Progress m :: (Progress <$> lines)) ++ [t])
      with (EventArrives i Started :: (EventArrives i ∘ Progress <$> m :: lines) ++ [EventArrives i t])
      by (rewrite fmap_app, list_fmap_compose; done).
    cbn [BenchmarkManager.sys_run]. rewrite E1, (sys_run_app _ _ _ _ E2). cbn [BenchmarkManager.sys_run]. by rewrite E3.
  - split_and!; try congruence. rewrite Hl3, Hl2, Hl1, <- app_assoc. done.
Qed.

(** Persisting a finished run: kept as it is, or marked failed. *)
Lemma persist_result s i id r : sys_inv s -> NoDup (ids (sys_world s)) ->
  sys_workers s !! i = Some (id, Persisting r) -> bm_runs (sys_world s) !! i = Some r ->
  exists s1, sys_step s (WorkerPersists i) = Some (Val s1)
    /\ bm_world (sys_world s1) = snd (sink r (bm_world (sys_world s)))
    /\ bm_runs (sys_world s1) = bm_runs (sys_world s)
    /\ match fst (sink r (bm_world (sys_world s))) with
       | Ok _ => sys_workers s1 !! i = Some (id, WorkerEnded)
       | Error e => exists now s2, sys_step s1 (WorkerReports i) = Some (Val s2)
           /\ sys_workers s2 !! i = Some (id, WorkerEnded)
           /\ bm_runs (sys_world s2) = <[i := unpersisted e now r]> (bm_runs (sys_world s))
           /\ bm_run_events (sys_world s2) = bm_run_events (sys_world s) ++ [unpersisted e now r]
       end.
Proof.
  intros Hs Hnd Hi Hr. destruct (worker_at _ _ _ _ _ Hs Hi Hr) as (Hid & _ & Hfin & Hnone).
  pose proof (lookup_lt_Some _ _ _ Hi) as Hlt. cbn [BenchmarkManager.sys_step]. rewrite Hi.
  unfold worker_step, worker_persist. destruct (sink r (bm_world (sys_world s))) as [[u|e] x]; cbn [fst snd].
  - eexists. split_and!; [done..|]. by apply list_lookup_insert_eq.
  - eexists. split_and!; [done..|]. cbn [BenchmarkManager.sys_step sys_workers]. rewrite list_lookup_insert_eq by done.
    cbn [sys_world]. set (w1 := mkManager _ _ _ _ _ _).
    assert (list_find (fun run => run_id run = run_id r) (bm_runs w1) = Some (i, r)) as Hfind.
    { apply list_find_Some. split_and!; [done|done|]. intros j y Hj Hlt2 E. pose proof (ids_inj _ _ _ _ _ Hnd Hj Hr E). lia. }
    destruct (worker_report_run r e w1 i r Hfind) as (now & at_ & n & E). unfold worker_step. cbn [sys_world]. rewrite E.
    exists now. eexists. split_and!; [done|cbn [sys_workers]; rewrite list_lookup_insert_eq; [done|by rewrite length_insert]|done|done].
Qed.

(** C17: A run whose id is unique and whose worker is fed what its redis-benchmark process sends, in
    whatever order the threads of that process have run, ends as the process's outcome says: one
    "running" notice for the opening message and for every line of output, one notice and one published
    run for the outcome; the entry in the active table is removed and nothing after the outcome is read;
    the run is given to the sink once, and stays as it is or, if the sink fails, becomes a failed run
    that says so. *)
Theorem worker_follows_runner spawn q b0 ls b w s i id r :
  redis_start spawn q = Ok b0 -> bench_run b0 ls = Some b -> bp_observer b = Ended ->
  reachable wall runners handle_stop sink w s -> NoDup (ids (sys_world s)) ->
  sys_workers s !! i = Some (id, Receiving) -> bm_runs (sys_world s) !! i = Some r ->
  (exists h, bm_active_runs (sys_world s) !! id = Some (mkActive h i)) /\
  exists lines t rest now s1 s2,
    bp_events b = started_events q ++ (Progress <$> lines) ++ t :: rest /\ is_terminal t = true
    /\ sys_run s (EventArrives i <$> started_events q ++ (Progress <$> lines) ++ [t]) = Some s1
    /\ (forall ev, sys_step s1 (EventArrives i ev) = None)
    /\ bm_active_runs (sys_world s1) = delete id (bm_active_runs (sys_world s))
    /\ bm_runs (sys_world s1) = <[i := applied t now r]> (bm_runs (sys_world s)) /\ is_finished (applied t now r)
    /\ bm_run_events (sys_world s1) = bm_run_events (sys_world s) ++ [applied t now r]
    /\ notice <$> bm_lifecycle_events (sys_world s1) = (notice <$> bm_lifecycle_events (sys_world s))
         ++ (running_notice id <$> started_message q :: lines) ++ [(id, lifecycle_event_name t, None, failure_detail t)]
    /\ sys_step s1 (WorkerPersists i) = Some (Val s2)
    /\ bm_world (sys_world s2) = snd (sink (applied t now r) (bm_world (sys_world s)))
    /\ match fst (sink (applied t now r) (bm_world (sys_world s))) with
       | Ok _ => sys_workers s2 !! i = Some (id, WorkerEnded) /\ bm_runs (sys_world s2) = bm_runs (sys_world s1)
       | Error e => exists now' s3, sys_step s2 (WorkerReports i) = Some (Val s3)
           /\ sys_workers s3 !! i = Some (id, WorkerEnded)
           /\ bm_runs (sys_world s3) = <[i := unpersisted e now' (applied t now r)]> (bm_runs (sys_world s))
       end.
Proof.
  intros H0 Hb He Hreach Hnd Hw Hr. pose proof (reachable_inv _ _ Hreach Hnd) as Hs.
  destruct (worker_at _ _ _ _ _ Hs Hw Hr) as (Hid & Hrun & h & Ha). split; [by exists h|].
  destruct (ended_events _ _ _ _ _ H0 Hb He) as (sent&dout&derr&x&before&after&_&_&_&_&_&_&Hev).
  destruct (outcome_shape (flagged before) x (snd (read_stream dout)) (snd (read_stream derr))) as (t & rest & Ho & Ht).
  rewrite Ho in Hev.
  destruct (feed_outcome s i id h r (started_message q) (snd <$> sent) t Hw Ha Hr Hid Hrun Ht)
    as (now & s1 & E1 & Hw1 & Hr1 & Ha1 & He1 & Hl1 & Hx1).
  assert (NoDup (ids (sys_world s1))) as Hnd1.
  { unfold ids. by rewrite Hr1, (insert_ids _ _ r) by (by rewrite ?applied_id). }
  assert (sys_inv s1) as Hs1 by (by eapply reachable_inv, Hnd1; eapply run_reachable).
  destruct (persist_result s1 i id (applied t now r) Hs1 Hnd1 Hw1) as (s2 & E2 & Hx2 & Hr2 & Hm).
  { rewrite Hr1, list_lookup_insert_eq; [done|]. by eapply lookup_lt_Some. }
  rewrite Hx1 in Hx2, Hm. exists (snd <$> sent), t, rest, now, s1, s2. split_and!; try done.
  - by rewrite <- list_fmap_compose.
  - intros ev. cbn [BenchmarkManager.sys_step]. by rewrite Hw1.
  - by apply applied_finished.
  - destruct (fst (sink _ _)); [done|]. destruct Hm as (now' & s3 & E3 & Hw3 & Hr3 & _).
    exists now', s3. split_and!; [done..|]. by rewrite Hr3, Hr1, list_insert_insert_eq.
Qed.

(** C18: Whatever starts, stops and worker steps have been interleaved, as long as no two runs were given
    one id: every run of the table is either running (a start time, no end, result or error, and an active
    entry that leads to it) or finished with the fields its status calls for and no active entry; and no
    call and no worker step can panic, whatever it is given. *)
Theorem manager_runs_wellformed w s :
  reachable wall runners handle_stop sink w s -> NoDup (ids (sys_world s)) ->
  (forall i r, bm_runs (sys_world s) !! i = Some r ->
     (is_running r /\ exists h, bm_active_runs (sys_world s) !! run_id r = Some (mkActive h i))
     \/ (is_finished r /\ bm_active_runs (sys_world s) !! run_id r = None))
  /\ (forall id a, bm_active_runs (sys_world s) !! id = Some a ->
        exists r, bm_runs (sys_world s) !! ar_run_index a = Some r /\ run_id r = id /\ is_running r)
  /\ (forall l o, sys_step s l = Some o -> exists s', o = Val s').
Proof.
  intros Hreach Hnd. pose proof (reachable_inv _ _ Hreach Hnd) as Hs. split_and!.
  - intros i r. by apply inv_runs.
  - apply Hs.
  - intros l o Ho. destruct (step_good _ _ _ Hs Hnd Ho) as (s' & -> & _). by exists s'.
Qed.

(** ** Two starts in one millisecond *)

Lemma start_grew s q s1 : sys_step s (CallStart q) = Some (Val s1) ->
  length (sys_workers s1) = S (length (sys_workers s)) ->
  exists h r, is_running r /\ run_id r = run_id_at (wall (bm_ticks (sys_world s)))
    /\ bm_runs (sys_world s1) = bm_runs (sys_world s) ++ [r]
    /\ bm_active_runs (sys_world s1) = <[run_id r := mkActive h (length (bm_runs (sys_world s)))]> (bm_active_runs (sys_world s))
    /\ sys_workers s1 = sys_workers s ++ [(run_id r, Receiving)].
Proof.
  cbn [BenchmarkManager.sys_step].
  destruct (start_run q (sys_world s)) as [(e & n & x & ->)|(h & n & x & st & at_ & E2)].
  - intros [= <-]. cbn [sys_workers]. lia.
  - cbn zeta in E2. rewrite E2. intros [= <-] _.
    exists h, (run_at q (run_id_at (wall (bm_ticks (sys_world s)))) (iso_at (wall (S (bm_ticks (sys_world s))))) st).
    split; [split_and!; [done|simpl; eauto|done..]|]. by split_and!.
Qed.

Lemma stray_worker s i id ev : sys_workers s !! i = Some (id, Receiving) -> bm_active_runs (sys_world s) !! id = None ->
  exists s1, sys_step s (EventArrives i ev) = Some (Val s1) /\ bm_runs (sys_world s1) = bm_runs (sys_world s)
    /\ sys_workers s1 !! i = Some (id, WorkerEnded).
Proof.
  intros Hw Ha. cbn [BenchmarkManager.sys_step]. rewrite Hw. unfold worker_step, worker_receive. rewrite bind_gets, Ha.
  eexists. split_and!; [done..|]. apply list_lookup_insert_eq. by eapply lookup_lt_Some.
Qed.

(** Two runs with one id at the end of the table, the second's entry in the active
    table, a worker for each. *)
Record collided (s2 : System (H := H) (W := W)) (older : list BenchmarkRun) (r1 r2 : BenchmarkRun) (id : bytes) : Prop := {
  co_id1 : run_id r1 = id;
  co_id2 : run_id r2 = id;
  co_running1 : is_running r1;
  co_running2 : is_running r2;
  co_runs : bm_runs (sys_world s2) = older ++ [r1; r2];
  co_active : exists h, bm_active_runs (sys_world s2) !! id = Some (mkActive h (S (length older)));
  co_workers i : i = length older \/ i = S (length older) -> sys_workers s2 !! i = Some (id, Receiving)
}.

Lemma starts_collide w s q1 q2 s1 s2 :
  reachable wall runners handle_stop sink w s -> NoDup (ids (sys_world s)) ->
  sys_step s (CallStart q1) = Some (Val s1) -> length (sys_workers s1) = S (length (sys_workers s)) ->
  sys_step s1 (CallStart q2) = Some (Val s2) -> length (sys_workers s2) = S (length (sys_workers s1)) ->
  (wall (bm_ticks (sys_world s)) / 1000000 = wall (bm_ticks (sys_world s1)) / 1000000)%Z ->
  exists id r1 r2, collided s2 (bm_runs (sys_world s)) r1 r2 id.
Proof.
  intros Hreach Hnd E1 L1 E2 L2 Hms. pose proof (si_length _ (reachable_inv _ _ Hreach Hnd)) as Hl.
  destruct (start_grew _ _ _ E1 L1) as (h1 & r1 & Hrun1 & Hid1 & Hr1 & Ha1 & Hw1).
  destruct (start_grew _ _ _ E2 L2) as (h2 & r2 & Hrun2 & Hid2 & Hr2 & Ha2 & Hw2).
  unfold run_id_at in Hid1, Hid2. rewrite <- Hms, <- Hid1 in Hid2. rewrite Hid2 in Ha2, Hw2.
  rewrite Hr1, <- app_assoc in Hr2. rewrite Hw1, <- app_assoc in Hw2. cbn [app] in Hr2, Hw2.
  exists (run_id r1), r1, r2. split; try done.
  - exists h2. by rewrite Ha2, lookup_insert_eq, Hr1, length_app, Nat.add_1_r.
  - rewrite <- Hl, Hw2. intros i [-> | ->]; rewrite lookup_app_r by lia;
      [by rewrite Nat.sub_diag|by replace (S _ - _) with 1 by lia].
Qed.

Lemma unpersisted_first (older : list BenchmarkRun) r1 r2 current :
  run_id current ∉ run_id <$> older -> run_id r1 = run_id current ->
  list_find (fun run => run_id run = run_id current) (older ++ [r1; r2]) = Some (length older, r1).
Proof.
  intros Hn Hid. apply list_find_Some. split_and!; [by apply list_lookup_middle|done|].
  intros j y Hj Hlt E. rewrite lookup_app_l in Hj by done. apply Hn. rewrite <- E. apply list_elem_of_fmap_2.
  by eapply list_elem_of_lookup_2.
Qed.

(** C37: Two starts that read the clock in one millisecond give their runs one id. The second run's entry
    replaces the first's: the outcome of whichever benchmark ends first is written to the second run, while the
    first run is still "running", neither run can be stopped any more, and the worker of the other benchmark gives
    up at its next event without a trace of it. When the run is persisted the worker that wrote it ends and leaves
    the table as it is; if persisting fails, it is the first run (of those with this id) that is marked as failed,
    and the second keeps its outcome. *)
Theorem same_millisecond_starts_collide w s q1 q2 s1 s2 :
  reachable wall runners handle_stop sink w s -> NoDup (ids (sys_world s)) ->
  sys_step s (CallStart q1) = Some (Val s1) -> length (sys_workers s1) = S (length (sys_workers s)) ->
  sys_step s1 (CallStart q2) = Some (Val s2) -> length (sys_workers s2) = S (length (sys_workers s1)) ->
  (wall (bm_ticks (sys_world s)) / 1000000 = wall (bm_ticks (sys_world s1)) / 1000000)%Z ->
  let n := length (bm_runs (sys_world s)) in
  exists id r1 r2, run_id r1 = id /\ run_id r2 = id /\ is_running r1 /\ is_running r2
    /\ bm_runs (sys_world s2) = bm_runs (sys_world s) ++ [r1; r2]
    /\ forall i j t, (i = n /\ j = S n) \/ (i = S n /\ j = n) -> is_terminal t = true ->
         exists now s3, sys_step s2 (EventArrives i t) = Some (Val s3)
           /\ bm_runs (sys_world s3) = bm_runs (sys_world s) ++ [r1; applied t now r2]
           /\ fst (bm_stop handle_stop id (sys_world s3))
             = Err (mkRunnerError (lit "run_not_found") (lit "benchmark run '" ++ id ++ lit "' is not active"))
           /\ (forall ev, exists s4, sys_step s3 (EventArrives j ev) = Some (Val s4)
                 /\ bm_runs (sys_world s4) = bm_runs (sys_world s3) /\ sys_workers s4 !! j = Some (id, WorkerEnded))
           /\ exists s4, sys_step s3 (WorkerPersists i) = Some (Val s4) /\ bm_runs (sys_world s4) = bm_runs (sys_world s3)
                /\ match fst (sink (applied t now r2) (bm_world (sys_world s3))) with
                   | Ok _ => sys_workers s4 !! i = Some (id, WorkerEnded)
                   | Error error => id ∉ ids (sys_world s) -> exists at_ s5, sys_step s4 (WorkerReports i) = Some (Val s5)
                       /\ bm_runs (sys_world s5) = bm_runs (sys_world s) ++ [unpersisted error at_ r1; applied t now r2]
                       /\ sys_workers s5 !! i = Some (id, WorkerEnded)
                   end.
Proof.
  intros Hreach Hnd E1 L1 E2 L2 Hms n. destruct (starts_collide _ _ _ _ _ _ Hreach Hnd E1 L1 E2 L2 Hms)
    as (id & r1 & r2 & [Hid1 Hid2 Hrun1 Hrun2 Hr2 [h Hact] Hwk]).
  exists id, r1, r2. split_and!; [done..|]. intros i j t Hij Ht.
  assert (bm_runs (sys_world s2) !! S n = Some r2) as Hlook.
  { rewrite Hr2, lookup_app_r by (unfold n; lia). by replace (S n - _) with 1 by lia. }
  destruct (worker_receive_run id t (sys_world s2) _ r2 Hact Hlook Hrun2) as (now & at_ & k & E). rewrite Ht in E. cbn [ar_run_index] in E.
  assert (sys_workers s2 !! i = Some (id, Receiving)) as Hi by (apply Hwk; tauto).
  assert (sys_workers s2 !! j = Some (id, Receiving)) as Hj by (apply Hwk; tauto).
  assert (<[S (length (bm_runs (sys_world s))) := applied t now r2]> (bm_runs (sys_world s2)) = bm_runs (sys_world s) ++ [r1; applied t now r2]) as Hruns.
  { rewrite Hr2, insert_app_r_alt by lia. by replace (S _ - _) with 1 by lia. }
  pose proof (lookup_lt_Some _ _ _ Hi) as Hlt.
  exists now. eexists. split.
  { cbn [BenchmarkManager.sys_step]. rewrite Hi. unfold worker_step. rewrite E. reflexivity. }
  cbn [sys_world sys_workers bm_runs bm_world]. rewrite Hruns. split_and!; [done| | |].
  - unfold bm_stop. rewrite bind_gets. cbn [bm_active_runs]. by rewrite lookup_delete_eq.
  - intros ev. apply stray_worker; cbn [sys_workers sys_world bm_active_runs]; [|by rewrite lookup_delete_eq].
    by rewrite list_lookup_insert_ne by lia.
  - cbn [BenchmarkManager.sys_step sys_workers]. rewrite list_lookup_insert_eq by done. unfold worker_step, worker_persist.
    cbn [sys_world bm_world]. destruct (sink _ _) as [[[]|error] x]; cbn [fst];
      (eexists; split; [reflexivity|]); (split; [done|]); cbn [sys_workers];
      [by rewrite list_lookup_insert_eq by (by rewrite length_insert)|].
    intros Hnew. cbn [BenchmarkManager.sys_step sys_workers sys_world]. rewrite list_lookup_insert_eq by (by rewrite length_insert).
    unfold worker_step. match goal with |- context [worker_report wall _ error ?w3] =>
      destruct (worker_report_run (applied t now r2) error w3 (length (bm_runs (sys_world s))) r1) as (at1 & at2 & k1 & E3) end.
    { cbn [bm_runs]. rewrite ?Hruns. apply unpersisted_first; rewrite applied_id; [by rewrite Hid2|congruence]. }
    rewrite E3. exists at1. eexists. split; [reflexivity|]. cbn [sys_world bm_runs sys_workers]. split.
    + rewrite ?Hruns. by rewrite (insert_app_r_alt _ _ (length _)), Nat.sub_diag by lia.
    + by rewrite list_lookup_insert_eq by (by rewrite !length_insert).
Qed.

End thms.

(** ** A manager at work *)

(** A runner that always starts, a sink that keeps the ids it is given. *)
Definition demo_runner : BenchmarkRunner (list bytes) unit := mkRunner (lit "redis-benchmark") (fun _ w => (Ok tt, w)).
Definition demo_stop (_ : unit) (w : list bytes) : result unit RunnerError * list bytes := (Ok tt, w).
Definition demo_sink (r : BenchmarkRun) (w : list bytes) : result unit bytes * list bytes := (Ok tt, w ++ [run_id r]).
Definition slow_clock (n : nat) : SystemTime := (1700000000000000000 + Z.of_nat n * 1000000000)%Z.
Definition quick_clock (n : nat) : SystemTime := (1700000000000000000 + Z.of_nat n)%Z.

Lemma slow_clock_ok n : (0 <= slow_clock n)%Z.
Proof. unfold slow_clock. lia. Qed.
Lemma quick_clock_ok n : (0 <= quick_clock n)%Z.
Proof. unfold quick_clock. lia. Qed.

Definition demo_run (wall : nat -> SystemTime) (ls : list SystemLabel) : option (System (H := unit) (W := list bytes)) :=
  sys_run wall [demo_runner] demo_stop demo_sink (sys_new []) ls.
Definition demo_state (wall : nat -> SystemTime) (ls : list SystemLabel) : System (H := unit) (W := list bytes) :=
  default (sys_new []) (demo_run wall ls).

Lemma demo_reachable wall ls s : demo_run wall ls = Some s -> reachable wall [demo_runner] demo_stop demo_sink [] s.
Proof. unfold demo_run. intros Hr. exact (run_reachable wall [demo_runner] demo_stop demo_sink [] (sys_new []) ls s (reachable_new _ _ _ _ _) Hr). Qed.

Definition two_starts : list SystemLabel :=
  [CallStart request0; CallStart request0; EventArrives 0 Cancelled; WorkerPersists 0].

Lemma manager_runs_wellformed_witness :
  let s := demo_state slow_clock two_starts in
  run_status <$> bm_runs (sys_world s) = [lit "cancelled"; lit "running"] /\ NoDup (ids (sys_world s))
  /\ (forall i r, bm_runs (sys_world s) !! i = Some r ->
     (is_running r /\ exists h, bm_active_runs (sys_world s) !! run_id r = Some (mkActive h i))
     \/ (is_finished r /\ bm_active_runs (sys_world s) !! run_id r = None)).
Proof.
  cbn zeta. split; [vm_compute; reflexivity|].
  assert (NoDup (ids (sys_world (demo_state slow_clock two_starts)))) as Hnd
    by (apply (bool_decide_unpack _); vm_compute; exact I).
  split; [exact Hnd|].
  apply (manager_runs_wellformed slow_clock slow_clock_ok [demo_runner] demo_stop demo_sink []); [|exact Hnd].
  apply (demo_reachable slow_clock two_starts). vm_compute. reflexivity.
Defined.

Definition demo_id : bytes := run_id_at (slow_clock 0).
Definition first_run : BenchmarkRun := run_at request0 demo_id (iso_at (slow_clock 1)) (iso_at (slow_clock 2)).

Lemma worker_follows_runner_witness :
  let s := demo_state slow_clock [CallStart request0] in
  exists lines t rest now s1 s2,
    bp_events ended0 = started_events request0 ++ (Progress <$> lines) ++ t :: rest /\ is_terminal t = true
    /\ sys_run slow_clock [demo_runner] demo_stop demo_sink s
         (EventArrives 0 <$> started_events request0 ++ (Progress <$> lines) ++ [t]) = Some s1
    /\ bm_runs (sys_world s1) = <[0 := applied t now first_run]> (bm_runs (sys_world s))
    /\ sys_step slow_clock [demo_runner] demo_stop demo_sink s1 (WorkerPersists 0) = Some (Val s2)
    /\ sys_workers s2 !! 0 = Some (demo_id, WorkerEnded) /\ bm_runs (sys_world s2) = bm_runs (sys_world s1).
Proof.
  cbn zeta.
  destruct (worker_follows_runner slow_clock slow_clock_ok [demo_runner] demo_stop demo_sink
    spawn0 request0 bench0 labels0 ended0 [] (demo_state slow_clock [CallStart request0]) 0 demo_id first_run)
    as (_ & lines & t & rest & now & s1 & s2 & Hev & Ht & H1 & _ & _ & Hr1 & _ & _ & _ & H2 & _ & Hw & Hr2);
    [vm_compute; reflexivity|vm_compute; reflexivity|vm_compute; reflexivity
    |apply (demo_reachable slow_clock [CallStart request0]); vm_compute; reflexivity
    |apply (bool_decide_unpack _); vm_compute; exact I|vm_compute; reflexivity|vm_compute; reflexivity|].
  - exists lines, t, rest, now, s1, s2. split_and!; assumption.
Defined.

Lemma same_millisecond_starts_collide_witness :
  let s := demo_state quick_clock [CallStart request0; CallStart request0] in
  exists id r1 r2, run_id r1 = id /\ run_id r2 = id /\ is_running r1 /\ is_running r2
    /\ bm_runs (sys_world s) = [r1; r2]
    /\ exists now s3, sys_step quick_clock [demo_runner] demo_stop demo_sink s (EventArrives 0 Cancelled) = Some (Val s3)
         /\ bm_runs (sys_world s3) = [r1; applied Cancelled now r2].
Proof.
  cbn zeta.
  destruct (same_millisecond_starts_collide quick_clock quick_clock_ok [demo_runner] demo_stop demo_sink []
    (sys_new []) request0 request0 (demo_state quick_clock [CallStart request0])
    (demo_state quick_clock [CallStart request0; CallStart request0]))
    as (id & r1 & r2 & Hid1 & Hid2 & Hrun1 & Hrun2 & Hr & Hev);
    [constructor|constructor|vm_compute; reflexivity..|].
  exists id, r1, r2. split_and!; try assumption.
  destruct (Hev 0 1 Cancelled (or_introl (conj eq_refl eq_refl)) eq_refl) as (now & s3 & H3 & Hr3 & _). exists now, s3. split; assumption.
Defined.
