(* ===== verification/ServerManager.v ===== *)
(** * The server process manager (hkv-gui/src-tauri/src/server_manager.rs)

    Starting, watching and stopping one hkv-server child process, and the parser
    of its INFO text. The operating system's processes and clock are the classes
    [ChildProcess] and [Ambient]; [ProcessLauncher] is the source's trait, and
    [system_launcher] the source's implementation over [ChildProcess]. *)

From S2P Require Import Prelude Decimal F64 RustStr GuiModels.

Definition DEFAULT_ADDRESS : bytes := lit "127.0.0.1".
Definition DEFAULT_PORT : Z := 6380.
Definition EARLY_EXIT_WINDOW : Duration := 250000000%Z.

Record LaunchSpec := mkSpec { spec_program : bytes; spec_env : list (bytes * bytes) }.

(** ** Processes *)

(** [X]: the world outside; [C]: child handles. Errors are given by their text. *)
Class ProcessLauncher (X C : Type) := {
  spawn : LaunchSpec -> X -> result C bytes * X;
  child_id : C -> Z;
  try_wait : C -> X -> result (option Z) bytes * X;
  kill : C -> X -> result unit bytes * X;
  wait : C -> X -> result unit bytes * X
}.

(** [std::process]: an exit status may have no code. *)
Class ChildProcess (X C : Type) := {
  os_spawn : bytes -> list (bytes * bytes) -> X -> result C bytes * X;
  os_id : C -> Z;
  os_try_wait : C -> X -> result (option (option Z)) bytes * X;
  os_kill : C -> X -> result unit bytes * X;
  os_wait : C -> X -> result (option Z) bytes * X
}.

(** [std::thread::sleep] and [SystemTime::now]. *)
Class Ambient (X : Type) := {
  sleep : Duration -> X -> X;
  system_time : X -> SystemTime * X
}.

Section system_launcher.
Context {X C : Type} `{ChildProcess X C} (binary_path : bytes).

Definition system_spawn (spec : LaunchSpec) (x : X) : result C bytes * X :=
  let '(r, x') := os_spawn (spec_program spec) (spec_env spec) x in
  (match r with
   | Ok child => Ok child
   | Error err => Error (lit "failed to start hkv-server from " ++ binary_path ++ lit ": " ++ err)
   end, x').

Definition system_try_wait (c : C) (x : X) : result (option Z) bytes * X :=
  let '(r, x') := os_try_wait c x in
  (match r with Ok status => Ok ((fun value => default (-1)%Z value) <$> status) | Error e => Error e end, x').

Definition system_wait (c : C) (x : X) : result unit bytes * X :=
  let '(r, x') := os_wait c x in (match r with Ok _ => Ok tt | Error e => Error e end, x').

Definition system_launcher : ProcessLauncher X C :=
  {| spawn := system_spawn; child_id := os_id; try_wait := system_try_wait; kill := os_kill; wait := system_wait |}.
End system_launcher.

(** ** State *)

Record ManagedProcess (C : Type) := mkProcess {
  mp_child : C;
  mp_address : bytes;
  mp_started_at : bytes;
  mp_pid : Z
}.
Arguments mkProcess {C}. Arguments mp_child {C}. Arguments mp_address {C}.
Arguments mp_started_at {C}. Arguments mp_pid {C}.

Record ServerWorld (X C : Type) := mkServerWorld {
  sm_process : option (ManagedProcess C);
  sm_last_error : option bytes;
  sm_last_launch_spec : option LaunchSpec;
  sm_outside : X
}.
Arguments mkServerWorld {X C}. Arguments sm_process {X C}. Arguments sm_last_error {X C}.
Arguments sm_last_launch_spec {X C}. Arguments sm_outside {X C}.

Definition with_launcher {X C} (x : X) : ServerWorld X C := mkServerWorld None None None x.

Definition default_request : StartServerRequest := mkStartServer DEFAULT_ADDRESS DEFAULT_PORT.
Definition host_port (address : bytes) (port : Z) : bytes := address ++ lit ":" ++ dec_nonneg port.
Definition default_address_string : bytes := host_port DEFAULT_ADDRESS DEFAULT_PORT.
Definition server_binary_name : bytes := lit "hkv-server".
(** [CARGO_MANIFEST_DIR] is two directories below the root of the workspace. *)
Definition default_server_binary_path (workspace_root : bytes) : bytes :=
  workspace_root ++ lit "/target/debug/" ++ server_binary_name.

Definition iso_seconds (time : SystemTime) : bytes := dec_nonneg (Z.max 0 time / 1000000000) ++ lit "Z".

Definition running_status (address : bytes) (pid : Z) (started_at : bytes) (last_error : option bytes) : ServerStatus :=
  mkStatus (lit "running") address (Some pid) (Some started_at) last_error.
Definition stopped_status (address : bytes) (last_error : option bytes) : ServerStatus :=
  mkStatus (lit "stopped") address None None last_error.
Definition process_status {C} (p : ManagedProcess C) (last_error : option bytes) : ServerStatus :=
  running_status (mp_address p) (mp_pid p) (mp_started_at p) last_error.

(** The texts of the errors. *)
Definition inspect_state (err : bytes) : bytes := lit "failed to inspect hkv-server state: " ++ err.
Definition inspect_startup (err : bytes) : bytes := lit "failed to inspect hkv-server startup: " ++ err.
Definition exited_early (code : Z) : bytes :=
  lit "hkv-server exited before becoming ready (exit code " ++ dec_string code ++ lit ")".
Definition already_exited (code : Z) : bytes :=
  lit "hkv-server already exited (exit code " ++ dec_string code ++ lit ")".
Definition exited_unexpectedly (code : Z) : bytes :=
  lit "hkv-server exited unexpectedly (exit code " ++ dec_string code ++ lit ")".

(** ** Operations *)

Section manager.
Context {X C : Type} `{ProcessLauncher X C} `{Ambient X} (workspace_root : bytes).

Abbreviation World := (ServerWorld X C).
Abbreviation SM := (M World bytes).

Definition set_server_process (p : option (ManagedProcess C)) : SM unit :=
  modify (fun w => mkServerWorld p (sm_last_error w) (sm_last_launch_spec w) (sm_outside w)).
Definition set_server_error (e : option bytes) : SM unit :=
  modify (fun w => mkServerWorld (sm_process w) e (sm_last_launch_spec w) (sm_outside w)).
Definition set_launch_spec (s : LaunchSpec) : SM unit :=
  modify (fun w => mkServerWorld (sm_process w) (sm_last_error w) (Some s) (sm_outside w)).

(** A call of a process, its [Result] as a value. *)
Definition outside {A} (f : X -> A * X) : SM A := fun w =>
  let '(r, x) := f (sm_outside w) in
  (Val r, mkServerWorld (sm_process w) (sm_last_error w) (sm_last_launch_spec w) x).
(** [map_err(f)?]. *)
Definition or_fail {A} (f : bytes -> bytes) (r : result A bytes) : SM A :=
  match r with Ok a => mret a | Error e => throw (f e) end.

(** [start], once no child is known to run. *)
Definition sm_launch (address : bytes) : SM ServerStatus :=
  let spec := mkSpec (default_server_binary_path workspace_root) [(lit "HKV_ADDR", address)] in
  set_launch_spec spec;;
  r ← outside (spawn spec);
  child ← or_fail id r;
  let pid := child_id child in
  outside (fun x => (tt, sleep EARLY_EXIT_WINDOW x));;
  r ← outside (try_wait child);
  exited ← or_fail inspect_startup r;
  match exited with
  | Some code => set_server_error (Some (exited_early code));; throw (exited_early code)
  | None =>
      now ← outside system_time;
      let started_at := iso_seconds now in
      set_server_error None;;
      set_server_process (Some (mkProcess child address started_at pid));;
      mret (running_status address pid started_at None)
  end.

Definition sm_start (request : option StartServerRequest) : SM ServerStatus :=
  let request := default default_request request in
  let address := host_port (ss_address request) (ss_port request) in
  process ← gets sm_process;
  match process with
  | None => sm_launch address
  | Some p =>
      r ← outside (try_wait (mp_child p));
      match r with
      | Ok None => last_error ← gets sm_last_error; mret (process_status p last_error)
      | Ok (Some _) => set_server_process None;; sm_launch address
      | Error err => set_server_error (Some (inspect_state err));; throw (inspect_state err)
      end
  end.

Definition sm_stop : SM ServerStatus :=
  process ← gets sm_process;
  set_server_process None;;
  match process with
  | None => last_error ← gets sm_last_error; mret (stopped_status default_address_string last_error)
  | Some p =>
      r ← outside (try_wait (mp_child p));
      exited ← or_fail inspect_state r;
      match exited with
      | Some code => set_server_error (Some (already_exited code))
      | None =>
          r ← outside (kill (mp_child p));
          or_fail (fun err => lit "failed to stop hkv-server: " ++ err) r;;
          r ← outside (wait (mp_child p));
          or_fail (fun err => lit "failed to reap hkv-server: " ++ err) r
      end;;
      last_error ← gets sm_last_error;
      mret (stopped_status (mp_address p) last_error)
  end.

Definition sm_status : SM ServerStatus :=
  process ← gets sm_process;
  match process with
  | None => last_error ← gets sm_last_error; mret (stopped_status default_address_string last_error)
  | Some p =>
      r ← outside (try_wait (mp_child p));
      match r with
      | Ok None => last_error ← gets sm_last_error; mret (process_status p last_error)
      | Ok (Some code) =>
          set_server_error (Some (exited_unexpectedly code));;
          set_server_process None;;
          mret (stopped_status (mp_address p) (Some (exited_unexpectedly code)))
      | Error err =>
          set_server_error (Some (inspect_state err));;
          mret (stopped_status (mp_address p) (Some (inspect_state err)))
      end
  end.

End manager.

(** ** INFO *)

(** The variables of [parse_info_snapshot]. *)
Record InfoFields := mkFields {
  if_role : option bytes;
  if_requests_total : Z;
  if_qps_avg : f64;
  if_uptime_seconds : Z;
  if_connected_clients : Z;
  if_used_memory : Z;
  if_keyspace_hits : Z;
  if_keyspace_misses : Z
}.

Definition no_fields : InfoFields := mkFields None 0 (S754_zero false) 0 0 0 0 0.

Definition with_role v f := mkFields (Some v) (if_requests_total f) (if_qps_avg f) (if_uptime_seconds f)
  (if_connected_clients f) (if_used_memory f) (if_keyspace_hits f) (if_keyspace_misses f).
Definition with_requests_total v f := mkFields (if_role f) v (if_qps_avg f) (if_uptime_seconds f)
  (if_connected_clients f) (if_used_memory f) (if_keyspace_hits f) (if_keyspace_misses f).
Definition with_qps_avg v f := mkFields (if_role f) (if_requests_total f) v (if_uptime_seconds f)
  (if_connected_clients f) (if_used_memory f) (if_keyspace_hits f) (if_keyspace_misses f).
Definition with_uptime_seconds v f := mkFields (if_role f) (if_requests_total f) (if_qps_avg f) v
  (if_connected_clients f) (if_used_memory f) (if_keyspace_hits f) (if_keyspace_misses f).
Definition with_connected_clients v f := mkFields (if_role f) (if_requests_total f) (if_qps_avg f) (if_uptime_seconds f)
  v (if_used_memory f) (if_keyspace_hits f) (if_keyspace_misses f).
Definition with_used_memory v f := mkFields (if_role f) (if_requests_total f) (if_qps_avg f) (if_uptime_seconds f)
  (if_connected_clients f) v (if_keyspace_hits f) (if_keyspace_misses f).
Definition with_keyspace_hits v f := mkFields (if_role f) (if_requests_total f) (if_qps_avg f) (if_uptime_seconds f)
  (if_connected_clients f) (if_used_memory f) v (if_keyspace_misses f).
Definition with_keyspace_misses v f := mkFields (if_role f) (if_requests_total f) (if_qps_avg f) (if_uptime_seconds f)
  (if_connected_clients f) (if_used_memory f) (if_keyspace_hits f) v.

Definition invalid_value (key value err : bytes) : bytes :=
  lit "invalid " ++ key ++ lit " value '" ++ value ++ lit "': " ++ err.

(** A value parsed and stored, or the error with its key. *)
Definition store {A} (parse : bytes -> result A bytes) (put : A -> InfoFields -> InfoFields)
    (key value : bytes) (f : InfoFields) : result InfoFields bytes :=
  match parse value with Ok v => Ok (put v f) | Error err => Error (invalid_value key value err) end.

Abbreviation parse_u64 := (parse_uint u64_max).

Definition info_field (key value : bytes) (f : InfoFields) : result InfoFields bytes :=
  if bool_decide (key = lit "role") then Ok (with_role value f)
  else if bool_decide (key = lit "connected_clients") then store parse_u64 with_connected_clients key value f
  else if bool_decide (key = lit "used_memory") then store parse_u64 with_used_memory key value f
  else if bool_decide (key = lit "requests_total") then store parse_u64 with_requests_total key value f
  else if bool_decide (key = lit "total_commands_processed") then store parse_u64 with_requests_total key value f
  else if bool_decide (key = lit "qps_avg") then store parse_f64 with_qps_avg key value f
  else if bool_decide (key = lit "instantaneous_ops_per_sec") then store parse_f64 with_qps_avg key value f
  else if bool_decide (key = lit "uptime_sec")
  then store parse_f64 (fun parsed => with_uptime_seconds (f64_floor_u64 parsed)) key value f
  else if bool_decide (key = lit "uptime_in_seconds") then store parse_u64 with_uptime_seconds key value f
  else if bool_decide (key = lit "keyspace_hits") then store parse_u64 with_keyspace_hits key value f
  else if bool_decide (key = lit "keyspace_misses") then store parse_u64 with_keyspace_misses key value f
  else Ok f.

Definition info_line (f : InfoFields) (line : bytes) : result InfoFields bytes :=
  let trimmed := trim line in
  if bool_decide (trimmed = []) then Ok f
  else match split_once Byte.x3a trimmed with
       | None => Ok f
       | Some (key, value) => info_field key value f
       end.

Fixpoint info_fields (f : InfoFields) (ls : list bytes) : result InfoFields bytes :=
  match ls with
  | [] => Ok f
  | line :: ls' => match info_line f line with Ok f' => info_fields f' ls' | Error e => Error e end
  end.

Definition parse_info_snapshot (captured_at raw : bytes) : result InfoSnapshot bytes :=
  match info_fields no_fields (lines raw) with
  | Error e => Error e
  | Ok f =>
      match if_role f with
      | None => Error (lit "INFO output missing role")
      | Some role =>
          Ok (mkInfo captured_at role (if_connected_clients f) (if_used_memory f) (if_requests_total f)
            (f64_round_u64 (if_qps_avg f)) (if_keyspace_hits f) (if_keyspace_misses f) (if_uptime_seconds f))
      end
  end.

Definition snapshot_or_error (raw : bytes) : result (list Z) bytes :=
  match parse_info_snapshot [] raw with
  | Ok i => Ok [is_total_commands_processed i; is_instantaneous_ops_per_sec i; is_uptime_seconds i; is_keyspace_hits i]
  | Error e => Error e
  end.

Example info_read : snapshot_or_error (lit "# Server" ++ crlf ++ lit " role:master " ++ crlf ++ lit "requests_total:42" ++ crlf
  ++ lit "qps_avg:2.500" ++ crlf ++ lit "uptime_sec:61.999" ++ [LF] ++ lit "keyspace_hits:7" ++ [LF; LF] ++ lit "other")
  = Ok [42; 3; 61; 7]%Z.
Proof. vm_compute. reflexivity. Qed.
Example info_bad : snapshot_or_error (lit "role:master" ++ [LF] ++ lit "used_memory:-1")
  = Error (lit "invalid used_memory value '-1': invalid digit found in string").
Proof. vm_compute. reflexivity. Qed.
Example info_roleless : snapshot_or_error (lit "requests_total:42") = Error (lit "INFO output missing role").
Proof. vm_compute. reflexivity. Qed.
