(* ===== verification/InfoPoller.v ===== *)
(** * The INFO poller (hkv-gui/src-tauri/src/info_poller.rs)

    [InfoClientFactory] and [InfoClient] are the source's traits, one class here;
    [kv_info_client] is the source's implementation over the client of Client.v. *)

From S2P Require Import Prelude Decimal F64 RustStr GuiModels RespClient Pool Client ServerManager.

(** ** Clients *)

(** [X]: the world outside; [C]: connected clients. *)
Class InfoClientFactory (X C : Type) := {
  info_connect : bytes -> M X bytes C;
  info_text : C -> M X bytes bytes
}.

Section kv_client.
Context {N S : Type} `{Network N S} (value_size : Z) (show_io : ErrorKind -> bytes).

(** [Display for ClientError]; the text of an [io::Error] is the parameter [show_io]. *)
Definition show_client_error (e : ClientError) : bytes :=
  match e with
  | Io err => lit "io error: " ++ show_io err
  | ClientProtocol => lit "protocol error"
  | ServerReply message => lit "server error: " ++ from_utf8_lossy message
  | UnexpectedResponse => lit "unexpected response"
  | PoolExhausted => lit "connection pool exhausted"
  | InvalidAddress => lit "invalid address"
  end.

Definition poll_timeout : Duration := 200000000%Z.

Definition kv_info_connect (address : bytes) : M N bytes KVClient :=
  let d := client_config_default in
  mret (with_config (mkClientConfig address (cc_max_idle d) (cc_max_total d) (Some poll_timeout) (Some poll_timeout)
    (Some poll_timeout) (max_retries d))).

(** The client's pool lives as long as the client: one call. *)
Definition kv_info (self : KVClient) : M N bytes bytes := fun n =>
  match client_info value_size self (pool_new, n) with
  | (Val data, (_, n')) =>
      (match from_utf8 data with Ok text => Val text | Error err => Err (show_utf8_error err) end, n')
  | (Err e, (_, n')) => (Err (show_client_error e), n')
  | (Panic, (_, n')) => (Panic, n')
  | (Diverge, (_, n')) => (Diverge, n')
  end.

Definition kv_info_client : InfoClientFactory N KVClient := {| info_connect := kv_info_connect; info_text := kv_info |}.

End kv_client.

(** ** The poller *)

Record PollerWorld (X : Type) := mkPoller {
  ip_last_snapshot : option InfoSnapshot;
  ip_last_error : option bytes;
  ip_outside : X
}.
Arguments mkPoller {X}. Arguments ip_last_snapshot {X}. Arguments ip_last_error {X}. Arguments ip_outside {X}.

Definition with_client_factory {X} (x : X) : PollerWorld X := mkPoller None None x.

Section poller.
Context {X C : Type} `{InfoClientFactory X C} `{Ambient X}.

Abbreviation IM := (M (PollerWorld X) bytes).

Definition in_outside {A} (m : M X bytes A) : IM A := fun w =>
  let '(o, x) := m (ip_outside w) in (o, mkPoller (ip_last_snapshot w) (ip_last_error w) x).

Definition record_error (message : bytes) : IM unit :=
  modify (fun w => mkPoller (ip_last_snapshot w) (Some message) (ip_outside w)).

(** [match .. { Ok(v) => v, Err(err) => { self.record_error(err.clone()); return Err(err) } }]. *)
Definition or_record {A} (r : result A bytes) : IM A :=
  match r with Ok v => mret v | Error err => record_error err;; throw err end.

Definition poll (address : bytes) : IM InfoSnapshot :=
  r ← catch (in_outside (info_connect address));
  client ← or_record r;
  r ← catch (in_outside (info_text client));
  raw ← or_record r;
  now ← in_outside (fun x => let '(t, x') := system_time x in (Val t, x'));
  snapshot ← or_record (parse_info_snapshot (iso_seconds now) raw);
  modify (fun w => mkPoller (Some snapshot) None (ip_outside w));;
  mret snapshot.

Definition ip_snapshot (w : PollerWorld X) : option InfoSnapshot := ip_last_snapshot w.
Definition ip_clear (w : PollerWorld X) : PollerWorld X := mkPoller None None (ip_outside w).
(** Despite its name it leaves the error where it is. *)
Definition take_error (w : PollerWorld X) : option bytes := ip_last_error w.

End poller.

(** ** What the poller remembers *)

Section thms.
Context {X C : Type} `{InfoClientFactory X C} `{Ambient X}.

Abbreviation World := (PollerWorld X).

Lemma or_record_run {A B} (r : result A bytes) (k : A -> M World bytes B) w :
  (or_record r ≫= k) w = match r with
                         | Ok v => k v w
                         | Error e => (Err e, mkPoller (ip_last_snapshot w) (Some e) (ip_outside w))
                         end.
Proof. by destruct r. Qed.

Definition moved_to (x : X) (w : World) : World := mkPoller (ip_last_snapshot w) (ip_last_error w) x.

Lemma poll_run address w : exists x,
  match poll address w with
  | (Val i, w') => w' = mkPoller (Some i) None x
  | (Err e, w') => w' = mkPoller (ip_last_snapshot w) (Some e) x
  | (_, w') => w' = moved_to x w
  end.
Proof.
  unfold poll. rewrite bind_catch. unfold in_outside at 1.
  destruct (info_connect address (ip_outside w)) as [[c|e| |] x1]; [| by eexists|by exists x1..].
  rewrite or_record_run, bind_catch. unfold in_outside at 1. cbn [ip_outside].
  destruct (info_text c x1) as [[raw|e| |] x2]; [|by eexists|by exists x2..].
  rewrite or_record_run. unfold in_outside at 1, mbind at 1, M_bind at 1. cbn [ip_outside ip_last_snapshot ip_last_error].
  destruct (system_time x2) as [now x3]. rewrite or_record_run. cbn [ip_outside].
  by destruct (parse_info_snapshot _ _) as [i|e]; eexists.
Qed.

Inductive PollerOp : Type := OpPoll (address : bytes) | OpClear.

Definition poller_op (op : PollerOp) (w : World) : option (outcome bytes InfoSnapshot) * World :=
  match op with
  | OpPoll address => let '(o, w') := poll address w in (Some o, w')
  | OpClear => (None, ip_clear w)
  end.

Fixpoint poller_run (ops : list PollerOp) (w : World) : list (option (outcome bytes InfoSnapshot)) * World :=
  match ops with
  | [] => ([], w)
  | op :: ops' =>
      let '(o, w1) := poller_op op w in
      let '(os, w2) := poller_run ops' w1 in (o :: os, w2)
  end.

(** The answers since the last [clear], latest first. *)
Definition since_clear (os : list (option (outcome bytes InfoSnapshot))) : list (outcome bytes InfoSnapshot) :=
  foldl (fun acc o => match o with Some a => a :: acc | None => [] end) [] os.

Definition latest_snapshot (answers : list (outcome bytes InfoSnapshot)) : option InfoSnapshot :=
  head (omap (fun o => match o with Val i => Some i | _ => None end) answers).
(** The error of the latest answer that is a value or an error. *)
Definition latest_error (answers : list (outcome bytes InfoSnapshot)) : option bytes :=
  match head (omap (fun o => match o with Val _ => Some None | Err e => Some (Some e) | _ => None end) answers) with
  | Some e => e
  | None => None
  end.

Definition remembers (w : World) (answers : list (outcome bytes InfoSnapshot)) : Prop :=
  ip_snapshot w = latest_snapshot answers /\ take_error w = latest_error answers.

Lemma poller_run_remembers ops : forall w acc, remembers w acc ->
  remembers (snd (poller_run ops w))
    (foldl (fun acc o => match o with Some a => a :: acc | None => [] end) acc (fst (poller_run ops w))).
Proof.
  induction ops as [|[address|] ops IH]; intros w acc Hw; [done| |]; cbn [poller_run poller_op].
  - destruct (poll_run address w) as [x Hp]. destruct (poll address w) as [o w1].
    specialize (IH w1 (o :: acc)). destruct (poller_run ops w1) as [os w2]. apply IH.
    destruct Hw as [H1 H2]. destruct o as [i|e| |]; subst w1; by split.
  - specialize (IH (ip_clear w) []). destruct (poller_run ops (ip_clear w)) as [os w2]. by apply IH.
Qed.

(** After any sequence of polls and clears the poller's snapshot is that of the latest poll that
    succeeded, and its error that of the latest poll, if it failed, both counted from the last clear: a
    failing poll keeps the snapshot, a successful one removes the error, and reading the error with
    [take_error] does not remove it. *)
Theorem poller_remembers_latest ops x :
  remembers (snd (poller_run ops (with_client_factory x))) (since_clear (fst (poller_run ops (with_client_factory x)))).
Proof. by apply poller_run_remembers. Qed.

End thms.
