(* ===== verification/ServerManagerThms.v ===== *)
(** * Properties of the server process manager (hkv-gui/src-tauri/src/server_manager.rs)

    No server process runs untracked as long as no process call fails; what a
    failing [stop] leaves behind; what the parser makes of the server's INFO. *)

From S2P Require Import Prelude Decimal F64 RustStr GuiModels Metrics Server ServerManager.

(** ** Processes that run *)

(** What the manager relies on: [live x c] says that process [c] runs. A process
    comes to run only by being spawned; one whose exit was seen, or that was
    waited for, runs no more. *)
Class LauncherLaws {X C : Type} `{ProcessLauncher X C} `{Ambient X} (live : X -> C -> Prop) := {
  spawn_live spec x c : live (snd (spawn spec x)) c -> live x c \/ fst (spawn spec x) = Ok c;
  try_wait_live c x c' : live (snd (try_wait c x)) c' -> live x c';
  try_wait_exited c x code : fst (try_wait c x) = Ok (Some code) -> ~ live (snd (try_wait c x)) c;
  kill_live c x c' : live (snd (kill c x)) c' -> live x c';
  wait_live c x c' : live (snd (wait c x)) c' -> live x c';
  wait_reaped c x : fst (wait c x) = Ok tt -> ~ live (snd (wait c x)) c;
  sleep_live d x c : live (sleep d x) c -> live x c;
  time_live x c : live (snd (system_time x)) c -> live x c
}.

Inductive ServerOp : Type :=
| OpStart (request : option StartServerRequest)
| OpStop
| OpStatus
| OpElapse (d : Duration).

Section thms.
Context {X C : Type} `{ProcessLauncher X C} `{Ambient X} (workspace_root : bytes).
Context (live : X -> C -> Prop) `{!LauncherLaws live}.

Abbreviation World := (ServerWorld X C).

Definition server_op (op : ServerOp) : M World bytes (option ServerStatus) :=
  match op with
  | OpStart request => st ← sm_start workspace_root request; mret (Some st)
  | OpStop => st ← sm_stop; mret (Some st)
  | OpStatus => st ← sm_status; mret (Some st)
  | OpElapse d => outside (fun x => (None, sleep d x))
  end.

(** Calls one after the other; each answers or fails, and the next goes on. *)
Fixpoint server_run (ops : list ServerOp) (w : World) : list (outcome bytes (option ServerStatus)) * World :=
  match ops with
  | [] => ([], w)
  | op :: ops' =>
      let '(o, w1) := server_op op w in
      let '(os, w2) := server_run ops' w1 in (o :: os, w2)
  end.

(** Answers that do not lose a process. *)
Definition harmless (op : ServerOp) (o : outcome bytes (option ServerStatus)) : bool :=
  match op, o with
  | OpStart _, Err e => negb (starts_with (inspect_startup []) e)
  | OpStop, Err _ => false
  | _, _ => true
  end.

Definition only_tracked (w : World) : Prop :=
  forall c, live (sm_outside w) c -> exists p, sm_process w = Some p /\ mp_child p = c.

(** What an answer says is so: "running" gives the tracked process, "stopped" means that none is
    tracked, or that its state could not be read. *)
Definition truthful (o : outcome bytes (option ServerStatus)) (w : World) : Prop :=
  match o with
  | Val (Some st) =>
      (exists p, sm_process w = Some p /\ st = process_status p (st_last_error st))
      \/ (exists address, st = stopped_status address (st_last_error st))
         /\ (sm_process w = None \/ exists err, st_last_error st = Some (inspect_state err))
  | _ => True
  end.

Lemma starts_with_inspect err : starts_with (inspect_startup []) (inspect_startup err) = true.
Proof.
  unfold starts_with. apply bool_decide_true. by exists err.
Qed.

(** ** The operations, call by call *)

Definition with_outside (x : X) (w : World) : World :=
  mkServerWorld (sm_process w) (sm_last_error w) (sm_last_launch_spec w) x.

Lemma bind_outside {A B} (f : X -> A * X) (k : A -> M World bytes B) w :
  (outside f ≫= k) w = let '(a, x) := f (sm_outside w) in k a (with_outside x w).
Proof. unfold outside, mbind, M_bind. by destruct (f (sm_outside w)). Qed.

Lemma bind_or_fail {A B} f (r : result A bytes) (k : A -> M World bytes B) w :
  (or_fail f r ≫= k) w = match r with Ok a => k a w | Error e => (Err (f e), w) end.
Proof. by destruct r. Qed.

Definition launch_spec_of (address : bytes) : LaunchSpec :=
  mkSpec (default_server_binary_path workspace_root) [(lit "HKV_ADDR", address)].

Lemma sm_launch_run address w : sm_launch workspace_root address w =
  let at_ p e x := mkServerWorld p e (Some (launch_spec_of address)) x in
  match spawn (launch_spec_of address) (sm_outside w) with
  | (Error e, x) => (Err e, at_ (sm_process w) (sm_last_error w) x)
  | (Ok c, x) =>
      match try_wait c (sleep EARLY_EXIT_WINDOW x) with
      | (Error e, x) => (Err (inspect_startup e), at_ (sm_process w) (sm_last_error w) x)
      | (Ok (Some code), x) => (Err (exited_early code), at_ (sm_process w) (Some (exited_early code)) x)
      | (Ok None, x) =>
          let '(now, x) := system_time x in
          let p := mkProcess c address (iso_seconds now) (child_id c) in
          (Val (process_status p None), at_ (Some p) None x)
      end
  end.
Proof.
  unfold sm_launch, set_launch_spec, set_server_error, set_server_process. rewrite bind_modify, bind_outside.
  cbn [sm_outside]. fold (launch_spec_of address). destruct (spawn _ _) as [[c|e] x1]; rewrite bind_or_fail; [|done].
  rewrite bind_outside, bind_outside. cbn [sm_outside with_outside].
  destruct (try_wait _ _) as [[[code|]|e] x2]; rewrite bind_or_fail; [done| |done].
  rewrite bind_outside. cbn [sm_outside with_outside]. by destruct (system_time x2).
Qed.

Lemma sm_start_run request w : sm_start workspace_root request w =
  let q := default default_request request in
  let address := host_port (ss_address q) (ss_port q) in
  match sm_process w with
  | None => sm_launch workspace_root address w
  | Some p =>
      match try_wait (mp_child p) (sm_outside w) with
      | (Ok None, x) => (Val (process_status p (sm_last_error w)), with_outside x w)
      | (Ok (Some _), x) =>
          sm_launch workspace_root address (mkServerWorld None (sm_last_error w) (sm_last_launch_spec w) x)
      | (Error err, x) =>
          (Err (inspect_state err), mkServerWorld (Some p) (Some (inspect_state err)) (sm_last_launch_spec w) x)
      end
  end.
Proof.
  unfold sm_start, set_server_process, set_server_error. rewrite bind_gets. destruct (sm_process w) as [p|] eqn:Ep; [|done].
  rewrite bind_outside. destruct (try_wait _ _) as [[[code|]|err] x]; [by rewrite bind_modify|by rewrite bind_gets|].
  rewrite bind_modify. cbn [with_outside sm_process sm_last_launch_spec sm_outside]. by rewrite Ep.
Qed.

Lemma sm_stop_run w : sm_stop w =
  let at_ e x := mkServerWorld None e (sm_last_launch_spec w) x in
  match sm_process w with
  | None => (Val (stopped_status default_address_string (sm_last_error w)), at_ (sm_last_error w) (sm_outside w))
  | Some p =>
      match try_wait (mp_child p) (sm_outside w) with
      | (Error err, x) => (Err (inspect_state err), at_ (sm_last_error w) x)
      | (Ok (Some code), x) =>
          (Val (stopped_status (mp_address p) (Some (already_exited code))), at_ (Some (already_exited code)) x)
      | (Ok None, x) =>
          match kill (mp_child p) x with
          | (Error err, x) => (Err (lit "failed to stop hkv-server: " ++ err), at_ (sm_last_error w) x)
          | (Ok _, x) =>
              match wait (mp_child p) x with
              | (Error err, x) => (Err (lit "failed to reap hkv-server: " ++ err), at_ (sm_last_error w) x)
              | (Ok _, x) => (Val (stopped_status (mp_address p) (sm_last_error w)), at_ (sm_last_error w) x)
              end
          end
      end
  end.
Proof.
  unfold sm_stop, set_server_process, set_server_error. rewrite bind_gets, bind_modify.
  destruct (sm_process w) as [p|]; [|done]. rewrite bind_outside. cbn [sm_outside].
  destruct (try_wait _ _) as [[[code|]|err] x]; rewrite bind_or_fail; [done| |done].
  rewrite bind_bind, bind_outside. cbn [sm_outside with_outside].
  destruct (kill _ _) as [[[]|err] x1]; rewrite bind_bind, bind_or_fail; [|done].
  rewrite bind_bind, bind_outside. cbn [sm_outside with_outside].
  by destruct (wait _ _) as [[[]|err] x2]; rewrite bind_or_fail.
Qed.

Lemma sm_status_run w : sm_status w =
  let at_ p e x := mkServerWorld p e (sm_last_launch_spec w) x in
  match sm_process w with
  | None => (Val (stopped_status default_address_string (sm_last_error w)), w)
  | Some p =>
      match try_wait (mp_child p) (sm_outside w) with
      | (Ok None, x) => (Val (process_status p (sm_last_error w)), with_outside x w)
      | (Ok (Some code), x) =>
          (Val (stopped_status (mp_address p) (Some (exited_unexpectedly code))), at_ None (Some (exited_unexpectedly code)) x)
      | (Error err, x) =>
          (Val (stopped_status (mp_address p) (Some (inspect_state err))), at_ (Some p) (Some (inspect_state err)) x)
      end
  end.
Proof.
  unfold sm_status, set_server_process, set_server_error. rewrite bind_gets. destruct (sm_process w) as [p|] eqn:Ep; [|done].
  rewrite bind_outside. destruct (try_wait _ _) as [[[code|]|err] x]; [done|by rewrite bind_gets|].
  rewrite bind_modify. cbn [with_outside sm_process sm_last_launch_spec sm_outside]. by rewrite Ep.
Qed.

(** What the laws say of a call that has been run. *)
Lemma spawned spec x r x' c : spawn spec x = (r, x') -> live x' c -> live x c \/ r = Ok c.
Proof. intros E Hl. pose proof (spawn_live spec x c) as Hs. rewrite E in Hs. auto. Qed.
Lemma waited_live c x r x' c' : try_wait c x = (r, x') -> live x' c' -> live x c' /\ forall code, r = Ok (Some code) -> c' <> c.
Proof.
  intros E Hl. pose proof (try_wait_live c x c') as H1. rewrite E in H1. split; [auto|].
  intros code -> ->. pose proof (try_wait_exited c x code) as H2. rewrite E in H2. by apply H2.
Qed.
Lemma slept d x c : live (sleep d x) c -> live x c.
Proof. apply sleep_live. Qed.
Lemma timed x now x' c : system_time x = (now, x') -> live x' c -> live x c.
Proof. intros E Hl. apply time_live. by rewrite E. Qed.
Lemma killed c x r x' c' : kill c x = (r, x') -> live x' c' -> live x c'.
Proof. intros E Hl. apply (kill_live c). by rewrite E. Qed.
Lemma reaped c x r x' c' : wait c x = (r, x') -> live x' c' -> live x c' /\ (r = Ok tt -> c' <> c).
Proof.
  intros E Hl. split; [apply (wait_live c); by rewrite E|]. intros -> ->.
  pose proof (wait_reaped c x) as H2. rewrite E in H2. by apply H2.
Qed.

(** Before a launch: nothing runs, nothing is tracked. *)
Lemma launch_op address w : (forall c, ~ live (sm_outside w) c) -> sm_process w = None ->
  (forall err, fst (sm_launch workspace_root address w) <> Err (inspect_startup err)) ->
  only_tracked (snd (sm_launch workspace_root address w)).
Proof.
  intros Hno Hp Hh. unfold only_tracked. intros c. rewrite sm_launch_run in *. cbn zeta in *.
  destruct (spawn _ _) as [[c1|e] x1] eqn:E1; cbn [snd sm_outside sm_process].
  2:{ intros Hl. destruct (spawned _ _ _ _ _ E1 Hl) as [?|?]; [by edestruct Hno|done]. }
  assert (forall c', live x1 c' -> c' = c1) as H1.
  { intros c' Hl. destruct (spawned _ _ _ _ _ E1 Hl) as [?|[= ->]]; [by edestruct Hno|done]. }
  destruct (try_wait _ _) as [[[code|]|e] x2] eqn:E2; cbn [snd sm_outside sm_process].
  - intros Hl. destruct (waited_live _ _ _ _ _ E2 Hl) as [Hl1 Hne]. by edestruct Hne; [|apply H1, (slept _ _ _ Hl1)].
  - destruct (system_time x2) as [now x3] eqn:E3; cbn [snd sm_outside sm_process]. intros Hl.
    apply (timed _ _ _ _ E3) in Hl. destruct (waited_live _ _ _ _ _ E2 Hl) as [Hl1 _].
    eexists. split; [done|]. symmetry. by apply H1, (slept EARLY_EXIT_WINDOW).
  - intros Hl. by edestruct Hh.
Qed.

Lemma tracked_gone w p x : only_tracked w -> sm_process w = Some p ->
  (forall c, live x c -> live (sm_outside w) c /\ c <> mp_child p) -> forall c, ~ live x c.
Proof. intros Hw Hp Hx c Hl. destruct (Hx c Hl) as [H1 H2]. destruct (Hw c H1) as (p' & Hp' & <-). congruence. Qed.

Lemma answered (m : M World bytes ServerStatus) w : (st ← m; mret (Some st)) w
  = (match fst (m w) with Val st => Val (Some st) | Err e => Err e | Panic => Panic | Diverge => Diverge end, snd (m w)).
Proof. unfold mbind, M_bind. by destruct (m w) as [[] ?]. Qed.

Lemma stays_tracked w w' : only_tracked w -> sm_process w' = sm_process w ->
  (forall c, live (sm_outside w') c -> live (sm_outside w) c) -> only_tracked w'.
Proof. intros Hw Hp Hx c Hl. rewrite Hp. by apply Hw, Hx. Qed.

Lemma start_tracked request w : only_tracked w ->
  (forall err, fst (sm_start workspace_root request w) <> Err (inspect_startup err)) ->
  only_tracked (snd (sm_start workspace_root request w)).
Proof.
  intros Hw. rewrite sm_start_run. cbn zeta. destruct (sm_process w) as [p|] eqn:Ep.
  2:{ intros Hh. apply launch_op; [|done|done]. intros c Hl. by destruct (Hw c Hl) as (p & ? & _); congruence. }
  destruct (try_wait _ _) as [[[code|]|e] x] eqn:E; cbn [fst snd]; intros Hh.
  - apply launch_op; [|done|done]. apply (tracked_gone w p); [done..|]. intros c Hl.
    destruct (waited_live _ _ _ _ _ E Hl) as [? Hne]. split; [done|]. by eapply Hne.
  - apply (stays_tracked w); [done..|]. intros c Hl. apply (waited_live _ _ _ _ _ E Hl).
  - apply (stays_tracked w); [done|done|]. intros c Hl. apply (waited_live _ _ _ _ _ E Hl).
Qed.

Lemma stop_tracked w : only_tracked w -> (forall err, fst (sm_stop w) <> Err err) -> only_tracked (snd (sm_stop w)).
Proof.
  intros Hw. rewrite sm_stop_run. cbn zeta. destruct (sm_process w) as [p|] eqn:Ep.
  2:{ intros _. by apply (stays_tracked w). }
  assert (forall w', sm_process w' = None -> (forall c, live (sm_outside w') c -> live (sm_outside w) c /\ c <> mp_child p) ->
    only_tracked w') as Hgone.
  { intros w' Hp' Hx c Hl. exfalso. by apply (tracked_gone w p (sm_outside w')) with c. }
  destruct (try_wait _ _) as [[[code|]|e] x] eqn:E; cbn [fst snd]; [| |naive_solver].
  - intros _. apply Hgone; [done|]. intros c Hl. destruct (waited_live _ _ _ _ _ E Hl) as [? Hne]. split; [done|]. by eapply Hne.
  - destruct (kill _ _) as [[[]|e] x1] eqn:E1; [|cbn; naive_solver].
    destruct (wait _ _) as [[[]|e] x2] eqn:E2; [|cbn; naive_solver]. cbn [fst snd]. intros _. apply Hgone; [done|].
    intros c Hl. destruct (reaped _ _ _ _ _ E2 Hl) as [Hl1 Hne]. split; [|by apply Hne].
    apply (waited_live _ _ _ _ c E), (killed _ _ _ _ _ E1 Hl1).
Qed.

Lemma status_tracked w : only_tracked w -> only_tracked (snd (sm_status w)).
Proof.
  intros Hw. rewrite sm_status_run. cbn zeta. destruct (sm_process w) as [p|] eqn:Ep; [|done].
  destruct (try_wait _ _) as [[[code|]|e] x] eqn:E; cbn [snd].
  - intros c Hl. exfalso. apply (tracked_gone w p x) with c; [done..| |done]. clear c Hl. intros c Hl.
    destruct (waited_live _ _ _ _ _ E Hl) as [? Hne]. split; [done|]. by eapply Hne.
  - apply (stays_tracked w); [done..|]. intros c Hl. apply (waited_live _ _ _ _ _ E Hl).
  - apply (stays_tracked w); [done..|]. intros c Hl. apply (waited_live _ _ _ _ _ E Hl).
Qed.

Lemma op_tracked op w : only_tracked w -> harmless op (fst (server_op op w)) = true -> only_tracked (snd (server_op op w)).
Proof.
  intros Hw. destruct op as [request| | |d]; unfold server_op; rewrite ?answered; cbn [fst snd harmless].
  - intros Hh. apply start_tracked; [done|]. intros err E. rewrite E in Hh.
    by rewrite starts_with_inspect in Hh.
  - intros Hh. apply stop_tracked; [done|]. intros err E. by rewrite E in Hh.
  - intros _. by apply status_tracked.
  - intros _. unfold outside. cbn [snd]. apply (stays_tracked w); [done..|]. intros c. apply slept.
Qed.

Lemma op_truthful op w : truthful (fst (server_op op w)) (snd (server_op op w)).
Proof.
  destruct op as [request| | |d]; unfold server_op; rewrite ?answered; cbn [fst snd]; [| | |done].
  - rewrite sm_start_run. cbn zeta.
    assert (forall a w, truthful match fst (sm_launch workspace_root a w) with Val st => Val (Some st) | Err e => Err e
      | Panic => Panic | Diverge => Diverge end (snd (sm_launch workspace_root a w))) as Hl.
    { intros a w'. rewrite sm_launch_run. cbn zeta. repeat case_match; simplify_eq/=; eauto. }
    destruct (sm_process w) as [p|] eqn:Ep; [|apply Hl].
    destruct (try_wait _ _) as [[[code|]|e] x]; [apply Hl|simpl; eauto|done].
  - rewrite sm_stop_run. cbn zeta. repeat case_match; simplify_eq/=; eauto 10.
  - rewrite sm_status_run. cbn zeta. repeat case_match; simplify_eq/=; eauto 12.
Qed.

(** C22: Whatever calls of [start], [stop] and [status] are made, with time passing in between: as long as
    no [stop] fails and no [start] fails to inspect the process it has just spawned, the only hkv-server
    process that runs is the one the manager tracks, so there is never more than one; and every answer is
    true of the table: "running" is the tracked process, with its address, pid and start time, "stopped"
    means that no process is tracked or that its state could not be read. *)
Theorem server_process_is_tracked ops last x : (forall c, ~ live x c) ->
  forallb (uncurry harmless) (zip (ops ++ [last]) (fst (server_run (ops ++ [last]) (with_launcher x)))) = true ->
  let w := snd (server_run ops (with_launcher x)) in
  let '(o, w') := server_op last w in
  truthful o w' /\ forall c, live (sm_outside w') c -> exists p, sm_process w' = Some p /\ mp_child p = c.
Proof.
  intros Hx. assert (only_tracked (with_launcher x)) as Hw by (intros c Hl; by edestruct Hx).
  revert Hw. generalize (with_launcher (C := C) x). clear x Hx. induction ops as [|op ops IH]; intros w Hw; cbn [app server_run].
  - destruct (server_op last w) as [o w'] eqn:E. cbn [fst snd zip zip_with forallb uncurry]. rewrite E. intros [Hh _]%andb_true_iff.
    pose proof (op_tracked last w Hw) as Ht. pose proof (op_truthful last w) as Hu. rewrite E in Ht, Hu. by split; [|apply Ht].
  - destruct (server_op op w) as [o w1] eqn:E. specialize (IH w1).
    destruct (server_run (ops ++ [last]) w1) as [os w2]. destruct (server_run ops w1) as [os' w3]. cbn [fst snd zip zip_with forallb uncurry] in *.
    intros [Hh Hrest]%andb_true_iff. apply IH; [|done]. pose proof (op_tracked op w Hw) as Ht. rewrite E in Ht. by apply Ht.
Qed.

(** C40: A [stop] that fails forgets its process, which may still run, and does not record the error: from
    then on the server is reported as stopped at the default address and further calls of [stop] answer
    that it is stopped, without a process call. *)
Theorem failed_stop_forgets_server w e : fst (sm_stop w) = Err e ->
  let w' := snd (sm_stop w) in
  is_Some (sm_process w) /\ sm_process w' = None /\ sm_last_error w' = sm_last_error w
  /\ sm_status w' = (Val (stopped_status default_address_string (sm_last_error w)), w')
  /\ sm_stop w' = (Val (stopped_status default_address_string (sm_last_error w)), w').
Proof.
  cbn zeta. intros Hf.
  assert (is_Some (sm_process w) /\ sm_process (snd (sm_stop w)) = None /\ sm_last_error (snd (sm_stop w)) = sm_last_error w)
    as (Hp & Hn & He).
  { revert Hf. rewrite sm_stop_run. cbn zeta. destruct (sm_process w) as [p|]; [|done].
    destruct (try_wait _ _) as [[[code|]|err] x]; [done| |by eauto].
    destruct (kill _ _) as [[[]|err] x1]; [|by eauto]. by destruct (wait _ _) as [[[]|err] x2]; eauto. }
  split_and!; [done..| |].
  - rewrite sm_status_run, Hn. cbn zeta. by rewrite He.
  - rewrite sm_stop_run, Hn. cbn zeta. rewrite He. f_equal. destruct (snd (sm_stop w)); simpl in *. by subst.
Qed.

End thms.

(** ** Processes in a table *)

(** The next pid and the pids that run. *)
Definition Table : Type := Z * list Z.

Definition table_launcher (kills : bool) : ProcessLauncher Table Z := {|
  spawn _ '(next, running) := (Ok next, ((next + 1)%Z, next :: running));
  child_id c := c;
  try_wait c x := (Ok (if bool_decide (c ∈ snd x) then None else Some 0%Z), x);
  kill c '(next, running) :=
    if kills then (Ok tt, (next, filter (fun p => p <> c) running)) else (Error (lit "Operation not permitted"), (next, running));
  wait c '(next, running) := (Ok tt, (next, filter (fun p => p <> c) running))
|}.
Definition table_clock : Ambient Table := {| sleep _ x := x; system_time x := (1700000000000000000%Z, x) |}.
Definition runs (x : Table) (c : Z) : Prop := c ∈ snd x.

#[local] Existing Instance table_clock.

Lemma table_laws kills : LauncherLaws (H := table_launcher kills) runs.
Proof.
  split; unfold runs; simpl; try done.
  - intros _ [next running] c. simpl. rewrite elem_of_cons. intros [->|Hc]; [by right|by left].
  - intros c [next running] code. simpl. by case_bool_decide.
  - intros c [next running] c'. destruct kills; simpl; [|done]. by intros [_ ?]%list_elem_of_filter.
  - intros c [next running] c'. simpl. by intros [_ ?]%list_elem_of_filter.
  - intros c [next running] _. simpl. by intros [? _]%list_elem_of_filter.
Qed.

Definition demo_ops : list ServerOp := [OpStart None; OpStart None; OpStatus; OpStop].

Lemma server_process_is_tracked_witness :
  let run ops := server_run (H := table_launcher true) (lit "/hkv") ops (with_launcher (10%Z, [])) in
  map (fun o => match o with Val (Some st) => st_pid st | _ => None end) (fst (run (demo_ops ++ [OpStart None])))
  = [Some 10; Some 10; Some 10; None; Some 11]%Z
  /\ let '(o, w') := server_op (H := table_launcher true) (lit "/hkv") (OpStart None) (snd (run demo_ops)) in
     truthful o w' /\ forall c, runs (sm_outside w') c -> exists p, sm_process w' = Some p /\ mp_child p = c.
Proof.
  cbn zeta. split; [vm_compute; reflexivity|].
  apply (server_process_is_tracked (H := table_launcher true) (lit "/hkv") runs (LauncherLaws0 := table_laws true)
    demo_ops (OpStart None) (10%Z, [])).
  - intros c Hc. by apply not_elem_of_nil in Hc.
  - vm_compute. reflexivity.
Defined.

Lemma failed_stop_forgets_server_witness :
  let w := snd (server_run (H := table_launcher false) (lit "/hkv") [OpStart None] (with_launcher (10%Z, []))) in
  let stop := sm_stop (H := table_launcher false) in
  fst (stop w) = Err (lit "failed to stop hkv-server: Operation not permitted") /\ runs (sm_outside (snd (stop w))) 10%Z
  /\ sm_process (snd (stop w)) = None
  /\ stop (snd (stop w)) = (Val (stopped_status default_address_string (sm_last_error w)), snd (stop w)).
Proof.
  cbn zeta. split; [vm_compute; reflexivity|]. split; [vm_compute; constructor|].
  destruct (failed_stop_forgets_server (H := table_launcher false)
    (snd (server_run (H := table_launcher false) (lit "/hkv") [OpStart None] (with_launcher (10%Z, []))))
    (lit "failed to stop hkv-server: Operation not permitted")) as (_ & Hn & _ & _ & Hs); [vm_compute; reflexivity|].
  split; assumption.
Defined.
