(* ===== verification/InfoThms.v ===== *)
(** * What the GUI reads of a server (hkv-server/src/server.rs, hkv-gui/src-tauri/src)

    The INFO text of the server through the parser of the GUI, and the GUI's
    poller over the client library and a link to the server. *)

From S2P Require Import Prelude Decimal Errors KVEngine RespClient RespClientThms RespParser RespParserThms RespThms.
From S2P Require Import Observation F64 Metrics Server ServerSpec ServerThms EndToEnd Pool Client PoolThms ClientThms Loopback.
From S2P Require Import RustStr GuiModels ServerManager InfoPoller.

(** ** Lines of plain bytes *)

(** Neither white space nor a byte above ASCII. *)
Definition plain (b : byte) : Prop := ascii b /\ ws1 b = false.
#[global] Instance plain_dec b : Decision (plain b).
Proof. unfold plain. apply _. Defined.

Lemma trim_start_plain b s : plain b -> Forall plain s -> trim_start (b :: s) = b :: s.
Proof.
  intros [Ha Hw] Hs. cbn [trim_start]. rewrite Hw. destruct s as [|c s]; [done|]. rewrite ascii_ws2 by done.
  destruct s as [|d s]; [done|]. by rewrite ascii_ws3.
Qed.

Lemma trim_end_rev_plain s : Forall plain s -> trim_end_rev s = s.
Proof.
  destruct s as [|d s]; [done|]. intros [[Ha Hw] Hs]%Forall_cons. cbn [trim_end_rev]. rewrite Hw.
  destruct s as [|c s]; [done|]. apply Forall_cons in Hs as [[Hc _] Hs]. rewrite ascii_ws2 by done.
  destruct s as [|b s]; [done|]. apply Forall_cons in Hs as [[Hb _] _]. by rewrite ascii_ws3.
Qed.

Lemma trim_plain s : Forall plain s -> trim s = s.
Proof.
  intros Hs. unfold trim, trim_end.
  assert (trim_start s = s) as -> by (destruct s; [done|]; apply Forall_cons in Hs as [? ?]; by apply trim_start_plain).
  rewrite trim_end_rev_plain; [apply rev_involutive|]. by apply Forall_rev.
Qed.

Lemma lines_plain s rest : Forall plain s -> lines (s ++ crlf ++ rest) = s :: lines rest.
Proof.
  induction s as [|b s IH]; [done|]. intros [[_ Hb] Hs]%Forall_cons. cbn [app lines]. rewrite (IH Hs).
  rewrite (bool_decide_false (b = LF)) by (by intros ->).
  rewrite bool_decide_false by (intros [-> _]; done). done.
Qed.

Lemma digits_plain s : all_digits s = true -> Forall plain s.
Proof.
  unfold all_digits. rewrite forallb_forall, Forall_forall. intros Hd b Hb%list_elem_of_In.
  specialize (Hd b Hb). unfold is_ascii_digit in Hd. rewrite andb_true_iff, !Z.leb_le in Hd.
  unfold plain, ascii, ws1. split; [lia|].
  rewrite (proj2 (Z.leb_gt (byte_val b) 13)), (proj2 (Z.eqb_neq _ _)) by lia. by rewrite andb_false_r.
Qed.

Lemma rev_digits size n : all_digits (rev (default [] (digits_rev size n))) = true.
Proof.
  destruct (Z.leb_spec 0 n).
  - destruct (digits_rev size n) as [l|] eqn:E; [|done]. by destruct (digits_rev_spec size n l ltac:(lia) E).
  - destruct size; simpl; by rewrite (proj2 (Z.leb_le _ _)) by lia.
Qed.

Lemma dec_nonneg_digits n : all_digits (dec_nonneg n) = true.
Proof. unfold dec_nonneg. destruct (n <=? 0)%Z; [done|apply rev_digits]. Qed.

(** ** Figures, printed and read *)

(** The thousandths that [{:.3}] prints. *)
Definition milli (x : f64) : Z :=
  match x with
  | S754_finite _ m e => if (0 <=? e)%Z then Z.pos m * 2 ^ e * 1000 else round_half_even (Z.pos m * 1000) (2 ^ (- e))
  | _ => 0
  end%Z.

(** A figure after it was printed with three decimals and parsed again. *)
Definition reread (x : f64) : f64 :=
  match x with
  | S754_zero s => S754_zero s
  | S754_infinity s => S754_infinity s
  | S754_nan => S754_nan
  | S754_finite s _ _ => f64_of_decimal s (milli x) (-3)
  end.

Lemma round_half_even_nonneg n d : (0 <= n -> 0 < d -> 0 <= round_half_even n d)%Z.
Proof.
  intros Hn Hd. unfold round_half_even. pose proof (Z.div_pos n d Hn Hd). repeat case_match; lia.
Qed.

Lemma milli_nonneg x : (0 <= milli x)%Z.
Proof.
  destruct x as [s|s| |s m e]; simpl; [lia..|]. destruct (Z.leb_spec 0 e).
  - pose proof (Z.pow_nonneg 2 e). nia.
  - apply round_half_even_nonneg; [lia|]. apply Z.pow_pos_nonneg; lia.
Qed.

Lemma pad3_digits n : (0 <= n < 1000)%Z -> all_digits (pad3 n) = true /\ dec_value (pad3 n) = n.
Proof.
  intros Hn. assert (forall k, 0 <= k mod 10 <= 9)%Z as Hm by (intros k; pose proof (Z.mod_pos_bound k 10); lia).
  unfold pad3. split.
  - simpl. by rewrite !digit_byte_is_digit by apply Hm.
  - unfold dec_value, dec_from. cbn [foldl]. rewrite !digit_byte_val by apply Hm.
    rewrite (Z.mod_small (n / 100) 10) by (split; [apply Z.div_pos; lia|apply Z.div_lt_upper_bound; lia]).
    pose proof (Z.div_mod n 10). pose proof (Z.div_mod (n / 10) 10). rewrite Z.div_div in * by lia.
    change (10 * 10)%Z with 100%Z in *. lia.
Qed.

Lemma span_digits_app d s : all_digits d = true -> (forall b, head s = Some b -> is_ascii_digit b = false) ->
  span_digits (d ++ s) = (d, s).
Proof.
  intros Hd Hs. induction d as [|b d IH]; simpl in *.
  - destruct s as [|b s]; [done|]. simpl. by rewrite (Hs b).
  - apply andb_true_iff in Hd as [-> Hd]. by rewrite (IH Hd).
Qed.

Lemma parse_decimal neg int frac : all_digits int = true -> all_digits frac = true -> int <> [] ->
  parse_number neg (int ++ Byte.x2e :: frac) = Some (f64_of_decimal neg (dec_value (int ++ frac)) (- Z.of_nat (length frac))).
Proof.
  intros Hi Hf Hne. unfold parse_number. rewrite span_digits_app; [|done|by intros b [= <-]].
  rewrite bool_decide_true by done. rewrite <- (app_nil_r frac) at 1. rewrite span_digits_app by done.
  rewrite bool_decide_false; [done|]. by destruct int.
Qed.

Lemma fixed3_read neg m : (0 <= m)%Z -> parse_f64 (fixed3 neg m) = Ok (f64_of_decimal neg m (-3)).
Proof.
  intros Hm. pose proof (Z.mod_pos_bound m 1000 ltac:(lia)) as Hb.
  destruct (dec_any_spec (m / 1000) ltac:(apply Z.div_pos; lia)) as (Hd & Hv & Hne).
  destruct (pad3_digits (m mod 1000) Hb) as [Hp Hpv].
  assert (parse_number neg (dec_any (m / 1000) ++ Byte.x2e :: pad3 (m mod 1000)) = Some (f64_of_decimal neg m (-3))) as Hn.
  { rewrite parse_decimal by done. do 2 f_equal. unfold dec_value in *. rewrite dec_from_app, Hv.
    unfold dec_from in *. unfold pad3 in *. cbn [foldl] in *. pose proof (Z.div_mod m 1000). lia. }
  unfold fixed3, parse_f64. destruct neg.
  - change (lit "-" ++ ?a ++ lit "." ++ ?b) with (Byte.x2d :: a ++ Byte.x2e :: b).
    rewrite bool_decide_false by done. cbn [eat_sign]. rewrite bool_decide_true by done. by rewrite Hn.
  - change ([] ++ ?a ++ lit "." ++ ?b) with (a ++ Byte.x2e :: b). destruct (dec_any (m / 1000)) as [|b int] eqn:E; [done|].
    rewrite bool_decide_false by done. cbn [app eat_sign]. simpl in Hd. apply andb_true_iff in Hd as [Hb1 _].
    rewrite !bool_decide_false by (intros ->; done). cbn [app] in Hn. by rewrite Hn.
Qed.

(** What was printed is read as [reread] says. *)
Lemma format_read x : parse_f64 (format_f64_3 x) = Ok (reread x).
Proof.
  destruct x as [s|s| |s m e].
  - destruct s; vm_compute; reflexivity.
  - destruct s; vm_compute; reflexivity.
  - vm_compute; reflexivity.
  - unfold format_f64_3, reread. apply fixed3_read. apply (milli_nonneg (S754_finite s m e)).
Qed.

Lemma format_plain x : Forall plain (format_f64_3 x).
Proof.
  assert (forall s m, (0 <= m)%Z -> Forall plain (fixed3 s m)) as Hf.
  { intros s m Hm. unfold fixed3. rewrite !Forall_app. split_and!.
    - destruct s; [|constructor]. apply (bool_decide_unpack _). vm_compute. exact I.
    - apply digits_plain. by destruct (dec_any_spec (m / 1000) ltac:(apply Z.div_pos; lia)).
    - apply (bool_decide_unpack _). vm_compute. exact I.
    - apply digits_plain. apply pad3_digits. apply Z.mod_pos_bound. lia. }
  destruct x as [s|s| |s m e]; [by apply Hf| | |].
  - destruct s; apply (bool_decide_unpack _); vm_compute; exact I.
  - apply (bool_decide_unpack _); vm_compute; exact I.
  - unfold format_f64_3. apply Hf, (milli_nonneg (S754_finite s m e)).
Qed.

(** ** The text of INFO *)

Definition info_text_of (pairs : list (bytes * bytes)) : bytes :=
  concat ((fun '(key, value) => key ++ lit ":" ++ value ++ crlf) <$> pairs).

Definition info_pairs (s : MetricsSnapshot) : list (bytes * bytes) :=
  let pct p := dec_nonneg (default 0%Z (percentile_us (ms_latency s) p)) in
  [(lit "role", lit "master"); (lit "engine", lit "hybridkv");
   (lit "requests_total", dec_nonneg (ms_requests_total s)); (lit "errors_total", dec_nonneg (ms_errors_total s));
   (lit "inflight", dec_nonneg (ms_inflight s));
   (lit "uptime_sec", format_f64_3 (as_secs_f64 (ms_uptime s))); (lit "qps_avg", format_f64_3 (qps s));
   (lit "error_rate", format_f64_3 (error_rate s)); (lit "latency_samples", dec_nonneg (h_samples (ms_latency s)));
   (lit "latency_avg_us", format_f64_3 (default (f64_of_Z 0) (average_us (ms_latency s))));
   (lit "latency_max_us", dec_nonneg (h_max_us (ms_latency s)));
   (lit "latency_p50_us", pct (f64_of_Z 50)); (lit "latency_p90_us", pct (f64_of_Z 90));
   (lit "latency_p99_us", pct (f64_of_Z 99)); (lit "latency_p999_us", pct (f64_div (f64_of_Z 999) (f64_of_Z 10)))].

Lemma info_lines_pairs s : info_lines s = info_text_of (info_pairs s).
Proof.
  unfold info_lines, info_text_of, info_pairs. cbn zeta. cbn [fmap list_fmap concat].
  repeat rewrite <- app_assoc. rewrite ?app_nil_r. reflexivity.
Qed.

(** Fields set one after the other. *)
Fixpoint set_fields (f : InfoFields) (pairs : list (bytes * bytes)) : result InfoFields bytes :=
  match pairs with
  | [] => Ok f
  | (key, value) :: pairs' => match info_field key value f with Ok f' => set_fields f' pairs' | Error e => Error e end
  end.

Definition plain_pair (p : bytes * bytes) : Prop := Forall plain (fst p) /\ Forall plain (snd p) /\ Byte.x3a ∉ fst p.

Lemma info_line_pair f key value : plain_pair (key, value) -> info_line f (key ++ lit ":" ++ value) = info_field key value f.
Proof.
  intros (Hk & Hv & Hc). unfold info_line. simpl in *.
  assert (Forall plain (key ++ Byte.x3a :: value)) as Hp.
  { apply Forall_app. split; [done|]. constructor; [|done]. apply (bool_decide_unpack _). vm_compute. exact I. }
  rewrite trim_plain by done. rewrite bool_decide_false by (by destruct key).
  by rewrite (proj2 (split_once_Some Byte.x3a (key ++ Byte.x3a :: value) key value)).
Qed.

Lemma info_text_fields pairs : forall f, Forall plain_pair pairs ->
  info_fields f (lines (info_text_of pairs)) = set_fields f pairs.
Proof.
  induction pairs as [|[key value] pairs IH]; intros f; [done|]. intros [Hp Hps]%Forall_cons.
  pose proof Hp as (Hk & Hv & _). unfold info_text_of. rewrite fmap_cons. cbn [concat].
  fold (info_text_of pairs). replace ((key ++ lit ":" ++ value ++ crlf) ++ info_text_of pairs)
    with ((key ++ lit ":" ++ value) ++ crlf ++ info_text_of pairs) by (by rewrite <- !app_assoc).
  rewrite lines_plain.
  - cbn [info_fields set_fields]. rewrite info_line_pair by done. destruct (info_field key value f); [by apply IH|done].
  - rewrite !Forall_app. split_and!; [done| |done]. apply (bool_decide_unpack _). vm_compute. exact I.
Qed.

Lemma info_pairs_plain s : Forall plain_pair (info_pairs s).
Proof.
  assert (forall k v, bool_decide (Forall plain k /\ Byte.x3a ∉ k) = true -> Forall plain v -> plain_pair (k, v)) as Hk.
  { intros k v [? ?]%bool_decide_eq_true Hv. by split_and!. }
  assert (forall n, Forall plain (dec_nonneg n)) as Hd by (intros n; apply digits_plain, dec_nonneg_digits).
  unfold info_pairs. cbn zeta. repeat apply Forall_cons_2; [..|constructor]; (apply Hk; [vm_compute; reflexivity|]);
    first [apply Hd | apply format_plain | apply (bool_decide_unpack _); vm_compute; exact I].
Qed.

Lemma store_run {A} (parse : bytes -> result A bytes) put key value f v : parse value = Ok v ->
  store parse put key value f = Ok (put v f).
Proof. unfold store. by intros ->. Qed.

Definition known_keys : list bytes :=
  [lit "role"; lit "connected_clients"; lit "used_memory"; lit "requests_total"; lit "total_commands_processed";
   lit "qps_avg"; lit "instantaneous_ops_per_sec"; lit "uptime_sec"; lit "uptime_in_seconds"; lit "keyspace_hits";
   lit "keyspace_misses"].

Lemma info_field_other key value f : bool_decide (key ∉ known_keys) = true -> info_field key value f = Ok f.
Proof.
  intros Hk%bool_decide_eq_true. unfold info_field.
  repeat (rewrite bool_decide_false by (intros ->; apply Hk; unfold known_keys; set_solver)). done.
Qed.

Lemma info_fields_of s : (0 <= ms_requests_total s <= u64_max)%Z ->
  set_fields no_fields (info_pairs s)
  = Ok (mkFields (Some (lit "master")) (ms_requests_total s) (reread (qps s))
          (f64_floor_u64 (reread (as_secs_f64 (ms_uptime s)))) 0 0 0 0).
Proof.
  intros Hr. unfold info_pairs. cbn zeta.
  assert (parse_u64 (dec_nonneg (ms_requests_total s)) = Ok (ms_requests_total s)) as Hp
    by (apply parse_uint_dec; [done|by apply u64_digits]).
  assert (forall v f, info_field (lit "requests_total") v f = store parse_u64 with_requests_total (lit "requests_total") v f)
    as E1 by reflexivity.
  assert (forall v f, info_field (lit "uptime_sec") v f
    = store parse_f64 (fun x => with_uptime_seconds (f64_floor_u64 x)) (lit "uptime_sec") v f) as E2 by reflexivity.
  assert (forall v f, info_field (lit "qps_avg") v f = store parse_f64 with_qps_avg (lit "qps_avg") v f)
    as E3 by reflexivity.
  assert (forall v f, info_field (lit "role") v f = Ok (with_role v f)) as E0 by reflexivity.
  cbn [set_fields]. rewrite E0, (info_field_other (lit "engine")) by (vm_compute; reflexivity).
  rewrite E1, (store_run _ _ _ _ _ _ Hp), (info_field_other (lit "errors_total")) by (vm_compute; reflexivity).
  rewrite (info_field_other (lit "inflight")) by (vm_compute; reflexivity).
  rewrite E2, (store_run _ _ _ _ _ _ (format_read _)), E3, (store_run _ _ _ _ _ _ (format_read _)).
  repeat (rewrite info_field_other by (vm_compute; reflexivity)). reflexivity.
Qed.

(** What the GUI makes of a metrics snapshot. *)
Definition snapshot_of (captured_at : bytes) (s : MetricsSnapshot) : InfoSnapshot :=
  mkInfo captured_at (lit "master") 0 0 (ms_requests_total s) (f64_round_u64 (reread (qps s))) 0 0
    (f64_floor_u64 (reread (as_secs_f64 (ms_uptime s)))).

Lemma info_parsed at_ s : (0 <= ms_requests_total s <= u64_max)%Z ->
  parse_info_snapshot at_ (info_lines s) = Ok (snapshot_of at_ s).
Proof.
  intros Hr. unfold parse_info_snapshot. rewrite info_lines_pairs, info_text_fields by apply info_pairs_plain.
  by rewrite info_fields_of.
Qed.

(** The GUI's parser accepts every INFO text the server can write and reads back the role, the number
    of requests exactly, and the rate and the uptime as they were printed with three decimals; clients,
    memory, hits and misses are 0 whatever the server does, since the server writes none of them. *)
Theorem info_is_read_back at_ s : (0 <= ms_requests_total s <= u64_max)%Z ->
  exists i, parse_info_snapshot at_ (info_lines s) = Ok i /\ is_captured_at i = at_ /\ is_role i = lit "master"
    /\ is_total_commands_processed i = ms_requests_total s
    /\ is_instantaneous_ops_per_sec i = f64_round_u64 (reread (qps s))
    /\ is_uptime_seconds i = f64_floor_u64 (reread (as_secs_f64 (ms_uptime s)))
    /\ is_connected_clients i = 0%Z /\ is_used_memory i = 0%Z /\ is_keyspace_hits i = 0%Z /\ is_keyspace_misses i = 0%Z.
Proof. intros Hr. exists (snapshot_of at_ s). split; [by apply info_parsed|done]. Qed.

Lemma info_ascii s : valid_utf8 (info_lines s) = true.
Proof.
  unfold valid_utf8. apply bool_decide_true, utf8_ascii. rewrite info_lines_pairs. unfold info_text_of.
  pose proof (info_pairs_plain s) as Hp. induction Hp as [|[k v] pairs (Hk & Hv & _) _ IH]; [constructor|].
  rewrite fmap_cons. cbn [concat]. simpl in Hk, Hv.
  assert (forall l, Forall plain l -> Forall ascii l) as Ha by (intros l Hl; eapply Forall_impl; [exact Hl|]; by intros b [? _]).
  rewrite !Forall_app. split_and!; auto; by repeat constructor.
Qed.

(** ** A poll over the link *)

Section poll.
Context `{Profile} `{KVEngineLaws E} (clock : nat -> Instant) (wall : nat -> SystemTime) (show_io : ErrorKind -> bytes).

Abbreviation link := (World E * (RespParser * bytes))%type.

#[local] Instance link_network : Network link unit := loopback clock wall.

Lemma link_info b m (w : World E) config_addr :
  kv_rep b (w_engine w) m -> w_out w = [] ->
  (forall t, in_memory (info_lines (snapshot (clock t) (record_request_start (w_metrics w))))) ->
  exists t st', kv_info 1 show_io (with_config (mkClientConfig config_addr 8 16 (Some poll_timeout) (Some poll_timeout)
      (Some poll_timeout) 1)) (w, (parser_new, []))
    = (Val (info_lines (snapshot (clock t) (record_request_start (w_metrics w)))), st')
    /\ w_ticks w <= t /\ kv_rep b (w_engine (fst st')) m /\ quiet st'.
Proof.
  intros Hr Ho Hm. set (self := with_config _).
  assert (quiet (w, (parser_new, []))) as Hq by (by split_and!).
  destruct (quiet_acquire (H := H) clock wall (client_pool self) pool_new _ Hq) as (c & p1 & Ea & Hok1); [by split|done|].
  assert (decode [lit "INFO"] = CInfo) as Hdec by reflexivity.
  destruct (link_exec clock wall b [lit "INFO"] m w parser_new c Hq) as (v & m' & st' & t0 & c' & Ee & Hs & Hr' & Hq' & Ht0 & Ht1);
    [done|done|by rewrite Hdec| |].
  { rewrite Hdec. intros t0 v m' Hs. inversion Hs; subst. cbn [value_wf]. specialize (Hm t0). unfold in_memory in Hm.
    unfold i64_max. lia. }
  rewrite Hdec in Hs. inversion Hs; subst. exists t0, st'. split_and!; try done.
  unfold kv_info, client_info, exec_with_retry.
  assert (retry_loop 1 self (client_max_retries self) [lit "INFO"] (pool_new, (w, (parser_new, [])))
    = (Val (Bulk (Some (info_lines (snapshot (clock t0) (record_request_start (w_metrics w)))))),
       (drop_pooled (client_pool self) true c' p1, st'))) as Hx.
  { rewrite retry_unfold. unfold link_network. rewrite Ea. unfold pooled_exec. by rewrite Ee. }
  rewrite (bind_val _ _ _ _ _ Hx). cbn [mret M_ret]. unfold from_utf8.
  pose proof (info_ascii (snapshot (clock t0) (record_request_start (w_metrics w)))) as Hu.
  unfold valid_utf8 in Hu. apply bool_decide_eq_true in Hu. by rewrite Hu.
Qed.

End poll.

(** The GUI's clock, at a poll. *)
Definition gui_clock {X} (now : SystemTime) : Ambient X := {| sleep _ x := x; system_time x := (now, x) |}.

(** C19: End to end: a poll of the GUI, through its client library and the wire format, over a link to a
    server connection on any lawful engine, succeeds, leaves the server's map as it was, and gives the
    metrics of that server when it served the poll, the poll itself counted. *)
Theorem poll_reads_server_metrics `{Profile} `{KVEngineLaws E} clock wall show_io now b m (w : World E) address pw :
  kv_rep b (w_engine w) m -> w_out w = [] -> ip_outside pw = (w, (parser_new, [])) ->
  (forall t, in_memory (info_lines (snapshot (clock t) (record_request_start (w_metrics w))))) ->
  let factory := kv_info_client (H := loopback clock wall) 1 show_io in
  exists t pw', let i := snapshot_of (iso_seconds now) (snapshot (clock t) (record_request_start (w_metrics w))) in
    poll (H := factory) (H0 := gui_clock now) address pw = (Val i, pw') /\ w_ticks w <= t
    /\ ip_snapshot pw' = Some i /\ take_error pw' = None
    /\ is_total_commands_processed i = wrap64 (requests_total (w_metrics w) + 1)
    /\ kv_rep b (w_engine (fst (ip_outside pw'))) m /\ quiet (ip_outside pw').
Proof.
  intros Hr Ho Hx Hm factory.
  destruct (link_info clock wall show_io b m w address Hr Ho Hm) as (t & st' & E1 & Ht & Hr' & Hq').
  unfold link_network in E1.
  exists t. unfold poll. rewrite bind_catch. unfold in_outside at 1. cbn [info_connect factory kv_info_client].
  unfold kv_info_connect. cbn [mret M_ret]. rewrite or_record_run, bind_catch. unfold in_outside at 1.
  cbn [ip_outside info_text factory kv_info_client client_config_default cc_max_idle cc_max_total max_retries].
  rewrite Hx, E1. rewrite or_record_run. unfold in_outside at 1, mbind at 1, M_bind at 1.
  cbn [ip_outside system_time gui_clock].
  rewrite info_parsed
    by (cbn; pose proof (wrap64_range (requests_total (w_metrics w) + 1)); unfold u64_max; lia).
  eexists. by split_and!.
Qed.

(** ** A server that has run for some seconds *)

Definition clock2 (_ : nat) : Instant := 2500000000%Z.

Lemma info_is_read_back_witness :
  let s := snapshot 2500000000%Z (record_request_start (w_metrics w0)) in
  (0 <= ms_requests_total s <= u64_max)%Z
  /\ exists i, parse_info_snapshot [] (info_lines s) = Ok i /\ is_captured_at i = [] /\ is_role i = lit "master"
    /\ is_total_commands_processed i = ms_requests_total s
    /\ is_instantaneous_ops_per_sec i = f64_round_u64 (reread (qps s))
    /\ is_uptime_seconds i = f64_floor_u64 (reread (as_secs_f64 (ms_uptime s)))
    /\ is_connected_clients i = 0%Z /\ is_used_memory i = 0%Z /\ is_keyspace_hits i = 0%Z /\ is_keyspace_misses i = 0%Z.
Proof. cbn zeta. split; [vm_compute; split; discriminate|]. apply info_is_read_back. vm_compute; split; discriminate. Defined.

Lemma poll_reads_server_metrics_witness :
  let i := snapshot_of (lit "7Z") (snapshot 2500000000%Z (record_request_start (w_metrics w0))) in
  is_total_commands_processed i = 1%Z /\ is_uptime_seconds i = 2%Z
  /\ exists t pw', poll (H := kv_info_client (H := loopback (H := release_profile) (H0 := engine0) clock2 clock2) 1 (fun _ => []))
      (H0 := gui_clock 7000000000%Z) (lit "127.0.0.1:6380") (with_client_factory (w0, (parser_new, [])))
    = (Val (snapshot_of (iso_seconds 7000000000%Z) (snapshot (clock2 t) (record_request_start (w_metrics w0)))), pw')
    /\ 0 <= t /\ take_error pw' = None.
Proof.
  cbn zeta. split; [vm_compute; reflexivity|]. split; [vm_compute; reflexivity|].
  destruct (poll_reads_server_metrics (H := release_profile) (H0 := engine0) (H1 := laws0) clock2 clock2 (fun _ => [])
    7000000000%Z false ∅ w0 (lit "127.0.0.1:6380") (with_client_factory (w0, (parser_new, []))))
    as (t & pw' & Hp & Ht & _ & He & _);
    [exact w0_rep|reflexivity|reflexivity|intros t; vm_compute; reflexivity|].
  exists t, pw'. split_and!; assumption.
Defined.
