(* ===== verification/AppState.v ===== *)
(** * The application state and its commands (hkv-gui/src-tauri/src/state.rs, commands.rs, main.rs)

    The four parts behind one state: the benchmark manager, whose world holds the
    runners' and the disk of the run repository, the server manager, and the INFO
    poller; the eight commands of the front end; the relay of lifecycle events. *)

From S2P Require Import Prelude Decimal F64 RustStr Observation GuiModels RedisBenchmark RunRepository BenchmarkManager.
From S2P Require Import ServerManager InfoPoller.

(** ** The list of runs *)

(** The manager's summaries put over the repository's. *)
Definition merge_runs (persisted manager : list NormalizedRunSummary) : list NormalizedRunSummary :=
  foldl (fun runs run => replace_or_push (fun existing => sm_id existing = sm_id run) run runs) persisted manager.

Definition listing (persisted manager : list NormalizedRunSummary) : list NormalizedRunSummary :=
  sort_by (newer_first sm_created_at) (merge_runs persisted manager).

(** ** State *)

Record AppWorld (H R X C P : Type) := mkApp {
  app_manager : ManagerWorld H (R * Disk);
  app_server : ServerWorld X C;
  app_poller : PollerWorld P
}.
Arguments mkApp {H R X C P}. Arguments app_manager {H R X C P}. Arguments app_server {H R X C P}.
Arguments app_poller {H R X C P}.

(** *** Where runs are kept *)

(** [PathBuf::join] of a relative path. *)
Definition path_join (a b : bytes) : bytes :=
  if bool_decide (a = []) || bool_decide (last a = Some SLASH) then a ++ b else a ++ [SLASH] ++ b.

Definition non_blank (v : option bytes) : option bytes :=
  p ← v; if bool_decide (trim p = []) then None else Some (trim p).

(** The two variables, [None] when [env::var] fails. *)
Definition preferred_state_root (xdg_state_home home : option bytes) (temp_dir : bytes) : bytes :=
  match non_blank xdg_state_home with
  | Some path => path
  | None =>
      match non_blank home with
      | Some path => path_join (path_join path (lit ".local")) (lit "state")
      | None => temp_dir
      end
  end.

Definition default_storage_root (xdg_state_home home : option bytes) (temp_dir : bytes) : bytes :=
  path_join (path_join (preferred_state_root xdg_state_home home temp_dir) (lit "hybird-kv-gui")) (lit "runs").

Example state_root_xdg : default_storage_root (Some (lit " /var/state/ ")) (Some (lit "/home/u")) (lit "/tmp")
  = lit "/var/state/hybird-kv-gui/runs".
Proof. vm_compute. reflexivity. Qed.
Example state_root_home : default_storage_root (Some (lit "  ")) (Some (lit "/home/u")) (lit "/tmp")
  = lit "/home/u/.local/state/hybird-kv-gui/runs".
Proof. vm_compute. reflexivity. Qed.

(** ** Operations *)

Section app.
Context `{RunJson} (wall : nat -> SystemTime) (io_fault : nat -> option (bytes * nat)) (missing : bytes).
Context {Hd R X C P K : Type} (runners : list (BenchmarkRunner (R * Disk) Hd)).
Context (handle_stop : Hd -> R * Disk -> result unit RunnerError * (R * Disk)).
Context `{ProcessLauncher X C} `{Ambient X} (workspace_root : bytes).
Context `{InfoClientFactory P K} `{Ambient P}.

Abbreviation World := (AppWorld Hd R X C P).
Abbreviation AM := (M World bytes).

(** A program of the repository on the disk, as [BenchmarkRunSink] too. *)
Definition on_disk {A} (p : Prog A) (w : R * Disk) : A * (R * Disk) :=
  let '(a, d) := exec wall io_fault missing p (snd w) in (a, (fst w, d)).
Definition repository_sink (run : BenchmarkRun) (w : R * Disk) : result unit bytes * (R * Disk) := on_disk (persist run) w.

Definition in_repository {A} (p : Prog A) : AM A := fun w =>
  let m := app_manager w in
  let '(a, x) := on_disk p (bm_world m) in
  (Val a, mkApp (mkManager (bm_active_runs m) (bm_runs m) (bm_run_events m) (bm_lifecycle_events m) (bm_ticks m) x)
            (app_server w) (app_poller w)).

(** A call of the manager, with the message of its error. *)
Definition in_manager {A} (f : M (ManagerWorld Hd (R * Disk)) RunnerError A) : AM A := fun w =>
  let '(o, m) := f (app_manager w) in
  (match o with Val a => Val a | Err e => Err (er_message e) | Panic => Panic | Diverge => Diverge end,
   mkApp m (app_server w) (app_poller w)).
Definition in_server {A} (f : M (ServerWorld X C) bytes A) : AM A := fun w =>
  let '(o, s) := f (app_server w) in (o, mkApp (app_manager w) s (app_poller w)).
Definition in_poller {A} (f : M (PollerWorld P) bytes A) : AM A := fun w =>
  let '(o, p) := f (app_poller w) in (o, mkApp (app_manager w) (app_server w) p).

Definition app_list_runs : AM (list NormalizedRunSummary) :=
  r ← in_repository repo_list_runs;
  let persisted := match r with Ok runs => runs | Error _ => [] end in
  manager ← gets (fun w => bm_list_runs (app_manager w));
  mret (listing persisted manager).

Definition run_not_found (id : bytes) : bytes := lit "benchmark run '" ++ id ++ lit "' was not found".

Definition get_run_detail (id : bytes) : AM BenchmarkRun :=
  found ← gets (fun w => bm_get_run id (app_manager w));
  match found with
  | Some run => mret run
  | None =>
      r ← in_repository (repo_get_run id);
      match r with
      | Error e => throw e
      | Ok None => throw (run_not_found id)
      | Ok (Some run) => mret run
      end
  end.

Definition start_benchmark (request : BenchmarkRunRequest) : AM BenchmarkRun :=
  in_manager (bm_start wall runners request).
Definition stop_benchmark (id : bytes) : AM BenchmarkRun := in_manager (bm_stop handle_stop id).

Definition start_server (request : option StartServerRequest) : AM ServerStatus :=
  in_server (sm_start workspace_root request).

Definition stop_server : AM ServerStatus :=
  status ← in_server sm_stop;
  modify (fun w => mkApp (app_manager w) (app_server w) (ip_clear (app_poller w)));;
  mret status.

Definition with_last_error (e : bytes) (st : ServerStatus) : ServerStatus :=
  mkStatus (st_state st) (st_address st) (st_pid st) (st_started_at st) (Some e).

Definition server_status : AM ServerStatus :=
  status ← in_server sm_status;
  error ← gets (fun w => take_error (app_poller w));
  mret (match error with Some e => with_last_error e status | None => status end).

Definition info_snapshot : AM (option InfoSnapshot) :=
  status ← in_server sm_status;
  if bool_decide (st_state status = lit "running") then
    r ← catch (in_poller (poll (st_address status)));
    mret (match r with Ok i => Some i | Error _ => None end)
  else gets (fun w => ip_snapshot (app_poller w)).

(** ** Commands *)

Record ApiError := mkApiError { api_code : bytes; api_message : bytes }.
Definition runtime (message : bytes) : ApiError := mkApiError (lit "runtime_error") message.

Inductive AppCommand : Type :=
| StartBenchmark (request : BenchmarkRunRequest)
| StopBenchmark (id : bytes)
| ListRuns
| GetRunDetail (id : bytes)
| StartServer (request : option StartServerRequest)
| StopServer
| ServerStatusCommand
| CurrentInfoSnapshot.

Inductive AppReply : Type :=
| RunReply (run : BenchmarkRun)
| RunsReply (runs : list NormalizedRunSummary)
| StatusReply (status : ServerStatus)
| InfoReply (info : option InfoSnapshot).

(** [map_err(ApiError::runtime)] on what the command calls. *)
Definition answer {A} (reply : A -> AppReply) (m : AM A) : M World ApiError AppReply := fun w =>
  let '(o, w') := m w in
  (match o with Val a => Val (reply a) | Err e => Err (runtime e) | Panic => Panic | Diverge => Diverge end, w').

Definition app_command (c : AppCommand) : M World ApiError AppReply :=
  match c with
  | StartBenchmark request => answer RunReply (start_benchmark request)
  | StopBenchmark id => answer RunReply (stop_benchmark id)
  | ListRuns => answer RunsReply app_list_runs
  | GetRunDetail id => answer RunReply (get_run_detail id)
  | StartServer request => answer StatusReply (start_server request)
  | StopServer => answer StatusReply stop_server
  | ServerStatusCommand => answer StatusReply server_status
  | CurrentInfoSnapshot => answer InfoReply info_snapshot
  end.

Fixpoint app_run (cs : list AppCommand) (w : World) : list (outcome ApiError AppReply) * World :=
  match cs with
  | [] => ([], w)
  | c :: cs' => let '(o, w1) := app_command c w in let '(os, w2) := app_run cs' w1 in (o :: os, w2)
  end.

End app.

(** ** The relay *)

(** What [recv] of the broadcast receiver answers. *)
Inductive RecvAnswer : Type :=
| RecvEvent (event : BenchmarkEventEnvelope)
| RecvLagged (missed : Z)
| RecvClosed.

(** The events given to the front end, under the channel's name. *)
Fixpoint relay (answers : list RecvAnswer) : list (bytes * BenchmarkEventEnvelope) :=
  match answers with
  | [] | RecvClosed :: _ => []
  | RecvEvent event :: answers' => (lit "benchmark:lifecycle", event) :: relay answers'
  | RecvLagged _ :: answers' => relay answers'
  end.
