(* ===== verification/AppStateThms.v ===== *)
(** * Properties of the application state (hkv-gui/src-tauri/src/state.rs)

    The merged list of runs is complete, current and newest first; an error of
    the poller covers the server's status until a poll succeeds. *)

From S2P Require Import Prelude Decimal F64 RustStr Observation GuiModels RedisBenchmark RunRepository BenchmarkManager.
From S2P Require Import ServerManager ServerManagerThms InfoPoller AppState.
From Stdlib Require Import Sorting.Sorted.

(** ** Sorting *)

Lemma sorted_weaken {A} (R1 R2 : A -> A -> Prop) l : (forall x y, R1 x y -> R2 x y) ->
  StronglySorted R1 l -> StronglySorted R2 l.
Proof. intros HR. induction 1 as [|x l Hs IH Hx]; constructor; [done|]. eapply Forall_impl; [exact Hx|]. auto. Qed.

Section sort.
Context {A : Type} (le : A -> A -> bool).

Lemma insert_by_perm x l : insert_by le x l ≡ₚ x :: l.
Proof.
  induction l as [|y l IH]; [done|]. simpl. destruct (le x y); [done|]. rewrite IH. apply Permutation_swap.
Qed.

Lemma sort_by_perm l : sort_by le l ≡ₚ l.
Proof. induction l as [|x l IH]; [done|]. simpl. by rewrite insert_by_perm, IH. Qed.

Context (le_total : forall x y, le x y = false -> le y x = true).
Context (le_trans : forall x y z, le x y = true -> le y z = true -> le x z = true).

Abbreviation sorted := (StronglySorted (fun x y => le x y = true)).

Lemma insert_by_sorted x l : sorted l -> sorted (insert_by le x l).
Proof.
  induction 1 as [|y l Hs IH Hy]; simpl; [repeat constructor|].
  destruct (le x y) eqn:E.
  - constructor; [by constructor|]. constructor; [done|]. eapply Forall_impl; [exact Hy|]. eauto.
  - constructor; [done|]. rewrite insert_by_perm. constructor; [by apply le_total|done].
Qed.

Lemma sort_by_sorted l : sorted (sort_by le l).
Proof. induction l as [|x l IH]; simpl; [constructor|]. by apply insert_by_sorted. Qed.

(** Equal elements stay in their order. *)
Lemma insert_by_stable x l (P : A -> Prop) `{forall y, Decision (P y)} :
  (forall y, P x -> P y -> le x y = true) -> filter P (insert_by le x l) = filter P (x :: l).
Proof.
  intros Hx. induction l as [|y l IH]; [done|]. simpl. destruct (le x y) eqn:E; [done|].
  rewrite (filter_cons P y), IH, !(filter_cons P x), (filter_cons P y).
  destruct (decide (P x)), (decide (P y)); try done. by rewrite Hx in E.
Qed.

Lemma sort_by_stable l (P : A -> Prop) `{forall y, Decision (P y)} :
  (forall x y, P x -> P y -> le x y = true) -> filter P (sort_by le l) = filter P l.
Proof.
  intros Hp. induction l as [|x l IH]; [done|]. simpl. rewrite insert_by_stable by auto.
  by rewrite !filter_cons, IH.
Qed.

End sort.

(** ** Timestamps *)

Lemma dec_from_range s : forall v, all_digits s = true ->
  (v * 10 ^ Z.of_nat (length s) <= dec_from v s < (v + 1) * 10 ^ Z.of_nat (length s))%Z.
Proof.
  induction s as [|b s IH]; intros v.
  - intros _. unfold dec_from. simpl. lia.
  - cbn [all_digits forallb]. intros [Hb Hs]%andb_true_iff. apply is_ascii_digit_val in Hb.
    specialize (IH (v * 10 + digit_val b)%Z Hs). change (dec_from v (b :: s)) with (dec_from (v * 10 + digit_val b) s).
    cbn [length]. rewrite Nat2Z.inj_succ, Z.pow_succ_r by lia.
    pose proof (Z.pow_pos_nonneg 10 (Z.of_nat (length s))). nia.
Qed.

(** Digit strings of one length are ordered as numbers. *)
Lemma digits_ordered a : forall b c v, all_digits a = true -> all_digits b = true -> length a = length b ->
  bytes_cmp (a ++ c) (b ++ c) <> Gt -> (dec_from v a <= dec_from v b)%Z.
Proof.
  induction a as [|x a IH]; intros [|y b] c v; try done.
  cbn [all_digits forallb]. intros [Hx Ha]%andb_true_iff [Hy Hb]%andb_true_iff [= Hl]. cbn [app bytes_cmp].
  change (dec_from v (x :: a)) with (dec_from (v * 10 + digit_val x) a).
  change (dec_from v (y :: b)) with (dec_from (v * 10 + digit_val y) b).
  destruct (Z.compare_spec (byte_val x) (byte_val y)) as [E|E|E]; [|intros _|done].
  - apply byte_val_inj in E as ->. by apply IH.
  - pose proof (dec_from_range a (v * 10 + digit_val x)%Z Ha). pose proof (dec_from_range b (v * 10 + digit_val y)%Z Hb).
    rewrite Hl in *. pose proof (Z.pow_pos_nonneg 10 (Z.of_nat (length b))). unfold digit_val in *. nia.
Qed.

Lemma digits_rev_length size : forall n l k, digits_rev size n = Some l -> (10 ^ Z.of_nat k <= n < 10 ^ Z.of_nat (S k))%Z ->
  length l = S k.
Proof.
  induction size as [|size IH]; intros n l k; simpl.
  { destruct (Z.leb_spec n 0); [|done]. intros _ Hn. pose proof (Z.pow_pos_nonneg 10 (Z.of_nat k)). lia. }
  destruct (Z.leb_spec n 0); [intros _ Hn; pose proof (Z.pow_pos_nonneg 10 (Z.of_nat k)); lia|].
  destruct (digits_rev size (n / 10)) as [l'|] eqn:E; [|done]. intros [= <-] Hn. cbn [length]. f_equal.
  destruct k as [|k].
  - change (10 ^ Z.of_nat 1)%Z with 10%Z in Hn. rewrite Z.div_small in E by lia. destruct size; by injection E as <-.
  - apply (IH _ _ _ E). rewrite !Nat2Z.inj_succ, !Z.pow_succ_r in Hn by lia. rewrite Nat2Z.inj_succ, Z.pow_succ_r by lia.
    split; [apply Z.div_le_lower_bound; lia|apply Z.div_lt_upper_bound; lia].
Qed.

(** The seconds of ten digits: from September 2001 to November 2286. *)
Definition ten_digits (t : SystemTime) : Prop := (10 ^ 9 <= t / 1000000000 < 10 ^ 10)%Z.

Lemma ten_digits_length t : ten_digits t -> length (dec_nonneg (t / 1000000000)) = 10.
Proof.
  intros Ht. unfold ten_digits in Ht. unfold dec_nonneg. rewrite (proj2 (Z.leb_gt _ _)) by lia.
  destruct (digits_rev_fits 20 (t / 1000000000)) as [l E]; [simpl; lia|]. rewrite E. cbn [default].
  rewrite length_rev. by apply (digits_rev_length 20 (t / 1000000000)).
Qed.

Lemma iso_ordered t1 t2 : ten_digits t1 -> ten_digits t2 -> bytes_cmp (iso_at t1) (iso_at t2) <> Gt ->
  (t1 / 1000000000 <= t2 / 1000000000)%Z.
Proof.
  intros H1 H2 Hc. pose proof H1 as R1. pose proof H2 as R2. unfold ten_digits in R1, R2.
  destruct (dec_nonneg_spec (t1 / 1000000000) ltac:(lia)) as (D1 & V1 & _).
  destruct (dec_nonneg_spec (t2 / 1000000000) ltac:(lia)) as (D2 & V2 & _).
  rewrite <- V1, <- V2. apply (digits_ordered _ _ (lit "Z") 0); [done..| |done]. by rewrite !ten_digits_length.
Qed.

(** ** The list of runs *)

Lemma newer_first_total {A} (f : A -> bytes) x y : newer_first f x y = false -> newer_first f y x = true.
Proof. unfold newer_first. rewrite (bytes_cmp_antisym (f x) (f y)). by destruct (bytes_cmp (f x) (f y)). Qed.

Lemma newer_first_iff {A} (f : A -> bytes) x y : newer_first f x y = true <-> bytes_cmp (f y) (f x) <> Gt.
Proof. unfold newer_first. by destruct (bytes_cmp (f y) (f x)). Qed.

Lemma newer_first_trans {A} (f : A -> bytes) x y z :
  newer_first f x y = true -> newer_first f y z = true -> newer_first f x z = true.
Proof. rewrite !newer_first_iff. intros H1 H2. by eapply bytes_cmp_trans. Qed.

Abbreviation unique_ids l := (NoDup (sm_id <$> l)).

Lemma replace_perm x l : unique_ids l ->
  replace_or_push (fun e => sm_id e = sm_id x) x l ≡ₚ x :: filter (fun e => sm_id e <> sm_id x) l.
Proof.
  induction l as [|y l IH]; [done|]. rewrite fmap_cons. intros [Hy Hl]%NoDup_cons. rewrite replace_or_push_cons, filter_cons.
  destruct (decide (sm_id y = sm_id x)) as [E|E].
  - rewrite decide_False by (intros Hn; by apply Hn). constructor.
    rewrite filter_all; [done|]. intros z Hz Ez. apply Hy. rewrite E, <- Ez. by apply list_elem_of_fmap_2.
  - rewrite decide_True by done. rewrite IH by done. apply Permutation_swap.
Qed.

Lemma filter_unique (P : NormalizedRunSummary -> Prop) `{forall x, Decision (P x)} l : unique_ids l -> unique_ids (filter P l).
Proof.
  intros Hl. apply (NoDup_fmap_1 _) in Hl as Hl2. revert Hl. induction l as [|x l IH]; [done|].
  rewrite fmap_cons. intros [Hx Hl]%NoDup_cons. apply NoDup_cons in Hl2 as [_ Hl2]. rewrite filter_cons.
  destruct (decide (P x)); [|by apply IH]. rewrite fmap_cons. constructor; [|by apply IH].
  intros (y & E & Hy)%list_elem_of_fmap. apply Hx. rewrite E. apply list_elem_of_filter in Hy as [_ Hy].
  by apply list_elem_of_fmap_2.
Qed.

Lemma replace_unique x l : unique_ids l -> unique_ids (replace_or_push (fun e => sm_id e = sm_id x) x l).
Proof.
  intros Hl. rewrite (replace_perm x l Hl), fmap_cons. constructor; [|by apply filter_unique].
  intros (y & E & [Hy _]%list_elem_of_filter)%list_elem_of_fmap. by apply Hy.
Qed.

Lemma merge_perm manager : forall persisted, unique_ids persisted -> unique_ids manager ->
  merge_runs persisted manager ≡ₚ manager ++ filter (fun e => sm_id e ∉ sm_id <$> manager) persisted.
Proof.
  induction manager as [|x manager IH]; intros persisted Hp; cbn [merge_runs foldl].
  - intros _. rewrite filter_all; [done|]. intros y _. apply not_elem_of_nil.
  - rewrite fmap_cons. intros [Hx Hm]%NoDup_cons. rewrite IH by (done || by apply replace_unique).
    rewrite (replace_perm x persisted Hp), filter_cons, decide_True by done.
    rewrite <- Permutation_middle. cbn [app]. constructor. apply Permutation_app_head. clear.
    induction persisted as [|y l IH]; [done|]. rewrite !filter_cons.
    destruct (decide (sm_id y <> sm_id x)) as [E|E]; rewrite ?filter_cons.
    + destruct (decide (sm_id y ∉ sm_id <$> manager)) as [E2|E2].
      * rewrite decide_True by set_solver. by constructor.
      * rewrite decide_False by set_solver. done.
    + rewrite decide_False by set_solver. done.
Qed.

(** What the front end lists: every run the manager knows, as the manager has it, and every persisted
    run the manager does not know, each once; newest first by the text of its creation time, which is
    newest first by the second for times of ten digits; runs of one creation time in the order of the
    merged list. *)
Theorem listing_is_complete_and_newest_first persisted manager : unique_ids persisted -> unique_ids manager ->
  let out := listing persisted manager in
  out ≡ₚ manager ++ filter (fun e => sm_id e ∉ sm_id <$> manager) persisted
  /\ unique_ids out
  /\ StronglySorted (fun a b => newer_first sm_created_at a b = true) out
  /\ StronglySorted (fun a b => forall ta tb, sm_created_at a = iso_at ta -> sm_created_at b = iso_at tb ->
        ten_digits ta -> ten_digits tb -> (tb / 1000000000 <= ta / 1000000000)%Z) out
  /\ forall at_, filter (fun e => sm_created_at e = at_) out
      = filter (fun e => sm_created_at e = at_) (merge_runs persisted manager).
Proof.
  intros Hp Hm out.
  assert (StronglySorted (fun a b => newer_first sm_created_at a b = true) out) as Hs.
  { apply sort_by_sorted; [apply newer_first_total|apply newer_first_trans]. }
  assert (out ≡ₚ manager ++ filter (fun e => sm_id e ∉ sm_id <$> manager) persisted) as Hperm.
  { unfold out, listing. by rewrite sort_by_perm, merge_perm. }
  split_and!; [done| |done| |].
  - rewrite Hperm, fmap_app. apply NoDup_app. split_and!; [done| |by apply filter_unique].
    intros id Hid (y & -> & [Hy _]%list_elem_of_filter)%list_elem_of_fmap. by apply Hy.
  - eapply sorted_weaken; [|exact Hs]. intros a b Hab ta tb Ea Eb Ha Hb. apply iso_ordered; [done..|].
    rewrite <- Ea, <- Eb. by apply newer_first_iff.
  - intros at_. apply sort_by_stable. intros x y Hx Hy. unfold newer_first. rewrite Hx, Hy.
    pose proof (bytes_cmp_antisym at_ at_) as E. by destruct (bytes_cmp at_ at_).
Qed.

(** ** The status line *)

Section status.
Context `{RunJson} (wall : nat -> SystemTime) (io_fault : nat -> option (bytes * nat)) (missing : bytes).
Context {Hd R X C P K : Type} (runners : list (BenchmarkRunner (R * Disk) Hd)).
Context (handle_stop : Hd -> R * Disk -> result unit RunnerError * (R * Disk)).
Context `{ProcessLauncher X C} `{Ambient X} (workspace_root : bytes).
Context `{InfoClientFactory P K} `{Ambient P}.

Abbreviation World := (AppWorld Hd R X C P).
Abbreviation app_command := (app_command wall io_fault missing runners handle_stop workspace_root).
Abbreviation app_run := (app_run wall io_fault missing runners handle_stop workspace_root).

Lemma sm_status_answers (s : ServerWorld X C) : exists st s', sm_status s = (Val st, s').
Proof.
  unfold sm_status, set_server_process, set_server_error. rewrite bind_gets. destruct (sm_process s) as [p|]; [|by eexists _, _].
  unfold outside, mbind at 1, M_bind at 1. destruct (try_wait _ _) as [[[code|]|e] x]; by eexists _, _.
Qed.

(** The commands that may change what the poller holds. *)
Definition touches_poller (c : AppCommand) : bool :=
  match c with StopServer | CurrentInfoSnapshot => true | _ => false end.

Definition keeps_poller {A} (m : M World bytes A) : Prop := forall w, app_poller (snd (m w)) = app_poller w.

Lemma keeps_bind {A B} (m : M World bytes A) (k : A -> M World bytes B) :
  keeps_poller m -> (forall a, keeps_poller (k a)) -> keeps_poller (m ≫= k).
Proof.
  intros Hm Hk w. unfold mbind, M_bind. specialize (Hm w). destruct (m w) as [[a|e| |] w1]; simpl in *; [|done..].
  by rewrite Hk.
Qed.

Lemma keeps_repository {A} (p : Prog A) : keeps_poller (in_repository wall io_fault missing p).
Proof. intros w. unfold in_repository. by destruct (on_disk _ _ _ _ _). Qed.
Lemma keeps_manager {A} (f : M (ManagerWorld Hd (R * Disk)) RunnerError A) : keeps_poller (in_manager (X := X) (C := C) (P := P) f).
Proof. intros w. unfold in_manager. by destruct (f _). Qed.
Lemma keeps_server {A} (f : M (ServerWorld X C) bytes A) : keeps_poller (in_server (Hd := Hd) (R := R) (P := P) f).
Proof. intros w. unfold in_server. by destruct (f _). Qed.

Lemma keeps_answer {A} (reply : A -> AppReply) (m : M World bytes A) w :
  keeps_poller m -> app_poller (snd (answer reply m w)) = app_poller w.
Proof. intros Hm. unfold answer. specialize (Hm w). by destruct (m w). Qed.

Lemma command_keeps_poller c w : touches_poller c = false -> app_poller (snd (app_command c w)) = app_poller w.
Proof.
  destruct c; try done; intros _; apply keeps_answer.
  - apply keeps_manager.
  - apply keeps_manager.
  - apply keeps_bind; [apply keeps_repository|]. done.
  - apply keeps_bind; [done|]. intros [run|]; [done|]. apply keeps_bind; [apply keeps_repository|]. by intros [[run|]|e].
  - apply keeps_server.
  - apply keeps_bind; [apply keeps_server|]. done.
Qed.

(** Once a poll has failed, every [server_status] the front end asks for shows that poll's error as the
    server's last error, whatever the server manager's own error is and whatever other commands are run in
    between, a successful start of a server included, as long as none of them polls or stops the server. *)
Theorem poll_error_covers_status cs e w : take_error (app_poller w) = Some e ->
  forallb (negb ∘ touches_poller) cs = true ->
  exists st w', app_command ServerStatusCommand (snd (app_run cs w)) = (Val (StatusReply st), w')
    /\ st_last_error st = Some e /\ take_error (app_poller w') = Some e.
Proof.
  revert w. induction cs as [|c cs IH]; intros w He.
  - intros _. cbn [AppState.app_run snd]. pose proof (command_keeps_poller ServerStatusCommand w eq_refl) as Hp.
    revert Hp. cbn [AppState.app_command]. unfold answer, server_status, mbind at 1 3, M_bind at 1 3. unfold in_server.
    destruct (sm_status_answers (app_server w)) as (st & s' & ->). cbn [fst snd].
    unfold gets, mbind, M_bind. cbn [app_poller]. rewrite He. eauto.
  - cbn [forallb compose]. intros [Hc Hcs]%andb_true_iff. cbn [AppState.app_run].
    pose proof (command_keeps_poller c w) as Hk. destruct (app_command c w) as [o w1] eqn:E. cbn [snd] in Hk.
    specialize (IH w1). destruct (app_run cs w1) as [os w2]. cbn [snd] in *. apply IH; [|done].
    unfold take_error. rewrite Hk; [done|]. by destruct (touches_poller c).
Qed.

End status.

(** ** Across a restart *)

Lemma find_upsert run rs : snd <$> list_find (fun r => run_id r = run_id run) (upsert run rs) = Some run.
Proof.
  unfold upsert. induction rs as [|r rs IH]; [unfold replace_or_push; simpl; by rewrite decide_True|].
  rewrite replace_or_push_cons. destruct (decide (run_id r = run_id run)) as [E|E].
  - simpl. by rewrite decide_True.
  - simpl. rewrite decide_False by done.
    destruct (list_find _ (replace_or_push _ run rs)) as [[i x]|]; [|done]. simpl in *. by injection IH as ->.
Qed.

Lemma elem_of_upsert run rs : run ∈ upsert run rs.
Proof.
  pose proof (find_upsert run rs) as Hf. destruct (list_find _ _) as [[i x]|] eqn:E; [|done].
  injection Hf as ->. apply list_find_Some in E as (Hi & _). by eapply list_elem_of_lookup_2.
Qed.

Lemma elem_of_equiv {A} `{Equiv A} (l l' : list A) x : l ≡ l' -> x ∈ l' -> exists y, y ∈ l /\ y ≡ x.
Proof.
  induction 1 as [|a b l l' Hab _ IH]; [by intros ?%not_elem_of_nil|].
  intros [->|Hx]%elem_of_cons; [exists a; split; [by left|done]|].
  destruct (IH Hx) as (y & Hy & E). exists y. split; [by right|done].
Qed.

Section restart.
Context `{RunJsonLaws} (wall : nat -> SystemTime) (missing : bytes).

Lemma persist_stores d rs run : stored d rs -> finite_run run ->
  exists d', exec wall no_io_fault missing (persist run) d = (Ok tt, d') /\ stored d' (upsert run rs).
Proof.
  intros Hd Hf. destruct (repo_op_refines wall missing (RPersist run) d rs Hd Hf) as (r & d' & E & _ & Hs & _).
  exists d'. split; [|exact Hs]. cbn [repo_exec] in E. rewrite exec_attempt in E.
  by destruct (exec wall no_io_fault missing (persist run) d) as [[[]|e] d1]; cbn in E; simplify_eq.
Qed.

Lemma get_reads d rs id : stored d rs -> exists r d', exec wall no_io_fault missing (repo_get_run id) d = (Ok r, d')
  /\ r ≡ snd <$> list_find (fun run => run_id run = id) rs.
Proof.
  intros Hd. destruct (repo_op_refines wall missing (RGet id) d rs Hd I) as (r & d' & E & Heq & _).
  cbn [repo_exec] in E. rewrite exec_attempt in E.
  destruct (exec wall no_io_fault missing (repo_get_run id) d) as [[r0|e] d1]; cbn in E; simplify_eq. eauto.
Qed.

Lemma list_reads d rs : stored d rs -> exists l d', exec wall no_io_fault missing repo_list_runs d = (Ok l, d')
  /\ l ≡ repo_normalize_run <$> sort_by (newer_first run_created_at) rs.
Proof.
  intros Hd. destruct (repo_op_refines wall missing RList d rs Hd I) as (r & d' & E & Heq & _).
  cbn [repo_exec] in E. rewrite exec_attempt in E.
  destruct (exec wall no_io_fault missing repo_list_runs d) as [[l|e] d1]; cbn in E; simplify_eq. eauto.
Qed.

Context {Hd R X C P : Type}.

(** C23: A finished run outlives the program: once its worker has persisted it, on a working disk and with
    finite figures, the worker is done, and a program started afresh over the same disk finds the run by
    its id and lists it, up to the figures JSON rounds. *)
Theorem finished_run_survives_restart (w : ManagerWorld Hd (R * Disk)) rs run
    (server : ServerWorld X C) (poller : PollerWorld P) :
  stored (snd (bm_world w)) rs -> finite_run run ->
  exists w', worker_persist (repository_sink wall no_io_fault missing) run w = (Val WorkerEnded, w')
    /\ bm_runs w' = bm_runs w
    /\ let app := mkApp (manager_new (H := Hd) (bm_world w')) server poller in
       (exists run' app', get_run_detail wall no_io_fault missing (run_id run) app = (Val run', app') /\ run' ≡ run)
       /\ exists runs app' s, app_list_runs wall no_io_fault missing app = (Val runs, app')
            /\ s ∈ runs /\ s ≡ repo_normalize_run run.
Proof.
  destruct w as [act rns evs les tk [r d]]. cbn [bm_world snd]. intros Hs Hf.
  destruct (persist_stores d rs run Hs Hf) as (d1 & E1 & Hs1).
  unfold worker_persist, repository_sink, on_disk. cbn [bm_world snd fst]. rewrite E1. eexists. split; [done|]. split; [done|].
  cbn zeta. cbn [bm_world]. split.
  - destruct (get_reads d1 _ (run_id run) Hs1) as (o & d2 & E2 & Heq). rewrite find_upsert in Heq.
    inversion Heq as [run' x Hrun E3 E4|]; subst.
    unfold get_run_detail, bm_get_run. rewrite bind_gets. cbn [app_manager manager_new bm_runs list_find fmap option_fmap option_map].
    unfold in_repository, on_disk, mbind, M_bind. cbn [app_manager manager_new bm_world fst snd]. rewrite E2. eauto.
  - destruct (list_reads d1 _ Hs1) as (l & d2 & E2 & Heq).
    destruct (elem_of_equiv l _ (repo_normalize_run run) Heq) as (s & Hin & Hsum).
    { apply list_elem_of_fmap_2. rewrite sort_by_perm. apply elem_of_upsert. }
    unfold app_list_runs, in_repository, on_disk, mbind, M_bind. cbn [app_manager manager_new bm_world fst snd]. rewrite E2.
    eexists _, _, s. split; [done|]. split; [|done]. unfold listing. rewrite sort_by_perm. exact Hin.
Qed.

End restart.

(** ** A front end at work *)

Definition summary_at (id created : bytes) (status : bytes) : NormalizedRunSummary :=
  mkSummary id (lit "redis-benchmark") status (lit "127.0.0.1:6379") created None None None.
Definition persisted0 : list NormalizedRunSummary :=
  [summary_at (lit "run-1") (lit "1774267200Z") (lit "completed"); summary_at (lit "run-2") (lit "1774267201Z") (lit "completed")].
Definition manager0 : list NormalizedRunSummary :=
  [summary_at (lit "run-2") (lit "1774267201Z") (lit "failed"); summary_at (lit "run-3") (lit "1774267202Z") (lit "running")].

Lemma listing_is_complete_and_newest_first_witness :
  listing persisted0 manager0 = [summary_at (lit "run-3") (lit "1774267202Z") (lit "running");
    summary_at (lit "run-2") (lit "1774267201Z") (lit "failed"); summary_at (lit "run-1") (lit "1774267200Z") (lit "completed")]
  /\ listing persisted0 manager0 ≡ₚ manager0 ++ filter (fun e => sm_id e ∉ sm_id <$> manager0) persisted0
  /\ unique_ids (listing persisted0 manager0).
Proof.
  split; [vm_compute; reflexivity|].
  destruct (listing_is_complete_and_newest_first persisted0 manager0) as (H1 & H2 & _);
    [apply (bool_decide_unpack _); vm_compute; exact I..|].
  split; assumption.
Defined.

Definition no_client : InfoClientFactory unit unit := {| info_connect _ := throw (lit "poll failed"); info_text _ := mret [] |}.
Definition still : Ambient unit := {| sleep _ x := x; system_time x := (0%Z, x) |}.
Definition app0 : AppWorld unit unit Table Z unit :=
  mkApp (manager_new (tt, mkDisk ∅ 0)) (with_launcher (10%Z, [])) (mkPoller None (Some (lit "poll failed")) tt).

Lemma poll_error_covers_status_witness :
  exists st w',
    app_command (H := binary_json) clock_ms no_io_fault (lit "missing") [] (fun _ w => (Ok tt, w)) (H0 := table_launcher true)
      (H1 := table_clock) (lit "/hkv") (H2 := no_client) (H3 := still) ServerStatusCommand
      (snd (app_run (H := binary_json) clock_ms no_io_fault (lit "missing") [] (fun _ w => (Ok tt, w)) (H0 := table_launcher true)
        (H1 := table_clock) (lit "/hkv") (H2 := no_client) (H3 := still) [StartServer None; ListRuns] app0))
    = (Val (StatusReply st), w')
    /\ st_last_error st = Some (lit "poll failed") /\ take_error (app_poller w') = Some (lit "poll failed").
Proof.
  apply (poll_error_covers_status (H := binary_json) clock_ms no_io_fault (lit "missing") [] (fun _ w => (Ok tt, w))
    (H0 := table_launcher true) (H1 := table_clock) (lit "/hkv") (H2 := no_client) (H3 := still)
    [StartServer None; ListRuns] (lit "poll failed") app0); reflexivity.
Defined.

Lemma finished_run_survives_restart_witness :
  let w := mkManager ∅ [newer] [] [] 0 (tt, disk_of [older]) : ManagerWorld unit (unit * Disk) in
  exists w', worker_persist (repository_sink (H := binary_json) clock_ms no_io_fault (lit "missing")) newer w = (Val WorkerEnded, w')
    /\ exists run' app', get_run_detail (H := binary_json) clock_ms no_io_fault (lit "missing") (run_id newer)
         (mkApp (manager_new (H := unit) (bm_world w')) (with_launcher (C := Z) tt) (with_client_factory tt)) = (Val run', app')
       /\ run' ≡ newer.
Proof.
  cbn zeta.
  destruct (finished_run_survives_restart (H := binary_json) (H0 := binary_json_laws) clock_ms (lit "missing")
    (mkManager ∅ [newer] [] [] 0 (tt, disk_of [older]) : ManagerWorld unit (unit * Disk)) [older] newer
    (with_launcher (C := Z) tt) (with_client_factory tt)) as (w' & Hw & _ & Hget & _);
    [exact (disk_stored [older] older_finite)|exact I|].
  exists w'. split; assumption.
Defined.
