(* ===== verification/Relay.v ===== *)
(** * What the front end sees (hkv-gui/src-tauri/src/main.rs)

    The relay task of [main] over the broadcast channel of the benchmark manager,
    any receive of it between any two steps of the manager. The channel is tokio's:
    a class, with what its documentation says of a receiver as laws. *)

From S2P Require Import Prelude Decimal F64 RustStr GuiModels RedisBenchmark RedisRun BenchmarkManager BenchmarkThms.
From S2P Require Import ServerManager InfoPoller AppState.

(** ** The channel *)

(** A channel with one receiver; [bc_recv] is nothing while the receiver waits. *)
Class Broadcast (B : Type) := {
  bc_send : BenchmarkEventEnvelope -> B -> B;
  bc_recv : B -> option (RecvAnswer * B)
}.

(** What was sent since the receiver subscribed, and the position of the value it
    reads next: a receiver that is more than the capacity behind is told how many
    values it missed and goes on with the oldest one kept. *)
Class BroadcastLaws (B : Type) `{Broadcast B} := {
  bc_capacity : nat;
  bc_sent : B -> list BenchmarkEventEnvelope;
  bc_next : B -> nat;
  bc_next_le b : bc_next b <= length (bc_sent b);
  bc_send_sent e b : bc_sent (bc_send e b) = bc_sent b ++ [e];
  bc_send_next e b : bc_next (bc_send e b) = bc_next b;
  bc_recv_waits b : bc_next b = length (bc_sent b) -> bc_recv b = None;
  bc_recv_lags b : bc_capacity + bc_next b < length (bc_sent b) -> exists b',
    bc_recv b = Some (RecvLagged (Z.of_nat (length (bc_sent b) - bc_capacity - bc_next b)), b')
    /\ bc_sent b' = bc_sent b /\ bc_next b' = length (bc_sent b) - bc_capacity;
  bc_recv_event b e : length (bc_sent b) <= bc_capacity + bc_next b -> bc_sent b !! bc_next b = Some e -> exists b',
    bc_recv b = Some (RecvEvent e, b') /\ bc_sent b' = bc_sent b /\ bc_next b' = S (bc_next b)
}.

(** ** The manager and the relay *)

Section desk.
Context {H W : Type} (wall : nat -> SystemTime).
Context (runners : list (BenchmarkRunner W H)) (handle_stop : H -> W -> result unit RunnerError * W).
Context (sink : BenchmarkRun -> W -> result unit bytes * W).
Context `{BroadcastLaws B}.

Abbreviation World := (ManagerWorld H W).
Abbreviation System := (System (H := H) (W := W)).
Abbreviation sys_step := (sys_step wall runners handle_stop sink).

(** What is sent on the lifecycle channel. *)
Definition lifecycle (s : System) : list BenchmarkEventEnvelope := bm_lifecycle_events (sys_world s).

Record Desk := mkDesk {
  dk_system : System;
  dk_channel : B;
  dk_relaying : bool;
  dk_shown : list (bytes * BenchmarkEventEnvelope)
}.

Inductive DeskLabel : Type := ManagerStep (l : SystemLabel) | RelayTurn.

(** The loop of the relay is left when the channel closes. *)
Definition goes_on (answer : RecvAnswer) : bool :=
  match answer with RecvEvent _ | RecvLagged _ => true | RecvClosed => false end.

(** A turn of the relay handles one answer. *)
Definition desk_step (d : Desk) (l : DeskLabel) : option Desk :=
  match l with
  | ManagerStep l =>
      match sys_step (dk_system d) l with
      | Some (Val s') =>
          let news := drop (length (lifecycle (dk_system d))) (lifecycle s') in
          Some (mkDesk s' (foldl (fun b e => bc_send e b) (dk_channel d) news) (dk_relaying d) (dk_shown d))
      | _ => None
      end
  | RelayTurn =>
      guard (dk_relaying d);;
      '(answer, b) ← bc_recv (dk_channel d);
      Some (mkDesk (dk_system d) b (goes_on answer) (dk_shown d ++ relay [answer]))
  end.

Fixpoint desk_run (d : Desk) (ls : list DeskLabel) : option Desk :=
  match ls with [] => Some d | l :: ls' => d' ← desk_step d l; desk_run d' ls' end.

Definition desk_new (w : W) (b : B) : Desk := mkDesk (sys_new w) b true [].

(** ** Sends only accumulate *)

Definition extends {A} (m : M World RunnerError A) : Prop :=
  forall w, bm_lifecycle_events w `prefix_of` bm_lifecycle_events (snd (m w)).

Lemma extends_bind {A C} (m : M World RunnerError A) (k : A -> M World RunnerError C) :
  extends m -> (forall a, extends (k a)) -> extends (m ≫= k).
Proof.
  intros Hm Hk w. unfold mbind, M_bind. specialize (Hm w). destruct (m w) as [[a|e| |] w1]; [|done..].
  etrans; [exact Hm|apply Hk].
Qed.

Lemma extends_ret {A} (a : A) : extends (mret a).
Proof. intros w. done. Qed.
Lemma extends_gets {A} (f : World -> A) : extends (gets f).
Proof. intros w. done. Qed.
Lemma extends_throw {A} e : extends (throw e : M World RunnerError A).
Proof. intros w. done. Qed.
Lemma extends_expect {A} (o : option A) : extends (expect o).
Proof. intros w. by destruct o. Qed.
Lemma extends_now : extends (now_after_epoch wall).
Proof. intros w. done. Qed.
Lemma extends_runner {A} (f : W -> result A RunnerError * W) : extends (in_runner_world f).
Proof. intros w. unfold in_runner_world. by destruct (f _). Qed.
Lemma extends_active f : extends (set_active f).
Proof. intros w. done. Qed.
Lemma extends_runs f : extends (set_runs f).
Proof. intros w. done. Qed.
Lemma extends_send_run r : extends (send_run r).
Proof. intros w. done. Qed.
Lemma extends_send e : extends (send_lifecycle e).
Proof. intros w. cbn. by eexists. Qed.

Ltac extends :=
  repeat first
    [ apply extends_ret | apply extends_gets | apply extends_throw | apply extends_expect | apply extends_now | apply extends_runner
    | apply extends_active | apply extends_runs | apply extends_send_run | apply extends_send
    | apply extends_bind; [|intros ?] | progress unfold lifecycle_envelope, iso_timestamp, next_run_id, get_or_now
    | match goal with |- extends match ?x with _ => _ end => destruct x end ].

Lemma extends_start q : extends (bm_start wall runners q).
Proof. unfold bm_start. extends. Qed.
Lemma extends_stop id : extends (bm_stop handle_stop id).
Proof. unfold bm_stop. extends. Qed.
Lemma extends_receive id ev : extends (worker_receive wall id ev).
Proof. unfold worker_receive, apply_event. extends. Qed.
Lemma extends_persist r : extends (worker_persist sink r).
Proof. intros w. unfold worker_persist. by destruct (sink r (bm_world w)) as [[u|e] x]. Qed.
Lemma extends_report r e : extends (worker_report wall r e).
Proof. unfold worker_report. extends. Qed.

Lemma step_extends s l s' : sys_step s l = Some (Val s') -> lifecycle s `prefix_of` lifecycle s'.
Proof.
  assert (forall i id (m : M World RunnerError WorkerPhase), extends m -> Some (worker_step s i id m) = Some (Val s') ->
    lifecycle s `prefix_of` lifecycle s') as Hw.
  { intros i id m Hm [= E]. unfold worker_step in E. specialize (Hm (sys_world s)).
    destruct (m (sys_world s)) as [[ph|e| |] w']; try done. by injection E as <-. }
  destruct l as [q|id|i ev|i|i|i]; cbn [BenchmarkManager.sys_step].
  - pose proof (extends_start q (sys_world s)) as Hs. destruct (bm_start wall runners q (sys_world s)) as [[r|e| |] w']; intros [= <-]; exact Hs.
  - pose proof (extends_stop id (sys_world s)) as Hs. destruct (bm_stop handle_stop id (sys_world s)) as [[r|e| |] w']; intros [= <-]; exact Hs.
  - destruct (sys_workers s !! i) as [[id [| | |]]|]; try done. apply Hw, extends_receive.
  - destruct (sys_workers s !! i) as [[id [| | |]]|]; try done. by intros [= <-].
  - destruct (sys_workers s !! i) as [[id [|c| |]]|]; try done. apply Hw, extends_persist.
  - destruct (sys_workers s !! i) as [[id [| |c e|]]|]; try done. apply Hw, extends_report.
Qed.

(** ** What is shown *)

Lemma take_sublist {A} (n m : nat) (l : list A) : n <= m -> take n l `sublist_of` take m l.
Proof. intros Hle. replace n with (n `min` m) by lia. rewrite <- take_take. apply sublist_take. Qed.

(** More was sent than the channel keeps for what is shown so far. *)
Definition fell_behind (d : Desk) : Prop := bc_capacity + length (dk_shown d) < length (lifecycle (dk_system d)).

Lemma desk_run_app ls1 : forall ls2 d, desk_run d (ls1 ++ ls2) = desk_run d ls1 ≫= fun d1 => desk_run d1 ls2.
Proof. induction ls1 as [|l ls1 IH]; intros ls2 d; [done|]. cbn. destruct (desk_step d l); [apply IH|done]. Qed.

Definition once_behind (d : Desk) (ls : list DeskLabel) : Prop :=
  exists ls1 d1, ls1 `prefix_of` ls /\ desk_run d ls1 = Some d1 /\ fell_behind d1.

Record shown_ok (d0 : Desk) (ls : list DeskLabel) (d : Desk) : Prop := {
  so_sent : bc_sent (dk_channel d) = lifecycle (dk_system d);
  so_some : snd <$> dk_shown d `sublist_of` take (bc_next (dk_channel d)) (lifecycle (dk_system d));
  so_relaying : dk_relaying d = true;
  so_name : Forall (fun x => fst x = lit "benchmark:lifecycle") (dk_shown d);
  so_all : once_behind d0 ls \/ snd <$> dk_shown d = take (bc_next (dk_channel d)) (lifecycle (dk_system d))
}.

Lemma send_all news : forall b : B, bc_sent (foldl (fun b e => bc_send e b) b news) = bc_sent b ++ news
  /\ bc_next (foldl (fun b e => bc_send e b) b news) = bc_next b.
Proof.
  induction news as [|e news IH]; intros b; cbn; [by rewrite app_nil_r|].
  destruct (IH (bc_send e b)) as [-> ->]. by rewrite bc_send_sent, bc_send_next, <- app_assoc.
Qed.

Lemma once_behind_app d0 ls ls' : once_behind d0 ls -> once_behind d0 (ls ++ ls').
Proof. intros (ls1 & d1 & Hp & Hr & Hb). exists ls1, d1. split_and!; [by apply prefix_app_r|done..]. Qed.

(** The manager makes a step: what is shown stays as it is. *)
Lemma shown_manager d0 ls d l d' : shown_ok d0 ls d -> desk_step d (ManagerStep l) = Some d' ->
  shown_ok d0 (ls ++ [ManagerStep l]) d'.
Proof.
  intros [Hs Ho Hgo Hn Ha]. cbn. destruct (sys_step (dk_system d) l) as [[s'|e| |]|] eqn:Es; try done. intros [= <-].
  apply step_extends in Es as [news Enews]. rewrite Enews, drop_app_length.
  destruct (send_all news (dk_channel d)) as [Hsent Hnext]. pose proof (bc_next_le (dk_channel d)) as Hle. rewrite Hs in Hle.
  split; cbn [dk_system dk_channel dk_relaying dk_shown].
  - by rewrite Hsent, Hs, Enews.
  - by rewrite Hnext, Enews, take_app_le.
  - done.
  - done.
  - destruct Ha as [Hb|Ha]; [left; by apply once_behind_app|right]. by rewrite Hnext, Enews, take_app_le.
Qed.

(** The relay makes a turn. *)
Lemma shown_relay d0 ls d d' : shown_ok d0 ls d -> desk_run d0 ls = Some d -> desk_step d RelayTurn = Some d' ->
  shown_ok d0 (ls ++ [RelayTurn]) d'.
Proof.
  intros [Hs Ho Hgo Hn Ha] Hr Hstep. unfold desk_step in Hstep. rewrite Hgo in Hstep. cbn in Hstep. pose proof (bc_next_le (dk_channel d)) as Hle.
  destruct (decide (bc_next (dk_channel d) = length (bc_sent (dk_channel d)))) as [Hw|Hw];
    [by rewrite bc_recv_waits in Hstep|].
  destruct (decide (bc_capacity + bc_next (dk_channel d) < length (bc_sent (dk_channel d)))) as [Hlag|Hlag].
  - destruct (bc_recv_lags _ Hlag) as (b' & Eb & Hs' & Hn'). rewrite Eb in Hstep. cbn in Hstep. injection Hstep as <-.
    split; cbn [dk_system dk_channel dk_relaying dk_shown]; rewrite ?app_nil_r; try done; [congruence| |].
    + etrans; [exact Ho|]. rewrite Hn'. apply take_sublist. lia.
    + left. destruct Ha as [Hb|Ha]; [by apply once_behind_app|]. exists ls, d. split_and!; [by apply prefix_app_r|done|].
      unfold fell_behind. apply (f_equal length) in Ha. rewrite length_fmap, length_take, <- Hs in Ha. rewrite <- Hs. lia.
  - destruct (lookup_lt_is_Some_2 (bc_sent (dk_channel d)) (bc_next (dk_channel d))) as [e He]; [lia|].
    destruct (bc_recv_event (dk_channel d) e ltac:(lia) He) as (b' & Eb & Hs' & Hn'). rewrite Eb in Hstep. cbn in Hstep. injection Hstep as <-.
    rewrite Hs in He. split; cbn [dk_system dk_channel dk_relaying dk_shown]; rewrite ?Hn', ?fmap_app.
    + congruence.
    + erewrite take_S_r by exact He. by apply sublist_app.
    + done.
    + apply Forall_app. by split; [|constructor].
    + destruct Ha as [Hb|Ha]; [left; by apply once_behind_app|right]. erewrite take_S_r by exact He. by rewrite Ha.
Qed.

Lemma shown_run w b ls : forall d, bc_sent b = [] -> desk_run (desk_new w b) ls = Some d -> shown_ok (desk_new w b) ls d.
Proof.
  induction ls as [|l ls IH] using rev_ind; intros d Hb Hr.
  - injection Hr as <-. split; cbn; [done|apply sublist_nil_l|done|constructor|right; by rewrite take_nil].
  - rewrite desk_run_app in Hr. destruct (desk_run (desk_new w b) ls) as [d1|] eqn:E1; [|done]. cbn in Hr.
    destruct (desk_step d1 l) as [d2|] eqn:E2; [|done]. cbn in Hr. injection Hr as <-.
    destruct l as [l|]; [by eapply shown_manager; [apply IH|]|by eapply shown_relay; [apply IH|..]].
Qed.

(** C24: However the relay's receives interleave with the calls and the workers of the manager, the front end is
    shown lifecycle events that were sent, each at most once and in the order they were sent, under the channel's
    name. As long as it never has more to catch up with than the channel keeps, these are the first events
    without a gap, and when the relay waits for the next one, all of them. *)
Theorem front_end_sees_lifecycle w b ls d :
  bc_sent b = [] -> desk_run (desk_new w b) ls = Some d ->
  let events := lifecycle (dk_system d) in
  snd <$> dk_shown d `sublist_of` events /\ Forall (fun x => fst x = lit "benchmark:lifecycle") (dk_shown d)
  /\ dk_relaying d = true
  /\ (once_behind (desk_new w b) ls
      \/ (snd <$> dk_shown d `prefix_of` events /\ (bc_recv (dk_channel d) = None -> snd <$> dk_shown d = events))).
Proof.
  intros Hb Hr events. destruct (shown_run _ _ _ _ Hb Hr) as [Hs Ho Hgo Hn Ha]. split_and!; [|done|done|].
  - etrans; [exact Ho|]. apply sublist_take.
  - destruct Ha as [?|Ha]; [by left|right]. rewrite Ha. split; [by eexists; symmetry; apply take_drop|]. intros Hw. apply take_ge. unfold events. rewrite <- Hs.
    pose proof (bc_next_le (dk_channel d)). destruct (decide (bc_next (dk_channel d) = length (bc_sent (dk_channel d)))); [lia|].
    destruct (decide (bc_capacity + bc_next (dk_channel d) < length (bc_sent (dk_channel d)))) as [Hlag|Hlag].
    + destruct (bc_recv_lags _ Hlag) as (b' & Eb & _). by rewrite Eb in Hw.
    + destruct (lookup_lt_is_Some_2 (bc_sent (dk_channel d)) (bc_next (dk_channel d))) as [e He]; [lia|].
      destruct (bc_recv_event (dk_channel d) e ltac:(lia) He) as (b' & Eb & _). by rewrite Eb in Hw.
Qed.

End desk.

(** ** A channel of 64 values (benchmark_manager.rs:59) *)

Definition channel_size : nat := 64.

Record Channel := mkChannel {
  ch_sent : list BenchmarkEventEnvelope;
  ch_next : nat;
  ch_next_le : Is_true (ch_next <=? length ch_sent)
}.

Definition ch_oldest (c : Channel) : nat := length (ch_sent c) - channel_size.

Lemma ch_next_le' c : ch_next c <= length (ch_sent c).
Proof. apply Nat.leb_le, Is_true_true_1, ch_next_le. Qed.

Lemma ch_send_ok e c : Is_true (ch_next c <=? length (ch_sent c ++ [e])).
Proof. apply Is_true_true_2, Nat.leb_le. rewrite length_app. pose proof (ch_next_le' c). lia. Qed.

Definition ch_send (e : BenchmarkEventEnvelope) (c : Channel) : Channel :=
  mkChannel (ch_sent c ++ [e]) (ch_next c) (ch_send_ok e c).

(** The channel with its position moved, where that is in range. *)
Definition ch_move (n : nat) (c : Channel) : option Channel :=
  match decide (Is_true (n <=? length (ch_sent c))) with
  | left ok => Some (mkChannel (ch_sent c) n ok)
  | right _ => None
  end.

Definition ch_recv (c : Channel) : option (RecvAnswer * Channel) :=
  if decide (ch_next c < ch_oldest c) then
    pair (RecvLagged (Z.of_nat (ch_oldest c - ch_next c))) <$> ch_move (ch_oldest c) c
  else e ← ch_sent c !! ch_next c; pair (RecvEvent e) <$> ch_move (S (ch_next c)) c.

Lemma ch_move_ok n c : n <= length (ch_sent c) -> exists c', ch_move n c = Some c' /\ ch_sent c' = ch_sent c /\ ch_next c' = n.
Proof.
  intros Hn. unfold ch_move. destruct (decide _) as [ok|no]; [by eexists|]. exfalso. by apply no, Is_true_true_2, Nat.leb_le.
Qed.

#[export] Instance channel : Broadcast Channel := { bc_send := ch_send; bc_recv := ch_recv }.

#[export, refine] Instance channel_laws : BroadcastLaws Channel := {
  bc_capacity := channel_size;
  bc_sent := ch_sent;
  bc_next := ch_next;
  bc_next_le := ch_next_le'
}.
Proof.
  all: cbn [bc_send bc_recv channel]; unfold ch_recv, ch_oldest; try done; intros c.
  - intros Hc. rewrite decide_False by lia. by rewrite (proj2 (lookup_ge_None _ _)) by lia.
  - intros Hc. rewrite decide_True by lia. destruct (ch_move_ok (length (ch_sent c) - channel_size) c) as (c' & -> & Hs & Hn); [lia|].
    by exists c'.
  - intros e Hc He. pose proof (lookup_lt_Some _ _ _ He). rewrite decide_False by lia. rewrite He.
    destruct (ch_move_ok (S (ch_next c)) c) as (c' & Ec & Hs & Hn); [lia|]. cbn. rewrite Ec. by exists c'.
Defined.

Definition channel_new : Channel := mkChannel [] 0 I.

(** ** A run of the application *)

Definition demo_desk (ls : list DeskLabel) : option (Desk (H := unit) (W := list bytes) (B := Channel)) :=
  desk_run slow_clock [demo_runner] demo_stop demo_sink (desk_new [] channel_new) ls.

(** A run is started, shown as such, cancelled and shown as such. *)
Definition demo_labels : list DeskLabel :=
  [ManagerStep (CallStart request0); RelayTurn; ManagerStep (EventArrives 0 Cancelled); RelayTurn].

Definition kinds_shown (d : Desk (H := unit) (W := list bytes) (B := Channel)) : list bytes :=
  ee_event ∘ snd <$> dk_shown d.

Definition demo_desk_state (ls : list DeskLabel) : Desk (H := unit) (W := list bytes) (B := Channel) :=
  default (desk_new [] channel_new) (demo_desk ls).

Example demo_desk_shows : kinds_shown <$> demo_desk demo_labels = Some [lit "started"; lit "cancelled"].
Proof. vm_compute. reflexivity. Qed.

(** 65 runs started before the relay's first turn: it is told of one value missed and
    shows the second start first. *)
Definition late_labels : list DeskLabel := repeat (ManagerStep (CallStart request0)) 65 ++ [RelayTurn; RelayTurn].

Example late_relay_misses_first :
  (fun d => (snd <$> dk_shown d, take 1 (drop 1 (lifecycle (dk_system d))))) <$> demo_desk late_labels
  = (fun d => (snd <$> dk_shown d, snd <$> dk_shown d)) <$> demo_desk late_labels
  /\ (fun d => length (dk_shown d)) <$> demo_desk late_labels = Some 1.
Proof. vm_compute. split; reflexivity. Qed.

Lemma front_end_sees_lifecycle_witness :
  let d := demo_desk_state demo_labels in
  let events := lifecycle (dk_system d) in
  demo_desk demo_labels = Some d
  /\ snd <$> dk_shown d `sublist_of` events /\ Forall (fun x => fst x = lit "benchmark:lifecycle") (dk_shown d)
  /\ dk_relaying d = true
  /\ (once_behind slow_clock [demo_runner] demo_stop demo_sink (desk_new [] channel_new) demo_labels
      \/ (snd <$> dk_shown d `prefix_of` events /\ (bc_recv (dk_channel d) = None -> snd <$> dk_shown d = events))).
Proof.
  split; [vm_compute; reflexivity|].
  apply (front_end_sees_lifecycle slow_clock [demo_runner] demo_stop demo_sink [] channel_new demo_labels);
    vm_compute; reflexivity.
Defined.
