(* ===== verification/BenchEngine.v ===== *)
(** * The engine benchmark (hkv-engine/src/bin/bench_engine.rs)

    The workload of the benchmark driver over any engine of class [KVEngine]:
    its arguments, its generator of pseudo-random numbers, its keys and values,
    and the loops that load, read and write. What it measures and prints is
    left out. *)

From S2P Require Import Prelude Errors KVEngine RustStr Engine EngineKV EngineThms Server EndToEnd.

#[local] Open Scope Z_scope.

(** ** Configuration *)

Definition DEFAULT_KEY_COUNT : Z := Z.shiftl 1 16.
Definition DEFAULT_OP_COUNT : Z := 1000000.
Definition DEFAULT_KEY_SIZE : Z := 16.
Definition DEFAULT_VALUE_SIZE : Z := 128.

Record BenchConfig := mkConfig {
  requested_keys : Z;
  key_count : Z;
  key_mask : Z;
  op_count : Z;
  key_size : Z;
  value_size : Z
}.

(** [parse_usize]. *)
Definition parse_arg (value : option bytes) (fallback : Z) : Z :=
  match value with
  | Some raw => match parse_uint usize_max raw with Ok n => n | Error _ => fallback end
  | None => fallback
  end.

Definition is_power_of_two (n : Z) : bool := (0 <? n) && (Z.land n (n - 1) =? 0).

Section config.
Context `{Profile} {S E : Type}.

Definition normalize_power_of_two (value : Z) : M S E Z :=
  let value := Z.max value 1 in
  if is_power_of_two value then mret value else next_power_of_two value.

(** [-] of the profile. *)
Definition usize_pred (n : Z) : M S E Z :=
  if 1 <=? n then mret (n - 1) else if overflow_checks then panic else mret (wrap64 (n - 1)).

(** The arguments after the program's name. *)
Definition from_args (args : list bytes) : M S E BenchConfig :=
  let requested_keys := parse_arg (args !! 0%nat) DEFAULT_KEY_COUNT in
  let op_count := parse_arg (args !! 1%nat) DEFAULT_OP_COUNT in
  let key_size := parse_arg (args !! 2%nat) DEFAULT_KEY_SIZE in
  let value_size := parse_arg (args !! 3%nat) DEFAULT_VALUE_SIZE in
  key_count ← normalize_power_of_two requested_keys;
  key_mask ← usize_pred key_count;
  mret (mkConfig requested_keys key_count key_mask op_count key_size value_size).

End config.

(** ** The generator *)

Definition next_u64 (state : Z) : Z :=
  let x := Z.lxor state (wrap64 (Z.shiftl state 13)) in
  let x := Z.lxor x (Z.shiftr x 7) in
  Z.lxor x (wrap64 (Z.shiftl x 17)).

(** The index and the new state. *)
Definition next_index (mask state : Z) : Z * Z := (Z.land (next_u64 state) mask, next_u64 state).

(** ** Keys and values *)

Definition to_le_bytes (value : Z) : bytes :=
  (fun j => byte_of (Z.shiftr value (8 * Z.of_nat j) mod 256)) <$> seq 0 8.

Definition write_u64_le (value : Z) (buffer : bytes) : bytes :=
  let copy_len := Nat.min (length buffer) 8 in
  take copy_len (to_le_bytes value) ++ drop copy_len buffer.

Definition build_buffer (size seed : Z) (i : nat) : bytes :=
  write_u64_le (Z.lxor seed (Z.of_nat i)) (replicate (Z.to_nat size) Byte.x00).
Definition build_buffers (count size seed : Z) : list bytes := build_buffer size seed <$> seq 0 (Z.to_nat count).

Definition KEY_SEED : Z := 0xA5A5A5A5A5A5A5A5.
Definition VALUE_SEED : Z := 0x5A5A5A5A5A5A5A5A.
Definition GET_SEED : Z := 0x123456789ABCDEF0.
Definition SET_SEED : Z := 0x0FEDCBA987654321.

Definition flip_first (value : bytes) : bytes :=
  match value with b :: rest => byte_of (Z.lxor (byte_val b) 255) :: rest | [] => [] end.

(** ** The workload *)

Section workload.
Context `{Profile} `{KVEngine E} (clock : nat -> Instant).

(** The engine and how often it has read the clock. *)
Abbreviation BM := (M (E * nat) HkvError).

Definition bench_call {A} (f : Instant -> M E HkvError A) : BM A := fun '(e, t) =>
  let '(o, e') := f (clock t) e in (o, (e', S t)).

Section phases.
Context (keys values : list bytes).

Fixpoint load_phase (idxs : list nat) : BM unit :=
  match idxs with
  | [] => mret tt
  | idx :: idxs' =>
      key ← expect (keys !! idx);
      value ← expect (values !! idx);
      bench_call (fun now => kv_set now key value);;
      load_phase idxs'
  end.

(** What the reads returned, which the code gives to [black_box]. *)
Fixpoint get_phase (mask : Z) (ops : nat) (rng : Z) : BM (list (option bytes)) :=
  match ops with
  | O => mret []
  | S ops' =>
      let '(idx, rng') := next_index mask rng in
      key ← expect (keys !! Z.to_nat idx);
      value ← bench_call (fun now => kv_get now key);
      more ← get_phase mask ops' rng';
      mret (value :: more)
  end.

Fixpoint set_phase (mask : Z) (ops : nat) (rng : Z) : BM unit :=
  match ops with
  | O => mret tt
  | S ops' =>
      let '(idx, rng') := next_index mask rng in
      value ← expect (values !! Z.to_nat idx);
      key ← expect (keys !! Z.to_nat idx);
      bench_call (fun now => kv_set now key (flip_first value));;
      set_phase mask ops' rng'
  end.

End phases.

Definition bench_engine_run (args : list bytes) : BM (list (option bytes)) :=
  config ← from_args args;
  let keys := build_buffers (key_count config) (key_size config) KEY_SEED in
  let values := build_buffers (key_count config) (value_size config) VALUE_SEED in
  load_phase keys values (seq 0 (Z.to_nat (key_count config)));;
  reads ← get_phase keys (key_mask config) (Z.to_nat (op_count config)) GET_SEED;
  set_phase keys values (key_mask config) (Z.to_nat (op_count config)) SET_SEED;;
  mret reads.

End workload.

(** ** The generator never gets stuck *)

Lemma testbit_high x q : (0 <= x < u64_modulus)%Z -> (64 <= q)%Z -> Z.testbit x q = false.
Proof.
  intros Hx Hq. destruct (Z.eq_dec x 0) as [->|Hne]; [apply Z.bits_0|]. apply Z.bits_above_log2; [lia|].
  apply Z.log2_lt_pow2; [lia|]. apply Z.lt_le_trans with (2 ^ 64); [unfold u64_modulus in Hx; lia|].
  apply Z.pow_le_mono_r; lia.
Qed.

Lemma testbit_wrap x q : (0 <= q)%Z -> Z.testbit (wrap64 x) q = (q <? 64) && Z.testbit x q.
Proof.
  intros Hq. unfold wrap64, u64_modulus. destruct (Z.ltb_spec q 64).
  - by rewrite Z.mod_pow2_bits_low.
  - by rewrite Z.mod_pow2_bits_high by lia.
Qed.

(** [x ^= x << k] and [x ^= x >> k] lose nothing. *)
Lemma xor_shl_inj k x y : (0 < k)%Z -> (0 <= x < u64_modulus)%Z -> (0 <= y < u64_modulus)%Z ->
  Z.lxor x (wrap64 (Z.shiftl x k)) = Z.lxor y (wrap64 (Z.shiftl y k)) -> x = y.
Proof.
  intros Hk Hx Hy E. apply Z.bits_inj'. intros q Hq. revert q Hq.
  refine (Zlt_0_ind _ _). intros q IH Hq. destruct (Z.le_gt_cases 64 q); [by rewrite !testbit_high|].
  pose proof (f_equal (fun z => Z.testbit z q) E) as Eq. cbn beta in Eq.
  rewrite !Z.lxor_spec, !testbit_wrap, !Z.shiftl_spec, (proj2 (Z.ltb_lt q 64)) in Eq by lia. cbn [andb] in Eq.
  destruct (Z.le_gt_cases k q).
  - rewrite (IH (q - k)) in Eq by lia. by destruct (Z.testbit x q), (Z.testbit y q), (Z.testbit y (q - k)).
  - rewrite !(Z.testbit_neg_r _ (q - k)) in Eq by lia. by rewrite !xorb_false_r in Eq.
Qed.

Lemma xor_shr_inj k x y : (0 < k)%Z -> (0 <= x < u64_modulus)%Z -> (0 <= y < u64_modulus)%Z ->
  Z.lxor x (Z.shiftr x k) = Z.lxor y (Z.shiftr y k) -> x = y.
Proof.
  intros Hk Hx Hy E. apply Z.bits_inj'. intros q Hq. destruct (Z.le_gt_cases 64 q) as [Hh|Hl]; [by rewrite !testbit_high|].
  assert (exists d, 0 <= d /\ q = 63 - d) as (d & Hd & ->) by (exists (63 - q); lia). clear Hl. revert d Hd Hq.
  refine (Zlt_0_ind _ _). intros d IH Hd Hq.
  pose proof (f_equal (fun z => Z.testbit z (63 - d)) E) as Eq. cbn beta in Eq.
  rewrite !Z.lxor_spec, !Z.shiftr_spec in Eq by lia.
  destruct (Z.le_gt_cases 64 (63 - d + k)).
  - rewrite !(testbit_high _ (63 - d + k)), !xorb_false_r in Eq by done. done.
  - replace (63 - d + k) with (63 - (d - k)) in Eq by lia. rewrite (IH (d - k)) in Eq by lia.
    by destruct (Z.testbit x (63 - d)), (Z.testbit y (63 - d)), (Z.testbit y (63 - (d - k))).
Qed.

Lemma lxor_range x y : (0 <= x < u64_modulus)%Z -> (0 <= y < u64_modulus)%Z -> (0 <= Z.lxor x y < u64_modulus)%Z.
Proof.
  intros Hx Hy. assert (wrap64 (Z.lxor x y) = Z.lxor x y) as <-; [|apply wrap64_range].
  apply Z.bits_inj'. intros q Hq. rewrite testbit_wrap by done. destruct (Z.ltb_spec q 64); [done|].
  by rewrite Z.lxor_spec, !testbit_high.
Qed.

Lemma shiftr_range x k : (0 <= k)%Z -> (0 <= x < u64_modulus)%Z -> (0 <= Z.shiftr x k < u64_modulus)%Z.
Proof.
  intros Hk Hx. rewrite Z.shiftr_div_pow2 by done. pose proof (Z.pow_pos_nonneg 2 k ltac:(lia) Hk).
  split; [apply Z.div_pos; lia|]. apply Z.le_lt_trans with x; [|lia]. apply Z.div_le_upper_bound; nia.
Qed.

(** The generator permutes the 64-bit states and keeps away from 0, where it would stay. *)
Lemma next_u64_permutes x y : (0 <= x < u64_modulus)%Z -> (0 <= y < u64_modulus)%Z ->
  (0 <= next_u64 x < u64_modulus)%Z /\ (next_u64 x = next_u64 y -> x = y) /\ (x <> 0%Z -> next_u64 x <> 0%Z).
Proof.
  assert (forall x, (0 <= x < u64_modulus)%Z -> (0 <= next_u64 x < u64_modulus)%Z) as Hr.
  { clear. intros x Hx. unfold next_u64.
    repeat apply lxor_range; try apply shiftr_range; try apply lxor_range; try apply wrap64_range; lia. }
  assert (forall x y, (0 <= x < u64_modulus)%Z -> (0 <= y < u64_modulus)%Z -> next_u64 x = next_u64 y -> x = y) as Hinj.
  { clear. intros x y Hx Hy E. unfold next_u64 in E. pose proof wrap64_range as Hw.
    assert (forall x, (0 <= x < u64_modulus)%Z -> (0 <= Z.lxor x (wrap64 (Z.shiftl x 13)) < u64_modulus)%Z) as H1
      by (intros; by apply lxor_range).
    assert (forall x, (0 <= x < u64_modulus)%Z -> (0 <= Z.lxor x (Z.shiftr x 7) < u64_modulus)%Z) as H2
      by (intros; apply lxor_range; [|apply shiftr_range]; lia).
    apply xor_shl_inj in E; [|lia|by apply H2, H1..]. apply xor_shr_inj in E; [|lia|by apply H1..].
    by apply xor_shl_inj in E; [|lia|..]. }
  intros Hx Hy. split; [by apply Hr|]. split; [by apply Hinj|]. intros Hne E. apply Hne. apply Hinj; [done|split; [done|]|by rewrite E].
  unfold u64_modulus. lia.
Qed.

(** ** Keys are distinct *)

Lemma build_buffer_inj size seed i j : (0 <= size)%Z -> (0 <= seed)%Z ->
  (Z.of_nat i < 2 ^ 64)%Z -> (Z.of_nat j < 2 ^ 64)%Z -> (Z.of_nat i < 256 ^ size)%Z -> (Z.of_nat j < 256 ^ size)%Z ->
  build_buffer size seed i = build_buffer size seed j -> i = j.
Proof.
  intros Hs Hseed Hi Hj Hi2 Hj2 E. unfold build_buffer, write_u64_le in E. rewrite !length_replicate in E.
  set (n := Nat.min (Z.to_nat size) 8) in E.
  apply app_inj_1 in E as [E _]; [|by rewrite !length_take].
  assert (forall b, (b < n)%nat -> Z.shiftr (Z.lxor seed (Z.of_nat i)) (8 * Z.of_nat b) mod 256
    = Z.shiftr (Z.lxor seed (Z.of_nat j)) (8 * Z.of_nat b) mod 256) as Hb.
  { intros b Hb. pose proof (f_equal (fun l => l !! b) E) as Eb. cbn beta in Eb.
    unfold to_le_bytes in Eb. rewrite !lookup_take_lt, !list_lookup_fmap, lookup_seq_lt in Eb by lia.
    injection Eb as Eb. apply (f_equal byte_val) in Eb.
    rewrite !byte_val_of in Eb by (apply Z.mod_pos_bound; lia). done. }
  apply Nat2Z.inj, Z.bits_inj'. intros q Hq.
  assert (Hlim : (forall k, (Z.of_nat k < 2 ^ 64)%Z -> (Z.of_nat k < 256 ^ size)%Z -> (8 * Z.of_nat n <= q)%Z ->
    Z.testbit (Z.of_nat k) q = false)).
  { intros k Hk Hk2 Hq2. destruct (Z.eq_dec (Z.of_nat k) 0) as [->|Hne]; [apply Z.bits_0|].
    apply Z.bits_above_log2; [lia|]. apply Z.log2_lt_pow2; [lia|]. eapply Z.lt_le_trans; [|apply Z.pow_le_mono_r; [lia|exact Hq2]].
    unfold n. destruct (Z.le_gt_cases size 8).
    - rewrite Nat.min_l by lia. rewrite Z2Nat.id by lia. rewrite Z.pow_mul_r by lia. exact Hk2.
    - rewrite Nat.min_r by lia. exact Hk. }
  destruct (Z.le_gt_cases (8 * Z.of_nat n) q) as [Hh|Hl]; [by rewrite !Hlim|].
  pose proof (Z.div_mod q 8 ltac:(lia)) as Hdm. pose proof (Z.mod_pos_bound q 8 ltac:(lia)) as Hm.
  pose proof (Z.div_pos q 8 Hq ltac:(lia)) as Hdp.
  specialize (Hb (Z.to_nat (q / 8)) ltac:(lia)). rewrite Z2Nat.id in Hb by done.
  apply (f_equal (fun z => Z.testbit z (q mod 8))) in Hb. change 256 with (2 ^ 8) in Hb.
  rewrite !Z.mod_pow2_bits_low, !Z.shiftr_spec, !Z.lxor_spec in Hb by lia.
  replace (q mod 8 + 8 * (q / 8)) with q in Hb by lia.
  by destruct (Z.testbit seed q), (Z.testbit (Z.of_nat i) q), (Z.testbit (Z.of_nat j) q).
Qed.

(** ** What the workload does *)

(** The indices a phase visits. *)
Fixpoint indices (mask : Z) (ops : nat) (rng : Z) : list nat :=
  match ops with
  | O => []
  | S ops' => let '(idx, rng') := next_index mask rng in Z.to_nat idx :: indices mask ops' rng'
  end.

Section thms.
Context `{Profile} `{KVEngineLaws E} (clock : nat -> Instant).
Context (count : nat) (key value : nat -> bytes) (k : Z).
Context (Hk : (0 <= k)%Z) (Hcount : Z.of_nat count = 2 ^ k).
Context (Hkeys : forall i j, (i < count)%nat -> (j < count)%nat -> key i = key j -> i = j).

Abbreviation keys := (key <$> seq 0 count).
Abbreviation values := (value <$> seq 0 count).

Lemma in_buffers (f : nat -> bytes) i : (i < count)%nat -> (f <$> seq 0 count) !! i = Some (f i).
Proof. intros Hi. by rewrite list_lookup_fmap, lookup_seq_lt. Qed.

Lemma index_in_range rng : (0 <= fst (next_index (2 ^ k - 1) rng))%Z
  /\ (Z.to_nat (fst (next_index (2 ^ k - 1) rng)) < count)%nat.
Proof.
  unfold next_index. cbn [fst]. replace (2 ^ k - 1)%Z with (Z.ones k) by (rewrite Z.ones_equiv; lia).
  rewrite Z.land_ones by done. pose proof (Z.mod_pos_bound (next_u64 rng) (2 ^ k) ltac:(lia)). lia.
Qed.

Lemma indices_in_range ops : forall rng, Forall (fun i => (i < count)%nat) (indices (2 ^ k - 1) ops rng).
Proof.
  induction ops as [|ops IH]; intros rng; [constructor|]. cbn [indices]. destruct (index_in_range rng) as [_ Hi].
  destruct (next_index (2 ^ k - 1) rng) as [idx rng']. constructor; [exact Hi|apply IH].
Qed.

(** The keys in [done] hold their first value, all others nothing. *)
Definition holds (m : store) (done : list nat) : Prop :=
  (forall i, (i < count)%nat -> i ∈ done -> m !! key i = Some (value i, None))
  /\ forall x, is_Some (m !! x) -> exists i, (i < count)%nat /\ x = key i.

(** The keys in [written] hold the changed value, the others their first one. *)
Definition changed (m : store) (written : list nat) : Prop :=
  (forall i, (i < count)%nat -> m !! key i = Some (if decide (i ∈ written) then flip_first (value i) else value i, None))
  /\ forall x, is_Some (m !! x) -> exists i, (i < count)%nat /\ x = key i.

Lemma bench_set_ok e t m x v : kv_rep false e m ->
  exists e', bench_call clock (fun now => kv_set now x v) (e, t) = (Val tt, (e', S t)) /\ kv_rep false e' (<[x := (v, None)]> m).
Proof.
  intros Hr. destruct (kv_set_ok false e m (clock t) x v Hr) as (e' & m' & Es & Hr' & ->).
  exists e'. split; [|done]. unfold bench_call. by rewrite Es.
Qed.

Lemma load_ok idxs : forall e t m done, Forall (fun i => (i < count)%nat) idxs -> kv_rep false e m -> holds m done ->
  exists e' t' m', load_phase clock keys values idxs (e, t) = (Val tt, (e', t')) /\ kv_rep false e' m' /\ holds m' (done ++ idxs).
Proof.
  induction idxs as [|i idxs IH]; intros e t m done Hi Hr Hm.
  { exists e, t, m. rewrite app_nil_r. by split_and!. }
  apply Forall_cons in Hi as [Hi Hidxs]. cbn [load_phase]. rewrite !in_buffers by done.
  change (expect (Some ?x)) with (mret x : M (E * nat) HkvError bytes). rewrite !bind_ret.
  destruct (bench_set_ok e t m (key i) (value i) Hr) as (e1 & E1 & Hr1). rewrite (bind_val _ _ _ _ _ E1).
  destruct (IH e1 (S t) _ (done ++ [i]) Hidxs Hr1) as (e' & t' & m' & E2 & Hr' & Hm').
  { destruct Hm as [Hm1 Hm2]. split.
    - intros j Hj Hin. destruct (decide (key i = key j)) as [Ek|Ek].
      + apply Hkeys in Ek as <-; [|done..]. by rewrite lookup_insert_eq.
      + rewrite lookup_insert_ne by done. apply Hm1; [done|]. set_solver.
    - intros x. rewrite lookup_insert_is_Some. intros [<-|[_ Hx]]; [by exists i|by apply Hm2]. }
  exists e', t', m'. split_and!; try done. by rewrite <- app_assoc in Hm'.
Qed.

Lemma get_ok ops : forall e t m rng, kv_rep false e m -> holds m (seq 0 count) ->
  exists e' t', get_phase clock keys (2 ^ k - 1) ops rng (e, t)
    = (Val ((fun i => Some (value i)) <$> indices (2 ^ k - 1) ops rng), (e', t')) /\ kv_rep false e' m.
Proof.
  induction ops as [|ops IH]; intros e t m rng Hr Hm; [by exists e, t|]. cbn [get_phase indices].
  destruct (index_in_range rng) as [_ Hi]. destruct (next_index (2 ^ k - 1) rng) as [idx rng']. cbn [fst] in Hi.
  rewrite in_buffers by done. change (expect (Some ?x)) with (mret x : M (E * nat) HkvError bytes). rewrite bind_ret.
  destruct (kv_get_ok false e m (clock t) (key (Z.to_nat idx)) Hr) as (e1 & E1 & Hr1).
  assert (m_live (clock t) (key (Z.to_nat idx)) m = Some (value (Z.to_nat idx), None)) as Hl.
  { unfold m_live. destruct Hm as [Hm _]. rewrite Hm; [done|done|]. apply elem_of_seq. lia. }
  unfold m_touch in Hr1. rewrite Hl in E1, Hr1.
  assert (bench_call clock (fun now => kv_get now (key (Z.to_nat idx))) (e, t) = (Val (Some (value (Z.to_nat idx))), (e1, S t)))
    as Ec by (unfold bench_call; by rewrite E1).
  rewrite (bind_val _ _ _ _ _ Ec). destruct (IH e1 (S t) m rng' Hr1 Hm) as (e' & t' & E2 & Hr').
  rewrite (bind_val _ _ _ _ _ E2). by exists e', t'.
Qed.

Lemma set_ok ops : forall e t m rng written, kv_rep false e m -> changed m written ->
  exists e' t' m', set_phase clock keys values (2 ^ k - 1) ops rng (e, t) = (Val tt, (e', t'))
    /\ kv_rep false e' m' /\ changed m' (written ++ indices (2 ^ k - 1) ops rng).
Proof.
  induction ops as [|ops IH]; intros e t m rng written Hr Hm.
  { exists e, t, m. cbn [indices]. by rewrite app_nil_r. }
  cbn [set_phase indices].
  destruct (index_in_range rng) as [_ Hi]. destruct (next_index (2 ^ k - 1) rng) as [idx rng']. cbn [fst] in Hi.
  set (i := Z.to_nat idx) in *. rewrite !in_buffers by done.
  change (expect (Some ?x)) with (mret x : M (E * nat) HkvError bytes). rewrite !bind_ret.
  destruct (bench_set_ok e t m (key i) (flip_first (value i)) Hr) as (e1 & E1 & Hr1). rewrite (bind_val _ _ _ _ _ E1).
  rewrite cons_middle, app_assoc. apply (IH e1 (S t) _ rng' _ Hr1). destruct Hm as [Hm1 Hm2]. split.
  - intros j Hj. destruct (decide (key i = key j)) as [Ek|Ek].
    + apply Hkeys in Ek as <-; [|done..]. rewrite lookup_insert_eq, decide_True by set_solver. done.
    + rewrite lookup_insert_ne by done. rewrite Hm1 by done. do 2 f_equal. apply decide_ext.
      assert (j <> i) by (by intros ->). set_solver.
  - intros x. rewrite lookup_insert_is_Some. intros [<-|[_ Hx]]; [by exists i|by apply Hm2].
Qed.

End thms.

(** ** From the arguments to the reads *)

Lemma power_of_two_exact v : is_power_of_two v = true -> v = (2 ^ Z.log2_up v)%Z.
Proof.
  unfold is_power_of_two. rewrite andb_true_iff, Z.ltb_lt, Z.eqb_eq. intros [Hv Hl].
  pose proof (Z.log2_spec v Hv) as [Hlo Hhi]. pose proof (Z.log2_nonneg v).
  destruct (Z.eq_dec v (2 ^ Z.log2 v)) as [E|Hne]; [rewrite E at 2; by rewrite Z.log2_up_pow2|].
  exfalso. assert (Z.log2 (v - 1) = Z.log2 v) as E by (apply Z.log2_unique; lia).
  apply (f_equal (fun z => Z.testbit z (Z.log2 v))) in Hl. rewrite Z.land_spec, Z.bits_0, Z.bit_log2 in Hl by done.
  rewrite <- E, Z.bit_log2 in Hl; [done|]. pose proof (Z.pow_pos_nonneg 2 (Z.log2 v)). lia.
Qed.

Lemma normalized `{Profile} {S E} v (s : S) : (v <= 2 ^ 63)%Z ->
  normalize_power_of_two (E := E) v s = (Val (2 ^ Z.log2_up (Z.max v 1))%Z, s)
  /\ (Z.max v 1 <= 2 ^ Z.log2_up (Z.max v 1) < 2 * Z.max v 1)%Z.
Proof.
  intros Hv. set (n := Z.max v 1). assert (1 <= n <= 2 ^ 63)%Z as Hn by lia.
  assert (n <= 2 ^ Z.log2_up n < 2 * n)%Z as Hb.
  { destruct (Z.eq_dec n 1) as [->|Hne]; [done|]. pose proof (Z.log2_up_spec n ltac:(lia)) as [Hlo Hhi].
    pose proof (Z.log2_up_pos n ltac:(lia)). split; [lia|].
    replace (Z.log2_up n) with (Z.succ (Z.pred (Z.log2_up n))) by lia. rewrite Z.pow_succ_r; lia. }
  split; [|done]. unfold normalize_power_of_two. fold n. destruct (is_power_of_two n) eqn:Ep.
  - by rewrite <- (power_of_two_exact n Ep).
  - unfold next_power_of_two. rewrite (proj2 (Z.leb_le _ _)); [done|].
    assert (2 ^ Z.log2_up n <= 2 ^ 63)%Z as Hle; [|unfold usize_max, u64_max, u64_modulus; lia].
    apply Z.pow_le_mono_r; [lia|]. apply Z.log2_up_le_pow2; lia.
Qed.

(** On any lawful unbounded engine that starts empty, in either build profile, and for any arguments
    that ask for at most 2^63 keys of a size that tells them apart, the benchmark runs to its end without
    an error or a panic: its keys are a power of two, the least that is enough, every index it draws is one
    of a key, every read finds the value the key was loaded with, and at the end exactly these keys are
    there, changed if the second generator drew them and as they were loaded if not. *)
Theorem bench_reads_what_it_loaded `{Profile} `{KVEngineLaws E} clock args e :
  let requested := parse_arg (args !! 0%nat) DEFAULT_KEY_COUNT in
  let count := 2 ^ Z.log2_up (Z.max requested 1) in
  let key := build_buffer (parse_arg (args !! 2%nat) DEFAULT_KEY_SIZE) KEY_SEED in
  let value := build_buffer (parse_arg (args !! 3%nat) DEFAULT_VALUE_SIZE) VALUE_SEED in
  let drawn := indices (count - 1) (Z.to_nat (parse_arg (args !! 1%nat) DEFAULT_OP_COUNT)) in
  kv_rep false e ∅ -> requested <= 2 ^ 63 -> count <= 256 ^ parse_arg (args !! 2%nat) DEFAULT_KEY_SIZE ->
  (Z.max requested 1 <= count < 2 * Z.max requested 1)%Z
  /\ (forall seed, Forall (fun i => (i < Z.to_nat count)%nat) (drawn seed))
  /\ exists e' t' m', bench_engine_run clock args (e, 0%nat) = (Val ((fun i => Some (value i)) <$> drawn GET_SEED), (e', t'))
       /\ kv_rep false e' m' /\ changed (Z.to_nat count) key value m' (drawn SET_SEED).
Proof.
  intros requested count key value drawn Hr Hreq Hsize.
  destruct (normalized (S := E * nat) (E := HkvError) requested (e, 0%nat) Hreq) as [En Hb].
  fold count in En, Hb. set (k := Z.log2_up (Z.max requested 1)) in *.
  assert (0 <= k)%Z as Hk by apply Z.log2_up_nonneg.
  assert (Z.of_nat (Z.to_nat count) = 2 ^ k)%Z as Hcount by (apply Z2Nat.id; lia).
  assert (count <= 2 ^ 63)%Z as Hc63.
  { apply Z.pow_le_mono_r; [lia|]. apply Z.log2_up_le_pow2; lia. }
  set (ksize := parse_arg (args !! 2%nat) DEFAULT_KEY_SIZE) in *.
  assert (0 <= ksize)%Z as Hks.
  { destruct (Z.le_gt_cases 0 ksize); [done|]. rewrite Z.pow_neg_r in Hsize by done. lia. }
  assert (forall i j, (i < Z.to_nat count)%nat -> (j < Z.to_nat count)%nat -> key i = key j -> i = j) as Hkeys.
  { intros i j Hi Hj. apply build_buffer_inj; unfold KEY_SEED; lia. }
  assert (from_args (S := E * nat) (E := HkvError) args (e, 0%nat) = (Val (mkConfig requested count (count - 1)
    (parse_arg (args !! 1%nat) DEFAULT_OP_COUNT) ksize (parse_arg (args !! 3%nat) DEFAULT_VALUE_SIZE)), (e, 0%nat))) as Ef.
  { unfold from_args. rewrite (bind_val _ _ _ _ _ En). unfold usize_pred. rewrite (proj2 (Z.leb_le _ _)) by lia.
    by rewrite bind_ret. }
  split; [done|]. split; [intros seed; by apply (indices_in_range (Z.to_nat count) k)|].
  unfold bench_engine_run. rewrite (bind_val _ _ _ _ _ Ef). cbn [key_count key_mask op_count key_size value_size].
  unfold build_buffers. fold key. fold value.
  destruct (load_ok clock (Z.to_nat count) key value k Hk Hcount Hkeys (seq 0 (Z.to_nat count)) e 0%nat ∅ [])
    as (e1 & t1 & m1 & E1 & Hr1 & Hm1); [|done| |].
  { apply Forall_seq. lia. }
  { split; [intros i _ []%not_elem_of_nil|]. intros x [y Hy]. by rewrite lookup_empty in Hy. }
  rewrite (bind_val _ _ _ _ _ E1).
  destruct (get_ok clock (Z.to_nat count) key value k Hk Hcount (Z.to_nat (parse_arg (args !! 1%nat) DEFAULT_OP_COUNT))
    e1 t1 m1 GET_SEED Hr1 Hm1) as (e2 & t2 & E2 & Hr2). rewrite (bind_val _ _ _ _ _ E2).
  destruct (set_ok clock (Z.to_nat count) key value k Hk Hcount Hkeys (Z.to_nat (parse_arg (args !! 1%nat) DEFAULT_OP_COUNT))
    e2 t2 m1 SET_SEED [] Hr2) as (e3 & t3 & m3 & E3 & Hr3 & Hm3).
  { destruct Hm1 as [Ha Hb1]. split; [|done]. intros i Hi. rewrite decide_False by set_solver.
    apply Ha; [done|]. apply elem_of_seq. lia. }
  rewrite (bind_val _ _ _ _ _ E3). by exists e3, t3, m3.
Qed.

(** Three keys asked for are four, on the engine of hkv-engine. *)
Lemma bench_reads_what_it_loaded_witness :
  let args := [lit "3"; lit "5"; lit "1"; lit "2"] in
  let value := build_buffer 2 VALUE_SEED in
  let drawn := indices 3 5 in
  drawn GET_SEED = [1; 3; 3; 0; 0]%nat
  /\ exists e' t' m', bench_engine_run (H := release_profile) (H0 := engine0) clock0 args (w_engine w0, 0%nat)
       = (Val ((fun i => Some (value i)) <$> drawn GET_SEED), (e', t'))
     /\ @kv_rep _ _ laws0 false e' m' /\ changed 4 (build_buffer 1 KEY_SEED) value m' (drawn SET_SEED).
Proof.
  split; [vm_compute; reflexivity|].
  pose proof (bench_reads_what_it_loaded (H := release_profile) (H0 := engine0) (H1 := laws0) clock0
    [lit "3"; lit "5"; lit "1"; lit "2"] (w_engine w0)) as T.
  destruct (T w0_rep) as (_ & _ & R); [vm_compute; discriminate|vm_compute; discriminate|]. exact R.
Defined.
